(* ===== verification/_CoqProject ===== *)
-Q . S2P
Prelude.v
GoStrings.v
GoFloat.v
GoPath.v
GoTime.v
GoParse.v
Hash.v
Domain.v
Disk.v
Wire.v
Lineage.v
WalModel.v
WalFrame.v
WalStore.v
WalInv.v
WalOps.v
WalRecovery.v
WalCrash.v
WalTheorems.v
WalAudit.v
Topology.v
ReplicaPolicy.v
OffsetTracker.v
Formal.v
Ring.v
Pool.v
ReplicaStore.v
ReplicaLog.v
Mesh.v
EdgeLog.v
Edge.v
EdgeNode.v
Proc.v
Database.v
Reliability.v
Worker.v
Consumer.v
Autonomy.v
Shaping.v
Connectors.v
Router.v
Outbox.v
Policy.v
ChangeIntel.v
Shaper.v
Pipeline.v
Security.v
Cardinality.v
Replay.v
CostSim.v
Incident.v
FlightRecorder.v
Evidence.v
Intelligence.v
