(* ===== verification/Prelude.v ===== *)
(** * TelemetryForge: a verification library

    TelemetryForge collects telemetry events at edge nodes, carries them through Kafka to a
    worker pool, and routes them to backends, keeping an audit of everything it drops or
    changes.  This library is a shallow embedding of its Go packages in Rocq: pure functions
    are functions, fallible ones return [result], code under one mutex is an operation on
    the state it guards, and code whose calls interleave with other goroutines is a [proc],
    a tree of calls and answers, or a machine of small steps.

    ** The program and the files

    An event enters at an _edge node_ ([cmd/edge]).  It is accepted when it is in the
    write-ahead log, and with a replication manager when a quorum of peers has a copy; a
    background goroutine delivers the log through the mesh of edge nodes to Kafka.
    - [Disk]: the file system, with faults and crashes.  [Wire]: codecs to evaluate with.
    - [Lineage]: [internal/lineage], signed segment seals and Merkle roots.
    - [WalModel], [WalFrame], [WalStore]: [internal/wal/model.go] and [store.go].  [WalInv],
      [WalOps], [WalRecovery], [WalCrash]: the invariant of the log, what each operation does
      under every schedule of I/O faults, recovery, and crashes.  [WalTheorems]: the log as a
      queue.  [WalAudit]: [internal/wal/audit.go].
    - [Topology], [ReplicaPolicy]: [internal/replication/policy.go], [model.go], [manager.go];
      [ReplicaStore], [ReplicaLog]: [store.go] and [http.go] of the same package.
    - [Mesh]: [internal/mesh].  [EdgeLog]: the interface of the log, with its instance.
      [Edge]: [internal/edge].  [EdgeNode]: all of it composed as [cmd/edge] does.
    - [Ring], [Pool]: [internal/fastpath], the lock-free ring atomic access by atomic access.
    - [Formal]: [internal/formal], the program's own bounded model checker.

    _Workers_ ([cmd/worker]) consume the events and run each through a chain of stages.
    - [Proc], [Database]: programs that call their environment, and transactions.
    - [Reliability], [Worker], [OffsetTracker], [Consumer]: [internal/reliability],
      [internal/worker] (pool, chain) and [internal/stream] (coordinator, consumer).
    - [Autonomy], [Shaping], [Shaper]: [internal/autonomy], [internal/shaping], the shaping
      stage with its decision store in [internal/storage/shaping.go].
    - [Policy], [Cardinality]: [internal/policy] and the shared tracker of
      [internal/storage/cardinality.go].  [ChangeIntel]: [internal/changeintel] and its store.
    - [Connectors], [Router], [Outbox]: [internal/connectors/model.go], [internal/router], and
      the outbox tables of [internal/storage/routing.go] with their dispatcher.
    - [Pipeline]: the stages in the order of [cmd/worker], behind the consumer.

    _Incidents_ are windows of the flight recorder, frozen and analysed.
    - [Incident]: [internal/incident], the detector among its goroutines.
    - [FlightRecorder]: the buffer, freezing and reading back ([internal/storage]).
    - [Replay], [CostSim]: [internal/replay], [internal/costsim].
    - [Evidence], [Intelligence]: [internal/evidence], [internal/intelligence].
    - [Security]: [internal/security], authentication and redaction.

    This file holds the shared types, the state-and-error monad with its logic and the
    generic lemmas.  [GoStrings], [GoFloat], [GoPath], [GoTime], [GoParse], [Hash] model what
    the program uses of the Go library: text, hexadecimal and base64, binary64 numbers,
    [path.Match], times and durations, CRC-32 and SHA-256, all executable.  [Domain] is the
    event envelope.

    ** What the theorems show

    - _The log_: an append that returns survives every crash and is delivered in order; a
      commit removes exactly the records it covers and is never undone; every damaged frame
      is refused; the log stays within its limits; reopening gives the same queue; records
      form a hash chain whose change is a SHA-256 collision; the audit verifies a directory.
    - _Replication and mesh_: the manager reports durable exactly when the policy is met, an
      acknowledged replica survives, routing is deterministic, and delivery fails over to
      the next owner.  _The node_: whatever fails, every accepted event is delivered at least
      once or still in the log, not before it is replicated; and the queue drains when the
      environment is healthy.
    - _The workers_: in every interleaving, a committed offset means that every record up to
      it was dead-lettered, or flight-recorded, written and enqueued for routing, or sampled
      out by a stored decision; batches end; rebalancing waits for jobs.  The ring delivers
      each item once.
    - _Decisions_: protected events are never sampled out; every removal has a stored
      cause; the outbox accounts for every planned delivery and settles it once; plans are
      exact; fallbacks end; trackers count distinct values; the control loop acts only
      through audited actions within its limits.
    - _Incidents_: one freeze per key and cooldown, and no breach suppressed without one; a
      frozen window reads back exactly; replays are isolated and add up; every edge of an
      evidence graph is true of the data; an investigation cites its evidence.

    Lemmas beside them prove where the code departs from what it means or documents; the
    file of the component states each as a counterexample or as a general fact.

    ** Conventions and bounds

    A time is a number of nanoseconds since year 1 and does not leave the range of
    [time.Time]; durations and 64-bit integers wrap where the source can overflow.  A [float64]
    is an IEEE datum, without fused multiply-add.  Case folding is that of ASCII letters.
    The text of an error is kept where code looks at it; elsewhere an error is a value that
    keeps what is wrapped in it.  Where the iteration order of a Go map can be seen it is an
    argument or an answer of the environment, and the theorems hold for every order.  A lost
    reply of the database is a fault after which the transaction may have happened.

    Loops that are not structural take fuel, and the fuel given is shown to be enough or is
    a bound of the loop itself: bytes left for scanners and parsers ([scan_frames],
    [match_go], [duration_terms], [slug_loop]), the attempts of a retry loop, destinations
    plus two for fallbacks, the size of a closed set for [explore_loop].  The ring's theorems
    hold for executions with fewer than [2^63] pushes less the capacity.

    Code outside the repository is a parameter: JSON codecs (with decoding after encoding
    where it is relied on), Ed25519 (a class with its laws), [url.Parse], the length of an
    event's JSON form, PostgreSQL's collation and scan order, the random source, clocks, and
    the answers of brokers, peers and stores, which may be anything.

    ** Not modelled

    The HTTP and OTLP handlers of [internal/api] and the protocol adapters of
    [internal/connectors] translate between net/http, protobuf or vendor formats and the
    operations modelled here; their content is those third-party encodings.  Read-only SQL
    queries of [internal/storage] behind dashboards are statements for the database.
    [internal/incidentarchive] is zip, AES-GCM and HTML of the Go library;
    [internal/schema] infers shapes from JSON through [encoding/json]; [internal/ebpf] and
    [internal/wasmplugin] are kernel and WebAssembly interfaces; [internal/proof],
    [internal/multicloudproof], [internal/fabric] and [internal/lifecycle] validate records
    that operators edit.  Flags, environment variables, logging, metrics and probes have no
    effect on the modelled state. *)

From Stdlib Require Export ZArith Lia.
From Stdlib Require Export Strings.Byte Strings.Ascii.
From stdpp Require Export base tactics list option gmap strings fin_maps sorting.

#[global] Open Scope Z_scope.

(** ** Bytes and machine integers

    A Go [byte] is [Byte.byte]; a [[]byte] is a list of them.  Unsigned 64-bit
    integers are integers kept in range by [u64], which is applied by every
    operation that can wrap. *)

Abbreviation bytes := (list Byte.byte).

#[export] Instance byte_eq_dec : EqDecision Byte.byte := Byte.byte_eq_dec.

Definition modulus64 : Z := 2 ^ 64.
Definition u64 (z : Z) : Z := z mod modulus64.
Definition u64_succ (z : Z) : Z := u64 (z + 1).
Definition u64_sub (a b : Z) : Z := u64 (a - b).
Definition is_u64 (z : Z) : Prop := 0 <= z < modulus64.
Definition i64 (z : Z) : Z :=
  let w := z mod modulus64 in if w <? 2 ^ 63 then w else w - modulus64.

Definition zlen {A} (l : list A) : Z := Z.of_nat (length l).

(** ** Errors and results

    A Go [error] carries either one of the sentinel values the code compares
    with [errors.Is], a constant message, a wrapped cause ([fmt.Errorf] with
    [%w]), a cause with its retry class ([reliability.Error]) or retryability
    ([connectors.DeliveryError]), the pipeline's stop marker, or a pair of errors ([errors.Join]).  Messages keep the constant text of the format string; the formatted
    arguments are dropped. *)

(** [reliability.Class]. *)
Inductive Class : Type := Transient | Permanent.

#[export] Instance Class_eq_dec : EqDecision Class.
Proof. solve_decision. Defined.

Inductive error : Type :=
  | ErrClosed
  | ErrDiskPressure
  | ErrNotExist
  | ErrExist
  | ErrEOF
  | ErrUnexpectedEOF
  | ErrShortWrite
  | ErrIO
  | ErrReplicaConflict
  | ErrReplicaPressure
  | ErrQuorumUnavailable
  | ErrNoRoute
  | ErrCancelled
  | ErrMsg (text : string)
  | ErrWrap (text : string) (cause : error)
  | ErrClassified (class : Class) (op : string) (cause : error)
  | ErrDelivery (retryable : bool) (cause : error)
  | ErrStop (reason : string)
  | ErrJoin (first second : error).

#[export] Instance error_eq_dec : EqDecision error.
Proof. solve_decision. Defined.

(** [errors.Is err target]: the chain of wrapped causes contains the target. *)
Fixpoint errors_is (err target : error) : bool :=
  bool_decide (err = target) ||
  match err with
  | ErrWrap _ cause | ErrClassified _ _ cause | ErrDelivery _ cause => errors_is cause target
  | ErrJoin first second => errors_is first target || errors_is second target
  | _ => false
  end.

Inductive result (A : Type) : Type :=
  | Ok (a : A)
  | Err (e : error).
Arguments Ok {A} a.
Arguments Err {A} e.

#[export] Instance result_eq_dec {A} `{EqDecision A} : EqDecision (result A).
Proof. solve_decision. Defined.

#[export] Instance result_mret : MRet result := fun A a => Ok a.
#[export] Instance result_mbind : MBind result := fun A B f m =>
  match m with Ok a => f a | Err e => Err e end.

Definition is_ok {A} (r : result A) : bool :=
  match r with Ok _ => true | Err _ => false end.

(** The first error of a list of checks, in order; and the common check. *)
Fixpoint first_error (checks : list (result unit)) : result unit :=
  match checks with
  | [] => Ok tt
  | Ok _ :: rest => first_error rest
  | Err e :: _ => Err e
  end.

Definition reject_if (b : bool) (text : string) : result unit := if b then Err (ErrMsg text) else Ok tt.

(** ** Stateful, fallible code

    A Go method on a receiver of state [S] returning [(A, error)]: an error
    return keeps whatever state changes were already made. *)

Definition M (S A : Type) : Type := S -> result A * S.

#[export] Instance M_mret {S} : MRet (M S) := fun A a s => (Ok a, s).
#[export] Instance M_mbind {S} : MBind (M S) := fun A B f m s =>
  match m s with
  | (Ok a, s') => f a s'
  | (Err e, s') => (Err e, s')
  end.

Definition get {S} : M S S := fun s => (Ok s, s).
Definition put {S} (s : S) : M S unit := fun _ => (Ok tt, s).
Definition modify {S} (f : S -> S) : M S unit := fun s => (Ok tt, f s).
Definition raise {S A} (e : error) : M S A := fun s => (Err e, s).
Definition lift {S A} (r : result A) : M S A := fun s => (r, s).

(** [if err := c; err != nil { handler }]: run a handler on the error path. *)
Definition on_error {S A} (m : M S A) (h : error -> M S A) : M S A := fun s =>
  match m s with
  | (Err e, s') => h e s'
  | r => r
  end.

(** [err != nil] turned into a value, for code that branches on it. *)
Definition attempt {S A} (m : M S A) : M S (result A) := fun s =>
  let '(r, s') := m s in (Ok r, s').

(** ** Generic lemmas *)

Lemma cons_eq {A} (x y : A) l k : x :: l = y :: k -> x = y /\ l = k.
Proof. by inversion 1. Qed.

(** A list of checks passes when each one does. *)
Lemma first_error_Ok l : first_error l = Ok tt <-> Forall (fun r => r = Ok tt) l.
Proof.
  induction l as [|[[]|e] l IH]; cbn; [by split| |].
  - rewrite IH, Forall_cons. tauto.
  - split; [done|]. by inversion 1.
Qed.

Lemma reject_if_Ok b text : reject_if b text = Ok tt <-> b = false.
Proof. by destruct b. Qed.

(** ** Weakest preconditions

    [wp m Q s]: running [m] from [s] ends with an outcome and a state in [Q].
    Since [M] is a total function this is a statement about every run, errors
    included. *)

Definition wp {S A} (m : M S A) (Q : result A -> S -> Prop) (s : S) : Prop :=
  Q (m s).1 (m s).2.

(** The continuation of a bind: go on with the value, or stop with the error. *)
Definition and_then {S A B} (f : A -> M S B) (Q : result B -> S -> Prop) (r : result A) (s : S)
  : Prop :=
  match r with
  | Ok a => wp (f a) Q s
  | Err e => Q (Err e) s
  end.

Section wp.
Context {S : Type}.
Implicit Types s : S.

Lemma wp_run {A} (m : M S A) Q s : wp m Q s <-> forall r s', m s = (r, s') -> Q r s'.
Proof. unfold wp. destruct (m s) as [r s']. split; [by intros ? ? ? [= <- <-]|auto]. Qed.

Lemma wp_intro {A} (m : M S A) (Q : result A -> S -> Prop) s r s' :
  m s = (r, s') -> Q r s' -> wp m Q s.
Proof. unfold wp. by intros ->. Qed.

Lemma wp_mono {A} (m : M S A) (P Q : result A -> S -> Prop) s :
  wp m P s -> (forall r s', P r s' -> Q r s') -> wp m Q s.
Proof. unfold wp. auto. Qed.

Lemma wp_ret {A} (a : A) (Q : result A -> S -> Prop) s : Q (Ok a) s -> wp (mret a) Q s.
Proof. done. Qed.

Lemma wp_raise {A} e (Q : result A -> S -> Prop) s : Q (Err e) s -> wp (raise e) Q s.
Proof. done. Qed.

Lemma wp_lift {A} (r : result A) (Q : result A -> S -> Prop) s : Q r s -> wp (lift r) Q s.
Proof. done. Qed.

Lemma wp_get (Q : result S -> S -> Prop) s : Q (Ok s) s -> wp get Q s.
Proof. done. Qed.

Lemma wp_modify f (Q : result unit -> S -> Prop) s : Q (Ok tt) (f s) -> wp (modify f) Q s.
Proof. done. Qed.

Lemma wp_bind {A B} (m : M S A) (f : A -> M S B) Q s :
  wp m (and_then f Q) s -> wp (m ≫= f) Q s.
Proof.
  unfold wp, and_then, mbind, M_mbind. by destruct (m s) as [[a|e] s'].
Qed.

Lemma run_bind {A B} (m : M S A) (f : A -> M S B) s a s' : m s = (Ok a, s') -> (m ≫= f) s = f a s'.
Proof. unfold mbind, M_mbind. by intros ->. Qed.

Lemma wp_on_error {A} (m : M S A) h (Q : result A -> S -> Prop) s :
  wp m (fun r s' => match r with Ok a => Q (Ok a) s' | Err e => wp (h e) Q s' end) s ->
  wp (on_error m h) Q s.
Proof. unfold wp, on_error. by destruct (m s) as [[a|e] s']. Qed.

Lemma wp_attempt {A} (m : M S A) (Q : result (result A) -> S -> Prop) s :
  wp m (fun r s' => Q (Ok r) s') s -> wp (attempt m) Q s.
Proof. unfold wp, attempt. by destruct (m s). Qed.

End wp.

(** ** Automation *)

Create HintDb go discriminated.

(** Reduce [wp] of the monad's own operations. *)
Ltac wp_step :=
  lazymatch goal with
  | |- wp (mbind _ _) _ _ => apply wp_bind
  | |- wp (mret _) _ _ => apply wp_ret
  | |- wp (raise _) _ _ => apply wp_raise
  | |- wp (lift _) _ _ => apply wp_lift
  | |- wp get _ _ => apply wp_get
  | |- wp (modify _) _ _ => apply wp_modify
  | |- wp (on_error _ _) _ _ => apply wp_on_error
  | |- wp (attempt _) _ _ => apply wp_attempt
  | |- and_then _ _ (Ok _) _ => unfold and_then at 1
  | |- and_then _ _ (Err _) _ => unfold and_then at 1
  | |- and_then _ _ (mret _) _ => unfold and_then at 1, mret at 1, result_mret at 1
  end.
Ltac wp_steps := repeat (wp_step; cbv beta).

(** The boolean structure of the guards the code went through, then their
    meaning. *)
Ltac bools :=
  repeat match goal with
  | H : _ && _ = true |- _ => apply andb_prop in H as [? ?]
  | H : negb _ = true |- _ => apply negb_true_iff in H
  | H : _ || _ = false |- _ => apply orb_false_elim in H as [? ?]
  | H : negb _ = false |- _ => apply negb_false_iff in H
  end.
Ltac guards :=
  bools;
  repeat match goal with
  | H : bool_decide _ = true |- _ => apply bool_decide_eq_true in H
  | H : bool_decide _ = false |- _ => apply bool_decide_eq_false in H
  | H : (_ =? _) = true |- _ => apply Z.eqb_eq in H
  | H : (_ =? _) = false |- _ => apply Z.eqb_neq in H
  | H : (_ <? _) = true |- _ => apply Z.ltb_lt in H
  | H : (_ <? _) = false |- _ => apply Z.ltb_ge in H
  | H : (_ <=? _) = true |- _ => apply Z.leb_le in H
  | H : (_ <=? _) = false |- _ => apply Z.leb_gt in H
  end.

(** Split the conditional at the head of the goal. *)
Ltac split_if :=
  match goal with
  | |- wp (if ?b then _ else _) _ _ => let E := fresh "G" in destruct b eqn:E
  end.

(** ** Sums and lengths *)

Definition sumZ (l : list Z) : Z := foldr Z.add 0 l.

Lemma sumZ_cons x l : sumZ (x :: l) = x + sumZ l.
Proof. done. Qed.

Lemma sumZ_app l k : sumZ (l ++ k) = sumZ l + sumZ k.
Proof. induction l as [|x l IH]; cbn; [done|]. unfold sumZ in *. lia. Qed.

Lemma sumZ_snoc l x : sumZ (l ++ [x]) = sumZ l + x.
Proof. rewrite sumZ_app. unfold sumZ at 2. cbn. lia. Qed.

Lemma zlen_nil {A} : zlen (A:=A) [] = 0.
Proof. done. Qed.

Lemma zlen_cons {A} (x : A) l : zlen (x :: l) = 1 + zlen l.
Proof. unfold zlen. cbn [length]. lia. Qed.

Lemma zlen_app {A} (l k : list A) : zlen (l ++ k) = zlen l + zlen k.
Proof. unfold zlen. rewrite length_app. lia. Qed.

Lemma zlen_nonneg {A} (l : list A) : 0 <= zlen l.
Proof. unfold zlen. lia. Qed.

Lemma zlen_zero {A} (l : list A) : zlen l = 0 <-> l = [].
Proof. split; [|by intros ->]. destruct l; [done|]. rewrite zlen_cons. pose proof (zlen_nonneg l). lia. Qed.

Lemma zlen_pos {A} (l : list A) : l <> [] -> 0 < zlen l.
Proof. destruct l; [done|]. rewrite zlen_cons. pose proof (zlen_nonneg l). lia. Qed.

Create Rewrite HintDb go_len.
#[export] Hint Rewrite @zlen_nil @zlen_cons @zlen_app @length_app : go_len.

(** Sequence arithmetic that does not wrap. *)
Lemma u64_small z : is_u64 z -> u64 z = z.
Proof. intros. by apply Z.mod_small. Qed.

Lemma u64_succ_small z : 0 <= z -> z + 1 < modulus64 -> u64_succ z = z + 1.
Proof. intros. apply u64_small. split; lia. Qed.

