(* ===== verification/GoStrings.v ===== *)
(** * Go strings, text encodings and fixed-width integers

    The parts of [strings], [strconv], [path/filepath], [encoding/hex],
    [encoding/base64] and [encoding/binary] the modelled packages use, as
    executable functions with the round trips the components rely on. *)

From S2P Require Import Prelude.

Local Open Scope string_scope.
Local Open Scope Z_scope.
Local Open Scope list_scope.

(** ** Conversions between strings and byte slices *)

Definition to_bytes (s : string) : bytes := String.list_byte_of_string s.
Definition of_bytes (b : bytes) : string := String.string_of_list_byte b.

(** ** [strings.TrimSpace]

    Go trims every Unicode white-space character of the UTF-8 text: the six
    ASCII ones and the multi-byte encodings listed here. *)

Definition seq_of (codes : list N) : string :=
  foldr (fun c s => String (ascii_of_N c) s) "" codes.

Definition space_seqs : list string :=
  seq_of <$>
  ([[9]; [10]; [11]; [12]; [13]; [32]; [194; 133]; [194; 160]; [225; 154; 128];
    [226; 128; 168]; [226; 128; 169]; [226; 128; 175]; [226; 129; 159]; [227; 128; 128]]
   ++ ((fun k => [226; 128; 128 + k])%N <$> [0; 1; 2; 3; 4; 5; 6; 7; 8; 9; 10]))%N.

Fixpoint strip_prefix (p s : string) : option string :=
  match p, s with
  | "", _ => Some s
  | String a p', String b s' => if bool_decide (a = b) then strip_prefix p' s' else None
  | String _ _, "" => None
  end.

Definition strip_any (seqs : list string) (s : string) : option string :=
  foldr (fun p acc => match strip_prefix p s with Some r => Some r | None => acc end) None seqs.

Fixpoint trim_left_go (seqs : list string) (fuel : nat) (s : string) : string :=
  match fuel with
  | O => s
  | S fuel => match strip_any seqs s with
              | Some r => trim_left_go seqs fuel r
              | None => s
              end
  end.

Definition trim_left (seqs : list string) (s : string) : string :=
  trim_left_go seqs (String.length s) s.

Definition trim_space (s : string) : string :=
  String.rev (trim_left (String.rev <$> space_seqs) (String.rev (trim_left space_seqs s))).

(** [strings.TrimSpace(s) == ""], the emptiness test of every validator. *)
Definition blank (s : string) : bool := bool_decide (trim_space s = "").

(** [strings.ToLower] on ASCII letters; the code only compares its result with
    ASCII keywords and hexadecimal digests. *)
Definition lower_ascii (c : ascii) : ascii :=
  let n := N_of_ascii c in
  if (65 <=? n)%N && (n <=? 90)%N then ascii_of_N (n + 32) else c.

Fixpoint to_lower (s : string) : string :=
  match s with "" => "" | String c s' => String (lower_ascii c) (to_lower s') end.

(** [sort.Strings]: by bytes. *)
Definition sort_strings (l : list string) : list string := merge_sort String.le l.

(** ** [strings.Split] with a one-byte separator and [strings.Join] *)

Fixpoint split_on (sep : ascii) (s : string) : list string :=
  match s with
  | "" => [""]
  | String c s' =>
      if bool_decide (c = sep) then "" :: split_on sep s'
      else match split_on sep s' with
           | w :: ws => String c w :: ws
           | [] => [String c ""]
           end
  end.

Fixpoint join (sep : string) (l : list string) : string :=
  match l with
  | [] => ""
  | [x] => x
  | x :: l' => x +:+ sep +:+ join sep l'
  end.

(** ** Decimal numerals: [%020d] and [strconv.ParseUint(_, 10, 64)] *)

Definition digit_char (d : Z) : ascii := ascii_of_N (Z.to_N (48 + d)).

Fixpoint digits (width : nat) (n : Z) : list Z :=
  match width with
  | O => []
  | S w => digits w (n / 10) ++ [n mod 10]
  end.

Definition string_of_chars (l : list ascii) : string := String.string_of_list_ascii l.
Definition chars_of_string (s : string) : list ascii := String.list_ascii_of_string s.

(** [fmt.Sprintf("%020d", n)] for a [uint64]: twenty digits hold every value. *)
Definition format020 (n : Z) : string := string_of_chars (digit_char <$> digits 20 n).

Definition char_digit (c : ascii) : option Z :=
  let n := Z.of_N (N_of_ascii c) in
  if (48 <=? n) && (n <=? 57) then Some (n - 48) else None.

Fixpoint parse_digits (acc : Z) (l : list ascii) : option Z :=
  match l with
  | [] => Some acc
  | c :: l' => match char_digit c with
               | Some d => parse_digits (10 * acc + d) l'
               | None => None
               end
  end.

Definition parse_uint64 (s : string) : option Z :=
  match chars_of_string s with
  | [] => None
  | l => match parse_digits 0 l with
         | Some n => if n <? modulus64 then Some n else None
         | None => None
         end
  end.

(** ** File names: [filepath.Ext] and [strings.TrimSuffix] on a base name *)

Fixpoint ext_go (s : string) : option string :=
  match s with
  | "" => None
  | String c s' =>
      match ext_go s' with
      | Some e => Some e
      | None => if bool_decide (c = "."%char) then Some (String c s') else None
      end
  end.

Definition filepath_ext (name : string) : string := default "" (ext_go name).

Definition has_suffix (s suffix : string) : bool :=
  match strip_prefix (String.rev suffix) (String.rev s) with Some _ => true | None => false end.

Definition trim_suffix (s suffix : string) : string :=
  match strip_prefix (String.rev suffix) (String.rev s) with
  | Some r => String.rev r
  | None => s
  end.

(** ** Hexadecimal text *)

Definition byte_of_Z (z : Z) : byte := default x00 (Byte.of_N (Z.to_N (z mod 256))).
Definition Z_of_byte (b : byte) : Z := Z.of_N (Byte.to_N b).

Definition hex_char (d : Z) : ascii :=
  if d <? 10 then ascii_of_N (Z.to_N (48 + d)) else ascii_of_N (Z.to_N (87 + d)).

Fixpoint hex_encode (b : bytes) : string :=
  match b with
  | [] => ""
  | x :: b' => String (hex_char (Z_of_byte x / 16))
                 (String (hex_char (Z_of_byte x mod 16)) (hex_encode b'))
  end.

Definition hex_value (c : ascii) : option Z :=
  let n := Z.of_N (N_of_ascii c) in
  if (48 <=? n) && (n <=? 57) then Some (n - 48)
  else if (97 <=? n) && (n <=? 102) then Some (n - 87)
  else if (65 <=? n) && (n <=? 70) then Some (n - 55)
  else None.

Fixpoint hex_decode (s : string) : option bytes :=
  match s with
  | "" => Some []
  | String a (String b s') =>
      match hex_value a, hex_value b, hex_decode s' with
      | Some x, Some y, Some r => Some (byte_of_Z (16 * x + y) :: r)
      | _, _, _ => None
      end
  | String _ "" => None
  end.

(** ** Big-endian 32-bit words ([binary.BigEndian]) *)

Definition be32 (z : Z) : bytes :=
  let w := z mod 2 ^ 32 in
  [byte_of_Z (w / 2 ^ 24); byte_of_Z (w / 2 ^ 16); byte_of_Z (w / 2 ^ 8); byte_of_Z w].

Definition be32_decode (b : bytes) : Z :=
  foldl (fun acc x => 256 * acc + Z_of_byte x) 0 b.

(** ** Base64 ([base64.StdEncoding])

    The decoder skips carriage returns and line feeds and accepts padding only
    in the last group. *)

Definition b64_alphabet : string :=
  "ABCDEFGHIJKLMNOPQRSTUVWXYZabcdefghijklmnopqrstuvwxyz0123456789+/".

Definition b64_char (v : Z) : ascii := default "A"%char (String.get (Z.to_nat v) b64_alphabet).

Fixpoint b64_index (c : ascii) (i : Z) (s : string) : option Z :=
  match s with
  | "" => None
  | String a s' => if bool_decide (a = c) then Some i else b64_index c (i + 1) s'
  end.

Definition b64_value (c : ascii) : option Z := b64_index c 0 b64_alphabet.

Fixpoint base64_encode (b : bytes) : string :=
  match b with
  | [] => ""
  | [x] =>
      let n := Z_of_byte x * 2 ^ 16 in
      string_of_chars [b64_char (n / 2 ^ 18); b64_char (n / 2 ^ 12 mod 64); "="%char; "="%char]
  | [x; y] =>
      let n := Z_of_byte x * 2 ^ 16 + Z_of_byte y * 2 ^ 8 in
      string_of_chars [b64_char (n / 2 ^ 18); b64_char (n / 2 ^ 12 mod 64);
                       b64_char (n / 2 ^ 6 mod 64); "="%char]
  | x :: y :: z :: b' =>
      let n := Z_of_byte x * 2 ^ 16 + Z_of_byte y * 2 ^ 8 + Z_of_byte z in
      String (b64_char (n / 2 ^ 18)) (String (b64_char (n / 2 ^ 12 mod 64))
        (String (b64_char (n / 2 ^ 6 mod 64)) (String (b64_char (n mod 64)) (base64_encode b'))))
  end.

Definition b64_newline (c : ascii) : bool :=
  bool_decide (c = ascii_of_N 10) || bool_decide (c = ascii_of_N 13).

Fixpoint b64_groups (l : list ascii) : option bytes :=
  match l with
  | [] => Some []
  | a :: b :: c :: d :: l' =>
      match b64_value a, b64_value b with
      | Some va, Some vb =>
          if bool_decide (c = "="%char) then
            if bool_decide (d = "="%char) && bool_decide (l' = [])
            then Some [byte_of_Z (va * 4 + vb / 16)] else None
          else
            match b64_value c with
            | None => None
            | Some vc =>
                if bool_decide (d = "="%char) then
                  if bool_decide (l' = [])
                  then Some [byte_of_Z (va * 4 + vb / 16); byte_of_Z (vb * 16 + vc / 4)] else None
                else
                  match b64_value d, b64_groups l' with
                  | Some vd, Some rest =>
                      Some (byte_of_Z (va * 4 + vb / 16) :: byte_of_Z (vb * 16 + vc / 4)
                              :: byte_of_Z (vc * 64 + vd) :: rest)
                  | _, _ => None
                  end
            end
      | _, _ => None
      end
  | _ => None
  end.

Definition base64_decode (s : string) : option bytes :=
  b64_groups (filter (fun c => b64_newline c = false) (chars_of_string s)).

(** Text of 7-bit characters: what JSON encoding carries unchanged. *)
Definition ascii_text (s : string) : bool :=
  forallb (fun c => (N_of_ascii c <? 128)%N) (chars_of_string s).

(** ** Lemmas *)

Lemma Z_of_byte_range b : 0 <= Z_of_byte b < 256.
Proof. by destruct b. Qed.

Lemma byte_of_Z_of_byte b : byte_of_Z (Z_of_byte b) = b.
Proof. by destruct b. Qed.

Lemma Z_of_byte_of_Z z : Z_of_byte (byte_of_Z z) = z mod 256.
Proof.
  unfold byte_of_Z, Z_of_byte.
  pose proof (Z.mod_pos_bound z 256 ltac:(lia)) as Hz.
  destruct (Byte.of_N (Z.to_N (z mod 256))) as [b|] eqn:E; simpl.
  - apply Byte.to_of_N_iff in E. rewrite E. lia.
  - apply Byte.of_N_None_iff in E. lia.
Qed.

Lemma length_be32 z : length (be32 z) = 4%nat.
Proof. reflexivity. Qed.

Lemma be32_decode_be32 z : 0 <= z < 2 ^ 32 -> be32_decode (be32 z) = z.
Proof.
  intros Hz. unfold be32, be32_decode. rewrite (Z.mod_small z) by lia.
  cbn [foldl]. rewrite !Z_of_byte_of_Z. Z.div_mod_to_equations. lia.
Qed.

Lemma length_hex_encode b : String.length (hex_encode b) = (2 * length b)%nat.
Proof. induction b as [|x b IH]; [done|]. cbn [hex_encode String.length length]. lia. Qed.

Lemma hex_byte_round x :
  hex_value (hex_char (Z_of_byte x / 16)) = Some (Z_of_byte x / 16) /\
  hex_value (hex_char (Z_of_byte x mod 16)) = Some (Z_of_byte x mod 16) /\
  byte_of_Z (16 * (Z_of_byte x / 16) + Z_of_byte x mod 16) = x /\
  lower_ascii (hex_char (Z_of_byte x / 16)) = hex_char (Z_of_byte x / 16) /\
  lower_ascii (hex_char (Z_of_byte x mod 16)) = hex_char (Z_of_byte x mod 16).
Proof. by destruct x; vm_compute. Qed.

Lemma hex_decode_encode b : hex_decode (hex_encode b) = Some b.
Proof.
  induction b as [|x b IH]; [done|]. cbn [hex_encode hex_decode].
  destruct (hex_byte_round x) as (-> & -> & Hx & _). by rewrite IH, Hx.
Qed.

Lemma to_lower_hex_encode b : to_lower (hex_encode b) = hex_encode b.
Proof.
  induction b as [|x b IH]; [done|]. cbn [hex_encode to_lower].
  destruct (hex_byte_round x) as (_ & _ & _ & -> & ->). by rewrite IH.
Qed.

#[export] Instance hex_encode_inj : Inj (=) (=) hex_encode.
Proof.
  intros a b Hab. apply (f_equal hex_decode) in Hab.
  rewrite !hex_decode_encode in Hab. by simplify_eq.
Qed.

Lemma length_digits w n : length (digits w n) = w.
Proof. revert n. induction w as [|w IH]; intros n; [done|]. simpl. rewrite length_app, IH. simpl. lia. Qed.

Lemma digits_range w n : Forall (fun d => 0 <= d < 10) (digits w n).
Proof.
  revert n. induction w as [|w IH]; intros n; simpl; [constructor|].
  apply Forall_app. split; [apply IH|]. repeat constructor; apply Z.mod_pos_bound; lia.
Qed.

Lemma char_digit_digit_char d : 0 <= d < 10 -> char_digit (digit_char d) = Some d.
Proof.
  intros Hd. assert (d ∈ [0; 1; 2; 3; 4; 5; 6; 7; 8; 9]) as Hin by (rewrite !elem_of_cons; lia).
  clear Hd. repeat (apply elem_of_cons in Hin as [->|Hin]; [reflexivity|]). by apply elem_of_nil in Hin.
Qed.

Lemma parse_digits_app acc l1 l2 :
  parse_digits acc (l1 ++ l2) =
  match parse_digits acc l1 with Some a => parse_digits a l2 | None => None end.
Proof.
  revert acc. induction l1 as [|c l1 IH]; intros acc; [done|]. simpl.
  destruct (char_digit c); [apply IH|done].
Qed.

Lemma parse_digits_digits w n :
  0 <= n < 10 ^ Z.of_nat w -> parse_digits 0 (digit_char <$> digits w n) = Some n.
Proof.
  revert n. induction w as [|w IH]; intros n Hn; simpl.
  - change (10 ^ Z.of_nat 0) with 1 in Hn. f_equal. lia.
  - rewrite Nat2Z.inj_succ, Z.pow_succ_r in Hn by lia.
    rewrite fmap_app, parse_digits_app, IH by (Z.div_mod_to_equations; lia).
    cbn [fmap list_fmap parse_digits]. rewrite char_digit_digit_char by (apply Z.mod_pos_bound; lia).
    f_equal. Z.div_mod_to_equations. lia.
Qed.

Lemma chars_string_chars l : chars_of_string (string_of_chars l) = l.
Proof. apply String.list_ascii_of_string_of_list_ascii. Qed.

Lemma u64_lt_20_digits n : is_u64 n -> 0 <= n < 10 ^ Z.of_nat 20.
Proof. unfold is_u64, modulus64. change (10 ^ Z.of_nat 20) with 100000000000000000000. lia. Qed.

(** Parsing a formatted sequence number gives the number back. *)
Lemma parse_format020 n : is_u64 n -> parse_uint64 (format020 n) = Some n.
Proof.
  intros Hn. unfold parse_uint64, format020. rewrite chars_string_chars.
  pose proof (length_digits 20 n) as Hlen.
  destruct (digit_char <$> digits 20 n) as [|c l] eqn:E.
  { apply (f_equal length) in E. rewrite length_fmap, Hlen in E. done. }
  rewrite <- E, parse_digits_digits by by apply u64_lt_20_digits.
  destruct (Z.ltb_spec n modulus64); [done|]. unfold is_u64 in Hn. lia.
Qed.

Lemma format020_inj a b : is_u64 a -> is_u64 b -> format020 a = format020 b -> a = b.
Proof.
  intros Ha Hb H. apply (f_equal parse_uint64) in H.
  rewrite !parse_format020 in H by done. by simplify_eq.
Qed.

Lemma string_compare_refl_app l s1 s2 :
  String.compare (string_of_chars (l ++ s1)) (string_of_chars (l ++ s2)) =
  String.compare (string_of_chars s1) (string_of_chars s2).
Proof.
  induction l as [|c l IH]; [done|]. simpl. unfold Ascii.compare.
  rewrite N.compare_refl. apply IH.
Qed.

Lemma digit_char_compare d e :
  0 <= d < 10 -> 0 <= e < 10 -> d < e -> Ascii.compare (digit_char d) (digit_char e) = Lt.
Proof.
  intros Hd He Hlt. unfold Ascii.compare, digit_char.
  rewrite !N_ascii_embedding by lia. apply N.compare_lt_iff. lia.
Qed.

Lemma digits_compare_lt w a b t1 t2 :
  0 <= a < 10 ^ Z.of_nat w -> 0 <= b < 10 ^ Z.of_nat w -> a < b ->
  String.compare (string_of_chars ((digit_char <$> digits w a) ++ t1))
                 (string_of_chars ((digit_char <$> digits w b) ++ t2)) = Lt.
Proof.
  revert a b t1 t2. induction w as [|w IH]; intros a b t1 t2 Ha Hb Hlt.
  { change (10 ^ Z.of_nat 0) with 1 in *. lia. }
  rewrite Nat2Z.inj_succ, Z.pow_succ_r in Ha, Hb by lia.
  cbn [digits]. rewrite !fmap_app, <- !(assoc_L (++)).
  destruct (Z.lt_trichotomy (a / 10) (b / 10)) as [Hq|[Hq|Hq]].
  - apply IH; (Z.div_mod_to_equations; lia).
  - rewrite Hq, string_compare_refl_app. cbn.
    rewrite digit_char_compare; try (apply Z.mod_pos_bound; lia); [done|].
    Z.div_mod_to_equations. lia.
  - exfalso. Z.div_mod_to_equations. lia.
Qed.

Lemma string_of_chars_app l s :
  string_of_chars l +:+ s = string_of_chars (l ++ chars_of_string s).
Proof.
  induction l as [|c l IH]; simpl.
  - symmetry. apply String.string_of_list_ascii_of_string.
  - change (String c (string_of_chars l +:+ s) = String c (string_of_chars (l ++ chars_of_string s))).
    by rewrite IH.
Qed.

(** Byte order on zero-padded names agrees with numeric order: this is what makes
    [sort.Strings] over segment file names a sort by first sequence. *)
Lemma format020_lt a b s1 s2 :
  is_u64 a -> is_u64 b -> a < b ->
  String.compare (format020 a +:+ s1) (format020 b +:+ s2) = Lt.
Proof.
  intros Ha Hb Hlt. unfold format020. rewrite !string_of_chars_app.
  apply digits_compare_lt; auto using u64_lt_20_digits.
Qed.

Lemma format020_le a b s :
  is_u64 a -> is_u64 b -> a <= b -> String.le (format020 a +:+ s) (format020 b +:+ s).
Proof.
  intros Ha Hb Hle. destruct (decide (a = b)) as [->|Hne]; [done|].
  unfold String.le, String.leb. by rewrite format020_lt by (done || lia).
Qed.

Lemma b64_char_facts v :
  0 <= v < 64 ->
  b64_value (b64_char v) = Some v /\ b64_newline (b64_char v) = false /\ b64_char v <> "="%char.
Proof.
  intros Hv.
  assert (Forall (fun v => b64_value (b64_char v) = Some v /\ b64_newline (b64_char v) = false
                           /\ b64_char v <> "="%char) (Z.of_nat <$> seq 0 64)) as H.
  { repeat (constructor; [by vm_compute|]). constructor. }
  rewrite Forall_forall in H. apply H. apply list_elem_of_fmap.
  exists (Z.to_nat v). split; [lia|]. apply elem_of_seq. lia.
Qed.

Lemma byte_of_Z_eq z x : z mod 256 = Z_of_byte x -> byte_of_Z z = x.
Proof.
  intros H. rewrite <- (byte_of_Z_of_byte x), <- H. unfold byte_of_Z.
  by rewrite Z.mod_mod by lia.
Qed.

Lemma byte_list_ind3 (P : bytes -> Prop) :
  P [] -> (forall x, P [x]) -> (forall x y, P [x; y]) ->
  (forall x y z l, P l -> P (x :: y :: z :: l)) -> forall l, P l.
Proof.
  intros H0 H1 H2 H3. assert (forall n l, (length l <= n)%nat -> P l) as H.
  { induction n as [|n IH]; intros [|x [|y [|z l]]] Hl; simpl in Hl; auto; try lia.
    apply H3, IH. lia. }
  intros l. by apply (H (length l)).
Qed.

(** Bring in the facts of one base64 digit. *)
Ltac sextet v :=
  let H := fresh "Hs" in
  pose proof (b64_char_facts v) as H;
  destruct H as (? & ? & ?); [Z.div_mod_to_equations; lia|].

(** Evaluate the decoder on one group of base64 digits. *)
Ltac b64_group :=
  rewrite !filter_cons_True by done; cbn [filter list_filter b64_groups];
  repeat match goal with H : b64_value _ = _ |- _ => rewrite H; clear H end;
  rewrite ?(bool_decide_eq_false_2 (b64_char _ = _)) by done;
  rewrite ?(bool_decide_eq_true_2 ("="%char = "="%char)) by done;
  rewrite ?(bool_decide_eq_true_2 ([] = [])) by done.

Lemma base64_round_trip b : base64_decode (base64_encode b) = Some b.
Proof.
  unfold base64_decode. induction b as [|x|x y|x y z b IH] using byte_list_ind3; [done|..];
    cbn [base64_encode]; pose proof Z_of_byte_range as Hr.
  - pose proof (Hr x). rewrite chars_string_chars. set (n := Z_of_byte x * 2 ^ 16).
    sextet (n / 2 ^ 18). sextet (n / 2 ^ 12 mod 64). b64_group. subst n.
    cbn [andb]. do 2 f_equal; apply byte_of_Z_eq; Z.div_mod_to_equations; lia.
  - pose proof (Hr x). pose proof (Hr y).
    rewrite chars_string_chars. set (n := Z_of_byte x * 2 ^ 16 + Z_of_byte y * 2 ^ 8).
    sextet (n / 2 ^ 18). sextet (n / 2 ^ 12 mod 64). sextet (n / 2 ^ 6 mod 64). b64_group.
    subst n. repeat f_equal; apply byte_of_Z_eq; Z.div_mod_to_equations; lia.
  - pose proof (Hr x). pose proof (Hr y). pose proof (Hr z).
    set (n := Z_of_byte x * 2 ^ 16 + Z_of_byte y * 2 ^ 8 + Z_of_byte z).
    sextet (n / 2 ^ 18). sextet (n / 2 ^ 12 mod 64). sextet (n / 2 ^ 6 mod 64). sextet (n mod 64).
    cbn [chars_of_string String.list_ascii_of_string].
    change (String.list_ascii_of_string (base64_encode b)) with (chars_of_string (base64_encode b)).
    b64_group. rewrite IH. subst n.
    repeat f_equal; apply byte_of_Z_eq; Z.div_mod_to_equations; lia.
Qed.

(** ** File names *)

Lemma string_app_assoc a b c : (a +:+ b) +:+ c = a +:+ (b +:+ c).
Proof. induction a as [|x a IH]; [done|]. exact (f_equal (String x) IH). Qed.

Lemma string_app_nil_r a : a +:+ "" = a.
Proof. induction a as [|x a IH]; [done|]. exact (f_equal (String x) IH). Qed.

Lemma rev_app_spec s t : String.rev_app s t = String.rev s +:+ t.
Proof.
  unfold String.rev. revert t. induction s as [|c s IH]; intros t; [done|].
  cbn [String.rev_app]. rewrite (IH (String c t)), (IH (String c "")), string_app_assoc. done.
Qed.

Lemma string_rev_app a b : String.rev (a +:+ b) = String.rev b +:+ String.rev a.
Proof.
  induction a as [|c a IH].
  - change ("" +:+ b) with b. change (String.rev "") with "". by rewrite string_app_nil_r.
  - change (String.rev (String c a +:+ b)) with (String.rev_app (a +:+ b) (String c "")).
    change (String.rev (String c a)) with (String.rev_app a (String c "")).
    by rewrite !rev_app_spec, IH, string_app_assoc.
Qed.

Lemma string_rev_involutive s : String.rev (String.rev s) = s.
Proof.
  induction s as [|c s IH]; [done|].
  change (String.rev (String c s)) with (String.rev_app s (String c "")).
  by rewrite rev_app_spec, string_rev_app, IH.
Qed.

Lemma strip_prefix_app p s : strip_prefix p (p +:+ s) = Some s.
Proof.
  induction p as [|c p IH]; [done|]. change (String c p +:+ s) with (String c (p +:+ s)).
  cbn [strip_prefix]. by rewrite bool_decide_eq_true_2.
Qed.

Lemma has_suffix_app a s : has_suffix (a +:+ s) s = true.
Proof. unfold has_suffix. by rewrite string_rev_app, strip_prefix_app. Qed.

Lemma trim_suffix_app a s : trim_suffix (a +:+ s) s = a.
Proof. unfold trim_suffix. by rewrite string_rev_app, strip_prefix_app, string_rev_involutive. Qed.

Lemma ext_go_app a s e : ext_go s = Some e -> ext_go (a +:+ s) = Some e.
Proof.
  intros H. induction a as [|c a IH]; [done|].
  change (String c a +:+ s) with (String c (a +:+ s)). cbn [ext_go]. by rewrite IH.
Qed.

(** The names of one numbered file family: [number ++ suffix]. *)
Lemma string_of_chars_length l : String.length (string_of_chars l) = length l.
Proof. induction l as [|c l IH]; [done|]. exact (f_equal S IH). Qed.

Lemma format020_length n : String.length (format020 n) = 20%nat.
Proof. unfold format020. by rewrite string_of_chars_length, length_fmap, length_digits. Qed.

Lemma string_app_inj_length a b s t :
  String.length a = String.length b -> a +:+ s = b +:+ t -> a = b /\ s = t.
Proof.
  revert b. induction a as [|c a IH]; intros [|c' b] Hl H; try done.
  change (String c (a +:+ s) = String c' (b +:+ t)) in H. injection Hl as Hl.
  assert (c = c') as -> by congruence. assert (a +:+ s = b +:+ t) as H' by congruence.
  by destruct (IH b Hl H') as [-> ->].
Qed.

Lemma format020_app_inj a b s t :
  is_u64 a -> is_u64 b -> format020 a +:+ s = format020 b +:+ t -> a = b /\ s = t.
Proof.
  intros Ha Hb [H ->]%string_app_inj_length; [|by rewrite !format020_length].
  by apply format020_inj in H.
Qed.

Lemma format020_head n : exists d rest, 0 <= d < 10 /\ format020 n = String (digit_char d) rest.
Proof.
  unfold format020. pose proof (digits_range 20 n) as Hr. pose proof (length_digits 20 n) as Hl.
  destruct (digits 20 n) as [|d ds]; [discriminate Hl|]. apply Forall_cons in Hr as [Hd _].
  exists d, (string_of_chars (digit_char <$> ds)). by split.
Qed.

Lemma format020_ascii t : ascii_text (format020 t) = true.
Proof.
  unfold ascii_text, format020. rewrite chars_string_chars. apply forallb_forall.
  intros c Hc%list_elem_of_In%list_elem_of_fmap. destruct Hc as (d & -> & Hd).
  pose proof (digits_range 20 t) as Hr. rewrite Forall_forall in Hr. apply Hr in Hd.
  unfold digit_char. rewrite N_ascii_embedding by lia. apply N.ltb_lt. lia.
Qed.

(** ** ASCII text *)

Lemma ascii_text_cons c s :
  ascii_text (String c s) = ((N_of_ascii c <? 128)%N && ascii_text s).
Proof. done. Qed.

Lemma ascii_text_app a b : ascii_text (a +:+ b) = ascii_text a && ascii_text b.
Proof.
  induction a as [|c a IH]; [done|]. change (String c a +:+ b) with (String c (a +:+ b)).
  by rewrite !ascii_text_cons, IH, andb_assoc.
Qed.

Lemma ascii_hex_encode b : ascii_text (hex_encode b) = true.
Proof.
  induction b as [|x b IH]; [done|]. cbn [hex_encode]. rewrite !ascii_text_cons, IH.
  by destruct x; vm_compute.
Qed.

Lemma ascii_get n s c : String.get n s = Some c -> ascii_text s = true -> (N_of_ascii c <? 128)%N = true.
Proof.
  revert n. induction s as [|x s IH]; intros n H Ha; [by destruct n|].
  rewrite ascii_text_cons in Ha. apply andb_prop in Ha as [Hx Ha].
  destruct n as [|n]; [by injection H as <-|]. by apply (IH n).
Qed.

Lemma ascii_b64_char v : (N_of_ascii (b64_char v) <? 128)%N = true.
Proof.
  unfold b64_char. destruct (String.get (Z.to_nat v) b64_alphabet) as [c|] eqn:E; [|done].
  by eapply ascii_get.
Qed.

Lemma ascii_base64_encode b : ascii_text (base64_encode b) = true.
Proof.
  induction b as [| | |x y z b IH] using byte_list_ind3; cbn [base64_encode]; unfold string_of_chars;
    cbn [String.string_of_list_ascii]; rewrite ?ascii_text_cons, ?ascii_b64_char, ?IH; done.
Qed.

(** A name that starts with a digit and ends in a letter has nothing to trim. *)
Lemma trim_left_id seqs s : strip_any seqs s = None -> trim_left seqs s = s.
Proof. intros H. unfold trim_left. destruct (String.length s); cbn; [done|]. by rewrite H. Qed.

Lemma numbered_name_not_blank n s c r :
  String.rev s = String c r ->
  (forall t, strip_any (String.rev <$> space_seqs) (String c (r +:+ t)) = None) ->
  blank (format020 n +:+ s) = false.
Proof.
  intros Hs Ht. apply bool_decide_eq_false. unfold trim_space.
  destruct (format020_head n) as (d & rest & Hd & ->).
  assert (trim_left space_seqs (String (digit_char d) rest +:+ s) = String (digit_char d) rest +:+ s) as ->.
  { apply trim_left_id.
    assert (d = 0 \/ d = 1 \/ d = 2 \/ d = 3 \/ d = 4 \/ d = 5 \/ d = 6 \/ d = 7 \/ d = 8 \/ d = 9)
      as Hcases by lia.
    by repeat destruct Hcases as [->|Hcases]; [..|subst d]. }
  rewrite string_rev_app, Hs.
  rewrite trim_left_id; [|apply Ht].
  change (String c (r +:+ String.rev (String (digit_char d) rest)))
    with (String c r +:+ String.rev (String (digit_char d) rest)).
  rewrite <- Hs, <- string_rev_app, string_rev_involutive. discriminate.
Qed.

Lemma strip_prefix_spec p s r : strip_prefix p s = Some r -> s = p +:+ r.
Proof.
  revert s. induction p as [|c p IH]; intros s; cbn [strip_prefix]; [by intros [= ->]|].
  destruct s as [|d s]; [done|]. case_bool_decide as E; [|done]. subst d. intros ->%IH. done.
Qed.

Lemma strip_any_None seqs s : strip_any seqs s = None <-> Forall (fun p => strip_prefix p s = None) seqs.
Proof.
  induction seqs as [|p seqs IH]; cbn; [by split|]. rewrite Forall_cons, <- IH.
  destruct (strip_prefix p s); split; [done|by intros []|done|by intros []].
Qed.

Lemma strip_any_Some seqs s r : strip_any seqs s = Some r -> exists p, p ∈ seqs /\ s = p +:+ r.
Proof.
  induction seqs as [|p seqs IH]; cbn; [done|]. destruct (strip_prefix p s) eqn:E.
  - intros [= ->]. exists p. split; [left|by apply strip_prefix_spec].
  - intros (q & Hq & ->)%IH. exists q. split; [by right|done].
Qed.

Lemma string_length_app a b : String.length (a +:+ b) = (String.length a + String.length b)%nat.
Proof. induction a as [|c a IH]; [done|]. exact (f_equal S IH). Qed.

(** What is left of a text has no prefix to strip, and is a suffix of it. *)
Lemma trim_left_spec seqs s :
  Forall (fun p => p <> "") seqs ->
  strip_any seqs (trim_left seqs s) = None /\ exists pre, s = pre +:+ trim_left seqs s.
Proof.
  intros Hne. unfold trim_left. remember (String.length s) as n eqn:Hn.
  assert (String.length s <= n)%nat as Hle by lia. clear Hn. revert s Hle.
  induction n as [|n IH]; intros s Hle; cbn [trim_left_go].
  - destruct s; [|cbn in Hle; lia]. split; [|by exists ""]. apply strip_any_None.
    eapply Forall_impl; [exact Hne|]. intros [|c p]; done.
  - destruct (strip_any seqs s) as [r|] eqn:E; [|by split; [|exists ""]].
    apply strip_any_Some in E as (p & Hp & ->). rewrite Forall_forall in Hne.
    specialize (Hne _ Hp). rewrite string_length_app in Hle.
    destruct (IH r) as [H1 [pre H2]]; [destruct p; [done|cbn in Hle; lia]|].
    split; [done|]. exists (p +:+ pre). by rewrite string_app_assoc, <- H2.
Qed.

Lemma strip_any_prefix seqs a b : strip_any seqs (a +:+ b) = None -> strip_any seqs a = None.
Proof.
  rewrite !strip_any_None. intros H. eapply Forall_impl; [exact H|]. intros p Hp.
  destruct (strip_prefix p a) as [r|] eqn:E; [|done]. apply strip_prefix_spec in E as ->.
  by rewrite string_app_assoc, strip_prefix_app in Hp.
Qed.

(** Trimmed text has nothing to trim. *)
Lemma trim_space_idem s : trim_space (trim_space s) = trim_space s.
Proof.
  unfold trim_space at 2 3.
  destruct (trim_left_spec space_seqs s) as [Hl _]; [by repeat constructor|].
  set (t := trim_left space_seqs s) in *.
  destruct (trim_left_spec (String.rev <$> space_seqs) (String.rev t)) as [Hr [pre Hp]]; [by repeat constructor|].
  set (u := trim_left _ (String.rev t)) in *.
  assert (strip_any space_seqs (String.rev u) = None) as Hu.
  { apply (f_equal String.rev) in Hp. rewrite string_rev_involutive, string_rev_app in Hp.
    rewrite Hp in Hl. by eapply strip_any_prefix. }
  unfold trim_space. rewrite (trim_left_id space_seqs) by done.
  by rewrite string_rev_involutive, trim_left_id.
Qed.

#[global] Opaque format020.
