(* ===== verification/GoFloat.v ===== *)
(** * Floating-point numbers of the source language

    A [float64] is an IEEE binary64 datum of the Standard Library's [SpecFloat];
    arithmetic rounds to nearest, ties to even.  The comparison operators are the
    boolean functions of [SpecFloat], false whenever an operand is NaN.  The lemmas
    give the order of the numbers that are not NaN. *)

From Stdlib Require Export Floats.SpecFloat.
From S2P Require Import Prelude.

Definition float64 := spec_float.

#[export] Instance float64_eq_dec : EqDecision spec_float.
Proof. solve_decision. Defined.

Definition float_zero : float64 := S754_zero false.
Definition float_one : float64 := S754_finite false 4503599627370496 (-52).
Definition float_thousand : float64 := S754_finite false 8796093022208000 (-43).

(** [float64(n)] of an integer, and the arithmetic operators. *)
Definition float_of_int (n : Z) : float64 := binary_normalize 53 1024 n 0 false.
Definition float_add (a b : float64) : float64 := SFadd 53 1024 a b.
Definition float_sub (a b : float64) : float64 := SFsub 53 1024 a b.
Definition float_mul (a b : float64) : float64 := SFmul 53 1024 a b.
Definition float_div (a b : float64) : float64 := SFdiv 53 1024 a b.

(** [math.Pow(2, float64(n))]. *)
Definition float_pow2 (n : Z) : float64 := binary_normalize 53 1024 1 n false.

(** A decimal constant [n/d] of the source: both integers are exact, so the quotient
    is the correctly rounded constant. *)
Definition float_ratio (n d : Z) : float64 := float_div (float_of_int n) (float_of_int d).

#[global] Arguments float_of_int n : simpl never.
#[global] Arguments float_pow2 n : simpl never.
#[global] Arguments float_add a b : simpl never.
#[global] Arguments float_sub a b : simpl never.
#[global] Arguments float_mul a b : simpl never.
#[global] Arguments float_div a b : simpl never.
#[global] Arguments float_ratio n d : simpl never.

Declare Scope float_scope.
Delimit Scope float_scope with F.
Infix "<?" := SFltb : float_scope.
Infix "<=?" := SFleb : float_scope.
Infix "=?" := SFeqb : float_scope.
Notation "a >? b" := (SFltb b a) (only parsing) : float_scope.
Notation "a >=? b" := (SFleb b a) (only parsing) : float_scope.
Infix "+" := float_add : float_scope.
Infix "-" := float_sub : float_scope.
Infix "*" := float_mul : float_scope.
Infix "/" := float_div : float_scope.
Bind Scope float_scope with spec_float.

(** [int64(f)]: truncation.  Outside the range of the type the language leaves the
    result to the implementation; this is the one of amd64. *)
Definition int_of_float (f : float64) : Z :=
  let t :=
    match f with
    | S754_zero _ => Some 0
    | S754_finite s m e =>
        let v := if 0 <=? e then Zpos m * 2 ^ e else Zpos m / 2 ^ (- e) in
        Some (if s then - v else v)
    | _ => None
    end in
  match t with
  | Some v => if (- 2 ^ 63 <=? v) && (v <? 2 ^ 63) then v else - 2 ^ 63
  | None => - 2 ^ 63
  end.

Definition is_nan (f : float64) : bool :=
  match f with S754_nan => true | _ => false end.

(** ** Order

    [SFcompare] is the lexicographic comparison of a key. *)

Definition float_key (f : float64) : option (Z * Z * Z) :=
  match f with
  | S754_nan => None
  | S754_infinity s => Some (if s then -2 else 2, 0, 0)
  | S754_zero _ => Some (0, 0, 0)
  | S754_finite s m e => Some (if s then (-1, - e, - Zpos m) else (1, e, Zpos m))
  end.

Definition key_compare (k l : Z * Z * Z) : comparison :=
  match k.1.1 ?= l.1.1 with
  | Eq => match k.1.2 ?= l.1.2 with
          | Eq => k.2 ?= l.2
          | c => c
          end
  | c => c
  end.

Definition key_lt (k l : Z * Z * Z) : Prop :=
  k.1.1 < l.1.1 \/ (k.1.1 = l.1.1 /\ (k.1.2 < l.1.2 \/ (k.1.2 = l.1.2 /\ k.2 < l.2))).

Lemma key_compare_spec k l : CompareSpec (k = l) (key_lt k l) (key_lt l k) (key_compare k l).
Proof.
  destruct k as [[a b] c], l as [[a' b'] c']. unfold key_compare, key_lt. cbn.
  destruct (Z.compare_spec a a') as [->|?|?]; [|constructor; lia..].
  destruct (Z.compare_spec b b') as [->|?|?]; [|constructor; lia..].
  destruct (Z.compare_spec c c') as [->|?|?]; constructor; [done|lia..].
Qed.

Lemma key_compare_antisym k l : key_compare l k = CompOpp (key_compare k l).
Proof.
  unfold key_compare. rewrite (Z.compare_antisym k.1.1), (Z.compare_antisym k.1.2), (Z.compare_antisym k.2).
  by destruct (k.1.1 ?= l.1.1), (k.1.2 ?= l.1.2).
Qed.

Lemma SFcompare_key f g :
  SFcompare f g = match float_key f, float_key g with
                  | Some k, Some l => Some (key_compare k l)
                  | _, _ => None
                  end.
Proof.
  destruct f as [s|s| |s m e], g as [s'|s'| |s' m' e']; try (by destruct s); try (by destruct s, s'); try done.
  destruct s, s'; cbn; unfold key_compare; cbn; try done.
  rewrite Z.compare_opp, (Z.compare_antisym e e'). by destruct (e ?= e').
Qed.

(** The meaning of the operators on keys. *)
Lemma SFltb_spec f g :
  SFltb f g = true <-> exists k l, float_key f = Some k /\ float_key g = Some l /\ key_lt k l.
Proof.
  unfold SFltb. rewrite SFcompare_key. split.
  - destruct (float_key f) as [k|], (float_key g) as [l|]; try done.
    destruct (key_compare_spec k l); try done. eauto.
  - intros (k & l & -> & -> & H). destruct (key_compare_spec k l) as [->| |H']; unfold key_lt in *; [lia|done|lia].
Qed.

Lemma SFleb_spec f g :
  SFleb f g = true <-> exists k l, float_key f = Some k /\ float_key g = Some l /\ ~ key_lt l k.
Proof.
  unfold SFleb. rewrite SFcompare_key. split.
  - destruct (float_key f) as [k|], (float_key g) as [l|]; try done. intros H. exists k, l.
    destruct (key_compare_spec k l) as [->| |]; try done; unfold key_lt in *; (do 2 (split; [done|])); lia.
  - intros (k & l & -> & -> & H). by destruct (key_compare_spec k l).
Qed.

Lemma SFltb_irrefl f : (f <? f)%F = false.
Proof.
  apply not_true_iff_false. intros (k & l & E & E' & H)%SFltb_spec. simplify_eq. unfold key_lt in H. lia.
Qed.

Lemma SFltb_leb_trans f g h : (f <? g)%F = true -> (g <=? h)%F = true -> (f <? h)%F = true.
Proof.
  intros (k & l & Ef & Eg & H)%SFltb_spec (l' & n & Eg' & Eh & H')%SFleb_spec. simplify_eq.
  apply SFltb_spec. exists k, n. do 2 (split; [done|]). unfold key_lt in *. lia.
Qed.

Lemma SFleb_trans f g h : (f <=? g)%F = true -> (g <=? h)%F = true -> (f <=? h)%F = true.
Proof.
  intros (k & l & Ef & Eg & H)%SFleb_spec (l' & n & Eg' & Eh & H')%SFleb_spec. simplify_eq.
  apply SFleb_spec. exists k, n. do 2 (split; [done|]). unfold key_lt in *. lia.
Qed.

Lemma SFleb_refl f : is_nan f = false -> (f <=? f)%F = true.
Proof.
  intros H. apply SFleb_spec. destruct f; try done; cbn; do 2 eexists; do 2 (split; [done|]); unfold key_lt; lia.
Qed.

(** For numbers, [<=] is the negation of [>]. *)
Lemma SFltb_leb f g : is_nan f = false -> is_nan g = false -> (f <? g)%F = negb (g <=? f)%F.
Proof.
  intros Hf Hg. unfold SFltb, SFleb. rewrite !SFcompare_key.
  assert (exists k, float_key f = Some k) as [k ->] by (destruct f; naive_solver).
  assert (exists l, float_key g = Some l) as [l ->] by (destruct g; naive_solver).
  rewrite (key_compare_antisym k l). by destruct (key_compare k l).
Qed.

Lemma SFltb_le f g : (f <? g)%F = true -> (f <=? g)%F = true.
Proof. unfold SFltb, SFleb. by destruct (SFcompare f g) as [[]|]. Qed.

Lemma SFleb_nan f g : (f <=? g)%F = true -> is_nan f = false /\ is_nan g = false.
Proof. intros (k & l & Ef & Eg & _)%SFleb_spec. by destruct f, g. Qed.

Lemma not_SFltb f g : is_nan f = false -> is_nan g = false -> (f <? g)%F = false -> (g <=? f)%F = true.
Proof. intros Hf Hg. rewrite SFltb_leb by done. by destruct (g <=? f)%F. Qed.

(** ** Clamping

    The function of that name in [internal/shaping] and [internal/autonomy]. *)

Definition clamp (value low high : float64) : float64 :=
  if (value <? low)%F then low
  else if (value >? high)%F then high
  else value.

Definition in_unit (f : float64) : bool := (float_zero <=? f)%F && (f <=? float_one)%F.

Lemma clamp_between v lo hi :
  is_nan v = false -> (lo <=? hi)%F = true ->
  (lo <=? clamp v lo hi)%F = true /\ (clamp v lo hi <=? hi)%F = true.
Proof.
  intros Hv Hle. destruct (SFleb_nan _ _ Hle) as [Hlo Hhi]. unfold clamp.
  destruct (v <? lo)%F eqn:E1; [split; [by apply SFleb_refl|done]|].
  destruct (hi <? v)%F eqn:E2; [split; [done|by apply SFleb_refl]|].
  split; by apply not_SFltb.
Qed.

Lemma clamp_unit v : is_nan v = false -> in_unit (clamp v float_zero float_one) = true.
Proof. intros H. unfold in_unit. destruct (clamp_between v float_zero float_one H eq_refl) as [-> ->]. done. Qed.

(** Clamping twice is clamping once, NaN included. *)
Lemma clamp_idem v lo hi : (lo <=? hi)%F = true -> clamp (clamp v lo hi) lo hi = clamp v lo hi.
Proof.
  intros Hle. destruct (SFleb_nan _ _ Hle) as [Hlo Hhi]. unfold clamp.
  destruct (v <? lo)%F eqn:E1.
  - rewrite SFltb_irrefl. destruct (hi <? lo)%F eqn:E; [|done].
    rewrite SFltb_leb in E by done. by rewrite Hle in E.
  - destruct (hi <? v)%F eqn:E2; [|by rewrite E1, E2].
    rewrite SFltb_irrefl. rewrite SFltb_leb by done. by rewrite Hle.
Qed.

Lemma in_unit_num f : in_unit f = true -> is_nan f = false.
Proof. unfold in_unit. intros [H _]%andb_prop. by apply SFleb_nan in H as [_ ?]. Qed.
