(* ===== verification/GoPath.v ===== *)
(** * Text matching of the Go library

    [utf8.DecodeRuneInString], [path.Match], and the substring and case-folding tests of
    [strings] (on ASCII letters) that the rule engines of [internal/shaping],
    [internal/router] and [internal/policy] use, with the [glob] and [validateGlob] that
    shaping and routing define alike.  [path.Match] works on the bytes of the
    pattern; its loops consume the pattern, so its length is enough fuel, which
    [match_chunk_fuel] and [match_go_fuel] show. *)

From S2P Require Import Prelude GoStrings.

Local Open Scope string_scope.
Local Open Scope Z_scope.
Local Open Scope list_scope.

(** ** UTF-8 *)

Definition code (c : ascii) : Z := Z.of_N (N_of_ascii c).
Definition rune_error : Z := 65533.

Definition between (lo hi z : Z) : bool := (lo <=? z) && (z <=? hi).

(** The rune at the head of the text and its width in bytes. *)
Definition decode_rune (s : list ascii) : Z * nat :=
  match s with
  | [] => (rune_error, 0%nat)
  | c0 :: s1 =>
      let b0 := code c0 in
      if b0 <? 128 then (b0, 1%nat)
      else match s1 with
      | c1 :: s2 =>
          let b1 := code c1 in
          if between 194 223 b0 && between 128 191 b1 then ((b0 - 192) * 64 + (b1 - 128), 2%nat)
          else match s2 with
          | c2 :: s3 =>
              let b2 := code c2 in
              let low := if b0 =? 224 then 160 else 128 in
              let high := if b0 =? 237 then 159 else 191 in
              if between 224 239 b0 && between low high b1 && between 128 191 b2
              then ((b0 - 224) * 4096 + (b1 - 128) * 64 + (b2 - 128), 3%nat)
              else match s3 with
              | c3 :: _ =>
                  let b3 := code c3 in
                  let low := if b0 =? 240 then 144 else 128 in
                  let high := if b0 =? 244 then 143 else 191 in
                  if between 240 244 b0 && between low high b1 && between 128 191 b2 && between 128 191 b3
                  then ((b0 - 240) * 262144 + (b1 - 128) * 4096 + (b2 - 128) * 64 + (b3 - 128), 4%nat)
                  else (rune_error, 1%nat)
              | [] => (rune_error, 1%nat)
              end
          | [] => (rune_error, 1%nat)
          end
      | [] => (rune_error, 1%nat)
      end
  end.

(** ** [path.Match] *)

Definition ErrBadPattern : error := ErrMsg "syntax error in pattern".

Definition is_char (c : ascii) (a : ascii) : bool := bool_decide (c = a).

(** [getEsc]: a possibly escaped rune of a character class. *)
Definition getEsc (chunk : list ascii) : result (Z * list ascii) :=
  let read chunk :=
    let '(r, n) := decode_rune chunk in
    let nchunk := drop n chunk in
    if ((r =? rune_error) && (n =? 1)%nat) || bool_decide (nchunk = []) then Err ErrBadPattern
    else Ok (r, nchunk) in
  match chunk with
  | [] => Err ErrBadPattern
  | c :: rest =>
      if is_char c "-" || is_char c "]" then Err ErrBadPattern
      else if is_char c "\" then
        match rest with [] => Err ErrBadPattern | _ :: _ => read rest end
      else read chunk
  end.

(** The ranges of a class up to its closing bracket: whether the rune is in one, and the
    rest of the chunk. *)
Fixpoint match_class (fuel : nat) (r : Z) (chunk : list ascii) (first found : bool) : result (bool * list ascii) :=
  match fuel with
  | O => Err ErrBadPattern
  | S fuel' =>
      let parse chunk :=
        '(lo, chunk) ← getEsc chunk;
        '(hi, chunk) ← match chunk with
                       | c :: rest => if is_char c "-" then getEsc rest else Ok (lo, chunk)
                       | [] => Ok (lo, chunk)
                       end;
        match_class fuel' r chunk false (found || between lo hi r) in
      match chunk with
      | c :: rest => if is_char c "]" && negb first then Ok (found, rest) else parse chunk
      | [] => parse chunk
      end
  end.

(** [matchChunk]: [Ok None] if the chunk does not match, [Ok (Some rest)] if it does. *)
Fixpoint match_chunk (fuel : nat) (chunk s : list ascii) (failed : bool) : result (option (list ascii)) :=
  match fuel with
  | O => Ok (if failed then None else Some s)
  | S fuel' =>
      match chunk with
      | [] => Ok (if failed then None else Some s)
      | c :: chunk' =>
          let failed := failed || bool_decide (s = []) in
          let literal c chunk' :=
            match s with
            | a :: s' => if failed then match_chunk fuel' chunk' s true
                         else match_chunk fuel' chunk' s' (negb (is_char c a))
            | [] => match_chunk fuel' chunk' s true
            end in
          if is_char c "[" then
            let '(r, n) := if failed then (0, 0%nat) else decode_rune s in
            let '(negated, chunk'') :=
              match chunk' with
              | c' :: rest => if is_char c' "^" then (true, rest) else (false, chunk')
              | [] => (false, chunk')
              end in
            '(found, rest) ← match_class (S (length chunk'')) r chunk'' true false;
            match_chunk fuel' rest (drop n s) (failed || bool_decide (found = negated))
          else if is_char c "?" then
            match s with
            | a :: _ => if failed then match_chunk fuel' chunk' s true
                        else match_chunk fuel' chunk' (drop (decode_rune s).2 s) (is_char a "/")
            | [] => match_chunk fuel' chunk' s true
            end
          else if is_char c "\" then
            match chunk' with
            | [] => Err ErrBadPattern
            | c' :: rest => literal c' rest
            end
          else literal c chunk'
      end
  end.

Definition matchChunk (chunk s : list ascii) : result (option (list ascii)) :=
  match_chunk (length chunk) chunk s false.

(** [scanChunk]: the leading stars, then everything up to the next star outside a class. *)
Fixpoint skip_stars (pattern : list ascii) : bool * list ascii :=
  match pattern with
  | c :: rest => if is_char c "*" then (true, (skip_stars rest).2) else (false, pattern)
  | [] => (false, [])
  end.

Fixpoint scan (inrange : bool) (pattern : list ascii) : list ascii * list ascii :=
  match pattern with
  | [] => ([], [])
  | c :: rest =>
      if is_char c "\" then
        match rest with
        | [] => ([c], [])
        | e :: rest' => let '(chunk, remains) := scan inrange rest' in (c :: e :: chunk, remains)
        end
      else if is_char c "*" && negb inrange then ([], pattern)
      else
        let inrange := if is_char c "[" then true else if is_char c "]" then false else inrange in
        let '(chunk, remains) := scan inrange rest in (c :: chunk, remains)
  end.

Definition scanChunk (pattern : list ascii) : bool * list ascii * list ascii :=
  let '(star, pattern) := skip_stars pattern in
  let '(chunk, rest) := scan false pattern in
  (star, chunk, rest).

(** The search after a star: skip bytes other than a slash until the chunk matches. *)
Fixpoint search_chunk (chunk : list ascii) (final : bool) (name : list ascii) : result (option (list ascii)) :=
  match name with
  | [] => Ok None
  | a :: name' =>
      if is_char a "/" then Ok None
      else
        m ← matchChunk chunk name';
        match m with
        | Some t => if final && negb (bool_decide (t = [])) then search_chunk chunk final name' else Ok (Some t)
        | None => search_chunk chunk final name'
        end
  end.

(** The syntax check of what is left of the pattern when a match has failed. *)
Fixpoint check_rest (fuel : nat) (pattern : list ascii) : result bool :=
  match fuel with
  | O => Ok false
  | S fuel' =>
      match pattern with
      | [] => Ok false
      | _ :: _ =>
          let '(_, chunk, rest) := scanChunk pattern in
          _ ← matchChunk chunk [];
          check_rest fuel' rest
      end
  end.

Fixpoint match_go (fuel : nat) (pattern name : list ascii) : result bool :=
  match fuel with
  | O => Ok (bool_decide (name = []))
  | S fuel' =>
      match pattern with
      | [] => Ok (bool_decide (name = []))
      | _ :: _ =>
          let '(star, chunk, rest) := scanChunk pattern in
          if star && bool_decide (chunk = []) then Ok (negb (existsb (is_char "/") name))
          else
            m ← matchChunk chunk name;
            let advance :=
              match m with
              | Some t => if bool_decide (t = []) || negb (bool_decide (rest = [])) then Some t else None
              | None => None
              end in
            match advance with
            | Some t => match_go fuel' rest t
            | None =>
                found ← (if star then search_chunk chunk (bool_decide (rest = [])) name else Ok None);
                match found with
                | Some t => match_go fuel' rest t
                | None => check_rest (length rest) rest
                end
            end
      end
  end.

Definition path_Match (pattern name : string) : result bool :=
  match_go (String.length pattern) (chars_of_string pattern) (chars_of_string name).

(** ** [strings.Contains] and [strings.EqualFold] *)

Fixpoint string_contains (s sub : string) : bool :=
  match strip_prefix sub s with
  | Some _ => true
  | None => match s with String _ s' => string_contains s' sub | "" => false end
  end.

Definition equal_fold (a b : string) : bool := bool_decide (to_lower a = to_lower b).

(** ** Patterns of shaping and routing rules *)

Definition validateGlob (label pattern : string) : result unit :=
  let pattern := trim_space pattern in
  if bool_decide (pattern = "") || bool_decide (pattern = "*") then Ok tt
  else match path_Match pattern "validation-probe" with
       | Err e => Err (ErrWrap (label +:+ " pattern is invalid") e)
       | Ok _ => Ok tt
       end.

Definition glob (pattern value : string) : bool :=
  let pattern := trim_space pattern in
  if bool_decide (pattern = "") || bool_decide (pattern = "*") then true
  else match path_Match pattern value with
       | Ok matched => matched
       | Err _ => false
       end.

(** ** The fuel is enough *)

Lemma decode_rune_width c s : (1 <= (decode_rune (c :: s)).2)%nat.
Proof.
  unfold decode_rune. repeat (match goal with |- context [if ?b then _ else _] => destruct b
    | |- context [match ?l with [] => _ | _ :: _ => _ end] => destruct l end); cbn; lia.
Qed.

Lemma getEsc_shorter chunk r rest : getEsc chunk = Ok (r, rest) -> (length rest < length chunk)%nat.
Proof.
  assert (forall c s r rest, (let '(r, n) := decode_rune (c :: s) in
    if ((r =? rune_error) && (n =? 1)%nat) || bool_decide (drop n (c :: s) = []) then Err ErrBadPattern
    else Ok (r, drop n (c :: s))) = Ok (r, rest) -> (length rest < length (c :: s))%nat) as Hread.
  { intros c s r' rest'. pose proof (decode_rune_width c s). destruct (decode_rune (c :: s)) as [r0 n]. cbn [snd] in *.
    destruct (_ || _); [done|]. intros [= <- <-]. rewrite length_drop. cbn [length]. lia. }
  unfold getEsc. destruct chunk as [|c [|c' chunk]]; [done| |]; destruct (_ || _); [done| |done|].
  - destruct (is_char c "\"); [done|]. apply Hread.
  - destruct (is_char c "\"); [|apply Hread]. intros H%Hread. cbn [length] in *. lia.
Qed.

Lemma match_class_shorter fuel r chunk first found b rest :
  match_class fuel r chunk first found = Ok (b, rest) -> (length rest < length chunk)%nat.
Proof.
  revert chunk first found. induction fuel as [|fuel IH]; intros chunk first found; cbn [match_class]; [done|].
  destruct chunk as [|c chunk]; [done|]. destruct (_ && _); [intros [= _ <-]; cbn; lia|].
  unfold mbind, result_mbind. destruct (getEsc (c :: chunk)) as [[lo chunk1]|] eqn:E1; [|done].
  apply getEsc_shorter in E1. destruct chunk1 as [|c1 chunk1]; [intros H%IH; lia|].
  destruct (is_char c1 "-"); [|intros H%IH; lia].
  destruct (getEsc chunk1) as [[hi chunk2]|] eqn:E2; [|done]. apply getEsc_shorter in E2.
  intros H%IH. cbn [length] in *. lia.
Qed.

Lemma match_class_fuel n m r chunk first found :
  (length chunk < n)%nat -> (length chunk < m)%nat ->
  match_class n r chunk first found = match_class m r chunk first found.
Proof.
  revert m chunk first found. induction n as [|n IH]; intros [|m] chunk first found Hn Hm; try lia.
  cbn [match_class]. destruct chunk as [|c chunk]; [done|]. destruct (_ && _); [done|].
  unfold mbind, result_mbind. destruct (getEsc (c :: chunk)) as [[lo chunk1]|] eqn:E1; [|done].
  apply getEsc_shorter in E1. destruct chunk1 as [|c1 chunk1]; [apply IH; cbn in *; lia|].
  destruct (is_char c1 "-"); [|apply IH; cbn in *; lia].
  destruct (getEsc chunk1) as [[hi chunk2]|] eqn:E2; [|done]. apply getEsc_shorter in E2. apply IH; cbn in *; lia.
Qed.

Lemma match_chunk_fuel n m chunk s failed :
  (length chunk <= n)%nat -> (length chunk <= m)%nat ->
  match_chunk n chunk s failed = match_chunk m chunk s failed.
Proof.
  revert m chunk s failed. induction n as [|n IH]; intros m chunk s failed Hn Hm.
  { destruct chunk; [|cbn in Hn; lia]. by destruct m. }
  destruct m as [|m]; [destruct chunk; [done|cbn in Hm; lia]|].
  destruct chunk as [|c chunk]; [done|]. cbn [match_chunk]. cbn in Hn, Hm.
  assert (forall rest s failed, (length rest <= length chunk)%nat ->
    match_chunk n rest s failed = match_chunk m rest s failed) as Hrec by (intros; apply IH; lia).
  destruct (is_char c "[").
  { destruct (if _ || _ then _ else _) as [r k].
    assert (forall chunk'', (length chunk'' <= length chunk)%nat -> forall negated : bool,
      ('(found, rest) ← match_class (S (length chunk'')) r chunk'' true false;
       match_chunk n rest (drop k s) ((failed || bool_decide (s = [])) || bool_decide (found = negated))) =
      ('(found, rest) ← match_class (S (length chunk'')) r chunk'' true false;
       match_chunk m rest (drop k s) ((failed || bool_decide (s = [])) || bool_decide (found = negated)))) as Hclass.
    { intros chunk'' Hlen negated. unfold mbind, result_mbind.
      destruct (match_class _ _ _ _ _) as [[found rest]|] eqn:E; [|done]. apply match_class_shorter in E. apply Hrec. lia. }
    destruct chunk as [|c' chunk']; [by apply Hclass|]. destruct (is_char c' "^"); apply Hclass; cbn; lia. }
  destruct (is_char c "?").
  { destruct s; [by apply Hrec|]. destruct (failed || _); by apply Hrec. }
  destruct (is_char c "\").
  { destruct chunk as [|c' chunk']; [done|]. destruct s; [apply Hrec; cbn; lia|]. destruct (failed || _); apply Hrec; cbn; lia. }
  destruct s; [by apply Hrec|]. destruct (failed || _); by apply Hrec.
Qed.

Lemma scan_length inrange pattern : length ((scan inrange pattern).1 ++ (scan inrange pattern).2) = length pattern.
Proof.
  revert inrange. induction pattern as [pattern IH] using (induction_ltof1 _ (@length ascii)); intros inrange.
  unfold ltof in IH. destruct pattern as [|c rest]; [done|]. cbn [scan]. destruct (is_char c "\").
  - destruct rest as [|e rest']; [done|]. specialize (IH rest' ltac:(cbn; lia) inrange).
    destruct (scan inrange rest'). cbn in *. lia.
  - destruct (_ && _); [done|]. match goal with |- context [scan ?b rest] => specialize (IH rest ltac:(cbn; lia) b) end.
    destruct (scan _ rest). cbn in *. lia.
Qed.

Lemma skip_stars_length pattern : (length (skip_stars pattern).2 <= length pattern)%nat.
Proof. induction pattern as [|c rest IH]; cbn; [done|]. destruct (is_char c "*"); cbn in *; lia. Qed.

Lemma scanChunk_shorter c pattern : (length (scanChunk (c :: pattern)).2 < length (c :: pattern))%nat.
Proof.
  unfold scanChunk. pose proof (skip_stars_length pattern) as Hs. cbn [skip_stars]. destruct (is_char c "*") eqn:Ec.
  - destruct (skip_stars pattern) as [star p]. cbn [snd] in *. pose proof (scan_length false p) as Hl.
    destruct (scan false p). cbn in *. rewrite length_app in Hl. lia.
  - pose proof (scan_length false (c :: pattern)) as Hl. cbn [scan] in *. rewrite Ec in *. cbn [andb] in *.
    destruct (is_char c "\").
    + destruct pattern as [|e rest']; [cbn; lia|]. destruct (scan false rest'). cbn in *. rewrite length_app in Hl. lia.
    + match goal with |- context [scan ?b pattern] => destruct (scan b pattern) end. cbn in *. rewrite length_app in Hl. lia.
Qed.

Lemma check_rest_fuel n m pattern :
  (length pattern <= n)%nat -> (length pattern <= m)%nat -> check_rest n pattern = check_rest m pattern.
Proof.
  revert m pattern. induction n as [|n IH]; intros [|m] [|c pattern] Hn Hm; cbn in Hn, Hm; try lia; try done.
  cbn [check_rest]. pose proof (scanChunk_shorter c pattern) as Hs. destruct (scanChunk (c :: pattern)) as [[star chunk] rest].
  cbn in Hs. unfold mbind, result_mbind. destruct (matchChunk chunk []); [|done]. apply IH; lia.
Qed.

Lemma match_go_fuel n m pattern name :
  (length pattern <= n)%nat -> (length pattern <= m)%nat -> match_go n pattern name = match_go m pattern name.
Proof.
  revert m pattern name. induction n as [|n IH]; intros [|m] [|c pattern] name Hn Hm; cbn in Hn, Hm; try lia; try done.
  cbn [match_go]. pose proof (scanChunk_shorter c pattern) as Hs. destruct (scanChunk (c :: pattern)) as [[star chunk] rest].
  cbn in Hs. destruct (_ && _); [done|]. unfold mbind, result_mbind. destruct (matchChunk chunk name) as [t|]; [|done].
  destruct (match t with Some _ => _ | None => _ end); [apply IH; lia|].
  destruct (if star then _ else _) as [[t'|]|]; [apply IH; lia|done..].
Qed.
