(* ===== verification/GoTime.v ===== *)
(** * Formatting of numbers and times

    The [%d] and [%0nd] verbs of [fmt], [Time.UnixMilli], and [Time.Format] in UTC with the
    layout [time.RFC3339Nano].  A time is a number of nanoseconds since the zero time, 1
    January of year 1. *)

From S2P Require Import Prelude GoStrings.

Local Open Scope string_scope.
Local Open Scope Z_scope.
Local Open Scope list_scope.

Definition ns_second : Z := 1000000000.
Definition ns_minute : Z := 60 * ns_second.

(** Drop leading zeros while more than [keep] digits are left. *)
Fixpoint strip_zeros (keep : nat) (l : list Z) : list Z :=
  match l with
  | d :: l' => if (d =? 0) && (keep <? length l)%nat then strip_zeros keep l' else l
  | [] => []
  end.

(** A natural number below 10^20 with at least [width] digits. *)
Definition format_padded (width : nat) (n : Z) : string :=
  string_of_chars (digit_char <$> strip_zeros (Nat.max 1 width) (digits 20 n)).

Definition format_d (n : Z) : string :=
  if n <? 0 then "-" +:+ format_padded 1 (- n) else format_padded 1 n.

Definition unix_milli (t : Z) : Z := (t - 62135596800 * ns_second) / 1000000.

(** Year, month and day of a day number; day 0 is 1 January of year 1.  The count is
    shifted to the 1st of March of year 0, so that leap days end a year. *)
Definition civil (days : Z) : Z * Z * Z :=
  let z := days + 306 in
  let era := z / 146097 in
  let doe := z - era * 146097 in
  let yoe := (doe - doe / 1460 + doe / 36524 - doe / 146096) / 365 in
  let doy := doe - (365 * yoe + yoe / 4 - yoe / 100) in
  let mp := (5 * doy + 2) / 153 in
  let d := doy - (153 * mp + 2) / 5 + 1 in
  let m := if mp <? 10 then mp + 3 else mp - 9 in
  let y := yoe + era * 400 in
  ((if m <=? 2 then y + 1 else y), m, d).

(** The fraction of a second without trailing zeros, with its point; empty if zero. *)
Definition format_fraction (ns : Z) : string :=
  match strip_zeros 0 (rev (digits 9 ns)) with
  | [] => ""
  | l => "." +:+ string_of_chars (digit_char <$> rev l)
  end.

Definition format_rfc3339_nano (t : Z) : string :=
  let '(y, mo, d) := civil (t / (86400 * ns_second)) in
  let sec := t / ns_second mod 86400 in
  format_padded 4 y +:+ "-" +:+ format_padded 2 mo +:+ "-" +:+ format_padded 2 d +:+ "T" +:+
  format_padded 2 (sec / 3600) +:+ ":" +:+ format_padded 2 (sec / 60 mod 60) +:+ ":" +:+ format_padded 2 (sec mod 60) +:+
  format_fraction (t mod ns_second) +:+ "Z".

Lemma format_rfc3339_nano_examples :
  format_rfc3339_nano 0 = "0001-01-01T00:00:00Z" /\
  format_rfc3339_nano (62135596800 * ns_second) = "1970-01-01T00:00:00Z" /\
  format_rfc3339_nano ((62135596800 + 951827696) * ns_second + 120000000) = "2000-02-29T12:34:56.12Z".
Proof. vm_compute. done. Qed.
