(* ===== verification/GoParse.v ===== *)
(** * Numbers and durations as text

    [strconv.Atoi] and [strconv.ParseInt] in base ten, [time.ParseDuration],
    [Duration.String] and the verb [%.1f] of [fmt]. *)

From S2P Require Import Prelude GoStrings GoFloat GoTime.

Local Open Scope string_scope.
Local Open Scope Z_scope.
Local Open Scope list_scope.

(** [strings.HasPrefix]. *)
Definition has_prefix (s p : string) : bool := bool_decide (is_Some (strip_prefix p s)).

(** ** Integers *)

(** An optional sign. *)
Definition sign (s : list ascii) : bool * list ascii :=
  match s with
  | c :: l => if bool_decide (c = "-"%char) then (true, l) else if bool_decide (c = "+"%char) then (false, l) else (false, s)
  | [] => (false, [])
  end.

(** [strconv.ParseInt(s, 10, 64)], which [Atoi] agrees with. *)
Definition parse_int64 (s : string) : option Z :=
  let '(negative, l) := sign (chars_of_string s) in
  match l with
  | [] => None
  | _ => n ← parse_digits 0 l;
         let v : Z := if (negative : bool) then - n else n in
         if (- 2 ^ 63 <=? v) && (v <? 2 ^ 63) then Some v else None
  end.

Definition Atoi : string -> option Z := parse_int64.

(** ** Durations *)

Definition ns_hour : Z := 60 * ns_minute.

Definition is_digit (c : ascii) : bool := bool_decide (is_Some (char_digit c)).

(** [leadingInt]: the value and the rest, or an overflow. *)
Fixpoint leadingInt (x : Z) (s : list ascii) : option (Z * list ascii) :=
  match s with
  | c :: s' =>
      match char_digit c with
      | None => Some (x, s)
      | Some d => if 2 ^ 63 / 10 <? x then None
                  else if 2 ^ 63 <? 10 * x + d then None else leadingInt (10 * x + d) s'
      end
  | [] => Some (x, [])
  end.

(** [leadingFraction]: digits that would overflow are dropped. *)
Fixpoint leadingFraction (x : Z) (scale : float64) (overflow : bool) (s : list ascii) : Z * float64 * list ascii :=
  match s with
  | c :: s' =>
      match char_digit c with
      | None => (x, scale, s)
      | Some d =>
          if overflow then leadingFraction x scale true s'
          else if (2 ^ 63 - 1) / 10 <? x then leadingFraction x scale true s'
          else if 2 ^ 63 <? 10 * x + d then leadingFraction x scale true s'
          else leadingFraction (10 * x + d) (scale * float_of_int 10)%F false s'
      end
  | [] => (x, scale, [])
  end.

(** The unit: the characters up to the next digit or point. *)
Fixpoint leading_unit (s : list ascii) : list ascii * list ascii :=
  match s with
  | c :: s' => if is_digit c || bool_decide (c = "."%char) then ([], s)
               else let '(u, rest) := leading_unit s' in (c :: u, rest)
  | [] => ([], [])
  end.

Definition unit_of (u : string) : option Z :=
  if bool_decide (u = "ns") then Some 1
  else if bool_decide (u = "us") || bool_decide (u = seq_of [194; 181; 115]%N) || bool_decide (u = seq_of [206; 188; 115]%N)
  then Some 1000
  else if bool_decide (u = "ms") then Some 1000000
  else if bool_decide (u = "s") then Some ns_second
  else if bool_decide (u = "m") then Some ns_minute
  else if bool_decide (u = "h") then Some ns_hour
  else None.

(** One number with its unit: nanoseconds and the rest. *)
Definition duration_term (s : list ascii) : option (Z * list ascii) :=
  match s with
  | [] => None
  | c :: _ =>
      if negb (is_digit c || bool_decide (c = "."%char)) then None
      else
        '(v, s1) ← leadingInt 0 s;
        let pre := negb (length s1 =? length s)%nat in
        let '(f, scale, s2, post) :=
          if bool_decide (head s1 = Some "."%char) then
            let '(f, scale, s2) := leadingFraction 0 float_one false (tail s1) in
            (f, scale, s2, negb (length s2 =? length (tail s1))%nat)
          else (0, float_one, s1, false) in
        if negb pre && negb post then None
        else
          let '(u, rest) := leading_unit s2 in
          unit ← (match u with [] => None | _ => unit_of (string_of_chars u) end);
          if 2 ^ 63 / unit <? v then None
          else
            let v := v * unit + (if 0 <? f then int_of_float (float_of_int f * (float_of_int unit / scale))%F else 0) in
            if 2 ^ 63 <? v then None else Some (v, rest)
  end.

(** Every term consumes a character, so the length is enough fuel. *)
Fixpoint duration_terms (fuel : nat) (d : Z) (s : list ascii) : option Z :=
  match s, fuel with
  | [], _ => Some d
  | _, O => None
  | _, S fuel =>
      '(v, rest) ← duration_term s;
      if 2 ^ 63 <? d + v then None else duration_terms fuel (d + v) rest
  end.

Definition ParseDuration (s : string) : option Z :=
  let '(negative, l) := sign (chars_of_string s) in
  if bool_decide (l = ["0"%char]) then Some 0
  else match l with
       | [] => None
       | _ => d ← duration_terms (length l) 0 l;
              if (negative : bool) then Some (- d) else if 2 ^ 63 - 1 <? d then None else Some d
       end.

(** The fraction [v / 10^width] without trailing zeros. *)
Definition fraction_of (width : nat) (v : Z) : string :=
  match strip_zeros 0 (rev (digits width v)) with
  | [] => ""
  | l => "." +:+ string_of_chars (digit_char <$> rev l)
  end.

Definition Duration_String (d : Z) : string :=
  let u := Z.abs d in
  let minus := if d <? 0 then "-" else "" in
  if u =? 0 then "0s"
  else if u <? ns_second then
    minus +:+
    (if u <? 1000 then format_d u +:+ "ns"
     else if u <? 1000000 then format_d (u / 1000) +:+ fraction_of 3 (u mod 1000) +:+ seq_of [194; 181; 115]%N
     else format_d (u / 1000000) +:+ fraction_of 6 (u mod 1000000) +:+ "ms")
  else
    let seconds := u / ns_second in
    let text := format_d (seconds mod 60) +:+ fraction_of 9 (u mod ns_second) +:+ "s" in
    let minutes := seconds / 60 in
    minus +:+
    (if minutes =? 0 then text
     else let text := format_d (minutes mod 60) +:+ "m" +:+ text in
          let hours := minutes / 60 in
          if hours =? 0 then text else format_d hours +:+ "h" +:+ text).

(** ** [%.1f]: tenths of the exact value, ties to even *)

(** A decimal numeral of any size: a number has at most as many digits as bits. *)
Definition decimal (n : Z) : string :=
  string_of_chars (digit_char <$> strip_zeros 1 (digits (S (Z.to_nat (Z.log2 n))) n)).

Definition tenths (m : positive) (e : Z) : Z :=
  if 0 <=? e then 10 * Zpos m * 2 ^ e
  else let q := 10 * Zpos m / 2 ^ (- e) in
       let r := 10 * Zpos m mod 2 ^ (- e) in
       if (2 ^ (- e) <? 2 * r) || ((2 * r =? 2 ^ (- e)) && Z.odd q) then q + 1 else q.

Definition format_f1 (f : float64) : string :=
  let text (s : bool) (t : Z) := (if s then "-" else "") +:+ decimal (t / 10) +:+ "." +:+ decimal (t mod 10) in
  match f with
  | S754_zero s => text s 0
  | S754_infinity s => if s then "-Inf" else "+Inf"
  | S754_nan => "NaN"
  | S754_finite s m e => text s (tenths m e)
  end.

(** ** Facts *)

Lemma leadingInt_length s : forall x v rest, leadingInt x s = Some (v, rest) -> (length rest <= length s)%nat.
Proof.
  induction s as [|c s IH]; intros x v rest; cbn [leadingInt]; [by intros [= _ <-]|].
  destruct (char_digit c); [|by intros [= _ <-]]. do 2 (destruct (_ <? _); [done|]). intros H%IH. cbn. lia.
Qed.

Lemma leadingFraction_length s : forall x scale b, (length (leadingFraction x scale b s).2 <= length s)%nat.
Proof.
  induction s as [|c s IH]; intros x scale b; cbn [leadingFraction]; [done|].
  destruct (char_digit c) as [d|]; [|done]. cbn [length].
  destruct b; [etrans; [apply IH|lia]|]. destruct (_ <? x); [etrans; [apply IH|lia]|].
  destruct (_ <? _); (etrans; [apply IH|lia]).
Qed.

Lemma leading_unit_length s : (length (leading_unit s).1 + length (leading_unit s).2 = length s)%nat.
Proof.
  induction s as [|c s IH]; cbn [leading_unit]; [done|]. destruct (_ || _); [done|].
  destruct (leading_unit s). cbn in *. lia.
Qed.

(** Every term consumes text. *)
Lemma duration_term_shorter s v rest : duration_term s = Some (v, rest) -> (length rest < length s)%nat.
Proof.
  unfold duration_term. destruct s as [|c s0]; [done|]. set (s := c :: s0). destruct (negb _); [done|].
  destruct (leadingInt 0 s) as [[v1 s1]|] eqn:E1; [|done]. apply leadingInt_length in E1. cbn [mbind option_bind].
  set (next := if bool_decide (head s1 = Some "."%char) then _ else _).
  assert (length next.1.2 <= length s1)%nat as H2.
  { unfold next. case_bool_decide; [|done]. pose proof (leadingFraction_length (tail s1) 0 float_one false) as Hf.
    destruct (leadingFraction _ _ _ _) as [[f scale] s2]. cbn in *. destruct s1; cbn in *; lia. }
  destruct next as [[[f scale] s2] post]. cbn in H2. destruct (_ && _); [done|].
  pose proof (leading_unit_length s2) as Hu. destruct (leading_unit s2) as [u rest']. cbn in Hu.
  destruct u as [|a u]; [done|]. destruct (unit_of _) as [unit|]; [|done]. cbn [mbind option_bind].
  destruct (_ <? v1); [done|]. destruct (_ <? _); [done|]. intros [= _ <-]. cbn in Hu. lia.
Qed.

(** The length of the text is enough fuel. *)
Lemma duration_terms_fuel fuel : forall d s, (length s <= fuel)%nat ->
  duration_terms fuel d s = duration_terms (length s) d s.
Proof.
  induction fuel as [fuel IH] using lt_wf_ind. intros d s Hs. destruct s as [|c s]; [by destruct fuel|].
  destruct fuel as [|fuel]; [cbn in Hs; lia|]. cbn [length duration_terms].
  destruct (duration_term (c :: s)) as [[v rest]|] eqn:E; [|done]. apply duration_term_shorter in E. cbn in E, Hs |- *.
  destruct (_ <? _); [done|]. rewrite (IH fuel) by lia. destruct (decide (length s = fuel)) as [->|]; [|by rewrite (IH (length s)) by lia].
  by rewrite (IH fuel) by lia.
Qed.

Lemma parse_int64_range s v : parse_int64 s = Some v -> - 2 ^ 63 <= v < 2 ^ 63.
Proof.
  unfold parse_int64. destruct (sign _) as [negative [|c l]]; [done|]. destruct (parse_digits _ _) as [n|]; [|done].
  cbn [mbind option_bind]. destruct (_ && _) eqn:E; [|done]. intros [= <-].
  apply andb_true_iff in E as [?%Z.leb_le ?%Z.ltb_lt]. done.
Qed.

Lemma parse_examples :
  Atoi "-42" = Some (-42) /\ Atoi "+7" = Some 7 /\ Atoi "9223372036854775808" = None /\ Atoi "" = None /\ Atoi "1_0" = None /\
  ParseDuration "1h15m30.918s" = Some 4530918000000 /\ ParseDuration "1.5h" = Some 5400000000000 /\
  ParseDuration "3" = None /\ ParseDuration "-.5s" = Some (-500000000) /\ ParseDuration "0" = Some 0.
Proof. vm_compute. done. Qed.

Lemma format_examples :
  Duration_String 60000000000 = "1m0s" /\ Duration_String 5025500000000 = "1h23m45.5s" /\ Duration_String 1100000 = "1.1ms" /\
  Duration_String 0 = "0s" /\ format_f1 (float_ratio 3001 2) = "1500.5" /\ format_f1 (float_ratio 1 4) = "0.2" /\
  format_f1 (float_of_int (10 ^ 22)) = "10000000000000000000000.0" /\ format_f1 (float_ratio (-5) 100) = "-0.1".
Proof. vm_compute. done. Qed.
