(* ===== verification/Hash.v ===== *)
(** * Checksums and digests: [hash/crc32] (IEEE) and [crypto/sha256]

    Both are the real algorithms, bit for bit, so frame checksums and record
    digests evaluate on concrete inputs.  Proofs treat them as opaque functions:
    the only facts used are the output length and, for tamper evidence, that two
    different inputs with the same digest are a collision. *)

From S2P Require Import Prelude GoStrings.

(** ** CRC-32 (IEEE 802.3, reflected polynomial 0xEDB88320) *)

Definition crc_bit (c : Z) : Z :=
  if Z.odd c then Z.lxor (Z.shiftr c 1) 0xEDB88320 else Z.shiftr c 1.

Definition crc_byte (c : Z) (b : byte) : Z :=
  Nat.iter 8 crc_bit (Z.lxor c (Z_of_byte b)).

Definition crc32 (p : bytes) : Z := Z.lxor (foldl crc_byte 0xFFFFFFFF p) 0xFFFFFFFF.

(** ** SHA-256 (FIPS 180-4) *)

Definition w32 (z : Z) : Z := Z.land z 0xFFFFFFFF.
Definition rotr (n x : Z) : Z := w32 (Z.lor (Z.shiftr x n) (Z.shiftl x (32 - n))).
Definition ch (x y z : Z) : Z := Z.lxor (Z.land x y) (Z.land (Z.lxor x 0xFFFFFFFF) z).
Definition maj (x y z : Z) : Z := Z.lxor (Z.land x y) (Z.lxor (Z.land x z) (Z.land y z)).
Definition bsig0 (x : Z) : Z := Z.lxor (rotr 2 x) (Z.lxor (rotr 13 x) (rotr 22 x)).
Definition bsig1 (x : Z) : Z := Z.lxor (rotr 6 x) (Z.lxor (rotr 11 x) (rotr 25 x)).
Definition ssig0 (x : Z) : Z := Z.lxor (rotr 7 x) (Z.lxor (rotr 18 x) (Z.shiftr x 3)).
Definition ssig1 (x : Z) : Z := Z.lxor (rotr 17 x) (Z.lxor (rotr 19 x) (Z.shiftr x 10)).

(** The constants are, as the standard defines them, the first 32 bits of the
    fractional parts of the cube roots (rounds) and square roots (initial state)
    of the first primes; they are computed here once. *)
Definition is_prime (n : nat) : bool :=
  (2 <=? n)%nat && forallb (fun d => negb (n mod d =? 0)%nat) (seq 2 (n - 2)).

Definition primes_below (n : nat) : list Z :=
  Z.of_nat <$> filter (fun n => is_prime n = true) (seq 2 (n - 2)).

(** Integer cube root by bisection between [lo] (not above it) and [hi] (above it). *)
Fixpoint cube_root_between (fuel : nat) (x lo hi : Z) : Z :=
  match fuel with
  | O => lo
  | S fuel =>
      let mid := (lo + hi) / 2 in
      if mid * mid * mid <=? x then cube_root_between fuel x mid hi
      else cube_root_between fuel x lo mid
  end.

Definition sha_k : list Z := Eval vm_compute in
  (fun p => w32 (cube_root_between 40 (p * 2 ^ 96) 0 (2 ^ 36))) <$> take 64 (primes_below 312).

Definition sha_init : list Z := Eval vm_compute in
  (fun p => w32 (Z.sqrt (p * 2 ^ 64))) <$> take 8 (primes_below 20).

Fixpoint words_be (p : bytes) : list Z :=
  match p with
  | a :: b :: c :: d :: p' => be32_decode [a; b; c; d] :: words_be p'
  | _ => []
  end.

(** The message schedule, kept newest first. *)
Fixpoint schedule (n : nat) (ws : list Z) : list Z :=
  match n with
  | O => ws
  | S n =>
      let w i := nth i ws 0 in
      schedule n (w32 (ssig1 (w 1%nat) + w 6%nat + ssig0 (w 14%nat) + w 15%nat) :: ws)
  end.

Definition sha_round (st : list Z) (kw : Z * Z) : list Z :=
  match st with
  | [a; b; c; d; e; f; g; h] =>
      let t1 := w32 (h + bsig1 e + ch e f g + kw.1 + kw.2) in
      let t2 := w32 (bsig0 a + maj a b c) in
      [w32 (t1 + t2); a; b; c; w32 (d + t1); e; f; g]
  | _ => st
  end.

Definition sha_block (st : list Z) (block : bytes) : list Z :=
  let ws := reverse (schedule 48 (reverse (words_be block))) in
  zip_with (fun x y => w32 (x + y)) st (foldl sha_round st (zip sha_k ws)).

Definition be64 (z : Z) : bytes := be32 (z / 2 ^ 32) ++ be32 z.

Definition sha_pad (p : bytes) : bytes :=
  let zeros := Z.to_nat ((55 - zlen p) mod 64) in
  p ++ byte_of_Z 128 :: repeat (byte_of_Z 0) zeros ++ be64 (8 * zlen p).

Fixpoint sha_blocks (fuel : nat) (st : list Z) (p : bytes) : list Z :=
  match fuel, p with
  | S fuel, _ :: _ => sha_blocks fuel (sha_block st (take 64 p)) (drop 64 p)
  | _, _ => st
  end.

Definition sha256 (p : bytes) : bytes :=
  let padded := sha_pad p in
  match sha_blocks (length padded) sha_init padded with
  | [a; b; c; d; e; f; g; h] =>
      be32 a ++ be32 b ++ be32 c ++ be32 d ++ be32 e ++ be32 f ++ be32 g ++ be32 h
  | _ => []
  end.

(** [hex.EncodeToString(sha256.Sum256(p)[:])], the digest text used everywhere. *)
Definition sha256_hex (p : bytes) : string := hex_encode (sha256 p).

Definition collision (p q : bytes) : Prop := p <> q /\ sha256 p = sha256 q.

(** Two of the given hash inputs collide. *)
Definition collision_in (ps qs : list bytes) : Prop :=
  exists p q, p ∈ ps /\ q ∈ qs /\ collision p q.

Lemma lxor_u32 a b : 0 <= a < 2 ^ 32 -> 0 <= b < 2 ^ 32 -> 0 <= Z.lxor a b < 2 ^ 32.
Proof.
  intros Ha Hb. assert (0 <= Z.lxor a b) as Hn by (apply Z.lxor_nonneg; lia).
  split; [done|]. destruct (decide (Z.lxor a b = 0)) as [->|Hz]; [lia|].
  apply Z.log2_lt_pow2; [lia|].
  eapply Z.le_lt_trans; [apply Z.log2_lxor; lia|].
  apply Z.max_lub_lt.
  - destruct (decide (a = 0)) as [->|]; [done|]. apply Z.log2_lt_pow2; lia.
  - destruct (decide (b = 0)) as [->|]; [done|]. apply Z.log2_lt_pow2; lia.
Qed.

Lemma crc_bit_range c : 0 <= c < 2 ^ 32 -> 0 <= crc_bit c < 2 ^ 32.
Proof.
  intros Hc. assert (0 <= Z.shiftr c 1 < 2 ^ 32) as Hs.
  { rewrite Z.shiftr_div_pow2 by lia. change (2 ^ 1) with 2. Z.div_mod_to_equations. lia. }
  unfold crc_bit. destruct (Z.odd c); [apply lxor_u32; [done|lia]|done].
Qed.

Lemma crc_byte_range c b : 0 <= c < 2 ^ 32 -> 0 <= crc_byte c b < 2 ^ 32.
Proof.
  intros Hc. unfold crc_byte. pose proof (Z_of_byte_range b).
  assert (0 <= Z.lxor c (Z_of_byte b) < 2 ^ 32) as Hx by (apply lxor_u32; lia).
  generalize dependent (Z.lxor c (Z_of_byte b)). intros x Hx.
  generalize 8%nat as n. intros n. induction n as [|n IH]; [done|]. simpl. by apply crc_bit_range.
Qed.

(** A frame checksum always fits the four header bytes. *)
Lemma crc32_range p : 0 <= crc32 p < 2 ^ 32.
Proof.
  unfold crc32. apply lxor_u32; [|lia].
  assert (0 <= 0xFFFFFFFF < 2 ^ 32) as Hc by lia. revert Hc.
  generalize 0xFFFFFFFF as c. induction p as [|b p IH]; intros c Hc; [done|].
  simpl. by apply IH, crc_byte_range.
Qed.

Lemma length_sha_round st kw : length (sha_round st kw) = length st.
Proof. unfold sha_round. repeat case_match; reflexivity. Qed.

Lemma length_sha_block st block : length (sha_block st block) = length st.
Proof.
  unfold sha_block. rewrite length_zip_with.
  generalize (zip sha_k (reverse (schedule 48 (reverse (words_be block))))). intros kws.
  assert (forall s, length (foldl sha_round s kws) = length s) as ->; [|lia].
  induction kws as [|kw kws IH]; intros s; [done|]. simpl. by rewrite IH, length_sha_round.
Qed.

Lemma length_sha_blocks fuel st p : length (sha_blocks fuel st p) = length st.
Proof.
  revert st p. induction fuel as [|fuel IH]; intros st [|b p]; try done.
  cbn [sha_blocks]. by rewrite IH, length_sha_block.
Qed.

Lemma length_sha256 p : length (sha256 p) = 32%nat.
Proof.
  unfold sha256. pose proof (length_sha_blocks (length (sha_pad p)) sha_init (sha_pad p)) as Hl.
  change (length sha_init) with 8%nat in Hl.
  destruct (sha_blocks _ _ _) as [|a [|b [|c [|d [|e [|f [|g [|h [|i l]]]]]]]]]; try done.
Qed.

Lemma sha256_hex_eq p q : sha256_hex p = sha256_hex q -> p = q \/ collision p q.
Proof.
  intros H%(inj hex_encode). destruct (decide (p = q)); [by left|right; by split].
Qed.

Lemma collision_in_weaken ps qs ps' qs' :
  collision_in ps qs -> ps ⊆ ps' -> qs ⊆ qs' -> collision_in ps' qs'.
Proof. intros (p & q & Hp & Hq & H) H1 H2. exists p, q. auto. Qed.

Example crc32_check : crc32 (to_bytes "123456789") = 0xCBF43926.
Proof. vm_compute. reflexivity. Qed.

Example sha256_abc :
  sha256_hex (to_bytes "abc") = "ba7816bf8f01cfea414140de5dae2223b00361a396177a9cb410ff61f20015ad"%string.
Proof. vm_compute. reflexivity. Qed.

Example sha256_empty :
  sha256_hex [] = "e3b0c44298fc1c149afbf4c8996fb92427ae41e4649b934ca495991b7852b855"%string.
Proof. vm_compute. reflexivity. Qed.

#[global] Opaque sha256 crc32.
