(* ===== verification/Domain.v ===== *)
(** * The telemetry envelope ([internal/domain])

    [Event] with its fields and [Event.Validate].  A [time.Time] is the number of
    nanoseconds since the zero time, so [IsZero] is the test with 0; a [float64]
    is the datum of [GoFloat]. *)

From S2P Require Import Prelude GoStrings GoFloat.

Definition time := Z.
Definition is_zero (t : time) : bool := t =? 0.

Record Event := mkEvent {
  ev_ID : string;
  ev_TenantID : string;
  ev_Source : string;
  ev_Type : string;
  ev_Timestamp : time;
  ev_Tags : gmap string string;
  ev_Payload : bytes;
  ev_Value : option spec_float;
  ev_Unit : string;
  ev_SchemaVersion : string;
  ev_SchemaURL : string;
  ev_CorrelationID : string;
}.

#[export] Instance Event_eq_dec : EqDecision Event.
Proof. solve_decision. Defined.

(** [Event.Validate]: the minimum invariants of an accepted event. *)
Definition Event_Validate (event : Event) : result unit :=
  if blank (ev_Source event) then Err (ErrMsg "source is required")
  else if blank (ev_Type event) then Err (ErrMsg "type is required")
  else if is_zero (ev_Timestamp event) then Err (ErrMsg "timestamp is required")
  else if blank (ev_SchemaVersion event) then Err (ErrMsg "schema_version is required")
  else Ok tt.

(** The key of a per-source sequence: [TenantID + "\x00" + Source]. *)
Definition source_key (event : Event) : string :=
  ev_TenantID event +:+ String (ascii_of_N 0) (ev_Source event).
