(* ===== verification/Disk.v ===== *)
(** * The operating-system boundary

    A store owns one directory, modelled as a finite map from base names to
    files.  A file has the bytes the process sees and the length of the prefix
    that has reached stable storage; a crash keeps any prefix at least that long.
    Metadata operations (create, rename, remove, truncate) are atomic and durable
    once they return.

    Every system call consumes one entry of a fault schedule, so theorems that
    quantify over the schedule cover every pattern of I/O failures: [IoOk] is
    success, [IoShort n] a write that stops after [n] bytes without an error,
    [IoFail n] an error after [n] bytes.  An exhausted schedule means success.
    [time.Now] reads the clock of the current state. *)

From S2P Require Import Prelude GoStrings Domain.

Inductive io_outcome : Type :=
  | IoOk
  | IoShort (written : nat)
  | IoFail (written : nat).

Record file := mkFile { data : bytes; synced : nat }.

#[export] Instance file_eq_dec : EqDecision file.
Proof. solve_decision. Defined.

Record disk := mkDisk {
  files : gmap string file;
  faults : list io_outcome;
  clock : time;
}.

Definition with_files (d : disk) (fs : gmap string file) : disk :=
  mkDisk fs (faults d) (clock d).

(** The next entry of the fault schedule. *)
Definition next_fault : M disk io_outcome := fun d =>
  match faults d with
  | [] => (Ok IoOk, d)
  | o :: rest => (Ok o, mkDisk (files d) rest (clock d))
  end.

(** A system call that either happens or fails without effect. *)
Definition syscall : M disk unit :=
  o ← next_fault;
  match o with IoOk => mret tt | _ => raise ErrIO end.

Definition now : M disk time := fun d => (Ok (clock d), d).

Definition append_data (p : bytes) (f : file) : file := mkFile (data f ++ p) (synced f).

(** One [file.Write]: the number of bytes written, or an error after some bytes. *)
Definition os_write (path : string) (p : bytes) : M disk nat :=
  o ← next_fault;
  let n := match o with
           | IoOk => length p
           | IoShort n | IoFail n => Nat.min n (length p)
           end in
  modify (fun d => with_files d (alter (append_data (take n p)) path (files d)));;
  match o with IoFail _ => raise ErrIO | _ => mret n end.

(** A single [file.Write] whose caller checks only the error: [os.File.Write]
    reports a partial write as [io.ErrShortWrite]. *)
Definition os_write_all (path : string) (p : bytes) : M disk unit :=
  n ← os_write path p;
  if (n <? length p)%nat then raise ErrShortWrite else mret tt.

(** [writeFull]: write until nothing is left; a write of zero bytes is an error,
    so the loop runs at most once per byte. *)
Fixpoint write_full_go (fuel : nat) (path : string) (p : bytes) : M disk unit :=
  match p, fuel with
  | [], _ => mret tt
  | _, O => raise ErrShortWrite
  | _, S fuel =>
      n ← os_write path p;
      if (n <=? 0)%nat then raise ErrShortWrite else write_full_go fuel path (drop n p)
  end.

Definition write_full (path : string) (p : bytes) : M disk unit :=
  write_full_go (length p) path p.

Definition os_sync (path : string) : M disk unit :=
  syscall;;
  modify (fun d => with_files d
    (alter (fun f => mkFile (data f) (length (data f))) path (files d))).

Definition os_close (path : string) : M disk unit := syscall.

(** [os.OpenFile] with [O_CREATE|O_EXCL]. *)
Definition os_create_excl (path : string) : M disk unit :=
  d ← get;
  match files d !! path with
  | Some _ => raise ErrExist
  | None =>
      syscall;;
      modify (fun d => with_files d (<[path := mkFile [] 0]> (files d)))
  end.

(** [os.OpenFile] with [O_CREATE|O_TRUNC]. *)
Definition os_create_trunc (path : string) : M disk unit :=
  syscall;;
  modify (fun d => with_files d (<[path := mkFile [] 0]> (files d))).

(** [os.OpenFile] with [O_CREATE|O_APPEND]: an existing file is kept. *)
Definition os_open_append (path : string) : M disk unit :=
  syscall;;
  modify (fun d => with_files d
    (match files d !! path with
     | Some _ => files d
     | None => <[path := mkFile [] 0]> (files d)
     end)).

(** [os.Stat]: the size, or [ErrNotExist]. *)
Definition os_stat (path : string) : M disk Z :=
  syscall;;
  d ← get;
  match files d !! path with
  | Some f => mret (zlen (data f))
  | None => raise ErrNotExist
  end.

(** Open a file and read it to the end. *)
Definition os_read (path : string) : M disk bytes :=
  syscall;;
  d ← get;
  match files d !! path with
  | Some f => mret (data f)
  | None => raise ErrNotExist
  end.

Definition os_remove (path : string) : M disk unit :=
  syscall;;
  d ← get;
  match files d !! path with
  | Some _ => modify (fun d => with_files d (delete path (files d)))
  | None => raise ErrNotExist
  end.

Definition os_rename (old new : string) : M disk unit :=
  syscall;;
  d ← get;
  match files d !! old with
  | Some f => modify (fun d => with_files d (<[new := f]> (delete old (files d))))
  | None => raise ErrNotExist
  end.

Definition os_truncate (path : string) (size : Z) : M disk unit :=
  syscall;;
  modify (fun d => with_files d
    (alter (fun f => mkFile (take (Z.to_nat size) (data f))
                            (Nat.min (synced f) (Z.to_nat size))) path (files d))).

(** [filepath.Glob] of ["*" ++ suffix], followed by [sort.Strings]. *)

Definition glob (suffix : string) (fs : gmap string file) : list string :=
  sort_strings (filter (fun name => has_suffix name suffix = true) (elements (dom fs))).

(** Component code runs on its own state beside the disk. *)
Definition on_disk {S A} (m : M disk A) : M (S * disk) A := fun '(s, d) =>
  let '(r, d') := m d in (r, (s, d')).
Definition on_state {S A} (f : S -> A) : M (S * disk) A := fun '(s, d) => (Ok (f s), (s, d)).
Definition set_state {S} (f : S -> S) : M (S * disk) unit := fun '(s, d) => (Ok tt, (f s, d)).

(** ** Crashes

    After a crash every file keeps a prefix of its bytes that includes the synced
    ones; the process state is gone and the fault schedule is arbitrary. *)

Definition crash_file (f f' : file) : Prop :=
  exists n, (synced f <= n <= length (data f))%nat /\ f' = mkFile (take n (data f)) n.

Definition crash (d d' : disk) : Prop :=
  forall path, option_relation crash_file (fun _ => False) (fun _ => False)
                 (files d !! path) (files d' !! path).

(** ** Specifications of the system calls

    [steady d r d']: the clock is untouched, and without scheduled faults the call
    succeeds and schedules none. *)

Definition steady {A} (d : disk) (r : result A) (d' : disk) : Prop :=
  clock d' = clock d /\ (faults d = [] -> is_ok r = true /\ faults d' = []).

Lemma steady_refl {A} (a : A) d : steady d (Ok a) d.
Proof. by split. Qed.

Lemma steady_trans {A B} d1 (a : A) d2 (r : result B) d3 :
  steady d1 (Ok a) d2 -> steady d2 r d3 -> steady d1 r d3.
Proof. intros [H1 F1] [H2 F2]. split; [congruence|]. intros [_ H]%F1. by apply F2. Qed.

Lemma steady_err {A B} d1 (e e' : error) d2 :
  steady (A:=A) d1 (Err e) d2 -> steady (A:=B) d1 (Err e') d2.
Proof. intros [H F]. split; [done|]. intros []%F. done. Qed.

Lemma steady_ok {A B} d1 (a : A) (b : B) d2 : steady d1 (Ok a) d2 -> steady d1 (Ok b) d2.
Proof. intros [H F]. split; [done|]. by intros []%F. Qed.

Lemma steady_no_err {A B} d1 (a : A) d2 e (r : result B) d3 :
  steady d1 (Ok a) d2 -> steady (A:=B) d2 (Err e) d3 -> steady d1 r d3.
Proof. intros [H1 F1] [H2 F2]. split; [congruence|]. intros []%F1. by destruct F2. Qed.

Lemma wp_next_fault Q d :
  (forall o d', files d' = files d -> clock d' = clock d ->
     (faults d = [] -> o = IoOk /\ faults d' = []) -> Q (Ok o) d') ->
  wp next_fault Q d.
Proof. unfold wp, next_fault. intros H. destruct (faults d) eqn:E; apply H; rewrite ?E; done. Qed.

Lemma wp_syscall_err Q d :
  (forall r d', r = Ok tt \/ r = Err ErrIO -> files d' = files d -> steady d r d' -> Q r d') ->
  wp syscall Q d.
Proof.
  intros H. unfold syscall. wp_steps. apply wp_next_fault. intros o d' Hf Hc Hn. wp_steps.
  destruct o; wp_steps; (apply H; [auto|done|]; split; [done|]); intros E; by destruct (Hn E).
Qed.

Lemma wp_syscall Q d :
  (forall r d', files d' = files d -> steady d r d' -> Q r d') -> wp syscall Q d.
Proof. intros H. apply wp_syscall_err. auto. Qed.

Lemma wp_now Q d : Q (Ok (clock d)) d -> wp now Q d.
Proof. done. Qed.

(** Bytes written to an existing file: some prefix, all of it on success. *)
Definition wrote {A} (path : string) (f : file) (p : bytes) (d : disk) (r : result A) (d' : disk)
  : Prop :=
  steady d r d' /\ exists n, (n <= length p)%nat /\
    files d' = <[path := append_data (take n p) f]> (files d) /\
    (is_ok r = true -> n = length p).

Lemma wp_os_write path f p Q d :
  files d !! path = Some f ->
  (forall r n d', (n <= length p)%nat -> files d' = <[path := append_data (take n p) f]> (files d) ->
     r = Ok n \/ r = Err ErrIO -> clock d' = clock d ->
     (faults d = [] -> r = Ok (length p) /\ faults d' = []) -> Q r d') ->
  wp (os_write path p) Q d.
Proof.
  intros Hp H. unfold os_write. wp_steps. apply wp_next_fault. intros o d' Hf Hc Hn. wp_steps.
  assert (forall g : file -> file, alter g path (files d') = <[path := g f]> (files d)) as Ha.
  { intros g. rewrite Hf. apply map_eq. intros k. destruct (decide (k = path)) as [->|Hk].
    - by rewrite lookup_alter_eq, lookup_insert_eq, Hp.
    - by rewrite lookup_alter_ne, lookup_insert_ne. }
  destruct o as [|n|n]; wp_steps; (eapply H; [|cbn; by rewrite Ha| |done|]);
    try lia; auto; intros E; destruct (Hn E); done.
Qed.

Lemma append_data_split n m p f :
  append_data (take m (drop n p)) (append_data (take n p) f) = append_data (take (n + m) p) f.
Proof. unfold append_data. cbn. by rewrite <- (assoc_L (++)), take_take_drop. Qed.

Lemma wrote_step path f p n d1 d2 d3 (r : result unit) :
  (n <= length p)%nat -> files d2 = <[path := append_data (take n p) f]> (files d1) ->
  clock d2 = clock d1 -> (faults d1 = [] -> faults d2 = []) ->
  wrote path (append_data (take n p) f) (drop n p) d2 r d3 -> wrote path f p d1 r d3.
Proof.
  intros Hn Hd Hc Hf [[Hc' Hf'] (m & Hm & Hd' & Hok)]. split.
  - split; [congruence|]. auto.
  - rewrite length_drop in *. exists (n + m)%nat. split; [lia|]. split.
    + by rewrite Hd', Hd, insert_insert_eq, append_data_split.
    + intros E%Hok. lia.
Qed.

Lemma wp_write_full_go fuel path f p Q d :
  files d !! path = Some f -> (length p <= fuel)%nat ->
  (forall r d', wrote path f p d r d' -> Q r d') -> wp (write_full_go fuel path p) Q d.
Proof.
  revert f p d. induction fuel as [|fuel IH]; intros f p d Hp Hf H; destruct p as [|x p];
    cbn [write_full_go length] in *; try lia; wp_steps.
  1,2: apply H; (split; [apply steady_refl|]); exists 0%nat; cbn; unfold append_data; cbn;
    rewrite app_nil_r; destruct f; rewrite insert_id by done; auto.
  eapply wp_os_write; [done|]. intros r n d1 Hn Hd1 [-> | ->] Hc Hfree; wp_steps.
  - split_if; wp_steps.
    + apply H. split; [|by exists n]. split; [done|].
      intros E. destruct (Hfree E) as [[= ->] _]. done.
    + eapply (IH (append_data (take n (x :: p)) f)); [by rewrite Hd1, lookup_insert_eq| |].
      * rewrite length_drop. cbn. apply Nat.leb_gt in G. lia.
      * intros r d2 Hw. apply H. eapply (wrote_step _ _ _ n); try done. by intros []%Hfree.
  - apply H. split; [|by exists n]. split; [done|]. intros E. by destruct (Hfree E).
Qed.

Lemma wp_write_full path f p Q d :
  files d !! path = Some f -> (forall r d', wrote path f p d r d' -> Q r d') ->
  wp (write_full path p) Q d.
Proof. intros. by eapply wp_write_full_go. Qed.

Lemma wp_os_write_all path f p Q d :
  files d !! path = Some f -> (forall r d', wrote path f p d r d' -> Q r d') ->
  wp (os_write_all path p) Q d.
Proof.
  intros Hp H. unfold os_write_all. wp_steps. eapply wp_os_write; [done|].
  intros r n d1 Hn Hd1 [-> | ->] Hc Hfree; wp_steps.
  - split_if; wp_steps; apply H; (split; [split; [done|]|exists n]).
    + intros E. destruct (Hfree E) as [[= ->] _]. apply Nat.ltb_lt in G. lia.
    + done.
    + intros E. by destruct (Hfree E).
    + apply Nat.ltb_ge in G. repeat split; auto. lia.
  - apply H. split; [|by exists n]. split; [done|]. intros E. by destruct (Hfree E).
Qed.

(** A call that either changes the files to [fs] or fails leaving them alone. *)
Definition changed {A} (fs : gmap string file) (d : disk) (r : result A) (d' : disk) : Prop :=
  steady d r d' /\ files d' = if is_ok r then fs else files d.

Lemma wp_syscall_modify fs g Q d :
  g (files d) = fs ->
  (forall r d', changed fs d r d' -> Q r d') ->
  wp (syscall;; modify (fun d => with_files d (g (files d)))) Q d.
Proof.
  intros Hg H. wp_steps. apply wp_syscall. intros [[]|e] d' Hf Hs; wp_steps; apply H.
  - split; [done|]. cbn. by rewrite Hf.
  - by split.
Qed.

Definition sync_file (f : file) : file := mkFile (data f) (length (data f)).

Lemma alter_lookup_insert (g : file -> file) (path : string) f (fs : gmap string file) :
  fs !! path = Some f -> alter g path fs = <[path := g f]> fs.
Proof.
  intros Hp. apply map_eq. intros k. destruct (decide (k = path)) as [->|Hk].
  - by rewrite lookup_alter_eq, lookup_insert_eq, Hp.
  - by rewrite lookup_alter_ne, lookup_insert_ne.
Qed.

Lemma wp_os_sync path f Q d :
  files d !! path = Some f ->
  (forall r d', changed (<[path := sync_file f]> (files d)) d r d' -> Q r d') ->
  wp (os_sync path) Q d.
Proof. intros Hp. eapply (wp_syscall_modify _ (alter sync_file path)). by apply alter_lookup_insert. Qed.

Lemma wp_os_close path Q d :
  (forall r d', files d' = files d -> steady d r d' -> Q r d') -> wp (os_close path) Q d.
Proof. apply wp_syscall. Qed.

Lemma wp_os_create_trunc path Q d :
  (forall r d', changed (<[path := mkFile [] 0]> (files d)) d r d' -> Q r d') ->
  wp (os_create_trunc path) Q d.
Proof. by apply (wp_syscall_modify _ (insert path (mkFile [] 0))). Qed.

Lemma wp_os_create_excl path Q d :
  files d !! path = None ->
  (forall r d', changed (<[path := mkFile [] 0]> (files d)) d r d' -> Q r d') ->
  wp (os_create_excl path) Q d.
Proof.
  intros Hp H. unfold os_create_excl. wp_steps. rewrite Hp.
  by eapply (wp_syscall_modify _ (insert path (mkFile [] 0))).
Qed.

(** [O_EXCL] refuses an existing file. *)
Lemma os_create_excl_exists path f d :
  files d !! path = Some f -> os_create_excl path d = (Err ErrExist, d).
Proof. intros Hp. unfold os_create_excl, mbind, M_mbind, get. by rewrite Hp. Qed.

Lemma wp_os_truncate path f size Q d :
  files d !! path = Some f ->
  (forall r d', changed (<[path := mkFile (take (Z.to_nat size) (data f))
                             (Nat.min (synced f) (Z.to_nat size))]> (files d)) d r d' -> Q r d') ->
  wp (os_truncate path size) Q d.
Proof.
  intros Hp. eapply (wp_syscall_modify _ (alter (fun f => mkFile (take (Z.to_nat size) (data f))
    (Nat.min (synced f) (Z.to_nat size))) path)). by rewrite (alter_lookup_insert _ _ f).
Qed.

Lemma wp_os_read path f Q d :
  files d !! path = Some f ->
  (forall r d', files d' = files d -> steady d r d' -> (is_ok r = true -> r = Ok (data f)) -> Q r d') ->
  wp (os_read path) Q d.
Proof.
  intros Hp H. unfold os_read. wp_steps. apply wp_syscall. intros [[]|e] d' Hf Hs; wp_steps.
  - rewrite Hf, Hp. wp_steps. apply H; eauto using steady_ok.
  - apply H; eauto using steady_err; done.
Qed.

Lemma wp_os_stat path f Q d :
  files d !! path = Some f ->
  (forall r d', files d' = files d -> steady d r d' -> (is_ok r = true -> r = Ok (zlen (data f))) ->
     Q r d') ->
  wp (os_stat path) Q d.
Proof.
  intros Hp H. unfold os_stat. wp_steps. apply wp_syscall. intros [[]|e] d' Hf Hs; wp_steps.
  - rewrite Hf, Hp. wp_steps. apply H; eauto using steady_ok.
  - apply H; eauto using steady_err; done.
Qed.

Lemma wp_os_remove path f Q d :
  files d !! path = Some f ->
  (forall r d', r = Ok tt \/ r = Err ErrIO -> changed (delete path (files d)) d r d' -> Q r d') ->
  wp (os_remove path) Q d.
Proof.
  intros Hp H. unfold os_remove. wp_steps. apply wp_syscall_err. intros r d' [-> | ->] Hf Hs; wp_steps.
  - rewrite Hf, Hp. wp_steps. apply H; [by left|]. split; [done|]. cbn. by rewrite Hf.
  - apply H; [by right|]. by split.
Qed.

Lemma wp_os_rename old new f Q d :
  files d !! old = Some f ->
  (forall r d', changed (<[new := f]> (delete old (files d))) d r d' -> Q r d') ->
  wp (os_rename old new) Q d.
Proof.
  intros Hp H. unfold os_rename. wp_steps. apply wp_syscall. intros [[]|e] d' Hf Hs; wp_steps.
  - rewrite Hf, Hp. wp_steps. apply H. split; [done|]. cbn. by rewrite Hf.
  - apply H. by split.
Qed.

(** The calls on a disk without scheduled faults. *)
Lemma syscall_free fs c : syscall (mkDisk fs [] c) = (Ok tt, mkDisk fs [] c).
Proof. done. Qed.

Lemma os_read_free p f fs c :
  fs !! p = Some f -> os_read p (mkDisk fs [] c) = (Ok (data f), mkDisk fs [] c).
Proof. intros H. unfold os_read, syscall, mbind, M_mbind. cbn. by rewrite H. Qed.

Lemma os_stat_free p f fs c :
  fs !! p = Some f -> os_stat p (mkDisk fs [] c) = (Ok (zlen (data f)), mkDisk fs [] c).
Proof. intros H. unfold os_stat, syscall, mbind, M_mbind. cbn. by rewrite H. Qed.

Lemma os_truncate_free p f size fs c :
  fs !! p = Some f -> os_truncate p size (mkDisk fs [] c) =
  (Ok tt, mkDisk (<[p := mkFile (take (Z.to_nat size) (data f)) (Nat.min (synced f) (Z.to_nat size))]> fs) [] c).
Proof.
  intros H. unfold os_truncate. rewrite (run_bind _ _ _ _ _ (syscall_free fs c)).
  unfold modify, with_files. cbn [files faults clock]. by rewrite (alter_lookup_insert _ _ f).
Qed.

Lemma run_on_disk {S A} (m : M disk A) (s : S) d r d' :
  m d = (r, d') -> on_disk m (s, d) = (r, (s, d')).
Proof. unfold on_disk. by intros ->. Qed.

(** Lifting to a component's state. *)
Lemma wp_on_disk {S A} (m : M disk A) (Q : result A -> S * disk -> Prop) s d :
  wp m (fun r d' => Q r (s, d')) d -> wp (on_disk m) Q (s, d).
Proof. unfold wp, on_disk. by destruct (m d). Qed.

Lemma wp_on_state {S A} (f : S -> A) (Q : result A -> S * disk -> Prop) s d :
  Q (Ok (f s)) (s, d) -> wp (on_state f) Q (s, d).
Proof. done. Qed.

Lemma wp_set_state {S} (f : S -> S) (Q : result unit -> S * disk -> Prop) s d :
  Q (Ok tt) (f s, d) -> wp (set_state f) Q (s, d).
Proof. done. Qed.

Ltac wp_step ::=
  lazymatch goal with
  | |- wp (mbind _ _) _ _ => apply wp_bind
  | |- wp (mret _) _ _ => apply wp_ret
  | |- wp (raise _) _ _ => apply wp_raise
  | |- wp (lift _) _ _ => apply wp_lift
  | |- wp get _ _ => apply wp_get
  | |- wp (modify _) _ _ => apply wp_modify
  | |- wp (on_error _ _) _ _ => apply wp_on_error
  | |- wp (attempt _) _ _ => apply wp_attempt
  | |- wp (on_disk _) _ _ => apply wp_on_disk
  | |- wp (on_state _) _ _ => apply wp_on_state
  | |- wp (set_state _) _ _ => apply wp_set_state
  | |- wp now _ _ => apply wp_now
  | |- and_then _ _ (Ok _) _ => unfold and_then at 1
  | |- and_then _ _ (Err _) _ => unfold and_then at 1
  | |- and_then _ _ (mret _) _ => unfold and_then at 1, mret at 1, result_mret at 1
  end.

(** ** Listing a directory *)

Lemma elem_of_glob suffix fs name :
  name ∈ glob suffix fs <-> is_Some (fs !! name) /\ has_suffix name suffix = true.
Proof.
  unfold glob, sort_strings. rewrite merge_sort_Permutation, list_elem_of_filter, elem_of_elements,
    elem_of_dom. tauto.
Qed.

Lemma NoDup_glob suffix fs : NoDup (glob suffix fs).
Proof. unfold glob, sort_strings. rewrite merge_sort_Permutation. apply NoDup_filter, NoDup_elements. Qed.

(** A listing is the sorted enumeration of the matching names. *)
Lemma glob_eq suffix fs l :
  StronglySorted String.le l -> NoDup l ->
  (forall name, name ∈ l <-> is_Some (fs !! name) /\ has_suffix name suffix = true) ->
  glob suffix fs = l.
Proof.
  intros Hs Hn Hl. apply (StronglySorted_unique String.le); [|done|].
  - apply Sorted_StronglySorted; [apply _|]. apply Sorted_merge_sort, _.
  - apply NoDup_Permutation; [apply NoDup_glob|done|].
    intros name. by rewrite elem_of_glob, Hl.
Qed.
