(* ===== verification/Wire.v ===== *)
(** * A self-delimiting serializer

    The JSON codecs of the program are parameters of the models.  This file builds
    concrete instances of those parameters, so that theorems stated against a
    codec interface can be evaluated: a serializer whose decoder consumes exactly
    the bytes of one value and returns the rest, for the data types the records
    are made of. *)

From Stdlib Require Import Floats.SpecFloat.
From S2P Require Import Prelude GoStrings Domain.

Class Wire (A : Type) := {
  wput : A -> bytes;
  wget : bytes -> option (A * bytes);
  wget_wput : forall a rest, wget (wput a ++ rest) = Some (a, rest);
}.

Section instances.
Context {A B : Type} {WA : Wire A} {WB : Wire B}.

Program Definition wire_iso (f : B -> A) (g : A -> B) (gf : forall b, g (f b) = b) : Wire B := {|
  wput b := wput (f b);
  wget p := match wget p with Some (a, rest) => Some (g a, rest) | None => None end;
|}.
Next Obligation. intros f g gf b rest. simpl. by rewrite wget_wput, gf. Qed.

#[export] Program Instance wire_prod : Wire (A * B) := {|
  wput '(a, b) := wput a ++ wput b;
  wget p := match wget p with
            | Some (a, p') => match wget p' with
                              | Some (b, rest) => Some ((a, b), rest)
                              | None => None
                              end
            | None => None
            end;
|}.
Next Obligation. intros [a b] rest. simpl. by rewrite <- (assoc_L (++)), !wget_wput. Qed.

Definition sum_get (p : bytes) : option ((A + B) * bytes) :=
  match p with
  | x00 :: p' => match wget p' with Some (a, r) => Some (inl a, r) | None => None end
  | _ :: p' => match wget p' with Some (b, r) => Some (inr b, r) | None => None end
  | [] => None
  end.

Definition sum_put (x : A + B) : bytes :=
  match x with inl a => x00 :: wput a | inr b => x01 :: wput b end.

Lemma sum_get_put x rest : sum_get (sum_put x ++ rest) = Some (x, rest).
Proof. destruct x as [a|b]; simpl; by rewrite wget_wput. Qed.

#[export] Instance wire_sum : Wire (A + B) := {|
  wput := sum_put; wget := sum_get; wget_wput := sum_get_put;
|}.

Fixpoint list_put (l : list A) : bytes :=
  match l with
  | [] => [x00]
  | a :: l' => x01 :: wput a ++ list_put l'
  end.

(** The decoder recurses once per element; every element takes at least one byte. *)
Fixpoint list_get (fuel : nat) (p : bytes) : option (list A * bytes) :=
  match fuel, p with
  | S fuel, x00 :: p' => Some ([], p')
  | S fuel, _ :: p' =>
      match wget p' with
      | Some (a, p'') => match list_get fuel p'' with
                         | Some (l, r) => Some (a :: l, r)
                         | None => None
                         end
      | None => None
      end
  | _, _ => None
  end.

Lemma list_get_put l fuel rest :
  (length (list_put l ++ rest) <= fuel)%nat -> list_get fuel (list_put l ++ rest) = Some (l, rest).
Proof.
  revert fuel. induction l as [|a l IH]; intros [|fuel] Hf; try (simpl in Hf; lia); [done|].
  cbn [list_put app list_get] in *.
  rewrite <- (assoc_L (++)), wget_wput, IH; [done|].
  cbn [length] in Hf. rewrite <- (assoc_L (++)), length_app in Hf. lia.
Qed.

#[export] Program Instance wire_list : Wire (list A) := {|
  wput := list_put;
  wget p := list_get (length p) p;
|}.
Next Obligation. intros l rest. by apply list_get_put. Qed.

End instances.

#[export] Program Instance wire_unit : Wire unit := {|
  wput _ := [];
  wget p := Some (tt, p);
|}.
Next Obligation. by intros [] rest. Qed.

#[export] Program Instance wire_byte : Wire byte := {|
  wput b := [b];
  wget p := match p with b :: r => Some (b, r) | [] => None end;
|}.
Next Obligation. done. Qed.

Fixpoint pos_put (p : positive) : bytes :=
  match p with
  | xH => [x02]
  | xO p => x00 :: pos_put p
  | xI p => x01 :: pos_put p
  end.

Fixpoint pos_get (b : bytes) : option (positive * bytes) :=
  match b with
  | x00 :: b' => match pos_get b' with Some (p, r) => Some (xO p, r) | None => None end
  | x01 :: b' => match pos_get b' with Some (p, r) => Some (xI p, r) | None => None end
  | _ :: b' => Some (xH, b')
  | [] => None
  end.

#[export] Program Instance wire_positive : Wire positive := {| wput := pos_put; wget := pos_get |}.
Next Obligation.
  intros p rest. induction p as [p IH|p IH|]; [..|done]; cbn [pos_put app pos_get]; by rewrite IH.
Qed.

#[export] Instance wire_bool : Wire bool.
Proof.
  refine (wire_iso (A := unit + unit) (fun b : bool => if b then inl tt else inr tt)
            (fun s => match s with inl _ => true | inr _ => false end) _).
  by intros [].
Defined.

#[export] Instance wire_Z : Wire Z.
Proof.
  refine (wire_iso (A := unit + (positive + positive))
            (fun z => match z with Z0 => inl tt | Zpos p => inr (inl p) | Zneg p => inr (inr p) end)
            (fun s => match s with inl _ => Z0 | inr (inl p) => Zpos p | inr (inr p) => Zneg p end) _).
  by intros [].
Defined.

#[export] Instance wire_option {A} `{Wire A} : Wire (option A).
Proof.
  refine (wire_iso (A := unit + A)
            (fun o => match o with None => inl tt | Some a => inr a end)
            (fun s => match s with inl _ => None | inr a => Some a end) _).
  by intros [].
Defined.

#[export] Instance wire_string : Wire string.
Proof.
  refine (wire_iso (A := list byte) to_bytes of_bytes _).
  apply String.string_of_list_byte_of_string.
Defined.

#[export] Instance wire_tags {A} `{Wire A} : Wire (gmap string A).
Proof.
  refine (wire_iso (A := list (string * A)) map_to_list list_to_map _).
  apply list_to_map_to_list.
Defined.

#[export] Instance wire_float : Wire spec_float.
Proof.
  refine (wire_iso (A := bool + (bool + (unit + bool * (positive * Z))))
    (fun f => match f with
              | S754_zero s => inl s
              | S754_infinity s => inr (inl s)
              | S754_nan => inr (inr (inl tt))
              | S754_finite s m e => inr (inr (inr (s, (m, e))))
              end)
    (fun x => match x with
              | inl s => S754_zero s
              | inr (inl s) => S754_infinity s
              | inr (inr (inl _)) => S754_nan
              | inr (inr (inr (s, (m, e)))) => S754_finite s m e
              end) _).
  by intros [].
Defined.

#[export] Instance wire_event : Wire Event.
Proof.
  refine (wire_iso
    (fun e => (ev_ID e, ev_TenantID e, ev_Source e, ev_Type e, ev_Timestamp e, ev_Tags e,
               ev_Payload e, ev_Value e, ev_Unit e, ev_SchemaVersion e, ev_SchemaURL e,
               ev_CorrelationID e))
    (fun '(i, t, s, ty, ts, tags, p, v, u, sv, su, c) =>
       mkEvent i t s ty ts tags p v u sv su c) _).
  by intros [].
Defined.

(** A whole value, with nothing left over. *)
Definition wire_decode {A} `{Wire A} (p : bytes) : option A :=
  match wget p with
  | Some (a, []) => Some a
  | _ => None
  end.

Lemma wire_decode_put {A} `{Wire A} (a : A) : wire_decode (wput a) = Some a.
Proof. unfold wire_decode. by rewrite <- (app_nil_r (wput a)), wget_wput. Qed.

(** A value followed by ignored bytes, as a JSON decoder reads a stream. *)
Definition wire_decode_prefix {A} `{Wire A} (p : bytes) : option A :=
  match wget p with
  | Some (a, _) => Some a
  | None => None
  end.

Lemma wire_decode_prefix_put {A} `{Wire A} (a : A) rest :
  wire_decode_prefix (wput a ++ rest) = Some a.
Proof. unfold wire_decode_prefix. by rewrite wget_wput. Qed.

Lemma wire_law {A} `{Wire A} (a : A) (p rest : bytes) :
  Some (wput a) = Some p -> wire_decode_prefix (p ++ rest) = Some a.
Proof. intros [= <-]. apply wire_decode_prefix_put. Qed.
