(* ===== verification/Lineage.v ===== *)
(** * Cryptographic lineage ([internal/lineage/lineage.go])

    Segment seals: their data, signing, verification, Merkle roots, and the
    atomic seal write.  JSON and Ed25519 are parameters, given by the classes
    [SealCodec] and [Ed25519]; SHA-256, hexadecimal and base64 are computed. *)

From S2P Require Import Prelude GoStrings Hash Domain Disk Wire.

Local Open Scope string_scope.
Local Open Scope Z_scope.
Local Open Scope list_scope.

Definition SealFormat : string := "telemetryforge-lineage-seal".
Definition SealVersion : Z := 1.
Definition Algorithm : string := "Ed25519".
Definition sha256_Size : nat := 32.
Definition PublicKeySize : nat := 32.
Definition SignatureSize : nat := 64.

Record Seal := mkSeal {
  sl_Format : string;
  sl_FormatVersion : Z;
  sl_EdgeID : string;
  sl_Segment : string;
  sl_FirstSequence : Z;
  sl_LastSequence : Z;
  sl_RecordCount : Z;
  sl_FirstRecordHash : string;
  sl_LastRecordHash : string;
  sl_MerkleRoot : string;
  sl_PreviousSegmentRoot : string;
  sl_SealedAt : time;
  sl_Algorithm : string;
  sl_KeyID : string;
  sl_PublicKey : string;
  sl_Signature : string;
}.

#[export] Instance Seal_eq_dec : EqDecision Seal.
Proof. solve_decision. Defined.

(** The signed part of a seal: everything but the signature. *)
Record sealPayload := mkSealPayload {
  sp_Format : string;
  sp_FormatVersion : Z;
  sp_EdgeID : string;
  sp_Segment : string;
  sp_FirstSequence : Z;
  sp_LastSequence : Z;
  sp_RecordCount : Z;
  sp_FirstRecordHash : string;
  sp_LastRecordHash : string;
  sp_MerkleRoot : string;
  sp_PreviousSegmentRoot : string;
  sp_SealedAt : time;
  sp_Algorithm : string;
  sp_KeyID : string;
  sp_PublicKey : string;
}.

(** ** Parameters: [crypto/ed25519] and [encoding/json] *)

Class Ed25519 := {
  private_key : Type;
  public_of : private_key -> bytes;
  ed_sign : private_key -> bytes -> bytes;
  ed_verify : bytes -> bytes -> bytes -> bool;
  ed_verify_sign : forall k m, ed_verify (public_of k) m (ed_sign k m) = true;
  length_public_of : forall k, length (public_of k) = PublicKeySize;
  length_ed_sign : forall k m, length (ed_sign k m) = SignatureSize;
}.

(** The text fields of a seal that JSON must carry unchanged. *)
Definition seal_ascii (s : Seal) : bool :=
  forallb ascii_text
    [sl_Format s; sl_EdgeID s; sl_Segment s; sl_FirstRecordHash s; sl_LastRecordHash s;
     sl_MerkleRoot s; sl_PreviousSegmentRoot s; sl_Algorithm s; sl_KeyID s; sl_PublicKey s;
     sl_Signature s].

Definition newline : byte := byte_of_Z 10.

(** [json.Marshal] of the signed payload, [json.MarshalIndent] of a seal (both can
    fail) and the strict decoder, with the round trip of a written seal file. *)
Class SealCodec := {
  marshal_payload : sealPayload -> option bytes;
  marshal_seal : Seal -> option bytes;
  decode_seal : bytes -> option Seal;
  decode_marshal_seal : forall s p,
    seal_ascii s = true -> marshal_seal s = Some p -> decode_seal (p ++ [newline]) = Some s;
}.

Section lineage.
Context {ED : Ed25519} {SC : SealCodec}.

(** [KeyID]: "ed25519:" and the first eight bytes of the key digest. *)
Definition KeyID (public : bytes) : string :=
  "ed25519:" +:+ hex_encode (take 8 (sha256 public)).

Record Signer := mkSigner {
  sg_private : private_key;
  sg_public : bytes;
  sg_keyID : string;
}.

(** The signer [LoadOrCreateSigner] returns for a parsed private key. *)
Definition signer_of (k : private_key) : Signer :=
  mkSigner k (public_of k) (KeyID (public_of k)).

Definition payload_of (s : Seal) : sealPayload :=
  mkSealPayload (sl_Format s) (sl_FormatVersion s) (sl_EdgeID s) (sl_Segment s)
    (sl_FirstSequence s) (sl_LastSequence s) (sl_RecordCount s) (sl_FirstRecordHash s)
    (sl_LastRecordHash s) (sl_MerkleRoot s) (sl_PreviousSegmentRoot s) (sl_SealedAt s)
    (sl_Algorithm s) (sl_KeyID s) (sl_PublicKey s).

Definition canonicalSealPayload (s : Seal) : result bytes :=
  match marshal_payload (payload_of s) with
  | Some p => Ok p
  | None => Err (ErrMsg "json: unsupported value")
  end.

(** [validHash]: 64 lower-case hexadecimal digits. *)
Definition validHash (value : string) : bool :=
  match hex_decode value with
  | Some decoded => (length decoded =? sha256_Size)%nat && bool_decide (value = to_lower value)
  | None => false
  end.

Definition with_signature (s : Seal) (format algorithm keyID public signature : string)
    (version : Z) : Seal :=
  mkSeal format version (sl_EdgeID s) (sl_Segment s) (sl_FirstSequence s) (sl_LastSequence s)
    (sl_RecordCount s) (sl_FirstRecordHash s) (sl_LastRecordHash s) (sl_MerkleRoot s)
    (sl_PreviousSegmentRoot s) (sl_SealedAt s) algorithm keyID public signature.

(** [Signer.SignSeal]. *)
Definition SignSeal (signer : Signer) (seal : Seal) : result Seal :=
  let sign := with_signature seal SealFormat Algorithm (sg_keyID signer)
                (base64_encode (sg_public signer)) in
  let unsigned := sign "" SealVersion in
  payload ← canonicalSealPayload unsigned;
  Ok (sign (base64_encode (ed_sign (sg_private signer) payload)) SealVersion).

(** The second half of [VerifySeal]: the embedded key, the trust anchor and the
    signature.  [trusted = None] is Go's nil key. *)
Definition verifySealKey (seal : Seal) (trusted : option bytes) : result unit :=
  match base64_decode (sl_PublicKey seal) with
  | None => Err (ErrMsg "invalid embedded Ed25519 public key")
  | Some public =>
      if negb (length public =? PublicKeySize)%nat
      then Err (ErrMsg "invalid embedded Ed25519 public key")
      else if negb (bool_decide (KeyID public = sl_KeyID seal))
      then Err (ErrMsg "lineage key ID does not match embedded public key")
      else if match trusted with Some t => negb (bool_decide (public = t)) | None => false end
      then Err (ErrMsg "lineage seal signer does not match trusted public key")
      else match base64_decode (sl_Signature seal) with
      | None => Err (ErrMsg "invalid Ed25519 signature encoding")
      | Some signature =>
          if negb (length signature =? SignatureSize)%nat
          then Err (ErrMsg "invalid Ed25519 signature encoding")
          else
            payload ← canonicalSealPayload seal;
            if ed_verify public payload signature then Ok tt
            else Err (ErrMsg "lineage seal signature verification failed")
      end
  end.

(** [VerifySeal]: structure first, then key and signature. *)
Definition VerifySeal (seal : Seal) (trusted : option bytes) : result unit :=
  if negb (bool_decide (sl_Format seal = SealFormat)) || negb (sl_FormatVersion seal =? SealVersion)
  then Err (ErrMsg "unsupported lineage seal format/version")
  else if negb (bool_decide (sl_Algorithm seal = Algorithm))
  then Err (ErrMsg "unsupported lineage signature algorithm")
  else if blank (sl_EdgeID seal) || blank (sl_Segment seal)
  then Err (ErrMsg "lineage seal edge_id and segment are required")
  else if (sl_FirstSequence seal =? 0) || (sl_LastSequence seal <? sl_FirstSequence seal)
          || (sl_RecordCount seal =? 0)
  then Err (ErrMsg "invalid lineage seal sequence range")
  else if negb (validHash (sl_FirstRecordHash seal) && validHash (sl_LastRecordHash seal)
                && validHash (sl_MerkleRoot seal))
  then Err (ErrMsg "invalid hash")
  else if negb (bool_decide (sl_PreviousSegmentRoot seal = ""))
          && negb (validHash (sl_PreviousSegmentRoot seal))
  then Err (ErrMsg "invalid previous_segment_root")
  else if is_zero (sl_SealedAt seal) then Err (ErrMsg "sealed_at is required")
  else verifySealKey seal trusted.

(** ** Merkle roots *)

(** One level: adjacent pairs are hashed together, an odd leaf with itself. *)
Fixpoint merkle_level (level : list bytes) : list bytes :=
  match level with
  | l :: r :: rest => sha256 (l ++ r) :: merkle_level rest
  | [l] => [sha256 (l ++ l)]
  | [] => []
  end.

(** The loop [for len(level) > 1]; each round at least halves the level. *)
Fixpoint merkle_reduce (fuel : nat) (level : list bytes) : option bytes :=
  match level with
  | [] => None
  | [root] => Some root
  | _ => match fuel with
         | O => None
         | S fuel => merkle_reduce fuel (merkle_level level)
         end
  end.

(** What building the tree hashes, level by level. *)
Fixpoint level_inputs (level : list bytes) : list bytes :=
  match level with
  | l :: r :: rest => (l ++ r) :: level_inputs rest
  | [l] => [l ++ l]
  | [] => []
  end.

Fixpoint tree_inputs (fuel : nat) (level : list bytes) : list bytes :=
  match level, fuel with
  | _ :: _ :: _, S fuel => level_inputs level ++ tree_inputs fuel (merkle_level level)
  | _, _ => []
  end.

Definition decode_leaf (leaf : string) : option bytes :=
  match hex_decode leaf with
  | Some decoded => if (length decoded =? sha256_Size)%nat then Some decoded else None
  | None => None
  end.

Definition MerkleRoot (leaves : list string) : result string :=
  match leaves with
  | [] => Err (ErrMsg "cannot build Merkle root for zero leaves")
  | _ => match mapM decode_leaf leaves with
         | None => Err (ErrMsg "Merkle leaf is not a SHA-256 hash")
         | Some level => match merkle_reduce (length level) level with
                         | Some root => Ok (hex_encode root)
                         | None => Err (ErrMsg "unreachable")
                         end
         end
  end.

Definition merkle_inputs (leaves : list string) : list bytes :=
  match mapM decode_leaf leaves with
  | Some level => tree_inputs (length level) level
  | None => []
  end.

(** ** Seal files *)

Definition os_exists (path : string) : M disk bool :=
  r ← attempt (os_stat path);
  match r with
  | Ok _ => mret true
  | Err e => if errors_is e ErrNotExist then mret false else raise e
  end.

(** [writeAtomic]: write a temporary file, sync it, rename it over the target. *)
Definition writeAtomic (path : string) (payload : bytes) (overwrite : bool) : M disk unit :=
  ex ← (if overwrite then mret false else os_exists path);
  if (ex : bool) then raise (ErrMsg "file already exists") else
  let temporary := path +:+ ".tmp" in
  os_create_trunc temporary;;
  on_error (os_write_all temporary payload) (fun e => attempt (os_remove temporary);; raise e);;
  on_error (os_sync temporary) (fun e => attempt (os_remove temporary);; raise e);;
  on_error (os_close temporary) (fun e => attempt (os_remove temporary);; raise e);;
  (if overwrite then attempt (os_remove path);; mret tt else mret tt);;
  os_rename temporary path.

Definition WriteSeal (path : string) (seal : Seal) : M disk unit :=
  match marshal_seal seal with
  | None => raise (ErrMsg "json: unsupported value")
  | Some payload => writeAtomic path (payload ++ [newline]) false
  end.

Definition ReadSeal (path : string) : M disk Seal :=
  payload ← os_read path;
  match decode_seal payload with
  | Some seal => mret seal
  | None => raise (ErrMsg "json: cannot decode seal")
  end.

(** ** Merkle lemmas *)

Lemma length_merkle_level level : length (merkle_level level) = ((length level + 1) / 2)%nat.
Proof.
  assert (forall n level, (length level <= n)%nat ->
            length (merkle_level level) = ((length level + 1) / 2)%nat) as H.
  { induction n as [|n IH]; intros [|a [|b rest]] Hn; simpl in Hn; try done; try lia.
    cbn [merkle_level length]. rewrite IH by lia.
    replace (S (S (length rest)) + 1)%nat with (length rest + 1 + 1 * 2)%nat by lia.
    rewrite Nat.div_add by lia. lia. }
  by apply (H (length level)).
Qed.

Lemma merkle_level_sized level : Forall (fun b => length b = sha256_Size) (merkle_level level).
Proof.
  assert (forall n level, (length level <= n)%nat ->
            Forall (fun b : bytes => length b = sha256_Size) (merkle_level level)) as H.
  { induction n as [|n IH]; intros [|a [|b rest]] Hn; simpl in Hn; try lia;
      cbn [merkle_level]; repeat constructor; auto using length_sha256.
    apply IH. lia. }
  by apply (H (length level)).
Qed.

(** Enough fuel: the loop ends with one hash. *)
Lemma merkle_reduce_total fuel level :
  level <> [] -> (length level <= S fuel)%nat ->
  Forall (fun b => length b = sha256_Size) level ->
  exists root, merkle_reduce fuel level = Some root /\ length root = sha256_Size.
Proof.
  revert level. induction fuel as [|fuel IH]; intros level Hne Hlen Hsz.
  - destruct level as [|a [|b rest]]; simpl in Hlen; [done| |lia].
    exists a. split; [done|]. by apply Forall_inv in Hsz.
  - destruct level as [|a [|b rest]]; [done| |].
    + exists a. split; [done|]. by apply Forall_inv in Hsz.
    + change (merkle_reduce (S fuel) (a :: b :: rest))
        with (merkle_reduce fuel (merkle_level (a :: b :: rest))).
      apply IH; [done| |apply merkle_level_sized].
      rewrite length_merkle_level. cbn [length] in *.
      apply Nat.lt_succ_r, Nat.Div0.div_lt_upper_bound. lia.
Qed.

Lemma merkle_level_inj l1 l2 :
  length l1 = length l2 ->
  Forall (fun b => length b = sha256_Size) l1 -> Forall (fun b => length b = sha256_Size) l2 ->
  merkle_level l1 = merkle_level l2 -> l1 = l2 \/ collision_in (level_inputs l1) (level_inputs l2).
Proof.
  assert (forall n l1 l2, (length l1 <= n)%nat -> length l1 = length l2 ->
    Forall (fun b : bytes => length b = sha256_Size) l1 ->
    Forall (fun b : bytes => length b = sha256_Size) l2 ->
    merkle_level l1 = merkle_level l2 -> l1 = l2 \/ collision_in (level_inputs l1) (level_inputs l2)) as H.
  { induction n as [|n IH]; intros [|a [|b r1]] [|c [|d r2]] Hn Hlen H1 H2 Heq;
      simpl in Hn, Hlen; try lia; auto; cbn [merkle_level level_inputs] in *;
      repeat match goal with H : Forall _ (_ :: _) |- _ => apply Forall_cons in H as [? H] end.
    - apply cons_eq in Heq as [Heq _]. destruct (decide (a ++ a = c ++ c)) as [E|E].
      + apply app_inj_1 in E as [-> _]; [by left|lia].
      + right. exists (a ++ a), (c ++ c). rewrite !list_elem_of_singleton. done.
    - apply cons_eq in Heq as [Hh Hr].
      destruct (IH r1 r2) as [->|Hc]; try done; try lia.
      + destruct (decide (a ++ b = c ++ d)) as [E|E]; [apply app_inj_1 in E as [-> ->]; [by left|lia]|].
        right. exists (a ++ b), (c ++ d). split; [by left|]. split; [by left|done].
      + right. eapply collision_in_weaken; [done|..]; intros x Hx; by right. }
  intros. by apply (H (length l1)).
Qed.

Lemma merkle_reduce_inj fuel l1 l2 root :
  length l1 = length l2 ->
  Forall (fun b => length b = sha256_Size) l1 -> Forall (fun b => length b = sha256_Size) l2 ->
  merkle_reduce fuel l1 = Some root -> merkle_reduce fuel l2 = Some root ->
  l1 = l2 \/ collision_in (tree_inputs fuel l1) (tree_inputs fuel l2).
Proof.
  revert l1 l2. induction fuel as [|fuel IH]; intros l1 l2 Hlen H1 H2 Hr1 Hr2;
    destruct l1 as [|a [|b r1]], l2 as [|c [|d r2]]; simpl in Hlen; try done; try lia.
  - simpl in *. left. congruence.
  - simpl in *. left. congruence.
  - change (merkle_reduce fuel (merkle_level (a :: b :: r1)) = Some root) in Hr1.
    change (merkle_reduce fuel (merkle_level (c :: d :: r2)) = Some root) in Hr2.
    change (tree_inputs (S fuel) (a :: b :: r1))
      with (level_inputs (a :: b :: r1) ++ tree_inputs fuel (merkle_level (a :: b :: r1))).
    change (tree_inputs (S fuel) (c :: d :: r2))
      with (level_inputs (c :: d :: r2) ++ tree_inputs fuel (merkle_level (c :: d :: r2))).
    apply (IH (merkle_level (a :: b :: r1)) (merkle_level (c :: d :: r2))) in Hr2
      as [E|Hc]; auto using merkle_level_sized.
    + apply merkle_level_inj in E as [E|Hc]; [by left| |done..]. right.
      eapply collision_in_weaken; [done|..]; intros x Hx; apply elem_of_app; by left.
    + right. eapply collision_in_weaken; [done|..]; intros x Hx; apply elem_of_app; by right.
    + rewrite !length_merkle_level. cbn [length]. by rewrite Hlen.
Qed.

Lemma decode_leaves_sized leaves level :
  mapM decode_leaf leaves = Some level -> Forall (fun b => length b = sha256_Size) level.
Proof.
  intros H. apply mapM_Some in H. induction H as [|leaf b leaves level Hb _ IH]; constructor; auto.
  unfold decode_leaf in Hb. repeat case_match; simplify_eq. by apply Nat.eqb_eq.
Qed.

(** ** Hash texts *)

Lemma hex_value_char c x :
  hex_value c = Some x -> hex_char x = lower_ascii c /\ 0 <= x < 16.
Proof. destruct c as [[] [] [] [] [] [] [] []]; vm_compute; intros; simplify_eq; done. Qed.

Lemma hex_encode_decode v b : hex_decode v = Some b -> hex_encode b = to_lower v.
Proof.
  assert (forall n v b, (String.length v <= n)%nat ->
            hex_decode v = Some b -> hex_encode b = to_lower v) as H.
  { induction n as [|n IH]; intros [|a [|c w]] b' Hn Hd; simpl in Hn; try lia;
      cbn [hex_decode] in Hd; simplify_eq; try done.
    destruct (hex_value a) as [x|] eqn:Ea; [|done].
    destruct (hex_value c) as [y|] eqn:Ec; [|done].
    destruct (hex_decode w) as [r|] eqn:Ew; simplify_eq.
    apply hex_value_char in Ea as [Ea Hx], Ec as [Ec Hy].
    cbn [hex_encode to_lower]. rewrite Z_of_byte_of_Z, (Z.mod_small (16 * x + y)) by lia.
    replace ((16 * x + y) / 16) with x by (Z.div_mod_to_equations; lia).
    replace ((16 * x + y) mod 16) with y by (Z.div_mod_to_equations; lia).
    rewrite Ea, Ec, (IH w r) by (done || lia). done. }
  by apply (H (String.length v)).
Qed.

Lemma validHash_decode v :
  validHash v = true -> exists b, decode_leaf v = Some b /\ v = hex_encode b.
Proof.
  unfold validHash, decode_leaf. destruct (hex_decode v) as [b|] eqn:E; [|done].
  intros [Hl Hv%bool_decide_eq_true]%andb_prop. rewrite Hl. exists b. split; [done|].
  by rewrite Hv, (hex_encode_decode v b).
Qed.

Lemma validHash_ascii v : validHash v = true -> ascii_text v = true.
Proof. intros (b & _ & ->)%validHash_decode. apply ascii_hex_encode. Qed.

Lemma validHash_sha256_hex p : validHash (sha256_hex p) = true.
Proof.
  unfold validHash, sha256_hex. rewrite hex_decode_encode, length_sha256, to_lower_hex_encode.
  by rewrite bool_decide_eq_true_2.
Qed.

Lemma decode_leaves_inj leaves1 leaves2 :
  Forall (fun v => validHash v = true) leaves1 -> Forall (fun v => validHash v = true) leaves2 ->
  mapM decode_leaf leaves1 = mapM decode_leaf leaves2 -> leaves1 = leaves2.
Proof.
  intros H1 H2 Heq.
  assert (forall ls, Forall (fun v => validHash v = true) ls ->
            exists bs, mapM decode_leaf ls = Some bs /\ ls = hex_encode <$> bs) as Hex.
  { induction 1 as [|v ls Hv _ (bs & Hbs & ->)]; [by exists []|].
    destruct (validHash_decode v Hv) as (b & Hb & ->). exists (b :: bs).
    split; [|done]. simpl. by rewrite Hb, Hbs. }
  destruct (Hex _ H1) as (b1 & E1 & ->), (Hex _ H2) as (b2 & E2 & ->).
  rewrite E1, E2 in Heq. by simplify_eq.
Qed.

Lemma MerkleRoot_ok leaves :
  leaves <> [] -> Forall (fun v => validHash v = true) leaves ->
  exists root, MerkleRoot leaves = Ok root /\ validHash root = true.
Proof.
  intros Hne Hv. destruct leaves as [|v leaves]; [done|]. unfold MerkleRoot.
  assert (exists level, mapM decode_leaf (v :: leaves) = Some level) as [level Hlevel].
  { clear Hne. induction Hv as [|w ws Hw _ [bs Hbs]]; [by exists []|].
    destruct (validHash_decode w Hw) as (b & Hb & _). exists (b :: bs).
    simpl. by rewrite Hb, Hbs. }
  rewrite Hlevel. pose proof (decode_leaves_sized _ _ Hlevel) as Hsz.
  destruct (merkle_reduce_total (length level) level) as (root & -> & Hroot); [|lia|done|].
  { intros ->. apply length_mapM in Hlevel. done. }
  exists (hex_encode root). split; [done|]. unfold validHash.
  by rewrite hex_decode_encode, Hroot, to_lower_hex_encode, bool_decide_eq_true_2.
Qed.

(** ** What a verified seal says *)

(** The structural conditions [VerifySeal] checks before the signature. *)
Definition seal_wf (s : Seal) : bool :=
  negb (blank (sl_EdgeID s)) && negb (blank (sl_Segment s)) &&
  negb (sl_FirstSequence s =? 0) && (sl_FirstSequence s <=? sl_LastSequence s) &&
  negb (sl_RecordCount s =? 0) && validHash (sl_FirstRecordHash s) &&
  validHash (sl_LastRecordHash s) && validHash (sl_MerkleRoot s) &&
  (bool_decide (sl_PreviousSegmentRoot s = "") || validHash (sl_PreviousSegmentRoot s)) &&
  negb (is_zero (sl_SealedAt s)).

Lemma VerifySeal_structure seal trusted :
  sl_Format seal = SealFormat -> sl_FormatVersion seal = SealVersion ->
  sl_Algorithm seal = Algorithm -> seal_wf seal = true ->
  VerifySeal seal trusted = verifySealKey seal trusted.
Proof.
  intros Hf Hv Ha Hwf. unfold seal_wf in Hwf. bools. unfold VerifySeal.
  rewrite Hf, Hv, Ha, !bool_decide_eq_true_2 by done. cbn [negb orb andb].
  change (SealVersion =? SealVersion) with true. cbn [negb].
  destruct (Z.ltb_spec (sl_LastSequence seal) (sl_FirstSequence seal)); [lia|].
  repeat match goal with H : ?b = false |- context [?b] => rewrite H end.
  repeat match goal with H : validHash _ = true |- _ => rewrite H; clear H end. cbn [negb orb andb].
  destruct (bool_decide _), (validHash _); try done.
Qed.

Lemma VerifySeal_accepts seal trusted :
  VerifySeal seal trusted = Ok tt -> seal_wf seal = true /\ verifySealKey seal trusted = Ok tt.
Proof.
  unfold VerifySeal, seal_wf. intros H.
  repeat match type of H with (if ?b then _ else _) = _ => destruct b eqn:?; [done|] end.
  split; [|done]. bools.
  repeat match goal with H : ?b = true |- context [?b] => rewrite H end.
  repeat match goal with H : ?b = false |- context [?b] => rewrite H end.
  destruct (Z.leb_spec (sl_FirstSequence seal) (sl_LastSequence seal));
    [|rewrite Z.ltb_ge in *; lia].
  destruct (bool_decide (sl_PreviousSegmentRoot seal = "")),
    (validHash (sl_PreviousSegmentRoot seal)); done.
Qed.

Lemma SignSeal_ok signer seal signed :
  SignSeal signer seal = Ok signed ->
  exists payload, canonicalSealPayload signed = Ok payload /\
    signed = with_signature seal SealFormat Algorithm (sg_keyID signer)
               (base64_encode (sg_public signer))
               (base64_encode (ed_sign (sg_private signer) payload)) SealVersion.
Proof.
  unfold SignSeal. destruct (canonicalSealPayload _) as [payload|e] eqn:Hp; intros Hs; [|done].
  injection Hs as <-. by exists payload.
Qed.

Lemma signed_seal_key k seal signed trusted :
  SignSeal (signer_of k) seal = Ok signed -> seal_wf seal = true ->
  trusted = None \/ trusted = Some (public_of k) -> VerifySeal signed trusted = Ok tt.
Proof.
  intros (payload & Hp & ->)%SignSeal_ok Hwf Ht. rewrite VerifySeal_structure by done.
  unfold verifySealKey. cbn [with_signature sl_PublicKey sl_KeyID sl_Signature signer_of sg_keyID
    sg_public sg_private] in *.
  rewrite !base64_round_trip, length_public_of, length_ed_sign, Hp, !bool_decide_eq_true_2 by done.
  cbn. destruct Ht as [-> | ->]; rewrite ?bool_decide_eq_true_2 by done; cbn; by rewrite ed_verify_sign.
Qed.

(** A seal signed by an edge verifies: [VerifySeal] accepts every well-formed
    seal [SignSeal] produced, both without a trust anchor and with the signer's own
    public key as the anchor. *)
Theorem signed_seal_verifies k seal signed :
  SignSeal (signer_of k) seal = Ok signed -> seal_wf seal = true ->
  VerifySeal signed None = Ok tt /\ VerifySeal signed (Some (public_of k)) = Ok tt.
Proof. intros Hs Hwf. split; eapply signed_seal_key; eauto. Qed.

(** C39: With a trust anchor, [VerifySeal] accepts only seals whose embedded key is
    the anchor, whose key identifier is that key's, and whose signature over the
    canonical payload verifies under it; the accepted seal names a non-empty range. *)
Theorem verified_seal_is_signed seal trusted :
  VerifySeal seal (Some trusted) = Ok tt ->
  base64_decode (sl_PublicKey seal) = Some trusted /\ sl_KeyID seal = KeyID trusted /\
  sl_FirstSequence seal <= sl_LastSequence seal /\ sl_RecordCount seal <> 0 /\
  exists payload signature,
    canonicalSealPayload seal = Ok payload /\ base64_decode (sl_Signature seal) = Some signature /\
    ed_verify trusted payload signature = true.
Proof.
  intros [Hwf Hk]%VerifySeal_accepts. unfold seal_wf in Hwf. bools.
  unfold verifySealKey in Hk. destruct (base64_decode (sl_PublicKey seal)) as [public|]; [|done].
  repeat match type of Hk with (if ?b then _ else _) = _ => destruct b eqn:?; [done|] end.
  bools. repeat match goal with H : bool_decide _ = true |- _ => apply bool_decide_eq_true in H end.
  destruct (base64_decode (sl_Signature seal)) as [signature|]; [|done].
  destruct (negb _); [done|].
  destruct (canonicalSealPayload seal) as [payload|]; [|done].
  cbn in Hk. destruct (ed_verify public payload signature) eqn:Hv; [|done]. subst public.
  repeat split; auto; [by apply Z.leb_le|by apply Z.eqb_neq|eauto].
Qed.

(** The Merkle root binds the leaves: two records lists of the same length with
    the same root have the same digests, unless two of the byte strings hashed for
    the two trees are a SHA-256 collision. *)
Theorem merkle_root_binds leaves1 leaves2 root :
  Forall (fun v => validHash v = true) leaves1 -> Forall (fun v => validHash v = true) leaves2 ->
  length leaves1 = length leaves2 ->
  MerkleRoot leaves1 = Ok root -> MerkleRoot leaves2 = Ok root ->
  leaves1 = leaves2 \/ collision_in (merkle_inputs leaves1) (merkle_inputs leaves2).
Proof.
  intros H1 H2 Hlen Hr1 Hr2.
  destruct leaves1 as [|v1 l1], leaves2 as [|v2 l2]; try done. unfold MerkleRoot in *.
  destruct (mapM decode_leaf (v1 :: l1)) as [b1|] eqn:E1; [|done].
  destruct (mapM decode_leaf (v2 :: l2)) as [b2|] eqn:E2; [|done].
  pose proof (length_mapM _ _ _ E1) as L1. pose proof (length_mapM _ _ _ E2) as L2.
  destruct (merkle_reduce (length b1) b1) as [r1|] eqn:R1; [|done].
  destruct (merkle_reduce (length b2) b2) as [r2|] eqn:R2; [|done].
  assert (r1 = r2) as <- by (apply (inj hex_encode); congruence).
  assert (length b1 = length b2) as Hb by congruence. rewrite <- Hb in R2.
  destruct (merkle_reduce_inj _ _ _ _ Hb (decode_leaves_sized _ _ E1)
              (decode_leaves_sized _ _ E2) R1 R2) as [->|?]; [left|right; unfold merkle_inputs; by rewrite E1, E2, <- Hb].
  apply decode_leaves_inj; congruence.
Qed.

(** The root alone does not fix the number of leaves: duplicating an odd last
    leaf keeps the root, so the record count in the signed seal is what separates a
    segment from the same segment with its last record repeated. *)
Lemma merkle_root_duplicate_leaf a b c : MerkleRoot [a; b; c] = MerkleRoot [a; b; c; c].
Proof.
  unfold MerkleRoot, mapM. cbn.
  destruct (decode_leaf a), (decode_leaf b), (decode_leaf c); reflexivity.
Qed.

End lineage.

(** ** Reference instances: a toy signature scheme and the serializer codec *)

Definition toy_sign (m : bytes) : bytes := sha256 m ++ sha256 m.

Program Definition toy_ed25519 : Ed25519 := {|
  private_key := unit;
  public_of _ := repeat x01 PublicKeySize;
  ed_sign _ m := toy_sign m;
  ed_verify pub m sig := bool_decide (sig = toy_sign m);
|}.
Next Obligation. intros. cbn. by rewrite bool_decide_eq_true_2. Qed.
Next Obligation. done. Qed.
Next Obligation. intros. cbn. unfold toy_sign. by rewrite length_app, !length_sha256. Qed.

#[export] Instance wire_payload : Wire sealPayload.
Proof.
  refine (wire_iso
    (fun s => (sp_Format s, sp_FormatVersion s, sp_EdgeID s, sp_Segment s, sp_FirstSequence s,
               sp_LastSequence s, sp_RecordCount s, sp_FirstRecordHash s, sp_LastRecordHash s,
               sp_MerkleRoot s, sp_PreviousSegmentRoot s, sp_SealedAt s, sp_Algorithm s,
               sp_KeyID s, sp_PublicKey s))
    (fun '(f, v, e, g, a, b, c, h1, h2, m, p, t, al, k, pk) =>
       mkSealPayload f v e g a b c h1 h2 m p t al k pk) _).
  by intros [].
Defined.

#[export] Instance wire_seal : Wire Seal.
Proof.
  refine (wire_iso
    (fun s => (payload_of s, sl_Signature s))
    (fun '(p, sig) =>
       mkSeal (sp_Format p) (sp_FormatVersion p) (sp_EdgeID p) (sp_Segment p)
         (sp_FirstSequence p) (sp_LastSequence p) (sp_RecordCount p) (sp_FirstRecordHash p)
         (sp_LastRecordHash p) (sp_MerkleRoot p) (sp_PreviousSegmentRoot p) (sp_SealedAt p)
         (sp_Algorithm p) (sp_KeyID p) (sp_PublicKey p) sig) _).
  by intros [].
Defined.

Lemma wire_seal_law (s : Seal) (p : bytes) :
  seal_ascii s = true -> Some (wput s) = Some p -> wire_decode_prefix (p ++ [newline]) = Some s.
Proof. intros _. apply wire_law. Qed.

Definition wire_seal_codec : SealCodec := {|
  marshal_payload p := Some (wput p);
  marshal_seal s := Some (wput s);
  decode_seal := wire_decode_prefix;
  decode_marshal_seal := wire_seal_law;
|}.

(** ** Witnesses *)

Definition hash_a : string := sha256_hex (to_bytes "a").
Definition hash_b : string := sha256_hex (to_bytes "b").

Definition example_seal : Seal :=
  mkSeal "" 0 "edge-1" "00000000000000000001.tfwal" 1 2 2 hash_a hash_b hash_a "" 7 "" "" "" "".

Lemma signed_seal_verifies_witness :
  match @SignSeal toy_ed25519 wire_seal_codec (@signer_of toy_ed25519 tt) example_seal with
  | Ok signed => @VerifySeal toy_ed25519 wire_seal_codec signed None = Ok tt
  | Err _ => False
  end.
Proof.
  destruct (SignSeal _ _) as [signed|e] eqn:E.
  - apply (@signed_seal_verifies toy_ed25519 wire_seal_codec tt example_seal signed E).
    vm_compute. reflexivity.
  - assert (is_ok (@SignSeal toy_ed25519 wire_seal_codec (@signer_of toy_ed25519 tt) example_seal)
              = true) as H by (vm_compute; reflexivity).
    rewrite E in H. discriminate H.
Defined.

Lemma verified_seal_is_signed_witness :
  match @SignSeal toy_ed25519 wire_seal_codec (@signer_of toy_ed25519 tt) example_seal with
  | Ok signed => sl_KeyID signed = KeyID (@public_of toy_ed25519 tt)
  | Err _ => False
  end.
Proof.
  destruct (SignSeal _ _) as [signed|e] eqn:E.
  - apply (@verified_seal_is_signed toy_ed25519 wire_seal_codec signed (@public_of toy_ed25519 tt)).
    assert (match @SignSeal toy_ed25519 wire_seal_codec (@signer_of toy_ed25519 tt) example_seal with
            | Ok s => bool_decide (@VerifySeal toy_ed25519 wire_seal_codec s
                                     (Some (@public_of toy_ed25519 tt)) = Ok tt)
            | Err _ => false end = true) as H by (vm_compute; reflexivity).
    rewrite E in H. apply bool_decide_eq_true in H. exact H.
  - assert (is_ok (@SignSeal toy_ed25519 wire_seal_codec (@signer_of toy_ed25519 tt) example_seal)
              = true) as H by (vm_compute; reflexivity).
    rewrite E in H. discriminate H.
Defined.

Lemma merkle_root_binds_witness :
  [hash_a; hash_b; hash_a] = [hash_a; hash_b; hash_a] \/
  collision_in (merkle_inputs [hash_a; hash_b; hash_a]) (merkle_inputs [hash_a; hash_b; hash_a]).
Proof.
  destruct (MerkleRoot [hash_a; hash_b; hash_a]) as [root|e] eqn:E.
  - apply (merkle_root_binds [hash_a; hash_b; hash_a] [hash_a; hash_b; hash_a] root).
    + repeat constructor; vm_compute; reflexivity.
    + repeat constructor; vm_compute; reflexivity.
    + reflexivity.
    + exact E.
    + exact E.
  - assert (is_ok (MerkleRoot [hash_a; hash_b; hash_a]) = true) as H by (vm_compute; reflexivity).
    rewrite E in H. discriminate H.
Defined.
