(* ===== verification/WalModel.v ===== *)
(** * WAL records and their hash chain ([internal/wal/model.go])

    The durable envelope, its validation, the record hash over immutable metadata
    and the predecessor's hash, and the verification of a record chain. *)

From S2P Require Import Prelude GoStrings Hash Domain Disk Wire Lineage.

Local Open Scope string_scope.
Local Open Scope Z_scope.
Local Open Scope list_scope.

Definition Format : string := "telemetryforge-edge-wal".
Definition LegacyVersion : Z := 1.
Definition Version : Z := 2.
Definition LineageVersion : Z := 1.

Record WalRecord := mkRecord {
  r_Format : string;
  r_FormatVersion : Z;
  r_EdgeID : string;
  r_Topic : string;
  r_EdgeSequence : Z;
  r_SourceSequence : Z;
  r_AcceptedAt : time;
  r_PayloadSHA256 : string;
  r_LineageVersion : Z;
  r_PreviousRecordHash : string;
  r_RecordHash : string;
  r_Event : Event;
}.

#[export] Instance WalRecord_eq_dec : EqDecision WalRecord.
Proof. solve_decision. Defined.

Record recordHashMaterial := mkMaterial {
  m_Format : string;
  m_FormatVersion : Z;
  m_EdgeID : string;
  m_Topic : string;
  m_EdgeSequence : Z;
  m_SourceSequence : Z;
  m_AcceptedAt : string;
  m_PayloadSHA256 : string;
  m_LineageVersion : Z;
  m_PreviousRecordHash : string;
}.

#[export] Instance material_eq_dec : EqDecision recordHashMaterial.
Proof. solve_decision. Defined.

Definition record_ascii (r : WalRecord) : bool :=
  forallb ascii_text
    [r_Format r; r_EdgeID r; r_Topic r; r_PayloadSHA256 r; r_PreviousRecordHash r; r_RecordHash r].

Definition material_ascii (m : recordHashMaterial) : bool :=
  forallb ascii_text
    [m_Format m; m_EdgeID m; m_Topic m; m_AcceptedAt m; m_PayloadSHA256 m; m_PreviousRecordHash m].

(** ** [encoding/json] and [time.Format] for WAL values

    Encoders can fail (a time outside the years JSON can write, a non-finite
    number); the decoder is the strict one.  An event is stable when decoding its
    encoding gives it back: this is so for events whose payload is compact JSON
    text and whose strings are valid UTF-8.  The laws: a record with ASCII
    metadata and a stable event survives encoding, encodings are not empty, and
    the hash material of ASCII values is encoded injectively. *)
Class WalCodec := {
  marshal_event : Event -> option bytes;
  decode_event : bytes -> option Event;
  marshal_record : WalRecord -> option bytes;
  decode_record : bytes -> option WalRecord;
  marshal_material : recordHashMaterial -> option bytes;
  format_time : time -> string;
  format_time_ascii : forall t, ascii_text (format_time t) = true;
  event_stable (e : Event) : Prop :=
    exists p, marshal_event e = Some p /\ decode_event p = Some e;
  decode_marshal_record : forall r p,
    record_ascii r = true -> event_stable (r_Event r) ->
    marshal_record r = Some p -> decode_record p = Some r;
  marshal_record_nonempty : forall r p, marshal_record r = Some p -> p <> [];
  marshal_material_inj : forall m1 m2 p,
    material_ascii m1 = true -> material_ascii m2 = true ->
    marshal_material m1 = Some p -> marshal_material m2 = Some p -> m1 = m2;
}.

Section records.
Context {WC : WalCodec}.

Definition json_error : error := ErrMsg "json: unsupported value".

Definition validSHA256 (value : string) : bool :=
  match hex_decode value with
  | Some decoded => (length decoded =? sha256_Size)%nat && bool_decide (value = to_lower value)
  | None => false
  end.

Definition EventHash (event : Event) : result string :=
  match marshal_event event with
  | Some payload => Ok (sha256_hex payload)
  | None => Err (ErrWrap "encode event for hash" json_error)
  end.

Definition material_of (r : WalRecord) : recordHashMaterial :=
  mkMaterial (r_Format r) (r_FormatVersion r) (r_EdgeID r) (r_Topic r) (r_EdgeSequence r)
    (r_SourceSequence r) (format_time (r_AcceptedAt r)) (r_PayloadSHA256 r) (r_LineageVersion r)
    (r_PreviousRecordHash r).

Definition ComputeRecordHash (r : WalRecord) : result string :=
  match marshal_material (material_of r) with
  | Some payload => Ok (sha256_hex payload)
  | None => Err json_error
  end.

(** [Record.Validate]. *)
Definition Record_Validate (r : WalRecord) : result unit :=
  if negb (bool_decide (r_Format r = Format))
     || negb (r_FormatVersion r =? LegacyVersion) && negb (r_FormatVersion r =? Version)
  then Err (ErrMsg "unsupported WAL record format/version")
  else if blank (r_EdgeID r) || blank (r_Topic r)
  then Err (ErrMsg "edge_id and topic are required")
  else if (r_EdgeSequence r =? 0) || (r_SourceSequence r =? 0)
  then Err (ErrMsg "edge_sequence and source_sequence must be positive")
  else if is_zero (r_AcceptedAt r) then Err (ErrMsg "accepted_at is required")
  else match Event_Validate (r_Event r) with
  | Err e => Err (ErrWrap "invalid event" e)
  | Ok _ =>
      hash ← EventHash (r_Event r);
      if negb (bool_decide (r_PayloadSHA256 r = hash))
      then Err (ErrMsg "event payload SHA-256 mismatch")
      else if r_FormatVersion r =? LegacyVersion then
        if negb (r_LineageVersion r =? 0) || negb (bool_decide (r_PreviousRecordHash r = ""))
           || negb (bool_decide (r_RecordHash r = ""))
        then Err (ErrMsg "legacy WAL record contains unsupported lineage fields")
        else Ok tt
      else if negb (r_LineageVersion r =? LineageVersion)
      then Err (ErrMsg "unsupported WAL lineage version")
      else if negb (bool_decide (r_PreviousRecordHash r = ""))
              && negb (validSHA256 (r_PreviousRecordHash r))
      then Err (ErrMsg "invalid previous record hash")
      else if negb (validSHA256 (r_RecordHash r)) then Err (ErrMsg "invalid record hash")
      else
        expected ← ComputeRecordHash r;
        if negb (bool_decide (r_RecordHash r = expected))
        then Err (ErrMsg "WAL record lineage hash mismatch")
        else Ok tt
  end.

(** [RecordDigest]: the Merkle leaf of a record. *)
Definition RecordDigest (r : WalRecord) : result string :=
  if r_FormatVersion r =? Version then
    _ ← Record_Validate r; Ok (r_RecordHash r)
  else
    _ ← Record_Validate r;
    match marshal_record r with
    | Some payload => Ok (sha256_hex payload)
    | None => Err json_error
    end.

(** The loop of [VerifyRecordChain]: the current digest and the leaves so far. *)
Fixpoint verify_chain (records : list WalRecord) (current : string) (leaves : list string)
  : result (string * list string) :=
  match records with
  | [] => Ok (current, leaves)
  | r :: records' =>
      _ ← Record_Validate r;
      if (r_FormatVersion r =? Version) && negb (bool_decide (r_PreviousRecordHash r = current))
      then Err (ErrMsg "WAL lineage discontinuity")
      else
        digest ← RecordDigest r;
        verify_chain records' digest (leaves ++ [digest])
  end.

Definition VerifyRecordChain (records : list WalRecord) (previousHash : string)
  : result (string * list string) :=
  if negb (bool_decide (previousHash = "")) && negb (validSHA256 previousHash)
  then Err (ErrMsg "invalid record-chain anchor")
  else verify_chain records previousHash [].

(** ** The record chain as a relation *)

Inductive chain : string -> list WalRecord -> string -> list string -> Prop :=
  | chain_nil h : chain h [] h []
  | chain_cons h r rs d final ds :
      Record_Validate r = Ok tt ->
      (r_FormatVersion r = Version -> r_PreviousRecordHash r = h) ->
      RecordDigest r = Ok d ->
      chain d rs final ds ->
      chain h (r :: rs) final (d :: ds).

Lemma verify_chain_sound rs h ls final leaves :
  verify_chain rs h ls = Ok (final, leaves) -> exists ds, leaves = ls ++ ds /\ chain h rs final ds.
Proof.
  revert h ls. induction rs as [|r rs IH]; intros h ls H; simpl in H.
  { injection H as <- <-. exists []. rewrite app_nil_r. by split; [|constructor]. }
  destruct (Record_Validate r) as [[]|] eqn:Hv; [|done]. cbn in H.
  destruct (_ && _) eqn:Hg; [done|].
  destruct (RecordDigest r) as [d|] eqn:Hd; [|done]. cbn in H.
  apply IH in H as (ds & -> & Hc). exists (d :: ds). split; [by rewrite <- (assoc_L (++))|].
  constructor; try done. intros Hver. rewrite Hver in Hg. cbn in Hg.
  by apply negb_false_iff, bool_decide_eq_true in Hg.
Qed.

Lemma verify_chain_complete rs h ls final ds :
  chain h rs final ds -> verify_chain rs h ls = Ok (final, ls ++ ds).
Proof.
  intros Hc. revert ls. induction Hc as [|h r rs d final ds Hv Hp Hd Hc IH]; intros ls; simpl.
  { by rewrite app_nil_r. }
  rewrite Hv. cbn. destruct ((r_FormatVersion r =? Version) && _) eqn:Hg.
  { apply andb_prop in Hg as [Hver%Z.eqb_eq Hne%negb_true_iff%bool_decide_eq_false].
    by rewrite Hp in Hne. }
  rewrite Hd. cbn. by rewrite IH, <- (assoc_L (++)).
Qed.

Lemma chain_app h rs1 mid ds1 rs2 final ds2 :
  chain h rs1 mid ds1 -> chain mid rs2 final ds2 -> chain h (rs1 ++ rs2) final (ds1 ++ ds2).
Proof. induction 1; intros Hc; [done|]. simpl. econstructor; eauto. Qed.

Lemma chain_app_inv h rs1 rs2 final ds :
  chain h (rs1 ++ rs2) final ds ->
  exists mid ds1 ds2, ds = ds1 ++ ds2 /\ chain h rs1 mid ds1 /\ chain mid rs2 final ds2.
Proof.
  revert h ds. induction rs1 as [|r rs1 IH]; intros h ds Hc; simpl in Hc.
  { exists h, [], ds. repeat split; [constructor|done]. }
  inversion Hc as [|? ? ? d ? ds' Hv Hp Hd Hc']; subst.
  apply IH in Hc' as (mid & ds1 & ds2 & -> & H1 & H2).
  exists mid, (d :: ds1), ds2. repeat split; [|done]. by econstructor.
Qed.

Lemma chain_length h rs final ds : chain h rs final ds -> length ds = length rs.
Proof. induction 1; simpl; congruence. Qed.

Lemma chain_valid h rs final ds : chain h rs final ds -> Forall (fun r => Record_Validate r = Ok tt) rs.
Proof. induction 1; constructor; auto. Qed.

(** ** Validated version-2 records *)

Lemma validSHA256_validHash v : validSHA256 v = validHash v.
Proof. reflexivity. Qed.

Lemma Validate_v2 r :
  Record_Validate r = Ok tt -> r_FormatVersion r = Version ->
  EventHash (r_Event r) = Ok (r_PayloadSHA256 r) /\
  ComputeRecordHash r = Ok (r_RecordHash r) /\ validHash (r_RecordHash r) = true.
Proof.
  unfold Record_Validate. intros H Hv. rewrite Hv in H.
  repeat match type of H with (if ?b then _ else _) = _ => destruct b eqn:?; [done|] end.
  destruct (Event_Validate _); [|done].
  destruct (EventHash (r_Event r)) as [hash|]; [|done]. cbn in H.
  destruct (bool_decide (r_PayloadSHA256 r = hash)) eqn:Hh; cbn in H; [|done].
  apply bool_decide_eq_true in Hh as <-.
  repeat match type of H with (if ?b then _ else _) = _ => destruct b eqn:?; [done|] end.
  destruct (ComputeRecordHash r) as [expected|]; [|done]. cbn in H.
  destruct (bool_decide (r_RecordHash r = expected)) eqn:Hr; cbn in H; [|done].
  apply bool_decide_eq_true in Hr as <-. split; [done|]. split; [done|].
  by apply negb_false_iff.
Qed.

Lemma RecordDigest_v2 r d :
  RecordDigest r = Ok d -> r_FormatVersion r = Version ->
  d = r_RecordHash r /\ Record_Validate r = Ok tt.
Proof.
  unfold RecordDigest. intros H Hv. rewrite Hv in H. cbn in H.
  destruct (Record_Validate r) as [[]|]; [|done]. cbn in H. by injection H as <-.
Qed.

Lemma RecordDigest_valid r d : RecordDigest r = Ok d -> validHash d = true.
Proof.
  intros H. destruct (decide (r_FormatVersion r = Version)) as [Hv|Hv].
  - destruct (RecordDigest_v2 _ _ H Hv) as [-> Hval]. by apply Validate_v2 in Hval as (_ & _ & ?).
  - unfold RecordDigest in H. apply Z.eqb_neq in Hv. rewrite Hv in H.
    destruct (Record_Validate r) as [[]|]; [|done]. cbn in H.
    destruct (marshal_record r); [|done]. injection H as <-. apply validHash_sha256_hex.
Qed.

Lemma chain_leaves_valid h rs final ds :
  chain h rs final ds -> Forall (fun d => validHash d = true) ds.
Proof. induction 1; constructor; eauto using RecordDigest_valid. Qed.

Lemma chain_final h rs final ds : chain h rs final ds -> final = default h (last ds).
Proof.
  induction 1 as [|h r rs d final ds Hv Hp Hd Hc IH]; [done|]. rewrite IH, last_cons. by destruct (last ds).
Qed.

(** What two records with the same digest share. *)
Definition same_history (r1 r2 : WalRecord) : Prop :=
  material_of r1 = material_of r2 /\
  (marshal_event (r_Event r1) = marshal_event (r_Event r2)).

(** The byte strings hashed for a record: its immutable metadata and its event. *)
Definition hash_inputs (r : WalRecord) : list bytes :=
  option_list (marshal_material (material_of r)) ++ option_list (marshal_event (r_Event r)).

Lemma material_ascii_of r : record_ascii r = true -> material_ascii (material_of r) = true.
Proof.
  unfold record_ascii, material_ascii, material_of. cbn [forallb m_Format m_EdgeID m_Topic
    m_AcceptedAt m_PayloadSHA256 m_PreviousRecordHash]. rewrite format_time_ascii.
  intros H. repeat (apply andb_prop in H as [-> H]). done.
Qed.

Lemma same_hash_same_history r1 r2 :
  Record_Validate r1 = Ok tt -> Record_Validate r2 = Ok tt ->
  r_FormatVersion r1 = Version -> r_FormatVersion r2 = Version ->
  record_ascii r1 = true -> record_ascii r2 = true ->
  r_RecordHash r1 = r_RecordHash r2 -> same_history r1 r2 \/ collision_in (hash_inputs r1) (hash_inputs r2).
Proof.
  intros H1 H2 V1 V2 A1 A2 Heq.
  apply Validate_v2 in H1 as (E1 & C1 & _); [|done].
  apply Validate_v2 in H2 as (E2 & C2 & _); [|done].
  unfold ComputeRecordHash in *. unfold EventHash in *.
  destruct (marshal_material (material_of r1)) as [p1|] eqn:M1; [|done].
  destruct (marshal_material (material_of r2)) as [p2|] eqn:M2; [|done].
  destruct (marshal_event (r_Event r1)) as [e1|] eqn:Ev1; [|done].
  destruct (marshal_event (r_Event r2)) as [e2|] eqn:Ev2; [|done].
  injection C1 as C1. injection C2 as C2. injection E1 as E1. injection E2 as E2.
  destruct (sha256_hex_eq p1 p2 ltac:(congruence)) as [->|Hc].
  2:{ right. exists p1, p2. unfold hash_inputs. rewrite M1, M2. split; [by left|]. split; [by left|done]. }
  assert (material_of r1 = material_of r2) as Hm
    by eauto using marshal_material_inj, material_ascii_of.
  assert (r_PayloadSHA256 r1 = r_PayloadSHA256 r2) as Hp by exact (f_equal m_PayloadSHA256 Hm).
  destruct (sha256_hex_eq e1 e2 ltac:(congruence)) as [->|Hc].
  2:{ right. exists e1, e2. unfold hash_inputs. rewrite Ev1, Ev2.
      split; [apply elem_of_app; right; by left|]. split; [apply elem_of_app; right; by left|done]. }
  left. split; congruence.
Qed.

Lemma chain_binds anchor rs1 rs2 final ds1 ds2 :
  chain anchor rs1 final ds1 -> chain anchor rs2 final ds2 -> length rs1 = length rs2 ->
  Forall (fun r => r_FormatVersion r = Version /\ record_ascii r = true) rs1 ->
  Forall (fun r => r_FormatVersion r = Version /\ record_ascii r = true) rs2 ->
  Forall2 same_history rs1 rs2 \/ collision_in (rs1 ≫= hash_inputs) (rs2 ≫= hash_inputs).
Proof.
  revert rs2 final ds1 ds2.
  induction rs1 as [|r1 rs1 IH] using rev_ind; intros rs2 final ds1 ds2 C1 C2 Hlen F1 F2.
  { destruct rs2; [by left|done]. }
  destruct rs2 as [|r2 rs2 _] using rev_ind; rewrite !length_app in Hlen; [simpl in Hlen; lia|].
  apply Forall_app in F1 as [F1 [[V1 A1] _]%Forall_cons], F2 as [F2 [[V2 A2] _]%Forall_cons].
  apply chain_app_inv in C1 as (mid1 & x1 & y1 & _ & C1 & T1).
  apply chain_app_inv in C2 as (mid2 & x2 & y2 & _ & C2 & T2).
  inversion T1 as [|? ? ? d1 ? z1 Hv1 Hp1 Hd1 N1]; subst. inversion N1; subst.
  inversion T2 as [|? ? ? d2 ? z2 Hv2 Hp2 Hd2 N2]; subst. inversion N2; subst.
  apply RecordDigest_v2 in Hd1 as [-> _]; [|done]. apply RecordDigest_v2 in Hd2 as [Hd2 _]; [|done].
  rewrite !bind_app. cbn [mbind list_bind]. rewrite !app_nil_r.
  destruct (same_hash_same_history r1 r2) as [Hs|Hc]; [done..| |].
  2:{ right. eapply collision_in_weaken; [done|..]; intros x Hx; apply elem_of_app; by right. }
  assert (mid1 = mid2) as ->.
  { rewrite <- (Hp1 V1), <- (Hp2 V2). exact (f_equal m_PreviousRecordHash (proj1 Hs)). }
  destruct (IH rs2 mid2 x1 x2) as [Hr|Hc]; auto; simpl in Hlen; [lia| |].
  2:{ right. eapply collision_in_weaken; [done|..]; intros x Hx; apply elem_of_app; by left. }
  left. apply Forall2_app; [done|]. constructor; [done|constructor].
Qed.


End records.

(** ** Reference codec *)

#[export] Instance wire_record : Wire WalRecord.
Proof.
  refine (wire_iso
    (fun r => (r_Format r, r_FormatVersion r, r_EdgeID r, r_Topic r, r_EdgeSequence r,
               r_SourceSequence r, r_AcceptedAt r, r_PayloadSHA256 r, r_LineageVersion r,
               r_PreviousRecordHash r, r_RecordHash r, r_Event r))
    (fun '(f, v, e, t, s, ss, a, p, l, pr, h, ev) => mkRecord f v e t s ss a p l pr h ev) _).
  by intros [].
Defined.

#[export] Instance wire_material : Wire recordHashMaterial.
Proof.
  refine (wire_iso
    (fun m => (m_Format m, m_FormatVersion m, m_EdgeID m, m_Topic m, m_EdgeSequence m,
               m_SourceSequence m, m_AcceptedAt m, m_PayloadSHA256 m, m_LineageVersion m,
               m_PreviousRecordHash m))
    (fun '(f, v, e, t, s, ss, a, p, l, pr) => mkMaterial f v e t s ss a p l pr) _).
  by intros [].
Defined.

(** A frame mark keeps encodings non-empty. *)
Definition mark_put {A} `{Wire A} (a : A) : option bytes := Some (x7b :: wput a).
Definition mark_get {A} `{Wire A} (p : bytes) : option A :=
  match p with _ :: p' => wire_decode p' | [] => None end.

Lemma mark_law {A} `{Wire A} (a : A) p : mark_put a = Some p -> mark_get p = Some a.
Proof. intros [= <-]. apply wire_decode_put. Qed.

Lemma mark_nonempty {A} `{Wire A} (a : A) p : mark_put a = Some p -> p <> [].
Proof. by intros [= <-]. Qed.

Lemma mark_inj {A} `{Wire A} (a b : A) p : mark_put a = Some p -> mark_put b = Some p -> a = b.
Proof. intros Ha%mark_law Hb%mark_law. congruence. Qed.

Definition wire_wal_codec : WalCodec := {|
  marshal_event := mark_put;
  decode_event := mark_get;
  marshal_record := mark_put;
  decode_record := mark_get;
  marshal_material := mark_put;
  format_time := format020;
  format_time_ascii := format020_ascii;
  decode_marshal_record r p _ _ := mark_law r p;
  marshal_record_nonempty := mark_nonempty;
  marshal_material_inj m1 m2 p _ _ := mark_inj m1 m2 p;
|}.

Definition example_event (src : string) : Event :=
  mkEvent "id-1" "tenant" src "log" 5 {["k" := "v"]} (to_bytes "{}") None "" "v1" "" "".

(** The record [Append] builds from an event and a predecessor hash. *)
Definition example_record (seq : Z) (prev : string) : WalRecord :=
  let event := example_event "svc" in
  let hash := sha256_hex (default [] (@marshal_event wire_wal_codec event)) in
  let draft := mkRecord Format Version "edge-1" "telemetry" seq seq 9 hash LineageVersion prev "" event in
  mkRecord Format Version "edge-1" "telemetry" seq seq 9 hash LineageVersion prev
    (match @ComputeRecordHash wire_wal_codec draft with Ok h => h | Err _ => "" end) event.

Definition example_chain : list WalRecord :=
  let r1 := example_record 1 "" in [r1; example_record 2 (r_RecordHash r1)].

