(* ===== verification/WalFrame.v ===== *)
(** * Segment files: frames and the segment scanner ([internal/wal/store.go])

    A segment is an eight-byte header followed by frames; a frame is the payload
    length and the CRC-32 of the payload, both big-endian, and the JSON payload.
    [scanSegment] reads a segment back, optionally repairing a torn final frame. *)

From S2P Require Import Prelude GoStrings Hash Domain Disk Wire Lineage WalModel.

Local Open Scope string_scope.
Local Open Scope Z_scope.
Local Open Scope list_scope.

Definition segmentHeader : bytes := to_bytes "TFWAL001".
Definition segmentHeaderBytes : Z := 8.
Definition frameHeaderBytes : Z := 8.
Definition maxFrameLength : Z := 2 ^ 30.

(** The bytes [Append] writes for one payload. *)
Definition frame_header (payload : bytes) : bytes :=
  be32 (zlen payload) ++ be32 (crc32 payload).
Definition frame (payload : bytes) : bytes := frame_header payload ++ payload.

Section frames.
Context {WC : WalCodec}.

(** The frame loop of [scanSegment]: [rest] is the unread part of the file and
    [offset] the end of the last good frame.  Every round consumes at least nine
    bytes, so the length of the file is enough fuel. *)
Fixpoint scan_frames (fuel : nat) (recoverTail : bool) (rest : bytes) (offset : Z)
    (records : list WalRecord) : result (list WalRecord * Z * bool) :=
  match fuel with
  | O => Ok (records, offset, false)
  | S fuel =>
      if (length rest =? 0)%nat then Ok (records, offset, false)
      else if (length rest <? 8)%nat then
        if recoverTail then Ok (records, offset, true)
        else Err (ErrMsg "truncated WAL frame header")
      else
        let len := be32_decode (take 4 rest) in
        let expectedCRC := be32_decode (take 4 (drop 4 rest)) in
        let body := drop 8 rest in
        if (len =? 0) || (maxFrameLength <? len) then Err (ErrMsg "invalid WAL frame length")
        else if zlen body <? len then
          if recoverTail then Ok (records, offset, true)
          else Err (if (length body =? 0)%nat then ErrEOF else ErrUnexpectedEOF)
        else
          let payload := take (Z.to_nat len) body in
          if negb (crc32 payload =? expectedCRC) then Err (ErrMsg "WAL frame CRC mismatch")
          else match decode_record payload with
          | None => Err (ErrMsg "json: cannot decode record")
          | Some record =>
              _ ← Record_Validate record;
              scan_frames fuel recoverTail (drop (Z.to_nat len) body)
                (offset + frameHeaderBytes + len) (records ++ [record])
          end
  end.

Definition scan_data (recoverTail : bool) (d : bytes) : result (list WalRecord * Z * bool) :=
  if (length d <? 8)%nat
  then Err (if (length d =? 0)%nat then ErrEOF else ErrUnexpectedEOF)
  else if negb (bool_decide (take 8 d = segmentHeader))
  then Err (ErrMsg "invalid WAL segment header")
  else scan_frames (length d) recoverTail (drop 8 d) segmentHeaderBytes [].

(** [scanSegment]: the records, the size of the file and whether it was cut. *)
Definition scanSegment (path : string) (recoverTail : bool) : M disk (list WalRecord * Z * bool) :=
  d ← os_read path;
  '(records, lastGood, truncated) ← lift (scan_data recoverTail d);
  (if (truncated : bool) then os_truncate path lastGood;; os_sync path else mret tt);;
  size ← os_stat path;
  mret (records, size, truncated).

(** ** Lemmas *)

(** A record and the payload that stands for it in a frame. *)
Definition encodes (r : WalRecord) (p : bytes) : Prop :=
  marshal_record r = Some p /\ decode_record p = Some r /\ Record_Validate r = Ok tt /\
  0 < zlen p <= maxFrameLength.

(** The frame bytes of a list of records. *)
Definition image (rs : list WalRecord) (b : bytes) : Prop :=
  exists ps, Forall2 encodes rs ps /\ b = concat (frame <$> ps).

Lemma length_frame p : length (frame p) = (8 + length p)%nat.
Proof. unfold frame, frame_header. rewrite !length_app, !length_be32. lia. Qed.

Lemma zlen_frame p : zlen (frame p) = frameHeaderBytes + zlen p.
Proof. unfold zlen, frameHeaderBytes. rewrite length_frame. lia. Qed.

Lemma frame_parts p tail :
  take 4 (frame p ++ tail) = be32 (zlen p) /\
  take 4 (drop 4 (frame p ++ tail)) = be32 (crc32 p) /\
  drop 8 (frame p ++ tail) = p ++ tail.
Proof. repeat split. Qed.

Lemma be32_zlen (p : bytes) : zlen p <= maxFrameLength -> be32_decode (be32 (zlen p)) = zlen p.
Proof. unfold maxFrameLength. intros. apply be32_decode_be32. unfold zlen in *. lia. Qed.

(** One complete frame is consumed. *)
Lemma scan_frame fuel rt r p tail off acc :
  encodes r p ->
  scan_frames (S fuel) rt (frame p ++ tail) off acc =
  scan_frames fuel rt tail (off + zlen (frame p)) (acc ++ [r]).
Proof.
  intros (_ & Hd & Hv & Hlen). cbn [scan_frames].
  destruct (frame_parts p tail) as (-> & -> & ->).
  rewrite length_app, length_frame, be32_zlen, be32_decode_be32 by (apply crc32_range || lia).
  destruct (Nat.eqb_spec (8 + length p + length tail) 0); [lia|].
  destruct (Nat.ltb_spec (8 + length p + length tail) 8); [lia|].
  destruct (Z.eqb_spec (zlen p) 0); [lia|]. destruct (Z.ltb_spec maxFrameLength (zlen p)); [lia|].
  cbn [orb]. unfold zlen at 1. rewrite length_app.
  destruct (Z.ltb_spec (Z.of_nat (length p + length tail)) (zlen p)); [unfold zlen in *; lia|].
  replace (Z.to_nat (zlen p)) with (length p) by (unfold zlen; lia).
  rewrite take_app_length, drop_app_length, Z.eqb_refl, Hd, Hv, zlen_frame.
  cbn. by rewrite Z.add_assoc.
Qed.

Lemma scan_image fuel rt rs b tail off acc :
  image rs b -> (length (b ++ tail) < fuel)%nat ->
  exists fuel', (length tail < fuel')%nat /\
    scan_frames fuel rt (b ++ tail) off acc = scan_frames fuel' rt tail (off + zlen b) (acc ++ rs).
Proof.
  intros (ps & Henc & ->). revert fuel off acc.
  induction Henc as [|r p rs ps He Hes IH]; intros fuel off acc Hf.
  - exists fuel. split; [done|]. unfold zlen. cbn. by rewrite Z.add_0_r, app_nil_r.
  - destruct fuel as [|fuel]; [lia|]. cbn [fmap list_fmap concat] in *.
    rewrite <- (assoc_L (++)) in *. rewrite (scan_frame fuel rt r p) by done.
    rewrite length_app, length_frame in Hf.
    destruct (IH fuel (off + zlen (frame p)) (acc ++ [r])) as (fuel' & Hf' & ->); [lia|].
    exists fuel'. split; [done|]. f_equal; [|by rewrite <- (assoc_L (++))].
    unfold zlen. rewrite length_app. lia.
Qed.

(** The clean end of a file and a torn final frame. *)
Lemma scan_end fuel rt off acc : scan_frames fuel rt [] off acc = Ok (acc, off, false).
Proof. by destruct fuel. Qed.

Lemma scan_torn fuel (p : bytes) n off acc :
  0 < zlen p <= maxFrameLength -> (0 < n < length (frame p))%nat -> (n < fuel)%nat ->
  scan_frames fuel true (take n (frame p)) off acc = Ok (acc, off, true).
Proof.
  intros Hp Hn Hf. destruct fuel as [|fuel]; [lia|]. cbn [scan_frames].
  rewrite length_take_le by lia.
  destruct (Nat.eqb_spec n 0); [lia|]. destruct (Nat.ltb_spec n 8) as [|Hge]; [done|].
  assert (take n (frame p) = frame_header p ++ take (n - 8) p) as ->.
  { unfold frame. rewrite take_app. f_equal. by rewrite take_ge by (cbn; lia). }
  change (take 4 (frame_header p ++ take (n - 8) p)) with (be32 (zlen p)).
  change (drop 8 (frame_header p ++ take (n - 8) p)) with (take (n - 8) p).
  rewrite be32_zlen by lia. rewrite length_frame in Hn.
  destruct (Z.eqb_spec (zlen p) 0); [lia|]. destruct (Z.ltb_spec maxFrameLength (zlen p)); [lia|].
  cbn [orb]. unfold zlen at 1. rewrite length_take_le by lia.
  destruct (Z.ltb_spec (Z.of_nat (n - 8)) (zlen p)); [done|]. unfold zlen in *. lia.
Qed.

Lemma image_app rs1 b1 rs2 b2 : image rs1 b1 -> image rs2 b2 -> image (rs1 ++ rs2) (b1 ++ b2).
Proof.
  intros (ps1 & H1 & ->) (ps2 & H2 & ->). exists (ps1 ++ ps2).
  split; [by apply Forall2_app|]. by rewrite fmap_app, concat_app.
Qed.

Lemma image_single r p : encodes r p -> image [r] (frame p).
Proof. intros H. exists [p]. split; [constructor; [done|constructor]|]. cbn. by rewrite app_nil_r. Qed.

Lemma image_nil : image [] [].
Proof. by exists []. Qed.

Lemma image_records_valid rs b : image rs b -> Forall (fun r => Record_Validate r = Ok tt) rs.
Proof. intros (ps & H & _). induction H as [|r p rs ps (_ & _ & Hv & _)]; constructor; auto. Qed.

(** Scanning a whole segment, and a segment with a torn final frame. *)
Lemma scan_data_image rt rs b :
  image rs b -> scan_data rt (segmentHeader ++ b) = Ok (rs, segmentHeaderBytes + zlen b, false).
Proof.
  intros Hi. unfold scan_data. rewrite length_app.
  change (length segmentHeader) with 8%nat. destruct (Nat.ltb_spec (8 + length b) 8); [lia|].
  change (take 8 (segmentHeader ++ b)) with segmentHeader.
  change (drop 8 (segmentHeader ++ b)) with b. rewrite bool_decide_eq_true_2 by done. cbn [negb].
  destruct (scan_image (8 + length b) rt rs b [] segmentHeaderBytes [] Hi) as (f & _ & Hs).
  { rewrite app_nil_r. lia. }
  rewrite app_nil_r in Hs. rewrite Hs. apply scan_end.
Qed.

Lemma scan_data_torn rs b r p n :
  image rs b -> encodes r p -> (0 < n < length (frame p))%nat ->
  scan_data true (segmentHeader ++ b ++ take n (frame p)) =
  Ok (rs, segmentHeaderBytes + zlen b, true).
Proof.
  intros Hi (_ & _ & _ & Hp) Hn. unfold scan_data.
  rewrite length_app. change (length segmentHeader) with 8%nat.
  destruct (Nat.ltb_spec (8 + length (b ++ take n (frame p))) 8); [lia|].
  change (take 8 (segmentHeader ++ b ++ take n (frame p))) with segmentHeader.
  change (drop 8 (segmentHeader ++ b ++ take n (frame p))) with (b ++ take n (frame p)).
  rewrite bool_decide_eq_true_2 by done. cbn [negb].
  destruct (scan_image (8 + length (b ++ take n (frame p))) true rs b (take n (frame p))
              segmentHeaderBytes [] Hi) as (f & Hf & ->); [lia|].
  rewrite length_take_le in Hf by lia. by apply scan_torn.
Qed.

End frames.
