(* ===== verification/WalStore.v ===== *)
(** * The write-ahead log store ([internal/wal/store.go])

    [Store] is the mutex-protected state; every exported method is one atomic
    operation of the state-and-disk monad.  Directory names are dropped: paths are
    base names in the store's own directory.  Byte counts are unbounded integers
    (they are sums of in-memory lengths); sequence numbers wrap at 64 bits. *)

From S2P Require Import Prelude GoStrings Hash Domain Disk Wire Lineage WalModel.
From S2P Require Import WalFrame.

Local Open Scope string_scope.
Local Open Scope Z_scope.
Local Open Scope list_scope.

Definition defaultSegmentBytes : Z := 64 * 2 ^ 20.
Definition defaultMaxBytes : Z := 4 * 2 ^ 30.
Definition checkpointFile : string := "checkpoint.json".
Definition checkpointVersion : Z := 1.

Record Config := mkConfig {
  cf_EdgeID : string;
  cf_SegmentSizeBytes : Z;
  cf_MaxBytes : Z;
}.

Record segmentMeta := mkMeta {
  sm_path : string;
  sm_first : Z;
  sm_last : Z;
  sm_size : Z;
  sm_recordCount : Z;
  sm_startPreviousHash : string;
  sm_sealPath : string;
  sm_sealed : bool;
}.

Record checkpoint := mkCheckpoint {
  cp_Format : string;
  cp_FormatVersion : Z;
  cp_CommittedSequence : Z;
  cp_SourceSequences : gmap string Z;
}.

Definition checkpoint_ascii (cp : checkpoint) : Prop :=
  ascii_text (cp_Format cp) = true /\
  map_Forall (fun k _ => ascii_text k = true) (cp_SourceSequences cp).

(** [json.MarshalIndent] and the strict decoder for checkpoint files. *)
Class CheckpointCodec := {
  marshal_checkpoint : checkpoint -> option bytes;
  decode_checkpoint : bytes -> option checkpoint;
  decode_marshal_checkpoint : forall cp p,
    checkpoint_ascii cp -> marshal_checkpoint cp = Some p ->
    decode_checkpoint (p ++ [newline]) = Some cp;
}.

Section store.
Context {ED : Ed25519} {SC : SealCodec} {WC : WalCodec} {CC : CheckpointCodec}.

Record Store := mkStore {
  edgeID : string;
  segmentBytes : Z;
  maxBytes : Z;
  segments : list segmentMeta;
  current : option string;
  currentSize : Z;
  totalBytes : Z;
  nextSequence : Z;
  sourceSequence : gmap string Z;
  committed : Z;
  failed : option error;
  pressure : bool;
  closed : bool;
  signer : Signer;
  lastLineageHash : string;
  lastSegmentRoot : string;
  sealedSegments : Z;
}.

Abbreviation WAL := (M (Store * disk)).

(** ** Field updates *)

Definition set_segments (v : list segmentMeta) (s : Store) : Store :=
  mkStore (edgeID s) (segmentBytes s) (maxBytes s) v (current s) (currentSize s) (totalBytes
    s) (nextSequence s) (sourceSequence s) (committed s) (failed s) (pressure s) (closed s)
    (signer s) (lastLineageHash s) (lastSegmentRoot s) (sealedSegments s).

Definition set_current (v : option string) (s : Store) : Store :=
  mkStore (edgeID s) (segmentBytes s) (maxBytes s) (segments s) v (currentSize s) (totalBytes
    s) (nextSequence s) (sourceSequence s) (committed s) (failed s) (pressure s) (closed s)
    (signer s) (lastLineageHash s) (lastSegmentRoot s) (sealedSegments s).

Definition set_committed (v : Z) (s : Store) : Store :=
  mkStore (edgeID s) (segmentBytes s) (maxBytes s) (segments s) (current s) (currentSize s)
    (totalBytes s) (nextSequence s) (sourceSequence s) v (failed s) (pressure s) (closed s)
    (signer s) (lastLineageHash s) (lastSegmentRoot s) (sealedSegments s).

Definition set_failed (v : option error) (s : Store) : Store :=
  mkStore (edgeID s) (segmentBytes s) (maxBytes s) (segments s) (current s) (currentSize s)
    (totalBytes s) (nextSequence s) (sourceSequence s) (committed s) v (pressure s) (closed s)
    (signer s) (lastLineageHash s) (lastSegmentRoot s) (sealedSegments s).

Definition set_pressure (v : bool) (s : Store) : Store :=
  mkStore (edgeID s) (segmentBytes s) (maxBytes s) (segments s) (current s) (currentSize s)
    (totalBytes s) (nextSequence s) (sourceSequence s) (committed s) (failed s) v (closed s)
    (signer s) (lastLineageHash s) (lastSegmentRoot s) (sealedSegments s).

Definition set_closed (v : bool) (s : Store) : Store :=
  mkStore (edgeID s) (segmentBytes s) (maxBytes s) (segments s) (current s) (currentSize s)
    (totalBytes s) (nextSequence s) (sourceSequence s) (committed s) (failed s) (pressure s) v
    (signer s) (lastLineageHash s) (lastSegmentRoot s) (sealedSegments s).

Definition set_totalBytes (v : Z) (s : Store) : Store :=
  mkStore (edgeID s) (segmentBytes s) (maxBytes s) (segments s) (current s) (currentSize s) v
    (nextSequence s) (sourceSequence s) (committed s) (failed s) (pressure s) (closed s) (signer
    s) (lastLineageHash s) (lastSegmentRoot s) (sealedSegments s).

Definition set_currentSize (v : Z) (s : Store) : Store :=
  mkStore (edgeID s) (segmentBytes s) (maxBytes s) (segments s) (current s) v (totalBytes s)
    (nextSequence s) (sourceSequence s) (committed s) (failed s) (pressure s) (closed s) (signer
    s) (lastLineageHash s) (lastSegmentRoot s) (sealedSegments s).

Definition set_nextSequence (v : Z) (s : Store) : Store :=
  mkStore (edgeID s) (segmentBytes s) (maxBytes s) (segments s) (current s) (currentSize s)
    (totalBytes s) v (sourceSequence s) (committed s) (failed s) (pressure s) (closed s) (signer
    s) (lastLineageHash s) (lastSegmentRoot s) (sealedSegments s).

Definition set_sourceSequence (v : gmap string Z) (s : Store) : Store :=
  mkStore (edgeID s) (segmentBytes s) (maxBytes s) (segments s) (current s) (currentSize s)
    (totalBytes s) (nextSequence s) v (committed s) (failed s) (pressure s) (closed s) (signer
    s) (lastLineageHash s) (lastSegmentRoot s) (sealedSegments s).

Definition set_lineage (hash root : string) (count : Z) (s : Store) : Store :=
  mkStore (edgeID s) (segmentBytes s) (maxBytes s) (segments s) (current s) (currentSize s)
    (totalBytes s) (nextSequence s) (sourceSequence s) (committed s) (failed s) (pressure s)
    (closed s) (signer s) hash root count.

Definition the_store : WAL Store := on_state id.

(** [store.fail]: only the first error is kept. *)
Definition fail (err : error) (s : Store) : Store :=
  match failed s with
  | None => set_failed (Some err) s
  | Some _ => s
  end.

(** [store.sourceSequence[key]], zero when absent. *)
Definition source_seq (s : Store) (key : string) : Z := default 0 (sourceSequence s !! key).

Fixpoint update_last {A} (f : A -> A) (l : list A) : list A :=
  match l with
  | [] => []
  | [x] => [f x]
  | x :: l' => x :: update_last f l'
  end.

(** ** File names *)

Definition segmentPath (firstSequence : Z) : string := format020 firstSequence +:+ ".tfwal".

Definition sealPathForSegment (path : string) : string :=
  trim_suffix path (filepath_ext path) +:+ ".tfseal".

Definition segmentSequence (path : string) : result Z :=
  match parse_uint64 (trim_suffix path (filepath_ext path)) with
  | Some sequence =>
      if sequence =? 0 then Err (ErrMsg "invalid WAL segment filename") else Ok sequence
  | None => Err (ErrMsg "invalid WAL segment filename")
  end.

(** ** Sealing *)

Definition last_or {A} (x : A) (l : list A) : A := default x (last l).

(** [verifySealAgainstRecords]. *)
Definition verifySealAgainstRecords (seal : Seal) (records : list WalRecord) (leaves : list string)
  : result unit :=
  match records, leaves with
  | r :: _, leaf :: _ =>
      root ← MerkleRoot leaves;
      if negb (sl_FirstSequence seal =? r_EdgeSequence r)
         || negb (sl_LastSequence seal =? r_EdgeSequence (last_or r records))
         || negb (sl_RecordCount seal =? zlen records)
      then Err (ErrMsg "lineage seal sequence/count mismatch")
      else if negb (bool_decide (sl_FirstRecordHash seal = leaf))
              || negb (bool_decide (sl_LastRecordHash seal = last_or leaf leaves))
              || negb (bool_decide (sl_MerkleRoot seal = root))
      then Err (ErrMsg "lineage seal Merkle/hash mismatch")
      else Ok tt
  | _, _ => Err (ErrMsg "sealed WAL segment contains no records")
  end.

Definition mark_sealed (m : segmentMeta) : segmentMeta :=
  mkMeta (sm_path m) (sm_first m) (sm_last m) (sm_size m) (sm_recordCount m)
    (sm_startPreviousHash m) (sm_sealPath m) true.

(** [store.sealSegment]: returns the metadata with its new [sealed] flag. *)
Definition sealSegment (meta : segmentMeta) : WAL segmentMeta :=
  if (sm_recordCount meta =? 0) || sm_sealed meta then mret meta
  else
    '(records, _, _) ← on_disk (scanSegment (sm_path meta) false);
    '(finalHash, leaves) ← lift (VerifyRecordChain records (sm_startPreviousHash meta));
    match records, leaves with
    | r :: _, leaf :: _ =>
        root ← lift (MerkleRoot leaves);
        s ← the_store;
        t ← on_disk now;
        seal ← lift (SignSeal (signer s)
          (mkSeal "" 0 (edgeID s) (sm_path meta) (r_EdgeSequence r)
             (r_EdgeSequence (last_or r records)) (zlen records) leaf finalHash root
             (lastSegmentRoot s) t "" "" "" ""));
        on_error (on_disk (WriteSeal (sm_sealPath meta) seal))
          (fun e => raise (ErrWrap "write lineage seal" e));;
        set_state (fun s => set_lineage (lastLineageHash s) root (sealedSegments s + 1) s);;
        mret (mark_sealed meta)
    | _, _ => mret meta
    end.

(** Seal the last segment in place if it has records and no seal. *)
Definition seal_last : WAL unit :=
  s ← the_store;
  match last (segments s) with
  | None => mret tt
  | Some meta =>
      if negb (sm_recordCount meta =? 0) && negb (sm_sealed meta) then
        meta' ← sealSegment meta;
        set_state (fun s => set_segments (update_last (fun _ => meta') (segments s)) s)
      else mret tt
  end.

(** ** Segment rotation *)

Definition createSegment (firstSequence : Z) : WAL unit :=
  let path := segmentPath firstSequence in
  on_error (on_disk (os_create_excl path)) (fun e => raise (ErrWrap "create WAL segment" e));;
  on_disk (write_full path segmentHeader);;
  on_disk (os_sync path);;
  set_state (fun s =>
    set_segments (segments s ++
        [mkMeta path 0 0 segmentHeaderBytes 0 (lastLineageHash s) (sealPathForSegment path) false])
      (set_totalBytes (totalBytes s + segmentHeaderBytes)
        (set_currentSize segmentHeaderBytes (set_current (Some path) s)))).

Definition rotate (next : Z) : WAL unit :=
  s ← the_store;
  match current s with
  | None => mret tt
  | Some path =>
      on_error (on_disk (os_sync path)) (fun e => raise (ErrWrap "sync WAL before rotation" e));;
      on_error (on_disk (os_close path)) (fun e => raise (ErrWrap "close WAL before rotation" e));;
      set_state (set_current None);;
      seal_last
  end;;
  createSegment next.

(** ** Append *)

(** The record [Append] builds before it is hashed. *)
Definition draft_record (s : Store) (topic : string) (event : Event) (t : time) (hash : string)
  : WalRecord :=
  mkRecord Format Version (edgeID s) topic (nextSequence s)
    (u64_succ (source_seq s (source_key event))) t hash LineageVersion (lastLineageHash s) "" event.

Definition with_record_hash (r : WalRecord) (hash : string) : WalRecord :=
  mkRecord (r_Format r) (r_FormatVersion r) (r_EdgeID r) (r_Topic r) (r_EdgeSequence r)
    (r_SourceSequence r) (r_AcceptedAt r) (r_PayloadSHA256 r) (r_LineageVersion r)
    (r_PreviousRecordHash r) hash (r_Event r).

(** Write the frame to the active segment and sync it. *)
Definition write_frame (path : string) (payload : bytes) : WAL unit :=
  let guard (text : string) (m : M disk unit) : WAL unit :=
    on_error (on_disk m) (fun e => set_state (fail (ErrWrap text e));; raise (ErrWrap text e)) in
  guard "write WAL frame header" (write_full path (frame_header payload));;
  guard "write WAL frame payload" (write_full path payload);;
  guard "sync WAL record" (os_sync path).

(** The bookkeeping after a frame is on disk. *)
Definition note_append (record : WalRecord) (frameBytes : Z) (s : Store) : Store :=
  let size := currentSize s + frameBytes in
  let bump (m : segmentMeta) :=
    mkMeta (sm_path m)
      (if sm_recordCount m =? 0 then r_EdgeSequence record else sm_first m)
      (r_EdgeSequence record) size (u64_succ (sm_recordCount m))
      (sm_startPreviousHash m) (sm_sealPath m) (sm_sealed m) in
  set_lineage (r_RecordHash record) (lastSegmentRoot s) (sealedSegments s)
    (set_sourceSequence
       (<[source_key (r_Event record) := r_SourceSequence record]> (sourceSequence s))
       (set_nextSequence (u64_succ (nextSequence s))
          (set_segments (update_last bump (segments s))
             (set_totalBytes (totalBytes s + frameBytes) (set_currentSize size s))))).

(** The record an event becomes in the current state, with its JSON payload. *)
Definition build_record (s : Store) (topic : string) (event : Event) (t : time)
  : result (WalRecord * bytes) :=
  hash ← EventHash event;
  let draft := draft_record s topic event t hash in
  recordHash ← ComputeRecordHash draft;
  let record := with_record_hash draft recordHash in
  match marshal_record record with
  | None => Err (ErrWrap "encode WAL record" json_error)
  | Some payload => Ok (record, payload)
  end.

Definition Append (topic : string) (event : Event) : WAL WalRecord :=
  s ← the_store;
  if closed s then raise ErrClosed
  else match failed s with
  | Some e => raise e
  | None =>
      if blank topic then raise (ErrMsg "topic is required") else
      _ ← lift (Event_Validate event);
      t ← on_disk now;
      '(record, payload) ← lift (build_record s topic event t);
      let frameBytes := frameHeaderBytes + zlen payload in
      if segmentBytes s <? frameBytes + segmentHeaderBytes
      then raise (ErrMsg "WAL record is larger than configured segment size")
      else if maxBytes s <? totalBytes s + frameBytes
      then set_state (set_pressure true);; raise ErrDiskPressure
      else
        (if (segmentBytes s <? currentSize s + frameBytes) && (segmentHeaderBytes <? currentSize s)
         then
           if maxBytes s <? totalBytes s + segmentHeaderBytes + frameBytes
           then set_state (set_pressure true);; raise ErrDiskPressure
           else on_error (rotate (r_EdgeSequence record))
                  (fun e => set_state (fail e);; raise e)
         else mret tt);;
        s ← the_store;
        match current s with
        | None => set_state (fail (ErrMsg "invalid argument"));; raise (ErrMsg "invalid argument")
        | Some path =>
            write_frame path payload;;
            set_state (note_append record frameBytes);;
            mret record
        end
  end.

(** ** Pending *)

(** The inner loop over one segment's records; [inl] is the early return. *)
Fixpoint pending_records (records : list WalRecord) (committed limit : Z) (acc : list WalRecord)
  : list WalRecord + list WalRecord :=
  match records with
  | [] => inr acc
  | r :: records' =>
      if r_EdgeSequence r <=? committed then pending_records records' committed limit acc
      else
        let acc' := acc ++ [r] in
        if (0 <? limit) && (limit <=? zlen acc') then inl acc'
        else pending_records records' committed limit acc'
  end.

Fixpoint pending_segments (segs : list segmentMeta) (committed limit : Z) (acc : list WalRecord)
  : WAL (list WalRecord) :=
  match segs with
  | [] => mret acc
  | segment :: segs' =>
      '(records, _, _) ← on_disk (scanSegment (sm_path segment) false);
      match pending_records records committed limit acc with
      | inl result => mret result
      | inr acc' => pending_segments segs' committed limit acc'
      end
  end.

Definition Pending (limit : Z) : WAL (list WalRecord) :=
  s ← the_store;
  if closed s then raise ErrClosed
  else match failed s with
  | Some e => raise e
  | None => pending_segments (segments s) (committed s) limit []
  end.

(** ** Checkpoints and compaction *)

Definition writeCheckpoint (sequence : Z) : WAL unit :=
  s ← the_store;
  let cp := mkCheckpoint Format checkpointVersion sequence (sourceSequence s) in
  match marshal_checkpoint cp with
  | None => raise json_error
  | Some payload =>
      let temporary := checkpointFile +:+ ".tmp" in
      on_disk (os_create_trunc temporary);;
      on_disk (write_full temporary (payload ++ [newline]));;
      on_disk (os_sync temporary);;
      on_disk (os_close temporary);;
      on_disk (os_rename temporary checkpointFile)
  end.

Definition loadCheckpoint : WAL unit :=
  r ← attempt (on_disk (os_read checkpointFile));
  match r with
  | Err e => if errors_is e ErrNotExist then mret tt else raise e
  | Ok payload =>
      match decode_checkpoint payload with
      | None => raise (ErrMsg "decode WAL checkpoint")
      | Some cp =>
          if negb (bool_decide (cp_Format cp = Format))
             || negb (cp_FormatVersion cp =? checkpointVersion)
          then raise (ErrMsg "unsupported WAL checkpoint format/version")
          else set_state (fun s =>
                 set_sourceSequence (cp_SourceSequences cp ∪ sourceSequence s)
                   (set_committed (cp_CommittedSequence cp) s))
      end
  end.

(** The loop of [compact]: fully committed segments other than the last path are
    removed; an error leaves [store.segments] as it was. *)
Fixpoint compact_loop (currentPath : string) (segs kept : list segmentMeta)
  : WAL (list segmentMeta) :=
  match segs with
  | [] => mret kept
  | segment :: segs' =>
      s ← the_store;
      if negb (bool_decide (sm_path segment = currentPath)) && (0 <? sm_recordCount segment)
         && (sm_last segment <=? committed s)
      then
        r ← attempt (on_disk (os_remove (sm_path segment)));
        match r with
        | Err e => if errors_is e ErrNotExist
                   then set_state (fun s => set_totalBytes (totalBytes s - sm_size segment) s);;
                        compact_loop currentPath segs' kept
                   else raise e
        | Ok _ => set_state (fun s => set_totalBytes (totalBytes s - sm_size segment) s);;
                  compact_loop currentPath segs' kept
        end
      else compact_loop currentPath segs' (kept ++ [segment])
  end.

Definition compact : WAL unit :=
  s ← the_store;
  match last (segments s) with
  | None => mret tt
  | Some lastSegment =>
      if (length (segments s) <=? 1)%nat then mret tt
      else
        kept ← compact_loop (sm_path lastSegment) (segments s) [];
        set_state (fun s =>
          let s := set_segments kept s in
          if totalBytes s <? maxBytes s then set_pressure false s else s)
  end.

Definition Commit (sequence : Z) : WAL unit :=
  s ← the_store;
  if closed s then raise ErrClosed
  else match failed s with
  | Some e => raise e
  | None =>
      if sequence <=? committed s then mret tt
      else if negb (sequence =? u64_succ (committed s)) then raise (ErrMsg "WAL commit gap")
      else if nextSequence s <=? sequence then raise (ErrMsg "cannot commit unknown WAL sequence")
      else
        on_error (writeCheckpoint sequence) (fun e => set_state (fail e);; raise e);;
        set_state (set_committed sequence);;
        on_error compact (fun e => set_state (fail e);; raise e)
  end.

(** ** Readiness, statistics, shutdown *)

Definition Ready : WAL unit :=
  s ← the_store;
  if closed s then raise ErrClosed
  else match failed s with
  | Some e => raise e
  | None => if pressure s || (maxBytes s <=? totalBytes s) then raise ErrDiskPressure else mret tt
  end.

Record Stats := mkStats {
  st_Segments : Z;
  st_Bytes : Z;
  st_MaxBytes : Z;
  st_PendingRecords : Z;
  st_CommittedSequence : Z;
  st_LastSequence : Z;
  st_LineageKeyID : string;
  st_SealedSegments : Z;
  st_LastRecordHash : string;
  st_LastSegmentRoot : string;
}.

Definition store_stats (s : Store) : Stats :=
  let lastSeq := u64_sub (nextSequence s) 1 in
  let pending := if committed s <? lastSeq then u64_sub lastSeq (committed s) else 0 in
  mkStats (zlen (segments s)) (totalBytes s) (maxBytes s) pending (committed s) lastSeq
    (sg_keyID (signer s)) (sealedSegments s) (lastLineageHash s) (lastSegmentRoot s).

Definition Close : WAL unit :=
  s ← the_store;
  if closed s then mret tt
  else
    set_state (set_closed true);;
    match current s with
    | None => mret tt
    | Some path =>
        on_disk (os_sync path);;
        on_disk (os_close path);;
        set_state (set_current None);;
        seal_last
    end.

(** ** Recovery *)

(** The loop of [loadSealChain]: each seal is read, verified, attributed to this
    edge and signer, and linked to its predecessor. *)
Fixpoint load_seals (paths : list string) (seals : list Seal) : WAL (list Seal) :=
  match paths with
  | [] => mret seals
  | path :: paths' =>
      seal ← on_error (on_disk (ReadSeal path)) (fun e => raise (ErrWrap "read lineage seal" e));
      on_error (lift (VerifySeal seal None)) (fun e => raise (ErrWrap "verify lineage seal" e));;
      s ← the_store;
      if negb (bool_decide (sl_EdgeID seal = edgeID s))
      then raise (ErrMsg "lineage seal belongs to another edge")
      else if negb (bool_decide (sl_KeyID seal = sg_keyID (signer s)))
      then raise (ErrMsg "lineage signer mismatch")
      else match last seals with
      | Some previous =>
          if negb (bool_decide (sl_PreviousSegmentRoot seal = sl_MerkleRoot previous))
          then raise (ErrMsg "lineage seal chain broken")
          else if negb (sl_FirstSequence seal =? u64_succ (sl_LastSequence previous))
          then raise (ErrMsg "lineage seal sequence gap")
          else load_seals paths' (seals ++ [seal])
      | None =>
          if negb (bool_decide (sl_PreviousSegmentRoot seal = ""))
          then raise (ErrMsg "first retained lineage seal unexpectedly references a previous root")
          else load_seals paths' (seals ++ [seal])
      end
  end.

Definition list_dir (suffix : string) : WAL (list string) :=
  fun '(s, d) => (Ok (glob suffix (files d)), (s, d)).

Definition loadSealChain : WAL (list Seal) :=
  paths ← list_dir ".tfseal";
  load_seals paths [].

(** The anchor of recovery: last sequence, record hash and segment root of the
    compacted prefix, with its number of seals. *)
Record anchor := mkAnchor {
  an_sequence : Z;
  an_hash : string;
  an_root : string;
  an_count : Z;
}.

Definition anchor_seal (a : anchor) (seal : Seal) : anchor :=
  mkAnchor (sl_LastSequence seal) (sl_LastRecordHash seal) (sl_MerkleRoot seal) (an_count a + 1).

Definition recovery_anchor (paths : list string) (seals : list Seal) : result anchor :=
  match paths with
  | first :: _ =>
      firstSequence ← segmentSequence first;
      Ok (foldl (fun a seal => if sl_LastSequence seal <? firstSequence then anchor_seal a seal else a)
            (mkAnchor 0 "" "" 0) seals)
  | [] =>
      match last seals with
      | Some latest => Ok (mkAnchor (sl_LastSequence latest) (sl_LastRecordHash latest)
                             (sl_MerkleRoot latest) (zlen seals))
      | None => Ok (mkAnchor 0 "" "" 0)
      end
  end.

(** The record loop of [recover]: contiguity, ownership, and source sequences. *)
Record replay := mkReplay {
  rp_previous : Z;
  rp_first : Z;
  rp_last : Z;
  rp_sources : gmap string Z;
}.

Fixpoint recover_records (edge : string) (records : list WalRecord) (st : replay) : result replay :=
  match records with
  | [] => Ok st
  | r :: records' =>
      if negb (bool_decide (r_EdgeID r = edge)) then Err (ErrMsg "WAL segment belongs to another edge")
      else if negb (rp_previous st =? 0) && negb (r_EdgeSequence r =? u64_succ (rp_previous st))
      then Err (ErrMsg "WAL sequence gap/corruption")
      else
        let key := source_key (r_Event r) in
        recover_records edge records'
          (mkReplay (r_EdgeSequence r)
             (if rp_first st =? 0 then r_EdgeSequence r else rp_first st)
             (r_EdgeSequence r)
             (if default 0 (rp_sources st !! key) <? r_SourceSequence r
              then <[key := r_SourceSequence r]> (rp_sources st) else rp_sources st))
  end.

(** One segment of the recovery loop; returns the new previous sequence. *)
Definition recover_segment (seals : gmap string Seal) (path : string) (isLast : bool) (previous : Z)
  : WAL Z :=
  '(records, size, _) ← on_disk (scanSegment path isLast);
  s ← the_store;
  st ← lift (recover_records (edgeID s) records (mkReplay previous 0 0 (sourceSequence s)));
  set_state (set_sourceSequence (rp_sources st));;
  '(finalHash, leaves) ← on_error (lift (VerifyRecordChain records (lastLineageHash s)))
                           (fun e => raise (ErrWrap "verify WAL lineage" e));
  (match records with
   | [] => mret tt
   | _ => set_state (fun s => set_lineage finalHash (lastSegmentRoot s) (sealedSegments s) s)
   end);;
  s' ← the_store;
  sealed ← match seals !! path with
           | None => mret false
           | Some seal =>
               if negb (bool_decide (sl_KeyID seal = sg_keyID (signer s')))
               then raise (ErrMsg "lineage signer mismatch")
               else if negb (bool_decide (sl_PreviousSegmentRoot seal = lastSegmentRoot s'))
               then raise (ErrMsg "lineage segment-root discontinuity")
               else
                 lift (verifySealAgainstRecords seal records leaves);;
                 set_state (fun s => set_lineage (lastLineageHash s) (sl_MerkleRoot seal)
                                       (sealedSegments s + 1) s);;
                 mret true
           end;
  set_state (fun s' =>
    set_segments (segments s' ++
        [mkMeta path (rp_first st) (rp_last st) size (zlen records) (lastLineageHash s)
           (sealPathForSegment path) sealed])
      (set_totalBytes (totalBytes s' + size) s'));;
  mret (rp_previous st).

Fixpoint recover_segments (seals : gmap string Seal) (paths : list string) (previous : Z) : WAL Z :=
  match paths with
  | [] => mret previous
  | path :: paths' =>
      previous' ← recover_segment seals path (match paths' with [] => true | _ => false end) previous;
      recover_segments seals paths' previous'
  end.

(** Seal every completed predecessor of the last segment. *)
Fixpoint seal_predecessors (segs done : list segmentMeta) : WAL (list segmentMeta) :=
  match segs with
  | [] => mret done
  | [lastSegment] => mret (done ++ [lastSegment])
  | meta :: segs' =>
      meta' ← (if negb (sm_recordCount meta =? 0) && negb (sm_sealed meta)
               then sealSegment meta else mret meta);
      seal_predecessors segs' (done ++ [meta'])
  end.

(** The tail of [recover]: reopen the last segment or start a fresh one. *)
Definition recover_active : WAL unit :=
  s ← the_store;
  segs ← seal_predecessors (segments s) [];
  set_state (set_segments segs);;
  match last segs with
  | None => mret tt
  | Some lastSegment =>
      '(lastRecords, _, _) ← on_disk (scanSegment (sm_path lastSegment) false);
      let legacyLast := existsb (fun r => r_FormatVersion r =? LegacyVersion) lastRecords in
      if sm_sealed lastSegment || legacyLast && negb (sm_recordCount lastSegment =? 0) then
        (if sm_sealed lastSegment then mret tt
         else meta' ← sealSegment lastSegment;
              set_state (fun s => set_segments (update_last (fun _ => meta') (segments s)) s));;
        s ← the_store;
        createSegment (nextSequence s)
      else
        on_error (on_disk syscall) (fun e => raise (ErrWrap "open active WAL segment" e));;
        set_state (fun s => set_currentSize (sm_size lastSegment)
                              (set_current (Some (sm_path lastSegment)) s))
  end.

(** The sequence numbers recovery leaves in the store. *)
Definition recovered_next (s : Store) (previous : Z) : Store :=
  let s := if 0 <? previous then set_nextSequence (u64_succ previous) s else s in
  if nextSequence s <=? committed s then set_nextSequence (u64_succ (committed s)) s else s.

Definition recover : WAL unit :=
  seals ← loadSealChain;
  let sealsBySegment := foldl (fun m seal => <[sl_Segment seal := seal]> m) ∅ seals in
  paths ← list_dir ".tfwal";
  a ← lift (recovery_anchor paths seals);
  set_state (set_lineage (an_hash a) (an_root a) (an_count a));;
  previous ← recover_segments sealsBySegment paths (an_sequence a);
  set_state (fun s => recovered_next s previous);;
  s ← the_store;
  if (previous <? committed s) && negb (previous =? 0) && negb (length paths =? 0)%nat
  then raise (ErrMsg "WAL checkpoint is ahead of recovered sequence")
  else match segments s with
  | [] => createSegment (nextSequence s)
  | _ => recover_active
  end.

(** [Open]: configuration defaults, then checkpoint and recovery.  The signer is
    the one [LoadOrCreateSigner] returned. *)
Definition Open (config : Config) (key : private_key) (d : disk) : result Store * disk :=
  let edge := trim_space (cf_EdgeID config) in
  if bool_decide (edge = "") then (Err (ErrMsg "edge ID is required"), d)
  else
    let segBytes := if cf_SegmentSizeBytes config <=? segmentHeaderBytes + frameHeaderBytes
                    then defaultSegmentBytes else cf_SegmentSizeBytes config in
    let capacity := if cf_MaxBytes config <=? 0 then defaultMaxBytes else cf_MaxBytes config in
    if capacity <? segBytes
    then (Err (ErrMsg "WAL max bytes must be at least one segment"), d)
    else
      let store := mkStore edge segBytes capacity [] None 0 0 1 ∅ 0 None false false
                     (signer_of key) "" "" 0 in
      match (loadCheckpoint;; recover) (store, d) with
      | (Ok _, (s, d')) => (Ok s, d')
      | (Err e, (_, d')) => (Err e, d')
      end.

End store.

Abbreviation WAL := (M (Store * disk)).
