(* ===== verification/WalInv.v ===== *)
(** * The invariant of the write-ahead log

    What an open store and its directory have in common: the segment files hold a
    log of records, numbered without gaps and chained by hash, and the in-memory
    metadata is a function of that log. *)

From S2P Require Import Prelude GoStrings Hash Domain Disk Wire Lineage WalModel.
From S2P Require Import WalFrame WalStore.

Local Open Scope string_scope.
Local Open Scope Z_scope.
Local Open Scope list_scope.

Section inv.
Context {ED : Ed25519} {SC : SealCodec} {WC : WalCodec} {CC : CheckpointCodec}.

Lemma wp_the_store (Q : result Store -> Store * disk -> Prop) s d :
  Q (Ok s) (s, d) -> wp the_store Q (s, d).
Proof. done. Qed.

Ltac wp_steps ::= repeat (first [wp_step | apply wp_the_store]; cbv beta).

(** ** The log a directory holds *)

Fixpoint numbered (n : Z) (rs : list WalRecord) : Prop :=
  match rs with
  | [] => True
  | r :: rs' => r_EdgeSequence r = n /\ numbered (n + 1) rs'
  end.

Definition own (edge : string) (r : WalRecord) : Prop :=
  r_EdgeID r = edge /\ r_FormatVersion r = Version.

Definition final_hash (h : string) (rs : list WalRecord) : string :=
  default h (r_RecordHash <$> last rs).

Definition records_ok (edge : string) (n : Z) (h : string) (rs : list WalRecord) : Prop :=
  numbered n rs /\ Forall (own edge) rs /\ exists leaves, chain h rs (final_hash h rs) leaves.

Definition frame_size (r : WalRecord) : Z :=
  match marshal_record r with Some p => frameHeaderBytes + zlen p | None => 0 end.

Definition seg_size (rs : list WalRecord) : Z := segmentHeaderBytes + sumZ (frame_size <$> rs).

(** A segment file holds exactly these records, all of them synced, and then
    [tail], the beginning of a frame that may not be. *)
Definition holds (fs : gmap string file) (path : string) (rs : list WalRecord) (tail : bytes) : Prop :=
  exists b f, fs !! path = Some f /\ data f = segmentHeader ++ b ++ tail /\ image rs b /\
    (length (segmentHeader ++ b) <= synced f)%nat /\ (synced f <= length (data f))%nat.

(** A log is a list of segments; only the last file may have a tail. *)
Fixpoint log_files (edge : string) (fs : gmap string file) (n : Z) (h : string)
    (log : list (list WalRecord)) (tail : bytes) : Prop :=
  match log with
  | [] => True
  | rs :: log' =>
      holds fs (segmentPath n) rs (match log' with [] => tail | _ => [] end) /\
      records_ok edge n h rs /\
      log_files edge fs (n + zlen rs) (final_hash h rs) log' tail
  end.

(** The metadata the store keeps of a segment. *)
Definition meta_of (n : Z) (h : string) (rs : list WalRecord) (sealed : bool) : segmentMeta :=
  mkMeta (segmentPath n) (if zlen rs =? 0 then 0 else n)
    (if zlen rs =? 0 then 0 else n + zlen rs - 1) (seg_size rs) (zlen rs) h
    (sealPathForSegment (segmentPath n)) sealed.

Fixpoint metas (n : Z) (h : string) (log : list (list WalRecord)) (sealed : bool)
  : list segmentMeta :=
  match log with
  | [] => []
  | rs :: log' =>
      meta_of n h rs (match log' with [] => sealed | _ => true end)
        :: metas (n + zlen rs) (final_hash h rs) log' sealed
  end.

(** The source counters recovery computes from a checkpoint and the records. *)
Definition note_source (m : gmap string Z) (r : WalRecord) : gmap string Z :=
  let key := source_key (r_Event r) in
  if default 0 (m !! key) <? r_SourceSequence r then <[key := r_SourceSequence r]> m else m.

Definition replay_sources (base : gmap string Z) (rs : list WalRecord) : gmap string Z :=
  foldl note_source base rs.

(** The checkpoint a directory holds: committed sequence and source counters. *)
Definition checkpointed (fs : gmap string file) (sequence : Z) (sources : gmap string Z) : Prop :=
  match fs !! checkpointFile with
  | None => sequence = 0 /\ sources = ∅
  | Some f => synced f = length (data f) /\
      decode_checkpoint (data f) = Some (mkCheckpoint Format checkpointVersion sequence sources)
  end.

(** The identity and limits a store is opened with. *)
Record settings (s : Store) : Prop := {
  se_edge : blank (edgeID s) = false;
  se_ascii : ascii_text (edgeID s) = true;
  se_segment : segmentHeaderBytes + frameHeaderBytes < segmentBytes s;
  se_frame : segmentBytes s <= segmentHeaderBytes + frameHeaderBytes + maxFrameLength;
  se_max : segmentBytes s <= maxBytes s;
  se_signer : exists k, signer s = signer_of k;
}.

(** An open, working store over a log of full segments [full] and the active
    segment [act], starting at sequence [n] after hash [h]. *)
Record live (s : Store) (d : disk) (n : Z) (h : string) (full : list (list WalRecord))
    (act : list WalRecord) (base : gmap string Z) : Prop := {
  lv_settings : settings s;
  lv_closed : closed s = false;
  lv_failed : failed s = None;
  lv_full : Forall (fun rs => rs <> []) full;
  lv_files : log_files (edgeID s) (files d) n h (full ++ [act]) [];
  lv_segments : segments s = metas n h (full ++ [act]) false;
  lv_current : current s = Some (segmentPath (n + zlen (concat full)));
  lv_currentSize : currentSize s = seg_size act;
  lv_total : totalBytes s = sumZ (seg_size <$> (full ++ [act]));
  lv_next : nextSequence s = n + zlen (concat (full ++ [act]));
  lv_hash : lastLineageHash s = final_hash h (concat (full ++ [act]));
  lv_first : 0 < n <= committed s + 1;
  lv_committed : committed s < nextSequence s < modulus64;
  lv_anchor : h = "" \/ validHash h = true;
  lv_checkpoint : checkpointed (files d) (committed s) base;
  lv_sources : sourceSequence s = replay_sources base (concat (full ++ [act]));
  lv_counters : map_Forall (fun k c => ascii_text k = true /\ 0 <= c < nextSequence s) (sourceSequence s);
}.

(** ** Lemmas on logs *)

Lemma numbered_app n rs1 rs2 :
  numbered n (rs1 ++ rs2) <-> numbered n rs1 /\ numbered (n + zlen rs1) rs2.
Proof.
  revert n. induction rs1 as [|r rs1 IH]; intros n; cbn [app numbered].
  - rewrite zlen_nil, Z.add_0_r. tauto.
  - rewrite IH, zlen_cons, Z.add_assoc. tauto.
Qed.

Lemma numbered_range n rs r : numbered n rs -> r ∈ rs -> n <= r_EdgeSequence r < n + zlen rs.
Proof.
  revert n. induction rs as [|r' rs IH]; intros n Hn Hr; [by apply not_elem_of_nil in Hr|].
  destruct Hn as [Hr' Hn]. rewrite zlen_cons. pose proof (zlen_nonneg rs).
  apply elem_of_cons in Hr as [->|Hr]; [lia|]. specialize (IH _ Hn Hr). lia.
Qed.

Lemma numbered_last n rs r :
  numbered n (rs ++ [r]) -> r_EdgeSequence r = n + zlen rs.
Proof. by rewrite numbered_app; intros [_ [? _]]. Qed.

Lemma final_hash_app h rs1 rs2 : final_hash h (rs1 ++ rs2) = final_hash (final_hash h rs1) rs2.
Proof. unfold final_hash. rewrite last_app. by destruct (last rs2). Qed.

Lemma final_hash_snoc h rs r : final_hash h (rs ++ [r]) = r_RecordHash r.
Proof. unfold final_hash. by rewrite last_snoc. Qed.

Lemma final_hash_valid h rs final leaves :
  chain h rs final leaves -> Forall (fun r => r_FormatVersion r = Version) rs ->
  final = final_hash h rs /\ (h = "" \/ validHash h = true -> final = "" \/ validHash final = true).
Proof.
  induction 1 as [h|h r rs dg final ds Hv Hp Hd Hc IH]; intros HF; [done|].
  apply Forall_cons in HF as [Hver HF]. apply RecordDigest_v2 in Hd as [-> _]; [|done].
  destruct (IH HF) as [-> Hok]. apply Validate_v2 in Hv as (_ & _ & Hh); [|done].
  split; [|auto]. unfold final_hash. rewrite last_cons. by destruct (last rs).
Qed.

Lemma records_ok_app edge n h rs1 rs2 :
  records_ok edge n h (rs1 ++ rs2) <->
  records_ok edge n h rs1 /\ records_ok edge (n + zlen rs1) (final_hash h rs1) rs2.
Proof.
  unfold records_ok. rewrite numbered_app, Forall_app, final_hash_app. split.
  - intros ([Hn1 Hn2] & [Ho1 Ho2] & leaves & Hc).
    apply chain_app_inv in Hc as (mid & l1 & l2 & _ & H1 & H2).
    assert (mid = final_hash h rs1) as ->.
    { apply (final_hash_valid _ _ _ _ H1). eapply Forall_impl; [exact Ho1|]. by intros ? []. }
    eauto 10.
  - intros ((Hn1 & Ho1 & l1 & H1) & Hn2 & Ho2 & l2 & H2).
    split; [done|]. split; [done|]. exists (l1 ++ l2). by eapply chain_app.
Qed.

Lemma log_files_app edge fs n h log1 log2 tail :
  log2 <> [] ->
  log_files edge fs n h (log1 ++ log2) tail <->
  log_files edge fs n h log1 [] /\
  log_files edge fs (n + zlen (concat log1)) (final_hash h (concat log1)) log2 tail.
Proof.
  intros Hne. revert n h. induction log1 as [|rs log1 IH]; intros n h; cbn [app log_files concat].
  - change (final_hash h []) with h. rewrite zlen_nil, Z.add_0_r. tauto.
  - rewrite IH, zlen_app, final_hash_app, Z.add_assoc.
    destruct log1 as [|x log1]; cbn [app]; [destruct log2; [done|]|]; tauto.
Qed.

Lemma log_files_records edge fs n h log tail :
  log_files edge fs n h log tail -> records_ok edge n h (concat log).
Proof.
  revert n h. induction log as [|rs log IH]; intros n h; cbn [log_files concat].
  - intros _. split; [done|]. split; [constructor|]. exists []. constructor.
  - intros (_ & Hr & Hl). apply records_ok_app. auto.
Qed.

Lemma metas_app n h log1 log2 sealed :
  log2 <> [] ->
  metas n h (log1 ++ log2) sealed =
  metas n h log1 true ++ metas (n + zlen (concat log1)) (final_hash h (concat log1)) log2 sealed.
Proof.
  intros Hne. revert n h. induction log1 as [|rs log1 IH]; intros n h; cbn [app metas concat].
  - by rewrite zlen_nil, Z.add_0_r.
  - rewrite IH, zlen_app, final_hash_app, Z.add_assoc. f_equal. f_equal.
    by destruct log1; [destruct log2|].
Qed.

Lemma image_size rs b : image rs b -> segmentHeaderBytes + zlen b = seg_size rs.
Proof.
  intros (ps & Hps & ->). unfold seg_size. f_equal.
  induction Hps as [|r p rs ps (Hm & _) Hps IH]; [done|].
  cbn [fmap list_fmap concat sumZ foldr]. rewrite zlen_app, zlen_frame, IH.
  unfold frame_size. by rewrite Hm.
Qed.


(** ** Writing a frame *)

Lemma steady_faulty {A} d e d' : steady (A:=A) d (Err e) d' -> faults d <> [].
Proof. intros [_ H] E. by destruct (H E). Qed.

Lemma append_append_data p q f : append_data q (append_data p f) = append_data (p ++ q) f.
Proof. unfold append_data. cbn. by rewrite <- (assoc_L (++)). Qed.

(** A failed frame write leaves a beginning of the frame, unsynced. *)
Definition torn_write (path : string) (f : file) (p : bytes) (d d' : disk) : Prop :=
  clock d' = clock d /\ exists n, (n <= length p)%nat /\
    files d' = <[path := append_data (take n p) f]> (files d).

Lemma wp_write_frame path f p s d Q :
  files d !! path = Some f ->
  (forall d', files d' = <[path := sync_file (append_data (frame p) f)]> (files d) ->
     steady d (Ok tt) d' -> Q (Ok tt) (s, d')) ->
  (forall e d', torn_write path f (frame p) d d' -> faults d <> [] -> Q (Err e) (fail e s, d')) ->
  wp (write_frame path p) Q (s, d).
Proof.
  intros Hf Hok Herr. unfold write_frame. wp_steps. eapply wp_write_full; [done|].
  intros r d1 [S1 (n & Hn & F1 & L1)]. destruct r as [[]|e]; wp_steps.
  2: { apply Herr; [|by eapply steady_faulty]. split; [apply S1|]. exists n.
       rewrite F1. unfold frame. rewrite take_app_le by done. rewrite length_app. split; [lia|done]. }
  specialize (L1 eq_refl) as ->. rewrite take_ge in F1 by done.
  eapply wp_write_full; [by rewrite F1, lookup_insert_eq|].
  intros r d2 [S2 (m & Hm & F2 & L2)]. rewrite F1, insert_insert_eq, append_append_data in F2.
  destruct r as [[]|e]; wp_steps.
  2: { apply Herr; [|intros E; by apply (steady_faulty _ _ _ S2), S1].
       split; [by rewrite (proj1 S2); apply S1|]. exists (length (frame_header p) + m)%nat.
       unfold frame. rewrite length_app, take_app_add. split; [lia|done]. }
  specialize (L2 eq_refl) as ->. rewrite (take_ge p) in F2 by done.
  eapply wp_os_sync; [by rewrite F2, lookup_insert_eq|].
  intros r d3 [S3 F3]. rewrite F2 in F3. destruct r as [[]|e]; wp_steps; cbn [is_ok] in F3.
  - apply Hok; [by rewrite F3, insert_insert_eq|]. eauto using steady_trans.
  - apply Herr; [|intros E; apply (steady_faulty _ _ _ S3), S2, S1, E].
    split; [rewrite (proj1 S3), (proj1 S2); apply S1|]. exists (length (frame p)).
    by rewrite take_ge.
Qed.

(** ** Reading a segment *)

Lemma wp_scanSegment path rt rs Q d :
  holds (files d) path rs [] ->
  (forall d', files d' = files d -> steady d (Ok tt) d' -> Q (Ok (rs, seg_size rs, false)) d') ->
  (forall e d', files d' = files d -> clock d' = clock d -> faults d <> [] -> Q (Err e) d') ->
  wp (scanSegment path rt) Q d.
Proof.
  intros (b & f & Hf & Hd & Hi & _) Hok Herr. rewrite app_nil_r in Hd.
  unfold scanSegment. wp_steps. eapply wp_os_read; [done|]. intros r d1 F1 S1 R1.
  destruct r as [p|e]; wp_steps; [|apply Herr; [done|apply S1|by eapply steady_faulty]].
  injection (R1 eq_refl) as ->. rewrite Hd, (scan_data_image rt rs b) by done. wp_steps.
  eapply wp_os_stat; [by rewrite F1|]. intros r d2 F2 S2 R2. rewrite F1 in F2.
  destruct r as [size|e]; wp_steps.
  - injection (R2 eq_refl) as ->.
    rewrite Hd, zlen_app. change (zlen segmentHeader) with segmentHeaderBytes.
    rewrite (image_size rs b) by done. apply Hok; [done|].
    eapply steady_trans; [exact S1|]. by eapply steady_ok.
  - apply Herr; [done|rewrite (proj1 S2); apply S1|].
    intros E. apply (steady_faulty _ _ _ S2), S1, E.
Qed.

(** ** Sealing a segment *)

(** Two directories that differ at most at the given names. *)
Definition agree_except (names : list string) (fs fs' : gmap string file) : Prop :=
  forall k, k ∉ names -> fs' !! k = fs !! k.

Lemma agree_refl names fs : agree_except names fs fs.
Proof. done. Qed.

Lemma agree_trans names fs1 fs2 fs3 :
  agree_except names fs1 fs2 -> agree_except names fs2 fs3 -> agree_except names fs1 fs3.
Proof. intros H1 H2 k Hk. rewrite H2, H1; done. Qed.

Lemma agree_insert names k f fs : k ∈ names -> agree_except names fs (<[k := f]> fs).
Proof. intros Hk k' Hk'. rewrite lookup_insert_ne; [done|]. by intros ->. Qed.

Lemma agree_delete names k fs : k ∈ names -> agree_except names fs (delete k fs).
Proof. intros Hk k' Hk'. rewrite lookup_delete_ne; [done|]. by intros ->. Qed.

Lemma wp_remove_any path fs Q d :
  agree_except [path] fs (files d) ->
  (forall r d', agree_except [path] fs (files d') -> clock d' = clock d -> Q r d') ->
  wp (os_remove path) Q d.
Proof.
  intros Ha H. unfold os_remove. wp_steps. apply wp_syscall.
  intros [[]|e'] d' Hf Hs; wp_steps; [|apply H; [by rewrite Hf|apply Hs]].
  destruct (files d' !! path) eqn:E; wp_steps; (apply H; [|apply Hs]).
  - cbn. eapply agree_trans; [exact Ha|]. rewrite Hf. apply agree_delete. set_solver.
  - by rewrite Hf.
Qed.

Lemma wp_os_exists path Q d :
  (forall d', files d' = files d -> steady d (Ok tt) d' ->
     Q (Ok (bool_decide (is_Some (files d !! path)))) d') ->
  (forall e d', files d' = files d -> clock d' = clock d -> faults d <> [] -> Q (Err e) d') ->
  wp (os_exists path) Q d.
Proof.
  intros Hok Herr. unfold os_exists, os_stat. wp_steps. apply wp_syscall_err.
  intros r d1 [-> | ->] F1 S1; wp_steps.
  - specialize (Hok d1 F1 S1). rewrite F1. destruct (files d !! path); wp_steps; exact Hok.
  - cbn. apply Herr; [done|apply S1|by eapply steady_faulty].
Qed.

Lemma string_app_ne a c s : a +:+ String c s <> a.
Proof.
  intros H. apply (f_equal String.length) in H.
  assert (forall x y, String.length (x +:+ y) = (String.length x + String.length y)%nat) as Hl.
  { induction x as [|z x IH]; intros y; [done|]. exact (f_equal S (IH y)). }
  rewrite Hl in H. cbn in H. lia.
Qed.

(** [writeAtomic] without overwriting: the file appears whole and synced, or the
    directory changes only at the temporary name. *)
Lemma wp_writeAtomic path p Q d :
  let tmp := path +:+ ".tmp" in
  (forall d', files d !! path = None ->
     files d' = <[path := mkFile p (length p)]> (delete tmp (files d)) -> steady d (Ok tt) d' ->
     Q (Ok tt) d') ->
  (forall e d', agree_except [tmp] (files d) (files d') -> clock d' = clock d ->
     faults d <> [] \/ is_Some (files d !! path) -> Q (Err e) d') ->
  wp (writeAtomic path p false) Q d.
Proof.
  intros tmp Hok Herr. unfold writeAtomic. wp_steps. apply wp_os_exists.
  2: { intros e d' F C N. wp_steps. apply Herr; [by rewrite F|done|by left]. }
  intros d1 F1 S1. wp_steps. case_bool_decide as Hex; wp_steps.
  { apply Herr; [by rewrite F1|apply S1|by right]. }
  apply eq_None_not_Some in Hex. fold tmp.
  assert (tmp ∈ [tmp]) as Ht by set_solver.
  apply wp_os_create_trunc. intros r d2 [S2 F2]. rewrite F1 in F2. destruct r as [[]|e]; wp_steps.
  2: { apply Herr; [by rewrite F2|by rewrite (proj1 S2); apply S1|].
       left. intros E. apply (steady_faulty _ _ _ S2), S1, E. }
  cbn [is_ok] in F2. pose proof (steady_trans _ _ _ _ _ S1 S2) as S12.
  eapply wp_os_write_all; [by rewrite F2, lookup_insert_eq|].
  intros r d3 [S3 (n & Hn & F3 & L3)]. rewrite F2, insert_insert_eq in F3.
  assert (agree_except [tmp] (files d) (files d3)) as A3 by (rewrite F3; by apply agree_insert).
  destruct r as [[]|e]; wp_steps.
  2: { apply (wp_remove_any _ (files d)); [done|]. intros ? d' A' C'. wp_steps.
       apply Herr; [done|by rewrite C', (proj1 S3); apply S12|].
       left. intros E. apply (steady_faulty _ _ _ S3), S12, E. }
  specialize (L3 eq_refl) as ->. rewrite take_ge in F3 by done.
  unfold append_data in F3; cbn in F3. pose proof (steady_trans _ _ _ _ _ S12 S3) as S13.
  eapply wp_os_sync; [by rewrite F3, lookup_insert_eq|]. intros r d4 [S4 F4].
  unfold sync_file in F4; cbn [data] in F4. rewrite F3, insert_insert_eq in F4.
  assert (agree_except [tmp] (files d) (files d4)) as A4
    by (rewrite F4; destruct (is_ok r); by apply agree_insert).
  destruct r as [[]|e]; wp_steps.
  2: { apply (wp_remove_any _ (files d)); [done|]. intros ? d' A' C'. wp_steps.
       apply Herr; [done|by rewrite C', (proj1 S4); apply S13|].
       left. intros E. apply (steady_faulty _ _ _ S4), S13, E. }
  cbn [is_ok] in F4. pose proof (steady_trans _ _ _ _ _ S13 S4) as S14.
  apply wp_os_close. intros r d5 F5 S5. destruct r as [[]|e]; wp_steps.
  2: { apply (wp_remove_any _ (files d)); [by rewrite F5|]. intros ? d' A' C'. wp_steps.
       apply Herr; [done|by rewrite C', (proj1 S5); apply S14|].
       left. intros E. apply (steady_faulty _ _ _ S5), S14, E. }
  pose proof (steady_trans _ _ _ _ _ S14 S5) as S15.
  eapply wp_os_rename; [by rewrite F5, F4, lookup_insert_eq|]. intros r d6 [S6 F6].
  rewrite F5, F4, delete_insert_eq in F6. destruct r as [[]|e]; cbn [is_ok] in F6.
  - apply Hok; [done|done|]. eauto using steady_trans.
  - apply Herr; [rewrite F6; by apply agree_insert|by rewrite (proj1 S6); apply S15|].
    left. intros E. apply (steady_faulty _ _ _ S6), S15, E.
Qed.

(** ** Sealing a segment *)

(** The seal [sealSegment] asks the signer to sign. *)
Definition unsigned_seal (s : Store) (n : Z) (h : string) (rs : list WalRecord) (t : time)
    (leaves : list string) (root : string) : Seal :=
  mkSeal "" 0 (edgeID s) (segmentPath n) n (n + zlen rs - 1) (zlen rs) (default "" (head leaves))
    (final_hash h rs) root (lastSegmentRoot s) t "" "" "" "".

(** A JSON encoder of this component can refuse a value. *)
Definition encoder_fails : Prop :=
  (exists x, marshal_payload x = None) \/ (exists x, marshal_seal x = None) \/
  (exists x, marshal_checkpoint x = None).

(** A new seal, signed, encoded and ready to be written. *)
Definition sealed_as (s : Store) (n : Z) (h : string) (rs : list WalRecord) (t : time)
    (root : string) (seal : Seal) (payload : bytes) : Prop :=
  exists leaves, chain h rs (final_hash h rs) leaves /\ MerkleRoot leaves = Ok root /\
    SignSeal (signer s) (unsigned_seal s n h rs t leaves root) = Ok seal /\
    marshal_seal seal = Some payload.

Lemma VerifyRecordChain_complete h rs final leaves :
  h = "" \/ validHash h = true -> chain h rs final leaves ->
  VerifyRecordChain rs h = Ok (final, leaves).
Proof.
  intros Hh Hc. unfold VerifyRecordChain. rewrite validSHA256_validHash.
  rewrite (verify_chain_complete _ _ _ _ _ Hc).
  destruct Hh as [-> | ->]; [done|]. by rewrite andb_false_r.
Qed.

Lemma last_or_last {A} (x : A) l y : last l = Some y -> last_or x l = y.
Proof. unfold last_or. by intros ->. Qed.

Lemma numbered_ends n r rs :
  numbered n (r :: rs) ->
  r_EdgeSequence r = n /\ r_EdgeSequence (last_or r (r :: rs)) = n + zlen (r :: rs) - 1.
Proof.
  intros Hn. split; [apply Hn|].
  destruct (exists_last (l := r :: rs)) as (rs' & x & E); [done|]. rewrite E in *.
  rewrite (last_or_last r _ x) by apply last_snoc.
  rewrite (numbered_last _ _ _ Hn), zlen_app, zlen_cons, zlen_nil. lia.
Qed.

Definition write_seal_file (fs : gmap string file) (n : Z) (payload : bytes) : gmap string file :=
  let path := sealPathForSegment (segmentPath n) in
  <[path := mkFile (payload ++ [newline]) (length (payload ++ [newline]))]>
    (delete (path +:+ ".tmp") fs).

Definition seal_tmp (n : Z) : string := sealPathForSegment (segmentPath n) +:+ ".tmp".

Lemma wp_sealSegment n h rs s d Q :
  rs <> [] -> holds (files d) (segmentPath n) rs [] -> records_ok (edgeID s) n h rs ->
  h = "" \/ validHash h = true ->
  (forall root seal payload d',
     sealed_as s n h rs (clock d) root seal payload ->
     files d !! sealPathForSegment (segmentPath n) = None ->
     files d' = write_seal_file (files d) n payload -> steady d (Ok tt) d' ->
     Q (Ok (meta_of n h rs true))
       (set_lineage (lastLineageHash s) root (sealedSegments s + 1) s, d')) ->
  (forall e d', agree_except [seal_tmp n] (files d) (files d') -> clock d' = clock d ->
     faults d <> [] \/ encoder_fails \/ is_Some (files d !! sealPathForSegment (segmentPath n)) ->
     Q (Err e) (s, d')) ->
  wp (sealSegment (meta_of n h rs false)) Q (s, d).
Proof.
  intros Hne Hf (Hn & Ho & leaves & Hc) Hh Hok Herr. unfold sealSegment.
  cbn [meta_of sm_recordCount sm_sealed sm_path sm_startPreviousHash sm_sealPath].
  destruct (Z.eqb_spec (zlen rs) 0) as [?%zlen_zero|_]; [done|]. cbn [orb]. wp_steps.
  apply (wp_scanSegment _ _ rs); [done| |].
  2: { intros e d' F C N. wp_steps. apply Herr; [by rewrite F|done|by left]. }
  intros d1 F1 S1. wp_steps. rewrite (VerifyRecordChain_complete _ _ _ _ Hh Hc). wp_steps.
  pose proof (chain_length _ _ _ _ Hc) as Hlen. pose proof (chain_leaves_valid _ _ _ _ Hc) as Hv.
  destruct rs as [|r rs]; [done|]. destruct leaves as [|leaf leaves]; [done|].
  destruct (MerkleRoot_ok (leaf :: leaves)) as (root & Hroot & _); [done..|].
  wp_steps. rewrite Hroot. wp_steps.
  destruct (numbered_ends _ _ _ Hn) as [-> ->]. rewrite (proj1 S1).
  change (mkSeal _ _ _ _ _ _ _ leaf _ _ _ _ _ _ _ _)
    with (unsigned_seal s n h (r :: rs) (clock d) (leaf :: leaves) root).
  destruct (SignSeal (signer s) _) as [seal|e] eqn:Hseal; wp_steps.
  2: { apply Herr; [by rewrite F1|apply S1|]. right; left; left. unfold SignSeal, canonicalSealPayload in Hseal.
       destruct (marshal_payload _) eqn:E; [done|]. eauto. }
  unfold WriteSeal. destruct (marshal_seal seal) as [payload|] eqn:Hm; wp_steps.
  2: { apply Herr; [by rewrite F1|apply S1|]. right; left; right; left. eauto. }
  apply wp_writeAtomic.
  - rewrite F1. intros d2 Hnone F2 S2. wp_steps.
    apply (Hok root seal payload); [by exists (leaf :: leaves)|done|done|eauto using steady_trans].
  - rewrite F1. intros e d2 A2 C2 N2. wp_steps. apply Herr; [done|by rewrite C2; apply S1|].
    destruct N2 as [N2|N2]; [left|by right; right]. intros E. by apply N2, S1.
Qed.

(** ** Starting a segment *)

Definition open_segment (n : Z) (s : Store) : Store :=
  set_segments (segments s ++ [meta_of n (lastLineageHash s) [] false])
    (set_totalBytes (totalBytes s + segmentHeaderBytes)
      (set_currentSize segmentHeaderBytes (set_current (Some (segmentPath n)) s))).

(** A failed creation leaves nothing, or a file with part of the header. *)
Definition half_created (n : Z) (fs fs' : gmap string file) : Prop :=
  fs' = fs \/ exists k, (k <= length segmentHeader)%nat /\
    fs' = <[segmentPath n := mkFile (take k segmentHeader) 0]> fs.

Lemma wp_createSegment n s d Q :
  files d !! segmentPath n = None ->
  (forall d', files d' = <[segmentPath n := mkFile segmentHeader 8]> (files d) ->
     steady d (Ok tt) d' -> Q (Ok tt) (open_segment n s, d')) ->
  (forall e d', half_created n (files d) (files d') -> clock d' = clock d -> faults d <> [] ->
     Q (Err e) (s, d')) ->
  wp (createSegment n) Q (s, d).
Proof.
  intros Hnone Hok Herr. unfold createSegment. wp_steps.
  apply wp_os_create_excl; [done|]. intros r d1 [S1 F1]. destruct r as [[]|e]; wp_steps; cbn [is_ok] in F1.
  2: { apply Herr; [by left|apply S1|by eapply steady_faulty]. }
  eapply wp_write_full; [by rewrite F1, lookup_insert_eq|].
  intros r d2 [S2 (k & Hk & F2 & L2)]. rewrite F1, insert_insert_eq in F2.
  unfold append_data in F2; cbn [data synced app] in F2. destruct r as [[]|e]; wp_steps.
  2: { apply Herr; [right; by exists k|by rewrite (proj1 S2); apply S1|].
       intros E. apply (steady_faulty _ _ _ S2), S1, E. }
  pose proof (steady_trans _ _ _ _ _ S1 S2) as S12. specialize (L2 eq_refl) as ->.
  rewrite take_ge in F2 by done.
  eapply wp_os_sync; [by rewrite F2, lookup_insert_eq|]. intros r d3 [S3 F3].
  rewrite F2, insert_insert_eq in F3. destruct r as [[]|e]; wp_steps; cbn [is_ok] in F3.
  - apply Hok; [done|eauto using steady_trans].
  - apply Herr; [right; by exists 8%nat|by rewrite (proj1 S3); apply S12|].
    intros E. apply (steady_faulty _ _ _ S3), S12, E.
Qed.

(** Creating a segment whose name is taken is refused. *)
Lemma wp_createSegment_exists n f s d Q :
  files d !! segmentPath n = Some f ->
  (forall e, Q (Err e) (s, d)) -> wp (createSegment n) Q (s, d).
Proof.
  intros Hf H. unfold createSegment. wp_steps. unfold wp. rewrite (os_create_excl_exists _ _ _ Hf).
  cbn. wp_steps. apply H.
Qed.

(** ** Rotation *)

Definition sealed_store (root : string) (s : Store) : Store :=
  set_segments (update_last mark_sealed (segments s))
    (set_lineage (lastLineageHash s) root (sealedSegments s + 1) (set_current None s)).

(** How a rotation can go wrong: before the seal is in place, or after it. *)
Definition rotation_broken (s : Store) (n next : Z) (h : string) (rs : list WalRecord) (d d' : disk)
  : Prop :=
  agree_except [seal_tmp n] (files d) (files d') \/
  exists root seal payload, sealed_as s n h rs (clock d) root seal payload /\
    half_created next (write_seal_file (files d) n payload) (files d').

Lemma update_last_snoc {A} (f : A -> A) l x : update_last f (l ++ [x]) = l ++ [f x].
Proof. induction l as [|y [|z l] IH]; [done..|]. cbn in *. by rewrite IH. Qed.

Lemma sync_file_synced f : synced f = length (data f) -> sync_file f = f.
Proof. destruct f. unfold sync_file. cbn. by intros ->. Qed.

Lemma holds_synced fs path rs f :
  holds fs path rs [] -> fs !! path = Some f -> synced f = length (data f).
Proof.
  intros (b & f' & Hf & Hd & _ & H1 & H2) Hf'. simplify_eq.
  rewrite app_nil_r in Hd. rewrite Hd in *. lia.
Qed.

(** ** File names *)

Lemma sealPath_of a : sealPathForSegment (a +:+ ".tfwal") = a +:+ ".tfseal".
Proof.
  unfold sealPathForSegment, filepath_ext. rewrite (ext_go_app a ".tfwal" ".tfwal") by reflexivity.
  cbn [default from_option id]. by rewrite trim_suffix_app.
Qed.

Lemma sealPath_eq n : sealPathForSegment (segmentPath n) = format020 n +:+ ".tfseal".
Proof. exact (sealPath_of (format020 n)). Qed.

Lemma seal_tmp_eq n : seal_tmp n = format020 n +:+ ".tfseal.tmp".
Proof. unfold seal_tmp. by rewrite sealPath_eq, string_app_assoc. Qed.

Lemma names_differ a b s t : s <> t -> format020 a +:+ s <> format020 b +:+ t.
Proof. intros Hne [_ H]%string_app_inj_length; [by apply Hne|by rewrite !format020_length]. Qed.

Lemma segment_not_seal a b : segmentPath a <> sealPathForSegment (segmentPath b).
Proof. rewrite sealPath_eq. refine (names_differ a b ".tfwal" ".tfseal" _). discriminate. Qed.

Lemma segment_not_tmp a b : segmentPath a <> seal_tmp b.
Proof. rewrite seal_tmp_eq. refine (names_differ a b ".tfwal" ".tfseal.tmp" _). discriminate. Qed.

Lemma seal_not_tmp a b : sealPathForSegment (segmentPath a) <> seal_tmp b.
Proof.
  rewrite sealPath_eq, seal_tmp_eq. refine (names_differ a b ".tfseal" ".tfseal.tmp" _). discriminate.
Qed.

Lemma segmentPath_inj a b : is_u64 a -> is_u64 b -> segmentPath a = segmentPath b -> a = b.
Proof. intros Ha Hb H. by apply (format020_app_inj a b) in H as [? _]. Qed.

Lemma sealPath_inj a b :
  is_u64 a -> is_u64 b ->
  sealPathForSegment (segmentPath a) = sealPathForSegment (segmentPath b) -> a = b.
Proof. rewrite !sealPath_eq. intros Ha Hb H. by apply format020_app_inj in H as [? _]. Qed.

Lemma checkpoint_not_numbered n s t : checkpointFile +:+ t <> format020 n +:+ s.
Proof.
  destruct (format020_head n) as (d & rest & Hd & ->).
  intros H. injection H as H _. apply (f_equal char_digit) in H.
  by rewrite char_digit_digit_char in H.
Qed.

(** ** The rotation step *)

Lemma write_seal_lookup fs n payload k :
  k <> sealPathForSegment (segmentPath n) -> k <> seal_tmp n ->
  write_seal_file fs n payload !! k = fs !! k.
Proof. intros H1 H2. unfold write_seal_file. by rewrite lookup_insert_ne, lookup_delete_ne. Qed.

Lemma segment_lookup_seal fs n payload m :
  write_seal_file fs n payload !! segmentPath m = fs !! segmentPath m.
Proof. apply write_seal_lookup; [apply segment_not_seal|apply segment_not_tmp]. Qed.

Lemma seal_last_eq s :
  forall ms n h rs, segments s = ms ++ [meta_of n h rs false] -> rs <> [] ->
  forall Q d, wp (meta' ← sealSegment (meta_of n h rs false);
        set_state (fun s => set_segments (update_last (fun _ => meta') (segments s)) s)) Q (s, d) ->
  wp seal_last Q (s, d).
Proof.
  intros ms n h rs Hs Hne Q d H. unfold seal_last. wp_steps. rewrite Hs, last_snoc.
  change (sm_recordCount (meta_of n h rs false)) with (zlen rs).
  destruct (Z.eqb_spec (zlen rs) 0) as [?%zlen_zero|_]; done.
Qed.

(** Without I/O faults a rotation can only fail on a refused encoding or on a name
    that is already taken. *)
Definition rotation_blocked (n next : Z) (d : disk) : Prop :=
  encoder_fails \/ is_Some (files d !! sealPathForSegment (segmentPath n)) \/
  is_Some (files d !! segmentPath next).

Lemma wp_rotate ms n next h rs s d Q :
  current s = Some (segmentPath n) -> segments s = ms ++ [meta_of n h rs false] ->
  rs <> [] -> holds (files d) (segmentPath n) rs [] -> records_ok (edgeID s) n h rs ->
  h = "" \/ validHash h = true ->
  (forall root seal payload d',
     sealed_as s n h rs (clock d) root seal payload ->
     files d !! sealPathForSegment (segmentPath n) = None ->
     files d' = <[segmentPath next := mkFile segmentHeader 8]> (write_seal_file (files d) n payload) ->
     steady d (Ok tt) d' -> Q (Ok tt) (open_segment next (sealed_store root s), d')) ->
  (forall e s' d', rotation_broken s n next h rs d d' -> clock d' = clock d ->
     faults d <> [] \/ rotation_blocked n next d -> Q (Err e) (s', d')) ->
  wp (rotate next) Q (s, d).
Proof.
  intros Hcur Hsegs Hne Hf Hr Hh Hok Herr. unfold rotate. wp_steps. rewrite Hcur. wp_steps.
  pose proof Hf as (b & f & Hlook & _). pose proof (holds_synced _ _ _ _ Hf Hlook) as Hsync.
  eapply wp_os_sync; [done|]. intros r d1 [S1 F1].
  rewrite (sync_file_synced _ Hsync), insert_id in F1 by done.
  assert (files d1 = files d) as F1' by (by destruct (is_ok r)). clear F1. rename F1' into F1.
  destruct r as [[]|e]; wp_steps.
  2: { apply Herr; [left; by rewrite F1|apply S1|left; by eapply steady_faulty]. }
  apply wp_os_close. intros r d2 F2 S2. rewrite F1 in F2.
  pose proof (steady_trans _ _ _ _ _ S1 S2) as S12. destruct r as [[]|e]; wp_steps.
  2: { apply Herr; [left; by rewrite F2|apply S12|left; by eapply steady_faulty]. }
  eapply seal_last_eq; [exact Hsegs|done|]. wp_steps.
  apply wp_sealSegment; [done|by rewrite F2|done|done| |]; rewrite ?F2, ?(proj1 S12).
  2: { intros e d3 A3 C3 N3. wp_steps. apply Herr; [by left|done|].
       destruct N3 as [N3|N3]; [left|right; unfold rotation_blocked; tauto]. intros E. by apply N3, S12. }
  intros root seal payload d3 Hseal Hnone F3 S3. wp_steps.
  pose proof (steady_trans _ _ _ _ _ S12 S3) as S13.
  assert (set_segments (update_last (fun _ => meta_of n h rs true)
     (segments (set_lineage (lastLineageHash (set_current None s)) root
        (sealedSegments (set_current None s) + 1) (set_current None s))))
     (set_lineage (lastLineageHash (set_current None s)) root
        (sealedSegments (set_current None s) + 1) (set_current None s)) = sealed_store root s) as ->.
  { unfold sealed_store. cbn [segments set_lineage set_current]. by rewrite Hsegs, !update_last_snoc. }
  destruct (files d !! segmentPath next) as [g|] eqn:Hnext.
  { eapply wp_createSegment_exists; [by rewrite F3, segment_lookup_seal|]. intros e.
    apply Herr; [right; exists root, seal, payload; split; [done|by left]|apply S13|].
    right. unfold rotation_blocked. rewrite Hnext. eauto. }
  apply wp_createSegment; [by rewrite F3, segment_lookup_seal| |]; rewrite F3.
  - intros d4 F4 S4. apply (Hok root seal payload); [done..|]. eauto using steady_trans.
  - intros e d4 H4 C4 N4. apply Herr; [|by rewrite C4; apply S13|left; intros E; by apply N4, S13].
    right. exists root, seal, payload. done.
Qed.

(** ** The record an append builds *)

(** What the codec must carry unchanged for an append to be readable again. *)
Definition acceptable (topic : string) (ev : Event) : Prop :=
  ascii_text topic = true /\ event_stable ev /\ ascii_text (source_key ev) = true.

Definition hash_ok (h : string) : Prop := h = "" \/ validHash h = true.

Lemma hash_ok_ascii h : hash_ok h -> ascii_text h = true.
Proof. intros [->|?]; [done|by apply validHash_ascii]. Qed.

Lemma build_record_inv s topic ev t r p :
  build_record s topic ev t = Ok (r, p) ->
  exists hash recordHash,
    EventHash ev = Ok hash /\ ComputeRecordHash (draft_record s topic ev t hash) = Ok recordHash /\
    r = with_record_hash (draft_record s topic ev t hash) recordHash /\ marshal_record r = Some p.
Proof.
  unfold build_record. destruct (EventHash ev) as [hash|] eqn:E; [|done]. cbn.
  destruct (ComputeRecordHash _) as [rh|] eqn:C; [|done]. cbn.
  destruct (marshal_record _) as [p'|] eqn:Hm; [|done]. intros [= <- <-]. by exists hash, rh.
Qed.

Lemma EventHash_valid ev h : EventHash ev = Ok h -> validHash h = true.
Proof. unfold EventHash. destruct (marshal_event ev); [|done]. intros [= <-]. apply validHash_sha256_hex. Qed.

Lemma ComputeRecordHash_valid r h : ComputeRecordHash r = Ok h -> validHash h = true.
Proof.
  unfold ComputeRecordHash. destruct (marshal_material _); [|done].
  intros [= <-]. apply validHash_sha256_hex.
Qed.

Lemma build_record_valid s topic ev t r p :
  settings s -> nextSequence s <> 0 -> 0 <= source_seq s (source_key ev) ->
  source_seq s (source_key ev) + 1 < modulus64 -> hash_ok (lastLineageHash s) ->
  is_zero t = false -> blank topic = false -> Event_Validate ev = Ok tt ->
  build_record s topic ev t = Ok (r, p) -> Record_Validate r = Ok tt.
Proof.
  intros Hs Hn Hc0 Hc Hh Ht Hb Hv (hash & rh & HE & HC & -> & _)%build_record_inv.
  unfold Record_Validate, with_record_hash, draft_record.
  cbn [r_Format r_FormatVersion r_EdgeID r_Topic r_EdgeSequence r_SourceSequence r_AcceptedAt
       r_PayloadSHA256 r_LineageVersion r_PreviousRecordHash r_RecordHash r_Event].
  rewrite u64_succ_small by done. rewrite (se_edge _ Hs), Hb, Ht, Hv, HE.
  rewrite bool_decide_eq_true_2 by done.
  destruct (Z.eqb_spec (nextSequence s) 0) as [|_]; [done|].
  destruct (Z.eqb_spec (source_seq s (source_key ev) + 1) 0) as [|_]; [lia|].
  change (Version =? LegacyVersion) with false. change (Version =? Version) with true.
  change (LineageVersion =? LineageVersion) with true. cbn [mbind result_mbind negb andb orb].
  change validSHA256 with validHash. rewrite (ComputeRecordHash_valid _ _ HC).
  rewrite bool_decide_eq_true_2 by done.
  replace (negb (bool_decide (lastLineageHash s = "")) && negb (validHash (lastLineageHash s)))
    with false by (by destruct Hh as [-> | ->]; [|rewrite andb_false_r]).
  cbn [negb]. unfold draft_record in HC. unfold ComputeRecordHash, material_of in *.
  cbn [r_Format r_FormatVersion r_EdgeID r_Topic r_EdgeSequence r_SourceSequence r_AcceptedAt
       r_PayloadSHA256 r_LineageVersion r_PreviousRecordHash] in *.
  rewrite u64_succ_small in HC by done. rewrite HC. cbn [mbind result_mbind].
  by rewrite bool_decide_eq_true_2.
Qed.

Lemma build_record_encodes s topic ev t r p :
  settings s -> nextSequence s <> 0 -> 0 <= source_seq s (source_key ev) ->
  source_seq s (source_key ev) + 1 < modulus64 -> hash_ok (lastLineageHash s) ->
  is_zero t = false -> blank topic = false -> Event_Validate ev = Ok tt -> acceptable topic ev ->
  build_record s topic ev t = Ok (r, p) -> zlen p <= maxFrameLength -> encodes r p.
Proof.
  intros Hs Hn Hc0 Hc Hh Ht Hb Hv (Htop & Hst & Hkey) Hr Hlen.
  pose proof (build_record_valid _ _ _ _ _ _ Hs Hn Hc0 Hc Hh Ht Hb Hv Hr) as Hval.
  destruct (build_record_inv _ _ _ _ _ _ Hr) as (hash & rh & HE & HC & -> & Hm).
  split; [done|]. split; [|split; [done|split; [|done]]].
  - apply decode_marshal_record; [|done|done].
    unfold record_ascii, with_record_hash, draft_record. cbn [forallb r_Format r_EdgeID r_Topic
      r_PayloadSHA256 r_PreviousRecordHash r_RecordHash].
    rewrite (se_ascii _ Hs), Htop, (hash_ok_ascii _ Hh).
    rewrite (validHash_ascii hash) by (by eapply EventHash_valid).
    by rewrite (validHash_ascii rh) by (by eapply ComputeRecordHash_valid).
  - apply zlen_pos. by eapply marshal_record_nonempty.
Qed.

(** The new record continues the log. *)
Lemma build_record_next s topic ev t r p :
  build_record s topic ev t = Ok (r, p) ->
  own (edgeID s) r /\ r_EdgeSequence r = nextSequence s /\
  r_PreviousRecordHash r = lastLineageHash s /\ r_Event r = ev /\ r_Topic r = topic /\
  r_SourceSequence r = u64_succ (source_seq s (source_key ev)) /\ marshal_record r = Some p.
Proof. intros (hash & rh & _ & _ & -> & Hm)%build_record_inv. done. Qed.

Lemma records_ok_single edge n h r p :
  encodes r p -> own edge r -> r_EdgeSequence r = n -> r_PreviousRecordHash r = h ->
  records_ok edge n h [r].
Proof.
  intros (_ & _ & Hv & _) Ho Hn Hh. split; [done|]. split; [by constructor|].
  exists [r_RecordHash r]. unfold final_hash. cbn.
  econstructor; [done|by intros _| |constructor].
  unfold RecordDigest. rewrite (proj2 Ho). cbn. by rewrite Hv.
Qed.

End inv.
