(* ===== verification/WalOps.v ===== *)
(** * What the operations of an open write-ahead log do

    For every operation and every schedule of I/O faults: the outcome, the new
    store and the new directory, and from these the preservation of the
    invariant. *)

From S2P Require Import Prelude GoStrings Hash Domain Disk Wire Lineage WalModel.
From S2P Require Import WalFrame WalStore WalInv.

Local Open Scope string_scope.
Local Open Scope Z_scope.
Local Open Scope list_scope.

Ltac wp_steps ::= repeat (first [wp_step | apply wp_the_store]; cbv beta).

Section ops.
Context {ED : Ed25519} {SC : SealCodec} {WC : WalCodec} {CC : CheckpointCodec}.

(** ** Append: admission *)

(** What [Append] decides before it touches the disk: a refusal, with whether the
    pressure flag is raised, or a record, its payload and whether to rotate. *)
Definition admission (s : Store) (topic : string) (ev : Event) (t : time)
  : (error * bool) + (WalRecord * bytes * bool) :=
  if closed s then inl (ErrClosed, false)
  else match failed s with
  | Some e => inl (e, false)
  | None =>
      if blank topic then inl (ErrMsg "topic is required", false)
      else match Event_Validate ev with
      | Err e => inl (e, false)
      | Ok _ =>
          match build_record s topic ev t with
          | Err e => inl (e, false)
          | Ok (record, payload) =>
              let need := frameHeaderBytes + zlen payload in
              if segmentBytes s <? need + segmentHeaderBytes
              then inl (ErrMsg "WAL record is larger than configured segment size", false)
              else if maxBytes s <? totalBytes s + need then inl (ErrDiskPressure, true)
              else
                let full := (segmentBytes s <? currentSize s + need)
                            && (segmentHeaderBytes <? currentSize s) in
                if full && (maxBytes s <? totalBytes s + segmentHeaderBytes + need)
                then inl (ErrDiskPressure, true)
                else inr (record, payload, full)
          end
      end
  end.

(** The part of [Append] after admission. *)
Definition perform (record : WalRecord) (payload : bytes) (full : bool) : WAL WalRecord :=
  (if full then on_error (rotate (r_EdgeSequence record)) (fun e => set_state (fail e);; raise e)
   else mret tt);;
  s ← the_store;
  match current s with
  | None => set_state (fail (ErrMsg "invalid argument"));; raise (ErrMsg "invalid argument")
  | Some path =>
      write_frame path payload;;
      set_state (note_append record (frameHeaderBytes + zlen payload));;
      mret record
  end.

Definition refused_state (pressed : bool) (s : Store) : Store :=
  if pressed then set_pressure true s else s.

Lemma Append_admission topic ev s d :
  Append topic ev (s, d) =
  match admission s topic ev (clock d) with
  | inl (e, pressed) => (Err e, (refused_state pressed s, d))
  | inr (record, payload, full) => perform record payload full (s, d)
  end.
Proof.
  cbv [Append admission perform the_store on_state on_disk now lift raise set_state
       mbind M_mbind mret M_mret id].
  destruct (closed s); [done|]. destruct (failed s); [done|]. destruct (blank topic); [done|].
  destruct (Event_Validate ev) as [[]|]; [|done].
  destruct (build_record s topic ev (clock d)) as [[r p]|e]; [|done].
  destruct (segmentBytes s <? _); [done|]. destruct (maxBytes s <? _); [done|].
  destruct ((segmentBytes s <? _) && (_ <? currentSize s)); cbn [andb]; [|done].
  by destruct (maxBytes s <? _).
Qed.

(** ** Append: effect *)

Lemma wp_perform_here record p path f s d Q :
  current s = Some path -> files d !! path = Some f ->
  (forall d', files d' = <[path := sync_file (append_data (frame p) f)]> (files d) ->
     steady d (Ok tt) d' -> Q (Ok record) (note_append record (zlen (frame p)) s, d')) ->
  (forall e d', torn_write path f (frame p) d d' -> faults d <> [] -> Q (Err e) (fail e s, d')) ->
  wp (perform record p false) Q (s, d).
Proof.
  intros Hc Hf Hok Herr. unfold perform. wp_steps. rewrite Hc. wp_steps.
  eapply wp_write_frame; [done| |].
  - intros d' F S. wp_steps. rewrite <- zlen_frame. auto.
  - intros e d' T N. wp_steps. auto.
Qed.

Lemma wp_perform_rotate ms n h rs record p s d Q :
  let next := r_EdgeSequence record in
  current s = Some (segmentPath n) -> segments s = ms ++ [meta_of n h rs false] ->
  rs <> [] -> holds (files d) (segmentPath n) rs [] -> records_ok (edgeID s) n h rs ->
  hash_ok h ->
  (forall root seal payload d1,
     sealed_as s n h rs (clock d) root seal payload ->
     files d !! sealPathForSegment (segmentPath n) = None ->
     files d1 = <[segmentPath next := mkFile segmentHeader 8]> (write_seal_file (files d) n payload) ->
     steady d (Ok tt) d1 ->
     wp (perform record p false) Q (open_segment next (sealed_store root s), d1)) ->
  (forall e s' d', rotation_broken s n next h rs d d' -> clock d' = clock d ->
     faults d <> [] \/ rotation_blocked n next d -> Q (Err e) (fail e s', d')) ->
  wp (perform record p true) Q (s, d).
Proof.
  intros next Hcur Hsegs Hne Hf Hr Hh Hok Herr. unfold perform. wp_steps.
  eapply wp_rotate; done.
Qed.

(** ** Frame lemmas for logs *)

Lemma holds_frame fs fs' path rs tail :
  fs' !! path = fs !! path -> holds fs path rs tail -> holds fs' path rs tail.
Proof. intros E (b & f & Hf & H). exists b, f. by rewrite E. Qed.

Lemma log_files_frame edge fs fs' n h log tail :
  Forall (fun rs => rs <> []) log ->
  (forall m, n <= m < n + zlen (concat log) -> fs' !! segmentPath m = fs !! segmentPath m) ->
  log_files edge fs n h log tail -> log_files edge fs' n h log tail.
Proof.
  revert n h. induction log as [|rs log IH]; intros n h HF Ha; cbn [log_files concat] in *; [done|].
  rewrite zlen_app in Ha. apply Forall_cons in HF as [Hne HF]. apply zlen_pos in Hne.
  pose proof (zlen_nonneg (concat log)). intros (Hh & Hr & Hl). split; [|split; [done|]].
  - eapply holds_frame; [|done]. apply Ha. lia.
  - apply IH; [done| |done]. intros m Hm. apply Ha. lia.
Qed.

Lemma holds_append fs path rs f r p :
  holds fs path rs [] -> fs !! path = Some f -> encodes r p ->
  holds (<[path := sync_file (append_data (frame p) f)]> fs) path (rs ++ [r]) [].
Proof.
  intros (b & f' & Hf & Hd & Hi & _) Hf' He. rewrite Hf' in Hf. injection Hf as <-.
  exists (b ++ frame p), (sync_file (append_data (frame p) f)). rewrite lookup_insert_eq.
  cbn [sync_file append_data data synced]. rewrite Hd, !app_nil_r, <- (assoc_L (++)).
  split; [done|]. split; [done|]. split; [by apply image_app, image_single|]. lia.
Qed.

Lemma seg_size_snoc rs r p :
  marshal_record r = Some p -> seg_size (rs ++ [r]) = seg_size rs + zlen (frame p).
Proof.
  intros Hm. unfold seg_size. rewrite fmap_app, sumZ_app, zlen_frame. cbn. unfold frame_size.
  rewrite Hm. lia.
Qed.

(** ** The invariant across an append *)

Lemma concat_snoc {A} (ll : list (list A)) l : concat (ll ++ [l]) = concat ll ++ l.
Proof. rewrite concat_app. cbn. by rewrite app_nil_r. Qed.

Lemma records_hash_ok edge n h rs : records_ok edge n h rs -> hash_ok h -> hash_ok (final_hash h rs).
Proof.
  intros (_ & Ho & leaves & Hc) Hh. eapply (final_hash_valid _ _ _ _ Hc); [|exact Hh].
  eapply Forall_impl; [exact Ho|]. by intros ? [].
Qed.

Lemma live_active s d n h full act base :
  live s d n h full act base ->
  let start := n + zlen (concat full) in
  let hash := final_hash h (concat full) in
  log_files (edgeID s) (files d) n h full [] /\
  holds (files d) (segmentPath start) act [] /\
  records_ok (edgeID s) start hash act /\
  segments s = metas n h full true ++ [meta_of start hash act false] /\
  hash_ok hash /\ hash_ok (lastLineageHash s) /\ nextSequence s = start + zlen act.
Proof.
  intros L start hash. pose proof (lv_files _ _ _ _ _ _ _ L) as Hf.
  pose proof (log_files_records _ _ _ _ _ _ Hf) as Hr.
  apply log_files_app in Hf as (Hf1 & Hf2 & Hf3 & _); [|done].
  split; [done|]. split; [done|]. split; [done|].
  split; [by rewrite (lv_segments _ _ _ _ _ _ _ L), metas_app|].
  rewrite (lv_hash _ _ _ _ _ _ _ L), (lv_next _ _ _ _ _ _ _ L), concat_snoc.
  rewrite concat_snoc in Hr.
  apply records_ok_app in Hr as [Hr1 Hr2].
  pose proof (records_hash_ok _ _ _ _ Hr1 (lv_anchor _ _ _ _ _ _ _ L)) as Hh.
  split; [done|]. split.
  - rewrite final_hash_app. by eapply records_hash_ok.
  - rewrite zlen_app. unfold start. lia.
Qed.

Lemma replay_snoc base rs r : replay_sources base (rs ++ [r]) = note_source (replay_sources base rs) r.
Proof. unfold replay_sources. by rewrite foldl_app. Qed.

Lemma note_source_new m r c :
  r_SourceSequence r = default 0 (m !! source_key (r_Event r)) + 1 ->
  c = r_SourceSequence r -> note_source m r = <[source_key (r_Event r) := c]> m.
Proof.
  intros Hr ->. unfold note_source. destruct (Z.ltb_spec (default 0 (m !! source_key (r_Event r)))
    (r_SourceSequence r)); [done|lia].
Qed.

(** The metadata update of an append. *)
Lemma bump_meta n h act r p size :
  marshal_record r = Some p -> r_EdgeSequence r = n + zlen act -> zlen act + 1 < modulus64 ->
  size = seg_size act + zlen (frame p) ->
  mkMeta (segmentPath n)
    (if zlen act =? 0 then r_EdgeSequence r else if zlen act =? 0 then 0 else n)
    (r_EdgeSequence r) size (u64_succ (zlen act)) h (sealPathForSegment (segmentPath n)) false =
  meta_of n h (act ++ [r]) false.
Proof.
  intros Hm Hr Hb ->. unfold meta_of. pose proof (zlen_nonneg act).
  rewrite u64_succ_small by lia. rewrite (seg_size_snoc _ _ _ Hm), zlen_app, Hr.
  change (zlen [r]) with 1.
  destruct (Z.eqb_spec (zlen act + 1) 0); [lia|]. destruct (Z.eqb_spec (zlen act) 0) as [E|];
  rewrite ?E; f_equal; lia.
Qed.

Lemma live_source_seq s d n h full act base key :
  live s d n h full act base -> 0 <= source_seq s key < nextSequence s.
Proof.
  intros L. unfold source_seq. pose proof (lv_committed _ _ _ _ _ _ _ L).
  pose proof (lv_first _ _ _ _ _ _ _ L).
  destruct (sourceSequence s !! key) as [c|] eqn:E; cbn; [|lia].
  apply (lv_counters _ _ _ _ _ _ _ L) in E. lia.
Qed.

Lemma checkpointed_frame fs fs' c m :
  fs' !! checkpointFile = fs !! checkpointFile -> checkpointed fs c m -> checkpointed fs' c m.
Proof. unfold checkpointed. by intros ->. Qed.

Lemma checkpoint_not_segment n : checkpointFile <> segmentPath n.
Proof. exact (checkpoint_not_numbered n ".tfwal" ""). Qed.

Lemma live_u64 s d n h full act base m :
  live s d n h full act base -> n <= m <= nextSequence s -> is_u64 m.
Proof.
  intros L Hm. pose proof (lv_committed _ _ _ _ _ _ _ L). pose proof (lv_first _ _ _ _ _ _ _ L).
  unfold is_u64. lia.
Qed.

Lemma log_files_append edge fs n h full act r p f :
  Forall (fun rs => rs <> []) full ->
  0 <= n -> n + zlen (concat full) < modulus64 ->
  log_files edge fs n h (full ++ [act]) [] -> encodes r p -> own edge r ->
  r_EdgeSequence r = n + zlen (concat (full ++ [act])) ->
  r_PreviousRecordHash r = final_hash h (concat (full ++ [act])) ->
  fs !! segmentPath (n + zlen (concat full)) = Some f ->
  log_files edge (<[segmentPath (n + zlen (concat full)) := sync_file (append_data (frame p) f)]> fs)
    n h (full ++ [act ++ [r]]) [].
Proof.
  intros HF Hn Hb Hl He Ho Hseq Hprev Hf. rewrite concat_snoc in *.
  rewrite zlen_app, Z.add_assoc in Hseq. rewrite final_hash_app in Hprev.
  apply log_files_app in Hl as (Hl & Hh & Hr & _); [|done]. apply log_files_app; [done|]. split.
  - eapply log_files_frame; [done| |exact Hl]. intros m Hm. rewrite lookup_insert_ne; [done|].
    intros E%segmentPath_inj; unfold is_u64; lia.
  - split; [|split; [|done]].
    + by eapply holds_append.
    + apply records_ok_app. split; [done|]. by eapply records_ok_single.
Qed.

Lemma live_counters_append s r :
  map_Forall (fun k c => ascii_text k = true /\ 0 <= c < nextSequence s) (sourceSequence s) ->
  ascii_text (source_key (r_Event r)) = true -> 0 <= r_SourceSequence r < nextSequence s + 1 ->
  map_Forall (fun k c => ascii_text k = true /\ 0 <= c < nextSequence s + 1)
    (<[source_key (r_Event r) := r_SourceSequence r]> (sourceSequence s)).
Proof.
  intros H Ha Hr. apply map_Forall_insert_2; [done|]. eapply map_Forall_impl; [exact H|].
  intros k c [? ?]. split; [done|lia].
Qed.

Lemma live_append s d n h full act base topic ev t r p f d' :
  live s d n h full act base -> build_record s topic ev t = Ok (r, p) -> encodes r p ->
  acceptable topic ev -> nextSequence s + 1 < modulus64 ->
  files d !! segmentPath (n + zlen (concat full)) = Some f ->
  files d' = <[segmentPath (n + zlen (concat full)) := sync_file (append_data (frame p) f)]> (files d) ->
  live (note_append r (zlen (frame p)) s) d' n h full (act ++ [r]) base.
Proof.
  intros L Hr He (_ & _ & Hkey) Hb Hf Hd.
  destruct (build_record_next _ _ _ _ _ _ Hr) as (Ho & Hseq & Hprev & Hev & _ & Hsrc & Hm).
  destruct (live_active _ _ _ _ _ _ _ L) as (_ & _ & _ & Hsegs & _ & _ & Hnext).
  pose proof (live_source_seq _ _ _ _ _ _ _ (source_key ev) L) as Hss.
  pose proof (zlen_nonneg act) as Hza. pose proof (zlen_nonneg (concat full)) as Hzf.
  rewrite u64_succ_small in Hsrc by lia.
  destruct L as [L1 L2 L3 L4 L5 L6 L7 L8 L9 L10 L11 L12 L13 L14 L15 L16 L17].
  assert (concat (full ++ [act ++ [r]]) = concat (full ++ [act]) ++ [r]) as Hcat
    by (rewrite !concat_snoc; apply (assoc_L (++))).
  split; cbn [note_append set_lineage set_sourceSequence set_nextSequence set_segments set_totalBytes
    set_currentSize closed failed edgeID segments current currentSize totalBytes nextSequence
    lastLineageHash committed sourceSequence]; try done.
  - destruct L1. by split.
  - rewrite Hd. apply log_files_append; try done; try lia; congruence.
  - rewrite Hsegs, update_last_snoc, metas_app by done. f_equal. cbn [metas]. f_equal.
    cbn [meta_of sm_path sm_recordCount sm_first sm_startPreviousHash sm_sealPath sm_sealed].
    apply (bump_meta _ _ _ _ p); [done|lia|lia|congruence].
  - by rewrite (seg_size_snoc _ _ _ Hm), L8.
  - rewrite L9, !fmap_app. cbn [fmap list_fmap]. rewrite !sumZ_snoc, (seg_size_snoc _ _ _ Hm). lia.
  - rewrite Hcat, zlen_app, u64_succ_small, L10 by lia. change (zlen [r]) with 1. lia.
  - by rewrite Hcat, final_hash_snoc.
  - rewrite u64_succ_small by lia. lia.
  - eapply checkpointed_frame; [|exact L15]. rewrite Hd. rewrite lookup_insert_ne; [done|].
    apply not_eq_sym, checkpoint_not_segment.
  - rewrite Hcat, replay_snoc, <- L16. symmetry. apply note_source_new; [|done]. by rewrite Hsrc, Hev.
  - rewrite u64_succ_small by lia. apply live_counters_append; [done|congruence|lia].
Qed.

Lemma admission_record s topic ev t r p full' :
  admission s topic ev t = inr (r, p, full') ->
  closed s = false /\ failed s = None /\ blank topic = false /\ Event_Validate ev = Ok tt /\
  build_record s topic ev t = Ok (r, p) /\ zlen (frame p) + segmentHeaderBytes <= segmentBytes s /\
  totalBytes s + zlen (frame p) + (if full' then segmentHeaderBytes else 0) <= maxBytes s /\
  full' = (segmentBytes s <? currentSize s + zlen (frame p)) && (segmentHeaderBytes <? currentSize s).
Proof.
  unfold admission. destruct (closed s); [done|]. destruct (failed s); [done|].
  destruct (blank topic); [done|]. destruct (Event_Validate ev) as [[]|]; [|done].
  destruct (build_record s topic ev t) as [[r' p']|]; [|done]. rewrite <- zlen_frame.
  destruct (Z.ltb_spec (segmentBytes s) (zlen (frame p') + segmentHeaderBytes)); [done|].
  destruct (Z.ltb_spec (maxBytes s) (totalBytes s + zlen (frame p'))); [done|].
  destruct ((segmentBytes s <? _) && _) eqn:Hfull; cbn [andb].
  - destruct (Z.ltb_spec (maxBytes s) (totalBytes s + segmentHeaderBytes + zlen (frame p'))); [done|].
    intros [= <- <- <-]. rewrite Hfull. repeat split; lia.
  - intros [= <- <- <-]. rewrite Hfull. repeat split; lia.
Qed.

(** ** The outcomes of an append *)

Section outcome.
Context (s : Store) (d : disk) (n : Z) (h : string) (full : list (list WalRecord))
  (act : list WalRecord) (topic : string) (ev : Event).

Let start := n + zlen (concat full).
Let hash := final_hash h (concat full).
Let next := nextSequence s.

(** The directory and store after a successful rotation. *)
Definition rotated_to (root : string) (seal : Seal) (payload : bytes) (d1 : disk) : Prop :=
  sealed_as s start hash act (clock d) root seal payload /\
  files d !! sealPathForSegment (segmentPath start) = None /\
  files d1 = <[segmentPath next := mkFile segmentHeader 8]> (write_seal_file (files d) start payload) /\
  steady d (Ok tt) d1.

Inductive appended : result WalRecord -> Store -> disk -> Prop :=
  | ap_refused e pressed :
      admission s topic ev (clock d) = inl (e, pressed) ->
      appended (Err e) (refused_state pressed s) d
  | ap_here r p f d' :
      admission s topic ev (clock d) = inr (r, p, false) ->
      files d !! segmentPath start = Some f ->
      files d' = <[segmentPath start := sync_file (append_data (frame p) f)]> (files d) ->
      steady d (Ok tt) d' ->
      appended (Ok r) (note_append r (zlen (frame p)) s) d'
  | ap_torn r p f e d' :
      admission s topic ev (clock d) = inr (r, p, false) ->
      files d !! segmentPath start = Some f ->
      torn_write (segmentPath start) f (frame p) d d' -> faults d <> [] ->
      appended (Err e) (fail e s) d'
  | ap_rotated r p root seal payload d1 d' :
      admission s topic ev (clock d) = inr (r, p, true) -> act <> [] ->
      rotated_to root seal payload d1 ->
      files d' = <[segmentPath next := sync_file (append_data (frame p) (mkFile segmentHeader 8))]> (files d1) ->
      steady d1 (Ok tt) d' ->
      appended (Ok r) (note_append r (zlen (frame p)) (open_segment next (sealed_store root s))) d'
  | ap_rotated_torn r p root seal payload d1 e d' :
      admission s topic ev (clock d) = inr (r, p, true) -> act <> [] ->
      rotated_to root seal payload d1 ->
      torn_write (segmentPath next) (mkFile segmentHeader 8) (frame p) d1 d' -> faults d1 <> [] ->
      appended (Err e) (fail e (open_segment next (sealed_store root s))) d'
  | ap_broken r p e s' d' :
      admission s topic ev (clock d) = inr (r, p, true) -> act <> [] ->
      rotation_broken s start next hash act d d' -> clock d' = clock d ->
      faults d <> [] \/ rotation_blocked start next d ->
      appended (Err e) (fail e s') d'.

Lemma append_outcome base r s' d' :
  live s d n h full act base -> Append topic ev (s, d) = (r, (s', d')) -> appended r s' d'.
Proof.
  intros L. rewrite Append_admission.
  destruct (admission s topic ev (clock d)) as [[e pressed]|[[r0 p] rot]] eqn:Ha.
  { intros [= <- <- <-]. by apply ap_refused. }
  destruct (admission_record _ _ _ _ _ _ _ Ha) as (_ & _ & _ & _ & Hr & _ & _ & Hrot).
  destruct (build_record_next _ _ _ _ _ _ Hr) as (_ & Hseq & _).
  destruct (live_active _ _ _ _ _ _ _ L) as (_ & Hholds & Hrec & Hsegs & Hh & _ & _).
  pose proof Hholds as (_ & f & Hf & _). revert r s' d'.
  assert (wp (perform r0 p rot) (fun r sd => appended r sd.1 sd.2) (s, d)) as Hwp.
  2: { intros r s' d' E. unfold wp in Hwp. by rewrite E in Hwp. }
  destruct rot.
  - assert (act <> []) as Hne.
    { intros ->. rewrite (lv_currentSize _ _ _ _ _ _ _ L) in Hrot.
      change (segmentHeaderBytes <? seg_size []) with false in Hrot. by rewrite andb_false_r in Hrot. }
    eapply wp_perform_rotate; try done; try apply L; rewrite Hseq.
    + intros root seal payload d1 Hs Hn F S. eapply wp_perform_here; [done| | |].
      * by rewrite F, lookup_insert_eq.
      * intros d' F' S'. by eapply (ap_rotated r0 p root seal payload d1).
      * intros e d' T N. by eapply (ap_rotated_torn r0 p root seal payload d1).
    + intros e s' d' B C N. by eapply ap_broken.
  - eapply wp_perform_here; [apply L|done| |].
    + intros d' F S. by eapply ap_here.
    + intros e d' T N. by eapply ap_torn.
Qed.

End outcome.

(** ** The invariant across a rotation *)

Lemma live_log_below s d n h full act base fs' :
  live s d n h full act base -> act <> [] ->
  (forall m, n <= m < nextSequence s -> fs' !! segmentPath m = files d !! segmentPath m) ->
  log_files (edgeID s) fs' n h (full ++ [act]) [].
Proof.
  intros L Hne Ha. eapply log_files_frame; [| |apply L].
  - apply Forall_app. split; [apply L|by constructor].
  - intros m Hm. apply Ha. by rewrite (lv_next _ _ _ _ _ _ _ L).
Qed.

Lemma holds_new fs path : holds (<[path := mkFile segmentHeader 8]> fs) path [] [].
Proof.
  exists [], (mkFile segmentHeader 8). rewrite lookup_insert_eq.
  split; [done|]. split; [done|]. split; [apply image_nil|]. cbn. lia.
Qed.

Lemma records_ok_nil edge n h : records_ok edge n h [].
Proof. split; [done|]. split; [constructor|]. exists []. constructor. Qed.

Lemma live_rotate s d n h full act base root payload d' :
  live s d n h full act base -> act <> [] ->
  files d' = <[segmentPath (nextSequence s) := mkFile segmentHeader 8]>
               (write_seal_file (files d) (n + zlen (concat full)) payload) ->
  live (open_segment (nextSequence s) (sealed_store root s)) d' n h (full ++ [act]) [] base.
Proof.
  intros L Hne Hd. destruct (live_active _ _ _ _ _ _ _ L) as (_ & _ & _ & Hsegs & _ & _ & Hnext).
  assert (concat ((full ++ [act]) ++ [[]]) = concat (full ++ [act])) as Hcat
    by (by rewrite (concat_snoc (full ++ [act])), app_nil_r).
  pose proof L as [L1 L2 L3 L4 L5 L6 L7 L8 L9 L10 L11 L12 L13 L14 L15 L16 L17].
  split; cbn [open_segment sealed_store set_lineage set_current set_segments set_totalBytes
    set_currentSize closed failed edgeID segments current currentSize totalBytes nextSequence
    lastLineageHash committed sourceSequence]; rewrite ?Hcat; try done.
  - destruct L1. by split.
  - apply Forall_app. split; [done|by constructor].
  - rewrite Hd. apply log_files_app; [done|]. split.
    + eapply live_log_below; [done|done|]. intros m Hm. rewrite lookup_insert_ne.
      * apply segment_lookup_seal.
      * intros E%segmentPath_inj; [lia|by apply (live_u64 _ _ _ _ _ _ _ _ L); lia..].
    + rewrite <- L10. split; [apply holds_new|]. split; [apply records_ok_nil|done].
  - rewrite metas_app, <- L10, <- L11 by done. cbn [metas]. f_equal.
    rewrite Hsegs, update_last_snoc, metas_app by done. done.
  - by rewrite <- L10.
  - rewrite L9, !fmap_app. cbn [fmap list_fmap]. rewrite !sumZ_snoc. done.
  - eapply checkpointed_frame; [|exact L15]. rewrite Hd, lookup_insert_ne
      by apply not_eq_sym, checkpoint_not_segment.
    apply write_seal_lookup; rewrite ?sealPath_eq, ?seal_tmp_eq; exact (checkpoint_not_numbered _ _ "").
Qed.

(** ** An append keeps the invariant *)

Lemma live_encodes s d n h full act base topic ev r p rot :
  live s d n h full act base -> acceptable topic ev -> is_zero (clock d) = false ->
  nextSequence s + 1 < modulus64 ->
  admission s topic ev (clock d) = inr (r, p, rot) -> encodes r p.
Proof.
  intros L Hacc Hc Hb Ha. pose proof (lv_settings _ _ _ _ _ _ _ L) as Hset.
  destruct (admission_record _ _ _ _ _ _ _ Ha) as (_ & _ & Htop & Hv & Hr & Hsz & _).
  destruct (live_active _ _ _ _ _ _ _ L) as (_ & _ & _ & _ & _ & Hh & _).
  pose proof (live_source_seq _ _ _ _ _ _ _ (source_key ev) L) as Hss.
  eapply build_record_encodes; try done; try lia.
  pose proof (se_frame _ Hset). rewrite zlen_frame in Hsz. unfold frameHeaderBytes in *. lia.
Qed.

(** ** Pending *)

Definition uncommitted (c : Z) (rs : list WalRecord) : list WalRecord :=
  filter (fun r => c < r_EdgeSequence r) rs.

Definition cut {A} (limit : Z) (l : list A) : list A :=
  if 0 <? limit then take (Z.to_nat limit) l else l.

Lemma pending_records_spec rs c limit acc :
  limit <= 0 \/ zlen acc < limit ->
  pending_records rs c limit acc =
  let l := acc ++ uncommitted c rs in
  if (0 <? limit) && (limit <=? zlen l) then inl (cut limit l) else inr l.
Proof.
  revert acc. induction rs as [|r rs IH]; intros acc Hacc; cbn [pending_records uncommitted].
  - cbn. rewrite app_nil_r. destruct (Z.ltb_spec 0 limit), (Z.leb_spec limit (zlen acc)); cbn; done || lia.
  - unfold uncommitted. rewrite filter_cons.
    destruct (Z.leb_spec (r_EdgeSequence r) c) as [Hle|Hgt].
    { rewrite decide_False by lia. by apply IH. }
    rewrite decide_True by lia. fold (uncommitted c rs).
    replace (acc ++ r :: uncommitted c rs) with ((acc ++ [r]) ++ uncommitted c rs)
      by (by rewrite <- (assoc_L (++))).
    destruct (Z.ltb_spec 0 limit) as [Hpos|Hneg]; cbn [andb].
    2: { rewrite IH by lia. done. }
    destruct (Z.leb_spec limit (zlen (acc ++ [r]))) as [Hle|Hlt].
    + rewrite zlen_app in *. change (zlen [r]) with 1 in *.
      pose proof (zlen_nonneg (uncommitted c rs)). cbv zeta.
      rewrite (proj2 (Z.leb_le limit _)) by (rewrite !zlen_app; change (zlen [r]) with 1; lia).
      f_equal. unfold cut. rewrite (proj2 (Z.ltb_lt 0 limit)) by lia.
      rewrite take_app_le, take_ge by (rewrite ?length_app; unfold zlen in *; cbn; lia). done.
    + rewrite IH by lia. done.
Qed.

Lemma uncommitted_app c rs1 rs2 :
  uncommitted c (rs1 ++ rs2) = uncommitted c rs1 ++ uncommitted c rs2.
Proof. apply filter_app. Qed.

Lemma wp_pending_segments edge n h log sealed s c limit acc d Q :
  log_files edge (files d) n h log [] -> limit <= 0 \/ zlen acc < limit ->
  (forall d', files d' = files d -> steady d (Ok tt) d' ->
     Q (Ok (cut limit (acc ++ uncommitted c (concat log)))) (s, d')) ->
  (forall e d', files d' = files d -> clock d' = clock d -> faults d <> [] -> Q (Err e) (s, d')) ->
  wp (pending_segments (metas n h log sealed) c limit acc) Q (s, d).
Proof.
  revert n h acc d. induction log as [|rs log IH]; intros n h acc d Hl Hacc Hok Herr;
    cbn [metas pending_segments concat log_files] in *; wp_steps.
  { replace acc with (cut limit (acc ++ uncommitted c [])).
    - apply Hok; [done|apply steady_refl].
    - unfold uncommitted. cbn. rewrite app_nil_r. unfold cut. destruct (Z.ltb_spec 0 limit); [|done].
      rewrite take_ge; [done|]. unfold zlen in *. lia. }
  destruct Hl as (Hh & _ & Hl).
  apply (wp_scanSegment _ _ rs).
  { cbn [meta_of sm_path]. by destruct log. }
  2: { intros e d' F C N. wp_steps. auto. }
  intros d1 F1 S1. wp_steps. rewrite pending_records_spec by done. cbv zeta.
  rewrite uncommitted_app, (assoc_L (++)) in Hok.
  destruct ((0 <? limit) && (limit <=? _)) eqn:G; wp_steps.
  - guards. assert (cut limit ((acc ++ uncommitted c rs) ++ uncommitted c (concat log)) =
                    cut limit (acc ++ uncommitted c rs)) as Hcut.
    { unfold cut. rewrite (proj2 (Z.ltb_lt 0 limit)) by lia. apply take_app_le. unfold zlen in *. lia. }
    rewrite <- Hcut. by apply Hok.
  - apply IH; [by rewrite F1|apply andb_false_iff in G as [G|G]; guards; lia| |]; rewrite F1.
    + intros d2 F2 S2. apply Hok; [done|]. eauto using steady_trans.
    + intros e d2 F2 C2 N2. apply Herr; [done|by rewrite C2; apply S1|]. intros E. by apply N2, S1.
Qed.

(** Pending in an open store: the uncommitted records in order, cut at the limit;
    an error needs an I/O fault and changes nothing. *)
Lemma pending_spec s d n h full act base limit :
  live s d n h full act base ->
  wp (Pending limit) (fun r sd => sd.1 = s /\ files sd.2 = files d /\ clock sd.2 = clock d /\
    (is_ok r = true -> r = Ok (cut limit (uncommitted (committed s) (concat (full ++ [act]))))) /\
    (faults d = [] -> is_ok r = true /\ faults sd.2 = [])) (s, d).
Proof.
  intros L. unfold Pending. wp_steps. rewrite (lv_closed _ _ _ _ _ _ _ L), (lv_failed _ _ _ _ _ _ _ L).
  rewrite (lv_segments _ _ _ _ _ _ _ L).
  eapply wp_pending_segments; [apply L|unfold zlen; cbn; lia| |].
  - intros d' F [C S]. cbn [fst snd is_ok app]. split; [done|]. split; [done|]. split; [done|].
    split; [done|]. intros E. split; [done|by apply S].
  - intros e d' F C N. by repeat split.
Qed.

(** The uncommitted records are the log after the committed prefix. *)
Lemma uncommitted_numbered n c rs :
  numbered n rs -> n <= c + 1 -> uncommitted c rs = drop (Z.to_nat (c + 1 - n)) rs.
Proof.
  revert n. induction rs as [|r rs IH]; intros n Hn Hc; [by rewrite drop_nil|].
  destruct Hn as [Hr Hn]. unfold uncommitted. rewrite filter_cons. fold (uncommitted c rs).
  destruct (decide (c < r_EdgeSequence r)) as [Hlt|Hge].
  - replace (Z.to_nat (c + 1 - n)) with 0%nat by lia. rewrite drop_0. f_equal.
    clear IH. assert (forall m, n < m -> numbered m rs -> uncommitted c rs = rs) as H.
    { clear Hn. induction rs as [|r' rs IH]; intros m Hm Hn; [done|]. destruct Hn as [Hr' Hn].
      unfold uncommitted. rewrite filter_cons, decide_True by lia. f_equal. apply (IH (m + 1)); [lia|done]. }
    by apply (H (n + 1)); [lia|].
  - rewrite (IH (n + 1)) by (done || lia).
    replace (Z.to_nat (c + 1 - n)) with (S (Z.to_nat (c + 1 - (n + 1)))) by lia. done.
Qed.

(** ** Checkpoints *)

Definition checkpoint_tmp : string := checkpointFile +:+ ".tmp".

Definition write_checkpoint_file (fs : gmap string file) (payload : bytes) : gmap string file :=
  <[checkpointFile := mkFile (payload ++ [newline]) (length (payload ++ [newline]))]>
    (delete checkpoint_tmp fs).

Lemma wp_writeCheckpoint sequence s d Q :
  (forall payload d',
     marshal_checkpoint (mkCheckpoint Format checkpointVersion sequence (sourceSequence s)) = Some payload ->
     files d' = write_checkpoint_file (files d) payload -> steady d (Ok tt) d' -> Q (Ok tt) (s, d')) ->
  (forall e d', agree_except [checkpoint_tmp] (files d) (files d') -> clock d' = clock d ->
     faults d <> [] \/ encoder_fails -> Q (Err e) (s, d')) ->
  wp (writeCheckpoint sequence) Q (s, d).
Proof.
  intros Hok Herr. unfold writeCheckpoint. wp_steps. cbv zeta. destruct (marshal_checkpoint _) as [p|] eqn:Hm; wp_steps.
  2: { apply Herr; [done|done|]. right. right; right. eauto. }
  fold checkpoint_tmp. assert (checkpoint_tmp ∈ [checkpoint_tmp]) as Ht by set_solver.
  apply wp_os_create_trunc. intros r d1 [S1 F1]. destruct r as [[]|e]; wp_steps; cbn [is_ok] in F1.
  2: { apply Herr; [by rewrite F1|apply S1|left; by eapply steady_faulty]. }
  eapply wp_write_full; [by rewrite F1, lookup_insert_eq|].
  intros r d2 [S2 (k & Hk & F2 & L2)]. rewrite F1, insert_insert_eq in F2.
  pose proof (steady_trans _ _ _ _ _ S1 S2) as S12. destruct r as [[]|e]; wp_steps.
  2: { apply Herr; [rewrite F2; by apply agree_insert|apply S12|left; by eapply steady_faulty]. }
  specialize (L2 eq_refl) as ->. rewrite take_ge in F2 by done.
  eapply wp_os_sync; [by rewrite F2, lookup_insert_eq|]. intros r d3 [S3 F3].
  rewrite F2, insert_insert_eq in F3. pose proof (steady_trans _ _ _ _ _ S12 S3) as S13.
  destruct r as [[]|e]; wp_steps; cbn [is_ok] in F3.
  2: { apply Herr; [rewrite F3; by apply agree_insert|apply S13|left; by eapply steady_faulty]. }
  apply wp_os_close. intros r d4 F4 S4. pose proof (steady_trans _ _ _ _ _ S13 S4) as S14.
  rewrite F3 in F4. destruct r as [[]|e]; wp_steps.
  2: { apply Herr; [rewrite F4; by apply agree_insert|apply S14|left; by eapply steady_faulty]. }
  eapply wp_os_rename; [by rewrite F4, lookup_insert_eq|]. intros r d5 [S5 F5].
  rewrite F4, delete_insert_eq in F5. pose proof (steady_trans _ _ _ _ _ S14 S5) as S15.
  destruct r as [[]|e]; cbn [is_ok] in F5.
  - by apply (Hok p).
  - apply Herr; [rewrite F5; by apply agree_insert|apply S15|left; by eapply steady_faulty].
Qed.

(** ** Compaction *)

Fixpoint seg_paths (n : Z) (log : list (list WalRecord)) : list string :=
  match log with
  | [] => []
  | rs :: log' => segmentPath n :: seg_paths (n + zlen rs) log'
  end.

Definition remove_all (names : list string) (fs : gmap string file) : gmap string file :=
  foldl (fun fs name => delete name fs) fs names.

Lemma remove_all_lookup names fs k :
  remove_all names fs !! k = if decide (k ∈ names) then None else fs !! k.
Proof.
  revert fs. induction names as [|x names IH]; intros fs; [done|].
  change (remove_all (x :: names) fs) with (remove_all names (delete x fs)). rewrite IH.
  destruct (decide (k = x)) as [->|Hne].
  - rewrite lookup_delete_eq, (decide_True _ _ (list_elem_of_here x names)). by destruct (decide _).
  - rewrite lookup_delete_ne by done. apply decide_ext. rewrite elem_of_cons. tauto.
Qed.

Lemma elem_of_seg_paths n log k :
  Forall (fun rs => rs <> []) log ->
  k ∈ seg_paths n log -> exists m, k = segmentPath m /\ n <= m < n + zlen (concat log).
Proof.
  revert n. induction log as [|rs log IH]; intros n HF Hk; cbn in *; [by apply not_elem_of_nil in Hk|].
  apply Forall_cons in HF as [Hne%zlen_pos HF]. rewrite zlen_app. pose proof (zlen_nonneg (concat log)).
  apply elem_of_cons in Hk as [->|Hk]; [exists n; split; [done|lia]|].
  destruct (IH _ HF Hk) as (m & -> & Hm). exists m. split; [done|lia].
Qed.

Lemma seg_paths_app n log1 log2 :
  seg_paths n (log1 ++ log2) = seg_paths n log1 ++ seg_paths (n + zlen (concat log1)) log2.
Proof.
  revert n. induction log1 as [|rs log1 IH]; intros n; cbn; [by rewrite Z.add_0_r|].
  by rewrite IH, zlen_app, Z.add_assoc.
Qed.

Lemma compact_loop_keep cur segs kept s d :
  Forall (fun m => sm_path m = cur \/ committed s < sm_last m) segs ->
  compact_loop cur segs kept (s, d) = (Ok (kept ++ segs), (s, d)).
Proof.
  revert kept. induction segs as [|m segs IH]; intros kept HF; [by rewrite app_nil_r|].
  apply Forall_cons in HF as [Hm HF]. cbn [compact_loop].
  unfold mbind, M_mbind. cbn [the_store on_state id].
  replace (negb (bool_decide (sm_path m = cur)) && (0 <? sm_recordCount m)
           && (sm_last m <=? committed s)) with false.
  - rewrite IH by done. by rewrite <- (assoc_L (++)).
  - destruct Hm as [Hm|Hm].
    + by rewrite bool_decide_eq_true_2.
    + by rewrite (proj2 (Z.leb_gt _ _) Hm), andb_false_r.
Qed.

Lemma metas_last_beyond n h log sealed c :
  Forall (fun rs => rs <> []) log ->
  match log with [] => True | rs :: _ => c < n + zlen rs - 1 end ->
  Forall (fun m => c < sm_last m) (metas n h log sealed).
Proof.
  revert n h. induction log as [|rs log IH]; intros n h HF Hc; cbn [metas]; [constructor|].
  apply Forall_cons in HF as [Hne HF]. constructor.
  - cbn [meta_of sm_last]. destruct (Z.eqb_spec (zlen rs) 0) as [?%zlen_zero|]; [done|]. done.
  - apply IH; [done|]. destruct log as [|rs' log]; [done|].
    apply Forall_cons in HF as [Hne' _]. apply zlen_pos in Hne'. lia.
Qed.

(** The segments compaction can remove: a committed prefix of the full ones. *)
Definition compactable (c n : Z) (gone rest : list (list WalRecord)) : Prop :=
  (gone <> [] -> n + zlen (concat gone) - 1 <= c) /\
  match rest with [] => True | rs :: _ => c < n + zlen (concat gone) + zlen rs - 1 end.

Lemma set_totalBytes_id s : set_totalBytes (totalBytes s) s = s.
Proof. by destruct s. Qed.

Lemma wp_compact_loop n h full lastm s d Q :
  Forall (fun rs => rs <> []) full ->
  sm_path lastm = segmentPath (n + zlen (concat full)) ->
  0 <= n -> n + zlen (concat full) < modulus64 ->
  log_files (edgeID s) (files d) n h full [] ->
  (forall gone rest d', full = gone ++ rest -> compactable (committed s) n gone rest ->
     files d' = remove_all (seg_paths n gone) (files d) -> steady d (Ok tt) d' ->
     Q (Ok (metas (n + zlen (concat gone)) (final_hash h (concat gone)) rest true ++ [lastm]))
       (set_totalBytes (totalBytes s - sumZ (seg_size <$> gone)) s, d')) ->
  (forall gone rest e s' d', full = gone ++ rest ->
     (gone <> [] -> n + zlen (concat gone) - 1 <= committed s) ->
     files d' = remove_all (seg_paths n gone) (files d) -> clock d' = clock d -> faults d <> [] ->
     Q (Err e) (s', d')) ->
  wp (compact_loop (sm_path lastm) (metas n h full true ++ [lastm]) []) Q (s, d).
Proof.
  revert n h s d. induction full as [|rs full IH]; intros n h s d HF Hlast Hn Hb Hl Hok Herr.
  { eapply wp_intro; [apply compact_loop_keep; constructor; [by left|constructor]|].
    specialize (Hok [] [] d eq_refl). cbn [fmap list_fmap] in Hok.
    change (sumZ []) with 0 in Hok. rewrite Z.sub_0_r, set_totalBytes_id in Hok.
    apply Hok; [by split|done|apply steady_refl]. }
  pose proof HF as [Hne HF']%Forall_cons. pose proof (zlen_pos _ Hne) as Hpos.
  pose proof (zlen_nonneg (concat full)) as Hnn.
  cbn [concat metas] in *. rewrite zlen_app in Hlast, Hb.
  destruct (Z.le_gt_cases (n + zlen rs - 1) (committed s)) as [Hle|Hgt].
  2: { eapply wp_intro.
       { apply compact_loop_keep, Forall_app. split; [|constructor; [by left|constructor]].
         eapply Forall_impl; [apply (metas_last_beyond n h (rs :: full)); [done|exact Hgt]|]. by right. }
       specialize (Hok [] (rs :: full) d eq_refl). cbn [fmap list_fmap] in Hok.
       change (sumZ []) with 0 in Hok. rewrite Z.sub_0_r, set_totalBytes_id in Hok.
       cbn [concat] in Hok. rewrite zlen_nil, Z.add_0_r in Hok.
       apply Hok; [|done|apply steady_refl]. split; [done|]. cbn [concat]. rewrite zlen_nil. lia. }
  cbn [app compact_loop]. wp_steps. destruct Hl as (Hh & _ & Hl).
  assert (sm_path (meta_of n h rs match full with [] => true | _ => true end) <> sm_path lastm) as Hp.
  { rewrite Hlast. cbn. intros E%segmentPath_inj; unfold is_u64; lia. }
  rewrite bool_decide_eq_false_2 by done. cbn [meta_of sm_recordCount sm_last sm_path negb andb].
  rewrite (proj2 (Z.ltb_lt 0 (zlen rs))) by lia.
  destruct (Z.eqb_spec (zlen rs) 0); [lia|]. rewrite (proj2 (Z.leb_le _ _)) by lia. cbn [andb].
  wp_steps. pose proof Hh as (_ & f & Hf & _).
  eapply wp_os_remove; [exact Hf|]. intros r d1 Hr [S1 F1]. destruct Hr as [-> | ->]; wp_steps; cbn [is_ok] in F1.
  2: { cbn. wp_steps. by apply (Herr [] (rs :: full)); [|done..|apply S1|by eapply steady_faulty]. }
  apply IH; try done; try lia.
  - rewrite Hlast. f_equal. lia.
  - eapply log_files_frame; [done| |exact Hl]. intros m Hm. rewrite F1, lookup_delete_ne; [done|].
    intros E%segmentPath_inj; unfold is_u64; lia.
  - intros gone rest d2 -> [Hc1 Hc2] F2 S2. rewrite F1 in F2.
    specialize (Hok (rs :: gone) rest d2 eq_refl). cbn [concat fmap list_fmap] in Hok.
    rewrite zlen_app, final_hash_app, Z.add_assoc in Hok. unfold sumZ at 1 in Hok. cbn [foldr] in Hok.
    fold (sumZ (seg_size <$> gone)) in Hok. rewrite Z.sub_add_distr in Hok.
    apply Hok; [|done|eauto using steady_trans]. split; [|cbn [concat]; by rewrite zlen_app, Z.add_assoc].
    intros _. cbn [concat]. rewrite zlen_app. destruct gone as [|g gone]; [cbn [concat]; rewrite zlen_nil; lia|].
    specialize (Hc1 ltac:(done)). cbn [committed set_totalBytes] in Hc1. lia.
  - intros gone rest e s' d2 -> Hc F2 C2 N2. rewrite F1 in F2.
    apply (Herr (rs :: gone) rest); [done| |done|by rewrite C2; apply S1|intros E; by apply N2, S1].
    intros _. cbn [concat]. rewrite zlen_app. destruct gone as [|g gone]; [cbn [concat]; rewrite zlen_nil; lia|].
    specialize (Hc ltac:(done)). cbn [committed set_totalBytes] in Hc. lia.
Qed.

(** ** Commit *)

Definition after_compact (n : Z) (h : string) (sequence : Z) (gone rest : list (list WalRecord))
    (lastm : segmentMeta) (s : Store) : Store :=
  let s1 := set_totalBytes (totalBytes s - sumZ (seg_size <$> gone)) (set_committed sequence s) in
  let s2 := set_segments
    (metas (n + zlen (concat gone)) (final_hash h (concat gone)) rest true ++ [lastm]) s1 in
  match gone ++ rest with
  | [] => s1
  | _ => if totalBytes s2 <? maxBytes s2 then set_pressure false s2 else s2
  end.

Section commit_outcome.
Context (s : Store) (d : disk) (n : Z) (h : string) (full : list (list WalRecord))
  (act : list WalRecord) (sequence : Z).

Let lastm := meta_of (n + zlen (concat full)) (final_hash h (concat full)) act false.

Definition in_order : Prop := sequence = committed s + 1 /\ sequence < nextSequence s.

Definition new_checkpoint (payload : bytes) : Prop :=
  marshal_checkpoint (mkCheckpoint Format checkpointVersion sequence (sourceSequence s)) = Some payload.

Inductive commit_outcome : result unit -> Store -> disk -> Prop :=
  | cm_stale : sequence <= committed s -> commit_outcome (Ok tt) s d
  | cm_refused e :
      committed s < sequence -> sequence <> committed s + 1 \/ nextSequence s <= sequence ->
      commit_outcome (Err e) s d
  | cm_unwritten e d' :
      in_order ->
      agree_except [checkpoint_tmp] (files d) (files d') -> clock d' = clock d ->
      faults d <> [] \/ encoder_fails -> commit_outcome (Err e) (fail e s) d'
  | cm_done payload gone rest d' :
      in_order -> new_checkpoint payload ->
      full = gone ++ rest -> compactable sequence n gone rest ->
      files d' = remove_all (seg_paths n gone) (write_checkpoint_file (files d) payload) ->
      steady d (Ok tt) d' ->
      commit_outcome (Ok tt) (after_compact n h sequence gone rest lastm s) d'
  | cm_uncompacted payload gone rest e s' d' :
      in_order -> new_checkpoint payload ->
      full = gone ++ rest -> (gone <> [] -> n + zlen (concat gone) - 1 <= sequence) ->
      files d' = remove_all (seg_paths n gone) (write_checkpoint_file (files d) payload) ->
      clock d' = clock d -> faults d <> [] ->
      commit_outcome (Err e) (fail e s') d'.

Lemma segment_lookup_checkpoint fs payload m :
  write_checkpoint_file fs payload !! segmentPath m = fs !! segmentPath m.
Proof.
  unfold write_checkpoint_file. rewrite lookup_insert_ne by apply checkpoint_not_segment.
  rewrite lookup_delete_ne; [done|]. exact (checkpoint_not_numbered m ".tfwal" ".tmp").
Qed.

Lemma wp_compact base payload d1 :
  live s d n h full act base -> in_order ->
  new_checkpoint payload -> files d1 = write_checkpoint_file (files d) payload ->
  steady d (Ok tt) d1 ->
  wp (on_error compact (fun e => set_state (fail e);; raise e))
    (fun r sd => commit_outcome r sd.1 sd.2) (set_committed sequence s, d1).
Proof.
  intros L Hseq Hp F1 S1. destruct (live_active _ _ _ _ _ _ _ L) as (Hl & _ & _ & Hsegs & _ & _ & Hnext).
  fold lastm in Hsegs. pose proof (lv_first _ _ _ _ _ _ _ L) as Hn.
  pose proof (lv_committed _ _ _ _ _ _ _ L) as Hc. pose proof (zlen_nonneg act) as Hza.
  unfold compact. wp_steps. cbn [segments set_committed]. rewrite Hsegs, last_snoc.
  assert (full = [] \/ exists rs full', full = rs :: full') as [E|(rs & full' & E)]
    by (clear; destruct full; eauto).
  { assert ((length (metas n h full true ++ [lastm]) <=? 1)%nat = true) as -> by (by rewrite E).
    wp_steps. pose proof (cm_done payload [] [] d1 Hseq Hp E) as Hdone. unfold after_compact in Hdone.
    cbn [app fmap list_fmap totalBytes set_committed] in Hdone. change (sumZ []) with 0 in Hdone.
    replace (set_totalBytes (totalBytes s - 0) (set_committed sequence s)) with (set_committed sequence s)
      in Hdone by (rewrite Z.sub_0_r; by destruct s).
    apply Hdone; [by split|done|done]. }
  assert ((length (metas n h full true ++ [lastm]) <=? 1)%nat = false) as ->.
  { rewrite E, length_app. cbn. apply Nat.leb_gt. lia. }
  wp_steps. eapply wp_compact_loop; [apply L|done|lia|lia| | |].
  - eapply log_files_frame; [apply L| |exact Hl]. intros m _. rewrite F1. apply segment_lookup_checkpoint.
  - rewrite F1. intros gone rest d2 Hg Hcomp F2 S2. wp_steps.
    pose proof (cm_done payload gone rest d2 Hseq Hp Hg) as Hdone. unfold after_compact in Hdone.
    rewrite <- Hg, E in Hdone.
    apply Hdone; [done|done|eauto using steady_trans].
  - rewrite F1. intros gone rest e s' d2 Hg Hcomp F2 C2 N2. wp_steps.
    apply (cm_uncompacted payload gone rest); [done..|etrans; [exact C2|apply S1]|].
    intros E'. by apply N2, S1.
Qed.

End commit_outcome.

Lemma commit_spec s d n h full act base sequence r s' d' :
  live s d n h full act base -> Commit sequence (s, d) = (r, (s', d')) ->
  commit_outcome s d n h full act sequence r s' d'.
Proof.
  intros L. revert r s' d'.
  assert (wp (Commit sequence) (fun r sd => commit_outcome s d n h full act sequence r sd.1 sd.2) (s, d))
    as Hwp.
  2: { intros r s' d' E. unfold wp in Hwp. by rewrite E in Hwp. }
  pose proof (lv_first _ _ _ _ _ _ _ L) as Hn. pose proof (lv_committed _ _ _ _ _ _ _ L) as Hc.
  unfold Commit. wp_steps. rewrite (lv_closed _ _ _ _ _ _ _ L), (lv_failed _ _ _ _ _ _ _ L).
  rewrite u64_succ_small by lia.
  destruct (Z.leb_spec sequence (committed s)); wp_steps; [by apply cm_stale|].
  destruct (Z.eqb_spec sequence (committed s + 1)); cbn [negb]; wp_steps; [|apply cm_refused; auto].
  destruct (Z.leb_spec (nextSequence s) sequence); wp_steps; [apply cm_refused; auto|].
  apply wp_writeCheckpoint.
  - intros payload d1 Hm F1 S1. unfold and_then at 1. apply wp_bind, wp_set_state.
    unfold and_then at 1. by eapply wp_compact.
  - intros err d1 A1 C1 N1. wp_steps. by apply cm_unwritten.
Qed.

(** ** Source counters under compaction *)

Lemma note_source_mono m r k : default 0 (m !! k) <= default 0 (note_source m r !! k).
Proof.
  unfold note_source. destruct (Z.ltb_spec (default 0 (m !! source_key (r_Event r))) (r_SourceSequence r));
    [|lia]. destruct (decide (k = source_key (r_Event r))) as [->|Hne].
  - rewrite lookup_insert_eq. cbn. lia.
  - by rewrite lookup_insert_ne.
Qed.

Lemma replay_mono m rs k : default 0 (m !! k) <= default 0 (replay_sources m rs !! k).
Proof.
  revert m. induction rs as [|r rs IH]; intros m; cbn; [done|].
  etrans; [apply (note_source_mono m r k)|apply IH].
Qed.

Lemma replay_covers m rs r :
  r ∈ rs -> r_SourceSequence r <= default 0 (replay_sources m rs !! source_key (r_Event r)).
Proof.
  revert m. induction rs as [|r' rs IH]; intros m Hr; [by apply not_elem_of_nil in Hr|].
  apply elem_of_cons in Hr as [->|Hr]; [|by apply IH]. cbn.
  etrans; [|apply (replay_mono (note_source m r') rs)]. unfold note_source.
  destruct (Z.ltb_spec (default 0 (m !! source_key (r_Event r'))) (r_SourceSequence r')); [|lia].
  by rewrite lookup_insert_eq.
Qed.

Lemma replay_fixed m rs :
  (forall r, r ∈ rs -> r_SourceSequence r <= default 0 (m !! source_key (r_Event r))) ->
  replay_sources m rs = m.
Proof.
  induction rs as [|r rs IH]; intros H; [done|].
  change (replay_sources (note_source m r) rs = m).
  assert (note_source m r = m) as ->; [|apply IH; set_solver]. unfold note_source.
  by rewrite (proj2 (Z.ltb_ge _ _)) by (apply H; set_solver).
Qed.

(** ** The invariant across a commit *)

Lemma concat_split {A} (gone rest : list (list A)) act :
  concat ((gone ++ rest) ++ [act]) = concat gone ++ concat (rest ++ [act]).
Proof. by rewrite <- (assoc_L (++)), concat_app. Qed.

Lemma log_files_remove edge fs fs' n h gone rest act :
  Forall (fun rs => rs <> []) (gone ++ rest) -> 0 <= n ->
  n + zlen (concat (gone ++ rest)) < modulus64 ->
  (forall m, fs' !! segmentPath m = fs !! segmentPath m) ->
  log_files edge fs n h ((gone ++ rest) ++ [act]) [] ->
  log_files edge (remove_all (seg_paths n gone) fs') (n + zlen (concat gone))
    (final_hash h (concat gone)) (rest ++ [act]) [].
Proof.
  intros HF Hn Hb Ha Hl. rewrite <- (assoc_L (++)) in Hl.
  apply log_files_app in Hl as [_ Hl]; [|by destruct rest].
  apply Forall_app in HF as [HF1 HF2]. rewrite concat_app, zlen_app in Hb.
  assert (forall m, n + zlen (concat gone) <= m <= n + zlen (concat gone) + zlen (concat rest) ->
    remove_all (seg_paths n gone) fs' !! segmentPath m = fs !! segmentPath m) as Hm.
  { intros m Hm. rewrite remove_all_lookup, decide_False; [apply Ha|].
    intros (m' & E & Hm')%elem_of_seg_paths; [|done]. pose proof (zlen_nonneg (concat gone)).
    apply segmentPath_inj in E; unfold is_u64; lia. }
  apply log_files_app in Hl as (Hl1 & Hl2 & Hl3 & _); [|done].
  apply log_files_app; [done|]. pose proof (zlen_nonneg (concat rest)). split.
  - eapply log_files_frame; [done| |exact Hl1]. intros m Hm'. apply Hm. lia.
  - split; [|by split]. eapply holds_frame; [|exact Hl2]. apply Hm. lia.
Qed.

(** The fields a commit leaves alone. *)
Lemma after_compact_fields n h sequence gone rest lastm s :
  let s' := after_compact n h sequence gone rest lastm s in
  edgeID s' = edgeID s /\ segmentBytes s' = segmentBytes s /\ maxBytes s' = maxBytes s /\
  current s' = current s /\ currentSize s' = currentSize s /\ nextSequence s' = nextSequence s /\
  sourceSequence s' = sourceSequence s /\ committed s' = sequence /\ failed s' = failed s /\
  closed s' = closed s /\ signer s' = signer s /\ lastLineageHash s' = lastLineageHash s /\
  lastSegmentRoot s' = lastSegmentRoot s /\ sealedSegments s' = sealedSegments s /\
  totalBytes s' = totalBytes s - sumZ (seg_size <$> gone).
Proof.
  unfold after_compact. destruct (gone ++ rest); [by repeat split|].
  destruct (_ <? _); by repeat split.
Qed.

Lemma checkpointed_written fs names payload sequence sources :
  checkpoint_ascii (mkCheckpoint Format checkpointVersion sequence sources) ->
  marshal_checkpoint (mkCheckpoint Format checkpointVersion sequence sources) = Some payload ->
  checkpointFile ∉ names ->
  checkpointed (remove_all names (write_checkpoint_file fs payload)) sequence sources.
Proof.
  intros Ha Hm Hn. unfold checkpointed. rewrite remove_all_lookup, decide_False by done.
  unfold write_checkpoint_file. rewrite lookup_insert_eq. cbn [data synced].
  split; [done|]. by apply decode_marshal_checkpoint.
Qed.

Lemma checkpoint_not_in_paths n log :
  Forall (fun rs => rs <> []) log -> checkpointFile ∉ seg_paths n log.
Proof. intros HF (m & E & _)%elem_of_seg_paths; [|done]. by apply checkpoint_not_segment in E. Qed.

Lemma live_commit s d n h gone rest act base sequence payload d' :
  let full := gone ++ rest in
  let lastm := meta_of (n + zlen (concat full)) (final_hash h (concat full)) act false in
  live s d n h full act base -> in_order s sequence -> new_checkpoint s sequence payload ->
  (gone <> [] -> n + zlen (concat gone) - 1 <= sequence) ->
  files d' = remove_all (seg_paths n gone) (write_checkpoint_file (files d) payload) ->
  live (after_compact n h sequence gone rest lastm s) d' (n + zlen (concat gone))
    (final_hash h (concat gone)) rest act (sourceSequence s).
Proof.
  intros full lastm L [Hseq Hlt] Hp Hg1 Hd.
  destruct (live_active _ _ _ _ _ _ _ L) as (_ & _ & _ & Hsegs & _ & _ & Hnext).
  destruct (after_compact_fields n h sequence gone rest lastm s)
    as (E1 & E2 & E3 & E4 & E5 & E6 & E7 & E8 & E9 & E10 & E11 & E12 & _ & _ & E15).
  pose proof (log_files_records _ _ _ _ _ _ (lv_files _ _ _ _ _ _ _ L)) as Hrec.
  destruct L as [L1 L2 L3 L4 L5 L6 L7 L8 L9 L10 L11 L12 L13 L14 L15 L16 L17].
  pose proof L4 as [HFg HFr]%Forall_app. pose proof (zlen_nonneg act). pose proof (zlen_nonneg (concat gone)).
  assert (concat (full ++ [act]) = concat gone ++ concat (rest ++ [act])) as Hcat by apply concat_split.
  rewrite Hcat in *. apply records_ok_app in Hrec as [Hrec _].
  split; rewrite ?E1, ?E2, ?E3, ?E4, ?E5, ?E6, ?E7, ?E8, ?E9, ?E10, ?E12, ?E15; try done.
  - destruct L1 as [? ? ? ? ? Hsig]. split; rewrite ?E1, ?E2, ?E3, ?E11; done.
  - rewrite Hd. apply (log_files_remove _ (files d)); [done|lia|unfold full in *; lia| |done].
    intros m. apply segment_lookup_checkpoint.
  - unfold after_compact. rewrite metas_app by done. cbn [metas].
    rewrite <- Z.add_assoc, <- zlen_app, <- concat_app, <- final_hash_app, <- concat_app. fold full lastm.
    destruct full eqn:Ef; [|by destruct (_ <? _)].
    apply app_nil in Ef as [-> ->]. cbn [segments set_totalBytes set_committed]. exact Hsegs.
  - rewrite L7. unfold full. by rewrite concat_app, zlen_app, Z.add_assoc.
  - rewrite L9. unfold full. rewrite <- (assoc_L (++)), !fmap_app, !sumZ_app. lia.
  - rewrite L10, zlen_app. lia.
  - rewrite L11. apply final_hash_app.
  - destruct (decide (gone = [])) as [->|Hne%Hg1]; [|lia].
    change (zlen (concat [])) with 0. lia.
  - lia.
  - eapply records_hash_ok; [exact Hrec|exact L14].
  - rewrite Hd. apply checkpointed_written; [|done|by apply checkpoint_not_in_paths].
    split; [done|]. cbn. eapply map_Forall_impl; [exact L17|]. by intros ? ? [].
  - symmetry. apply replay_fixed. intros r Hr. rewrite L16. apply replay_covers.
    apply elem_of_app. by right.
Qed.

End ops.
