(* ===== verification/WalRecovery.v ===== *)
(** * Crash recovery of the write-ahead log

    What a directory must hold for [Open] to succeed, that [Open] restores the
    invariant from it, and that every state an open store can crash in is such a
    directory. *)

From S2P Require Import Prelude GoStrings Hash Domain Disk Wire Lineage WalModel.
From S2P Require Import WalFrame WalStore WalInv WalOps.

Local Open Scope string_scope.
Local Open Scope Z_scope.
Local Open Scope list_scope.

Ltac wp_steps ::= repeat (first [wp_step | apply wp_the_store]; cbv beta).

Section recovery.
Context {ED : Ed25519} {SC : SealCodec} {WC : WalCodec} {CC : CheckpointCodec}.

(** ** The seals of a directory *)

Definition seal_path (sl : Seal) : string := sealPathForSegment (sl_Segment sl).

(** A seal on disk for the segment that starts at [n], after the root [root]. *)
Record seal_ok (edge key : string) (fs : gmap string file) (n : Z) (root : string) (sl : Seal)
  : Prop := {
  so_segment : sl_Segment sl = segmentPath n;
  so_first : sl_FirstSequence sl = n;
  so_last : n <= sl_LastSequence sl /\ sl_LastSequence sl + 1 < modulus64;
  so_previous : sl_PreviousSegmentRoot sl = root;
  so_edge : sl_EdgeID sl = edge;
  so_key : sl_KeyID sl = key;
  so_verified : VerifySeal sl None = Ok tt;
  so_file : exists f, fs !! seal_path sl = Some f /\ synced f = length (data f) /\
              decode_seal (data f) = Some sl;
}.

Fixpoint seal_chain (edge key : string) (fs : gmap string file) (n : Z) (root : string)
    (ss : list Seal) : Prop :=
  match ss with
  | [] => True
  | sl :: ss' => seal_ok edge key fs n root sl /\
                 seal_chain edge key fs (sl_LastSequence sl + 1) (sl_MerkleRoot sl) ss'
  end.

Definition seal_end (n : Z) (ss : list Seal) : Z :=
  default n ((fun sl => sl_LastSequence sl + 1) <$> last ss).
Definition seal_root (root : string) (ss : list Seal) : string :=
  default root (sl_MerkleRoot <$> last ss).
Definition seal_hash (h : string) (ss : list Seal) : string :=
  default h (sl_LastRecordHash <$> last ss).

(** Seals and the segments they were made for. *)
Fixpoint seals_match (h : string) (log : list (list WalRecord)) (ss : list Seal) : Prop :=
  match log, ss with
  | _, [] => True
  | [], _ => False
  | rs :: log', sl :: ss' =>
      (exists leaves, chain h rs (final_hash h rs) leaves /\
         verifySealAgainstRecords sl rs leaves = Ok tt) /\
      seals_match (final_hash h rs) log' ss'
  end.

(** The names in a directory that end in [suffix] are exactly these. *)
Definition listing (fs : gmap string file) (suffix : string) (names : list string) : Prop :=
  forall k, has_suffix k suffix = true -> is_Some (fs !! k) <-> k ∈ names.

(** ** A directory of the log

    The log may end in a [tail] of bytes after the last whole frame; [old] are the seals of compacted segments, [now] those of the retained log; all
    retained segments but the last are sealed. *)
Record directory (edge key : string) (fs : gmap string file) (n : Z) (h : string)
    (log : list (list WalRecord)) (tail : bytes) (c : Z) (base : gmap string Z)
    (old now : list Seal) : Prop := {
  rc_edge : blank edge = false /\ ascii_text edge = true;
  rc_files : log_files edge fs n h log tail;
  rc_full : Forall (fun rs => rs <> []) (removelast log);
  rc_seals : seal_chain edge key fs 1 "" (old ++ now);
  rc_start : n = seal_end 1 old /\ h = seal_hash "" old;
  rc_match : seals_match h log now;
  rc_sealed : (length now <= length log)%nat /\ (length log <= S (length now))%nat /\
              (length now = length log -> last log <> Some [] /\ tail = []);
  rc_fresh : log = [] -> old = [] /\ now = [];
  rc_seal_names : listing fs ".tfseal" (seal_path <$> (old ++ now));
  rc_names : listing fs ".tfwal" (seg_paths n log);
  rc_checkpoint : checkpointed fs c base;
  rc_committed : n <= c + 1 <= n + zlen (concat log) /\ n + zlen (concat log) < modulus64;
  rc_counters : map_Forall (fun k v => ascii_text k = true /\ 0 <= v < n + zlen (concat log))
                  (replay_sources base (concat log));
}.

(** ** Fault-free system calls *)

Definition quiet (d : disk) : Prop := faults d = [].

Lemma quiet_syscall d : quiet d -> syscall d = (Ok tt, d).
Proof. unfold quiet, syscall, mbind, M_mbind, next_fault. by intros ->. Qed.

Lemma quiet_read d path f :
  quiet d -> files d !! path = Some f -> os_read path d = (Ok (data f), d).
Proof.
  intros Hq Hf. unfold os_read, mbind, M_mbind. rewrite quiet_syscall by done. cbn. by rewrite Hf.
Qed.

Lemma quiet_read_none d path :
  quiet d -> files d !! path = None -> os_read path d = (Err ErrNotExist, d).
Proof.
  intros Hq Hf. unfold os_read, mbind, M_mbind. rewrite quiet_syscall by done. cbn. by rewrite Hf.
Qed.

Lemma quiet_stat d path f :
  quiet d -> files d !! path = Some f -> os_stat path d = (Ok (zlen (data f)), d).
Proof.
  intros Hq Hf. unfold os_stat, mbind, M_mbind. rewrite quiet_syscall by done. cbn. by rewrite Hf.
Qed.

Lemma quiet_scan d path rt rs :
  quiet d -> holds (files d) path rs [] ->
  scanSegment path rt d = (Ok (rs, seg_size rs, false), d).
Proof.
  intros Hq (b & f & Hf & Hd & Hi & _). rewrite app_nil_r in Hd.
  unfold scanSegment, mbind, M_mbind. rewrite (quiet_read _ _ _ Hq Hf), Hd.
  unfold lift. rewrite (scan_data_image rt rs b Hi). cbn [mret M_mret].
  rewrite (quiet_stat _ _ _ Hq Hf), Hd, zlen_app. change (zlen segmentHeader) with segmentHeaderBytes.
  by rewrite (image_size rs b Hi).
Qed.

(** Repairing a torn final frame cuts the file to its whole frames and syncs it. *)
Lemma quiet_scan_torn d path rs r p k :
  quiet d -> holds (files d) path rs (take k (frame p)) -> encodes r p ->
  (0 < k < length (frame p))%nat ->
  exists d', scanSegment path true d = (Ok (rs, seg_size rs, true), d') /\ quiet d' /\
    clock d' = clock d /\ holds (files d') path rs [] /\ agree_except [path] (files d) (files d').
Proof.
  intros Hq (b & f & Hf & Hd & Hi & _) He Hk.
  set (f' := mkFile (segmentHeader ++ b) (length (segmentHeader ++ b))).
  exists (with_files d (<[path := f']> (files d))).
  split; [|split; [done|split; [done|split]]].
  - unfold scanSegment, mbind, M_mbind. rewrite (quiet_read _ _ _ Hq Hf), Hd.
    unfold lift. rewrite (scan_data_torn rs b r p k Hi He Hk).
    unfold os_truncate, os_sync, mbind, M_mbind. rewrite quiet_syscall by done. cbv [modify].
    rewrite quiet_syscall by done.
    assert (forall g1 g2 : file -> file, g2 (g1 f) = f' ->
      alter g2 path (alter g1 path (files d)) = <[path := f']> (files d)) as Ha.
    { intros g1 g2 <-. rewrite (alter_lookup_insert g1 path f) by done.
      rewrite (alter_lookup_insert g2 path (g1 f)) by by rewrite lookup_insert_eq.
      by rewrite insert_insert_eq. }
    unfold with_files. cbn [files faults clock]. rewrite Ha.
    2: { cbn [data synced]. rewrite Hd. unfold f'.
         assert (take (Z.to_nat (segmentHeaderBytes + zlen b)) (segmentHeader ++ b ++ take k (frame p)) =
                 segmentHeader ++ b) as ->; [|done].
         rewrite (assoc_L (++)), take_app_length'; [done|]. rewrite length_app. unfold zlen.
         change (length segmentHeader) with 8%nat. change segmentHeaderBytes with 8. lia. }
    rewrite (quiet_stat _ path f') by (done || cbn; by rewrite lookup_insert_eq).
    cbn [data f']. rewrite zlen_app. change (zlen segmentHeader) with segmentHeaderBytes.
    by rewrite (image_size rs b Hi).
  - exists b, f'. cbn. rewrite lookup_insert_eq, !app_nil_r. split; [done|]. split; [done|].
    split; [done|]. lia.
  - cbn. apply agree_insert, list_elem_of_here.
Qed.

(** ** Loading the checkpoint and the seals *)

Lemma quiet_load_checkpoint s d c base :
  quiet d -> checkpointed (files d) c base -> committed s = 0 -> sourceSequence s = ∅ ->
  loadCheckpoint (s, d) = (Ok tt, (set_sourceSequence base (set_committed c s), d)).
Proof.
  intros Hq Hc Hc0 Hs0. unfold loadCheckpoint, checkpointed in *.
  unfold mbind, M_mbind, attempt, on_disk. destruct (files d !! checkpointFile) as [f|] eqn:Hf.
  - destruct Hc as [_ Hc]. rewrite (quiet_read _ _ _ Hq Hf), Hc.
    cbn [cp_Format cp_FormatVersion cp_CommittedSequence cp_SourceSequences].
    rewrite bool_decide_eq_true_2 by done. change (checkpointVersion =? checkpointVersion) with true.
    cbn [negb orb]. unfold set_state. rewrite Hs0, (right_id_L ∅ (∪)). done.
  - destruct Hc as [-> ->]. rewrite (quiet_read_none _ _ Hq Hf). cbn. destruct s; cbn in *. by subst.
Qed.

Lemma seal_chain_app edge key fs n root ss1 ss2 :
  seal_chain edge key fs n root (ss1 ++ ss2) <->
  seal_chain edge key fs n root ss1 /\
  seal_chain edge key fs (seal_end n ss1) (seal_root root ss1) ss2.
Proof.
  revert n root. induction ss1 as [|sl ss1 IH]; intros n root; cbn [app seal_chain]; [tauto|].
  rewrite IH. unfold seal_end, seal_root. rewrite last_cons. destruct (last ss1); cbn; tauto.
Qed.

Lemma quiet_load_seals s d n root ss acc :
  quiet d -> 0 <= n -> seal_chain (edgeID s) (sg_keyID (signer s)) (files d) n root ss ->
  match last acc with
  | Some previous => sl_MerkleRoot previous = root /\ u64_succ (sl_LastSequence previous) = n
  | None => root = ""
  end ->
  load_seals (seal_path <$> ss) acc (s, d) = (Ok (acc ++ ss), (s, d)).
Proof.
  intros Hq. revert n root acc. induction ss as [|sl ss IH]; intros n root acc Hn Hc Hacc.
  { cbn. by rewrite app_nil_r. }
  destruct Hc as [[Hseg Hfst Hlst Hprev Hedge Hkey Hver (f & Hf & _ & Hdec)] Hc].
  cbn [fmap list_fmap load_seals]. unfold mbind, M_mbind, on_error, on_disk, ReadSeal, mbind, M_mbind.
  rewrite (quiet_read _ _ _ Hq Hf), Hdec. cbn [mret M_mret]. unfold lift. rewrite Hver.
  cbn [the_store on_state id]. rewrite Hedge, Hkey, !bool_decide_eq_true_2 by done. cbn [negb].
  assert (load_seals (seal_path <$> ss) (acc ++ [sl]) (s, d) = (Ok (acc ++ sl :: ss), (s, d))) as Hrest.
  { rewrite (IH (sl_LastSequence sl + 1) (sl_MerkleRoot sl)); [|lia|done|].
    - by rewrite <- (assoc_L (++)).
    - rewrite last_snoc. split; [done|]. apply u64_succ_small; lia. }
  destruct (last acc) as [pr|].
  - destruct Hacc as [-> ->]. rewrite Hprev, bool_decide_eq_true_2, Hfst, Z.eqb_refl by done. exact Hrest.
  - rewrite Hprev, Hacc, bool_decide_eq_true_2 by done. exact Hrest.
Qed.

(** ** Listing numbered files *)

Lemma glob_numbered fs suffix ns :
  StronglySorted Z.lt ns -> Forall is_u64 ns ->
  listing fs suffix ((fun m => format020 m +:+ suffix) <$> ns) ->
  glob suffix fs = (fun m => format020 m +:+ suffix) <$> ns.
Proof.
  intros Hs Hu Hl. apply glob_eq.
  - clear Hl. induction Hs as [|m ns Hs IH HF]; cbn; [constructor|].
    apply Forall_cons in Hu as [Hm Hu]. constructor; [by apply IH|].
    apply Forall_fmap. rewrite Forall_forall in *. intros m' Hm'. apply (format020_le m m' suffix); [done|by apply Hu|].
    specialize (HF _ Hm'). lia.
  - apply NoDup_fmap_2_strong.
    + intros a b Ha Hb. rewrite Forall_forall in Hu. intros E.
      apply (format020_app_inj a b suffix suffix) in E as [? _]; [done|by apply Hu..].
    + clear Hl Hu. induction Hs as [|m ns Hs IH HF]; constructor; [|done].
      rewrite Forall_forall in HF. intros Hm%HF. lia.
  - intros name. split.
    + intros Hn. assert (has_suffix name suffix = true) as Hsuf.
      { apply list_elem_of_fmap in Hn as (m & -> & _). apply has_suffix_app. }
      split; [by apply Hl|done].
    + intros [H1 H2]. by apply Hl.
Qed.

Fixpoint starts (n : Z) (log : list (list WalRecord)) : list Z :=
  match log with
  | [] => []
  | rs :: log' => n :: starts (n + zlen rs) log'
  end.

Lemma seg_paths_starts n log : seg_paths n log = (fun m => format020 m +:+ ".tfwal") <$> starts n log.
Proof. revert n. induction log as [|rs log IH]; intros n; cbn; [done|]. by rewrite IH. Qed.

Lemma removelast_cons2 {A} (x y : A) l : removelast (x :: y :: l) = x :: removelast (y :: l).
Proof. done. Qed.

Lemma starts_sorted n log :
  Forall (fun rs => rs <> []) (removelast log) ->
  StronglySorted Z.lt (starts n log) /\
  Forall (fun m => n <= m <= n + zlen (concat log)) (starts n log).
Proof.
  revert n. induction log as [|rs log IH]; intros n HF; [by split; constructor|].
  cbn [starts concat]. rewrite zlen_app. pose proof (zlen_nonneg rs). pose proof (zlen_nonneg (concat log)).
  destruct log as [|rs' log].
  { split; [by repeat constructor|]. constructor; [lia|constructor]. }
  rewrite removelast_cons2 in HF. apply Forall_cons in HF as [Hne%zlen_pos HF].
  destruct (IH (n + zlen rs) HF) as [Hs Hb]. split.
  - constructor; [done|]. eapply Forall_impl; [exact Hb|]. intros m [Hm1 Hm2]. lia.
  - constructor; [lia|]. eapply Forall_impl; [exact Hb|]. intros m [Hm1 Hm2]. lia.
Qed.

Lemma glob_segments fs n log :
  Forall (fun rs => rs <> []) (removelast log) -> 0 <= n -> n + zlen (concat log) < modulus64 ->
  listing fs ".tfwal" (seg_paths n log) -> glob ".tfwal" fs = seg_paths n log.
Proof.
  intros HF Hn Hb. rewrite seg_paths_starts. destruct (starts_sorted n log HF) as [Hs Hr].
  apply glob_numbered; [done|]. eapply Forall_impl; [exact Hr|]. intros m [Hm1 Hm2]. unfold is_u64. lia.
Qed.

Lemma seal_chain_sorted edge key fs n root ss :
  seal_chain edge key fs n root ss -> 0 <= n ->
  seal_path <$> ss = (fun m => format020 m +:+ ".tfseal") <$> (sl_FirstSequence <$> ss) /\
  StronglySorted Z.lt (sl_FirstSequence <$> ss) /\
  Forall (fun m => n <= m < modulus64) (sl_FirstSequence <$> ss).
Proof.
  revert n root. induction ss as [|sl ss IH]; intros n root Hc Hn; cbn [fmap list_fmap].
  { repeat split; constructor. }
  destruct Hc as [[Hseg Hfst Hlst _ _ _ _ _] Hc]. destruct (IH _ _ Hc ltac:(lia)) as (-> & Hs & Hr).
  split; [|split].
  - f_equal. unfold seal_path. by rewrite Hseg, sealPath_eq, Hfst.
  - constructor; [done|]. eapply Forall_impl; [exact Hr|]. intros m [Hm1 Hm2]. lia.
  - constructor; [lia|]. eapply Forall_impl; [exact Hr|]. intros m [Hm1 Hm2]. lia.
Qed.

Lemma quiet_loadSealChain s d ss :
  quiet d -> seal_chain (edgeID s) (sg_keyID (signer s)) (files d) 1 "" ss ->
  listing (files d) ".tfseal" (seal_path <$> ss) -> loadSealChain (s, d) = (Ok ss, (s, d)).
Proof.
  intros Hq Hc Hl. unfold loadSealChain, list_dir, mbind, M_mbind.
  destruct (seal_chain_sorted _ _ _ _ _ _ Hc ltac:(lia)) as (Hp & Hs & Hr).
  rewrite Hp in Hl. rewrite (glob_numbered _ _ _ Hs) by (done || (eapply Forall_impl; [exact Hr|];
    intros m [Hm1 Hm2]; unfold is_u64; lia)).
  rewrite <- Hp. by rewrite (quiet_load_seals s d 1 "" ss []).
Qed.

(** ** The recovery anchor *)

Lemma segmentSequence_path n : is_u64 n -> n <> 0 -> segmentSequence (segmentPath n) = Ok n.
Proof.
  intros Hu Hn. unfold segmentSequence, segmentPath, filepath_ext.
  rewrite (ext_go_app (format020 n) ".tfwal" ".tfwal") by reflexivity. cbn [default from_option id].
  rewrite trim_suffix_app, parse_format020 by done. by destruct (Z.eqb_spec n 0).
Qed.

Lemma seal_chain_bounds edge key fs n root ss sl :
  seal_chain edge key fs n root ss -> sl ∈ ss ->
  n <= sl_LastSequence sl /\ sl_LastSequence sl + 1 <= seal_end n ss.
Proof.
  assert (forall ss n root, seal_chain edge key fs n root ss -> n <= seal_end n ss) as Hend.
  { clear. induction ss as [|sl ss IH]; intros n root Hc; [done|].
    destruct Hc as [[_ _ Hl _ _ _ _ _] Hc]. apply IH in Hc. unfold seal_end in *. rewrite last_cons.
    destruct (last ss); cbn in *; lia. }
  revert n root. induction ss as [|sl' ss IH]; intros n root Hc Hsl; [by apply not_elem_of_nil in Hsl|].
  pose proof Hc as [[_ _ Hl _ _ _ _ _] Hc'].
  assert (seal_end n (sl' :: ss) = seal_end (sl_LastSequence sl' + 1) ss) as ->.
  { unfold seal_end. rewrite last_cons. by destruct (last ss). }
  apply elem_of_cons in Hsl as [->|Hsl].
  - apply Hend in Hc'. lia.
  - destruct (IH _ _ Hc' Hsl). lia.
Qed.

Lemma foldl_anchor_old m a old :
  Forall (fun sl => sl_LastSequence sl < m) old ->
  foldl (fun a seal => if sl_LastSequence seal <? m then anchor_seal a seal else a) a old =
  match last old with
  | None => a
  | Some sl => mkAnchor (sl_LastSequence sl) (sl_LastRecordHash sl) (sl_MerkleRoot sl)
                 (an_count a + zlen old)
  end.
Proof.
  revert a. induction old as [|sl old IH]; intros a HF; [done|].
  apply Forall_cons in HF as [Hsl HF]. cbn [foldl]. rewrite (proj2 (Z.ltb_lt _ _) Hsl), IH by done.
  rewrite last_cons, zlen_cons. destruct old as [|x old]; [done|].
  destruct (last (x :: old)) eqn:E; [cbn; f_equal; lia|]. by apply last_None in E.
Qed.

Lemma foldl_anchor_now m a now :
  Forall (fun sl => m <= sl_LastSequence sl) now ->
  foldl (fun a seal => if sl_LastSequence seal <? m then anchor_seal a seal else a) a now = a.
Proof.
  induction 1 as [|sl now Hsl HF IH]; [done|]. cbn [foldl]. by rewrite (proj2 (Z.ltb_ge _ _) Hsl).
Qed.

Lemma recovery_anchor_eq edge key fs n log old now :
  seal_chain edge key fs 1 "" (old ++ now) -> n = seal_end 1 old -> is_u64 n ->
  (log = [] -> old = [] /\ now = []) ->
  recovery_anchor (seg_paths n log) (old ++ now) =
  Ok (mkAnchor (n - 1) (seal_hash "" old) (seal_root "" old) (zlen old)).
Proof.
  intros Hc Hn Hu Hlog. pose proof Hc as [Hold Hnow]%seal_chain_app. rewrite <- Hn in Hnow.
  destruct log as [|rs log].
  { destruct (Hlog eq_refl) as [-> ->]. by subst n. }
  assert (0 < n) as Hpos.
  { subst n. destruct (last old) as [sl|] eqn:E; [|unfold seal_end; by rewrite E].
    assert (sl ∈ old) as Hin by (by apply last_Some_elem_of).
    pose proof (seal_chain_bounds _ _ _ _ _ _ _ Hold Hin). lia. }
  cbn [seg_paths recovery_anchor]. rewrite segmentSequence_path by (done || lia). cbn.
  f_equal. rewrite foldl_app, (foldl_anchor_now n _ now), (foldl_anchor_old n _ old).
  - unfold seal_hash, seal_root. destruct (last old) as [sl|] eqn:E; cbn [an_count fmap option_fmap option_map default from_option id].
    + assert (n = sl_LastSequence sl + 1) as -> by (subst n; unfold seal_end; by rewrite E). f_equal; lia.
    + apply last_None in E as ->. by subst n.
  - apply Forall_forall. intros sl Hsl. destruct (seal_chain_bounds _ _ _ _ _ _ _ Hold Hsl). lia.
  - apply Forall_forall. intros sl Hsl. by apply (seal_chain_bounds _ _ _ _ _ _ _ Hnow).
Qed.

(** ** Recovering segments *)

Lemma recover_records_eq edge n rs f l m :
  numbered n rs -> Forall (own edge) rs -> 0 < n -> n + zlen rs <= modulus64 ->
  recover_records edge rs (mkReplay (n - 1) f l m) =
  Ok (mkReplay (n - 1 + zlen rs)
        (if f =? 0 then if zlen rs =? 0 then 0 else n else f)
        (if zlen rs =? 0 then l else n + zlen rs - 1) (replay_sources m rs)).
Proof.
  revert n f l m. induction rs as [|r rs IH]; intros n f l m Hn Ho Hpos Hb; cbn [recover_records].
  { change (zlen []) with 0. rewrite Z.add_0_r. cbn. destruct (Z.eqb_spec f 0) as [->|]; done. }
  destruct Hn as [Hr Hn]. apply Forall_cons in Ho as [[He _] Ho]. rewrite zlen_cons in *.
  pose proof (zlen_nonneg rs) as Hz. rewrite He, bool_decide_eq_true_2 by done. cbn [negb rp_previous].
  rewrite u64_succ_small by lia. replace (n - 1 + 1) with n by lia. rewrite Hr, Z.eqb_refl, andb_false_r.
  cbn [rp_first rp_sources]. replace n with (n + 1 - 1) at 1 by lia. rewrite IH by (done || lia).
  destruct (Z.eqb_spec (1 + zlen rs) 0); [lia|].
  destruct (Z.eqb_spec f 0) as [->|Hf]; [destruct (Z.eqb_spec n 0); [lia|]|rewrite (proj2 (Z.eqb_neq _ _) Hf)];
    f_equal; f_equal; try lia; destruct (Z.eqb_spec (zlen rs) 0); lia.
Qed.

Lemma chain_det h rs f1 l1 f2 l2 : chain h rs f1 l1 -> chain h rs f2 l2 -> f1 = f2 /\ l1 = l2.
Proof.
  intros H. revert f2 l2. induction H as [h|h r rs dg final ds Hv Hp Hd Hc IH]; intros f2 l2 H2;
    inversion H2 as [|? ? ? dg' ? ds' Hv' Hp' Hd' Hc']; subst; [done|].
  assert (dg = dg') as <- by congruence. by destruct (IH _ _ Hc') as [-> ->].
Qed.

(** The store after one segment has been read back. *)
Definition restored (s : Store) (n : Z) (h : string) (rs : list WalRecord) (seal : option Seal) : Store :=
  set_segments (segments s ++ [meta_of n h rs (match seal with Some _ => true | None => false end)])
    (set_totalBytes (totalBytes s + seg_size rs)
      (set_lineage (final_hash h rs)
         (match seal with Some sl => sl_MerkleRoot sl | None => lastSegmentRoot s end)
         (match seal with Some _ => sealedSegments s + 1 | None => sealedSegments s end)
         (set_sourceSequence (replay_sources (sourceSequence s) rs) s))).

Definition seal_fits (s : Store) (h : string) (rs : list WalRecord) (sl : Seal) : Prop :=
  sl_KeyID sl = sg_keyID (signer s) /\ sl_PreviousSegmentRoot sl = lastSegmentRoot s /\
  exists leaves, chain h rs (final_hash h rs) leaves /\ verifySealAgainstRecords sl rs leaves = Ok tt.

Lemma wp_recover_segment seals n h rs s d isLast cutoff d' Q :
  scanSegment (segmentPath n) isLast d = (Ok (rs, seg_size rs, cutoff), d') ->
  records_ok (edgeID s) n h rs -> lastLineageHash s = h -> hash_ok h ->
  0 < n -> n + zlen rs <= modulus64 ->
  (forall sl, seals !! segmentPath n = Some sl -> seal_fits s h rs sl) ->
  Q (Ok (n - 1 + zlen rs)) (restored s n h rs (seals !! segmentPath n), d') ->
  wp (recover_segment seals (segmentPath n) isLast (n - 1)) Q (s, d).
Proof.
  intros Hscan (Hnum & Ho & leaves & Hc) Hh Hok Hpos Hb Hfit HQ.
  unfold recover_segment. wp_steps. eapply wp_intro; [exact Hscan|]. wp_steps.
  rewrite recover_records_eq by done. wp_steps. rewrite Hh, (VerifyRecordChain_complete _ _ _ _ Hok Hc).
  wp_steps. cbn [rp_sources rp_first rp_last rp_previous]. change (0 =? 0) with true. cbv iota.
  set (s1 := set_sourceSequence (replay_sources (sourceSequence s) rs) s).
  assert (forall P, P (Ok tt) (set_lineage (final_hash h rs) (lastSegmentRoot s) (sealedSegments s) s1, d') ->
    wp (match rs with [] => mret tt | _ => set_state (fun s => set_lineage (final_hash h rs)
          (lastSegmentRoot s) (sealedSegments s) s) end) P (s1, d')) as Hset.
  { intros P HP. destruct rs; [|done]. apply wp_ret. unfold final_hash in HP; cbn in HP.
    rewrite <- Hh in HP. unfold s1 in *. by destruct s. }
  apply Hset. wp_steps. destruct (seals !! segmentPath n) as [sl|]; wp_steps.
  - destruct (Hfit sl eq_refl) as (Hkey & Hprev & leaves' & Hc' & Hver).
    destruct (chain_det _ _ _ _ _ _ Hc Hc') as [_ <-].
    cbn [signer lastSegmentRoot set_lineage set_sourceSequence s1].
    rewrite Hkey, Hprev, !bool_decide_eq_true_2 by done. cbn [negb]. wp_steps. rewrite Hver. wp_steps.
    exact HQ.
  - exact HQ.
Qed.

Fixpoint restored_log (s : Store) (n : Z) (h : string) (log : list (list WalRecord)) (now : list Seal)
  : Store :=
  match log with
  | [] => s
  | rs :: log' =>
      restored_log (restored s n h rs (head now)) (n + zlen rs) (final_hash h rs) log' (tail now)
  end.

Fixpoint seals_at (seals : gmap string Seal) (n : Z) (log : list (list WalRecord)) (now : list Seal)
  : Prop :=
  match log with
  | [] => True
  | rs :: log' => seals !! segmentPath n = head now /\ seals_at seals (n + zlen rs) log' (tail now)
  end.

Lemma verify_seal_last sl n rs leaves :
  verifySealAgainstRecords sl rs leaves = Ok tt -> numbered n rs ->
  sl_LastSequence sl = n + zlen rs - 1.
Proof.
  unfold verifySealAgainstRecords. destruct rs as [|r rs]; [done|]. destruct leaves; [done|].
  intros H Hn. destruct (MerkleRoot _); [|done]. cbn in H.
  destruct (_ || _) eqn:G in H; [done|]. guards. destruct (numbered_ends _ _ _ Hn) as [_ E]. congruence.
Qed.

Definition tail_ok (tail : bytes) : Prop :=
  tail = [] \/ exists r p k, encodes r p /\ (0 < k < length (frame p))%nat /\ tail = take k (frame p).

Lemma quiet_scan_tail d path rs tail :
  quiet d -> tail_ok tail -> holds (files d) path rs tail ->
  exists d' cutoff, scanSegment path true d = (Ok (rs, seg_size rs, cutoff), d') /\ quiet d' /\
    clock d' = clock d /\ holds (files d') path rs [] /\ agree_except [path] (files d) (files d').
Proof.
  intros Hq [->|(r & p & k & He & Hk & ->)] Hh.
  - exists d, false. split; [by apply quiet_scan|]. by repeat split.
  - destruct (quiet_scan_torn d path rs r p k) as (d' & H); [done..|]. by exists d', true.
Qed.

Lemma seg_paths_above m n log :
  Forall (fun rs => rs <> []) (removelast log) -> 0 <= m -> m < n -> n + zlen (concat log) < modulus64 ->
  segmentPath m ∉ seg_paths n log.
Proof.
  intros HF Hm Hlt Hb. rewrite seg_paths_starts. intros (k & E & Hk)%list_elem_of_fmap.
  destruct (starts_sorted n log HF) as [_ Hr]. rewrite Forall_forall in Hr. destruct (Hr _ Hk).
  apply (segmentPath_inj m k) in E; unfold is_u64; lia.
Qed.

Lemma wp_recover_segments seals edge key n h root log now tail s d Q :
  quiet d -> edgeID s = edge -> sg_keyID (signer s) = key -> lastLineageHash s = h ->
  lastSegmentRoot s = root -> hash_ok h -> 0 < n -> n + zlen (concat log) < modulus64 ->
  Forall (fun rs => rs <> []) (removelast log) -> tail_ok tail ->
  log_files edge (files d) n h log tail -> seal_chain edge key (files d) n root now ->
  seals_match h log now -> seals_at seals n log now ->
  (forall d', quiet d' -> clock d' = clock d -> log_files edge (files d') n h log [] ->
     agree_except (seg_paths n log) (files d) (files d') ->
     Q (Ok (n - 1 + zlen (concat log))) (restored_log s n h log now, d')) ->
  wp (recover_segments seals (seg_paths n log) (n - 1)) Q (s, d).
Proof.
  intros Hq He Hk. revert n h root now s d He Hk Hq.
  induction log as [|rs log IH]; intros n h root now s d He Hk Hq Hh Hroot Hok Hpos Hb HF Ht Hl Hc Hm Ha HQ.
  { cbn [seg_paths recover_segments]. wp_steps. change (zlen (concat [])) with 0 in HQ.
    rewrite Z.add_0_r in HQ. by apply HQ. }
  cbn [seg_paths recover_segments concat log_files seals_at] in *. destruct Hl as (Hfile & Hrec & Hl).
  destruct Ha as [Ha0 Ha]. rewrite zlen_app in *. pose proof (zlen_nonneg (concat log)) as Hz.
  assert (forall sl, head now = Some sl -> seal_fits s h rs sl) as Hfit.
  { intros sl Hsl. destruct now as [|sl' now]; [done|]. injection Hsl as ->.
    destruct Hc as [Hs _], Hm as [Hm _]. split; [by rewrite (so_key _ _ _ _ _ _ Hs)|].
    split; [by rewrite (so_previous _ _ _ _ _ _ Hs)|done]. }
  assert (exists root', lastSegmentRoot (restored s n h rs (head now)) = root' /\
            seal_chain edge key (files d) (n + zlen rs) root' (list.tail now) /\
            seals_match (final_hash h rs) log (list.tail now)) as (root' & Hroot' & Hc' & Hm').
  { destruct now as [|sl now]; cbn; [by exists root; destruct log|]. exists (sl_MerkleRoot sl).
    destruct Hm as [(leaves & _ & Hv) Hm]. destruct Hc as [_ Hc].
    rewrite (verify_seal_last _ n _ _ Hv) in Hc by apply Hrec. replace (n + zlen rs - 1 + 1) with (n + zlen rs) in Hc by lia.
    done. }
  wp_steps. destruct log as [|rs' log].
  - destruct (quiet_scan_tail _ _ _ _ Hq Ht Hfile) as (d' & cutoff & Hscan & Hq' & Hclk & Hh' & Hag).
    eapply wp_recover_segment; [exact Hscan|by rewrite He|done|done|done|lia|by rewrite Ha0|].
    rewrite Ha0. cbn [recover_segments seg_paths]. wp_steps. change (zlen (concat [])) with 0 in HQ.
    rewrite Z.add_0_r in HQ. by apply HQ.
  - rewrite removelast_cons2 in HF. apply Forall_cons in HF as [Hne%zlen_pos HF].
    eapply wp_recover_segment; [by apply quiet_scan|by rewrite He|done|done|done|lia|by rewrite Ha0|].
    rewrite Ha0. wp_steps. replace (n - 1 + zlen rs) with (n + zlen rs - 1) by lia.
    eapply (IH (n + zlen rs) (final_hash h rs) root' (list.tail now)); try done; try lia.
    + by eapply records_hash_ok.
    + intros d' Hq' Hclk Hl' Hag. rewrite Z.add_assoc in HQ.
      replace (n - 1 + zlen rs) with (n + zlen rs - 1) in HQ by lia. apply HQ; [done|done| |].
      * split; [|by split]. eapply holds_frame; [|exact Hfile]. apply Hag.
        apply seg_paths_above; [done|lia..].
      * intros k Hk'. apply Hag. intros Hin. apply Hk'. by right.
Qed.

Lemma restored_log_fields s n h log now :
  lastLineageHash s = h -> (length now <= length log)%nat -> (length log <= S (length now))%nat ->
  let s' := restored_log s n h log now in
  edgeID s' = edgeID s /\ segmentBytes s' = segmentBytes s /\ maxBytes s' = maxBytes s /\
  committed s' = committed s /\ nextSequence s' = nextSequence s /\ failed s' = failed s /\
  pressure s' = pressure s /\ closed s' = closed s /\ signer s' = signer s /\
  segments s' = segments s ++ metas n h log (bool_decide (length now = length log)) /\
  totalBytes s' = totalBytes s + sumZ (seg_size <$> log) /\
  sourceSequence s' = replay_sources (sourceSequence s) (concat log) /\
  lastLineageHash s' = final_hash h (concat log) /\
  lastSegmentRoot s' = seal_root (lastSegmentRoot s) now /\
  sealedSegments s' = sealedSegments s + zlen now.
Proof.
  revert s n h now. induction log as [|rs log IH]; intros s n h now Hh Hl1 Hl2.
  { destruct now; [|cbn in Hl1; lia]. cbn -[zlen sumZ]. rewrite app_nil_r, !Z.add_0_r. by repeat split. }
  cbn [restored_log metas concat fmap list_fmap].
  assert ((length (list.tail now) <= length log)%nat /\ (length log <= S (length (list.tail now)))%nat) as [H1 H2].
  { destruct now; cbn in *; lia. }
  specialize (IH (restored s n h rs (head now)) (n + zlen rs) (final_hash h rs) (list.tail now) eq_refl H1 H2).
  cbv zeta in *. destruct IH as (-> & -> & -> & -> & -> & -> & -> & -> & -> & -> & -> & -> & -> & -> & ->).
  cbn [restored set_segments set_totalBytes set_lineage set_sourceSequence edgeID segmentBytes maxBytes
    committed nextSequence failed pressure closed signer segments totalBytes sourceSequence lastLineageHash
    lastSegmentRoot sealedSegments].
  do 9 (split; [done|]). repeat split.
  - rewrite <- (assoc_L (++)). f_equal. cbn [app]. f_equal.
    + f_equal. destruct log, now as [|? []]; cbn in *; try done; lia.
    + destruct log as [|rs' log]; [done|]. destruct now as [|sl now]; [cbn in *; lia|].
      f_equal. apply bool_decide_ext. cbn. lia.
  - unfold sumZ. cbn. lia.
  - unfold replay_sources. by rewrite foldl_app.
  - by rewrite final_hash_app.
  - unfold seal_root. destruct now as [|sl now]; cbn; [done|]. rewrite last_cons. by destruct (last now).
  - destruct now as [|sl now]; cbn [head list.tail]; [done|]. rewrite zlen_cons. lia.
Qed.

(** ** The seals by segment *)

Definition seal_map (ss : list Seal) : gmap string Seal :=
  foldl (fun m seal => <[sl_Segment seal := seal]> m) ∅ ss.

Lemma seal_map_snoc ss sl : seal_map (ss ++ [sl]) = <[sl_Segment sl := sl]> (seal_map ss).
Proof. unfold seal_map. by rewrite foldl_app. Qed.

Lemma seal_map_none ss k : Forall (fun sl => sl_Segment sl <> k) ss -> seal_map ss !! k = None.
Proof.
  induction ss as [|sl ss IH] using rev_ind; intros HF; [apply lookup_empty|].
  apply Forall_app in HF as [HF [Hne _]%Forall_cons]. rewrite seal_map_snoc, lookup_insert_ne by done. auto.
Qed.

Lemma seal_map_last ss sl ss' :
  Forall (fun sl' => sl_Segment sl' <> sl_Segment sl) ss' ->
  seal_map (ss ++ sl :: ss') !! sl_Segment sl = Some sl.
Proof.
  induction ss' as [|sl' ss' IH] using rev_ind; intros HF.
  { by rewrite seal_map_snoc, lookup_insert_eq. }
  apply Forall_app in HF as [HF [Hne _]%Forall_cons].
  replace (ss ++ sl :: ss' ++ [sl']) with ((ss ++ sl :: ss') ++ [sl']) by (by rewrite <- (assoc_L (++))).
  rewrite seal_map_snoc, lookup_insert_ne by done. auto.
Qed.

Lemma seal_chain_segments edge key fs n root ss m :
  seal_chain edge key fs n root ss -> 0 <= n -> 0 <= m < n -> m < modulus64 ->
  Forall (fun sl => sl_Segment sl <> segmentPath m) ss.
Proof.
  revert n root. induction ss as [|sl ss IH]; intros n root Hc Hn Hm Hb; constructor.
  - destruct Hc as [[Hseg _ Hl _ _ _ _ _] _]. rewrite Hseg.
    intros E%segmentPath_inj; unfold is_u64; lia.
  - destruct Hc as [[_ _ Hl _ _ _ _ _] Hc]. apply (IH _ _ Hc); lia.
Qed.

Lemma seals_at_map edge key fs n h root log now pre tail fs' :
  Forall (fun sl => exists m, sl_Segment sl = segmentPath m /\ 0 <= m < n) pre ->
  0 <= n -> n + zlen (concat log) < modulus64 ->
  (length log <= S (length now))%nat -> log_files edge fs' n h log tail ->
  seal_chain edge key fs n root now -> seals_match h log now ->
  seals_at (seal_map (pre ++ now)) n log now.
Proof.
  revert n h root now pre. induction log as [|rs log IH]; intros n h root now pre Hpre Hn Hb Hlen Hl Hc Hm; [done|].
  cbn [seals_at concat log_files] in *. rewrite zlen_app in Hb. pose proof (zlen_nonneg (concat log)).
  pose proof (zlen_nonneg rs). destruct Hl as (_ & Hrec & Hl). destruct now as [|sl now].
  - cbn in Hlen. destruct log; [|cbn in Hlen; lia]. split; [|done]. rewrite app_nil_r.
    apply seal_map_none. eapply Forall_impl; [exact Hpre|]. intros sl (m & -> & Hlt).
    intros E%segmentPath_inj; unfold is_u64; lia.
  - destruct Hc as [Hs Hc], Hm as [(leaves & _ & Hv) Hm].
    pose proof (verify_seal_last _ n _ _ Hv (proj1 Hrec)) as Hlast. destruct (so_last _ _ _ _ _ _ Hs) as [Hle _].
    rewrite Hlast in Hc. replace (n + zlen rs - 1 + 1) with (n + zlen rs) in Hc by lia. cbn [head list.tail]. split.
    + rewrite <- (so_segment _ _ _ _ _ _ Hs). apply seal_map_last. rewrite (so_segment _ _ _ _ _ _ Hs).
      eapply seal_chain_segments; [exact Hc|lia..].
    + replace (pre ++ sl :: now) with ((pre ++ [sl]) ++ now) by (by rewrite <- (assoc_L (++))).
      eapply IH; try done; try lia; [|cbn in Hlen; lia]. apply Forall_app. split.
      * eapply Forall_impl; [exact Hpre|]. intros sl' (m & -> & Hlt). exists m. split; [done|lia].
      * constructor; [|constructor]. exists n. split; [apply Hs|lia].
Qed.

Lemma seal_chain_segment edge key fs n root ss sl :
  seal_chain edge key fs n root ss -> 0 <= n -> sl ∈ ss ->
  exists m, sl_Segment sl = segmentPath m /\ 0 <= m <= sl_LastSequence sl.
Proof.
  revert n root. induction ss as [|sl' ss IH]; intros n root Hc Hn Hsl; [by apply not_elem_of_nil in Hsl|].
  destruct Hc as [[Hseg _ Hl _ _ _ _ _] Hc]. apply elem_of_cons in Hsl as [->|Hsl].
  - exists n. split; [done|lia].
  - eapply (IH (sl_LastSequence sl' + 1)); [exact Hc|lia|done].
Qed.

Lemma seal_chain_starts edge key fs n root ss :
  seal_chain edge key fs n root ss -> 0 <= n ->
  Forall (fun sl => exists m, sl_Segment sl = segmentPath m /\ 0 <= m < seal_end n ss) ss.
Proof.
  intros Hc Hn. apply Forall_forall. intros sl Hsl.
  destruct (seal_chain_bounds _ _ _ _ _ _ _ Hc Hsl) as [_ Hend].
  destruct (seal_chain_segment _ _ _ _ _ _ _ Hc Hn Hsl) as (m & Hm & Hr). exists m. split; [done|lia].
Qed.

(** ** Directory frame lemmas *)

Lemma seal_chain_frame edge key fs fs' n root ss :
  (forall m f, fs !! sealPathForSegment (segmentPath m) = Some f ->
     fs' !! sealPathForSegment (segmentPath m) = Some f) ->
  seal_chain edge key fs n root ss -> seal_chain edge key fs' n root ss.
Proof.
  intros Ha. revert n root. induction ss as [|sl ss IH]; intros n root; [done|].
  intros [[H1 H2 H3 H4 H5 H6 H7 (f & Hf & Hs & Hd)] Hc]. split; [|by apply IH].
  split; try done. exists f. split; [|done]. unfold seal_path in *. rewrite H1 in *. by apply Ha.
Qed.

Lemma log_files_exist edge fs n h log tail k :
  log_files edge fs n h log tail -> k ∈ seg_paths n log -> is_Some (fs !! k).
Proof.
  revert n h. induction log as [|rs log IH]; intros n h Hl Hk; cbn in *; [by apply not_elem_of_nil in Hk|].
  destruct Hl as ((b & f & Hf & _) & _ & Hl). apply elem_of_cons in Hk as [->|Hk]; eauto.
Qed.

Lemma listing_same fs fs' suffix names :
  (forall k, has_suffix k suffix = true -> is_Some (fs' !! k) <-> is_Some (fs !! k)) ->
  listing fs suffix names -> listing fs' suffix names.
Proof. intros Ha Hl k Hk. rewrite (Ha k Hk). by apply Hl. Qed.

Lemma listing_insert_other fs suffix names k f :
  has_suffix k suffix = false -> listing fs suffix names -> listing (<[k := f]> fs) suffix names.
Proof.
  intros Hk. apply listing_same. intros k' Hk'. rewrite lookup_insert_ne; [done|]. intros ->. congruence.
Qed.

Lemma listing_delete_other fs suffix names k :
  has_suffix k suffix = false -> listing fs suffix names -> listing (delete k fs) suffix names.
Proof.
  intros Hk. apply listing_same. intros k' Hk'. rewrite lookup_delete_ne; [done|]. intros ->. congruence.
Qed.

Lemma listing_insert fs suffix names k f :
  listing fs suffix names -> listing (<[k := f]> fs) suffix (names ++ [k]).
Proof.
  intros Hl k' Hk'. rewrite elem_of_app, elem_of_cons. destruct (decide (k' = k)) as [->|Hne].
  - rewrite lookup_insert_eq. split; [tauto|]. by eexists.
  - rewrite lookup_insert_ne by done. rewrite (Hl k' Hk'). split; [tauto|]. intros [?|[?|?%not_elem_of_nil]]; done.
Qed.

Lemma wal_not_seal_suffix a : has_suffix (a +:+ ".tfwal") ".tfseal" = false.
Proof. unfold has_suffix. rewrite string_rev_app. reflexivity. Qed.

Lemma seal_not_wal_suffix a : has_suffix (a +:+ ".tfseal") ".tfwal" = false.
Proof. unfold has_suffix. rewrite string_rev_app. reflexivity. Qed.

Lemma tmp_no_suffix a s :
  s = ".tfwal" \/ s = ".tfseal" -> has_suffix (a +:+ ".tmp") s = false.
Proof. intros [-> | ->]; unfold has_suffix; rewrite string_rev_app; reflexivity. Qed.

Lemma checkpoint_no_suffix s :
  s = ".tfwal" \/ s = ".tfseal" -> has_suffix checkpointFile s = false.
Proof. intros [-> | ->]; reflexivity. Qed.

Lemma segment_has_suffix n : has_suffix (segmentPath n) ".tfwal" = true.
Proof. exact (has_suffix_app (format020 n) ".tfwal"). Qed.

(** ** Restarting *)

Lemma seal_predecessors_sealed segs acc s d :
  Forall (fun m => sm_sealed m = true) (removelast segs) ->
  seal_predecessors segs acc (s, d) = (Ok (acc ++ segs), (s, d)).
Proof.
  revert acc. induction segs as [|m segs IH]; intros acc HF; [by rewrite app_nil_r|].
  destruct segs as [|m' segs]; [done|]. rewrite removelast_cons2 in HF. apply Forall_cons in HF as [Hm HF].
  change (seal_predecessors (m :: m' :: segs) acc) with
    (meta' ← (if negb (sm_recordCount m =? 0) && negb (sm_sealed m) then sealSegment m else mret m);
     seal_predecessors (m' :: segs) (acc ++ [meta'])).
  rewrite Hm, andb_false_r. unfold mbind, M_mbind, mret, M_mret. rewrite IH by done.
  by rewrite <- (assoc_L (++)).
Qed.

Lemma metas_sealed n h log sealed :
  Forall (fun m => sm_sealed m = true) (removelast (metas n h log sealed)).
Proof.
  revert n h. induction log as [|rs [|rs' log] IH]; intros n h; [constructor..|].
  cbn [metas] in *. rewrite removelast_cons2. constructor; [done|apply IH].
Qed.

(** What else an open store's directory holds: the chain of seals behind it. *)
Record tidy (s : Store) (fs : gmap string file) (n : Z) (h : string) (full : list (list WalRecord))
    (act : list WalRecord) (old now : list Seal) : Prop := {
  td_seals : seal_chain (edgeID s) (sg_keyID (signer s)) fs 1 "" (old ++ now);
  td_start : n = seal_end 1 old /\ h = seal_hash "" old;
  td_match : seals_match h full now;
  td_length : length now = length full;
  td_root : lastSegmentRoot s = seal_root "" (old ++ now);
  td_count : sealedSegments s = zlen (old ++ now);
  td_seal_names : listing fs ".tfseal" (seal_path <$> (old ++ now));
  td_names : listing fs ".tfwal" (seg_paths n (full ++ [act]));
}.

Lemma wp_list_dir suffix (Q : result (list string) -> Store * disk -> Prop) s d :
  Q (Ok (glob suffix (files d))) (s, d) -> wp (list_dir suffix) Q (s, d).
Proof. done. Qed.

Lemma not_legacy edge rs :
  Forall (own edge) rs -> existsb (fun r => r_FormatVersion r =? LegacyVersion) rs = false.
Proof. induction 1 as [|r rs [_ Hv] _ IH]; [done|]. cbn. rewrite Hv. exact IH. Qed.

Lemma recovered_next_eq s previous next :
  next = previous + 1 -> nextSequence s = 1 -> 0 <= previous -> committed s < next -> next < modulus64 ->
  recovered_next s previous = set_nextSequence next s.
Proof.
  intros -> Hn Hp Hc Hb. unfold recovered_next. rewrite u64_succ_small by lia.
  destruct (Z.ltb_spec 0 previous).
  - cbn [nextSequence committed set_nextSequence]. by rewrite (proj2 (Z.leb_gt _ _)) by lia.
  - assert (previous = 0) as -> by lia. rewrite Hn, (proj2 (Z.leb_gt _ _)) by lia.
    destruct s; cbn in *. by subst.
Qed.

Definition reopened (n : Z) (rs : list WalRecord) (s : Store) : Store :=
  set_currentSize (seg_size rs) (set_current (Some (segmentPath n)) s).

(** Reopening the last segment, or starting a fresh one after a sealed one. *)
Lemma wp_recover_active pre rs n h sealed s d Q :
  let start := n + zlen (concat pre) in
  quiet d -> segments s = metas n h (pre ++ [rs]) sealed ->
  holds (files d) (segmentPath start) rs [] -> Forall (own (edgeID s)) rs ->
  (sealed = true -> files d !! segmentPath (nextSequence s) = None) ->
  (sealed = false -> Q (Ok tt) (reopened start rs s, d)) ->
  (sealed = true -> forall d', quiet d' ->
     files d' = <[segmentPath (nextSequence s) := mkFile segmentHeader 8]> (files d) ->
     clock d' = clock d -> Q (Ok tt) (open_segment (nextSequence s) s, d')) ->
  wp recover_active Q (s, d).
Proof.
  intros start Hq Hs Hh Ho Hnone HQ1 HQ2. unfold recover_active. wp_steps.
  eapply wp_intro; [apply seal_predecessors_sealed; rewrite Hs; apply metas_sealed|]. wp_steps. cbn [app].
  assert (set_segments (segments s) s = s) as -> by (by destruct s).
  rewrite Hs, metas_app, last_app by done. cbn [metas last]. wp_steps. fold start.
  eapply wp_intro; [by apply quiet_scan|]. wp_steps. rewrite (not_legacy _ _ Ho). cbn [andb].
  rewrite orb_false_r. cbn [meta_of sm_sealed sm_size sm_path]. destruct sealed; wp_steps.
  - apply wp_createSegment; [auto| |].
    + intros d' F [C S]. apply HQ2; [done|by apply S|done|done].
    + intros e d' _ _ N. done.
  - eapply wp_intro; [by apply quiet_syscall|]. wp_steps. by apply HQ1.
Qed.

(** The store [recover] has before it picks its active segment. *)
Record read_back (s : Store) (d : disk) (n : Z) (h : string) (log : list (list WalRecord)) (c : Z)
    (base : gmap string Z) (old now : list Seal) : Prop := {
  rb_settings : settings s;
  rb_closed : closed s = false;
  rb_failed : failed s = None;
  rb_files : log_files (edgeID s) (files d) n h log [];
  rb_segments : segments s = metas n h log (bool_decide (length now = length log));
  rb_total : totalBytes s = sumZ (seg_size <$> log);
  rb_next : nextSequence s = n + zlen (concat log);
  rb_hash : lastLineageHash s = final_hash h (concat log);
  rb_root : lastSegmentRoot s = seal_root "" (old ++ now);
  rb_count : sealedSegments s = zlen (old ++ now);
  rb_committed : committed s = c /\ 0 < n <= c + 1 /\ c < nextSequence s < modulus64;
  rb_anchor : hash_ok h;
  rb_checkpoint : checkpointed (files d) c base;
  rb_sources : sourceSequence s = replay_sources base (concat log);
  rb_counters : map_Forall (fun k v => ascii_text k = true /\ 0 <= v < nextSequence s) (sourceSequence s);
  rb_seals : seal_chain (edgeID s) (sg_keyID (signer s)) (files d) 1 "" (old ++ now);
  rb_start : n = seal_end 1 old /\ h = seal_hash "" old;
  rb_match : seals_match h log now;
  rb_seal_names : listing (files d) ".tfseal" (seal_path <$> (old ++ now));
  rb_names : listing (files d) ".tfwal" (seg_paths n log);
}.

Lemma live_reopened s d n h full act c base old now :
  read_back s d n h (full ++ [act]) c base old now -> length now = length full ->
  Forall (fun rs => rs <> []) full ->
  live (reopened (n + zlen (concat full)) act s) d n h full act base /\
  tidy (reopened (n + zlen (concat full)) act s) (files d) n h full act old now.
Proof.
  intros [R1 R2 R3 R4 R5 R6 R7 R8 R9 R10 (Rc1 & Rc2 & Rc3) R12 R13 R14 R15 R16 R17 R18 R19 R20] Hlen HF.
  rewrite bool_decide_eq_false_2 in R5 by (rewrite length_app; cbn; lia).
  split.
  - split; cbn [reopened set_currentSize set_current closed failed edgeID segments current currentSize
      totalBytes nextSequence lastLineageHash committed sourceSequence]; try done; try (subst c; done).
    destruct R1. by split.
  - split; try done. clear -R18 Hlen. revert h now Hlen R18.
    induction full as [|rs full IH]; intros h [|sl now] Hlen Hm; try done.
    cbn in *. destruct Hm as [Hm1 Hm2]. split; [done|]. apply IH; [lia|done].
Qed.

Lemma log_all_nonempty (log : list (list WalRecord)) :
  Forall (fun rs => rs <> []) (removelast log) -> last log <> Some [] ->
  Forall (fun rs => rs <> []) log.
Proof.
  intros HF Hl. destruct log as [|x log'] eqn:E using rev_ind; [constructor|].
  rewrite removelast_last in HF. rewrite last_snoc in Hl. apply Forall_app. split; [done|].
  constructor; [congruence|constructor].
Qed.

Lemma live_opened s d n h log c base old now d' :
  read_back s d n h log c base old now -> length now = length log ->
  Forall (fun rs => rs <> []) log ->
  files d' = <[segmentPath (nextSequence s) := mkFile segmentHeader 8]> (files d) ->
  live (open_segment (nextSequence s) s) d' n h log [] base /\
  tidy (open_segment (nextSequence s) s) (files d') n h log [] old now.
Proof.
  intros [R1 R2 R3 R4 R5 R6 R7 R8 R9 R10 (Rc1 & Rc2 & Rc3) R12 R13 R14 R15 R16 R17 R18 R19 R20] Hlen HF Hd.
  rewrite bool_decide_eq_true_2 in R5 by done.
  assert (concat (log ++ [[]]) = concat log) as Hcat by (by rewrite concat_snoc, app_nil_r).
  assert (forall m, n <= m < nextSequence s -> files d' !! segmentPath m = files d !! segmentPath m) as Hfr.
  { intros m Hm. rewrite Hd, lookup_insert_ne; [done|]. intros E%segmentPath_inj; unfold is_u64; lia. }
  split.
  - split; cbn [open_segment set_segments set_totalBytes set_currentSize set_current closed failed edgeID
      segments current currentSize totalBytes nextSequence lastLineageHash committed sourceSequence];
      rewrite ?Hcat; try done; try (subst c; done).
    + destruct R1. by split.
    + apply log_files_app; [done|]. split.
      * eapply log_files_frame; [done| |exact R4]. by rewrite <- R7.
      * rewrite <- R7, Hd. split; [apply holds_new|]. split; [apply records_ok_nil|done].
    + rewrite R5, metas_app, <- R7, <- R8 by done. done.
    + by rewrite <- R7.
    + rewrite R6, fmap_app. cbn [fmap list_fmap]. rewrite sumZ_snoc. done.
    + subst c. eapply checkpointed_frame; [|exact R13]. rewrite Hd, lookup_insert_ne; [done|].
      apply not_eq_sym, checkpoint_not_segment.
  - split; cbn [open_segment set_segments set_totalBytes set_currentSize set_current edgeID signer
      lastSegmentRoot sealedSegments]; try done.
    + eapply seal_chain_frame; [|exact R16]. intros m f Hf. rewrite Hd, lookup_insert_ne; [done|].
      apply segment_not_seal.
    + rewrite Hd. apply listing_insert_other; [|done]. exact (wal_not_seal_suffix (format020 _)).
    + rewrite Hd, seg_paths_app, <- R7. by apply listing_insert.
Qed.

(** A store as [Open] starts it, after its checkpoint is loaded. *)
Definition booted (s : Store) (c : Z) (base : gmap string Z) : Prop :=
  settings s /\ closed s = false /\ failed s = None /\ segments s = [] /\ totalBytes s = 0 /\
  nextSequence s = 1 /\ committed s = c /\ sourceSequence s = base.

Lemma seal_chain_anchor edge key fs ss :
  seal_chain edge key fs 1 "" ss -> 0 < seal_end 1 ss /\ hash_ok (seal_hash "" ss).
Proof.
  intros Hc. destruct (last ss) as [sl|] eqn:E.
  - assert (sl ∈ ss) as Hin by (by apply last_Some_elem_of).
    destruct (seal_chain_bounds _ _ _ _ _ _ _ Hc Hin) as [H1 H2]. split; [lia|].
    unfold seal_hash. rewrite E. cbn. right. clear -Hc Hin. revert Hc. generalize 1 as n, "" as root.
    induction ss as [|sl' ss IH]; intros n root Hc; [by apply not_elem_of_nil in Hin|].
    destruct Hc as [Hs Hc]. apply elem_of_cons in Hin as [->|Hin]; [|by eapply IH].
    destruct (VerifySeal_accepts _ _ (so_verified _ _ _ _ _ _ Hs)) as [Hwf _].
    unfold seal_wf in Hwf. bools. done.
  - unfold seal_end, seal_hash. rewrite E. cbn. split; [lia|by left].
Qed.

Lemma read_back_recovered s0 d n h log tail c base old now d' root :
  booted s0 c base ->
  directory (edgeID s0) (sg_keyID (signer s0)) (files d) n h log tail c base old now ->
  root = seal_root "" old ->
  log_files (edgeID s0) (files d') n h log [] ->
  agree_except (seg_paths n log) (files d) (files d') ->
  read_back (set_nextSequence (n + zlen (concat log))
      (restored_log (set_lineage h root (zlen old) s0) n h log now)) d' n h log c base old now.
Proof.
  intros (B1 & B2 & B3 & B4 & B5 & B6 & B7 & B8) R -> Hl Ha. destruct R as [? Rfiles ? Rseals Rstart Rmatch
    (Rlen1 & Rlen2 & _) ? Rsn Rn Rcp [Rc Rb] Rcnt].
  pose proof Rseals as [Hold _]%seal_chain_app. destruct (seal_chain_anchor _ _ _ _ Hold) as [Hpos Hh].
  destruct Rstart as [Hn Hhash]. rewrite <- Hn in Hpos. rewrite <- Hhash in Hh.
  set (s1 := set_lineage h (seal_root "" old) (zlen old) s0).
  destruct (restored_log_fields s1 n h log now eq_refl Rlen1 Rlen2)
    as (E1 & E2 & E3 & E4 & E5 & E6 & E7 & E8 & E9 & E10 & E11 & E12 & E13 & E14 & E15).
  assert (forall k, k ∉ seg_paths n log -> files d' !! k = files d !! k) as Hk by exact Ha.
  assert (forall k, is_Some (files d' !! k) <-> is_Some (files d !! k)) as Hdom.
  { intros k. destruct (decide (k ∈ seg_paths n log)) as [Hin|Hin]; [|by rewrite Hk].
    split; intros _; by eapply log_files_exist. }
  assert (forall m, sealPathForSegment (segmentPath m) ∉ seg_paths n log) as Hsp.
  { intros m Hin. rewrite seg_paths_starts in Hin. apply list_elem_of_fmap in Hin as (m' & E & _).
    by apply eq_sym, (segment_not_seal m' m) in E. }
  assert (checkpointFile ∉ seg_paths n log) as Hcp.
  { rewrite seg_paths_starts. intros (m' & E & _)%list_elem_of_fmap.
    by apply (checkpoint_not_segment m') in E. }
  split; cbn [set_nextSequence closed failed edgeID segments totalBytes nextSequence lastLineageHash
    committed sourceSequence lastSegmentRoot sealedSegments signer];
    rewrite ?E1, ?E4, ?E6, ?E8, ?E9, ?E10, ?E11, ?E12, ?E13, ?E14, ?E15; cbn [s1 set_lineage closed failed
    edgeID segments totalBytes committed sourceSequence lastSegmentRoot sealedSegments signer]; try done.
  - destruct B1 as [? ? ? ? ? ?]. split; cbn; rewrite ?E1, ?E2, ?E3, ?E9; done.
  - by rewrite B4.
  - by rewrite B5.
  - unfold seal_root. rewrite last_app. by destruct (last now).
  - by rewrite zlen_app.
  - repeat split; [done|lia..].
  - eapply checkpointed_frame; [|exact Rcp]. by apply Hk.
  - by rewrite B8.
  - by rewrite B8.
  - eapply seal_chain_frame; [|exact Rseals]. intros m f Hf. by rewrite Hk.
  - eapply listing_same; [|exact Rsn]. auto.
  - eapply listing_same; [|exact Rn]. auto.
Qed.

Lemma next_segment_fresh fs n log :
  Forall (fun rs => rs <> []) log -> 0 <= n -> n + zlen (concat log) < modulus64 ->
  listing fs ".tfwal" (seg_paths n log) -> fs !! segmentPath (n + zlen (concat log)) = None.
Proof.
  intros HF Hn Hb Hl. apply eq_None_not_Some. rewrite (Hl _ (segment_has_suffix _)).
  intros (m & E & Hm)%elem_of_seg_paths; [|done]. apply segmentPath_inj in E; unfold is_u64; lia.
Qed.

Lemma snoc_or_nil {A} (l : list A) : l = [] \/ exists l' x, l = l' ++ [x].
Proof. destruct l as [|x l' _] using rev_ind; eauto. Qed.

(** The identity and limits of a store never change. *)
Definition same_config (s s' : Store) : Prop :=
  edgeID s' = edgeID s /\ segmentBytes s' = segmentBytes s /\ maxBytes s' = maxBytes s /\
  signer s' = signer s.

(** The last steps of [recover], on a log that has been read back. *)
Lemma wp_recover_last s d n h log c base old now Q :
  quiet d -> read_back s d n h log c base old now ->
  Forall (fun rs => rs <> []) (removelast log) ->
  (length now <= length log)%nat -> (length log <= S (length now))%nat ->
  (length now = length log -> last log <> Some []) ->
  (forall s' d' full act, concat (full ++ [act]) = concat log -> live s' d' n h full act base ->
     tidy s' (files d') n h full act old now -> quiet d' -> committed s' = c -> same_config s s' ->
     Q (Ok tt) (s', d')) ->
  wp (match segments s with [] => createSegment (nextSequence s) | _ => recover_active end) Q (s, d).
Proof.
  intros Hq R HF Hl1 Hl2 Hlast HQ. pose proof (rb_committed _ _ _ _ _ _ _ _ _ R) as (Rc1 & Rc2 & Rc3).
  assert (length now = length log -> files d !! segmentPath (nextSequence s) = None) as Hfresh.
  { intros Hlen. rewrite (rb_next _ _ _ _ _ _ _ _ _ R) in *. apply next_segment_fresh; [|lia..|apply R].
    apply log_all_nonempty; auto. }
  assert (length now = length log -> forall d', quiet d' ->
    files d' = <[segmentPath (nextSequence s) := mkFile segmentHeader 8]> (files d) ->
    Q (Ok tt) (open_segment (nextSequence s) s, d')) as Hnew.
  { intros Hlen d' Hq' Hd'. destruct (live_opened _ _ _ _ _ _ _ _ _ d' R Hlen) as [L T]; [|done|].
    - apply log_all_nonempty; auto.
    - apply (HQ _ _ log []); try done. by rewrite concat_snoc, app_nil_r. }
  destruct (snoc_or_nil log) as [->|(full & act & ->)].
  - rewrite (rb_segments _ _ _ _ _ _ _ _ _ R). cbn [metas]. destruct now; [|cbn in Hl1; lia].
    apply wp_createSegment; [by apply Hfresh| |by intros].
    intros d' F [C S]. apply Hnew; [done|by apply S|done].
  - rewrite (rb_segments _ _ _ _ _ _ _ _ _ R), metas_app by done.
    rewrite length_app in Hl1, Hl2. cbn in Hl1, Hl2. rewrite removelast_last in HF.
    pose proof (rb_files _ _ _ _ _ _ _ _ _ R) as Hf. apply log_files_app in Hf as (_ & Hh & Hr & _); [|done].
    set (ms := metas n h full true ++ _).
    assert (forall m1 m2, match ms with [] => m1 | _ => m2 end = m2 :> M (Store * disk) unit) as ->.
    { intros m1 m2. unfold ms. by destruct (metas n h full true). }
    eapply wp_recover_active; [done|apply R|done|apply Hr| | |].
    + intros E%bool_decide_eq_true. auto.
    + intros E%bool_decide_eq_false. rewrite length_app in E. cbn in E.
      destruct (live_reopened _ _ _ _ _ _ _ _ _ _ R) as [L T]; [lia|done|].
      apply (HQ _ _ full act); done.
    + intros E%bool_decide_eq_true d' Hq' Hd' _. auto.
Qed.

Lemma wp_recover s d n h log tail c base old now Q :
  quiet d -> booted s c base -> tail_ok tail ->
  directory (edgeID s) (sg_keyID (signer s)) (files d) n h log tail c base old now ->
  (forall s' d' full act, concat (full ++ [act]) = concat log -> live s' d' n h full act base ->
     tidy s' (files d') n h full act old now -> quiet d' -> committed s' = c -> same_config s s' ->
     Q (Ok tt) (s', d')) ->
  wp recover Q (s, d).
Proof.
  intros Hq B Htail R HQ. pose proof (rc_seals _ _ _ _ _ _ _ _ _ _ _ R) as Hseals.
  pose proof Hseals as [Hold Hnow]%seal_chain_app.
  destruct (seal_chain_anchor _ _ _ _ Hold) as [Hpos Hh]. pose proof (rc_start _ _ _ _ _ _ _ _ _ _ _ R) as [Hn Hhash].
  destruct (rc_committed _ _ _ _ _ _ _ _ _ _ _ R) as [Hc Hb]. destruct (rc_sealed _ _ _ _ _ _ _ _ _ _ _ R) as (Hl1 & Hl2 & Hl3).
  rewrite <- Hn in Hpos, Hnow. rewrite <- Hhash in Hh. pose proof (zlen_nonneg (concat log)) as Hz.
  unfold recover. wp_steps.
  eapply wp_intro; [apply quiet_loadSealChain; [done|exact Hseals|apply R]|]. wp_steps. cbv zeta.
  apply wp_list_dir. wp_steps.
  rewrite (glob_segments _ n log) by (apply R || lia).
  rewrite (recovery_anchor_eq _ _ _ n log old now Hseals Hn) by (apply R || (unfold is_u64; lia)). wp_steps.
  cbn [an_hash an_root an_count an_sequence]. rewrite <- Hhash. fold (seal_map (old ++ now)).
  eapply (wp_recover_segments _ _ _ n h (seal_root "" old) log now tail); try done; try apply R.
  - eapply seals_at_map; try done; try lia; try apply R. rewrite Hn. eapply seal_chain_starts; [exact Hold|lia].
  - intros d1 Hq1 C1 Hl1' Ha1. wp_steps.
    pose proof (read_back_recovered s d n h log tail c base old now d1 _ B R eq_refl Hl1' Ha1) as RB.
    destruct B as (B1 & B2 & B3 & B4 & B5 & B6 & B7 & B8).
    set (s1 := restored_log _ _ _ _ _) in *.
    destruct (restored_log_fields (set_lineage h (seal_root "" old) (zlen old) s) n h log now eq_refl Hl1 Hl2)
      as (E1 & E2 & E3 & E4 & E5 & _ & _ & _ & E9 & _). fold s1 in E1, E2, E3, E4, E5, E9. cbn [committed nextSequence set_lineage] in E4, E5.
    rewrite (recovered_next_eq s1 _ (n + zlen (concat log))) by (rewrite ?E4, ?E5; lia || done).
    cbn [committed set_nextSequence]. rewrite E4, B7.
    rewrite (proj2 (Z.ltb_ge (n - 1 + zlen (concat log)) c)) by lia. cbn [andb].
    eapply wp_recover_last; try done; [apply R|by intros []%Hl3|].
    intros s' d' full act Hcat L T Hq' Hc' (F1 & F2 & F3 & F4).
    apply (HQ s' d' full act); try done. repeat split; [rewrite F1|rewrite F2|rewrite F3|rewrite F4]; done.
Qed.

(** ** Opening *)

Definition effective_segment (config : Config) : Z :=
  if cf_SegmentSizeBytes config <=? segmentHeaderBytes + frameHeaderBytes
  then defaultSegmentBytes else cf_SegmentSizeBytes config.
Definition effective_max (config : Config) : Z :=
  if cf_MaxBytes config <=? 0 then defaultMaxBytes else cf_MaxBytes config.

(** Limits [Open] accepts, with segments no longer than the scanner reads. *)
Definition limits_ok (config : Config) : Prop :=
  effective_segment config <= segmentHeaderBytes + frameHeaderBytes + maxFrameLength /\
  effective_segment config <= effective_max config.

(** [s] runs with this configuration and key. *)
Definition configured (config : Config) (key : private_key) (s : Store) : Prop :=
  edgeID s = trim_space (cf_EdgeID config) /\ segmentBytes s = effective_segment config /\
  maxBytes s = effective_max config /\ signer s = signer_of key.

Lemma open_recovers config key d n h log tail c base old now :
  let edge := trim_space (cf_EdgeID config) in
  quiet d -> limits_ok config -> tail_ok tail ->
  directory edge (KeyID (public_of key)) (files d) n h log tail c base old now ->
  exists s' d' full act, Open config key d = (Ok s', d') /\ quiet d' /\
    concat (full ++ [act]) = concat log /\ live s' d' n h full act base /\
    tidy s' (files d') n h full act old now /\ committed s' = c /\ configured config key s'.
Proof.
  intros edge Hq [Hlim1 Hlim2] Ht R. unfold Open. fold edge.
  pose proof (rc_edge _ _ _ _ _ _ _ _ _ _ _ R) as [Hblank Hascii].
  rewrite bool_decide_eq_false_2 by (intros ->; by vm_compute in Hblank).
  fold (effective_segment config) (effective_max config). cbv zeta.
  rewrite (proj2 (Z.ltb_ge _ _) Hlim2). set (s0 := mkStore _ _ _ _ _ _ _ _ _ _ _ _ _ _ _ _ _).
  assert (wp (loadCheckpoint;; recover) (fun r sd => exists full act, r = Ok tt /\ quiet sd.2 /\
    concat (full ++ [act]) = concat log /\ live sd.1 sd.2 n h full act base /\
    tidy sd.1 (files sd.2) n h full act old now /\ committed sd.1 = c /\
    configured config key sd.1) (s0, d)) as Hwp.
  { wp_steps. eapply wp_intro; [by apply quiet_load_checkpoint; [|apply R|..]|]. wp_steps.
    eapply (wp_recover _ _ n h log tail c base old now); [done| |done|exact R|].
    - repeat split; cbn; try done; try lia; [|by exists key]. unfold effective_segment.
      destruct (Z.leb_spec (cf_SegmentSizeBytes config) (segmentHeaderBytes + frameHeaderBytes)); [|lia].
      by vm_compute.
    - intros s' d' full act Hcat L T Hq' Hc' Hsame. by exists full, act. }
  unfold wp in Hwp. destruct ((loadCheckpoint;; recover) (s0, d)) as [r [s' d']]. cbn [fst snd] in Hwp.
  destruct Hwp as (full & act & -> & H). by exists s', d', full, act.
Qed.

End recovery.
