(* ===== verification/WalCrash.v ===== *)
(** * Crashes of the write-ahead log

    A crash keeps a prefix of every file that includes its synced bytes.  Here: the
    directory after any operation, with any pattern of I/O faults, is one that
    recovery accepts after a crash, and holds every acknowledged record. *)

From S2P Require Import Prelude GoStrings Hash Domain Disk Wire Lineage WalModel.
From S2P Require Import WalFrame WalStore WalInv WalOps WalRecovery.

Local Open Scope string_scope.
Local Open Scope Z_scope.
Local Open Scope list_scope.

Section crash.
Context {ED : Ed25519} {SC : SealCodec} {WC : WalCodec} {CC : CheckpointCodec}.

(** ** A new seal *)

Lemma segment_not_blank n : blank (segmentPath n) = false.
Proof. by apply (numbered_name_not_blank n ".tfwal" "l"%char "awft."). Qed.

Lemma sealed_as_wf s n h rs t root seal payload :
  settings s -> sealed_as s n h rs t root seal payload -> rs <> [] -> is_zero t = false ->
  0 < n -> hash_ok (lastSegmentRoot s) -> validHash (final_hash h rs) = true ->
  exists leaves, chain h rs (final_hash h rs) leaves /\ MerkleRoot leaves = Ok root /\
    SignSeal (signer s) (unsigned_seal s n h rs t leaves root) = Ok seal /\
    seal_wf (unsigned_seal s n h rs t leaves root) = true /\ validHash root = true /\
    (exists leaf leaves', leaves = leaf :: leaves' /\ validHash leaf = true).
Proof.
  intros Hs (leaves & Hc & Hr & Hsig & Hm) Hne Ht Hn Hroot Hfin. exists leaves.
  pose proof (chain_length _ _ _ _ Hc) as Hlen. pose proof (chain_leaves_valid _ _ _ _ Hc) as Hv.
  apply zlen_pos in Hne as Hpos. destruct leaves as [|leaf leaves].
  { destruct rs; [done|]. done. }
  destruct (MerkleRoot_ok (leaf :: leaves)) as (root' & Hr' & Hvr); [done..|].
  assert (root' = root) as -> by congruence. apply Forall_cons in Hv as [Hleaf _].
  do 3 (split; [done|]). split; [|split; [done|by exists leaf, leaves]].
  unfold seal_wf, unsigned_seal. cbn [sl_EdgeID sl_Segment sl_FirstSequence sl_LastSequence
    sl_RecordCount sl_FirstRecordHash sl_LastRecordHash sl_MerkleRoot sl_PreviousSegmentRoot sl_SealedAt
    head default from_option id].
  rewrite (se_edge _ Hs), segment_not_blank, Hleaf, Hfin, Hvr, Ht.
  rewrite (proj2 (Z.eqb_neq n 0)), (proj2 (Z.leb_le n _)), (proj2 (Z.eqb_neq (zlen rs) 0)) by lia.
  cbn. destruct Hroot as [-> | ->]; [done|]. by rewrite orb_true_r.
Qed.

Lemma signed_seal_ascii s n h rs t leaves root seal :
  settings s -> SignSeal (signer s) (unsigned_seal s n h rs t leaves root) = Ok seal ->
  hash_ok (lastSegmentRoot s) -> validHash (final_hash h rs) = true -> validHash root = true ->
  hash_ok (default "" (head leaves)) -> seal_ascii seal = true.
Proof.
  intros Hs Hsig Hroot Hfin Hr Hleaf. destruct (SignSeal_ok _ _ _ Hsig) as (payload & _ & ->).
  destruct (se_signer _ Hs) as [k Hk]. unfold seal_ascii, with_signature, unsigned_seal.
  cbn [sl_Format sl_EdgeID sl_Segment sl_FirstRecordHash sl_LastRecordHash sl_MerkleRoot
    sl_PreviousSegmentRoot sl_Algorithm sl_KeyID sl_PublicKey sl_Signature forallb].
  rewrite (se_ascii _ Hs), (hash_ok_ascii _ Hroot), (hash_ok_ascii _ Hleaf), (validHash_ascii _ Hfin),
    (validHash_ascii _ Hr), !ascii_base64_encode.
  assert (ascii_text (segmentPath n) = true) as ->.
  { unfold segmentPath. rewrite ascii_text_app, format020_ascii. done. }
  rewrite Hk. cbn [signer_of sg_keyID]. unfold KeyID. by rewrite ascii_text_app, ascii_hex_encode.
Qed.

Lemma new_seal_ok s n h rs t root seal payload fs :
  settings s -> sealed_as s n h rs t root seal payload -> rs <> [] ->
  records_ok (edgeID s) n h rs -> is_zero t = false -> 0 < n -> n + zlen rs < modulus64 ->
  hash_ok (lastSegmentRoot s) -> validHash (final_hash h rs) = true ->
  fs !! sealPathForSegment (segmentPath n) =
    Some (mkFile (payload ++ [newline]) (length (payload ++ [newline]))) ->
  seal_ok (edgeID s) (sg_keyID (signer s)) fs n (lastSegmentRoot s) seal /\
  sl_LastSequence seal = n + zlen rs - 1 /\ sl_MerkleRoot seal = root /\
  sl_LastRecordHash seal = final_hash h rs /\
  exists leaves, chain h rs (final_hash h rs) leaves /\ verifySealAgainstRecords seal rs leaves = Ok tt.
Proof.
  intros Hs Hseal Hne Hrec Ht Hn Hb Hroot Hfin Hf. pose proof Hseal as (_ & _ & _ & _ & Hm).
  destruct (sealed_as_wf _ _ _ _ _ _ _ _ Hs Hseal Hne Ht Hn Hroot Hfin)
    as (leaves & Hc & Hr & Hsig & Hwf & Hvr & leaf & leaves' & -> & Hleaf).
  pose proof (signed_seal_ascii _ _ _ _ _ _ _ _ Hs Hsig Hroot Hfin Hvr ltac:(by right)) as Hascii.
  pose proof (zlen_pos _ Hne) as Hpos. destruct (se_signer _ Hs) as [k Hk].
  destruct (SignSeal_ok _ _ _ Hsig) as (pl & _ & E).
  assert (VerifySeal seal None = Ok tt) as Hver.
  { rewrite Hk in Hsig. eapply signed_seal_key; eauto. }
  rewrite E in *. split; [split; cbn; try done; [lia|]|].
  - exists (mkFile (payload ++ [newline]) (length (payload ++ [newline]))).
    split; [done|]. split; [done|]. by apply decode_marshal_seal.
  - do 3 (split; [done|]). exists (leaf :: leaves'). split; [done|].
    destruct rs as [|r rs]; [done|]. destruct (numbered_ends _ _ _ (proj1 Hrec)) as [E1 E2].
    unfold verifySealAgainstRecords. rewrite Hr. cbn [mbind result_mbind].
    cbn [with_signature unsigned_seal sl_FirstSequence sl_LastSequence sl_RecordCount sl_FirstRecordHash
      sl_LastRecordHash sl_MerkleRoot head default from_option id].
    rewrite E1, E2, !Z.eqb_refl. cbn [negb orb].
    assert (last_or leaf (leaf :: leaves') = final_hash h (r :: rs)) as ->.
    { rewrite (chain_final _ _ _ _ Hc). unfold last_or. by destruct (last (leaf :: leaves')) eqn:El; [|by apply last_None in El]. }
    by rewrite !bool_decide_eq_true_2.
Qed.

(** ** The seal chain across rotation, append and compaction *)

Lemma records_final_valid edge n h rs :
  records_ok edge n h rs -> rs <> [] -> validHash (final_hash h rs) = true.
Proof.
  intros (_ & Ho & leaves & Hc) Hne. destruct (snoc_or_nil rs) as [->|(rs' & r & ->)]; [done|].
  rewrite final_hash_snoc. apply chain_valid in Hc. apply Forall_app in Hc as [_ [Hv _]%Forall_cons].
  apply Forall_app in Ho as [_ [[_ Hver] _]%Forall_cons].
  by apply Validate_v2 in Hv as (_ & _ & ?).
Qed.

Lemma seal_root_ok edge key fs ss :
  seal_chain edge key fs 1 "" ss -> hash_ok (seal_root "" ss).
Proof.
  intros Hc. unfold seal_root. destruct (snoc_or_nil ss) as [->|(ss' & sl & ->)]; [by left|].
  rewrite last_snoc. right. cbn. apply seal_chain_app in Hc as [_ [Hs _]].
  destruct (VerifySeal_accepts _ _ (so_verified _ _ _ _ _ _ Hs)) as [Hwf _].
  unfold seal_wf in Hwf. by bools.
Qed.

Lemma seals_match_end h log now n root edge key fs fs' tail :
  seals_match h log now -> length now = length log -> seal_chain edge key fs n root now ->
  log_files edge fs' n h log tail -> seal_end n now = n + zlen (concat log).
Proof.
  revert h now n root. induction log as [|rs log IH]; intros h [|sl now] n root Hm Hlen Hc Hl; try done.
  { change (zlen (concat [])) with 0. rewrite Z.add_0_r. done. }
  destruct Hm as [(leaves & _ & Hv) Hm], Hc as [_ Hc], Hl as (_ & Hr & Hl).
  rewrite (verify_seal_last _ n _ _ Hv (proj1 Hr)) in Hc.
  replace (n + zlen rs - 1 + 1) with (n + zlen rs) in Hc by lia.
  assert (seal_end n (sl :: now) = seal_end (n + zlen rs) now) as ->.
  { unfold seal_end. rewrite last_cons. destruct (last now); [done|]. cbn.
    rewrite (verify_seal_last _ n _ _ Hv (proj1 Hr)). lia. }
  rewrite (IH _ _ _ _ Hm) by (done || (cbn in Hlen; lia)). cbn [concat]. rewrite zlen_app. lia.
Qed.

Lemma seals_match_snoc h log now rs sl :
  seals_match h log now -> length now = length log ->
  (exists leaves, chain (final_hash h (concat log)) rs (final_hash h (concat log ++ rs)) leaves /\
     verifySealAgainstRecords sl rs leaves = Ok tt) ->
  seals_match h (log ++ [rs]) (now ++ [sl]).
Proof.
  revert h now. induction log as [|rs' log IH]; intros h [|sl' now] Hm Hlen He; try done.
  destruct Hm as [Hm1 Hm2]. cbn [app seals_match]. split; [done|]. apply IH; [done|cbn in Hlen; lia|].
  cbn [concat] in He. by rewrite <- (assoc_L (++)), !(final_hash_app h rs') in He.
Qed.

Lemma seal_end_snoc n ss sl : seal_end n (ss ++ [sl]) = sl_LastSequence sl + 1.
Proof. unfold seal_end. by rewrite last_snoc. Qed.

Lemma seal_end_app n ss1 ss2 : seal_end n (ss1 ++ ss2) = seal_end (seal_end n ss1) ss2.
Proof. unfold seal_end. rewrite last_app. by destruct (last ss2). Qed.

Lemma listing_seal_written fs names n payload :
  listing fs ".tfseal" names ->
  listing (write_seal_file fs n payload) ".tfseal" (names ++ [sealPathForSegment (segmentPath n)]).
Proof.
  intros Hl. unfold write_seal_file. apply listing_insert, listing_delete_other; [|done].
  apply tmp_no_suffix. by right.
Qed.

Lemma listing_wal_sealed fs names n payload :
  listing fs ".tfwal" names -> listing (write_seal_file fs n payload) ".tfwal" names.
Proof.
  intros Hl. unfold write_seal_file. apply listing_insert_other.
  - rewrite sealPath_eq. apply seal_not_wal_suffix.
  - apply listing_delete_other; [|done]. apply tmp_no_suffix. by left.
Qed.

(** The seals after the active segment has been sealed. *)
Lemma tidy_sealed s d n h full act base old now root seal payload :
  live s d n h full act base -> tidy s (files d) n h full act old now -> act <> [] ->
  is_zero (clock d) = false ->
  sealed_as s (n + zlen (concat full)) (final_hash h (concat full)) act (clock d) root seal payload ->
  let fs := write_seal_file (files d) (n + zlen (concat full)) payload in
  files d !! sealPathForSegment (segmentPath (n + zlen (concat full))) = None ->
  seal_chain (edgeID s) (sg_keyID (signer s)) fs 1 "" (old ++ now ++ [seal]) /\
  seals_match h (full ++ [act]) (now ++ [seal]) /\
  root = seal_root "" (old ++ now ++ [seal]) /\
  listing fs ".tfseal" (seal_path <$> (old ++ now ++ [seal])) /\
  listing fs ".tfwal" (seg_paths n (full ++ [act])).
Proof.
  intros L T Hne Ht Hseal fs Hnone. destruct (live_active _ _ _ _ _ _ _ L) as (Hl & _ & Hr & _ & _ & _ & Hnext).
  destruct T as [T1 [T2 T3] T4 T5 T6 T7 T8 T9]. pose proof (seal_root_ok _ _ _ _ T1) as Hrok.
  pose proof (lv_first _ _ _ _ _ _ _ L). pose proof (lv_committed _ _ _ _ _ _ _ L).
  pose proof (zlen_nonneg (concat full)).
  destruct (new_seal_ok s _ _ act (clock d) root seal payload fs (lv_settings _ _ _ _ _ _ _ L) Hseal Hne Hr)
    as (Hok & Hlast & Hroot & Hhash & Hm).
  { done. } { lia. } { lia. } { by rewrite T6. } { by eapply records_final_valid. }
  { unfold fs, write_seal_file. by rewrite lookup_insert_eq. }
  assert (seal_end 1 (old ++ now) = n + zlen (concat full)) as Hend.
  { pose proof T1 as [_ Hc2]%seal_chain_app. rewrite <- T2 in Hc2. rewrite seal_end_app, <- T2.
    by eapply seals_match_end. }
  rewrite (assoc_L (++) old now [seal]). split; [|split; [|split; [|split]]].
  - apply seal_chain_app. split.
    + eapply seal_chain_frame; [|exact T1]. intros m f Hf. unfold fs, write_seal_file.
      destruct (decide (sealPathForSegment (segmentPath m) = sealPathForSegment (segmentPath (n + zlen (concat full))))) as [E|Hne'].
      * by rewrite E, Hnone in Hf.
      * rewrite lookup_insert_ne, lookup_delete_ne; [done|exact (not_eq_sym (seal_not_tmp m _))|done].
    + rewrite Hend, <- T6. by split.
  - apply seals_match_snoc; [done|done|]. destruct Hm as (leaves & Hm1 & Hm2). exists leaves.
    by rewrite final_hash_app.
  - unfold seal_root. by rewrite last_snoc.
  - rewrite fmap_app. cbn [fmap list_fmap]. unfold seal_path at 2. rewrite (so_segment _ _ _ _ _ _ Hok).
    by apply listing_seal_written.
  - by apply listing_wal_sealed.
Qed.

Lemma seg_paths_last n full act act' : seg_paths n (full ++ [act]) = seg_paths n (full ++ [act']).
Proof. by rewrite !seg_paths_app. Qed.

Lemma tidy_here s s' d d' n h full act act' base old now f :
  live s d n h full act base -> tidy s (files d) n h full act old now ->
  same_config s s' -> lastSegmentRoot s' = lastSegmentRoot s -> sealedSegments s' = sealedSegments s ->
  files d' = <[segmentPath (n + zlen (concat full)) := f]> (files d) ->
  tidy s' (files d') n h full act' old now.
Proof.
  intros L T (E1 & _ & _ & E4) Er Ec Hd.
  destruct (live_active _ _ _ _ _ _ _ L) as (_ & (b & g & Hg & _) & _).
  destruct T as [T1 T2 T4 T5 T6 T7 T8 T9]. split; rewrite ?E1, ?E4, ?Er, ?Ec; try done.
  - eapply seal_chain_frame; [|exact T1]. intros m f' Hf. rewrite Hd, lookup_insert_ne; [done|].
    apply segment_not_seal.
  - rewrite Hd. apply listing_insert_other; [|done]. exact (wal_not_seal_suffix (format020 _)).
  - rewrite (seg_paths_last n full act' act). eapply listing_same; [|exact T9].
    intros k _. rewrite Hd. destruct (decide (k = segmentPath (n + zlen (concat full)))) as [->|Hne].
    + rewrite lookup_insert_eq, Hg. split; by eexists.
    + by rewrite lookup_insert_ne.
Qed.

Lemma tidy_rotated s d n h full act base old now root seal payload d1 :
  live s d n h full act base -> tidy s (files d) n h full act old now -> act <> [] ->
  is_zero (clock d) = false -> rotated_to s d n h full act root seal payload d1 ->
  tidy (open_segment (nextSequence s) (sealed_store root s)) (files d1) n h (full ++ [act]) []
    old (now ++ [seal]).
Proof.
  intros L T Hne Ht (Hseal & Hnone & Hd1 & _).
  destruct (tidy_sealed _ _ _ _ _ _ _ _ _ _ _ _ L T Hne Ht Hseal Hnone) as (S1 & S2 & S3 & S4 & S5).
  split; cbn [open_segment sealed_store set_segments set_totalBytes set_currentSize set_current set_lineage
    edgeID signer lastSegmentRoot sealedSegments]; try done.
  - eapply seal_chain_frame; [|exact S1]. intros m f Hf. rewrite Hd1, lookup_insert_ne; [done|].
    apply segment_not_seal.
  - apply T.
  - rewrite !length_app, (td_length _ _ _ _ _ _ _ _ T). done.
  - rewrite (td_count _ _ _ _ _ _ _ _ T), !zlen_app. change (zlen [seal]) with 1. lia.
  - rewrite Hd1. apply listing_insert_other; [|done]. exact (wal_not_seal_suffix (format020 _)).
  - rewrite Hd1, seg_paths_app. cbn [seg_paths]. rewrite <- (lv_next _ _ _ _ _ _ _ L). by apply listing_insert.
Qed.

(** An acknowledged append keeps the whole directory in order. *)
Lemma append_tidy s d n h full act base old now topic ev r s' d' :
  live s d n h full act base -> tidy s (files d) n h full act old now -> acceptable topic ev ->
  is_zero (clock d) = false -> nextSequence s + 1 < modulus64 ->
  Append topic ev (s, d) = (Ok r, (s', d')) ->
  exists full' act' now', live s' d' n h full' act' base /\ tidy s' (files d') n h full' act' old now' /\
    concat (full' ++ [act']) = concat (full ++ [act]) ++ [r] /\
    committed s' = committed s /\ same_config s s' /\ clock d' = clock d.
Proof.
  intros L T Hacc Hc Hb HA. pose proof (append_outcome _ _ _ _ _ _ _ _ _ _ _ _ L HA) as O.
  inversion O as [|r' p f d0 Ha Hf Hd Hs| |r' p root seal payload d1 d0 Ha Hne Hrot Hd Hs| |]; subst;
    destruct (admission_record _ _ _ _ _ _ _ Ha) as (_ & _ & _ & _ & Hr & _).
  - exists full, (act ++ [r]), now. split; [eapply live_append; eauto using live_encodes|].
    split; [by eapply tidy_here|]. split; [by rewrite !concat_snoc, (assoc_L (++))|].
    split; [done|]. split; [done|]. apply Hs.
  - exists (full ++ [act]), [r], (now ++ [seal]). pose proof Hrot as (Hseal & Hnone & Hd1 & Hs1).
    pose proof (live_rotate _ _ _ _ _ _ _ root payload d1 L Hne Hd1) as L1.
    pose proof (tidy_rotated _ _ _ _ _ _ _ _ _ _ _ _ _ L T Hne Hc Hrot) as T1.
    pose proof (lv_next _ _ _ _ _ _ _ L) as Hnext.
    split; [|split; [|split; [by rewrite (concat_snoc (full ++ [act]))|split; [done|split; [done|]]]]].
    + apply (live_append _ _ _ _ _ [] _ topic ev (clock d) r p (mkFile segmentHeader 8) d' L1);
        eauto using live_encodes; rewrite <- Hnext; [by rewrite Hd1, lookup_insert_eq|done].
    + eapply (tidy_here _ _ _ _ _ _ _ [] [r]); [exact L1|exact T1|done|done|done|]. by rewrite <- Hnext.
    + etrans; [apply Hs|apply Hs1].
Qed.

Lemma seals_match_app h log1 log2 now1 now2 :
  length now1 = length log1 -> seals_match h (log1 ++ log2) (now1 ++ now2) ->
  seals_match h log1 now1 /\ seals_match (final_hash h (concat log1)) log2 now2.
Proof.
  revert h now1. induction log1 as [|rs log1 IH]; intros h [|sl now1] Hlen Hm; try done.
  destruct Hm as [Hm1 Hm2]. apply IH in Hm2 as [H1 H2]; [|cbn in Hlen; lia].
  split; [by split|]. cbn [concat]. by rewrite final_hash_app.
Qed.

Lemma verify_seal_hash sl h rs leaves :
  chain h rs (final_hash h rs) leaves -> verifySealAgainstRecords sl rs leaves = Ok tt ->
  sl_LastRecordHash sl = final_hash h rs.
Proof.
  intros Hc H. rewrite (chain_final _ _ _ _ Hc). unfold verifySealAgainstRecords in H.
  destruct rs; [done|]. destruct leaves as [|leaf leaves]; [done|].
  destruct (MerkleRoot _); [|done]. cbn in H. destruct (_ || _) in H; [done|].
  destruct (_ || _) eqn:G in H; [done|]. guards.
  match goal with H : sl_LastRecordHash sl = _ |- _ => rewrite H end. unfold last_or.
  destruct (last (leaf :: leaves)) eqn:E; [done|]. by apply last_None in E.
Qed.

Lemma seals_match_hash h log now :
  seals_match h log now -> length now = length log -> seal_hash h now = final_hash h (concat log).
Proof.
  revert h now. induction log as [|rs log IH]; intros h [|sl now] Hm Hlen; try done.
  destruct Hm as [(leaves & Hc & Hv) Hm]. cbn [concat]. rewrite final_hash_app.
  rewrite <- (IH _ now Hm) by (cbn in Hlen; lia). unfold seal_hash. rewrite last_cons.
  destruct (last now); [done|]. cbn. by eapply verify_seal_hash.
Qed.

Lemma seal_hash_app h ss1 ss2 : seal_hash h (ss1 ++ ss2) = seal_hash (seal_hash h ss1) ss2.
Proof. unfold seal_hash. rewrite last_app. by destruct (last ss2). Qed.

Lemma listing_checkpoint fs suffix names payload :
  suffix = ".tfwal" \/ suffix = ".tfseal" ->
  listing fs suffix names -> listing (write_checkpoint_file fs payload) suffix names.
Proof.
  intros Hs Hl. unfold write_checkpoint_file.
  apply listing_insert_other; [by apply checkpoint_no_suffix|].
  apply listing_delete_other; [by apply tmp_no_suffix|done].
Qed.

Lemma listing_remove fs n gone rest act :
  Forall (fun rs => rs <> []) (gone ++ rest) -> 0 <= n ->
  n + zlen (concat ((gone ++ rest) ++ [act])) < modulus64 ->
  listing fs ".tfwal" (seg_paths n ((gone ++ rest) ++ [act])) ->
  listing (remove_all (seg_paths n gone) fs) ".tfwal"
    (seg_paths (n + zlen (concat gone)) (rest ++ [act])).
Proof.
  intros HF Hn Hb Hl k Hk. rewrite remove_all_lookup. specialize (Hl k Hk).
  rewrite <- (assoc_L (++)), seg_paths_app, elem_of_app in Hl. destruct (decide _) as [Hin|Hin].
  - split; [by intros []|]. intros Hin'. exfalso. apply Forall_app in HF as [HF1 HF2].
    destruct (elem_of_seg_paths _ _ _ HF1 Hin) as (m & -> & Hm).
    revert Hin'. apply seg_paths_above; [by rewrite removelast_last|lia..|].
    rewrite concat_split, zlen_app in Hb. lia.
  - tauto.
Qed.

Lemma tidy_commit s s' d d' n h gone rest act base old now payload :
  live s d n h (gone ++ rest) act base -> tidy s (files d) n h (gone ++ rest) act old now ->
  same_config s s' -> lastSegmentRoot s' = lastSegmentRoot s -> sealedSegments s' = sealedSegments s ->
  files d' = remove_all (seg_paths n gone) (write_checkpoint_file (files d) payload) ->
  exists old' now', tidy s' (files d') (n + zlen (concat gone)) (final_hash h (concat gone)) rest act old' now'.
Proof.
  intros L T (E1 & _ & _ & E4) Er Ec Hd. destruct T as [T1 [T2 T3] T4 T5 T6 T7 T8 T9].
  pose proof (lv_full _ _ _ _ _ _ _ L) as HF. pose proof (lv_first _ _ _ _ _ _ _ L) as Hn.
  pose proof (lv_committed _ _ _ _ _ _ _ L) as Hb. rewrite (lv_next _ _ _ _ _ _ _ L) in Hb.
  pose proof (lv_files _ _ _ _ _ _ _ L) as Hl. rewrite <- (assoc_L (++)) in Hl.
  apply log_files_app in Hl as [Hlg _]; [|by destruct rest].
  rewrite length_app in T5. rewrite <- (take_drop (length gone) now) in *.
  set (ng := take (length gone) now) in *. set (nr := drop (length gone) now) in *.
  assert (length ng = length gone) as Hng.
  { unfold ng, nr in *. rewrite length_app, !length_take, !length_drop in *. lia. }
  apply seals_match_app in T4 as [M1 M2]; [|done]. rewrite (assoc_L (++)) in *.
  pose proof T1 as [[Hold Hcg]%seal_chain_app _]%seal_chain_app. rewrite <- T2 in Hcg.
  exists (old ++ ng), nr. split; rewrite ?E1, ?E4, ?Er, ?Ec; try done.
  - eapply seal_chain_frame; [|exact T1]. intros m f Hf.
    rewrite Hd, remove_all_lookup, decide_False.
    + unfold write_checkpoint_file. rewrite sealPath_eq in *.
      rewrite lookup_insert_ne by exact (checkpoint_not_numbered m ".tfseal" "").
      by rewrite lookup_delete_ne by exact (checkpoint_not_numbered m ".tfseal" ".tmp").
    + apply Forall_app in HF as [HF1 _]. intros (m' & E & _)%elem_of_seg_paths; [|done].
      by apply eq_sym, segment_not_seal in E.
  - split.
    + rewrite seal_end_app, <- T2. symmetry. by eapply seals_match_end.
    + rewrite seal_hash_app, <- T3. symmetry. by apply seals_match_hash.
  - unfold nr. rewrite length_app in T5. unfold ng, nr in *. lia.
  - rewrite Hd. eapply listing_same; [|apply (listing_checkpoint (files d) _ _ payload); [by right|exact T8]].
    intros k Hk. rewrite remove_all_lookup, decide_False; [done|].
    apply Forall_app in HF as [HF1 _]. intros (m' & -> & _)%elem_of_seg_paths; [|done].
    pose proof (wal_not_seal_suffix (format020 m')) as E. unfold segmentPath in Hk. congruence.
  - rewrite Hd. apply listing_remove; [done|lia|lia|]. apply listing_checkpoint; [by left|done].
Qed.

(** ** Crashes *)

Definition crash_fs (fs fs' : gmap string file) : Prop :=
  forall path, option_relation crash_file (fun _ => False) (fun _ => False) (fs !! path) (fs' !! path).

Definition all_synced (fs : gmap string file) : Prop :=
  forall k f, fs !! k = Some f -> synced f = length (data f).

Section crash_fs.
Context (fs fs' : gmap string file) (C : crash_fs fs fs').

Lemma crash_some k f :
  fs !! k = Some f ->
  exists m, (synced f <= m <= length (data f))%nat /\ fs' !! k = Some (mkFile (take m (data f)) m).
Proof.
  intros Hf. specialize (C k). rewrite Hf in C. destruct (fs' !! k) as [f'|]; [|done].
  destruct C as (m & Hm & ->). eauto.
Qed.

Lemma crash_dom k : is_Some (fs' !! k) <-> is_Some (fs !! k).
Proof.
  specialize (C k). by destruct (fs !! k), (fs' !! k).
Qed.

Lemma crash_synced k f : fs !! k = Some f -> synced f = length (data f) -> fs' !! k = Some f.
Proof.
  intros Hf Hs. destruct (crash_some k f Hf) as (m & Hm & ->). assert (m = length (data f)) as -> by lia.
  rewrite take_ge by lia. destruct f; cbn in *. by subst.
Qed.

Lemma crash_all_synced : all_synced fs'.
Proof.
  intros k f' Hf'. destruct (proj1 (crash_dom k) (ex_intro _ f' Hf')) as [f Hf].
  destruct (crash_some k f Hf) as (m & Hm & E). rewrite E in Hf'. injection Hf' as <-. cbn.
  rewrite length_take. lia.
Qed.

Lemma crash_holds path rs tail :
  holds fs path rs tail -> exists k, holds fs' path rs (take k tail).
Proof.
  intros (b & f & Hf & Hd & Hi & Hs1 & Hs2). destruct (crash_some _ _ Hf) as (m & Hm & Hf').
  rewrite length_app in Hs1. exists (m - length segmentHeader - length b)%nat, b, (mkFile (take m (data f)) m).
  split; [done|]. cbn [data synced]. split; [|split; [done|]].
  - rewrite Hd, !take_app, (take_ge segmentHeader), (take_ge b) by lia. done.
  - rewrite length_take, length_app. lia.
Qed.

Lemma crash_log_files edge n h log tail :
  log_files edge fs n h log tail -> exists k, log_files edge fs' n h log (take k tail).
Proof.
  revert n h. induction log as [|rs log IH]; intros n h Hl; [by exists 0%nat|].
  destruct Hl as (Hh & Hr & Hl). destruct (IH _ _ Hl) as [k Hk]. destruct (crash_holds _ _ _ Hh) as [j Hj].
  destruct log as [|rs' log].
  - exists j. by split.
  - exists k. split; [|by split]. by rewrite take_nil in Hj.
Qed.

Lemma directory_crash edge key n h log tail c base old now :
  directory edge key fs n h log tail c base old now ->
  exists k, directory edge key fs' n h log (take k tail) c base old now.
Proof.
  intros [D1 D2 D3 D4 D5 D6 (D7 & D8 & D9) D10 D11 D12 D13 D14 D15].
  destruct (crash_log_files _ _ _ _ _ D2) as [k Hk]. exists k. split; try done.
  - clear -C D4. revert D4. generalize 1 as m, "" as root.
    induction (old ++ now) as [|sl ss IH]; intros m root; [done|].
    intros [[H1 H2 H3 H4 H5 H6 H7 (f & Hf & Hs & Hd)] Hc]. split; [|by apply IH].
    split; try done. exists f. split; [by apply crash_synced|done].
  - split; [done|]. split; [done|]. intros E. destruct (D9 E) as [? ->]. by rewrite take_nil.
  - eapply listing_same; [|exact D11]. intros x _. apply crash_dom.
  - eapply listing_same; [|exact D12]. intros x _. apply crash_dom.
  - unfold checkpointed in *. destruct (fs !! checkpointFile) as [f|] eqn:E.
    + destruct D13 as [Hs Hd]. by rewrite (crash_synced _ _ E Hs).
    + destruct (fs' !! checkpointFile) eqn:E'; [|done]. exfalso.
      destruct (proj1 (crash_dom checkpointFile)) as [? ?]; [by eexists|]. congruence.
Qed.

End crash_fs.

(** ** The directory behind an open store, and one with a record in flight *)

Lemma live_directory s d n h full act base old now :
  live s d n h full act base -> tidy s (files d) n h full act old now ->
  directory (edgeID s) (sg_keyID (signer s)) (files d) n h (full ++ [act]) [] (committed s) base old now.
Proof.
  intros L [T1 T2 T4 T5 T6 T7 T8 T9].
  pose proof (lv_first _ _ _ _ _ _ _ L). pose proof (lv_committed _ _ _ _ _ _ _ L) as Hc.
  pose proof (lv_next _ _ _ _ _ _ _ L) as Hn. pose proof (lv_counters _ _ _ _ _ _ _ L) as Hcnt.
  rewrite (lv_sources _ _ _ _ _ _ _ L), Hn in Hcnt. rewrite Hn in Hc.
  split; try done; try apply L.
  - destruct (lv_settings _ _ _ _ _ _ _ L). by split.
  - rewrite removelast_last. apply L.
  - clear -T4. revert h now T4. induction full as [|rs full IH]; intros h [|sl now] Hm; try done.
    destruct Hm as [Hm1 Hm2]. split; [done|]. by apply IH.
  - rewrite length_app. cbn. lia.
  - by destruct full.
  - lia.
Qed.

(** A record that continues the log, still being written. *)
Definition continues (edge : string) (n : Z) (h : string) (log : list (list WalRecord))
    (base : gmap string Z) (r : WalRecord) : Prop :=
  own edge r /\ r_EdgeSequence r = n + zlen (concat log) /\
  r_PreviousRecordHash r = final_hash h (concat log) /\ n + zlen (concat log) + 1 < modulus64 /\
  map_Forall (fun k v => ascii_text k = true /\ 0 <= v < n + zlen (concat log) + 1)
    (replay_sources base (concat log ++ [r])).

Lemma holds_complete fs path rs r p :
  all_synced fs -> holds fs path rs (frame p) -> encodes r p -> holds fs path (rs ++ [r]) [].
Proof.
  intros Ha (b & f & Hf & Hd & Hi & _) He. exists (b ++ frame p), f. rewrite app_nil_r.
  split; [done|]. split; [done|]. split; [by apply image_app, image_single|].
  rewrite (Ha _ _ Hf), Hd, !length_app. lia.
Qed.

Lemma seals_match_widen h log now act act' :
  length now = length log -> seals_match h (log ++ [act]) now -> seals_match h (log ++ [act']) now.
Proof.
  revert h now. induction log as [|rs log IH]; intros h [|sl now] Hlen Hm; try done.
  destruct Hm as [Hm1 Hm2]. split; [done|]. apply IH; [cbn in Hlen; lia|done].
Qed.

Lemma directory_resolve edge key fs n h pre act c base old now r p k :
  all_synced fs -> length now = length pre -> encodes r p -> (k <= length (frame p))%nat ->
  continues edge n h (pre ++ [act]) base r ->
  directory edge key fs n h (pre ++ [act]) (take k (frame p)) c base old now ->
  exists log' tail', tail_ok tail' /\ directory edge key fs n h log' tail' c base old now /\
    (concat log' = concat (pre ++ [act]) \/ concat log' = concat (pre ++ [act]) ++ [r]).
Proof.
  intros Ha Hlen He Hk (Ho & Hseq & Hprev & Hb & Hcnt) D.
  destruct (decide (k = 0%nat)) as [->|Hk0].
  { exists (pre ++ [act]), []. split; [by left|]. split; [done|by left]. }
  destruct (decide (k < length (frame p))%nat) as [Hlt|Hge].
  { exists (pre ++ [act]), (take k (frame p)). split; [|split; [done|by left]].
    right. exists r, p, k. split; [done|]. split; [lia|done]. }
  rewrite take_ge in D by lia.
  assert (concat (pre ++ [act ++ [r]]) = concat (pre ++ [act]) ++ [r]) as Hcat
    by (rewrite !concat_snoc; apply (assoc_L (++))).
  exists (pre ++ [act ++ [r]]), []. split; [by left|]. split; [|by right].
  destruct D as [D1 D2 D3 D4 D5 D6 (D7 & D8 & D9) D10 D11 D12 D13 [D14 D15] D16].
  rewrite removelast_last in D3. rewrite length_app in *. cbn in D7, D8.
  split; try done; rewrite ?Hcat, ?zlen_app, ?length_app; change (zlen [r]) with 1; cbn [length];
    try lia; try done.
  - apply log_files_app in D2 as (Hl & Hh & Hr & _); [|done]. apply log_files_app; [done|].
    split; [done|]. split; [by eapply holds_complete|]. split; [|done]. apply records_ok_app.
    split; [done|]. rewrite concat_snoc, zlen_app, Z.add_assoc in Hseq. rewrite concat_snoc, final_hash_app in Hprev.
    by eapply records_ok_single.
  - by rewrite removelast_last.
  - by eapply seals_match_widen.
  - by destruct pre.
  - by rewrite (seg_paths_last n pre (act ++ [r]) act).
  - eapply map_Forall_impl; [exact Hcnt|]. intros ? ? [? ?]. split; [done|lia].
Qed.

(** What reopening after a crash gives. *)
Definition reopens (config : Config) (key : private_key) (d : disk)
    (P : Store -> disk -> list WalRecord -> Prop) : Prop :=
  forall d2, crash d d2 -> quiet d2 ->
  (forall path f, has_suffix path ".tfwal" = true -> files d2 !! path = Some f ->
     segmentHeaderBytes <= zlen (data f)) ->
  exists s' d' n h full act base old now, Open config key d2 = (Ok s', d') /\ quiet d' /\
    live s' d' n h full act base /\ tidy s' (files d') n h full act old now /\
    configured config key s' /\ P s' d' (concat (full ++ [act])).

Lemma configured_key config key s : configured config key s ->
  sg_keyID (signer s) = KeyID (public_of key) /\ edgeID s = trim_space (cf_EdgeID config).
Proof. intros (E1 & _ & _ & E4). rewrite E1, E4. done. Qed.

Lemma reopens_directory config key d n h log tail c base old now (P : Store -> disk -> list WalRecord -> Prop) :
  limits_ok config -> tail = [] ->
  directory (trim_space (cf_EdgeID config)) (KeyID (public_of key)) (files d) n h log tail c base old now ->
  (forall s' d', committed s' = c -> P s' d' (concat log)) -> reopens config key d P.
Proof.
  intros Hlim -> D HP d2 HC Hq Hhdr.
  destruct (directory_crash _ _ HC _ _ _ _ _ _ _ _ _ _ D) as [k Dk]. rewrite take_nil in Dk.
  destruct (open_recovers config key d2 n h log [] c base old now Hq Hlim ltac:(by left) Dk)
    as (s' & d' & full & act & HO & Hq' & Hcat & L & T & Hc & Hconf).
  exists s', d', n, h, full, act, base, old, now. rewrite Hcat. auto 10.
Qed.

Lemma reopens_torn config key d n h pre act c base old now r p k (P : Store -> disk -> list WalRecord -> Prop) :
  limits_ok config -> length now = length pre -> encodes r p -> (k <= length (frame p))%nat ->
  continues (trim_space (cf_EdgeID config)) n h (pre ++ [act]) base r ->
  directory (trim_space (cf_EdgeID config)) (KeyID (public_of key)) (files d) n h (pre ++ [act])
    (take k (frame p)) c base old now ->
  (forall s' d' extra, committed s' = c -> extra = [] \/ extra = [r] ->
     P s' d' (concat (pre ++ [act]) ++ extra)) -> reopens config key d P.
Proof.
  intros Hlim Hlen He Hk Hcont D HP d2 HC Hq Hhdr.
  destruct (directory_crash _ _ HC _ _ _ _ _ _ _ _ _ _ D) as [j Dj]. rewrite take_take in Dj.
  destruct (directory_resolve _ _ _ _ _ _ _ _ _ _ _ _ _ (Nat.min j k) (crash_all_synced _ _ HC) Hlen He ltac:(lia) Hcont Dj)
    as (log' & tail' & Ht & D' & Hlog).
  destruct (open_recovers config key d2 n h log' tail' c base old now Hq Hlim Ht D')
    as (s' & d' & full & act' & HO & Hq' & Hcat & L & T & Hc & Hconf).
  exists s', d', n, h, full, act', base, old, now. rewrite Hcat.
  assert (P s' d' (concat log')) as HP'.
  { destruct Hlog as [-> | ->]; [rewrite <- (app_nil_r (concat _))|]; apply HP; auto. }
  auto 10.
Qed.

(** ** The directory after a failed append *)

Lemma directory_torn edge key fs n h pre act c base old now f k p :
  directory edge key fs n h (pre ++ [act]) [] c base old now -> length now = length pre ->
  fs !! segmentPath (n + zlen (concat pre)) = Some f -> (k <= length (frame p))%nat ->
  directory edge key (<[segmentPath (n + zlen (concat pre)) := append_data (take k (frame p)) f]> fs)
    n h (pre ++ [act]) (take k (frame p)) c base old now.
Proof.
  intros [D1 D2 D3 D4 D5 D6 (D7 & D8 & D9) D10 D11 D12 D13 [D14 D15] D16] Hlen Hf Hk.
  rewrite removelast_last in D3. apply log_files_app in D2 as (Hl & Hh & Hr & _); [|done].
  assert (0 < n) as Hpos.
  { destruct D5 as [-> _]. apply seal_chain_app in D4 as [D4 _]. by apply seal_chain_anchor in D4 as [? _]. }
  pose proof (zlen_nonneg act) as Hz. rewrite concat_snoc, zlen_app in D14, D15.
  split; try done; rewrite ?concat_snoc, ?zlen_app; try done.
  - apply log_files_app; [done|]. split; [|split; [|by split]].
    + eapply log_files_frame; [done| |exact Hl]. intros m Hm. rewrite lookup_insert_ne; [done|].
      intros E%segmentPath_inj; unfold is_u64; lia.
    + destruct Hh as (b & f' & Hf' & Hd & Hi & Hs1 & Hs2). rewrite Hf in Hf'. injection Hf' as <-.
      exists b, (append_data (take k (frame p)) f). rewrite lookup_insert_eq. split; [done|].
      cbn [append_data data synced]. rewrite Hd, app_nil_r, <- (assoc_L (++)). split; [done|].
      split; [done|]. rewrite app_nil_r in Hd. rewrite Hd in *. rewrite !length_app in *. lia.
  - by rewrite removelast_last.
  - eapply seal_chain_frame; [|exact D4]. intros m f' Hf'. rewrite lookup_insert_ne; [done|apply segment_not_seal].
  - rewrite length_app in *. cbn in *. lia.
  - apply listing_insert_other; [|done]. exact (wal_not_seal_suffix (format020 _)).
  - eapply listing_same; [|exact D12]. intros x _.
    destruct (decide (x = segmentPath (n + zlen (concat pre)))) as [->|Hne].
    + rewrite lookup_insert_eq, Hf. split; by eexists.
    + by rewrite lookup_insert_ne.
  - eapply checkpointed_frame; [|exact D13]. rewrite lookup_insert_ne; [done|].
    apply not_eq_sym, checkpoint_not_segment.
Qed.

(** Changes at other names do not matter. *)
Lemma directory_agree edge key fs fs' names n h log tail c base old now :
  directory edge key fs n h log tail c base old now -> agree_except names fs fs' ->
  (forall k, k ∈ names -> has_suffix k ".tfwal" = false /\ has_suffix k ".tfseal" = false /\
     k <> checkpointFile) ->
  directory edge key fs' n h log tail c base old now.
Proof.
  intros [D1 D2 D3 D4 D5 D6 D7 D10 D11 D12 D13 D14 D16] Ha Hn.
  assert (forall k s, has_suffix k s = true -> s = ".tfwal" \/ s = ".tfseal" -> fs' !! k = fs !! k) as Hs.
  { intros k s Hk Hs. apply Ha. intros (H1 & H2 & _)%Hn. destruct Hs as [-> | ->]; congruence. }
  split; try done.
  - clear -D2 Hs. revert n h D2. induction log as [|rs log IH]; intros n h; [done|].
    intros (H1 & H2 & H3). split; [|split; [done|by apply IH]]. eapply holds_frame; [|exact H1].
    apply (Hs _ ".tfwal"); [apply segment_has_suffix|by left].
  - eapply seal_chain_frame; [|exact D4]. intros m f Hf. rewrite (Hs _ ".tfseal"); [done| |by right].
    rewrite sealPath_eq. apply has_suffix_app.
  - eapply listing_same; [|exact D11]. intros k Hk. by rewrite (Hs _ _ Hk) by auto.
  - eapply listing_same; [|exact D12]. intros k Hk. by rewrite (Hs _ _ Hk) by auto.
  - eapply checkpointed_frame; [|exact D13]. apply Ha. intros (_ & _ & ?)%Hn. done.
Qed.

Lemma seals_match_more h log now rs :
  seals_match h log now -> seals_match h (log ++ [rs]) now.
Proof.
  revert h now. induction log as [|rs' log IH]; intros h [|sl now] Hm; try done.
  destruct Hm. split; [done|]. by apply IH.
Qed.

(** A complete header after a sealed log is an empty active segment. *)
Lemma directory_new_segment edge key fs n h log c base old now :
  directory edge key fs n h log [] c base old now -> length now = length log -> log <> [] ->
  directory edge key (<[segmentPath (n + zlen (concat log)) := mkFile segmentHeader 8]> fs)
    n h (log ++ [[]]) [] c base old now.
Proof.
  intros [D1 D2 D3 D4 D5 D6 (D7 & D8 & D9) D10 D11 D12 D13 [D14 D15] D16] Hlen Hne.
  destruct (D9 Hlen) as [Hlast _]. pose proof (log_all_nonempty _ D3 Hlast) as HF.
  assert (0 < n) as Hpos.
  { destruct D5 as [-> _]. apply seal_chain_app in D4 as [D4 _]. by apply seal_chain_anchor in D4 as [? _]. }
  assert (concat (log ++ [[]]) = concat log) as Hcat by (by rewrite concat_snoc, app_nil_r).
  split; try done; rewrite ?Hcat; try done.
  - apply log_files_app; [done|]. split.
    + eapply log_files_frame; [done| |exact D2]. intros m Hm. rewrite lookup_insert_ne; [done|].
      intros E%segmentPath_inj; unfold is_u64; lia.
    + split; [apply holds_new|]. split; [apply records_ok_nil|done].
  - by rewrite removelast_last.
  - eapply seal_chain_frame; [|exact D4]. intros m f Hf. rewrite lookup_insert_ne; [done|apply segment_not_seal].
  - by apply seals_match_more.
  - rewrite length_app. cbn. lia.
  - intros E. by apply app_nil in E as [_ ?].
  - apply listing_insert_other; [|done]. exact (wal_not_seal_suffix (format020 _)).
  - rewrite seg_paths_app. by apply listing_insert.
  - eapply checkpointed_frame; [|exact D13]. rewrite lookup_insert_ne; [done|].
    apply not_eq_sym, checkpoint_not_segment.
Qed.

Lemma reopens_half_created config key d fs n h log c base old now
    (P : Store -> disk -> list WalRecord -> Prop) :
  limits_ok config -> length now = length log -> log <> [] ->
  directory (trim_space (cf_EdgeID config)) (KeyID (public_of key)) fs n h log [] c base old now ->
  half_created (n + zlen (concat log)) fs (files d) ->
  (forall s' d', committed s' = c -> P s' d' (concat log)) -> reopens config key d P.
Proof.
  intros Hlim Hlen Hne D [Hfs|(k & Hk & Hfs)] HP.
  { eapply (reopens_directory _ _ _ n h log []); eauto. by rewrite Hfs. }
  intros d2 HC Hq Hhdr. set (path := segmentPath (n + zlen (concat log))) in *.
  destruct (crash_some _ _ HC path (mkFile (take k segmentHeader) 0)) as (m & Hm & Hf2).
  { by rewrite Hfs, lookup_insert_eq. }
  cbn [data synced] in *. pose proof (Hhdr _ _ (segment_has_suffix _) Hf2) as H8. cbn [data] in H8.
  unfold zlen in H8. rewrite !length_take in H8. change (length segmentHeader) with 8%nat in *.
  change segmentHeaderBytes with 8 in H8. rewrite length_take in Hm. change (length segmentHeader) with 8%nat in Hm.
  assert (m = 8%nat /\ k = 8%nat) as [-> ->] by lia. change (take 8 (take 8 segmentHeader)) with segmentHeader in Hf2.
  assert (fs !! path = None) as Hnone.
  { destruct D as [_ _ D3 D4 D5 _ (_ & _ & D9) _ _ D12 _ [D14 D15] _].
    apply next_segment_fresh; [|destruct D5 as [-> _]|done|done].
    - apply log_all_nonempty; [done|]. by apply D9.
    - apply seal_chain_app in D4 as [D4 _]. apply seal_chain_anchor in D4 as [? _]. lia. }
  assert (crash_fs fs (delete path (files d2))) as HC'.
  { intros k. destruct (decide (k = path)) as [->|Hkp].
    - by rewrite lookup_delete_eq, Hnone.
    - rewrite lookup_delete_ne by done. specialize (HC k). rewrite Hfs, lookup_insert_ne in HC by done. done. }
  destruct (directory_crash _ _ HC' _ _ _ _ _ _ _ _ _ _ D) as [j Dj]. rewrite take_nil in Dj.
  apply directory_new_segment in Dj; [|done|done]. fold path in Dj.
  rewrite insert_delete_eq, insert_id in Dj by done.
  destruct (open_recovers config key d2 n h (log ++ [[]]) [] c base old now Hq Hlim ltac:(by left) Dj)
    as (s' & d' & full & act & HO & Hq' & Hcat & L & T & Hc & Hconf).
  exists s', d', n, h, full, act, base, old, now. rewrite Hcat, concat_snoc, app_nil_r. auto 10.
Qed.

(** The directory once the active segment is sealed. *)
Lemma sealed_directory s d n h full act base old now root seal payload :
  live s d n h full act base -> tidy s (files d) n h full act old now -> act <> [] ->
  is_zero (clock d) = false ->
  sealed_as s (n + zlen (concat full)) (final_hash h (concat full)) act (clock d) root seal payload ->
  files d !! sealPathForSegment (segmentPath (n + zlen (concat full))) = None ->
  directory (edgeID s) (sg_keyID (signer s)) (write_seal_file (files d) (n + zlen (concat full)) payload)
    n h (full ++ [act]) [] (committed s) base old (now ++ [seal]).
Proof.
  intros L T Hne Ht Hseal Hnone. pose proof (live_directory _ _ _ _ _ _ _ _ _ L T) as D.
  destruct (tidy_sealed _ _ _ _ _ _ _ _ _ _ _ _ L T Hne Ht Hseal Hnone) as (S1 & S2 & S3 & S4 & S5).
  destruct D as [D1 D2 D3 D4 D5 D6 (D7 & D8 & D9) D10 D11 D12 D13 D14 D16]. split; try done.
  - eapply log_files_frame; [|intros m _; apply segment_lookup_seal|exact D2].
    apply Forall_app. split; [apply L|by constructor].
  - rewrite !length_app, (td_length _ _ _ _ _ _ _ _ T). cbn. split; [lia|]. split; [lia|].
    intros _. split; [|done]. rewrite last_snoc. congruence.
  - by destruct full.
  - eapply checkpointed_frame; [|exact D13].
    apply write_seal_lookup; rewrite ?sealPath_eq, ?seal_tmp_eq; exact (checkpoint_not_numbered _ _ "").
Qed.

Lemma rotation_broken_reopens config key s d n h full act base old now d'
    (P : Store -> disk -> list WalRecord -> Prop) :
  live s d n h full act base -> tidy s (files d) n h full act old now -> act <> [] ->
  configured config key s -> limits_ok config -> is_zero (clock d) = false ->
  rotation_broken s (n + zlen (concat full)) (nextSequence s) (final_hash h (concat full)) act d d' ->
  files d !! sealPathForSegment (segmentPath (n + zlen (concat full))) = None ->
  (forall s' d', committed s' = committed s -> P s' d' (concat (full ++ [act]))) ->
  reopens config key d' P.
Proof.
  intros L T Hne Hconf Hlim Ht Hbr Hnone HP. destruct (configured_key _ _ _ Hconf) as [Ekey Eedge].
  pose proof (live_directory _ _ _ _ _ _ _ _ _ L T) as D. rewrite Ekey, Eedge in D.
  destruct Hbr as [Ha|(root & seal & payload & Hseal & Hh)].
  - eapply reopens_directory; [done|done| |done]. eapply directory_agree; [exact D|exact Ha|].
    intros k ->%list_elem_of_singleton. rewrite seal_tmp_eq.
    change (".tfseal.tmp") with (".tfseal" +:+ ".tmp"). rewrite <- string_app_assoc.
    split; [apply tmp_no_suffix; by left|]. split; [apply tmp_no_suffix; by right|].
    rewrite string_app_assoc. intros E. by apply eq_sym, (checkpoint_not_numbered _ _ "") in E.
  - pose proof (sealed_directory _ _ _ _ _ _ _ _ _ _ _ _ L T Hne Ht Hseal Hnone) as D1.
    rewrite Ekey, Eedge in D1. rewrite (lv_next _ _ _ _ _ _ _ L) in Hh.
    eapply (reopens_half_created _ _ _ _ n h (full ++ [act]) _ base old (now ++ [seal]));
      [done| |by destruct full|exact D1|exact Hh|done].
    rewrite !length_app, (td_length _ _ _ _ _ _ _ _ T). done.
Qed.

Lemma tidy_seal_fresh s d n h full act base old now :
  live s d n h full act base -> tidy s (files d) n h full act old now ->
  files d !! sealPathForSegment (segmentPath (n + zlen (concat full))) = None.
Proof.
  intros L [T1 [T2 T3] T4 T5 T6 T7 T8 T9]. apply eq_None_not_Some.
  intros Hex%T8; [|rewrite sealPath_eq; apply has_suffix_app]. revert Hex.
  destruct (live_active _ _ _ _ _ _ _ L) as (Hl & _ & _ & _ & _ & _ & Hnext).
  pose proof (lv_committed _ _ _ _ _ _ _ L). pose proof (lv_first _ _ _ _ _ _ _ L).
  pose proof (zlen_nonneg act). pose proof (zlen_nonneg (concat full)).
  assert (seal_end 1 (old ++ now) = n + zlen (concat full)) as Hend.
  { pose proof T1 as [_ Hc2]%seal_chain_app. rewrite <- T2 in Hc2. rewrite seal_end_app, <- T2.
    by eapply seals_match_end. }
  intros (sl & E & Hsl)%list_elem_of_fmap.
  pose proof (seal_chain_starts _ _ _ _ _ _ T1 ltac:(lia)) as HF. rewrite Forall_forall in HF.
  destruct (HF _ Hsl) as (m & Hm & Hr). unfold seal_path in E. rewrite Hm in E.
  apply sealPath_inj in E; unfold is_u64; lia.
Qed.

Lemma build_record_continues s d n h full act base topic ev t r p :
  live s d n h full act base -> acceptable topic ev -> nextSequence s + 1 < modulus64 ->
  build_record s topic ev t = Ok (r, p) ->
  continues (edgeID s) n h (full ++ [act]) base r.
Proof.
  intros L (_ & _ & Hkey) Hb Hr.
  destruct (build_record_next _ _ _ _ _ _ Hr) as (Ho & Hseq & Hprev & Hev & _ & Hsrc & _).
  pose proof (live_source_seq _ _ _ _ _ _ _ (source_key ev) L) as Hss.
  rewrite u64_succ_small in Hsrc by lia. destruct L as [L1 L2 L3 L4 L5 L6 L7 L8 L9 L10 L11 L12 L13 L14 L15 L16 L17].
  split; [done|]. split; [congruence|]. split; [congruence|]. split; [lia|].
  rewrite replay_snoc, <- L16, <- L10, (note_source_new _ _ (r_SourceSequence r)) by (done || by rewrite Hsrc, Hev).
  apply live_counters_append; [done|congruence|lia].
Qed.

(** After any append, whatever I/O failed, a crash and a restart give back every
    record acknowledged before it, the appended one if it was acknowledged, and
    otherwise at most that record. *)
Lemma append_reopens config key s d n h full act base old now topic ev r s1 d1 :
  live s d n h full act base -> tidy s (files d) n h full act old now -> acceptable topic ev ->
  is_zero (clock d) = false -> nextSequence s + 1 < modulus64 ->
  configured config key s -> limits_ok config ->
  Append topic ev (s, d) = (r, (s1, d1)) ->
  reopens config key d1 (fun s' _ rs => committed s' = committed s /\
    exists extra, rs = concat (full ++ [act]) ++ extra /\
      match r with
      | Ok rec => extra = [rec]
      | Err _ => extra = [] \/
          exists rec p, build_record s topic ev (clock d) = Ok (rec, p) /\ extra = [rec]
      end).
Proof.
  intros L T Hacc Ht Hb Hconf Hlim HA. destruct (configured_key _ _ _ Hconf) as [Ekey Eedge].
  pose proof (live_directory _ _ _ _ _ _ _ _ _ L T) as D. rewrite Ekey, Eedge in D.
  destruct r as [rec|e].
  { destruct (append_tidy _ _ _ _ _ _ _ _ _ _ _ _ _ _ L T Hacc Ht Hb HA)
      as (full' & act' & now' & L' & T' & Hcat & Hc & (E1 & _ & _ & E4) & _).
    pose proof (live_directory _ _ _ _ _ _ _ _ _ L' T') as D'. rewrite E1, E4, Ekey, Eedge, Hc in D'.
    eapply reopens_directory; [done|done|exact D'|]. intros s' d' Hc'. split; [done|].
    exists [rec]. by rewrite Hcat. }
  pose proof (append_outcome _ _ _ _ _ _ _ _ _ _ _ _ L HA) as O.
  inversion O as [e' pr Ha| |r p f e' d0 Ha Hf (_ & k & Hk & Hd) Hft| |r p root seal payload dr e' d0 Ha Hne Hrot (_ & k & Hk & Hd) Hft|r p e' s' d0 Ha Hne Hbr Hclk Hreason]; subst.
  - eapply reopens_directory; [done|done|exact D|]. intros s' d' Hc'. split; [done|].
    exists []. split; [by rewrite app_nil_r|by left].
  - destruct (admission_record _ _ _ _ _ _ _ Ha) as (_ & _ & _ & _ & Hr & _).
    pose proof (live_encodes _ _ _ _ _ _ _ _ _ _ _ _ L Hacc Ht Hb Ha) as He.
    pose proof (build_record_continues _ _ _ _ _ _ _ _ _ _ _ _ L Hacc Hb Hr) as Hcont. rewrite Eedge in Hcont.
    eapply (reopens_torn _ _ _ n h full act _ base old now r p k); [done|apply T|done|done|done| |].
    + rewrite Hd. apply directory_torn; [exact D|apply T|done|done].
    + intros s' d' extra Hc' Hex. split; [done|]. exists extra. split; [done|]. destruct Hex as [-> | ->]; eauto.
  - destruct (admission_record _ _ _ _ _ _ _ Ha) as (_ & _ & _ & _ & Hr & _).
    pose proof (live_encodes _ _ _ _ _ _ _ _ _ _ _ _ L Hacc Ht Hb Ha) as He.
    pose proof Hrot as (Hseal & Hnone & Hd1 & Hs1).
    pose proof (live_rotate _ _ _ _ _ _ _ root payload dr L Hne Hd1) as L1.
    pose proof (tidy_rotated _ _ _ _ _ _ _ _ _ _ _ _ _ L T Hne Ht Hrot) as T1.
    pose proof (live_directory _ _ _ _ _ _ _ _ _ L1 T1) as Dr.
    cbn [edgeID signer committed open_segment sealed_store set_segments set_totalBytes set_currentSize set_current
      set_lineage] in Dr. rewrite Ekey, Eedge in Dr.
    assert (build_record (open_segment (nextSequence s) (sealed_store root s)) topic ev (clock d) = Ok (r, p)) as Hr1 by exact Hr.
    pose proof (build_record_continues _ _ _ _ _ _ _ _ _ _ _ _ L1 Hacc Hb Hr1) as Hcont.
    cbn [edgeID open_segment sealed_store set_segments set_totalBytes set_currentSize set_current set_lineage] in Hcont.
    rewrite Eedge in Hcont. pose proof (lv_next _ _ _ _ _ _ _ L) as Hnext.
    eapply (reopens_torn _ _ _ n h (full ++ [act]) [] _ base old (now ++ [seal]) r p k); [done|apply T1|done|done|done| |].
    + rewrite Hd, Hnext. apply directory_torn; [exact Dr|apply T1| |done].
      by rewrite Hd1, <- Hnext, lookup_insert_eq.
    + intros s' d' extra Hc' Hex. split; [done|]. exists extra.
      rewrite (concat_snoc (full ++ [act])), app_nil_r. split; [done|]. destruct Hex as [-> | ->]; eauto.
  - eapply rotation_broken_reopens; try done; [by eapply tidy_seal_fresh|].
    intros s'' d'' Hc'. split; [done|]. exists []. split; [by rewrite app_nil_r|by left].
Qed.

(** ** Commits *)

Lemma after_compact_config n h sequence gone rest lastm s :
  same_config s (after_compact n h sequence gone rest lastm s).
Proof.
  destruct (after_compact_fields n h sequence gone rest lastm s)
    as (E1 & E2 & E3 & _ & _ & _ & _ & _ & _ & _ & E11 & _). by repeat split.
Qed.

(** A successful commit keeps the directory in order and drops only committed
    records from it. *)
Lemma commit_tidy s d n h gone rest act base old now sequence payload d' :
  let full := gone ++ rest in
  let lastm := meta_of (n + zlen (concat full)) (final_hash h (concat full)) act false in
  let s' := after_compact n h sequence gone rest lastm s in
  live s d n h full act base -> tidy s (files d) n h full act old now ->
  in_order s sequence -> new_checkpoint s sequence payload ->
  (gone <> [] -> n + zlen (concat gone) - 1 <= sequence) ->
  files d' = remove_all (seg_paths n gone) (write_checkpoint_file (files d) payload) ->
  exists old' now', live s' d' (n + zlen (concat gone)) (final_hash h (concat gone)) rest act (sourceSequence s) /\
    tidy s' (files d') (n + zlen (concat gone)) (final_hash h (concat gone)) rest act old' now' /\
    concat (full ++ [act]) = concat gone ++ concat (rest ++ [act]) /\
    Forall (fun r => r_EdgeSequence r <= sequence) (concat gone).
Proof.
  intros full lastm s' L T Hin Hp Hg Hd.
  destruct (after_compact_fields n h sequence gone rest lastm s)
    as (E1 & E2 & E3 & _ & _ & _ & _ & _ & _ & _ & E11 & _ & E13 & E14 & _).
  destruct (tidy_commit s s' d d' n h gone rest act base old now payload L T) as (old' & now' & T');
    [apply after_compact_config|done|done|done|].
  exists old', now'. split; [by eapply live_commit|]. split; [done|]. split; [apply concat_split|].
  pose proof (log_files_records _ _ _ _ _ _ (lv_files _ _ _ _ _ _ _ L)) as Hrec.
  unfold full in Hrec. rewrite concat_split in Hrec. apply records_ok_app in Hrec as [(Hnum & _) _].
  apply Forall_forall. intros r Hr. pose proof (numbered_range _ _ _ Hnum Hr) as Hrange.
  assert (gone <> []) as Hne by (intros ->; by apply not_elem_of_nil in Hr). specialize (Hg Hne). lia.
Qed.

Lemma checkpoint_tmp_other k :
  k ∈ [checkpoint_tmp] -> has_suffix k ".tfwal" = false /\ has_suffix k ".tfseal" = false /\ k <> checkpointFile.
Proof. intros ->%list_elem_of_singleton. split; [done|]. split; [done|]. discriminate. Qed.

Lemma uncommitted_drop c gone rest :
  Forall (fun r => r_EdgeSequence r <= c) gone -> uncommitted c (gone ++ rest) = uncommitted c rest.
Proof.
  intros HF. rewrite uncommitted_app. replace (uncommitted c gone) with (@nil WalRecord); [done|].
  symmetry. unfold uncommitted. induction HF as [|r gone Hr HF IH]; [done|].
  rewrite filter_cons, decide_False by lia. done.
Qed.

(** After any commit, whatever I/O failed, a crash and a restart come back with the
    old or the new commit position, the new one if the commit was acknowledged, and
    with every record beyond it. *)
Lemma commit_reopens config key s d n h full act base old now sequence r s1 d1 :
  live s d n h full act base -> tidy s (files d) n h full act old now ->
  configured config key s -> limits_ok config ->
  Commit sequence (s, d) = (r, (s1, d1)) ->
  reopens config key d1 (fun s' _ rs =>
    uncommitted (committed s') rs = uncommitted (committed s') (concat (full ++ [act])) /\
    (committed s' = committed s \/ committed s' = sequence /\ in_order s sequence) /\
    (r = Ok tt -> sequence <= committed s')).
Proof.
  intros L T Hconf Hlim HC. destruct (configured_key _ _ _ Hconf) as [Ekey Eedge].
  pose proof (live_directory _ _ _ _ _ _ _ _ _ L T) as D. rewrite Ekey, Eedge in D.
  pose proof (commit_spec _ _ _ _ _ _ _ _ _ _ _ L HC) as O.
  assert (forall gone rest payload d', full = gone ++ rest -> in_order s sequence -> new_checkpoint s sequence payload ->
    (gone <> [] -> n + zlen (concat gone) - 1 <= sequence) ->
    files d' = remove_all (seg_paths n gone) (write_checkpoint_file (files d) payload) ->
    reopens config key d' (fun s' _ rs =>
      uncommitted (committed s') rs = uncommitted (committed s') (concat (full ++ [act])) /\
      (committed s' = committed s \/ committed s' = sequence /\ in_order s sequence) /\
      (r = Ok tt -> sequence <= committed s'))) as Hdone.
  { intros gone rest payload d' -> Hin Hp Hg Hd.
    destruct (commit_tidy _ _ _ _ _ _ _ _ _ _ _ _ _ L T Hin Hp Hg Hd) as (old' & now' & L' & T' & Hcat & HF).
    set (lastm := meta_of _ _ _ _) in *.
    destruct (after_compact_fields n h sequence gone rest lastm s)
      as (E1 & _ & _ & _ & _ & _ & _ & E8 & _ & _ & E11 & _).
    pose proof (live_directory _ _ _ _ _ _ _ _ _ L' T') as D'. rewrite E1, E11, E8, Ekey, Eedge in D'.
    eapply reopens_directory; [done|done|exact D'|]. intros s' d'' ->. rewrite Hcat, uncommitted_drop by done.
    repeat split; auto. lia. }
  inversion O as [Hle|e Hlt Hbad|e d0 Hin Ha Hclk Hwhy|payload gone rest d0 Hin Hp Hfull Hcomp Hd Hs|payload gone rest e s' d0 Hin Hp Hfull Hg Hd Hclk Hft]; subst.
  - eapply reopens_directory; [done|done|exact D|]. intros s' d' ->. split; [done|]. split; [by left|done].
  - eapply reopens_directory; [done|done|exact D|]. intros s' d' ->. split; [done|]. split; [by left|done].
  - eapply reopens_directory; [done|done| |].
    + eapply directory_agree; [exact D|exact Ha|apply checkpoint_tmp_other].
    + intros s' d' ->. split; [done|]. split; [by left|done].
  - eapply Hdone; eauto. apply Hcomp.
  - eapply Hdone; eauto.
Qed.

End crash.
