(* ===== verification/WalTheorems.v ===== *)
(** * What the write-ahead log promises

    The contract of the log is a queue: the records beyond the commit position, in
    order.  The theorems relate every operation of the store, under every schedule
    of I/O faults, to an operation on that queue, and say what a crash and a restart
    give back. *)

From S2P Require Import Prelude GoStrings Hash Domain Disk Wire Lineage WalModel.
From S2P Require Import WalFrame WalStore WalInv WalOps WalRecovery WalCrash.

Local Open Scope string_scope.
Local Open Scope Z_scope.
Local Open Scope list_scope.

Ltac wp_steps ::= repeat (first [wp_step | apply wp_the_store]; cbv beta).

(** ** The abstract log *)

Record queue := mkQueue { q_committed : Z; q_records : list WalRecord }.

Definition enqueue (r : WalRecord) (q : queue) : queue :=
  mkQueue (q_committed q) (q_records q ++ [r]).
Definition dequeue (q : queue) : queue := mkQueue (q_committed q + 1) (tail (q_records q)).

Section theorems.
Context {ED : Ed25519} {SC : SealCodec} {WC : WalCodec} {CC : CheckpointCodec}.

(** A working store with its directory stands for a queue. *)
Definition represents (config : Config) (key : private_key) (s : Store) (d : disk) (q : queue) : Prop :=
  exists n h full act base old now,
    live s d n h full act base /\ tidy s (files d) n h full act old now /\
    configured config key s /\ q_committed q = committed s /\
    q_records q = uncommitted (committed s) (concat (full ++ [act])).

(** ** Lemmas *)

Lemma represents_numbered config key s d q :
  represents config key s d q ->
  numbered (q_committed q + 1) (q_records q) /\
  nextSequence s = q_committed q + 1 + zlen (q_records q).
Proof.
  intros (n & h & full & act & base & old & now & L & T & _ & -> & ->).
  pose proof (log_files_records _ _ _ _ _ _ (lv_files _ _ _ _ _ _ _ L)) as (Hnum & _).
  destruct (lv_first _ _ _ _ _ _ _ L) as [Hpos Hle]. pose proof (lv_committed _ _ _ _ _ _ _ L) as [Hlt _].
  rewrite (lv_next _ _ _ _ _ _ _ L) in *. rewrite (uncommitted_numbered n) by done.
  set (rs := concat (full ++ [act])) in *. set (k := Z.to_nat (committed s + 1 - n)).
  assert ((k <= length rs)%nat) as Hk by (unfold zlen in Hlt; lia).
  rewrite <- (take_drop k rs) in Hnum. apply numbered_app in Hnum as [_ Hnum].
  assert (n + zlen (take k rs) = committed s + 1) as E.
  { unfold zlen. rewrite length_take. lia. }
  rewrite E in Hnum. split; [done|]. unfold zlen. rewrite length_drop. unfold zlen in Hlt. lia.
Qed.

Lemma represents_files config key s d d' q :
  files d' = files d -> represents config key s d q -> represents config key s d' q.
Proof.
  intros E (n & h & full & act & base & old & now & L & T & R).
  exists n, h, full, act, base, old, now. rewrite E. split; [|by split].
  destruct L. by split; rewrite ?E.
Qed.

Lemma live_pressure s d n h full act base b :
  live s d n h full act base -> live (set_pressure b s) d n h full act base.
Proof.
  intros [L1 L2 L3 L4 L5 L6 L7 L8 L9 L10 L11 L12 L13 L14 L15 L16 L17]. split; try done.
  destruct L1. by split.
Qed.

Lemma represents_refused config key s d q pressed :
  represents config key s d q -> represents config key (refused_state pressed s) d q.
Proof.
  destruct pressed; [|done]. intros (n & h & full & act & base & old & now & L & T & C & Hq).
  exists n, h, full, act, base, old, now. split; [by apply live_pressure|].
  split; [destruct T; by split|]. exact (conj C Hq).
Qed.

Lemma configured_same config key s s' :
  configured config key s -> same_config s s' -> configured config key s'.
Proof. intros (E1 & E2 & E3 & E4) (F1 & F2 & F3 & F4). repeat split; congruence. Qed.

Lemma uncommitted_snoc c rs r :
  c < r_EdgeSequence r -> uncommitted c (rs ++ [r]) = uncommitted c rs ++ [r].
Proof.
  intros Hr. rewrite uncommitted_app. f_equal. unfold uncommitted. by rewrite filter_cons, decide_True.
Qed.

Lemma fail_failed e s : failed (fail e s) <> None.
Proof. unfold fail. destruct (failed s) eqn:E; [congruence|done]. Qed.

Lemma append_represents config key s d q topic ev rec s' d' :
  represents config key s d q -> acceptable topic ev -> is_zero (clock d) = false ->
  nextSequence s + 1 < modulus64 -> Append topic ev (s, d) = (Ok rec, (s', d')) ->
  represents config key s' d' (enqueue rec q) /\
  r_EdgeSequence rec = q_committed q + zlen (q_records q) + 1 /\ r_Topic rec = topic /\ r_Event rec = ev.
Proof.
  intros R Hacc Ht Hb HA. pose proof (represents_numbered _ _ _ _ _ R) as [_ Hnext].
  pose proof R as (n & h & full & act & base & old & now & L & T & C & Hc & Hq).
  pose proof (append_outcome _ _ _ _ _ _ _ _ _ _ _ _ L HA) as O.
  destruct (append_tidy _ _ _ _ _ _ _ _ _ _ _ _ _ _ L T Hacc Ht Hb HA)
    as (full' & act' & now' & L' & T' & Hcat & Hc' & Hsame & _).
  assert (exists p, build_record s topic ev (clock d) = Ok (rec, p)) as [p Hr].
  { inversion O as [|? ? ? ? Ha| |? ? ? ? ? ? ? Ha| |]; subst;
      destruct (admission_record _ _ _ _ _ _ _ Ha) as (_ & _ & _ & _ & Hr & _); eauto. }
  destruct (build_record_next _ _ _ _ _ _ Hr) as (_ & Hseq & _ & Hev & Htop & _).
  split; [|split; [lia|done]].
  exists n, h, full', act', base, old, now'. split; [done|]. split; [done|].
  split; [by eapply configured_same|]. cbn. rewrite Hc'. split; [done|].
  rewrite Hcat, uncommitted_snoc, Hq; [done|]. pose proof (lv_committed _ _ _ _ _ _ _ L). lia.
Qed.

(** A record that passes the guards of [Append] is written, unless an I/O operation or
    an encoder fails. *)
Lemma append_accepts s d n h full act base old now topic ev rec p rotates :
  live s d n h full act base -> tidy s (files d) n h full act old now -> faults d = [] -> ~ encoder_fails ->
  admission s topic ev (clock d) = inr (rec, p, rotates) ->
  exists s' d', Append topic ev (s, d) = (Ok rec, (s', d')).
Proof.
  intros L T Hfree Henc Ha. destruct (Append topic ev (s, d)) as [r [s' d']] eqn:HA. exists s', d'.
  pose proof (append_outcome _ _ _ _ _ _ _ _ _ _ _ _ L HA) as O.
  inversion O as [|? ? ? ? Ha'|? ? ? ? ? Ha'|? ? ? ? ? ? ? Ha'|? ? ? ? ? ? ? ? Ha' _ Hrot _ Hft|? ? ? ? ? Ha' Hne _ _ Hwhy];
    subst; try congruence.
  - exfalso. destruct Hrot as (_ & _ & _ & [_ Hs']). destruct (Hs' Hfree). congruence.
  - exfalso. destruct Hwhy as [?|[?|[Hx|Hx]]]; [done|done| |].
    + rewrite (tidy_seal_fresh _ _ _ _ _ _ _ _ _ L T) in Hx. by destruct Hx.
    + pose proof (next_segment_fresh (files d) n (full ++ [act])) as Hfr.
      rewrite (lv_next _ _ _ _ _ _ _ L) in Hx. rewrite Hfr in Hx; [by destruct Hx| | | |apply T].
      * apply Forall_app. split; [apply L|by constructor].
      * pose proof (lv_first _ _ _ _ _ _ _ L). lia.
      * rewrite <- (lv_next _ _ _ _ _ _ _ L). apply L.
Qed.

(** ** The operations implement the queue *)

Lemma append_queue config key s d q topic ev r s' d' :
  represents config key s d q -> acceptable topic ev -> is_zero (clock d) = false ->
  nextSequence s + 1 < modulus64 -> Append topic ev (s, d) = (r, (s', d')) ->
  match r with
  | Ok rec => represents config key s' d' (enqueue rec q) /\
              r_EdgeSequence rec = q_committed q + zlen (q_records q) + 1 /\
              r_Topic rec = topic /\ r_Event rec = ev
  | Err e => represents config key s' d' q \/ failed s' <> None
  end.
Proof.
  intros R Hacc Ht Hb HA. destruct r as [rec|e]; [by eapply append_represents|].
  pose proof R as (n & h & full & act & base & old & now & L & _).
  pose proof (append_outcome _ _ _ _ _ _ _ _ _ _ _ _ L HA) as O.
  inversion O; subst; [left; by apply represents_refused|right; apply fail_failed..].
Qed.


(** Pending returns the queue, cut at a positive limit; it changes neither the
    store nor the directory, and without I/O faults it never fails. *)
Theorem pending_reads_queue config key s d q limit r s' d' :
  represents config key s d q -> Pending limit (s, d) = (r, (s', d')) ->
  s' = s /\ files d' = files d /\ (forall rs, r = Ok rs -> rs = cut limit (q_records q)) /\
  (faults d = [] -> r = Ok (cut limit (q_records q))).
Proof.
  intros (n & h & full & act & base & old & now & L & T & C & Hc & ->) HP.
  pose proof (pending_spec s d n h full act base limit L) as Hwp. unfold wp in Hwp. rewrite HP in Hwp.
  cbn [fst snd] in Hwp. destruct Hwp as (-> & Hf & _ & Hok & Hq). split; [done|]. split; [done|]. split.
  - intros rs ->. by injection (Hok eq_refl) as ->.
  - intros [Hr _]%Hq. auto.
Qed.

Lemma commit_queue config key s d q sequence r s' d' :
  represents config key s d q -> Commit sequence (s, d) = (r, (s', d')) ->
  match r with
  | Ok _ => sequence <= q_committed q /\ s' = s /\ d' = d \/
            sequence = q_committed q + 1 /\ q_records q <> [] /\ represents config key s' d' (dequeue q)
  | Err e => (q_committed q + 1 < sequence \/ q_records q = []) /\ represents config key s' d' q \/
             failed s' <> None
  end.
Proof.
  intros R HC. pose proof (represents_numbered _ _ _ _ _ R) as [_ Hnext].
  pose proof R as (n & h & full & act & base & old & now & L & T & C & Hc & Hq).
  pose proof (commit_spec _ _ _ _ _ _ _ _ _ _ _ L HC) as O.
  inversion O as [Hle|e Hlt Hbad|e d0 Hin Ha Hclk Hwhy|payload gone rest d0 [Hseq Hlt] Hp Hfull Hcomp Hd Hs
    |payload gone rest e s0 d0 Hin Hp Hfull Hg Hd Hclk Hft]; subst.
  - left. split; [congruence|done].
  - left. split; [|done]. rewrite <- Hc in *. destruct Hbad as [Hbad|Hbad]; [left; lia|].
    destruct (Z.eq_dec sequence (q_committed q + 1)); [|left; lia].
    right. apply zlen_zero. pose proof (zlen_nonneg (q_records q)). lia.
  - right. apply fail_failed.
  - right. rewrite Hc. assert (q_records q <> []) as Hne.
    { intros E. rewrite E in Hnext. change (zlen []) with 0 in Hnext. lia. }
    split; [done|]. split; [done|].
    destruct (commit_tidy _ _ _ _ _ _ _ _ _ _ _ _ _ L T (conj eq_refl Hlt) Hp (proj1 Hcomp) Hd)
      as (old' & now' & L' & T' & Hcat & HF). set (lastm := meta_of _ _ _ _) in *.
    destruct (after_compact_fields n h (committed s + 1) gone rest lastm s) as (_ & _ & _ & _ & _ & _ & _ & E8 & _).
    exists (n + zlen (concat gone)), (final_hash h (concat gone)), rest, act, (sourceSequence s), old', now'.
    split; [done|]. split; [done|]. split; [eapply configured_same; [done|apply after_compact_config]|].
    cbn [dequeue q_committed q_records]. rewrite E8, Hc. split; [done|].
    rewrite Hq. pose proof (log_files_records _ _ _ _ _ _ (lv_files _ _ _ _ _ _ _ L)) as (Hnum & _).
    destruct (lv_first _ _ _ _ _ _ _ L) as [Hpos Hle].
    rewrite <- (uncommitted_drop _ _ _ HF), <- Hcat, !(uncommitted_numbered n) by (done || lia).
    replace (Z.to_nat (committed s + 1 + 1 - n)) with (Z.to_nat (committed s + 1 - n) + 1)%nat by lia.
    by rewrite <- drop_drop.
  - right. apply fail_failed.
Qed.

(** C8: Commit acknowledges the head of the queue and nothing else: a successful
    commit either names a sequence already committed and changes nothing, or names
    the head, which leaves the queue.  A refused commit is a gap or an unknown
    sequence and leaves the queue alone; any other error stops the store.
    Compaction removes no record of the queue. *)
Theorem commit_dequeues config key s d q sequence r s' d' :
  represents config key s d q -> Commit sequence (s, d) = (r, (s', d')) ->
  match r with
  | Ok _ => sequence <= q_committed q /\ s' = s /\ d' = d \/
            sequence = q_committed q + 1 /\ q_records q <> [] /\ represents config key s' d' (dequeue q)
  | Err e => (q_committed q + 1 < sequence \/ q_records q = []) /\ represents config key s' d' q \/
             failed s' <> None
  end.
Proof. apply commit_queue. Qed.

(** ** Crashes *)

(** What a crash and a restart give back: the directory keeps a prefix of every file
    that includes its synced bytes, segment headers are whole, and the restart meets
    no I/O fault. *)
Definition restarts_as (config : Config) (key : private_key) (d : disk) (P : queue -> Prop) : Prop :=
  forall d2, crash d d2 -> faults d2 = [] ->
  (forall path f, has_suffix path ".tfwal" = true -> files d2 !! path = Some f ->
     segmentHeaderBytes <= zlen (data f)) ->
  exists s' d' q, Open config key d2 = (Ok s', d') /\ represents config key s' d' q /\ P q.

Lemma reopens_restarts config key d (P : Store -> disk -> list WalRecord -> Prop) (Q : queue -> Prop) :
  reopens config key d P ->
  (forall s' d' rs, P s' d' rs -> Q (mkQueue (committed s') (uncommitted (committed s') rs))) ->
  restarts_as config key d Q.
Proof.
  intros HR HQ d2 HC Hq Hhdr.
  destruct (HR d2 HC Hq Hhdr) as (s' & d' & n & h & full & act & base & old & now & HO & _ & L & T & C & HP).
  exists s', d', (mkQueue (committed s') (uncommitted (committed s') (concat (full ++ [act])))).
  split; [done|]. split; [|by eapply HQ]. by exists n, h, full, act, base, old, now.
Qed.

Lemma append_crash config key s d q topic ev r s1 d1 :
  represents config key s d q -> acceptable topic ev -> is_zero (clock d) = false ->
  nextSequence s + 1 < modulus64 -> limits_ok config ->
  Append topic ev (s, d) = (r, (s1, d1)) ->
  restarts_as config key d1 (fun q' =>
    match r with
    | Ok rec => q' = enqueue rec q
    | Err _ => q' = q \/
        exists rec p, build_record s topic ev (clock d) = Ok (rec, p) /\ q' = enqueue rec q
    end).
Proof.
  intros (n & h & full & act & base & old & now & L & T & C & Hc & Hq) Hacc Ht Hb Hlim HA.
  assert (forall rec p, build_record s topic ev (clock d) = Ok (rec, p) ->
    uncommitted (committed s) (concat (full ++ [act]) ++ [rec]) = q_records q ++ [rec]) as Hsnoc.
  { intros rec p Hr. destruct (build_record_next _ _ _ _ _ _ Hr) as (_ & Hseq & _).
    rewrite Hq. apply uncommitted_snoc. pose proof (lv_committed _ _ _ _ _ _ _ L). lia. }
  assert (forall rec, r = Ok rec -> exists p, build_record s topic ev (clock d) = Ok (rec, p)) as Hok.
  { intros rec ->. pose proof (append_outcome _ _ _ _ _ _ _ _ _ _ _ _ L HA) as O.
    inversion O as [|? ? ? ? Ha| |? ? ? ? ? ? ? Ha| |]; subst;
      destruct (admission_record _ _ _ _ _ _ _ Ha) as (_ & _ & _ & _ & Hr & _); eauto. }
  eapply reopens_restarts; [eapply append_reopens; eauto|]. unfold enqueue. rewrite Hc.
  intros s' d' rs (-> & extra & -> & Hex). destruct r as [rec|e].
  - destruct (Hok rec eq_refl) as [p Hr]. by rewrite Hex, (Hsnoc _ _ Hr).
  - destruct Hex as [->|(rec & p & Hr & ->)].
    + left. rewrite app_nil_r, <- Hq, <- Hc. by destruct q.
    + right. exists rec, p. by rewrite (Hsnoc _ _ Hr).
Qed.


Lemma commit_crash config key s d q sequence r s1 d1 :
  represents config key s d q -> limits_ok config -> Commit sequence (s, d) = (r, (s1, d1)) ->
  restarts_as config key d1 (fun q' =>
    q' = q /\ (r = Ok tt -> sequence <= q_committed q) \/
    q' = dequeue q /\ sequence = q_committed q + 1 /\ q_records q <> []).
Proof.
  intros R Hlim HC. pose proof (represents_numbered _ _ _ _ _ R) as [_ Hnext].
  pose proof R as (n & h & full & act & base & old & now & L & T & C & Hc & Hq).
  eapply reopens_restarts; [eapply commit_reopens; eauto|].
  intros s' d' rs (Hrs & Hcase & Hok). rewrite Hrs, Hc. destruct Hcase as [E|[E [Hseq Hlt]]]; rewrite E in *.
  - left. split; [|done]. rewrite <- Hc at 1. rewrite <- Hq. by destruct q.
  - right. split; [|split; [done|]].
    + unfold dequeue. rewrite Hc, Hseq, Hq. f_equal.
      pose proof (log_files_records _ _ _ _ _ _ (lv_files _ _ _ _ _ _ _ L)) as (Hnum & _).
      destruct (lv_first _ _ _ _ _ _ _ L) as [Hpos Hle].
      rewrite !(uncommitted_numbered n) by (done || lia).
      replace (Z.to_nat (committed s + 1 + 1 - n)) with (Z.to_nat (committed s + 1 - n) + 1)%nat by lia.
      by rewrite <- drop_drop.
    + intros Enil. rewrite Enil in Hnext. change (zlen []) with 0 in Hnext. lia.
Qed.


(** ** Opening and closing *)

Lemma open_empty config key d :
  faults d = [] -> limits_ok config -> blank (trim_space (cf_EdgeID config)) = false ->
  ascii_text (trim_space (cf_EdgeID config)) = true -> files d !! checkpointFile = None ->
  (forall k, is_Some (files d !! k) -> has_suffix k ".tfwal" = false /\ has_suffix k ".tfseal" = false) ->
  exists s d', Open config key d = (Ok s, d') /\ represents config key s d' (mkQueue 0 []) /\
    nextSequence s = 1.
Proof.
  intros Hq Hlim Hb Ha Hcp Hnone.
  assert (forall suffix, suffix = ".tfwal" \/ suffix = ".tfseal" -> listing (files d) suffix []) as Hl.
  { intros suffix Hs k Hk. split; [|by intros ?%not_elem_of_nil]. intros [H1 H2]%Hnone.
    destruct Hs as [-> | ->]; congruence. }
  destruct (open_recovers config key d 1 "" [] [] 0 ∅ [] [] Hq Hlim ltac:(by left))
    as (s & d' & full & act & HO & _ & Hcat & L & T & Hc & Hconf).
  { split; try done; try (by repeat split); try (by constructor).
    - cbn. split; [lia|]. split; [lia|]. done.
    - apply Hl. by right.
    - apply Hl. by left.
    - unfold checkpointed. by rewrite Hcp. }
  exists s, d'. split; [done|]. split.
  - exists 1, "", full, act, ∅, [], []. split; [done|]. split; [done|]. split; [done|].
    rewrite Hc, Hcat. done.
  - by rewrite (lv_next _ _ _ _ _ _ _ L), Hcat.
Qed.

(** Opening an empty directory gives the empty queue, with sequence numbers
    starting at one. *)
Theorem open_starts_empty config key d :
  faults d = [] -> limits_ok config -> blank (trim_space (cf_EdgeID config)) = false ->
  ascii_text (trim_space (cf_EdgeID config)) = true -> files d !! checkpointFile = None ->
  (forall k, is_Some (files d !! k) -> has_suffix k ".tfwal" = false /\ has_suffix k ".tfseal" = false) ->
  exists s d', Open config key d = (Ok s, d') /\ represents config key s d' (mkQueue 0 []) /\
    nextSequence s = 1.
Proof. apply open_empty. Qed.

Lemma close_effect s d n h full act base r s' d' :
  live s d n h full act base -> Close (s, d) = (r, (s', d')) -> r = Ok tt ->
  (act = [] /\ files d' = files d) \/
  (act <> [] /\ exists root seal payload,
     sealed_as s (n + zlen (concat full)) (final_hash h (concat full)) act (clock d) root seal payload /\
     files d' = write_seal_file (files d) (n + zlen (concat full)) payload).
Proof.
  intros L HC. destruct (live_active _ _ _ _ _ _ _ L) as (_ & Hh & Hr & Hsegs & Hok & _ & _).
  set (start := n + zlen (concat full)) in *. set (hash := final_hash h (concat full)) in *.
  enough (wp Close (fun r sd => r = Ok tt -> (act = [] /\ files sd.2 = files d) \/
    (act <> [] /\ exists root seal payload, sealed_as s start hash act (clock d) root seal payload /\
     files sd.2 = write_seal_file (files d) start payload)) (s, d)) as Hwp.
  { unfold wp in Hwp. by rewrite HC in Hwp. }
  unfold Close. wp_steps. rewrite (lv_closed _ _ _ _ _ _ _ L). wp_steps.
  rewrite (lv_current _ _ _ _ _ _ _ L). fold start. wp_steps.
  pose proof Hh as (b & f & Hf & _). pose proof (holds_synced _ _ _ _ Hh Hf) as Hs.
  eapply wp_os_sync; [done|]. intros r1 d1 [S1 F1].
  rewrite (sync_file_synced _ Hs), insert_id in F1 by done.
  assert (files d1 = files d) as F1' by (by destruct (is_ok r1)). clear F1. destruct r1 as [[]|e]; wp_steps; [|done].
  apply wp_os_close. intros r2 d2 F2 S2. rewrite F1' in F2. destruct r2 as [[]|e]; wp_steps; [|done].
  destruct (decide (act = [])) as [->|Hne].
  { unfold seal_last. wp_steps. cbn [segments set_current set_closed]. rewrite Hsegs, last_snoc.
    change (sm_recordCount (meta_of start hash [] false)) with 0. cbn. wp_steps. by left. }
  eapply seal_last_eq; [exact Hsegs|done|]. wp_steps.
  apply wp_sealSegment; [done|by rewrite F2|done|done| |by intros].
  rewrite (proj1 S2), (proj1 S1), F2. intros root seal payload d3 Hseal Hnone F3 _. wp_steps. intros _.
  right. split; [done|]. by exists root, seal, payload.
Qed.

(** C24: Closing and reopening is the identity on the queue: after a successful close,
    opening the directory again with the same configuration and key gives a store
    for the same queue. *)
Theorem close_then_open config key s d q s1 d1 :
  represents config key s d q -> limits_ok config -> is_zero (clock d) = false ->
  Close (s, d) = (Ok tt, (s1, d1)) -> faults d1 = [] ->
  exists s2 d2, Open config key d1 = (Ok s2, d2) /\ represents config key s2 d2 q.
Proof.
  intros (n & h & full & act & base & old & now & L & T & C & Hc & Hq) Hlim Ht HC Hfree.
  destruct (configured_key _ _ _ C) as [Ekey Eedge].
  pose proof (live_directory _ _ _ _ _ _ _ _ _ L T) as D.
  assert (exists now', directory (edgeID s) (sg_keyID (signer s)) (files d1) n h (full ++ [act]) []
    (committed s) base old now') as [now' D1].
  { destruct (close_effect _ _ _ _ _ _ _ _ _ _ L HC eq_refl) as [[_ ->]|(Hne & root & seal & payload & Hseal & ->)];
      [by exists now|].
    exists (now ++ [seal]). eapply sealed_directory; try done. by eapply tidy_seal_fresh. }
  rewrite Ekey, Eedge in D1.
  destruct (open_recovers config key d1 n h _ [] _ base old now' Hfree Hlim ltac:(by left) D1)
    as (s2 & d2 & full' & act' & HO & _ & Hcat & L' & T' & Hc' & C').
  exists s2, d2. split; [done|]. exists n, h, full', act', base, old, now'.
  rewrite Hcat, Hc'. do 3 (split; [done|]). by split.
Qed.

(** ** Limits *)

Definition file_size (fs : gmap string file) (path : string) : Z :=
  match fs !! path with Some f => zlen (data f) | None => 0 end.

Lemma log_sizes edge fs n h log sealed :
  log_files edge fs n h log [] ->
  (file_size fs ∘ sm_path) <$> metas n h log sealed = seg_size <$> log.
Proof.
  revert n h. induction log as [|rs log IH]; intros n h Hl; cbn [metas fmap list_fmap]; [done|].
  destruct Hl as ((b & f & Hf & Hd & Hi & _) & _ & Hl). f_equal; [|by apply IH].
  cbn. unfold file_size. rewrite Hf, Hd.
  destruct log; rewrite app_nil_r, zlen_app; change (zlen segmentHeader) with segmentHeaderBytes; by apply image_size.
Qed.

(** C25: The byte budget holds: the store's byte count is the total length of its
    segment files, an acknowledged append leaves it within the configured maximum,
    and the active segment within the configured segment size. *)
Theorem append_within_limits config key s d q topic ev rec s' d' :
  represents config key s d q -> acceptable topic ev -> is_zero (clock d) = false ->
  nextSequence s + 1 < modulus64 -> Append topic ev (s, d) = (Ok rec, (s', d')) ->
  totalBytes s' = sumZ ((file_size (files d') ∘ sm_path) <$> segments s') /\
  totalBytes s' <= maxBytes s' /\ currentSize s' <= segmentBytes s'.
Proof.
  intros (n & h & full & act & base & old & now & L & T & C & Hc & Hq) Hacc Ht Hb HA. split.
  - destruct (append_tidy _ _ _ _ _ _ _ _ _ _ _ _ _ _ L T Hacc Ht Hb HA) as (full' & act' & now' & L' & _).
    rewrite (lv_segments _ _ _ _ _ _ _ L'), (log_sizes (edgeID s')) by apply L'. apply L'.
  - pose proof (append_outcome _ _ _ _ _ _ _ _ _ _ _ _ L HA) as O.
    inversion O as [|? p ? ? Ha| |? p ? ? ? ? ? Ha| |]; subst;
      destruct (admission_record _ _ _ _ _ _ _ Ha) as (_ & _ & _ & _ & _ & Hseg & Hmax & Hfull);
      cbn [note_append set_lineage set_sourceSequence set_nextSequence set_segments set_totalBytes
        set_currentSize set_current open_segment sealed_store totalBytes maxBytes currentSize segmentBytes].
    + split; [lia|]. symmetry in Hfull. apply andb_false_iff in Hfull as [Hfull|Hfull]; guards; lia.
    + split; lia.
Qed.

(** Room comes back: once the last outstanding record is committed, a log whose
    maximum is at least two segments accepts any record that fits a segment (given
    working I/O and encoders), so back-pressure is never permanent there. *)
Theorem commit_makes_room config key s d q head s1 d1 topic ev rec p :
  represents config key s d q -> q_records q = [head] ->
  currentSize s <= segmentBytes s -> 2 * segmentBytes s <= maxBytes s ->
  Commit (q_committed q + 1) (s, d) = (Ok tt, (s1, d1)) ->
  faults d1 = [] -> ~ encoder_fails ->
  blank topic = false -> Event_Validate ev = Ok tt ->
  build_record s1 topic ev (clock d1) = Ok (rec, p) ->
  zlen (frame p) + segmentHeaderBytes <= segmentBytes s1 ->
  exists s2 d2, Append topic ev (s1, d1) = (Ok rec, (s2, d2)).
Proof.
  intros R Hone Hcur Hmax HC Hfree Henc Htop Hval Hr Hfit.
  pose proof (represents_numbered _ _ _ _ _ R) as [_ Hnext]. rewrite Hone in Hnext.
  change (zlen [head]) with 1 in Hnext.
  pose proof R as (n & h & full & act & base & old & now & L & T & C & Hc & Hq).
  pose proof (commit_spec _ _ _ _ _ _ _ _ _ _ _ L HC) as O. rewrite Hc in *.
  inversion O as [Hle| | |payload gone rest d0 Hin Hp Hfull Hcomp Hd Hs|]; [lia|]. subst.
  destruct (commit_tidy _ _ _ _ _ _ _ _ _ _ _ _ _ L T Hin Hp (proj1 Hcomp) Hd)
    as (old' & now' & L' & T' & Hcat & HF). set (lastm := meta_of _ _ _ _) in *.
  set (s1 := after_compact _ _ _ _ _ _ _) in *.
  destruct (after_compact_fields n h (committed s + 1) gone rest lastm s)
    as (_ & E2 & E3 & _ & E5 & E6 & _ & E8 & _). fold s1 in E2, E3, E5, E6, E8.
  assert (rest = []) as ->.
  { destruct rest as [|rs rest]; [done|]. exfalso. destruct Hcomp as [_ Hcomp].
    pose proof (lv_next _ _ _ _ _ _ _ L') as Hn'. rewrite E6 in Hn'. cbn [app concat] in Hn'.
    rewrite zlen_app in Hn'. pose proof (zlen_nonneg (concat (rest ++ [act]))). lia. }
  assert (totalBytes s1 = currentSize s1) as Htot.
  { rewrite (lv_total _ _ _ _ _ _ _ L'), (lv_currentSize _ _ _ _ _ _ _ L'). cbn. lia. }
  pose proof (lv_closed _ _ _ _ _ _ _ L') as Hcl. pose proof (lv_failed _ _ _ _ _ _ _ L') as Hfl.
  assert (exists full', admission s1 topic ev (clock d1) = inr (rec, p, full')) as [full' Ha].
  { unfold admission. rewrite Hcl, Hfl, Htop, Hval, Hr, <- zlen_frame. rewrite E2 in Hfit.
    rewrite (proj2 (Z.ltb_ge (segmentBytes s1) _)) by (rewrite E2; lia).
    rewrite (proj2 (Z.ltb_ge (maxBytes s1) (totalBytes s1 + _))) by (rewrite Htot, E5, E3; change segmentHeaderBytes with 8 in *; lia).
    rewrite (proj2 (Z.ltb_ge (maxBytes s1) (totalBytes s1 + segmentHeaderBytes + _)))
      by (rewrite Htot, E5, E3; change segmentHeaderBytes with 8 in *; lia).
    rewrite andb_false_r. eauto. }
  by eapply append_accepts.
Qed.

(** ** Failures *)

Lemma failed_refuses s d :
  failed s <> None ->
  exists e, (forall topic ev, Append topic ev (s, d) = (Err e, (s, d))) /\
    (forall limit, Pending limit (s, d) = (Err e, (s, d))) /\
    (forall sequence, Commit sequence (s, d) = (Err e, (s, d))) /\ Ready (s, d) = (Err e, (s, d)).
Proof.
  intros Hf. destruct (failed s) as [e|] eqn:E; [|done].
  exists (if closed s then ErrClosed else e).
  cbv [Append Pending Commit Ready the_store on_state mbind M_mbind raise id].
  by destruct (closed s); rewrite ?E.
Qed.

(** No write after a torn write: when an append or a commit returns an error and
    has changed the directory, the store is latched, and every later append, read,
    commit and readiness check returns one fixed error and touches nothing. *)
Theorem torn_write_latches config key s d q (op : string * Event + Z) e s' d' :
  represents config key s d q ->
  match op with
  | inl (topic, ev) => exists rec, Append topic ev (s, d) = (rec, (s', d')) /\ rec = Err e
  | inr sequence => Commit sequence (s, d) = (Err e, (s', d'))
  end ->
  files d' <> files d ->
  exists e', (forall topic ev, Append topic ev (s', d') = (Err e', (s', d'))) /\
    (forall limit, Pending limit (s', d') = (Err e', (s', d'))) /\
    (forall sequence, Commit sequence (s', d') = (Err e', (s', d'))) /\
    Ready (s', d') = (Err e', (s', d')).
Proof.
  intros (n & h & full & act & base & old & now & L & T & C & Hc & Hq) Hop Hne.
  apply failed_refuses. destruct op as [[topic ev]|sequence].
  - destruct Hop as (rec & HA & ->). pose proof (append_outcome _ _ _ _ _ _ _ _ _ _ _ _ L HA) as O.
    inversion O; subst; [done|apply fail_failed..].
  - pose proof (commit_spec _ _ _ _ _ _ _ _ _ _ _ L Hop) as O.
    inversion O; subst; [done|apply fail_failed..].
Qed.

(** ** Damage *)

(** C26: A damaged frame is never skipped or cut off: if the frame after a run of good
    frames is complete but its checksum does not match its payload, the scan fails,
    also when it is allowed to repair a torn tail. *)
Theorem damaged_frame_fails_closed rt rs b payload crc rest :
  image rs b -> 0 < zlen payload <= maxFrameLength -> 0 <= crc < 2 ^ 32 -> crc <> crc32 payload ->
  scan_data rt (segmentHeader ++ b ++ (be32 (zlen payload) ++ be32 crc ++ payload) ++ rest) =
  Err (ErrMsg "WAL frame CRC mismatch").
Proof.
  intros Hi Hp Hcrc Hne. unfold scan_data.
  set (bad := (be32 (zlen payload) ++ be32 crc ++ payload) ++ rest).
  rewrite length_app. change (length segmentHeader) with 8%nat.
  destruct (Nat.ltb_spec (8 + length (b ++ bad)) 8); [lia|].
  change (take 8 (segmentHeader ++ b ++ bad)) with segmentHeader.
  change (drop 8 (segmentHeader ++ b ++ bad)) with (b ++ bad).
  rewrite bool_decide_eq_true_2 by done. cbn [negb].
  destruct (scan_image (8 + length (b ++ bad)) rt rs b bad segmentHeaderBytes [] Hi) as (fuel & Hfuel & ->); [lia|].
  destruct fuel as [|fuel]; [lia|]. cbn [scan_frames].
  assert (length bad = 8 + length payload + length rest)%nat as Hlen.
  { unfold bad. rewrite !length_app, !length_be32. lia. }
  destruct (Nat.eqb_spec (length bad) 0); [lia|]. destruct (Nat.ltb_spec (length bad) 8); [lia|].
  change (take 4 bad) with (be32 (zlen payload)). change (take 4 (drop 4 bad)) with (be32 crc).
  change (drop 8 bad) with (payload ++ rest). rewrite be32_zlen, be32_decode_be32 by lia.
  destruct (Z.eqb_spec (zlen payload) 0); [lia|]. destruct (Z.ltb_spec maxFrameLength (zlen payload)); [lia|].
  cbn [orb]. rewrite zlen_app. pose proof (zlen_nonneg rest).
  destruct (Z.ltb_spec (zlen payload + zlen rest) (zlen payload)); [lia|].
  replace (Z.to_nat (zlen payload)) with (length payload) by (unfold zlen; lia).
  rewrite take_app_length, (proj2 (Z.eqb_neq (crc32 payload) crc)) by done. done.
Qed.

Lemma scan_short path rt f d :
  files d !! path = Some f -> zlen (data f) < segmentHeaderBytes ->
  wp (scanSegment path rt) (fun r d' => is_ok r = false) d.
Proof.
  intros Hf Hs. unfold scanSegment. wp_steps. eapply wp_os_read; [done|]. intros [p|e] d1 _ _ R; wp_steps; [|done].
  injection (R eq_refl) as ->. unfold scan_data.
  destruct (Nat.ltb_spec (length (data f)) 8); [|unfold zlen, segmentHeaderBytes in Hs; lia].
  by destruct (_ =? _)%nat.
Qed.

Lemma scan_elsewhere path other rt d :
  path <> other -> wp (scanSegment path rt) (fun _ d' => files d' !! other = files d !! other) d.
Proof.
  intros Hne. unfold scanSegment, os_read, os_stat, os_truncate, os_sync. wp_steps.
  apply wp_syscall. intros [[]|e] d1 F1 _; wp_steps; [|by rewrite F1].
  destruct (files d1 !! path) as [f|]; wp_steps; [|by rewrite F1].
  destruct (scan_data rt (data f)) as [[[rs good] []]|e]; wp_steps; [| |by rewrite F1].
  - apply wp_syscall. intros [[]|e] d2 F2 _; wp_steps; [|by rewrite F2, F1].
    assert (forall d' g, files d' = files d -> files (with_files d' (alter g path (files d'))) !! other =
              files d !! other) as Ha by (intros d' g E; cbn; by rewrite lookup_alter_ne, E).
    apply wp_syscall. intros [[]|e] d3 F3 _; wp_steps; [|rewrite F3; apply Ha; congruence].
    assert (forall g, files (with_files d3 (alter g path (files d3))) !! other = files d !! other) as Hb.
    { intros g. cbn. rewrite lookup_alter_ne, F3 by done. apply Ha. congruence. }
    apply wp_syscall. intros [[]|e] d4 F4 _; wp_steps; [|rewrite F4; apply Hb].
    destruct (files d4 !! path); wp_steps; rewrite F4; apply Hb.
  - apply wp_syscall. intros [[]|e] d2 F2 _; wp_steps; [|by rewrite F2, F1].
    destruct (files d2 !! path); wp_steps; by rewrite F2, F1.
Qed.

Section short_segment.
Context (path : string) (f : file) (Hshort : zlen (data f) < segmentHeaderBytes).

Definition still_short (sd : Store * disk) : Prop := files sd.2 !! path = Some f.

Lemma recover_segment_short seals p isLast prev s d :
  still_short (s, d) ->
  wp (recover_segment seals p isLast prev)
    (fun r sd => is_ok r = false \/ (p <> path /\ still_short sd)) (s, d).
Proof.
  intros Hf. unfold recover_segment. wp_steps. destruct (decide (p = path)) as [->|Hne].
  { eapply wp_mono; [by eapply scan_short|]. intros [x|e] d' H; [done|]. by left. }
  eapply wp_mono; [by apply scan_elsewhere|]. intros [[[rs size] cutoff]|e] d' E; wp_steps; [|by left].
  assert (forall s', still_short (s', d')) as Hs by (intros; unfold still_short in *; cbn in *; congruence).
  destruct (recover_records _ _ _) as [st|e]; wp_steps; [|by left].
  destruct (VerifyRecordChain _ _) as [[final leaves]|e]; wp_steps; [|by left].
  assert (forall P, (forall s', P (Ok tt) (s', d')) -> forall s', wp (match rs with [] => mret tt | _ =>
    set_state (fun s => set_lineage final (lastSegmentRoot s) (sealedSegments s) s) end) P (s', d')) as Hm.
  { intros P HP s'. destruct rs; apply HP. }
  apply Hm. intros s'. wp_steps. destruct (seals !! p) as [seal|]; wp_steps; [|by right].
  split_if; wp_steps; [by left|]. split_if; wp_steps; [by left|].
  destruct (verifySealAgainstRecords _ _ _); wp_steps; [by right|by left].
Qed.

Lemma recover_segments_short seals paths prev s d :
  path ∈ paths -> still_short (s, d) ->
  wp (recover_segments seals paths prev) (fun r _ => is_ok r = false) (s, d).
Proof.
  revert prev s d. induction paths as [|p paths IH]; intros prev s d Hin Hs; [by apply not_elem_of_nil in Hin|].
  cbn [recover_segments]. wp_steps. eapply wp_mono; [by apply recover_segment_short|].
  intros [prev'|e] [s' d'] H; [|done]. wp_steps. destruct H as [H|[Hne H]]; [done|].
  apply elem_of_cons in Hin as [->|Hin]; [done|]. by apply IH.
Qed.

Lemma load_seals_files paths acc s d :
  wp (load_seals paths acc) (fun _ sd => files sd.2 = files d) (s, d).
Proof.
  revert acc d. induction paths as [|p paths IH]; intros acc d; cbn [load_seals]; wp_steps; [done|].
  unfold ReadSeal, os_read. wp_steps. apply wp_syscall. intros [[]|e] d1 F1 _; wp_steps; [|done].
  destruct (files d1 !! p) as [g|]; wp_steps; [|done]. destruct (decode_seal (data g)) as [seal|]; wp_steps; [|done].
  assert (forall acc', wp (load_seals paths acc') (fun _ sd => files sd.2 = files d) (s, d1)) as IH'.
  { intros acc'. rewrite <- F1. apply IH. }
  destruct (VerifySeal seal None) as [[]|e]; wp_steps; [|done].
  split_if; wp_steps; [done|]. split_if; wp_steps; [done|].
  destruct (last acc); repeat (split_if; wp_steps; [done|]); apply IH'.
Qed.

Lemma load_checkpoint_files s d :
  wp loadCheckpoint (fun _ sd => files sd.2 = files d) (s, d).
Proof.
  unfold loadCheckpoint, os_read. wp_steps. apply wp_syscall. intros [[]|e] d1 F1 _; wp_steps.
  - destruct (files d1 !! checkpointFile) as [g|]; wp_steps; [|by destruct (errors_is _ _)].
    destruct (decode_checkpoint (data g)); wp_steps; [|done]. by split_if; wp_steps.
  - by destruct (errors_is _ _).
Qed.

Lemma recover_short s d :
  has_suffix path ".tfwal" = true -> still_short (s, d) ->
  wp recover (fun r _ => is_ok r = false) (s, d).
Proof.
  intros Hsuf Hs. unfold recover, loadSealChain. wp_steps. apply wp_list_dir. wp_steps.
  eapply wp_mono; [apply load_seals_files|]. intros [ss|e] [s1 d1] E; wp_steps; [|done]. cbn in E.
  apply wp_list_dir. wp_steps. destruct (recovery_anchor _ _) as [a|e]; wp_steps; [|done].
  assert (still_short (s, d1)) as Hs1 by (unfold still_short in *; cbn in *; congruence).
  eapply wp_mono; [apply recover_segments_short; [|exact Hs1]|].
  - apply elem_of_glob. split; [|done]. unfold still_short in Hs1. cbn in Hs1. rewrite Hs1. by eexists.
  - by intros [prev|e] sd H; wp_steps.
Qed.

End short_segment.

(** A segment file shorter than its eight-byte header makes every open fail,
    whatever else the directory holds and whichever I/O succeeds: the torn-tail repair
    covers frames, not the header that [createSegment] writes after creating the file. *)
Theorem short_segment_blocks_open config key d path f :
  has_suffix path ".tfwal" = true -> files d !! path = Some f -> zlen (data f) < segmentHeaderBytes ->
  is_ok (Open config key d).1 = false.
Proof.
  intros Hsuf Hf Hshort. unfold Open. destruct (bool_decide _); [done|]. cbv zeta.
  destruct (_ <? _); [done|]. set (s0 := mkStore _ _ _ _ _ _ _ _ _ _ _ _ _ _ _ _ _).
  assert (wp (loadCheckpoint;; recover) (fun r _ => is_ok r = false) (s0, d)) as Hwp.
  { wp_steps. eapply wp_mono; [apply load_checkpoint_files|].
    intros [[]|e] [s1 d1] E; wp_steps; [|done]. cbn in E. eapply recover_short; [exact Hshort|done|].
    unfold still_short. cbn. congruence. }
  unfold wp in Hwp. by destruct ((loadCheckpoint;; recover) (s0, d)) as [[[]|e] [s' d']].
Qed.

End theorems.

(** ** A reference directory

    The witnesses below run the store on an empty directory with the reference codecs
    and signer. *)

#[export] Instance wire_checkpoint : Wire checkpoint.
Proof.
  refine (wire_iso
    (fun c => (cp_Format c, cp_FormatVersion c, cp_CommittedSequence c, cp_SourceSequences c))
    (fun '(f, v, l, m) => mkCheckpoint f v l m) _).
  by intros [].
Defined.

Lemma wire_checkpoint_law (c : checkpoint) (p : bytes) :
  checkpoint_ascii c -> Some (wput c) = Some p -> wire_decode_prefix (p ++ [newline]) = Some c.
Proof. intros _. apply wire_law. Qed.

Definition wire_checkpoint_codec : CheckpointCodec := {|
  marshal_checkpoint c := Some (wput c);
  decode_checkpoint := wire_decode_prefix;
  decode_marshal_checkpoint := wire_checkpoint_law;
|}.

#[local] Existing Instance toy_ed25519.
#[local] Existing Instance wire_seal_codec.
#[local] Existing Instance wire_wal_codec.
#[local] Existing Instance wire_checkpoint_codec.

Lemma wire_encodes : ~ encoder_fails.
Proof. intros [[x H]|[[x H]|[x H]]]; discriminate H. Qed.

Lemma example_acceptable src : ascii_text (source_key (example_event src)) = true ->
  acceptable "telemetry" (example_event src).
Proof.
  intros H. split; [reflexivity|]. split; [|exact H].
  exists (x7b :: wput (example_event src)). split; [reflexivity|]. exact (mark_law (example_event src) _ eq_refl).
Qed.

Definition ref_config : Config := mkConfig "edge-1" 4096 8192.
Definition ref_key : @private_key toy_ed25519 := tt.
Definition ref_event : Event := example_event "svc".
Definition ref_disk : disk := mkDisk ∅ [] 7.

(** The store after opening the empty directory, and after one append. *)
Definition opened : Store * disk :=
  Eval vm_compute in
    match Open ref_config ref_key ref_disk with
    | (Ok s, d) => (s, d)
    | (Err _, d) => (mkStore "" 0 0 [] None 0 0 0 ∅ 0 None false false (signer_of tt) "" "" 0, d)
    end.
Definition appended_one : WalRecord * (Store * disk) :=
  Eval vm_compute in
    match Append "telemetry" ref_event opened with
    | (Ok r, sd) => (r, sd)
    | (Err _, sd) => (example_record 0 "", sd)
    end.

Lemma opened_eq : Open ref_config ref_key ref_disk = (Ok opened.1, opened.2).
Proof. vm_cast_no_check (eq_refl (Ok (A:=Store) opened.1, opened.2)). Qed.

Lemma appended_one_eq : Append "telemetry" ref_event opened = (Ok appended_one.1, appended_one.2).
Proof. vm_cast_no_check (eq_refl (Ok appended_one.1, appended_one.2)). Qed.

Lemma ref_limits : limits_ok ref_config.
Proof. by split; vm_compute. Qed.

Lemma opened_represents : represents ref_config ref_key opened.1 opened.2 (mkQueue 0 []).
Proof.
  destruct (open_empty ref_config ref_key ref_disk) as (s & d & HO & R & _).
  - done.
  - apply ref_limits.
  - by vm_compute.
  - by vm_compute.
  - done.
  - intros k [f Hf]. discriminate Hf.
  - rewrite opened_eq in HO. by injection HO as <- <-.
Qed.

Lemma ref_acceptable : acceptable "telemetry" ref_event.
Proof. by apply example_acceptable. Qed.

Definition one : queue := enqueue appended_one.1 (mkQueue 0 []).

Lemma appended_one_represents : represents ref_config ref_key appended_one.2.1 appended_one.2.2 one.
Proof.
  eapply append_represents.
  - exact opened_represents.
  - exact ref_acceptable.
  - reflexivity.
  - reflexivity.
  - rewrite <- surjective_pairing. rewrite <- surjective_pairing. exact appended_one_eq.
Qed.

(** The same directory, on a device that fails every write after three bytes. *)
Definition torn_disk : disk := mkDisk (files appended_one.2.2) [IoFail 3] 7.

Lemma pair_split {A B C} (x : A * (B * C)) : x = (x.1, (x.2.1, x.2.2)).
Proof. by destruct x as [? []]. Qed.

(** ** Witnesses *)


Lemma pending_reads_queue_witness :
  (Pending 5 appended_one.2).1 = Ok [appended_one.1].
Proof.
  pose proof (pending_reads_queue ref_config ref_key appended_one.2.1 appended_one.2.2 one 5
    _ _ _ appended_one_represents (pair_split _)) as (_ & _ & _ & H).
  exact (H eq_refl).
Defined.

Lemma commit_dequeues_witness :
  match Commit 1 appended_one.2 with
  | (Ok _, (s, d)) => represents ref_config ref_key s d (mkQueue 1 [])
  | _ => False
  end.
Proof.
  destruct (Commit 1 (appended_one.2.1, appended_one.2.2)) as [r [s d]] eqn:E.
  assert (is_ok (Commit 1 (appended_one.2.1, appended_one.2.2)).1 = true) as Hok by (vm_compute; reflexivity).
  pose proof (commit_dequeues ref_config ref_key _ _ one 1 r s d appended_one_represents E) as H.
  rewrite E in Hok. destruct r as [[]|e]; [|discriminate Hok].
  change (Commit 1 appended_one.2) with (Commit 1 (appended_one.2.1, appended_one.2.2)). rewrite E.
  destruct H as [[H _]|(_ & _ & H)]; [|exact H]. exfalso. apply H. reflexivity.
Defined.



Lemma open_starts_empty_witness :
  exists s d, Open ref_config ref_key ref_disk = (Ok s, d) /\
    represents ref_config ref_key s d (mkQueue 0 []) /\ nextSequence s = 1.
Proof.
  apply (open_starts_empty ref_config ref_key ref_disk).
  - reflexivity.
  - exact ref_limits.
  - vm_compute. reflexivity.
  - vm_compute. reflexivity.
  - reflexivity.
  - intros k [f Hf]. discriminate Hf.
Defined.

Lemma close_then_open_witness :
  exists s d, Open ref_config ref_key (Close appended_one.2).2.2 = (Ok s, d) /\
    represents ref_config ref_key s d one.
Proof.
  assert (is_ok (Close (appended_one.2.1, appended_one.2.2)).1 = true) as Hok by (vm_compute; reflexivity).
  assert (faults (Close (appended_one.2.1, appended_one.2.2)).2.2 = []) as Hf by (vm_compute; reflexivity).
  destruct (Close (appended_one.2.1, appended_one.2.2)) as [[[]|e] [s d]] eqn:E; [|discriminate Hok].
  change (Close appended_one.2) with (Close (appended_one.2.1, appended_one.2.2)). rewrite E.
  exact (close_then_open ref_config ref_key appended_one.2.1 appended_one.2.2 one s d
    appended_one_represents ref_limits eq_refl E Hf).
Defined.

Lemma append_within_limits_witness :
  totalBytes appended_one.2.1 <= 8192 /\ currentSize appended_one.2.1 <= 4096.
Proof.
  assert (Append "telemetry" ref_event (opened.1, opened.2)
    = (Ok appended_one.1, (appended_one.2.1, appended_one.2.2))) as E
    by (vm_cast_no_check (eq_refl (Ok appended_one.1, appended_one.2))).
  exact (proj2 (append_within_limits ref_config ref_key opened.1 opened.2 (mkQueue 0 []) "telemetry" ref_event
    _ _ _ opened_represents ref_acceptable eq_refl eq_refl E)).
Defined.

Definition after_commit : Store * disk := Eval vm_compute in (Commit 1 appended_one.2).2.
Definition second_record : WalRecord * bytes :=
  Eval vm_compute in
    match build_record after_commit.1 "telemetry" ref_event 7 with
    | Ok x => x
    | Err _ => (appended_one.1, [])
    end.

Lemma commit_makes_room_witness :
  exists s d, Append "telemetry" ref_event after_commit = (Ok second_record.1, (s, d)).
Proof.
  assert (Commit (q_committed one + 1) (appended_one.2.1, appended_one.2.2)
    = (Ok tt, (after_commit.1, after_commit.2))) as E
    by (vm_cast_no_check (eq_refl (Ok tt, after_commit))).
  apply (commit_makes_room ref_config ref_key appended_one.2.1 appended_one.2.2 one appended_one.1
    after_commit.1 after_commit.2 "telemetry" ref_event second_record.1 second_record.2
    appended_one_represents eq_refl).
  - vm_compute. discriminate.
  - vm_compute. discriminate.
  - exact E.
  - reflexivity.
  - exact wire_encodes.
  - vm_compute. reflexivity.
  - vm_compute. reflexivity.
  - vm_cast_no_check (eq_refl (Ok (second_record.1, second_record.2))).
  - vm_compute. discriminate.
Defined.

Lemma torn_write_latches_witness :
  exists e, forall limit,
    let '(_, sd) := Append "telemetry" ref_event (appended_one.2.1, torn_disk) in
    Pending limit sd = (Err e, sd).
Proof.
  assert (is_ok (Append "telemetry" ref_event (appended_one.2.1, torn_disk)).1 = false) as Hbad
    by (vm_compute; reflexivity).
  assert (length <$> (data <$> files (Append "telemetry" ref_event (appended_one.2.1, torn_disk)).2.2 !! segmentPath 1)
    = (fun n => n + 3)%nat <$> (length <$> (data <$> files torn_disk !! segmentPath 1))) as Hlen
    by (vm_compute; reflexivity).
  destruct (Append "telemetry" ref_event (appended_one.2.1, torn_disk)) as [[r|e] [s d]] eqn:E;
    [discriminate Hbad|].
  destruct (torn_write_latches ref_config ref_key appended_one.2.1 torn_disk one (inl ("telemetry", ref_event)) e s d)
    as (e' & _ & HP & _).
  - apply (represents_files _ _ _ appended_one.2.2); [reflexivity|exact appended_one_represents].
  - exists (Err e). exact (conj E eq_refl).
  - intros Hd. cbn [fst snd] in Hlen. rewrite Hd in Hlen. vm_compute in Hlen. discriminate Hlen.
  - exists e'. exact HP.
Defined.

Lemma damaged_frame_fails_closed_witness :
  scan_data true (segmentHeader ++ [] ++ (be32 1 ++ be32 0 ++ [x41]) ++ []) =
  Err (ErrMsg "WAL frame CRC mismatch").
Proof.
  apply (damaged_frame_fails_closed true [] [] [x41] 0 []).
  - exists []. split; [constructor|reflexivity].
  - vm_compute. split; [reflexivity|discriminate].
  - lia.
  - vm_compute. discriminate.
Defined.

Lemma short_segment_blocks_open_witness :
  is_ok (Open ref_config ref_key (mkDisk {[segmentPath 1 := mkFile [] 0]} [] 7)).1 = false.
Proof.
  apply (short_segment_blocks_open ref_config ref_key _ (segmentPath 1) (mkFile [] 0)).
  - vm_compute. reflexivity.
  - vm_compute. reflexivity.
  - reflexivity.
Defined.

(** ** A log that stays full *)

(** One segment's worth of space, which [Open] accepts. *)
Definition tight_config : Config := mkConfig "edge-1" 600 600.

(** Open the empty directory, append one record and commit it. *)
Definition tight_run : result unit * (Store * disk) :=
  match Open tight_config ref_key ref_disk with
  | (Ok s, d) => (Append "telemetry" ref_event;; Commit 1) (s, d)
  | (Err e, d) => (Err e, opened)
  end.

(** With a maximum below two segments, back-pressure can be permanent: after one
    record has been appended and committed the queue is empty, yet an append of the same
    event is refused for lack of space, the store reports itself not ready, and a
    restart changes nothing, since compaction always keeps the last segment. *)
Theorem committed_log_stays_full :
  tight_run.1 = Ok tt /\ (Pending 0 tight_run.2).1 = Ok [] /\
  (Append "telemetry" ref_event tight_run.2).1 = Err ErrDiskPressure /\
  (Ready (Append "telemetry" ref_event tight_run.2).2).1 = Err ErrDiskPressure /\
  match Open tight_config ref_key tight_run.2.2 with
  | (Ok s, d) => (Append "telemetry" ref_event (s, d)).1 = Err ErrDiskPressure
  | (Err _, _) => False
  end.
Proof. vm_compute. repeat split. Qed.
