(* ===== verification/WalAudit.v ===== *)
(** * The offline auditor of the write-ahead log ([internal/wal/audit.go])

    [AuditDirectory] checks the signed seals of a directory and the segments that are
    still there.  [audited] is what a passing audit establishes, and every directory
    an open store works on passes. *)

From S2P Require Import Prelude GoStrings Hash Domain Disk Wire Lineage WalModel.
From S2P Require Import WalFrame WalStore WalInv WalOps WalRecovery WalCrash WalTheorems.

Local Open Scope string_scope.
Local Open Scope Z_scope.
Local Open Scope list_scope.

(** ** The report *)

Record AuditSegment := mkAuditSegment {
  as_Segment : string;
  as_FirstSequence : Z;
  as_LastSequence : Z;
  as_RecordCount : Z;
  as_MerkleRoot : string;
  as_KeyID : string;
  as_SignatureValid : bool;
  as_WALPresent : bool;
  as_ContentVerified : bool;
}.

Record AuditReport := mkReport {
  ar_Directory : string;
  ar_EdgeID : string;
  ar_TrustMode : string;
  ar_TrustedKeyID : string;
  ar_SealedSegments : Z;
  ar_ContentSegments : Z;
  ar_SealOnlySegments : Z;
  ar_UnsealedSegments : Z;
  ar_LastSequence : Z;
  ar_LastRecordHash : string;
  ar_LastSegmentRoot : string;
  ar_RecordChainVerified : bool;
  ar_SegmentChainVerified : bool;
  ar_Segments : list AuditSegment;
}.

Section audit.
Context {ED : Ed25519} {SC : SealCodec} {WC : WalCodec} {CC : CheckpointCodec}.

Definition start_report (directory : string) (trusted : option bytes) : AuditReport :=
  mkReport directory "" (match trusted with None => "embedded-key" | Some _ => "trusted-key" end)
    (match trusted with None => "" | Some key => KeyID key end) 0 0 0 0 0 "" "" true true [].

Definition set_edge (edge : string) (r : AuditReport) : AuditReport :=
  mkReport (ar_Directory r) edge (ar_TrustMode r) (ar_TrustedKeyID r) (ar_SealedSegments r)
    (ar_ContentSegments r) (ar_SealOnlySegments r) (ar_UnsealedSegments r) (ar_LastSequence r)
    (ar_LastRecordHash r) (ar_LastSegmentRoot r) (ar_RecordChainVerified r) (ar_SegmentChainVerified r)
    (ar_Segments r).

(** The report after the seal at [index], whose segment is there or not. *)
Definition note_segment (index : Z) (seal : Seal) (present : bool) (r : AuditReport) : AuditReport :=
  mkReport (ar_Directory r) (ar_EdgeID r) (ar_TrustMode r) (ar_TrustedKeyID r) (index + 1)
    (if present then ar_ContentSegments r + 1 else ar_ContentSegments r)
    (if present then ar_SealOnlySegments r else ar_SealOnlySegments r + 1) (ar_UnsealedSegments r)
    (sl_LastSequence seal) (sl_LastRecordHash seal) (sl_MerkleRoot seal) (ar_RecordChainVerified r)
    (ar_SegmentChainVerified r)
    (ar_Segments r ++ [mkAuditSegment (sl_Segment seal) (sl_FirstSequence seal) (sl_LastSequence seal)
                         (sl_RecordCount seal) (sl_MerkleRoot seal) (sl_KeyID seal) true present present]).

Definition note_active (first : WalRecord) (records : list WalRecord) (finalHash : string) (r : AuditReport)
  : AuditReport :=
  mkReport (ar_Directory r) (if bool_decide (ar_EdgeID r = "") then r_EdgeID first else ar_EdgeID r)
    (ar_TrustMode r) (ar_TrustedKeyID r) (ar_SealedSegments r) (ar_ContentSegments r)
    (ar_SealOnlySegments r) (ar_UnsealedSegments r + 1) (r_EdgeSequence (last_or first records)) finalHash
    (ar_LastSegmentRoot r) (ar_RecordChainVerified r) (ar_SegmentChainVerified r) (ar_Segments r).

(** ** The audit *)

(** The seal loop: the seals so far, the root and sequence of the last one, and the
    edge they name. *)
Fixpoint audit_seals (trusted : option bytes) (paths : list string) (seals : list Seal)
    (previousRoot : string) (previousLast : Z) (edge : string) : M disk (list Seal * string) :=
  match paths with
  | [] => mret (seals, edge)
  | path :: paths' =>
      seal ← on_error (ReadSeal path) (fun e => raise (ErrWrap "read seal" e));
      on_error (lift (VerifySeal seal trusted)) (fun e => raise (ErrWrap "verify seal" e));;
      if (if 0 <? zlen seals
          then negb (bool_decide (sl_PreviousSegmentRoot seal = previousRoot))
               || negb (sl_FirstSequence seal =? u64_succ previousLast)
          else false)
      then raise (ErrMsg "lineage seal chain discontinuity")
      else if negb (0 <? zlen seals) && negb (bool_decide (sl_PreviousSegmentRoot seal = ""))
      then raise (ErrMsg "first retained seal references an unavailable predecessor")
      else if bool_decide (edge = "")
      then audit_seals trusted paths' (seals ++ [seal]) (sl_MerkleRoot seal) (sl_LastSequence seal)
             (sl_EdgeID seal)
      else if negb (bool_decide (edge = sl_EdgeID seal))
      then raise (ErrMsg "lineage seals contain multiple edge identities")
      else audit_seals trusted paths' (seals ++ [seal]) (sl_MerkleRoot seal) (sl_LastSequence seal) edge
  end.

(** The segment loop, in the order of the seals. *)
Fixpoint audit_segments (seals : list Seal) (index : Z) (previousHash : string) (report : AuditReport)
  : M disk (string * AuditReport) :=
  match seals with
  | [] => mret (previousHash, report)
  | seal :: seals' =>
      scan ← attempt (scanSegment (sl_Segment seal) false);
      match scan with
      | Ok (records, _, _) =>
          '(finalHash, leaves) ← on_error (lift (VerifyRecordChain records previousHash))
                                   (fun e => raise (ErrWrap "verify record chain" e));
          lift (verifySealAgainstRecords seal records leaves);;
          if negb (bool_decide (finalHash = sl_LastRecordHash seal))
          then raise (ErrMsg "last record hash mismatch")
          else audit_segments seals' (index + 1) (sl_LastRecordHash seal)
                 (note_segment index seal true report)
      | Err scanErr =>
          if errors_is scanErr ErrNotExist
          then audit_segments seals' (index + 1) (sl_LastRecordHash seal)
                 (note_segment index seal false report)
          else raise scanErr
      end
  end.

(** The loop over unsealed segments, of which there is at most one. *)
Fixpoint audit_active (paths : list string) (previousHash : string) (report : AuditReport)
  : M disk AuditReport :=
  match paths with
  | [] => mret report
  | path :: paths' =>
      '(records, _, _) ← scanSegment path false;
      match records with
      | [] => audit_active paths' previousHash report
      | first :: _ =>
          '(finalHash, _) ← on_error (lift (VerifyRecordChain records previousHash))
                              (fun e => raise (ErrWrap "verify active record chain" e));
          audit_active paths' previousHash (note_active first records finalHash report)
      end
  end.

Definition unsealed_paths (seals : list Seal) (paths : list string) : list string :=
  filter (fun path => path ∉ (sl_Segment <$> seals)) paths.

(** [filepath.Glob] in the audited directory. *)
Definition list_files (suffix : string) : M disk (list string) := fun d => (Ok (glob suffix (files d)), d).

(** The audit once the trust mode is settled.  File names are those of the audited
    directory. *)
Definition audit_files (directory : string) (trusted : option bytes) : M disk AuditReport :=
  sealPaths ← list_files ".tfseal";
  '(seals, edge) ← audit_seals trusted sealPaths [] "" 0 "";
  '(previousHash, report) ← audit_segments seals 0 "" (set_edge edge (start_report directory trusted));
  walPaths ← list_files ".tfwal";
  let unsealed := unsealed_paths seals walPaths in
  if 1 <? zlen unsealed then raise (ErrMsg "more than one unsealed WAL segment found")
  else audit_active unsealed previousHash report.

(** [key] is the outcome of [LoadPublicKey] when a trusted key file is named. *)
Definition AuditDirectory (directory : string) (key : option (result bytes)) : M disk AuditReport :=
  let directory := trim_space directory in
  if bool_decide (directory = "") then raise (ErrMsg "WAL directory is required")
  else
    trusted ← lift (match key with
                    | None => Ok None
                    | Some (Ok k) => Ok (Some k)
                    | Some (Err e) => Err (ErrWrap "load trusted lineage key" e)
                    end);
    audit_files directory trusted.

(** ** What a passing audit establishes *)

(** The records of a segment file, all frames whole. *)
Definition reads (fs : gmap string file) (path : string) (rs : list WalRecord) : Prop :=
  exists f good, fs !! path = Some f /\ scan_data false (data f) = Ok (rs, good, false).

(** Each seal follows the one before it, and the first one follows nothing. *)
Fixpoint linked (previous : option Seal) (seals : list Seal) : Prop :=
  match seals with
  | [] => True
  | seal :: seals' =>
      match previous with
      | None => sl_PreviousSegmentRoot seal = ""
      | Some p => sl_PreviousSegmentRoot seal = sl_MerkleRoot p /\
                  sl_FirstSequence seal = u64_succ (sl_LastSequence p)
      end /\ linked (Some seal) seals'
  end.

(** Each segment is gone, or its records continue the record chain from [h] and are
    the ones its seal was made for. *)
Fixpoint contents (fs : gmap string file) (h : string) (seals : list Seal) : Prop :=
  match seals with
  | [] => True
  | seal :: seals' =>
      (fs !! sl_Segment seal = None \/
       exists rs leaves, reads fs (sl_Segment seal) rs /\ chain h rs (sl_LastRecordHash seal) leaves /\
         verifySealAgainstRecords seal rs leaves = Ok tt) /\
      contents fs (sl_LastRecordHash seal) seals'
  end.

Record audited (trusted : option bytes) (fs : gmap string file) (seals : list Seal)
    (active : list WalRecord) (final : string) : Prop := {
  au_files : Forall2 (fun path seal => exists f, fs !! path = Some f /\ decode_seal (data f) = Some seal)
               (glob ".tfseal" fs) seals;
  au_signed : Forall (fun seal => VerifySeal seal trusted = Ok tt) seals;
  au_linked : linked None seals;
  au_edge : exists edge, Forall (fun seal => sl_EdgeID seal = edge) seals;
  au_contents : contents fs "" seals;
  au_active : match unsealed_paths seals (glob ".tfwal" fs) with
              | [] => active = []
              | [path] => reads fs path active
              | _ => False
              end;
  au_chain : exists leaves, chain (seal_hash "" seals) active final leaves;
}.

(** ** Soundness *)

Lemma validate_error r e : Record_Validate r = Err e -> errors_is e ErrNotExist = false.
Proof.
  unfold Record_Validate, Event_Validate, EventHash, ComputeRecordHash, json_error. intros H.
  repeat (case_match; simplify_eq/=; try done).
Qed.

Lemma scan_frames_error fuel rt rest off acc e :
  scan_frames fuel rt rest off acc = Err e -> errors_is e ErrNotExist = false.
Proof.
  revert rest off acc. induction fuel as [|fuel IH]; intros rest off acc; cbn; [done|]. cbv zeta. intros H.
  repeat (case_match; simplify_eq/=; try done).
  destruct (Record_Validate _) eqn:V; cbn in H; [by eapply IH|]. injection H as <-. by eapply validate_error.
Qed.

Lemma scan_frames_whole fuel rest off acc rs good cutoff :
  scan_frames fuel false rest off acc = Ok (rs, good, cutoff) -> cutoff = false.
Proof.
  revert rest off acc. induction fuel as [|fuel IH]; intros rest off acc; cbn; [by intros [= _ _ <-]|].
  cbv zeta. intros H. repeat (case_match; simplify_eq/=; try done).
  destruct (Record_Validate _); cbn in H; [by eapply IH|done].
Qed.

(** Scanning without repair changes nothing; it reports a missing file as such, and
    nothing else. *)
Lemma scan_reads path d :
  wp (scanSegment path false) (fun r d' => files d' = files d /\
    match r with
    | Ok (rs, _, _) => reads (files d) path rs
    | Err e => errors_is e ErrNotExist = true -> files d !! path = None
    end) d.
Proof.
  unfold scanSegment, os_read, os_stat. wp_steps. apply wp_syscall_err.
  intros r d1 [-> | ->] F1 _; wp_steps; [|by split].
  destruct (files d1 !! path) as [f|] eqn:Hf; wp_steps; [|by rewrite <- F1].
  destruct (scan_data false (data f)) as [[[rs good] cutoff]|e] eqn:E; wp_steps.
  2: { split; [done|]. intros He. unfold scan_data in E. exfalso.
       repeat (case_match; simplify_eq/=; try done). apply scan_frames_error in E. congruence. }
  assert (cutoff = false) as ->.
  { unfold scan_data in E. repeat (case_match; simplify_eq/=; try done). by eapply scan_frames_whole. }
  wp_steps. apply wp_syscall_err. intros r d2 [-> | ->] F2 _; wp_steps; [|by rewrite F2].
  rewrite F2, Hf. wp_steps. split; [by rewrite F2|]. exists f, good. by rewrite <- F1.
Qed.

Definition sealed_in (fs : gmap string file) (path : string) (seal : Seal) : Prop :=
  exists f, fs !! path = Some f /\ decode_seal (data f) = Some seal.

Lemma read_seal_reads path d :
  wp (ReadSeal path) (fun r d' => files d' = files d /\ forall seal, r = Ok seal -> sealed_in (files d) path seal) d.
Proof.
  unfold ReadSeal, os_read. wp_steps. apply wp_syscall. intros [[]|e] d1 F1 _; wp_steps; [|done].
  destruct (files d1 !! path) as [f|] eqn:Hf; wp_steps; [|done]. rewrite F1 in Hf.
  destruct (decode_seal (data f)) eqn:E; wp_steps; [|done]. split; [done|]. intros seal [= <-]. by exists f.
Qed.

Lemma verified_edge seal trusted : VerifySeal seal trusted = Ok tt -> sl_EdgeID seal <> "".
Proof. unfold VerifySeal. intros H E. rewrite E in H. repeat (case_match; simplify_eq/=; try done). Qed.

Lemma linked_snoc previous seals seal :
  linked previous (seals ++ [seal]) <->
  linked previous seals /\ linked (match last seals with Some p => Some p | None => previous end) [seal].
Proof.
  revert previous. induction seals as [|s seals IH]; intros previous.
  { split; [by split|by intros [_ H]]. }
  cbn [app linked]. rewrite IH, last_cons. destruct (last seals); cbn [linked]; tauto.
Qed.

(** The seals read so far. *)
Record gathered (trusted : option bytes) (fs : gmap string file) (paths : list string) (seals : list Seal)
    (root : string) (lastq : Z) (edge : string) : Prop := {
  ga_files : Forall2 (sealed_in fs) paths seals;
  ga_signed : Forall (fun seal => VerifySeal seal trusted = Ok tt) seals;
  ga_linked : linked None seals;
  ga_last : forall p, last seals = Some p -> root = sl_MerkleRoot p /\ lastq = sl_LastSequence p;
  ga_edge : Forall (fun seal => sl_EdgeID seal = edge) seals;
}.

Lemma gathered_snoc trusted fs done_ path seals seal root lastq edge :
  gathered trusted fs done_ seals root lastq edge -> sealed_in fs path seal ->
  VerifySeal seal trusted = Ok tt ->
  (if 0 <? zlen seals
   then negb (bool_decide (sl_PreviousSegmentRoot seal = root)) || negb (sl_FirstSequence seal =? u64_succ lastq)
   else false) = false ->
  negb (0 <? zlen seals) && negb (bool_decide (sl_PreviousSegmentRoot seal = "")) = false ->
  Forall (fun s => sl_EdgeID s = sl_EdgeID seal) seals ->
  gathered trusted fs (done_ ++ [path]) (seals ++ [seal]) (sl_MerkleRoot seal) (sl_LastSequence seal)
    (sl_EdgeID seal).
Proof.
  intros [G1 G2 G3 G4 G5] HR HV H1 H2 He. split.
  - apply Forall2_app; [done|by repeat constructor].
  - apply Forall_app. by split; [|constructor].
  - apply linked_snoc. split; [done|]. destruct (last seals) as [p|] eqn:E.
    + destruct (G4 p eq_refl) as [-> ->]. destruct seals as [|x seals]; [done|].
      rewrite zlen_cons, (proj2 (Z.ltb_lt 0 (1 + zlen seals))) in H1 by (pose proof (zlen_nonneg seals); lia).
      guards. cbn. by split_and!.
    + apply last_None in E as ->. change (0 <? zlen []) with false in H2. cbn in H2. guards. by split.
  - rewrite last_snoc. by intros p [= <-].
  - apply Forall_app. by split; [|constructor].
Qed.

Lemma audit_seals_sound trusted paths done_ seals root lastq edge d :
  gathered trusted (files d) done_ seals root lastq edge ->
  wp (audit_seals trusted paths seals root lastq edge) (fun r d' => files d' = files d /\
    forall seals' edge', r = Ok (seals', edge') -> exists root' lastq',
      gathered trusted (files d) (done_ ++ paths) seals' root' lastq' edge') d.
Proof.
  revert done_ seals root lastq edge d. induction paths as [|path paths IH]; intros done_ seals root lastq edge d G.
  { cbn. wp_steps. split; [done|]. intros ? ? [= <- <-]. rewrite app_nil_r. by eexists _, _. }
  cbn [audit_seals]. wp_steps. eapply wp_mono; [apply read_seal_reads|]. intros r d1 [F1 HR].
  destruct r as [seal|e]; wp_steps; [|done]. specialize (HR _ eq_refl).
  destruct (VerifySeal seal trusted) as [[]|e] eqn:V; wp_steps; [|done].
  split_if; wp_steps; [done|]. split_if; wp_steps; [done|].
  replace (done_ ++ path :: paths) with ((done_ ++ [path]) ++ paths) by (by rewrite <- (assoc_L (++))).
  split_if; [|split_if; [by wp_steps|]]; guards; subst edge; rewrite <- F1.
  - apply IH. rewrite F1. eapply gathered_snoc; [done..|].
    destruct (ga_edge _ _ _ _ _ _ _ G) as [|s seals' E _]; [constructor|].
    exfalso. pose proof (ga_signed _ _ _ _ _ _ _ G) as [HV _]%Forall_cons. by apply verified_edge in HV.
  - apply IH. rewrite F1. eapply gathered_snoc; [done..|]. apply G.
Qed.

(** How the segment loop counts. *)
Definition tallied (index : Z) (seals : list Seal) (r r' : AuditReport) : Prop :=
  ar_SealedSegments r' = (if seals is [] then ar_SealedSegments r else index + zlen seals) /\
  ar_ContentSegments r' + ar_SealOnlySegments r' = ar_ContentSegments r + ar_SealOnlySegments r + zlen seals /\
  ar_UnsealedSegments r' = ar_UnsealedSegments r /\
  ar_LastSequence r' = default (ar_LastSequence r) (sl_LastSequence <$> last seals) /\
  ar_LastRecordHash r' = seal_hash (ar_LastRecordHash r) seals.

Lemma tallied_cons index seal present seals r r' :
  tallied (index + 1) seals (note_segment index seal present r) r' -> tallied index (seal :: seals) r r'.
Proof.
  intros (H1 & H2 & H3 & H4 & H5). cbn -[zlen] in H1, H2, H3, H4, H5. unfold tallied, seal_hash in *.
  rewrite last_cons, zlen_cons. split; [rewrite H1; destruct seals; [rewrite zlen_nil|]; lia|].
  split; [rewrite H2; destruct present; lia|]. split; [done|]. rewrite H4, H5. by destruct (last seals).
Qed.

Lemma verify_record_chain_sound rs h final leaves :
  VerifyRecordChain rs h = Ok (final, leaves) -> chain h rs final leaves.
Proof.
  unfold VerifyRecordChain. destruct (_ && _); [done|]. intros H. by apply verify_chain_sound in H as (ds & -> & ?).
Qed.

Lemma audit_segments_sound seals index h report d :
  wp (audit_segments seals index h report) (fun r d' => files d' = files d /\
    forall h' report', r = Ok (h', report') ->
      contents (files d) h seals /\ h' = seal_hash h seals /\ tallied index seals report report') d.
Proof.
  revert index h report d. induction seals as [|seal seals IH]; intros index h report d.
  { cbn. wp_steps. split; [done|]. intros ? ? [= <- <-]. split; [done|]. split; [done|].
    unfold tallied. rewrite zlen_nil. by split_and!; [|lia|..]. }
  assert (forall present d1, files d1 = files d ->
    (files d !! sl_Segment seal = None \/
     exists rs leaves, reads (files d) (sl_Segment seal) rs /\ chain h rs (sl_LastRecordHash seal) leaves /\
       verifySealAgainstRecords seal rs leaves = Ok tt) ->
    wp (audit_segments seals (index + 1) (sl_LastRecordHash seal) (note_segment index seal present report))
      (fun r d' => files d' = files d /\ forall h' report', r = Ok (h', report') ->
        contents (files d) h (seal :: seals) /\ h' = seal_hash h (seal :: seals) /\
        tallied index (seal :: seals) report report') d1) as Hrest.
  { intros present d1 F1 Hc. eapply wp_mono; [apply IH|]. intros r d2 [F2 H]. rewrite F1 in *. split; [done|].
    intros h' report' Er. destruct (H _ _ Er) as (H1 & H2 & H3). split; [by split|].
    split; [|by eapply tallied_cons]. rewrite H2. unfold seal_hash. rewrite last_cons. by destruct (last seals). }
  cbn [audit_segments]. wp_steps. eapply wp_mono; [apply scan_reads|]. intros r d1 [F1 Hr]. wp_steps.
  destruct r as [[[rs sz] cutoff]|e].
  - wp_steps. destruct (VerifyRecordChain rs h) as [[final leaves]|e] eqn:V; wp_steps; [|done].
    apply verify_record_chain_sound in V.
    destruct (verifySealAgainstRecords seal rs leaves) as [[]|e] eqn:VS; wp_steps; [|done].
    split_if; wp_steps; [done|]. guards. subst final. apply Hrest; [done|]. right. by exists rs, leaves.
  - split_if; [|by wp_steps]. apply Hrest; [done|]. left. by apply Hr.
Qed.

Lemma audit_active_sound paths h report d :
  zlen paths <= 1 ->
  wp (audit_active paths h report) (fun r d' => files d' = files d /\ forall report', r = Ok report' ->
    exists active final leaves,
      match paths with [] => active = [] | path :: _ => reads (files d) path active end /\
      chain h active final leaves /\
      ar_SealedSegments report' = ar_SealedSegments report /\
      ar_ContentSegments report' + ar_SealOnlySegments report'
        = ar_ContentSegments report + ar_SealOnlySegments report /\
      ar_UnsealedSegments report' = ar_UnsealedSegments report + (if active is [] then 0 else 1) /\
      ar_LastSequence report' = default (ar_LastSequence report) (r_EdgeSequence <$> last active) /\
      ar_LastRecordHash report' = (if active is [] then ar_LastRecordHash report else final)) d.
Proof.
  intros Hp. destruct paths as [|path [|path2 paths]].
  - cbn. wp_steps. split; [done|]. intros ? [= <-]. exists [], h, []. rewrite Z.add_0_r. by split_and!; [|constructor|..].
  - cbn [audit_active]. wp_steps. eapply wp_mono; [apply scan_reads|]. intros r d1 [F1 Hr].
    destruct r as [[[rs sz] cutoff]|e]; wp_steps; [|done]. destruct rs as [|r rs].
    { wp_steps. split; [done|]. intros ? [= <-]. exists [], h, []. rewrite Z.add_0_r. by split_and!; [|constructor|..]. }
    wp_steps. destruct (VerifyRecordChain (r :: rs) h) as [[final leaves]|e] eqn:V; wp_steps; [|done].
    apply verify_record_chain_sound in V. split; [done|]. intros ? [= <-]. exists (r :: rs), final, leaves.
    split_and!; try done. cbn [ar_LastSequence note_active]. unfold last_or.
    destruct (last (r :: rs)) eqn:E; [done|]. by apply last_None in E.
  - rewrite !zlen_cons in Hp. pose proof (zlen_nonneg paths). lia.
Qed.

(** What the report of a passing audit says. *)
Definition reported (seals : list Seal) (active : list WalRecord) (final : string) (r : AuditReport) : Prop :=
  ar_SealedSegments r = zlen seals /\
  ar_ContentSegments r + ar_SealOnlySegments r = zlen seals /\
  ar_UnsealedSegments r = (if active is [] then 0 else 1) /\
  ar_LastSequence r = default (default 0 (sl_LastSequence <$> last seals)) (r_EdgeSequence <$> last active) /\
  ar_LastRecordHash r = final.

Definition trust (key : option (result bytes)) : option bytes :=
  match key with Some (Ok k) => Some k | _ => None end.

Lemma audit_files_sound directory trusted d :
  wp (audit_files directory trusted) (fun r d' => files d' = files d /\ forall report, r = Ok report ->
    exists seals active final, audited trusted (files d) seals active final /\
      reported seals active final report) d.
Proof.
  unfold audit_files. wp_steps. eapply (wp_intro _ _ _ (Ok (glob ".tfseal" (files d))) d); [done|]. wp_steps.
  eapply wp_mono; [apply (audit_seals_sound trusted _ [] [] "" 0 "" d); by split; constructor|].
  intros r d1 [F1 H1]. destruct r as [[seals edge]|e]; wp_steps; [|done].
  destruct (H1 _ _ eq_refl) as (root & lastq & HG). clear H1. cbn [app] in HG.
  eapply wp_mono; [apply audit_segments_sound|]. intros r d2 [F2 H2].
  destruct r as [[h report]|e]; wp_steps; [|split; [congruence|done]].
  destruct (H2 _ _ eq_refl) as (Hc & -> & T1 & T2 & T3 & T4 & T5). clear H2. rewrite F1 in *.
  eapply (wp_intro _ _ _ (Ok (glob ".tfwal" (files d2))) d2); [done|]. wp_steps. rewrite F2. cbv zeta.
  split_if; wp_steps; [done|]. apply Z.ltb_ge in G.
  eapply wp_mono; [by apply audit_active_sound|]. intros r d3 [F3 H3]. rewrite F2 in *. split; [done|].
  intros report' ->. destruct (H3 _ eq_refl) as (active & final & leaves & Hp & HC & A1 & A0 & A2 & A3 & A4).
  exists seals, active, final. split.
  - destruct HG as [G1 G2 G3 _ G5]. split; [done|done|done|by exists edge|done| |by exists leaves].
    destruct (unsealed_paths _ _) as [|path [|path2 paths]]; [done|done|].
    rewrite !zlen_cons in G. pose proof (zlen_nonneg paths). lia.
  - cbn in T1, T2, T3, T4, T5. unfold reported. rewrite A1, A0, A2, A3, A4, T1, T3, T4, T5.
    split; [destruct seals; [done|lia]|].
    split; [lia|]. split; [done|]. split; [done|]. destruct active; [|done]. by inversion HC.
Qed.

Lemma audit_establishes directory key d :
  wp (AuditDirectory directory key) (fun r d' => files d' = files d /\ forall report, r = Ok report ->
    (forall e, key <> Some (Err e)) /\
    exists seals active final, audited (trust key) (files d) seals active final /\
      reported seals active final report) d.
Proof.
  unfold AuditDirectory. cbv zeta. split_if; wp_steps; [done|]. destruct key as [[k|e]|]; wp_steps; [|done|];
    (eapply wp_mono; [apply audit_files_sound|]); intros r d' [F H]; (split; [done|]); intros report Hr; by split; [|apply H].
Qed.

(** ** Completeness *)

Lemma quiet_audit_seals d edge key n root ss acc lastq e :
  quiet d -> 0 <= n -> edge <> "" -> seal_chain edge key (files d) n root ss ->
  (acc = [] /\ root = "" /\ e = "") \/ (acc <> [] /\ u64_succ lastq = n /\ e = edge) ->
  exists e', audit_seals None (seal_path <$> ss) acc root lastq e d = (Ok (acc ++ ss, e'), d).
Proof.
  intros Hq Hn He. revert n root acc lastq e Hn. induction ss as [|sl ss IH]; intros n root acc lastq e Hn Hc Hacc.
  { exists e. cbn. by rewrite app_nil_r. }
  destruct Hc as [[Hseg Hfst Hlst Hprev Hedge Hkey Hver (f & Hf & _ & Hdec)] Hc].
  destruct (IH (sl_LastSequence sl + 1) (sl_MerkleRoot sl) (acc ++ [sl]) (sl_LastSequence sl) edge) as [e' Hrest];
    [lia|done|right; split; [by destruct acc|]; split; [apply u64_succ_small; lia|done]|].
  exists e'. rewrite <- (assoc_L (++)) in Hrest. cbn [app] in Hrest. rewrite <- Hrest. cbn [fmap list_fmap audit_seals].
  unfold mbind, M_mbind, on_error, ReadSeal, mbind, M_mbind. rewrite (quiet_read _ _ _ Hq Hf), Hdec.
  cbn [mret M_mret]. unfold lift. rewrite Hver, Hprev, Hfst, Hedge.
  destruct Hacc as [(-> & -> & ->)|(Hne & Hs & ->)].
  - change (0 <? zlen []) with false. cbn [negb andb]. by rewrite !bool_decide_eq_true_2.
  - rewrite (proj2 (Z.ltb_lt 0 (zlen acc))) by (by apply zlen_pos).
    rewrite Hs, Z.eqb_refl, (bool_decide_eq_true_2 (root = root)), (bool_decide_eq_false_2 (edge = "")),
      (bool_decide_eq_true_2 (edge = edge)) by done. done.
Qed.

Lemma quiet_scan_absent d path rt :
  quiet d -> files d !! path = None -> scanSegment path rt d = (Err ErrNotExist, d).
Proof. intros Hq Hf. unfold scanSegment, mbind, M_mbind. by rewrite quiet_read_none. Qed.

Lemma quiet_audit_absent d seals rest index h report :
  quiet d -> Forall (fun sl => files d !! sl_Segment sl = None) seals ->
  exists report', audit_segments (seals ++ rest) index h report d
    = audit_segments rest (index + zlen seals) (seal_hash h seals) report' d.
Proof.
  intros Hq. revert index h report. induction seals as [|sl seals IH]; intros index h report HF.
  { exists report. by rewrite zlen_nil, Z.add_0_r. }
  apply Forall_cons in HF as [Hf HF]. cbn [app audit_segments]. unfold mbind, M_mbind, attempt.
  rewrite quiet_scan_absent by done. change (errors_is ErrNotExist ErrNotExist) with true. cbv iota.
  destruct (IH (index + 1) (sl_LastRecordHash sl) (note_segment index sl false report) HF) as [report' ->].
  exists report'. rewrite zlen_cons. unfold seal_hash. rewrite last_cons.
  replace (index + 1 + zlen seals) with (index + (1 + zlen seals)) by lia. by destruct (last seals).
Qed.

Lemma quiet_audit_present d edge key n h root log now index report :
  quiet d -> hash_ok h -> log_files edge (files d) n h log [] ->
  seal_chain edge key (files d) n root now -> seals_match h log now -> length now = length log ->
  exists report', audit_segments now index h report d = (Ok (final_hash h (concat log), report'), d).
Proof.
  intros Hq. revert n h root now index report.
  induction log as [|rs log IH]; intros n h root [|sl now] index report Hh Hl Hc Hm Hlen; try done.
  { by eexists. }
  destruct Hl as (Hfile & Hrec & Hl), Hc as [Hs Hc], Hm as [(leaves & Hch & Hv) Hm].
  rewrite (verify_seal_last _ n _ _ Hv (proj1 Hrec)) in Hc.
  replace (n + zlen rs - 1 + 1) with (n + zlen rs) in Hc by lia.
  pose proof (verify_seal_hash _ _ _ _ Hch Hv) as Hlast.
  destruct (IH _ _ _ now (index + 1) (note_segment index sl true report)
    (records_hash_ok _ _ _ _ Hrec Hh) Hl Hc Hm ltac:(cbn in Hlen; lia)) as [report' Hrest].
  exists report'. cbn [audit_segments concat]. unfold mbind, M_mbind, attempt.
  rewrite (so_segment _ _ _ _ _ _ Hs), (quiet_scan _ _ _ rs) by (done || by destruct log).
  unfold on_error, lift. rewrite (VerifyRecordChain_complete _ _ _ _ Hh Hch), Hv, Hlast.
  rewrite bool_decide_eq_true_2 by done. cbn [negb]. by rewrite Hrest, final_hash_app.
Qed.

Lemma filter_none {A} (P : A -> Prop) `{forall x, Decision (P x)} (l : list A) :
  (forall x, x ∈ l -> ~ P x) -> filter P l = [].
Proof.
  induction l as [|x l IH]; intros HP; [done|]. rewrite filter_cons_False by (apply HP; by left).
  apply IH. intros y Hy. apply HP. by right.
Qed.

Lemma seals_segments edge key fs n h root log now :
  seal_chain edge key fs n root now -> seals_match h log now -> length now = length log ->
  log_files edge fs n h log [] -> sl_Segment <$> now = seg_paths n log.
Proof.
  revert n h root now. induction log as [|rs log IH]; intros n h root [|sl now] Hc Hm Hlen Hl; try done.
  destruct Hl as (_ & Hrec & Hl), Hc as [Hs Hc], Hm as [(leaves & _ & Hv) Hm].
  rewrite (verify_seal_last _ n _ _ Hv (proj1 Hrec)) in Hc.
  replace (n + zlen rs - 1 + 1) with (n + zlen rs) in Hc by lia. cbn.
  rewrite (so_segment _ _ _ _ _ _ Hs). f_equal. eapply IH; eauto.
Qed.

Lemma glob_seals d edge key ss :
  seal_chain edge key (files d) 1 "" ss -> listing (files d) ".tfseal" (seal_path <$> ss) ->
  glob ".tfseal" (files d) = seal_path <$> ss.
Proof.
  intros Hc Hl. destruct (seal_chain_sorted _ _ _ _ _ _ Hc ltac:(lia)) as (Hp & Hs & Hr).
  rewrite Hp in Hl |- *. apply glob_numbered; [done| |done].
  eapply Forall_impl; [exact Hr|]. intros m [Hm1 Hm2]. unfold is_u64. lia.
Qed.

(** The names of an open store's directory. *)
Lemma store_names s d n h full act base old now :
  live s d n h full act base -> tidy s (files d) n h full act old now ->
  glob ".tfseal" (files d) = seal_path <$> (old ++ now) /\
  unsealed_paths (old ++ now) (glob ".tfwal" (files d)) = [segmentPath (n + zlen (concat full))] /\
  Forall (fun sl => files d !! sl_Segment sl = None) old.
Proof.
  intros L T. pose proof (live_directory _ _ _ _ _ _ _ _ _ L T) as D.
  pose proof (lv_first _ _ _ _ _ _ _ L) as Hn.
  destruct (live_active _ _ _ _ _ _ _ L) as (Hl & _).
  pose proof (td_seals _ _ _ _ _ _ _ _ T) as Hc. pose proof Hc as [Hold Hnow]%seal_chain_app.
  destruct (td_start _ _ _ _ _ _ _ _ T) as [En Eh]. rewrite <- En in Hnow.
  assert (n + zlen (concat (full ++ [act])) < modulus64) as Hb by apply D.
  pose proof Hb as Hb'. rewrite concat_app, zlen_app in Hb'. pose proof (zlen_nonneg (concat [act])).
  pose proof (zlen_nonneg (concat full)).
  assert (Forall (fun rs => rs <> []) (removelast (full ++ [act]))) as HF by apply D.
  assert (sl_Segment <$> now = seg_paths n full) as Eseg.
  { eapply seals_segments; [exact Hnow|apply T|apply T|exact Hl]. }
  split; [eapply glob_seals; [exact Hc|apply T]|]. split.
  - rewrite (glob_segments _ n (full ++ [act]) HF ltac:(lia) Hb (td_names _ _ _ _ _ _ _ _ T)), seg_paths_app.
    unfold unsealed_paths. rewrite filter_app, fmap_app, Eseg.
    rewrite (filter_none _ (seg_paths n full)).
    + cbn [seg_paths app]. rewrite filter_cons_True; [done|].
      intros [Hin|Hin]%elem_of_app.
      * apply list_elem_of_fmap in Hin as (sl & E & Hsl).
        pose proof (proj1 (Forall_forall _ _) (seal_chain_starts _ _ _ _ _ _ Hold ltac:(lia)) _ Hsl) as (m & Em & Hm).
        rewrite Em in E. apply segmentPath_inj in E; unfold is_u64; lia.
      * rewrite removelast_last in HF. destruct (elem_of_seg_paths _ _ _ HF Hin) as (m & E & Hm).
        apply segmentPath_inj in E; unfold is_u64; lia.
    + intros k Hk Hnot. apply Hnot, elem_of_app. by right.
  - apply Forall_forall. intros sl Hsl.
    pose proof (proj1 (Forall_forall _ _) (seal_chain_starts _ _ _ _ _ _ Hold ltac:(lia)) _ Hsl) as (m & Em & Hm).
    rewrite Em. apply eq_None_not_Some. intros Hsome%(td_names _ _ _ _ _ _ _ _ T); [|apply segment_has_suffix].
    revert Hsome. apply seg_paths_above; [done|lia..].
Qed.

Lemma quiet_audit_active d path h act leaves final report :
  quiet d -> holds (files d) path act [] -> hash_ok h -> chain h act final leaves ->
  exists report', audit_active [path] h report d = (Ok report', d).
Proof.
  intros Hq Hf Hh Hc. cbn [audit_active]. unfold mbind, M_mbind. rewrite (quiet_scan _ _ _ act) by done.
  destruct act as [|r act]; [by eexists|]. unfold on_error, lift.
  rewrite (VerifyRecordChain_complete _ _ _ _ Hh Hc). by eexists.
Qed.

Lemma store_audit_ok s d n h full act base old now directory :
  live s d n h full act base -> tidy s (files d) n h full act old now -> quiet d ->
  exists report, audit_files directory None d = (Ok report, d).
Proof.
  intros L T Hq. destruct (store_names _ _ _ _ _ _ _ _ _ L T) as (Gs & Gw & Hold).
  destruct (live_active _ _ _ _ _ _ _ L) as (Hl & Hf & (_ & _ & leaves & Hc) & _ & Hh & _).
  pose proof (td_seals _ _ _ _ _ _ _ _ T) as HC. pose proof HC as [_ Hnow]%seal_chain_app.
  destruct (td_start _ _ _ _ _ _ _ _ T) as [En Eh]. rewrite <- En in Hnow.
  assert (edgeID s <> "") as He.
  { destruct (lv_settings _ _ _ _ _ _ _ L) as [HB _]. intros E. by rewrite E in HB. }
  destruct (quiet_audit_seals d (edgeID s) (sg_keyID (signer s)) 1 "" (old ++ now) [] 0 "")
    as [edge HS]; [done|lia|done|done|by left|].
  destruct (quiet_audit_absent d old now 0 "" (set_edge edge (start_report directory None)) Hq Hold) as [r1 H1].
  destruct (quiet_audit_present d (edgeID s) (sg_keyID (signer s)) n h _ full now (0 + zlen old) r1 Hq
    (lv_anchor _ _ _ _ _ _ _ L) Hl Hnow (td_match _ _ _ _ _ _ _ _ T) (td_length _ _ _ _ _ _ _ _ T)) as [r2 H2].
  destruct (quiet_audit_active d (segmentPath (n + zlen (concat full))) (final_hash h (concat full)) act leaves _ r2
    Hq Hf Hh Hc) as [report H3].
  exists report. unfold audit_files, list_files, mbind, M_mbind. rewrite Gs, HS. cbn [app].
  rewrite H1, <- Eh, H2, Gw. exact H3.
Qed.

(** The seals and the active records an audit finds are determined by the files. *)
Lemma sealed_in_unique fs paths ss ss' :
  Forall2 (sealed_in fs) paths ss -> Forall2 (sealed_in fs) paths ss' -> ss = ss'.
Proof.
  intros H. revert ss'. induction H as [|path sl paths ss (f & Hf & Hd) _ IH]; intros ss' H';
    inversion H' as [|? sl' ? ss2 (f' & Hf' & Hd') H2]; subst; [done|].
  f_equal; [|by apply IH]. congruence.
Qed.

Lemma chain_sealed_in edge key fs n root ss :
  seal_chain edge key fs n root ss -> Forall2 (sealed_in fs) (seal_path <$> ss) ss.
Proof.
  revert n root. induction ss as [|sl ss IH]; intros n root; [constructor|].
  intros [[_ _ _ _ _ _ _ (f & Hf & _ & Hd)] Hc]. constructor; [by exists f|by eapply IH].
Qed.

Lemma holds_reads fs path rs : holds fs path rs [] -> reads fs path rs.
Proof.
  intros (b & f & Hf & Hd & Hi & _). rewrite app_nil_r in Hd. exists f, (segmentHeaderBytes + zlen b).
  split; [done|]. rewrite Hd. by apply scan_data_image.
Qed.

Lemma reads_unique fs path rs rs' : reads fs path rs -> reads fs path rs' -> rs = rs'.
Proof. intros (f & g & Hf & Hs) (f' & g' & Hf' & Hs'). congruence. Qed.

Lemma last_sequence n ss act :
  seal_end 1 ss = n -> numbered n act ->
  default (default 0 (sl_LastSequence <$> last ss)) (r_EdgeSequence <$> last act) = n + zlen act - 1.
Proof.
  intros He Hn. destruct (snoc_or_nil act) as [->|(act' & r & ->)].
  - change (zlen (A:=WalRecord) []) with 0. unfold seal_end in He. destruct (last ss); cbn in *; lia.
  - rewrite last_snoc. cbn. rewrite (numbered_last _ _ _ Hn), zlen_app, zlen_cons, zlen_nil. lia.
Qed.

(** ** Theorems *)


(** The log a store keeps always passes the audit: for every state of an open store,
    after any number of appends, rotations, compactions and restarts, the auditor
    accepts the directory and reports the store's own number of seals, last sequence
    and last record hash. *)
Theorem store_passes_audit config key s d q directory :
  represents config key s d q -> faults d = [] -> trim_space directory <> "" ->
  exists report, AuditDirectory directory None d = (Ok report, d) /\
    ar_SealedSegments report = sealedSegments s /\ ar_LastSequence report = nextSequence s - 1 /\
    ar_LastRecordHash report = lastLineageHash s.
Proof.
  intros (n & h & full & act & base & old & now & L & T & _) Hq Hdir.
  destruct (store_audit_ok _ _ _ _ _ _ _ _ _ (trim_space directory) L T Hq) as [report E].
  exists report. split.
  { unfold AuditDirectory. by rewrite bool_decide_eq_false_2. }
  pose proof (audit_files_sound (trim_space directory) None d) as H. unfold wp in H. rewrite E in H.
  destruct H as [_ H]. destruct (H _ eq_refl) as (seals & active & final & A & R1 & _ & _ & R4 & R5).
  destruct (store_names _ _ _ _ _ _ _ _ _ L T) as (Gs & Gw & _). destruct A as [A1 _ _ _ _ A6 [leaves A7]].
  assert (seals = old ++ now) as ->.
  { eapply sealed_in_unique; [exact A1|]. rewrite Gs. eapply chain_sealed_in, (td_seals _ _ _ _ _ _ _ _ T). }
  destruct (live_active _ _ _ _ _ _ _ L) as (Hl & Hf & (Hnum & _ & leaves' & Hc) & _ & _ & _ & Hnext).
  rewrite Gw in A6. assert (active = act) as -> by (eapply reads_unique; [exact A6|by apply holds_reads]).
  destruct (td_start _ _ _ _ _ _ _ _ T) as [En Eh]. pose proof (td_seals _ _ _ _ _ _ _ _ T) as [_ Hnow]%seal_chain_app.
  rewrite <- En in Hnow. pose proof (td_match _ _ _ _ _ _ _ _ T) as Hm. pose proof (td_length _ _ _ _ _ _ _ _ T) as Hlen.
  split; [by rewrite R1, (td_count _ _ _ _ _ _ _ _ T)|]. split.
  - rewrite R4, Hnext. apply last_sequence; [|done]. rewrite seal_end_app, <- En. by eapply seals_match_end.
  - rewrite seal_hash_app, <- Eh, (seals_match_hash _ _ _ Hm Hlen) in A7.
    destruct (chain_det _ _ _ _ _ _ A7 Hc) as [-> _].
    rewrite R5, (lv_hash _ _ _ _ _ _ _ L), concat_app, final_hash_app. cbn. by rewrite app_nil_r.
Qed.
End audit.

(** ** Witnesses *)

#[local] Existing Instance toy_ed25519.
#[local] Existing Instance wire_seal_codec.
#[local] Existing Instance wire_wal_codec.
#[local] Existing Instance wire_checkpoint_codec.

(** The reference directory after one append and a clean close. *)
Definition sealed_disk : disk := Eval vm_compute in (Close appended_one.2).2.2.
Definition sealed_report : AuditReport :=
  Eval vm_compute in
    match AuditDirectory "wal" None sealed_disk with
    | (Ok report, _) => report
    | (Err _, _) => start_report "" None
    end.

Lemma sealed_audit : AuditDirectory "wal" None sealed_disk = (Ok sealed_report, sealed_disk).
Proof. vm_cast_no_check (eq_refl (Ok sealed_report, sealed_disk)). Qed.


Lemma store_passes_audit_witness :
  exists report, AuditDirectory "wal" None appended_one.2.2 = (Ok report, appended_one.2.2) /\
    ar_SealedSegments report = sealedSegments appended_one.2.1 /\
    ar_LastSequence report = nextSequence appended_one.2.1 - 1 /\
    ar_LastRecordHash report = lastLineageHash appended_one.2.1.
Proof.
  apply (store_passes_audit ref_config ref_key appended_one.2.1 appended_one.2.2 one "wal" appended_one_represents).
  - reflexivity.
  - vm_compute. discriminate.
Defined.
