(* ===== verification/Topology.v ===== *)
(** * Nodes, failure domains and peer lists

    [internal/replication] and [internal/mesh] declare the same [Node] and
    [FailureDomain] structures and parse the same peer specification
    [id|url|cloud|region|zone]; both are here once. *)

From S2P Require Import Prelude GoStrings.

Local Open Scope string_scope.
Local Open Scope Z_scope.
Local Open Scope list_scope.

Record FailureDomain := mkDomain {
  fd_Cloud : string;
  fd_Region : string;
  fd_Zone : string;
}.

Record Node := mkNode {
  n_ID : string;
  n_URL : string;
  n_Domain : FailureDomain;
}.

#[export] Instance FailureDomain_eq_dec : EqDecision FailureDomain.
Proof. solve_decision. Defined.
#[export] Instance Node_eq_dec : EqDecision Node.
Proof. solve_decision. Defined.

(** One entry of a peer list. *)
Definition parse_peer (message entry : string) : result Node :=
  match split_on "|"%char (trim_space entry) with
  | [id; url; cloud; region; zone] =>
      Ok (mkNode (trim_space id) (trim_space url)
            (mkDomain (trim_space cloud) (trim_space region) (trim_space zone)))
  | _ => Err (ErrMsg message)
  end.

Fixpoint parse_entries (message : string) (entries : list string) : result (list Node) :=
  match entries with
  | [] => Ok []
  | entry :: entries' =>
      peer ← parse_peer message entry;
      peers ← parse_entries message entries';
      Ok (peer :: peers)
  end.

Definition parse_peers (message raw : string) : result (list Node) :=
  let raw := trim_space raw in
  if bool_decide (raw = "") then Ok [] else parse_entries message (split_on ","%char raw).

(** The duplicate check over node identities that both [Config.Validate] run;
    [admissible] is the package's own check of one peer. *)
Fixpoint check_peers (admissible : Node -> result unit) (duplicate : string) (peers : list Node)
    (ids : gset string) : result unit :=
  match peers with
  | [] => Ok tt
  | peer :: peers' =>
      _ ← admissible peer;
      if decide (n_ID peer ∈ ids) then Err (ErrMsg duplicate)
      else check_peers admissible duplicate peers' ({[n_ID peer]} ∪ ids)
  end.

(** ** Lemmas *)

Lemma check_peers_distinct admissible duplicate peers ids :
  check_peers admissible duplicate peers ids = Ok tt ->
  Forall (fun p => admissible p = Ok tt) peers /\ NoDup (n_ID <$> peers) /\
  Forall (fun p => n_ID p ∉ ids) peers.
Proof.
  revert ids. induction peers as [|p peers IH]; intros ids H; [repeat constructor|]. cbn in H.
  destruct (admissible p) as [[]|e] eqn:E; [|done]. cbn in H. case_decide as Hin; [done|].
  destruct (IH _ H) as (H1 & H2 & H3). split; [by constructor|]. split.
  - apply NoDup_cons. split; [|done]. intros (q & Hq & Hin')%list_elem_of_fmap.
    rewrite Forall_forall in H3. apply (H3 q Hin').
    rewrite elem_of_union, elem_of_singleton. by left.
  - constructor; [done|]. eapply Forall_impl; [exact H3|]. intros q Hq Hin'. apply Hq.
    rewrite elem_of_union. by right.
Qed.

(** ** Printing a peer list

    The specification string that [parse_peers] reads back. *)

Definition peer_entry (p : Node) : string :=
  join "|" [n_ID p; n_URL p; fd_Cloud (n_Domain p); fd_Region (n_Domain p); fd_Zone (n_Domain p)].
Definition peer_spec (peers : list Node) : string := join "," (peer_entry <$> peers).

(** A field that survives the round trip: visible ASCII without the separators. *)
Definition graphic (c : ascii) : bool :=
  let n := N_of_ascii c in ((33 <=? n) && (n <=? 126))%N.
Definition plain_char (c : ascii) : bool :=
  graphic c && negb (bool_decide (c = "|"%char)) && negb (bool_decide (c = ","%char)).
Definition all_chars (P : ascii -> bool) (s : string) : bool := forallb P (chars_of_string s).

Definition plain_peer (p : Node) : bool :=
  all_chars plain_char (n_ID p) && all_chars plain_char (n_URL p) &&
  all_chars plain_char (fd_Cloud (n_Domain p)) && all_chars plain_char (fd_Region (n_Domain p)) &&
  all_chars plain_char (fd_Zone (n_Domain p)).

Lemma all_chars_cons P c s : all_chars P (String c s) = P c && all_chars P s.
Proof. done. Qed.

Lemma all_chars_app P a b : all_chars P (a +:+ b) = all_chars P a && all_chars P b.
Proof.
  induction a as [|c a IH]; [done|]. change (String c a +:+ b) with (String c (a +:+ b)).
  by rewrite !all_chars_cons, IH, andb_assoc.
Qed.

Lemma all_chars_rev P s : all_chars P (String.rev s) = all_chars P s.
Proof.
  induction s as [|c s IH]; [done|]. change (String c s) with (String c "" +:+ s).
  rewrite string_rev_app, !all_chars_app, IH. by rewrite andb_comm.
Qed.

Lemma all_chars_impl (P Q : ascii -> bool) s :
  (forall c, P c = true -> Q c = true) -> all_chars P s = true -> all_chars Q s = true.
Proof.
  intros H. induction s as [|c s IH]; [done|]. rewrite !all_chars_cons, !andb_true_iff.
  intros [H1 H2]. auto.
Qed.

Lemma plain_graphic c : plain_char c = true -> graphic c = true.
Proof. unfold plain_char. rewrite !andb_true_iff. tauto. Qed.

Lemma plain_not_sep c : plain_char c = true -> c <> "|"%char /\ c <> ","%char.
Proof.
  unfold plain_char. rewrite !andb_true_iff, !negb_true_iff, !bool_decide_eq_false. tauto.
Qed.

Lemma strip_graphic c s :
  graphic c = true ->
  strip_any space_seqs (String c s) = None /\ strip_any (String.rev <$> space_seqs) (String c s) = None.
Proof. by destruct c as [[] [] [] [] [] [] [] []]. Qed.

(** Visible text has nothing to trim. *)
Lemma trim_space_graphic s : all_chars graphic s = true -> trim_space s = s.
Proof.
  intros H. unfold trim_space.
  assert (trim_left space_seqs s = s) as ->.
  { destruct s as [|c s]; [done|]. rewrite all_chars_cons in H. apply andb_true_iff in H as [H _].
    by apply trim_left_id, strip_graphic. }
  rewrite <- all_chars_rev in H. rewrite trim_left_id; [apply string_rev_involutive|].
  destruct (String.rev s) as [|c r]; [done|]. rewrite all_chars_cons in H. apply andb_true_iff in H as [H _].
  by apply strip_graphic.
Qed.

Lemma split_on_single sep w :
  all_chars (fun c => negb (bool_decide (c = sep))) w = true -> split_on sep w = [w].
Proof.
  induction w as [|c w IH]; [done|]. rewrite all_chars_cons, andb_true_iff, negb_true_iff.
  intros [H1 H2]. cbn [split_on]. by rewrite H1, IH.
Qed.

Lemma split_on_app sep w rest :
  all_chars (fun c => negb (bool_decide (c = sep))) w = true ->
  split_on sep (w +:+ String sep rest) = w :: split_on sep rest.
Proof.
  induction w as [|c w IH]; intros H.
  - change ("" +:+ String sep rest) with (String sep rest). cbn [split_on]. by rewrite bool_decide_eq_true_2.
  - rewrite all_chars_cons, andb_true_iff, negb_true_iff in H. destruct H as [H1 H2].
    change (String c w +:+ String sep rest) with (String c (w +:+ String sep rest)). cbn [split_on].
    by rewrite H1, IH.
Qed.

Lemma split_on_join sep l :
  l <> [] -> Forall (fun w => all_chars (fun c => negb (bool_decide (c = sep))) w = true) l ->
  split_on sep (join (String sep "") l) = l.
Proof.
  induction l as [|w [|v l] IH]; intros Hne Hl; [done| |]; inversion Hl as [|? ? Hw Hl']; subst.
  - by apply split_on_single.
  - change (join (String sep "") (w :: v :: l)) with (w +:+ (String sep "" +:+ join (String sep "") (v :: l))).
    change (String sep "" +:+ join (String sep "") (v :: l)) with (String sep (join (String sep "") (v :: l))).
    by rewrite split_on_app, IH.
Qed.

Lemma all_chars_join P sep l :
  all_chars P sep = true -> Forall (fun w => all_chars P w = true) l -> all_chars P (join sep l) = true.
Proof.
  intros Hs. induction l as [|w [|v l] IH]; intros Hl; [done| |]; inversion Hl as [|? ? Hw Hl']; subst; [done|].
  change (join sep (w :: v :: l)) with (w +:+ (sep +:+ join sep (v :: l))).
  by rewrite !all_chars_app, Hw, Hs, IH.
Qed.

(** Fields of a plain peer, all at once. *)
Lemma plain_fields p P :
  plain_peer p = true -> (forall c, plain_char c = true -> P c = true) ->
  Forall (fun w => all_chars P w = true)
    [n_ID p; n_URL p; fd_Cloud (n_Domain p); fd_Region (n_Domain p); fd_Zone (n_Domain p)].
Proof.
  unfold plain_peer. rewrite !andb_true_iff. intros [[[[H1 H2] H3] H4] H5] HP.
  repeat constructor; by eapply all_chars_impl.
Qed.

Lemma parse_peer_entry message p : plain_peer p = true -> parse_peer message (peer_entry p) = Ok p.
Proof.
  intros Hp. unfold parse_peer, peer_entry.
  rewrite trim_space_graphic by (apply all_chars_join; [done|by apply plain_fields, plain_graphic]).
  rewrite split_on_join; [|done|].
  - pose proof (plain_fields p graphic Hp plain_graphic) as HF. rewrite !Forall_cons in HF.
    destruct HF as (H1 & H2 & H3 & H4 & H5 & _). rewrite !trim_space_graphic by done. by destruct p as [? ? []].
  - apply plain_fields; [done|]. intros c [Hc _]%plain_not_sep. by rewrite bool_decide_eq_false_2.
Qed.

Lemma peer_entry_chars p P :
  plain_peer p = true -> P "|"%char = true -> (forall c, plain_char c = true -> P c = true) ->
  all_chars P (peer_entry p) = true.
Proof.
  intros Hp Hs HP. apply all_chars_join; [by rewrite all_chars_cons, Hs|by apply plain_fields].
Qed.

Lemma parse_entries_print message peers :
  Forall (fun p => plain_peer p = true) peers ->
  parse_entries message (peer_entry <$> peers) = Ok peers.
Proof.
  induction 1 as [|p peers Hp _ IH]; [done|].
  cbn [fmap list_fmap parse_entries]. by rewrite parse_peer_entry, IH.
Qed.

Lemma parse_peers_print message peers :
  peers <> [] -> Forall (fun p => plain_peer p = true) peers ->
  parse_peers message (peer_spec peers) = Ok peers.
Proof.
  intros Hne Hp. unfold parse_peers, peer_spec.
  assert (Forall (fun w => all_chars graphic w = true) (peer_entry <$> peers)) as Hg.
  { apply Forall_fmap. eapply Forall_impl; [exact Hp|]. intros p H. by apply peer_entry_chars; [| |apply plain_graphic]. }
  rewrite trim_space_graphic by (by apply all_chars_join).
  rewrite bool_decide_eq_false_2.
  - rewrite split_on_join; [by apply parse_entries_print|by destruct peers|].
    apply Forall_fmap. eapply Forall_impl; [exact Hp|]. intros p H. cbn.
    apply peer_entry_chars; [done|done|]. intros c [_ Hc]%plain_not_sep. by rewrite bool_decide_eq_false_2.
  - destruct peers as [|p [|v peers]]; [done| |]; cbn [fmap list_fmap join];
      unfold peer_entry; cbn [join]; destruct (n_ID p); discriminate.
Qed.
