(* ===== verification/ReplicaPolicy.v ===== *)
(** * Quorum replication: policy and manager ([internal/replication])

    [policy.go] decides whether a set of acknowledgements meets the durability
    mode; [model.go] validates the configuration; [manager.go] sends a record to
    all peers and waits.  The peers answer concurrently, so the manager is run
    against a schedule: the order in which answers arrive on its channel and the
    point where its deadline passes. *)

From S2P Require Import Prelude GoStrings Domain Disk WalModel Topology.

Local Open Scope string_scope.
Local Open Scope Z_scope.
Local Open Scope list_scope.

(** ** Data *)

Definition ModeLocal : string := "local".
Definition ModeRegional : string := "regional".
Definition ModeCrossRegion : string := "cross-region".
Definition ModeCrossCloud : string := "cross-cloud".

Record ReplConfig := mkReplConfig {
  rc_Local : Node;
  rc_Peers : list Node;
  rc_Mode : string;
  rc_Quorum : Z;
  rc_Timeout : Z;
  rc_Token : string;
}.

Record Ack := mkAck {
  a_Node : Node;
  a_EdgeID : string;
  a_EdgeSequence : Z;
  a_PayloadSHA256 : string;
  a_RecordHash : string;
  a_Duplicate : bool;
  a_DurableAt : time;
}.

Record ReplResult := mkReplResult {
  rr_Mode : string;
  rr_Quorum : Z;
  rr_AckCount : Z;
  rr_Satisfied : bool;
  rr_Nodes : list string;
  rr_Clouds : list string;
  rr_Regions : list string;
  rr_Zones : list string;
  rr_CompletedAt : time;
  rr_FailureReason : string;
}.

Record ReplStatus := mkReplStatus {
  rs_Mode : string;
  rs_Quorum : Z;
  rs_ConfiguredPeers : Z;
  rs_LastAckCount : Z;
  rs_LastSatisfied : bool;
  rs_LastSuccessAt : time;
  rs_LastFailureAt : time;
  rs_LastFailure : string;
}.

(** ** Configuration *)

Definition ParsePeers (raw : string) : result (list Node) :=
  parse_peers "replication peer must be id|url|cloud|region|zone" raw.

Definition ParseMode (raw : string) : string :=
  let value := to_lower (trim_space raw) in
  if bool_decide (value = "") then ModeLocal else value.

Definition default_quorum (mode : string) : Z := if bool_decide (mode = ModeLocal) then 1 else 2.

Definition normalizedConfig (config : ReplConfig) : ReplConfig :=
  let mode := if bool_decide (rc_Mode config = "") then ModeLocal else rc_Mode config in
  let quorum := if rc_Quorum config =? 0 then default_quorum mode else rc_Quorum config in
  let timeout := if rc_Timeout config <=? 0 then 3 * 10 ^ 9 else rc_Timeout config in
  mkReplConfig (rc_Local config) (rc_Peers config) mode quorum timeout (rc_Token config).

Definition check_mode (config : ReplConfig) : result unit :=
  let mode := rc_Mode config in
  let domain := n_Domain (rc_Local config) in
  if bool_decide (mode = "") || bool_decide (mode = ModeLocal) then Ok tt
  else if bool_decide (mode = ModeRegional) then
    if blank (fd_Region domain) || blank (fd_Zone domain)
    then Err (ErrMsg "regional durability requires local region and zone") else Ok tt
  else if bool_decide (mode = ModeCrossRegion) then
    if blank (fd_Region domain)
    then Err (ErrMsg "cross-region durability requires local region") else Ok tt
  else if bool_decide (mode = ModeCrossCloud) then
    if blank (fd_Cloud domain)
    then Err (ErrMsg "cross-cloud durability requires local cloud") else Ok tt
  else Err (ErrMsg "unsupported durability mode").

Definition peer_complete (peer : Node) : result unit :=
  if blank (n_ID peer) || blank (n_URL peer)
  then Err (ErrMsg "replication peers require ID and URL") else Ok tt.

Definition Config_Validate (config : ReplConfig) : result unit :=
  if blank (n_ID (rc_Local config)) then Err (ErrMsg "local replication node ID is required")
  else
    _ ← check_mode config;
    let quorum :=
      if rc_Quorum config =? 0
      then if bool_decide (rc_Mode config = "") || bool_decide (rc_Mode config = ModeLocal) then 1 else 2
      else rc_Quorum config in
    if quorum <? 1 then Err (ErrMsg "replication quorum must be positive")
    else if zlen (rc_Peers config) + 1 <? quorum
    then Err (ErrMsg "replication quorum cannot be met by configured nodes")
    else if negb (bool_decide (rc_Mode config = ModeLocal)) && blank (rc_Token config)
    then Err (ErrMsg "non-local durability requires TELEMETRYFORGE_EDGE_REPLICATION_TOKEN")
    else check_peers peer_complete "duplicate replication node ID" (rc_Peers config)
           {[n_ID (rc_Local config)]}.

(** ** The quorum decision *)

(** The five sets [evaluate] collects. *)
Record tally := mkTally {
  t_nodes : gset string;
  t_clouds : gset string;
  t_regions : gset string;
  t_zones : gset string;
  t_sameRegionZones : gset string;
}.

Definition add_named (x : string) (s : gset string) : gset string :=
  if bool_decide (x = "") then s else {[x]} ∪ s.

Definition count_ack (config : ReplConfig) (t : tally) (a : Ack) : tally :=
  let node := a_Node a in
  let domain := n_Domain node in
  let home := fd_Region (n_Domain (rc_Local config)) in
  if blank (n_ID node) then t
  else if bool_decide (rc_Mode config = ModeRegional) && negb (bool_decide (fd_Region domain = home))
  then t
  else mkTally ({[n_ID node]} ∪ t_nodes t)
         (add_named (fd_Cloud domain) (t_clouds t))
         (add_named (fd_Region domain) (t_regions t))
         (add_named (fd_Zone domain) (t_zones t))
         (if bool_decide (fd_Region domain = home)
          then add_named (fd_Zone domain) (t_sameRegionZones t) else t_sameRegionZones t).

Definition sortedKeys (values : gset string) : list string := sort_strings (elements values).

(** What the mode asks for beyond the node count: the reason for a refusal, or
    nothing; an unknown mode is refused without a reason. *)
Definition domain_reason (mode : string) (t : tally) : option string :=
  if bool_decide (mode = ModeLocal) then None
  else if bool_decide (mode = ModeRegional) then
    if (size (t_sameRegionZones t) <? 2)%nat
    then Some "regional durability requires acknowledgements from at least two zones in the local region"
    else None
  else if bool_decide (mode = ModeCrossRegion) then
    if (size (t_regions t) <? 2)%nat
    then Some "cross-region durability requires acknowledgements from at least two regions" else None
  else if bool_decide (mode = ModeCrossCloud) then
    if (size (t_clouds t) <? 2)%nat
    then Some "cross-cloud durability requires acknowledgements from at least two clouds" else None
  else Some "".

Definition evaluate (config : ReplConfig) (acks : list Ack) (now : time) : ReplResult :=
  let config := normalizedConfig config in
  let t := foldl (count_ack config) (mkTally ∅ ∅ ∅ ∅ ∅) acks in
  let count := Z.of_nat (size (t_nodes t)) in
  let report satisfied reason :=
    mkReplResult (rc_Mode config) (rc_Quorum config) count satisfied (sortedKeys (t_nodes t))
      (sortedKeys (t_clouds t)) (sortedKeys (t_regions t)) (sortedKeys (t_zones t)) now reason in
  if count <? rc_Quorum config then report false "need more durable nodes"
  else match domain_reason (rc_Mode config) t with
       | None => report true ""
       | Some reason => report false reason
       end.

(** ** The manager *)

Record Manager := mkManager { mg_config : ReplConfig; mg_status : ReplStatus }.

Definition blank_ack (node : Node) : Ack := mkAck node "" 0 "" "" false 0.

Definition NewManager (config : ReplConfig) (now : time) : result Manager :=
  let config := normalizedConfig config in
  _ ← Config_Validate config;
  let possible := evaluate config (blank_ack (rc_Local config) :: (blank_ack <$> rc_Peers config)) now in
  if rr_Satisfied possible then
    Ok (mkManager config
          (mkReplStatus (rc_Mode config) (rc_Quorum config) (zlen (rc_Peers config)) 0 false 0 0 ""))
  else Err (ErrMsg "configured replication topology cannot satisfy the durability mode").

(** A peer's HTTP answer: the status code and the decoded body, if it decodes. *)
Record response := mkResponse { resp_status : Z; resp_ack : option Ack }.

(** [replicateToPeer] from the transport's outcome on. *)
Definition replicateToPeer (peer : Node) (r : WalRecord) (outcome : result response) : result Ack :=
  resp ← outcome;
  if negb (resp_status resp =? 201) then Err (ErrMsg "peer returned an error status")
  else match resp_ack resp with
  | None => Err (ErrMsg "invalid acknowledgement body")
  | Some a =>
      if bool_decide (n_ID (a_Node a) = n_ID peer) && bool_decide (a_EdgeID a = r_EdgeID r)
         && (a_EdgeSequence a =? r_EdgeSequence r)
         && bool_decide (a_PayloadSHA256 a = r_PayloadSHA256 r)
         && bool_decide (a_RecordHash a = r_RecordHash r)
      then Ok a
      else Err (ErrMsg "peer acknowledgement does not match replicated record")
  end.

(** What the [select] of the manager receives next. *)
Inductive arrival : Type :=
  | Deadline
  | Answer (peer : Node) (outcome : result response).

(** [Manager.record]. *)
Definition record_result (result : ReplResult) (err : option error) (reason : string) (now : time)
    (st : ReplStatus) : ReplStatus :=
  if bool_decide (err = None) && rr_Satisfied result
  then mkReplStatus (rs_Mode st) (rs_Quorum st) (rs_ConfiguredPeers st) (rr_AckCount result)
         (rr_Satisfied result) now (rs_LastFailureAt st) ""
  else mkReplStatus (rs_Mode st) (rs_Quorum st) (rs_ConfiguredPeers st) (rr_AckCount result)
         (rr_Satisfied result) (rs_LastSuccessAt st) now
         (if bool_decide (rr_FailureReason result = "") && negb (bool_decide (err = None))
          then reason else rr_FailureReason result).

Definition with_reason (reason : string) (r : ReplResult) : ReplResult :=
  mkReplResult (rr_Mode r) (rr_Quorum r) (rr_AckCount r) (rr_Satisfied r) (rr_Nodes r) (rr_Clouds r)
    (rr_Regions r) (rr_Zones r) (rr_CompletedAt r) reason.

Definition local_ack (config : ReplConfig) (r : WalRecord) : Ack :=
  mkAck (rc_Local config) (r_EdgeID r) (r_EdgeSequence r) (r_PayloadSHA256 r) (r_RecordHash r) false
    (r_AcceptedAt r).

(** The receive loop of [Replicate], once per peer.  A schedule that has run out
    leaves only the deadline to happen.  The result carries the error that
    [record] is given, with its text. *)
Fixpoint replicate_loop (config : ReplConfig) (r : WalRecord) (now : time) (rounds : list Node)
    (events : list arrival) (acks : list Ack) : ReplResult * option (error * string) :=
  match rounds with
  | [] =>
      let result := evaluate config acks now in
      let result := if bool_decide (rr_FailureReason result = "")
                    then with_reason "durability policy not satisfied after peer failures" result
                    else result in
      (result, Some (ErrQuorumUnavailable, "replication quorum unavailable"))
  | _ :: rounds' =>
      match events with
      | [] | Deadline :: _ =>
          (with_reason "replication timeout before durability policy was satisfied"
             (evaluate config acks now),
           Some (ErrCancelled, "context deadline exceeded"))
      | Answer peer outcome :: events' =>
          match replicateToPeer peer r outcome with
          | Err _ => replicate_loop config r now rounds' events' acks
          | Ok a =>
              let result := evaluate config (acks ++ [a]) now in
              if rr_Satisfied result then (result, None)
              else replicate_loop config r now rounds' events' (acks ++ [a])
          end
      end
  end.

Definition Replicate (r : WalRecord) (now : time) (events : list arrival) (m : Manager)
  : (ReplResult * option error) * Manager :=
  let config := mg_config m in
  let acks := [local_ack config r] in
  if bool_decide (rc_Mode config = ModeLocal) then
    let result := evaluate config acks now in
    ((result, None), mkManager config (record_result result None "" now (mg_status m)))
  else
    let '(result, failure) := replicate_loop config r now (rc_Peers config) events acks in
    let st := record_result result (fst <$> failure) (default "" (snd <$> failure)) now (mg_status m) in
    ((result, (fun _ => ErrWrap (rr_FailureReason result) ErrQuorumUnavailable) <$> failure),
     mkManager config st).

(** [probePeer] from the transport's outcome on: the health payload's status text
    and node. *)
Record health := mkHealth { h_code : Z; h_body : option (string * Node) }.

Definition probePeer (peer : Node) (outcome : result health) : result Ack :=
  resp ← outcome;
  if negb (h_code resp =? 200) then Err (ErrMsg "peer returned an error status")
  else match h_body resp with
  | None => Err (ErrMsg "invalid health body")
  | Some (status, node) =>
      if bool_decide (status = "ready") && bool_decide (n_ID node = n_ID peer)
      then Ok (blank_ack node)
      else Err (ErrMsg "peer health identity mismatch")
  end.

(** The receive loop of [Ready]; [None] is the deadline.  A failed probe sends the
    zero [Ack], which the loop drops by its empty node identity. *)
Fixpoint ready_loop (config : ReplConfig) (now : time) (rounds : list Node)
    (events : list (option (Node * result health))) (acks : list Ack) : result unit :=
  match rounds with
  | [] => Err ErrQuorumUnavailable
  | _ :: rounds' =>
      match events with
      | [] | None :: _ => Err ErrQuorumUnavailable
      | Some (peer, outcome) :: events' =>
          match probePeer peer outcome with
          | Err _ => ready_loop config now rounds' events' acks
          | Ok a =>
              if bool_decide (n_ID (a_Node a) = "") then ready_loop config now rounds' events' acks
              else if rr_Satisfied (evaluate config (acks ++ [a]) now) then Ok tt
              else ready_loop config now rounds' events' (acks ++ [a])
          end
      end
  end.

Definition Manager_Ready (now : time) (events : list (option (Node * result health))) (m : Manager)
  : result unit :=
  let config := mg_config m in
  if bool_decide (rc_Mode config = ModeLocal) then Ok tt
  else ready_loop config now (rc_Peers config) events [blank_ack (rc_Local config)].

(** [Manager.Release]: the first error of the peers' answers, or the deadline. *)
Fixpoint release_loop (rounds : list Node) (events : list (option (result unit))) (first : option error)
  : option error :=
  match rounds with
  | [] => first
  | _ :: rounds' =>
      match events with
      | [] | None :: _ => match first with None => Some ErrCancelled | Some e => Some e end
      | Some r :: events' =>
          release_loop rounds' events'
            (match first, r with None, Err e => Some e | _, _ => first end)
      end
  end.

Definition Manager_Release (through : Z) (events : list (option (result unit))) (m : Manager)
  : option error :=
  let config := mg_config m in
  if bool_decide (rc_Mode config = ModeLocal) || (through =? 0) then None
  else release_loop (rc_Peers config) events None.

(** ** What durability means

    The abstract policy, stated over the acknowledgements themselves. *)

Definition counts (config : ReplConfig) (a : Ack) : Prop :=
  blank (n_ID (a_Node a)) = false /\
  (rc_Mode config = ModeRegional ->
   fd_Region (n_Domain (a_Node a)) = fd_Region (n_Domain (rc_Local config))).

(** Two counted acknowledgements from different, named places. *)
Definition spread (config : ReplConfig) (place : FailureDomain -> string) (acks : list Ack) : Prop :=
  exists a b, a ∈ acks /\ b ∈ acks /\ counts config a /\ counts config b /\
    place (n_Domain (a_Node a)) <> "" /\ place (n_Domain (a_Node b)) <> "" /\
    place (n_Domain (a_Node a)) <> place (n_Domain (a_Node b)).

Definition durable (config : ReplConfig) (acks : list Ack) : Prop :=
  (exists ids, NoDup ids /\ rc_Quorum config <= zlen ids /\
     Forall (fun id => exists a, a ∈ acks /\ counts config a /\ n_ID (a_Node a) = id) ids) /\
  (rc_Mode config = ModeLocal \/
   rc_Mode config = ModeRegional /\ spread config fd_Zone acks \/
   rc_Mode config = ModeCrossRegion /\ spread config fd_Region acks \/
   rc_Mode config = ModeCrossCloud /\ spread config fd_Cloud acks).

(** ** Lemmas on the tally *)

Lemma elem_of_add_named x y s : x ∈ add_named y s <-> (x = y /\ y <> "") \/ x ∈ s.
Proof.
  unfold add_named. case_bool_decide as E.
  - split; [by right|]. intros [[-> ?]|?]; done.
  - rewrite elem_of_union, elem_of_singleton. tauto.
Qed.

Lemma counts_dec config a :
  negb (blank (n_ID (a_Node a))) &&
  negb (bool_decide (rc_Mode config = ModeRegional) &&
        negb (bool_decide (fd_Region (n_Domain (a_Node a)) = fd_Region (n_Domain (rc_Local config)))))
  = true <-> counts config a.
Proof.
  unfold counts. rewrite andb_true_iff, !negb_true_iff, andb_false_iff, negb_false_iff,
    bool_decide_eq_false, bool_decide_eq_true.
  destruct (decide (rc_Mode config = ModeRegional)); tauto.
Qed.

(** One acknowledgement adds to a set what [gain] says, if it counts. *)
Lemma count_ack_elem config t a (field : tally -> gset string) (gain : Ack -> string -> Prop) x :
  (counts config a -> x ∈ field (count_ack config t a) <-> gain a x \/ x ∈ field t) ->
  x ∈ field (count_ack config t a) <-> (counts config a /\ gain a x) \/ x ∈ field t.
Proof.
  intros H. destruct (decide (negb (blank (n_ID (a_Node a))) &&
    negb (bool_decide (rc_Mode config = ModeRegional) &&
      negb (bool_decide (fd_Region (n_Domain (a_Node a)) = fd_Region (n_Domain (rc_Local config)))))
    = true)) as [Hc|Hc].
  - apply counts_dec in Hc. rewrite (H Hc). tauto.
  - assert (count_ack config t a = t) as ->.
    { unfold count_ack. destruct (blank _); [done|]. by destruct (bool_decide _ && negb _). }
    split; [by right|]. intros [[Hc' _]|?]; [|done]. by apply counts_dec in Hc'.
Qed.

Lemma count_ack_counted config t a :
  counts config a ->
  let domain := n_Domain (a_Node a) in
  count_ack config t a =
  mkTally ({[n_ID (a_Node a)]} ∪ t_nodes t) (add_named (fd_Cloud domain) (t_clouds t))
    (add_named (fd_Region domain) (t_regions t)) (add_named (fd_Zone domain) (t_zones t))
    (if bool_decide (fd_Region domain = fd_Region (n_Domain (rc_Local config)))
     then add_named (fd_Zone domain) (t_sameRegionZones t) else t_sameRegionZones t).
Proof.
  intros Hc%counts_dec. unfold count_ack. apply andb_true_iff in Hc as [H1%negb_true_iff H2%negb_true_iff].
  by rewrite H1, H2.
Qed.

(** Membership in any of the five sets after all acknowledgements. *)
Lemma tally_elem config (field : tally -> gset string) (gain : Ack -> string -> Prop) acks t x :
  (forall t a, counts config a -> x ∈ field (count_ack config t a) <-> gain a x \/ x ∈ field t) ->
  x ∈ field (foldl (count_ack config) t acks) <->
  (exists a, a ∈ acks /\ counts config a /\ gain a x) \/ x ∈ field t.
Proof.
  intros H. revert t. induction acks as [|a acks IH]; intros t; cbn [foldl].
  - split; [by right|]. intros [(a & Hin & _)|?]; [by apply not_elem_of_nil in Hin|done].
  - rewrite IH, (count_ack_elem config t a field gain x) by apply H.
    setoid_rewrite elem_of_cons. split.
    + intros [(b & Hb & Hb')|[[Hc Hg]|?]]; [left; exists b|left; exists a|right]; tauto.
    + intros [(b & [->|Hb] & Hc & Hg)|?]; [right; left|left; exists b|right; right]; tauto.
Qed.

Definition tally_of (config : ReplConfig) (acks : list Ack) : tally :=
  foldl (count_ack config) (mkTally ∅ ∅ ∅ ∅ ∅) acks.

Lemma tally_nodes config acks x :
  x ∈ t_nodes (tally_of config acks) <->
  exists a, a ∈ acks /\ counts config a /\ n_ID (a_Node a) = x.
Proof.
  unfold tally_of. rewrite (tally_elem config t_nodes (fun a y => n_ID (a_Node a) = y)).
  - cbn [t_nodes]. rewrite elem_of_empty. tauto.
  - intros t a Hc. rewrite count_ack_counted by done. cbn. rewrite elem_of_union, elem_of_singleton.
    split; intros [?|?]; auto.
Qed.

Lemma tally_place config acks (field : tally -> gset string) (place : FailureDomain -> string) x :
  field (mkTally ∅ ∅ ∅ ∅ ∅) = ∅ ->
  (forall t a, counts config a ->
     field (count_ack config t a) = add_named (place (n_Domain (a_Node a))) (field t)) ->
  x ∈ field (tally_of config acks) <->
  exists a, a ∈ acks /\ counts config a /\ x = place (n_Domain (a_Node a)) /\ x <> "".
Proof.
  intros H0 H. unfold tally_of.
  rewrite (tally_elem config field (fun a y => y = place (n_Domain (a_Node a)) /\ y <> "")).
  - rewrite H0, elem_of_empty. tauto.
  - intros t a Hc. rewrite H by done. rewrite elem_of_add_named. intuition congruence.
Qed.

Lemma size_two (X : gset string) : (2 <= size X)%nat <-> exists x y, x ∈ X /\ y ∈ X /\ x <> y.
Proof.
  split.
  - intros H. change (size X) with (length (elements X)) in H. pose proof (NoDup_elements X) as Hnd.
    destruct (elements X) as [|x [|y l]] eqn:E; cbn in H; [lia..|].
    exists x, y. rewrite <- !elem_of_elements, E. rewrite !NoDup_cons in Hnd.
    rewrite !elem_of_cons. split; [auto|]. split; [auto|]. intros ->. apply (proj1 Hnd), elem_of_cons. auto.
  - intros (x & y & Hx & Hy & Hne). transitivity (size ({[x; y]} : gset string)).
    + rewrite size_union, !size_singleton; [lia|]. by apply disjoint_singleton_l, not_elem_of_singleton.
    + apply subseteq_size. intros z. rewrite elem_of_union, !elem_of_singleton. by intros [-> | ->].
Qed.

Lemma size_at_least (X : gset string) (q : Z) :
  q <= Z.of_nat (size X) <-> exists ids, NoDup ids /\ q <= zlen ids /\ Forall (.∈ X) ids.
Proof.
  split.
  - intros H. exists (elements X). split; [apply NoDup_elements|]. split; [done|].
    apply Forall_forall. intros x. apply elem_of_elements.
  - intros (ids & Hnd & Hq & HF). transitivity (zlen ids); [done|]. unfold zlen. apply inj_le.
    rewrite <- (size_list_to_set (C:=gset string) ids) by done. apply subseteq_size.
    intros x Hx%elem_of_list_to_set. rewrite Forall_forall in HF. auto.
Qed.

Lemma spread_size config acks (field : tally -> gset string) (place : FailureDomain -> string) :
  (forall x, x ∈ field (tally_of config acks) <->
     exists a, a ∈ acks /\ counts config a /\ x = place (n_Domain (a_Node a)) /\ x <> "") ->
  (size (field (tally_of config acks)) <? 2)%nat = false <-> spread config place acks.
Proof.
  intros H. rewrite Nat.ltb_ge, size_two. unfold spread. setoid_rewrite H. split.
  - intros (x & y & (a & ? & ? & -> & ?) & (b & ? & ? & -> & ?) & Hne). by exists a, b.
  - intros (a & b & ? & ? & ? & ? & ? & ? & ?). do 2 eexists. split; [by exists a|]. split; [by exists b|]. done.
Qed.

Lemma domain_reason_none config acks :
  domain_reason (rc_Mode config) (tally_of config acks) = None <->
  rc_Mode config = ModeLocal \/
  rc_Mode config = ModeRegional /\ spread config fd_Zone acks \/
  rc_Mode config = ModeCrossRegion /\ spread config fd_Region acks \/
  rc_Mode config = ModeCrossCloud /\ spread config fd_Cloud acks.
Proof.
  unfold domain_reason, ModeLocal, ModeRegional, ModeCrossRegion, ModeCrossCloud.
  case_bool_decide as E1; [tauto|].
  case_bool_decide as E2; [|case_bool_decide as E3; [|case_bool_decide as E4]].
  - rewrite <- (spread_size config acks t_sameRegionZones fd_Zone).
    + destruct (_ <? _)%nat; split; intros; [done|intuition congruence|tauto|done].
    + intros x. apply tally_place; [done|]. intros t a Hc. rewrite count_ack_counted by done. cbn.
      rewrite bool_decide_eq_true_2; [done|]. by apply Hc.
  - rewrite <- (spread_size config acks t_regions fd_Region).
    + destruct (_ <? _)%nat; split; intros; [done|intuition congruence|tauto|done].
    + intros x. apply tally_place; [done|]. intros t a Hc. by rewrite count_ack_counted.
  - rewrite <- (spread_size config acks t_clouds fd_Cloud).
    + destruct (_ <? _)%nat; split; intros; [done|intuition congruence|tauto|done].
    + intros x. apply tally_place; [done|]. intros t a Hc. by rewrite count_ack_counted.
  - split; [done|tauto].
Qed.

Lemma evaluate_durable config acks now :
  rr_Satisfied (evaluate config acks now) = true <-> durable (normalizedConfig config) acks.
Proof.
  unfold evaluate, durable. cbv zeta. fold (tally_of (normalizedConfig config) acks).
  rewrite <- domain_reason_none. setoid_rewrite <- tally_nodes. rewrite <- size_at_least.
  destruct (Z.ltb_spec (Z.of_nat (size (t_nodes (tally_of (normalizedConfig config) acks))))
    (rc_Quorum (normalizedConfig config))).
  - cbn [rr_Satisfied]. split; [done|]. intros [? _]. lia.
  - destruct (domain_reason _ _); cbn [rr_Satisfied]; split; try done. by intros [_ ?].
Qed.

Lemma normalized_idempotent config : normalizedConfig (normalizedConfig config) = normalizedConfig config.
Proof.
  unfold normalizedConfig. cbn [rc_Mode rc_Quorum rc_Timeout rc_Local rc_Peers rc_Token].
  assert ((if bool_decide (rc_Mode config = "") then ModeLocal else rc_Mode config) <> "") as Hm by (by case_bool_decide).
  rewrite (bool_decide_eq_false_2 _ Hm). f_equal.
  - destruct (Z.eqb_spec (rc_Quorum config) 0) as [E|E].
    + by destruct (default_quorum _ =? 0).
    + by rewrite (proj2 (Z.eqb_neq _ _) E).
  - destruct (Z.leb_spec (rc_Timeout config) 0) as [E|E]; [done|]. by rewrite (proj2 (Z.leb_gt _ _) E).
Qed.

Lemma durable_mono config acks acks' : acks ⊆ acks' -> durable config acks -> durable config acks'.
Proof.
  intros Hsub [(ids & H1 & H2 & H3) Hm]. split.
  - exists ids. split; [done|]. split; [done|]. eapply Forall_impl; [exact H3|].
    intros id (a & Ha & ?). exists a. auto.
  - assert (forall place, spread config place acks -> spread config place acks') as Hs.
    { intros place (a & b & Ha & Hb & H). exists a, b. auto. }
    destruct Hm as [?|[[? ?]|[[? ?]|[? ?]]]]; auto 6.
Qed.

(** The origin alone is durable only in the local mode. *)
Lemma durable_alone config a : durable config [a] -> rc_Mode config = ModeLocal.
Proof.
  intros [_ Hm]. assert (forall place, ~ spread config place [a]) as Hs.
  { intros place (x & y & Hx%list_elem_of_singleton & Hy%list_elem_of_singleton & _ & _ & _ & _ & Hne).
    by subst. }
  destruct Hm as [?|[[_ ?]|[[_ ?]|[_ ?]]]]; [done|exfalso; by eapply Hs..].
Qed.

(** ** The manager's loops *)

(** The acknowledgements that arrive before the deadline, at most one per round. *)
Fixpoint heard (r : WalRecord) (rounds : list Node) (events : list arrival) : list Ack :=
  match rounds, events with
  | _ :: rounds', Answer peer outcome :: events' =>
      match replicateToPeer peer r outcome with
      | Ok a => a :: heard r rounds' events'
      | Err _ => heard r rounds' events'
      end
  | _, _ => []
  end.

Definition matches (r : WalRecord) (peer : Node) (a : Ack) : Prop :=
  n_ID (a_Node a) = n_ID peer /\ a_EdgeID a = r_EdgeID r /\ a_EdgeSequence a = r_EdgeSequence r /\
  a_PayloadSHA256 a = r_PayloadSHA256 r /\ a_RecordHash a = r_RecordHash r.

Lemma replicateToPeer_matches peer r outcome a :
  replicateToPeer peer r outcome = Ok a -> matches r peer a.
Proof.
  unfold replicateToPeer. destruct outcome as [resp|e]; [|done]. cbn. destruct (negb _); [done|].
  destruct (resp_ack resp) as [b|]; [|done]. destruct (_ && _) eqn:G; [|done]. intros [= <-].
  rewrite !andb_true_iff, !bool_decide_eq_true, Z.eqb_eq in G. unfold matches. tauto.
Qed.

Lemma heard_matches r rounds events :
  Forall (fun a => exists peer outcome, Answer peer outcome ∈ events /\ matches r peer a)
    (heard r rounds events).
Proof.
  revert events. induction rounds as [|n rounds IH]; intros events; [constructor|].
  destruct events as [|[|peer outcome] events]; [constructor..|]. cbn.
  assert (Forall (fun a => exists peer' outcome', Answer peer' outcome' ∈ Answer peer outcome :: events /\
    matches r peer' a) (heard r rounds events)) as Hrest.
  { eapply Forall_impl; [apply IH|]. intros a (p & o & Hin & Hm). exists p, o. split; [by right|done]. }
  destruct (replicateToPeer peer r outcome) as [a|] eqn:E; [|done]. constructor; [|done].
  exists peer, outcome. split; [by left|]. by eapply replicateToPeer_matches.
Qed.

Lemma evaluate_undecided config acks now :
  ~ durable (normalizedConfig config) acks -> rr_Satisfied (evaluate config acks now) = false.
Proof. intros H. destruct (rr_Satisfied _) eqn:E; [|done]. by apply evaluate_durable in E. Qed.

Lemma replicate_loop_decides config r now rounds events acks result failure :
  ~ durable (normalizedConfig config) acks ->
  replicate_loop config r now rounds events acks = (result, failure) ->
  (failure = None <-> durable (normalizedConfig config) (acks ++ heard r rounds events)) /\
  rr_Satisfied result = bool_decide (failure = None).
Proof.
  revert events acks. induction rounds as [|n rounds IH]; intros events acks Hno HL.
  - injection HL as <- <-. cbn [heard]. rewrite app_nil_r. split; [by split|].
    destruct (bool_decide (rr_FailureReason _ = _)); by apply evaluate_undecided.
  - destruct events as [|[|peer outcome] events]; cbn [replicate_loop heard] in *.
    + injection HL as <- <-. rewrite app_nil_r. split; [by split|]. by apply evaluate_undecided.
    + injection HL as <- <-. rewrite app_nil_r. split; [by split|]. by apply evaluate_undecided.
    + destruct (replicateToPeer peer r outcome) as [a|e]; [|by apply IH in HL].
      destruct (rr_Satisfied (evaluate config (acks ++ [a]) now)) eqn:E.
      * injection HL as <- <-. split; [|done]. split; [intros _|done].
        apply evaluate_durable in E. eapply durable_mono; [|exact E].
        intros x. rewrite !elem_of_app, !elem_of_cons, elem_of_nil. tauto.
      * apply IH in HL; [|by intros H%(evaluate_durable config _ now); congruence].
        by rewrite <- app_assoc in HL.
Qed.

(** Durability looks at the acknowledging nodes only. *)
Lemma durable_nodes config acks acks' :
  (forall a, a ∈ acks -> exists a', a' ∈ acks' /\ a_Node a' = a_Node a) ->
  durable config acks -> durable config acks'.
Proof.
  intros Hsub. assert (forall a a', a_Node a' = a_Node a -> counts config a -> counts config a') as Hc.
  { unfold counts. intros a a' ->. done. }
  intros [(ids & H1 & H2 & H3) Hm]. split.
  - exists ids. split; [done|]. split; [done|]. eapply Forall_impl; [exact H3|].
    intros id (a & Ha & Hca & <-). destruct (Hsub a Ha) as (a' & Ha' & E). exists a'. rewrite E. eauto.
  - assert (forall place, spread config place acks -> spread config place acks') as Hs.
    { intros place (a & b & Ha & Hb & Hca & Hcb & H). destruct (Hsub a Ha) as (a' & Ha' & Ea).
      destruct (Hsub b Hb) as (b' & Hb' & Eb). exists a', b'. rewrite Ea, Eb. eauto 10. }
    destruct Hm as [?|[[? ?]|[[? ?]|[? ?]]]]; auto 6.
Qed.

Definition answer (pa : Node * Ack) : arrival := Answer pa.1 (Ok (mkResponse 201 (Some pa.2))).

Lemma replicateToPeer_accepts peer r a :
  matches r peer a -> replicateToPeer peer r (Ok (mkResponse 201 (Some a))) = Ok a.
Proof.
  intros (H1 & H2 & H3 & H4 & H5). unfold replicateToPeer. cbn [mbind result_mbind resp_status resp_ack].
  rewrite H1, H2, H3, H4, H5, !Z.eqb_refl. by rewrite !bool_decide_eq_true_2 by reflexivity.
Qed.

Lemma heard_answers r rounds answers :
  length rounds = length answers -> Forall (fun pa => matches r pa.1 pa.2) answers ->
  heard r rounds (answer <$> answers) = answers.*2.
Proof.
  revert rounds. induction answers as [|[p a] answers IH]; intros [|n rounds] Hl HF; try done.
  inversion HF as [|? ? Hm HF']; subst. cbn [fmap list_fmap heard answer fst snd].
  rewrite replicateToPeer_accepts by done. f_equal. apply IH; [by injection Hl|done].
Qed.

Lemma NewManager_config config now m :
  NewManager config now = Ok m ->
  mg_config m = normalizedConfig config /\ Config_Validate (mg_config m) = Ok tt /\
  durable (mg_config m) (blank_ack (rc_Local (mg_config m)) :: (blank_ack <$> rc_Peers (mg_config m))).
Proof.
  unfold NewManager. cbv zeta. destruct (Config_Validate _) as [[]|e] eqn:V; [|done]. cbn [mbind result_mbind].
  destruct (rr_Satisfied _) eqn:E; [|done]. intros [= <-]. cbn [mg_config].
  apply evaluate_durable in E. rewrite normalized_idempotent in E. done.
Qed.

(** ** Theorems *)

(** C12: The quorum decision is exactly the durability policy: [evaluate] reports
    success if and only if enough distinct, named nodes acknowledged (in the regional
    mode only nodes of the local region) and the acknowledgements span two zones of
    the local region, two regions or two clouds, as the mode demands. *)
Theorem evaluate_meets_policy config acks now :
  rr_Satisfied (evaluate config acks now) = true <-> durable (normalizedConfig config) acks.
Proof. apply evaluate_durable. Qed.

(** C11: Outside the local mode a record is acknowledged if and only if it is durable:
    [Replicate] returns no error exactly when the origin's copy and the matching
    acknowledgements received before the deadline, in whatever order they arrive, meet
    the policy; the reported result says the same, and each acknowledgement counted
    names the answering peer and this very record. *)
Theorem replicate_decides m r now events result err m' :
  normalizedConfig (mg_config m) = mg_config m -> rc_Mode (mg_config m) <> ModeLocal ->
  Replicate r now events m = (result, err, m') ->
  let acks := heard r (rc_Peers (mg_config m)) events in
  (err = None <-> durable (mg_config m) (local_ack (mg_config m) r :: acks)) /\
  rr_Satisfied result = bool_decide (err = None) /\
  rs_LastSatisfied (mg_status m') = bool_decide (err = None) /\
  Forall (fun a => exists peer outcome, Answer peer outcome ∈ events /\ matches r peer a) acks.
Proof.
  intros Hn Hmode HR. cbv zeta. unfold Replicate in HR. rewrite bool_decide_eq_false_2 in HR by done.
  cbv zeta in HR. destruct (replicate_loop _ _ _ _ _ _) as [res failure] eqn:L. injection HR as <- <- <-.
  apply replicate_loop_decides in L; [|rewrite Hn; by intros ?%durable_alone]. rewrite Hn in L.
  destruct L as [Hiff Hsat]. split; [|split; [|split; [|apply heard_matches]]].
  - rewrite <- Hiff. by destruct failure.
  - rewrite Hsat. by destruct failure.
  - unfold record_result. cbn [mg_status]. destruct (_ && _); cbn [rs_LastSatisfied]; rewrite Hsat;
      by destruct failure.
Qed.

Lemma feasible_replicates config now m r now' answers :
  NewManager config now = Ok m ->
  Permutation (answers.*1) (rc_Peers (mg_config m)) ->
  Forall (fun pa => matches r pa.1 pa.2 /\ a_Node pa.2 = pa.1) answers ->
  NoDup (n_ID <$> rc_Local (mg_config m) :: rc_Peers (mg_config m)) /\
  (Replicate r now' (answer <$> answers) m).1.2 = None.
Proof.
  intros (Hconf & HV & HD)%NewManager_config Hperm HF. split.
  - unfold Config_Validate in HV. destruct (blank _); [done|]. destruct (check_mode _); [|done].
    cbn [mbind result_mbind] in HV. destruct (_ <? 1); [done|]. destruct (_ <? _); [done|].
    destruct (_ && _); [done|]. apply check_peers_distinct in HV as (_ & H2 & H3).
    cbn. apply NoDup_cons. split; [|done]. intros (q & Hq & Hin)%list_elem_of_fmap.
    rewrite Forall_forall in H3. apply (H3 q Hin). rewrite elem_of_singleton. done.
  - unfold Replicate. case_bool_decide as Hmode; [done|]. cbv zeta.
    destruct (replicate_loop _ _ _ _ _ _) as [res failure] eqn:L. cbn.
    assert (normalizedConfig (mg_config m) = mg_config m) as Hn by (rewrite Hconf; apply normalized_idempotent).
    apply replicate_loop_decides in L; [|rewrite Hn; by intros ?%durable_alone].
    destruct L as [[_ ->] _]; [done|]. rewrite Hn, heard_answers.
    + eapply durable_nodes; [|exact HD]. intros a [->|Ha]%elem_of_cons; [exists (local_ack (mg_config m) r); split; [by left|done]|].
      apply list_elem_of_fmap in Ha as (p & -> & Hp). rewrite <- Hperm in Hp.
      apply list_elem_of_fmap in Hp as ([p' a'] & -> & Hin). rewrite Forall_forall in HF.
      destruct (HF _ Hin) as [_ E]. exists a'. split; [|done]. right. apply list_elem_of_fmap. by exists (p', a').
    + by rewrite <- Hperm, length_fmap.
    + eapply Forall_impl; [exact HF|]. by intros pa [? _].
Qed.

(** A manager is only built over a topology that can succeed: if [NewManager]
    accepts the configuration, node identities are distinct, and whenever every peer
    answers in time with a matching acknowledgement from its configured place, in any
    order, [Replicate] returns no error. *)
Theorem feasible_topology_replicates config now m r now' answers :
  NewManager config now = Ok m ->
  Permutation (answers.*1) (rc_Peers (mg_config m)) ->
  Forall (fun pa => matches r pa.1 pa.2 /\ a_Node pa.2 = pa.1) answers ->
  NoDup (n_ID <$> rc_Local (mg_config m) :: rc_Peers (mg_config m)) /\
  (Replicate r now' (answer <$> answers) m).1.2 = None.
Proof. apply feasible_replicates. Qed.

(** A peer list printed from its nodes is parsed back to the same nodes, for
    fields of visible ASCII without the separators. *)
Lemma peer_list_round_trip peers :
  peers <> [] -> Forall (fun p => plain_peer p = true) peers -> ParsePeers (peer_spec peers) = Ok peers.
Proof. apply parse_peers_print. Qed.

(** ** Witnesses *)

Definition zone_node (id zone : string) : Node := mkNode id ("http://" +:+ id) (mkDomain "c1" "r1" zone).
Definition trio : ReplConfig :=
  mkReplConfig (zone_node "n1" "z1") [zone_node "n2" "z2"; zone_node "n3" "z1"] ModeRegional 2 0 "secret".
Definition trio_manager : Manager :=
  mkManager (normalizedConfig trio) (mkReplStatus ModeRegional 2 2 0 false 0 0 "").

Definition good_answer (r : WalRecord) (p : Node) : Node * Ack :=
  (p, mkAck p (r_EdgeID r) (r_EdgeSequence r) (r_PayloadSHA256 r) (r_RecordHash r) false 8).

Definition sample_record : WalRecord :=
  mkRecord Format Version "edge-1" "telemetry" 1 1 9 "payload-digest" LineageVersion "" "record-digest"
    (example_event "svc").
Definition sample_events : list arrival :=
  [Answer (zone_node "n3" "z1") (Err ErrIO); answer (good_answer sample_record (zone_node "n2" "z2"))].

Lemma replicate_decides_witness :
  durable (normalizedConfig trio)
    [local_ack (normalizedConfig trio) sample_record; (good_answer sample_record (zone_node "n2" "z2")).2].
Proof.
  assert ((Replicate sample_record 9 sample_events trio_manager).1.2 = None) as Hok by (vm_compute; reflexivity).
  destruct (Replicate sample_record 9 sample_events trio_manager) as [[res err] m'] eqn:E.
  destruct (replicate_decides trio_manager sample_record 9 sample_events res err m' eq_refl
    ltac:(vm_compute; discriminate) E) as [H _].
  apply H in Hok. exact Hok.
Defined.

Lemma feasible_topology_replicates_witness :
  (Replicate sample_record 9 (answer <$> [good_answer sample_record (zone_node "n3" "z1"); good_answer sample_record (zone_node "n2" "z2")])
     trio_manager).1.2 = None.
Proof.
  apply (feasible_topology_replicates trio 5 trio_manager sample_record 9
    [good_answer sample_record (zone_node "n3" "z1"); good_answer sample_record (zone_node "n2" "z2")]).
  - vm_compute. reflexivity.
  - apply perm_swap.
  - repeat constructor.
Defined.

Lemma peer_list_round_trip_witness :
  ParsePeers "n2|http://n2|c1|r1|z2,n3|http://n3|c1|r1|z1" = Ok [zone_node "n2" "z2"; zone_node "n3" "z1"].
Proof.
  apply (peer_list_round_trip [zone_node "n2" "z2"; zone_node "n3" "z1"]).
  - discriminate.
  - repeat constructor; vm_compute; reflexivity.
Defined.

(** ** Local mode with a quorum *)

Definition local_pair : ReplConfig :=
  mkReplConfig (zone_node "n1" "z1") [zone_node "n2" "z2"] ModeLocal 2 0 "".

(** In the local mode a quorum above one is accepted at start-up and then ignored:
    [NewManager] takes the configuration, and every [Replicate] returns no error with
    a result that says the policy is not satisfied. *)
Theorem local_quorum_ignored :
  exists m, NewManager local_pair 5 = Ok m /\
  forall r now events, (Replicate r now events m).1.2 = None /\
    rr_Satisfied (Replicate r now events m).1.1 = false.
Proof.
  destruct (NewManager local_pair 5) as [m|e] eqn:E; vm_compute in E; [|discriminate E].
  injection E as <-. eexists. split; [reflexivity|]. intros r now events. split; [reflexivity|].
  change (rr_Satisfied (evaluate local_pair [local_ack local_pair r] now) = false).
  apply evaluate_undecided. intros [(ids & Hnd & Hq & HF) _]. change (rc_Quorum (normalizedConfig local_pair)) with 2 in Hq.
  destruct ids as [|x [|y ids]]; [done|done|]. rewrite !Forall_cons in HF.
  destruct HF as ((a & Ha%list_elem_of_singleton & _ & Hx) & (b & Hb%list_elem_of_singleton & _ & Hy) & _). subst.
  apply NoDup_cons in Hnd as [Hnd _]. apply Hnd. by left.
Qed.
