(* ===== verification/OffsetTracker.v ===== *)
(** * Kafka offset acknowledgement ([internal/stream/offset_tracker.go])

    [ackCoordinator] keeps, per partition, the records handed to the worker pool in
    their source order, and commits only the completed prefix.  The partition's
    mutex makes [Register] and [Ack] atomic, so a concurrent execution is a sequence
    of them; the broker's answer to a commit is an input of [Ack]. *)

From S2P Require Import Prelude.

Local Open Scope string_scope.
Local Open Scope Z_scope.
Local Open Scope list_scope.

(** The fields of a [kgo.Record] the coordinator reads. *)
Record KRecord := mkKRecord {
  k_Topic : string;
  k_Partition : Z;
  k_Offset : Z;
}.

Record trackedOffset := mkTracked { to_record : KRecord; to_done : bool }.

Abbreviation partitionKey := (string * Z)%type.
Definition key_of (r : KRecord) : partitionKey := (k_Topic r, k_Partition r).

Abbreviation ackCoordinator := (gmap partitionKey (list trackedOffset)).

Definition newAckCoordinator : ackCoordinator := ∅.

Definition pending_of (c : ackCoordinator) (k : partitionKey) : list trackedOffset := default [] (c !! k).

Definition Register (record : option KRecord) (c : ackCoordinator) : result unit * ackCoordinator :=
  match record with
  | None => (Err (ErrMsg "cannot register a nil Kafka record"), c)
  | Some r =>
      let pending := pending_of c (key_of r) in
      if existsb (fun entry => k_Offset (to_record entry) =? k_Offset r) pending
      then (Ok tt, <[key_of r := pending]> c)
      else (Ok tt, <[key_of r := pending ++ [mkTracked r false]]> c)
  end.

(** Mark the first entry with this offset; [None] if there is none. *)
Fixpoint mark_done (offset : Z) (pending : list trackedOffset) : option (list trackedOffset) :=
  match pending with
  | [] => None
  | entry :: pending' =>
      if k_Offset (to_record entry) =? offset then Some (mkTracked (to_record entry) true :: pending')
      else cons entry <$> mark_done offset pending'
  end.

Fixpoint completedPrefix (pending : list trackedOffset) : nat :=
  match pending with
  | entry :: pending' => if to_done entry then S (completedPrefix pending') else O
  | [] => O
  end.

(** The record [Ack] asks the broker to commit, if any. *)
Definition highest (pending : list trackedOffset) : option KRecord :=
  to_record <$> last (take (completedPrefix pending) pending).

(** [Ack], given the broker's answer; it returns the commit it issued as well. *)
Definition Ack (broker : KRecord -> result unit) (record : option KRecord) (c : ackCoordinator)
  : (result unit * option KRecord) * ackCoordinator :=
  match record with
  | None => ((Err (ErrMsg "cannot acknowledge a nil Kafka record"), None), c)
  | Some r =>
      match mark_done (k_Offset r) (pending_of c (key_of r)) with
      | None => ((Err (ErrMsg "Kafka record was not registered before acknowledgement"), None),
                 <[key_of r := pending_of c (key_of r)]> c)
      | Some pending =>
          match highest pending with
          | None => ((Ok tt, None), <[key_of r := pending]> c)
          | Some h =>
              match broker h with
              | Err e => ((Err (ErrWrap "commit contiguous Kafka prefix" e), Some h),
                          <[key_of r := pending]> c)
              | Ok _ => ((Ok tt, Some h), <[key_of r := drop (completedPrefix pending) pending]> c)
              end
          end
      end
  end.

(** ** Executions *)

Inductive operation : Type :=
  | DoRegister (record : option KRecord)
  | DoAck (record : option KRecord) (broker : KRecord -> result unit).

(** What an execution makes visible: accepted registrations, accepted
    acknowledgements and commits sent to the broker. *)
Inductive event : Type :=
  | Registered (r : KRecord)
  | Acked (r : KRecord)
  | Committed (r : KRecord).

Definition perform (op : operation) (c : ackCoordinator) : list event * ackCoordinator :=
  match op with
  | DoRegister record =>
      let c' := (Register record c).2 in
      (match record with
       | Some r => if (length (pending_of c (key_of r)) <? length (pending_of c' (key_of r)))%nat
                   then [Registered r] else []
       | None => []
       end, c')
  | DoAck record broker =>
      let '((_, commit), c') := Ack broker record c in
      (match record with
       | Some r => match mark_done (k_Offset r) (pending_of c (key_of r)) with
                   | Some _ => Acked r :: match commit with Some h => [Committed h] | None => [] end
                   | None => []
                   end
       | None => []
       end, c')
  end.

Fixpoint execute (ops : list operation) (c : ackCoordinator) : list event * ackCoordinator :=
  match ops with
  | [] => ([], c)
  | op :: ops' =>
      let '(h, c') := perform op c in
      let '(h', c'') := execute ops' c' in
      (h ++ h', c'')
  end.

(** The same slot of the same partition. *)
Definition same_slot (a b : KRecord) : Prop := key_of a = key_of b /\ k_Offset a = k_Offset b.

(** Records registered up to and including [r]'s registration, each acknowledged
    after it was registered: what makes a commit of [r] safe at the end of [h]. *)
Definition safe_commit (h : list event) (r : KRecord) : Prop :=
  forall a x b, h = a ++ Registered x :: b -> key_of x = key_of r ->
  (exists y, same_slot y r /\ Registered y ∈ Registered x :: b) ->
  exists y, same_slot y x /\ Acked y ∈ b.

(** ** The invariant *)

Definition offset_of (entry : trackedOffset) : Z := k_Offset (to_record entry).

(** Every registration is acknowledged since, or still waits in the list, ahead of
    everything registered after it. *)
Record tracks (h : list event) (k : partitionKey) (pending : list trackedOffset) : Prop := {
  tr_distinct : NoDup (offset_of <$> pending);
  tr_keys : Forall (fun entry => key_of (to_record entry) = k) pending;
  tr_order : forall a x b, h = a ++ Registered x :: b -> key_of x = k ->
    (exists y, same_slot y x /\ Acked y ∈ b) \/
    exists l entry r, pending = l ++ entry :: r /\ to_done entry = false /\
      offset_of entry = k_Offset x /\
      forall y, Registered y ∈ b -> key_of y = k -> k_Offset y ∈ offset_of <$> r;
}.

Lemma snoc_split (h a b : list event) e e' :
  h ++ [e] = a ++ e' :: b -> (h = a /\ e = e' /\ b = []) \/ exists b', b = b' ++ [e] /\ h = a ++ e' :: b'.
Proof.
  destruct b as [|z b'] using rev_ind; intros H.
  - apply app_inj_2 in H as [-> [= ->]]; [|done]. by left.
  - rewrite app_comm_cons, app_assoc in H. apply app_inj_2 in H as [-> [= ->]]; [|done]. right. by exists b'.
Qed.

Lemma tracks_other h k pending e :
  tracks h k pending -> (forall r, e = Registered r -> key_of r <> k) -> tracks (h ++ [e]) k pending.
Proof.
  intros [T1 T2 T3] He. split; [done..|]. intros a x b Hs Hx.
  apply snoc_split in Hs as [(-> & -> & ->)|(b' & -> & Hs)]; [by destruct (He x)|].
  destruct (T3 a x b' Hs Hx) as [(y & Hy & Hin)|(l & entry & r & -> & Hd & Ho & Hafter)].
  - left. exists y. split; [done|]. apply elem_of_app. by left.
  - right. exists l, entry, r. do 3 (split; [done|]). intros y [Hy|Hy%list_elem_of_singleton]%elem_of_app Hk; [auto|].
    by destruct (He y).
Qed.

Lemma tracks_register h k pending r :
  tracks h k pending -> key_of r = k -> k_Offset r ∉ offset_of <$> pending ->
  tracks (h ++ [Registered r]) k (pending ++ [mkTracked r false]).
Proof.
  intros [T1 T2 T3] Hk Hnew. split.
  - rewrite fmap_app. apply NoDup_app. split; [done|]. split; [|apply NoDup_singleton].
    intros o Ho ->%list_elem_of_singleton. done.
  - apply Forall_app. split; [done|]. by constructor.
  - intros a x b Hs Hx. apply snoc_split in Hs as [(-> & [= ->] & ->)|(b' & -> & Hs)].
    + right. exists pending, (mkTracked x false), []. do 3 (split; [done|]).
      intros y Hy. by apply not_elem_of_nil in Hy.
    + destruct (T3 a x b' Hs Hx) as [(y & Hy & Hin)|(l & entry & rest & -> & Hd & Ho & Hafter)].
      * left. exists y. split; [done|]. apply elem_of_app. by left.
      * right. exists l, entry, (rest ++ [mkTracked r false]). rewrite <- app_assoc.
        do 3 (split; [done|]). rewrite fmap_app. intros y Hy Hky. apply elem_of_app.
        apply elem_of_app in Hy as [Hy|[= ->]%list_elem_of_singleton]; [left; auto|]. right. by left.
Qed.

Lemma mark_done_records o pending pending' :
  mark_done o pending = Some pending' -> to_record <$> pending' = to_record <$> pending.
Proof.
  revert pending'. induction pending as [|e pending IH]; intros pending'; cbn; [done|].
  destruct (_ =? _); [by intros [= <-]|].
  destruct (mark_done o pending) as [p|]; [|done]. intros [= <-]. cbn. f_equal. by apply IH.
Qed.

Lemma mark_done_split o l entry r pending' :
  mark_done o (l ++ entry :: r) = Some pending' -> offset_of entry <> o ->
  exists l' r', pending' = l' ++ entry :: r' /\ to_record <$> r' = to_record <$> r.
Proof.
  revert pending'. induction l as [|e l IH]; intros pending' H Hne; cbn in H.
  - unfold offset_of in Hne. rewrite (proj2 (Z.eqb_neq _ _) Hne) in H. destruct (mark_done o r) as [r'|] eqn:E; [|done].
    injection H as <-. exists [], r'. split; [done|]. by eapply mark_done_records.
  - destruct (_ =? _); [injection H as <-; by exists (mkTracked (to_record e) true :: l), r|].
    destruct (mark_done o (l ++ entry :: r)) as [p|] eqn:E; [|done]. injection H as <-.
    destruct (IH p eq_refl Hne) as (l' & r' & -> & Hr). by exists (e :: l'), r'.
Qed.

Lemma offsets_records (pending : list trackedOffset) : offset_of <$> pending = k_Offset <$> (to_record <$> pending).
Proof. by rewrite <- list_fmap_compose. Qed.

Lemma tracks_ack h k pending pending' r :
  tracks h k pending -> key_of r = k -> mark_done (k_Offset r) pending = Some pending' ->
  tracks (h ++ [Acked r]) k pending'.
Proof.
  intros T Hk Hm. pose proof (tracks_other _ _ _ (Acked r) T ltac:(done)) as [T1 T2 T3].
  pose proof (mark_done_records _ _ _ Hm) as Hrec. split.
  - by rewrite offsets_records, Hrec, <- offsets_records.
  - change (Forall (fun entry => (fun q => key_of q = k) (to_record entry)) pending'). apply Forall_fmap.
    rewrite Hrec. by apply Forall_fmap.
  - intros a x b Hs Hx. destruct (T3 a x b Hs Hx) as [?|(l & entry & rest & -> & Hd & Ho & Hafter)]; [by left|].
    destruct (decide (offset_of entry = k_Offset r)) as [E|E].
    + left. exists r. split; [split; congruence|].
      apply snoc_split in Hs as [(_ & ? & _)|(b' & -> & _)]; [done|]. apply elem_of_app. right. by left.
    + right. destruct (mark_done_split _ _ _ _ _ Hm E) as (l' & rest' & -> & Hr).
      exists l', entry, rest'. do 3 (split; [done|]). by rewrite offsets_records, Hr, <- offsets_records.
Qed.

Lemma completedPrefix_le l entry r :
  to_done entry = false -> (completedPrefix (l ++ entry :: r) <= length l)%nat.
Proof.
  intros Hd. induction l as [|e l IH]; cbn; [by rewrite Hd|]. destruct (to_done e); lia.
Qed.

Lemma tracks_drop h k pending :
  tracks h k pending -> tracks h k (drop (completedPrefix pending) pending).
Proof.
  intros [T1 T2 T3]. split.
  - rewrite <- (take_drop (completedPrefix pending) pending), fmap_app in T1. by apply NoDup_app in T1 as (_ & _ & ?).
  - by apply Forall_drop.
  - intros a x b Hs Hx. destruct (T3 a x b Hs Hx) as [?|(l & entry & r & -> & Hd & Ho & Hafter)]; [by left|].
    right. exists (drop (completedPrefix (l ++ entry :: r)) l), entry, r.
    rewrite drop_app_le by (by apply completedPrefix_le). done.
Qed.

Lemma take_elem {A} n (l : list A) x : x ∈ take n l -> x ∈ l.
Proof. intros H. rewrite <- (take_drop n l). apply elem_of_app. by left. Qed.

Lemma highest_key h k pending r : tracks h k pending -> highest pending = Some r -> key_of r = k.
Proof.
  intros [_ T2 _]. unfold highest. destruct (last _) as [entry|] eqn:E; [|done]. intros [= <-].
  rewrite Forall_forall in T2. apply T2. apply last_Some_elem_of in E. by eapply take_elem.
Qed.

(** The prefix that is about to be committed holds no unacknowledged record. *)
Lemma tracks_safe h k pending r : tracks h k pending -> highest pending = Some r -> safe_commit h r.
Proof.
  intros T Hh a x b Hs Hx (z & [Hzk Hz] & Hin). pose proof (highest_key _ _ _ _ T Hh) as Hk.
  destruct T as [T1 _ T3]. destruct (T3 a x b Hs ltac:(congruence)) as [?|(l & entry & rest & -> & Hd & Ho & Hafter)];
    [done|]. exfalso.
  assert (k_Offset r ∈ offset_of <$> l) as Hl.
  { unfold highest in Hh. rewrite take_app_le in Hh by (by apply completedPrefix_le).
    destruct (last _) as [e|] eqn:E; [|done]. injection Hh as <-. apply last_Some_elem_of in E.
    apply list_elem_of_fmap. exists e. split; [done|]. by eapply take_elem. }
  rewrite fmap_app in T1. apply NoDup_app in T1 as (_ & Hdis & _). apply (Hdis _ Hl). cbn.
  apply elem_of_cons. apply elem_of_cons in Hin as [[= ->]|Hin]; [left; congruence|].
  right. rewrite <- Hz. apply Hafter; congruence.
Qed.

Definition safe_history (h : list event) : Prop :=
  forall h1 r h2, h = h1 ++ Committed r :: h2 -> safe_commit h1 r.

Lemma safe_history_snoc h e :
  safe_history h -> (forall r, e = Committed r -> safe_commit h r) -> safe_history (h ++ [e]).
Proof.
  intros Hh He h1 r h2 Hs. apply snoc_split in Hs as [(-> & -> & ->)|(b' & -> & Hs)]; [by apply He|].
  by eapply Hh.
Qed.

Definition good (h : list event) (c : ackCoordinator) : Prop :=
  safe_history h /\ forall k, tracks h k (pending_of c k).

Lemma pending_insert c k k' (pending : list trackedOffset) :
  pending_of (<[k := pending]> c) k' = if decide (k = k') then pending else pending_of c k'.
Proof.
  unfold pending_of. case_decide as E; [subst; by rewrite lookup_insert_eq|by rewrite lookup_insert_ne].
Qed.

(** One more event, about partition [k] only. *)
Lemma good_step h c e k pending :
  good h c -> (forall r, e = Registered r -> key_of r = k) ->
  (forall r, e = Committed r -> safe_commit h r) -> tracks (h ++ [e]) k pending ->
  good (h ++ [e]) (<[k := pending]> c).
Proof.
  intros [Hs Ht] Hr Hc Hk. split; [by apply safe_history_snoc|]. intros k'. rewrite pending_insert.
  case_decide as E; [by subst|]. apply tracks_other; [done|]. intros r He Hk'. apply E. by rewrite <- (Hr r).
Qed.

Lemma good_insert_same h c k : good h c -> good h (<[k := pending_of c k]> c).
Proof. intros [Hs Ht]. split; [done|]. intros k'. rewrite pending_insert. case_decide; [by subst|done]. Qed.

Lemma perform_register_good h c r :
  good h c -> good (h ++ (perform (DoRegister (Some r)) c).1) (perform (DoRegister (Some r)) c).2.
Proof.
  intros Hg. unfold perform, Register. cbv zeta. set (p := pending_of c (key_of r)).
  destruct (existsb _ p) eqn:E; cbn [fst snd]; rewrite pending_insert, decide_True by done.
  - rewrite Nat.ltb_irrefl, app_nil_r. by apply good_insert_same.
  - rewrite length_app, (proj2 (Nat.ltb_lt _ _)) by (cbn; lia).
    apply good_step; [done|by intros ? [= <-]|done|]. apply tracks_register; [apply Hg|done|].
    intros (entry & Ho & Hin)%list_elem_of_fmap.
    assert (existsb (fun entry => k_Offset (to_record entry) =? k_Offset r) p = true) as E'; [|congruence].
    apply existsb_exists. exists entry. split; [by apply list_elem_of_In|]. by apply Z.eqb_eq.
Qed.

Lemma perform_ack_good h c r broker :
  good h c -> good (h ++ (perform (DoAck (Some r) broker) c).1) (perform (DoAck (Some r) broker) c).2.
Proof.
  intros Hg. unfold perform, Ack. set (p := pending_of c (key_of r)).
  destruct (mark_done (k_Offset r) p) as [p'|] eqn:Hm; cbn [fst snd].
  2:{ rewrite app_nil_r. by apply good_insert_same. }
  assert (tracks (h ++ [Acked r]) (key_of r) p') as Ht by (eapply tracks_ack; [apply Hg|done|exact Hm]).
  assert (good (h ++ [Acked r]) (<[key_of r := p']> c)) as Hg' by (by apply good_step).
  destruct (highest p') as [top|] eqn:Hh; cbn [fst snd]; [|done].
  assert (forall q, tracks (h ++ [Acked r]) (key_of r) q ->
    good (h ++ [Acked r; Committed top]) (<[key_of r := q]> c)) as Hcommit.
  { intros q Hq. change [Acked r; Committed top] with ([Acked r] ++ [Committed top]). rewrite app_assoc.
    rewrite <- (insert_insert_eq c (key_of r) q p'). apply good_step; [done|done| |by apply tracks_other].
    intros ? [= <-]. exact (tracks_safe _ _ _ _ Ht Hh). }
  destruct (broker top); cbn [fst snd]; apply Hcommit; [by apply tracks_drop|done].
Qed.

Lemma perform_good h c op : good h c -> good (h ++ (perform op c).1) (perform op c).2.
Proof.
  intros Hg. destruct op as [[r|]|[r|] broker]; [by apply perform_register_good| |by apply perform_ack_good|];
    cbn; by rewrite app_nil_r.
Qed.

Lemma execute_good ops h c : good h c -> good (h ++ (execute ops c).1) (execute ops c).2.
Proof.
  revert h c. induction ops as [|op ops IH]; intros h c Hg; cbn [execute]; [by rewrite app_nil_r|].
  pose proof (perform_good h c op Hg) as Hp. destruct (perform op c) as [h1 c1]. cbn [fst snd] in Hp.
  specialize (IH _ _ Hp). destruct (execute ops c1) as [h2 c2]. cbn [fst snd] in *. by rewrite app_assoc.
Qed.

Lemma good_start : good [] newAckCoordinator.
Proof.
  split; [by intros [|] ? ?|]. intros k. split; [constructor|constructor|]. by intros [|] ? ?.
Qed.

(** ** Theorems *)

(** C14: No commit passes an unfinished record: in every sequence of registrations and
    acknowledgements, with the broker answering as it likes, whenever a record is
    committed, every record of its partition registered before it (and itself) has been
    acknowledged after its registration. *)
Theorem commit_never_passes_unacked ops h1 r h2 :
  (execute ops newAckCoordinator).1 = h1 ++ Committed r :: h2 -> safe_commit h1 r.
Proof. intros H. destruct (execute_good ops [] _ good_start) as [Hs _]. by eapply Hs. Qed.

Lemma completed_done pending : Forall (fun entry => to_done entry = true) (take (completedPrefix pending) pending).
Proof.
  induction pending as [|e pending IH]; cbn; [constructor|]. destruct (to_done e) eqn:E; cbn; by constructor.
Qed.

Lemma completed_stops pending :
  match drop (completedPrefix pending) pending with entry :: _ => to_done entry = false | [] => True end.
Proof. induction pending as [|e pending IH]; cbn; [done|]. destruct (to_done e) eqn:E; done. Qed.

(** An accepted acknowledgement makes all the progress it can: it commits the last
    record of the completed prefix and removes exactly that prefix, so the next record
    waiting in the partition is unfinished; without a completed prefix nothing is
    committed and nothing removed. *)
Theorem ack_commits_longest_prefix broker r c commit c' :
  Ack broker (Some r) c = ((Ok tt, commit), c') ->
  exists gone kept,
    to_record <$> pending_of c (key_of r) = gone ++ kept /\
    to_record <$> pending_of c' (key_of r) = kept /\ commit = last gone /\
    match pending_of c' (key_of r) with entry :: _ => to_done entry = false | [] => True end.
Proof.
  unfold Ack. set (p := pending_of c (key_of r)). destruct (mark_done (k_Offset r) p) as [p'|] eqn:Hm; [|done].
  intros H. rewrite <- (mark_done_records _ _ _ Hm). pose proof (completed_stops p') as Hstop.
  assert (forall q, pending_of (<[key_of r := q]> c) (key_of r) = q) as Hins.
  { intros q. by rewrite pending_insert, decide_True. }
  exists (to_record <$> take (completedPrefix p') p'), (to_record <$> drop (completedPrefix p') p').
  rewrite <- fmap_app, take_drop, fmap_last. split; [done|].
  destruct (highest p') as [top|] eqn:Hh.
  - destruct (broker top); [|done]. injection H as <- <-. rewrite Hins. done.
  - injection H as <- <-. rewrite Hins. unfold highest in Hh.
    assert (completedPrefix p' = O) as E; [|rewrite E in *; done].
    destruct p' as [|e p'']; [done|]. cbn [completedPrefix] in *. destruct (to_done e); [|done].
    cbn [take] in Hh. rewrite last_cons in Hh. by destruct (last (take _ _)).
Qed.

(** ** Witnesses *)

Definition at_offset (o : Z) : KRecord := mkKRecord "telemetry" 0 o.

Lemma commit_never_passes_unacked_witness :
  safe_commit [Registered (at_offset 10); Registered (at_offset 11); Acked (at_offset 11); Acked (at_offset 10)]
    (at_offset 11).
Proof.
  apply (commit_never_passes_unacked
    [DoRegister (Some (at_offset 10)); DoRegister (Some (at_offset 11));
     DoAck (Some (at_offset 11)) (fun _ => Ok tt); DoAck (Some (at_offset 10)) (fun _ => Ok tt)] _ _ []).
  vm_compute. reflexivity.
Defined.

Lemma ack_commits_longest_prefix_witness :
  let c := (execute [DoRegister (Some (at_offset 10)); DoRegister (Some (at_offset 11));
                     DoAck (Some (at_offset 11)) (fun _ => Ok tt)] newAckCoordinator).2 in
  exists gone kept, [at_offset 10; at_offset 11] = gone ++ kept /\ Some (at_offset 11) = last gone.
Proof.
  intros c.
  assert ((Ack (fun _ => Ok tt) (Some (at_offset 10)) c).1 = (Ok tt, Some (at_offset 11))) as Hr
    by (vm_compute; reflexivity).
  destruct (Ack (fun _ => Ok tt) (Some (at_offset 10)) c) as [[res commit] c'] eqn:E.
  cbn [fst] in Hr. injection Hr as -> ->.
  destruct (ack_commits_longest_prefix (fun _ => Ok tt) (at_offset 10) c _ c' E) as (gone & kept & H1 & _ & H3 & _).
  exists gone, kept. exact (conj H1 H3).
Defined.
