(* ===== verification/Formal.v ===== *)
(** * The bounded model checker and its protocol models ([internal/formal])

    [explore] is the breadth-first search of [model.go]; the four models are those of
    [durable_ingest.go], [replication.go], [mesh.go] and [lineage.go].  The loop over
    the work queue is not structural, so it takes fuel; it is shown that the size of
    any closed set of states is enough. *)

From S2P Require Import Prelude Disk GoStrings.

Local Open Scope string_scope.
Local Open Scope Z_scope.
Local Open Scope list_scope.

(** ** Data *)

Record FormalResult := mkFormalResult {
  fr_Model : string;
  fr_States : Z;
  fr_Transitions : Z;
  fr_Invariants : list string;
  fr_Status : string;
  fr_Error : string;
}.

Record Report := mkReport {
  rp_Format : string;
  rp_Version : Z;
  rp_Results : list FormalResult;
  rp_Status : string;
}.

Definition ReportFormat : string := "telemetryforge-formal-check".
Definition ReportVersion : Z := 1.

Record transition (S : Type) := mkTransition { tn_Name : string; tn_Next : S }.
Arguments mkTransition {S}. Arguments tn_Name {S}. Arguments tn_Next {S}.

Record namedInvariant (S : Type) := mkInvariant { ni_Name : string; ni_Check : S -> bool }.
Arguments mkInvariant {S}. Arguments ni_Name {S}. Arguments ni_Check {S}.

Record model (S : Type) := mkModel {
  md_Name : string;
  md_Initial : S;
  md_Next : S -> list (transition S);
  md_Invariants : list (namedInvariant S);
}.
Arguments mkModel {S}. Arguments md_Name {S}. Arguments md_Initial {S}.
Arguments md_Next {S}. Arguments md_Invariants {S}.

(** ** The search *)

Section explore.
Context {S : Type} `{Countable S}.

(** The transition loop over one state: new states enter [seen] and the queue. *)
Fixpoint take_steps (steps : list (transition S)) (seen : gset S) (queue : list S) (transitions : Z)
  : gset S * list S * Z :=
  match steps with
  | [] => (seen, queue, transitions)
  | step :: steps' =>
      if decide (tn_Next step ∈ seen) then take_steps steps' seen queue (transitions + 1)
      else take_steps steps' ({[tn_Next step]} ∪ seen) (queue ++ [tn_Next step]) (transitions + 1)
  end.

Fixpoint explore_loop (m : model S) (names : list string) (fuel : nat) (seen : gset S) (queue : list S)
    (states transitions : Z) : option FormalResult :=
  match queue with
  | [] => Some (mkFormalResult (md_Name m) states transitions names "pass" "")
  | current :: queue' =>
      match fuel with
      | O => None
      | Datatypes.S fuel =>
          match list_find (fun i => ni_Check i current = false) (md_Invariants m) with
          | Some (_, i) =>
              Some (mkFormalResult (md_Name m) (states + 1) transitions names "fail"
                      ("invariant " +:+ ni_Name i +:+ " failed"))
          | None =>
              let '(seen', queue'', transitions') := take_steps (md_Next m current) seen queue' transitions in
              explore_loop m names fuel seen' queue'' (states + 1) transitions'
          end
      end
  end.

Definition explore (fuel : nat) (m : model S) : option FormalResult :=
  explore_loop m (sort_strings (ni_Name <$> md_Invariants m)) fuel {[md_Initial m]} [md_Initial m] 0 0.

(** ** What the search is about *)

Inductive reachable (m : model S) : S -> Prop :=
  | reach_initial : reachable m (md_Initial m)
  | reach_step s t : reachable m s -> t ∈ md_Next m s -> reachable m (tn_Next t).

Definition holds_in (m : model S) (s : S) : Prop := Forall (fun i => ni_Check i s = true) (md_Invariants m).

(** A set that contains the initial state and is closed under the transitions. *)
Definition closed_in (m : model S) (U : gset S) : Prop :=
  md_Initial m ∈ U /\ forall s t, s ∈ U -> t ∈ md_Next m s -> tn_Next t ∈ U.

(** ** Lemmas *)

Lemma take_steps_spec steps seen queue n seen' queue' n' :
  take_steps steps seen queue n = (seen', queue', n') ->
  exists new, queue' = queue ++ new /\ NoDup new /\ seen' = list_to_set new ∪ seen /\
    Forall (fun s => (s ∉ seen) /\ exists t, t ∈ steps /\ tn_Next t = s) new /\
    (forall t, t ∈ steps -> tn_Next t ∈ seen') /\ n' = n + zlen steps.
Proof.
  revert seen queue n. induction steps as [|step steps IH]; intros seen queue n HT; cbn in HT.
  - injection HT as <- <- <-. exists []. rewrite app_nil_r, zlen_nil, Z.add_0_r.
    split; [done|]. split; [constructor|]. split; [cbn; by rewrite (left_id_L ∅ (∪))|]. split; [done|].
    split; [by intros t Ht%not_elem_of_nil|done].
  - assert (forall new (l : gset S), Forall (fun s => (s ∉ l) /\ exists t, t ∈ steps /\ tn_Next t = s) new ->
      Forall (fun s => (s ∉ l) /\ exists t, t ∈ step :: steps /\ tn_Next t = s) new) as Hw.
    { intros new l HF. eapply Forall_impl; [exact HF|]. intros s (Hs & t & Ht & E). split; [done|].
      exists t. split; [by right|done]. }
    case_decide as Hin; destruct (IH _ _ _ HT) as (new & -> & Hnd & -> & HF & Hall & ->);
      rewrite zlen_cons.
    + exists new. split; [done|]. split; [done|]. split; [done|]. split; [by apply Hw|]. split; [|lia].
      intros t [->|Ht]%elem_of_cons; [|by apply Hall]. apply elem_of_union. by right.
    + exists (tn_Next step :: new). rewrite <- app_assoc. split; [done|]. split.
      { apply NoDup_cons. split; [|done]. intros Hx. rewrite Forall_forall in HF.
        destruct (HF _ Hx) as [Hn _]. apply Hn, elem_of_union. left. by apply elem_of_singleton. }
      split; [cbn; apply set_eq; intros ?; rewrite !elem_of_union; tauto|]. split.
      { constructor; [split; [done|]; exists step; split; [by left|done]|].
        apply Hw. eapply Forall_impl; [exact HF|]. intros s [Hs Ht]. split; [|done].
        intros Hs'. apply Hs, elem_of_union. by right. }
      split; [|lia]. intros t [->|Ht]%elem_of_cons; [|by apply Hall].
      apply elem_of_union. right. apply elem_of_union. left. by apply elem_of_singleton.
Qed.

(** The state of the search: every seen state is reachable, and those that have left
    the queue have been checked and expanded. *)
Record searching (m : model S) (seen : gset S) (queue : list S) (states : Z) : Prop := {
  se_initial : md_Initial m ∈ seen;
  se_queue : Forall (.∈ seen) queue;
  se_distinct : NoDup queue;
  se_reachable : forall s, s ∈ seen -> reachable m s;
  se_expanded : forall s, s ∈ seen -> s ∉ queue ->
    holds_in m s /\ forall t, t ∈ md_Next m s -> tn_Next t ∈ seen;
  se_states : states = Z.of_nat (size seen) - zlen queue;
}.

Lemma searching_step m seen current queue states transitions seen' queue' transitions' :
  searching m seen (current :: queue) states -> holds_in m current ->
  take_steps (md_Next m current) seen queue transitions = (seen', queue', transitions') ->
  searching m seen' queue' (states + 1).
Proof.
  intros [I1 I2 I3 I4 I5 I6] Hok HT. apply take_steps_spec in HT as (new & -> & Hnd & -> & HF & Hall & _).
  apply Forall_cons in I2 as [Hcur I2]. apply NoDup_cons in I3 as [Hfresh I3]. rewrite Forall_forall in HF. split.
  - apply elem_of_union. by right.
  - apply Forall_app. split.
    + eapply Forall_impl; [exact I2|]. intros s Hs. apply elem_of_union. by right.
    + apply Forall_forall. intros s Hs. apply elem_of_union. left. by apply elem_of_list_to_set.
  - apply NoDup_app. split; [done|]. split; [|done]. intros s Hs Hs'. rewrite Forall_forall in I2.
    destruct (HF s Hs') as [Hn _]. by apply Hn, I2.
  - intros s [Hs%elem_of_list_to_set|Hs]%elem_of_union; [|by apply I4].
    destruct (HF s Hs) as (_ & t & Ht & <-). eapply reach_step; [by apply I4|done].
  - intros s Hs Hq. rewrite elem_of_app in Hq. apply elem_of_union in Hs as [Hs%elem_of_list_to_set|Hs]; [tauto|].
    destruct (decide (s = current)) as [->|Hne]; [by split|].
    destruct (I5 s Hs) as [H1 H2]; [rewrite elem_of_cons; tauto|]. split; [done|].
    intros t Ht. apply elem_of_union. right. by apply H2.
  - rewrite size_union.
    + rewrite size_list_to_set, zlen_app by done. rewrite zlen_cons in I6. unfold zlen in *. lia.
    + intros s Hs%elem_of_list_to_set Hs'. by destruct (HF s Hs).
Qed.

Lemma find_violation m s :
  list_find (fun i => ni_Check i s = false) (md_Invariants m) = None <-> holds_in m s.
Proof.
  rewrite list_find_None. unfold holds_in. rewrite !Forall_forall.
  split; intros Hall i Hi; specialize (Hall i Hi); destruct (ni_Check i s); done.
Qed.

(** The search decides whether the invariants hold in every reachable state. *)
Lemma explore_loop_decides m names fuel seen queue states transitions r :
  searching m seen queue states ->
  explore_loop m names fuel seen queue states transitions = Some r ->
  (fr_Status r = "pass" /\ forall s, reachable m s -> holds_in m s) \/
  (fr_Status r = "fail" /\ exists s, reachable m s /\ ~ holds_in m s).
Proof.
  revert seen queue states transitions. induction fuel as [|fuel IH]; intros seen queue states transitions I HE.
  all: destruct queue as [|current queue]; cbn [explore_loop] in HE.
  1,3: injection HE as <-; left; split; [done|]; destruct I as [I1 _ _ _ I5 _];
    assert (forall s, reachable m s -> s ∈ seen) as Hseen
      by (induction 1 as [|s t _ IHr Ht]; [done|]; by apply (I5 s IHr (not_elem_of_nil _)));
    intros s Hs; by apply (I5 s (Hseen s Hs) (not_elem_of_nil _)).
  - done.
  - destruct (list_find _ _) as [[k i]|] eqn:Hf.
    + injection HE as <-. right. split; [done|]. exists current.
      pose proof (se_queue _ _ _ _ I) as Hq. apply Forall_cons in Hq as [Hq _].
      split; [by apply (se_reachable _ _ _ _ I)|]. intros Hok%find_violation. congruence.
    + apply find_violation in Hf. destruct (take_steps _ _ _ _) as [[seen' queue'] transitions'] eqn:HT.
      eapply IH; [by eapply searching_step|exact HE].
Qed.

Lemma searching_start m : searching m {[md_Initial m]} [md_Initial m] 0.
Proof.
  split.
  - by apply elem_of_singleton.
  - constructor; [by apply elem_of_singleton|constructor].
  - apply NoDup_singleton.
  - intros s ->%elem_of_singleton. constructor.
  - intros s ->%elem_of_singleton Hs. destruct Hs. by left.
  - by rewrite size_singleton.
Qed.

(** Fuel: one unit per state of a closed set. *)
Lemma explore_loop_terminates m names U fuel seen queue states transitions :
  closed_in m U -> searching m seen queue states -> seen ⊆ U ->
  (size U + length queue <= fuel + size seen)%nat ->
  is_Some (explore_loop m names fuel seen queue states transitions).
Proof.
  intros [HU0 HU]. revert seen queue states transitions.
  induction fuel as [|fuel IH]; intros seen queue states transitions I Hsub Hfuel;
    destruct queue as [|current queue]; cbn [explore_loop]; [by eexists| |by eexists|].
  - apply subseteq_size in Hsub. cbn in Hfuel. lia.
  - destruct (list_find _ _) as [[k i]|] eqn:Hf; [by eexists|]. apply find_violation in Hf.
    destruct (take_steps _ _ _ _) as [[seen' queue'] transitions'] eqn:HT.
    pose proof (searching_step _ _ _ _ _ _ _ _ _ I Hf HT) as I'.
    apply take_steps_spec in HT as (new & -> & Hnd & -> & HF & _ & _).
    pose proof (se_queue _ _ _ _ I) as Hq. apply Forall_cons in Hq as [Hq _].
    apply IH; [done| |].
    + intros s [Hs%elem_of_list_to_set|Hs]%elem_of_union; [|by apply Hsub].
      rewrite Forall_forall in HF. destruct (HF s Hs) as (_ & t & Ht & <-). eapply HU; [by apply Hsub|done].
    + rewrite size_union, size_list_to_set, length_app; [cbn in Hfuel; lia|done|].
      intros s Hs%elem_of_list_to_set Hs'. rewrite Forall_forall in HF. by destruct (HF s Hs).
Qed.

End explore.

(** ** The protocol models *)

(** [if guard then append(out, transition{...})]. *)
Definition when {S} (guard : bool) (name : string) (next : S) : list (transition S) :=
  if guard then [mkTransition name next] else [].

(** *** Durable ingest *)

Record durableState := mkDurable {
  ds_LocalDurable : bool;
  ds_ClientAck : bool;
  ds_Downstream : bool;
  ds_Compacted : bool;
}.

#[export] Instance durableState_eq_dec : EqDecision durableState.
Proof. solve_decision. Defined.
#[export] Instance durableState_countable : Countable durableState.
Proof.
  refine (inj_countable'
    (fun s => (ds_LocalDurable s, ds_ClientAck s, ds_Downstream s, ds_Compacted s))
    (fun '(a, b, c, d) => mkDurable a b c d) _).
  by intros [].
Defined.

Definition durable_next (s : durableState) : list (transition durableState) :=
  let '(mkDurable l a d c) := s in
  when (negb l && negb c) "fsync-local-wal" (mkDurable true a d c) ++
  when (l && negb a) "ack-client" (mkDurable l true d c) ++
  when (l && negb d) "deliver" (mkDurable l a true c) ++
  when (d && l && negb c) "compact-after-delivery" (mkDurable false a d true).

Definition durable_ingest : model durableState :=
  mkModel "durable-ingest" (mkDurable false false false false) durable_next
    [mkInvariant "client-ack-implies-durable-or-delivered"
       (fun s => negb (ds_ClientAck s) || ds_LocalDurable s || ds_Downstream s);
     mkInvariant "compaction-only-after-downstream-delivery"
       (fun s => negb (ds_Compacted s) || ds_Downstream s);
     mkInvariant "undelivered-acked-event-remains-local-durable"
       (fun s => negb (ds_ClientAck s && negb (ds_Downstream s)) || ds_LocalDurable s)].

(** *** Replicated durability; masks are 8-bit *)

Record replicaState := mkReplica {
  rs_DurableMask : Z;
  rs_ClientAck : bool;
  rs_Downstream : bool;
  rs_Released : bool;
}.

#[export] Instance replicaState_eq_dec : EqDecision replicaState.
Proof. solve_decision. Defined.
#[export] Instance replicaState_countable : Countable replicaState.
Proof.
  refine (inj_countable'
    (fun s => (rs_DurableMask s, rs_ClientAck s, rs_Downstream s, rs_Released s))
    (fun '(a, b, c, d) => mkReplica a b c d) _).
  by intros [].
Defined.

(** [bits.OnesCount8]. *)
Definition onesCount8 (mask : Z) : Z :=
  zlen (filter (fun i => Z.testbit mask i = true) [0; 1; 2; 3; 4; 5; 6; 7]).

Definition quorum : Z := 2.

Definition replica_next (s : replicaState) : list (transition replicaState) :=
  let '(mkReplica mask a d r) := s in
  let replicate peer :=
    let bit := Z.shiftl 1 peer in
    when (Z.land mask bit =? 0) "replicate-peer" (mkReplica (Z.lor mask bit) a d r) in
  when ((Z.land mask 1 =? 0) && negb r) "persist-origin" (mkReplica (Z.lor mask 1) a d r) ++
  (if negb (Z.land mask 1 =? 0) && negb r then replicate 1 ++ replicate 2 else []) ++
  when (negb a && (quorum <=? onesCount8 mask)) "ack-after-quorum" (mkReplica mask true d r) ++
  when ((quorum <=? onesCount8 mask) && negb d) "deliver-downstream" (mkReplica mask a true r) ++
  when (d && negb r) "release-replicas" (mkReplica 0 a d true).

Definition replicated_durability : model replicaState :=
  mkModel "replicated-durability" (mkReplica 0 false false false) replica_next
    [mkInvariant "replicated-ack-requires-quorum"
       (fun s => negb (rs_ClientAck s) || rs_Released s || (quorum <=? onesCount8 (rs_DurableMask s)));
     mkInvariant "quorum-includes-origin-before-release"
       (fun s => rs_Released s || (onesCount8 (rs_DurableMask s) <? quorum)
                 || negb (Z.land (rs_DurableMask s) 1 =? 0));
     mkInvariant "release-only-after-downstream-delivery"
       (fun s => negb (rs_Released s) || rs_Downstream s);
     mkInvariant "acked-undelivered-event-retains-quorum"
       (fun s => negb (rs_ClientAck s && negb (rs_Downstream s))
                 || (quorum <=? onesCount8 (rs_DurableMask s)))].

(** *** Mesh failover *)

Record meshState := mkMeshState {
  ms_HealthyMask : Z;
  ms_AttemptedMask : Z;
  ms_Delivered : bool;
  ms_Failed : bool;
}.

#[export] Instance meshState_eq_dec : EqDecision meshState.
Proof. solve_decision. Defined.
#[export] Instance meshState_countable : Countable meshState.
Proof.
  refine (inj_countable'
    (fun s => (ms_HealthyMask s, ms_AttemptedMask s, ms_Delivered s, ms_Failed s))
    (fun '(a, b, c, d) => mkMeshState a b c d) _).
  by intros [].
Defined.

Definition firstEligible (s : meshState) : Z :=
  let ok i := let bit := Z.shiftl 1 i in
    negb (Z.land (ms_HealthyMask s) bit =? 0) && (Z.land (ms_AttemptedMask s) bit =? 0) in
  if ok 0 then 0 else if ok 1 then 1 else if ok 2 then 2 else -1.

Definition mesh_next (s : meshState) : list (transition meshState) :=
  let '(mkMeshState healthy attempted delivered failed) := s in
  if delivered || failed then []
  else
    let owner := firstEligible s in
    if owner <? 0 then [mkTransition "no-route" (mkMeshState healthy attempted delivered true)]
    else
      let bit := Z.shiftl 1 owner in
      [mkTransition "forward-success" (mkMeshState healthy (Z.lor attempted bit) true failed);
       mkTransition "forward-failure"
         (mkMeshState (Z.ldiff healthy bit) (Z.lor attempted bit) delivered failed)].

Definition mesh_failover : model meshState :=
  mkModel "mesh-failover" (mkMeshState 7 0 false false) mesh_next
    [mkInvariant "attempts-are-subset-of-known-candidates"
       (fun s => Z.ldiff (ms_AttemptedMask s) 7 =? 0);
     mkInvariant "delivery-never-coexists-with-terminal-failure"
       (fun s => negb (ms_Delivered s && ms_Failed s));
     mkInvariant "terminal-failure-means-no-eligible-owner"
       (fun s => negb (ms_Failed s) || (firstEligible s =? -1));
     mkInvariant "bounded-owner-attempts-prevent-forwarding-loops"
       (fun s => ms_AttemptedMask s <=? 7)].

(** *** Cryptographic lineage *)

Record lineageState := mkLineage {
  ls_Count : Z;
  ls_ChainOK : bool;
  ls_Sealed : bool;
  ls_Tampered : bool;
  ls_Verified : bool;
  ls_Rejected : bool;
}.

#[export] Instance lineageState_eq_dec : EqDecision lineageState.
Proof. solve_decision. Defined.
#[export] Instance lineageState_countable : Countable lineageState.
Proof.
  refine (inj_countable'
    (fun s => (ls_Count s, ls_ChainOK s, ls_Sealed s, ls_Tampered s, ls_Verified s, ls_Rejected s))
    (fun '(a, b, c, d, e, f) => mkLineage a b c d e f) _).
  by intros [].
Defined.

Definition lineage_next (s : lineageState) : list (transition lineageState) :=
  let '(mkLineage n ok sealed tampered verified rejected) := s in
  let open := negb verified && negb rejected in
  when (negb sealed && (n <? 3) && negb tampered) "append-linked-record"
    (mkLineage ((n + 1) mod 256) ok sealed tampered verified rejected) ++
  when (negb sealed && (0 <? n) && ok) "sign-merkle-root"
    (mkLineage n ok true tampered verified rejected) ++
  when (sealed && negb tampered && open) "verify-clean-seal"
    (mkLineage n ok sealed tampered true rejected) ++
  when (sealed && negb tampered && open) "tamper-after-seal"
    (mkLineage n false sealed true verified rejected) ++
  when (sealed && tampered && open) "reject-tampered-seal"
    (mkLineage n ok sealed tampered verified true).

Definition cryptographic_lineage : model lineageState :=
  mkModel "cryptographic-lineage" (mkLineage 0 true false false false false) lineage_next
    [mkInvariant "verified-history-is-not-tampered"
       (fun s => negb (ls_Verified s) || negb (ls_Tampered s));
     mkInvariant "tampered-sealed-history-cannot-verify"
       (fun s => negb (ls_Sealed s && ls_Tampered s) || negb (ls_Verified s));
     mkInvariant "rejection-requires-tamper"
       (fun s => negb (ls_Rejected s) || ls_Tampered s);
     mkInvariant "seal-requires-nonempty-valid-chain"
       (fun s => negb (ls_Sealed s) || ((0 <? ls_Count s) && (ls_ChainOK s || ls_Tampered s)))].

(** ** The report *)

(** Enough for each of the models; [None] would mean the fuel ran out. *)
Definition search_fuel : nat := 64.

Definition CheckAll : option Report :=
  r1 ← explore search_fuel durable_ingest;
  r2 ← explore search_fuel replicated_durability;
  r3 ← explore search_fuel mesh_failover;
  r4 ← explore search_fuel cryptographic_lineage;
  let results := [r1; r2; r3; r4] in
  let status := if forallb (fun r => bool_decide (fr_Status r = "pass")) results then "pass" else "fail" in
  Some (mkReport ReportFormat ReportVersion results status).

Fixpoint validate_results (results : list FormalResult) (expected : string) : result string :=
  match results with
  | [] => Ok expected
  | r :: results' =>
      if bool_decide (fr_Model r = "") || (fr_States r =? 0) || bool_decide (fr_Invariants r = [])
      then Err (ErrMsg "invalid result for model")
      else if negb (bool_decide (fr_Status r = "pass")) && negb (bool_decide (fr_Status r = "fail"))
      then Err (ErrMsg "invalid status for model")
      else validate_results results' (if bool_decide (fr_Status r = "fail") then "fail" else expected)
  end.

Definition Report_Validate (report : Report) : result unit :=
  if negb (bool_decide (rp_Format report = ReportFormat)) || negb (rp_Version report =? ReportVersion)
  then Err (ErrMsg "unsupported formal-check report")
  else match rp_Results report with
  | [] => Err (ErrMsg "formal-check report has no results")
  | results =>
      expected ← validate_results results "pass";
      if bool_decide (rp_Status report = expected) then Ok tt
      else Err (ErrMsg "report status does not match result status")
  end.

(** ** Theorems *)

(** C34: The search is a decision procedure: given fuel for every state of some closed
    set, it terminates, and it reports "pass" exactly when every reachable state
    satisfies every invariant (otherwise it reports "fail"). *)
Theorem explore_decides {S} `{Countable S} (m : model S) (U : gset S) (fuel : nat) :
  closed_in m U -> (size U <= fuel)%nat ->
  exists r, explore fuel m = Some r /\
    (fr_Status r = "pass" <-> forall s, reachable m s -> holds_in m s) /\
    (fr_Status r = "fail" <-> exists s, reachable m s /\ ~ holds_in m s).
Proof.
  intros HU Hfuel.
  destruct (explore_loop_terminates m (sort_strings (ni_Name <$> md_Invariants m)) U fuel
    {[md_Initial m]} [md_Initial m] 0 0 HU (searching_start m)) as [r Hr].
  - intros s ->%elem_of_singleton. apply HU.
  - rewrite size_singleton. cbn. lia.
  - exists r. split; [exact Hr|].
    destruct (explore_loop_decides _ _ _ _ _ _ _ _ (searching_start m) Hr) as [[E Hall]|[E (s & Hs & Hbad)]];
      rewrite E; split; split; try done; [intros (s & Hs & Hbad); by destruct Hbad; auto| |by exists s].
    intros Hall. by destruct Hbad; auto.
Qed.

Lemma explore_pass {S} `{Countable S} (m : model S) fuel r :
  explore fuel m = Some r -> fr_Status r = "pass" -> forall s, reachable m s -> holds_in m s.
Proof.
  intros Hr E. destruct (explore_loop_decides _ _ _ _ _ _ _ _ (searching_start m) Hr) as [[_ ?]|[E' _]]; [done|].
  congruence.
Qed.

(** The four protocol models are safe, without a bound: in every reachable state of
    each model every invariant the code names holds, the search finds exactly that, and
    the report [CheckAll] builds passes its own validation. *)
Theorem formal_models_safe :
  (forall s, reachable durable_ingest s -> holds_in durable_ingest s) /\
  (forall s, reachable replicated_durability s -> holds_in replicated_durability s) /\
  (forall s, reachable mesh_failover s -> holds_in mesh_failover s) /\
  (forall s, reachable cryptographic_lineage s -> holds_in cryptographic_lineage s) /\
  match CheckAll with
  | Some report => rp_Status report = "pass" /\ Report_Validate report = Ok tt /\
                   fr_States <$> rp_Results report = [7; 16; 8; 16]
  | None => False
  end.
Proof.
  split; [|split; [|split; [|split]]].
  - eapply (explore_pass _ search_fuel); [vm_compute; reflexivity|reflexivity].
  - eapply (explore_pass _ search_fuel); [vm_compute; reflexivity|reflexivity].
  - eapply (explore_pass _ search_fuel); [vm_compute; reflexivity|reflexivity].
  - eapply (explore_pass _ search_fuel); [vm_compute; reflexivity|reflexivity].
  - vm_compute. repeat split.
Qed.

Lemma validate_results_spec results expected status :
  validate_results results expected = Ok status ->
  Forall (fun r => fr_Status r = "pass" \/ fr_Status r = "fail") results /\
  (status = "fail" <-> expected = "fail" \/ Exists (fun r => fr_Status r = "fail") results) /\
  (expected = "pass" \/ expected = "fail" -> status = "pass" \/ status = "fail").
Proof.
  revert expected. induction results as [|r results IH]; intros expected HV; cbn [validate_results] in HV.
  - injection HV as <-. split; [constructor|]. split; [|done]. split; [by left|]. by intros [?|?%Exists_nil].
  - destruct (_ || _); [done|]. destruct (negb _ && negb _) eqn:E; [done|].
    apply IH in HV as (H1 & H2 & H3). rewrite Exists_cons.
    assert (fr_Status r = "pass" \/ fr_Status r = "fail") as Hr.
    { apply andb_false_iff in E. rewrite !negb_false_iff, !bool_decide_eq_true in E. tauto. }
    split; [by constructor|]. case_bool_decide as Ef; [intuition|]. intuition congruence.
Qed.

(** A report that validates tells the truth about its results: it is for this
    format and version, has at least one result, each passed or failed, and the
    report's status is "fail" exactly when some result failed. *)
Theorem validated_report_consistent report :
  Report_Validate report = Ok tt ->
  rp_Format report = ReportFormat /\ rp_Results report <> [] /\
  Forall (fun r => fr_Status r = "pass" \/ fr_Status r = "fail") (rp_Results report) /\
  (rp_Status report = "pass" <-> Forall (fun r => fr_Status r = "pass") (rp_Results report)).
Proof.
  unfold Report_Validate. destruct (_ || _) eqn:E; [done|]. apply orb_false_iff in E as [E%negb_false_iff _].
  apply bool_decide_eq_true in E. destruct (rp_Results report) as [|r rs] eqn:Er; [done|].
  destruct (validate_results _ _) as [expected|] eqn:HV; [|done]. cbn [mbind result_mbind].
  case_bool_decide as Hs; [|done]. intros _. apply validate_results_spec in HV as (H1 & H2 & H3).
  split; [done|]. split; [done|]. split; [done|]. rewrite Hs. split.
  - intros ->. apply Forall_forall. intros x Hx. rewrite Forall_forall in H1.
    destruct (H1 x Hx) as [?|Hf]; [done|]. enough ("pass" = "fail") by done. apply H2. right.
    apply Exists_exists. by exists x.
  - intros HF. destruct H3 as [?|Hf]; [by left|done|]. exfalso.
    apply H2 in Hf as [?|(x & Hx & Hf)%Exists_exists]; [done|]. rewrite Forall_forall in HF.
    specialize (HF x Hx). congruence.
Qed.

(** ** Witnesses *)

Definition all_durable : gset durableState :=
  list_to_set (l ← [true; false]; a ← [true; false]; d ← [true; false]; c ← [true; false]; [mkDurable l a d c]).

Lemma all_durable_full s : s ∈ all_durable.
Proof. destruct s as [[] [] [] []]; vm_compute; repeat constructor. Qed.

Lemma explore_decides_witness :
  exists r, explore 16 durable_ingest = Some r /\
    (fr_Status r = "pass" <-> forall s, reachable durable_ingest s -> holds_in durable_ingest s) /\
    (fr_Status r = "fail" <-> exists s, reachable durable_ingest s /\ ~ holds_in durable_ingest s).
Proof.
  apply (explore_decides durable_ingest all_durable 16).
  - split; [apply all_durable_full|]. intros s t _ _. apply all_durable_full.
  - vm_compute. repeat constructor.
Defined.

Definition sample_report : Report :=
  mkReport ReportFormat ReportVersion [mkFormalResult "m" 3 2 ["i"] "fail" "invariant i failed"] "fail".

Lemma validated_report_consistent_witness :
  rp_Status sample_report = "pass" <-> Forall (fun r => fr_Status r = "pass") (rp_Results sample_report).
Proof.
  apply (validated_report_consistent sample_report). vm_compute. reflexivity.
Defined.
