(* ===== verification/Ring.v ===== *)
(** * The lock-free ring ([internal/fastpath/ring.go])

    A bounded multi-producer, multi-consumer queue with a sequence number per slot.
    Every atomic access of [TryPush] and [TryPop] is one step of a thread; an
    execution interleaves the steps of any number of threads.  [TryPush] and [TryPop]
    run alone are given as functions as well.  Positions are 64-bit and wrap; the
    theorems are about executions with fewer than [2^63] pushes less the capacity. *)

From S2P Require Import Prelude.

Local Open Scope Z_scope.
Local Open Scope list_scope.

Section ring.
Context {T : Type} (zero : T).

Record ringSlot := mkSlot { sl_sequence : Z; sl_value : T }.

Record Ring := mkRing {
  rg_mask : Z;
  rg_slots : list ringSlot;
  rg_enqueue : Z;
  rg_dequeue : Z;
}.

(** The doubling loop of [NewRing]; an [int] cannot double more than 62 times. *)
Fixpoint round_up (fuel : nat) (rounded capacity : Z) : Z :=
  match fuel with
  | O => rounded
  | S fuel => if rounded <? capacity then round_up fuel (Z.shiftl rounded 1) capacity else rounded
  end.

Definition NewRing (capacity : Z) : Ring :=
  let capacity := if capacity <? 2 then 2 else capacity in
  let rounded := round_up 62 1 capacity in
  mkRing (rounded - 1) ((fun i => mkSlot (Z.of_nat i) zero) <$> seq 0 (Z.to_nat rounded)) 0 0.

Definition Capacity (r : Ring) : Z := zlen (rg_slots r).

Definition Len (r : Ring) : Z :=
  if rg_enqueue r <=? rg_dequeue r then 0
  else Z.min (rg_enqueue r - rg_dequeue r) (zlen (rg_slots r)).

(** ** Memory accesses *)

Definition slot_index (r : Ring) (position : Z) : nat := Z.to_nat (Z.land position (rg_mask r)).
Definition slot_at (r : Ring) (position : Z) : ringSlot :=
  default (mkSlot 0 zero) (rg_slots r !! slot_index r position).

Definition set_slot (r : Ring) (position : Z) (s : ringSlot) : Ring :=
  mkRing (rg_mask r) (<[slot_index r position := s]> (rg_slots r)) (rg_enqueue r) (rg_dequeue r).
Definition store_value (r : Ring) (position : Z) (v : T) : Ring :=
  set_slot r position (mkSlot (sl_sequence (slot_at r position)) v).
Definition store_sequence (r : Ring) (position sequence : Z) : Ring :=
  set_slot r position (mkSlot sequence (sl_value (slot_at r position))).
Definition set_enqueue (r : Ring) (v : Z) : Ring := mkRing (rg_mask r) (rg_slots r) v (rg_dequeue r).
Definition set_dequeue (r : Ring) (v : Z) : Ring := mkRing (rg_mask r) (rg_slots r) (rg_enqueue r) v.

(** [int64(a) - int64(b)], which wraps. *)
Definition difference (a b : Z) : Z := i64 (a - b).

Definition max_attempts : nat := 32.

(** ** One thread, one access at a time *)

(** The program counter of a thread with its live variables. *)
Inductive local : Type :=
  | Idle
  | PushLoad (v : T) (attempts : nat)
  | PushSlot (v : T) (attempts : nat) (position : Z)
  | PushCas (v : T) (attempts : nat) (position : Z)
  | PushWrite (v : T) (position : Z)
  | PushPublish (position : Z)
  | Pushed (ok : bool)
  | PopLoad (attempts : nat)
  | PopSlot (attempts : nat) (position : Z)
  | PopCas (attempts : nat) (position : Z)
  | PopRead (position : Z)
  | PopClear (position : Z) (v : T)
  | PopPublish (position : Z) (v : T)
  | Popped (v : option T).

Definition thread_step (r : Ring) (l : local) : Ring * local :=
  match l with
  | PushLoad v n =>
      if (n <? max_attempts)%nat then (r, PushSlot v n (rg_enqueue r)) else (r, Pushed false)
  | PushSlot v n position =>
      let d := difference (sl_sequence (slot_at r position)) position in
      if d =? 0 then (r, PushCas v n position)
      else if d <? 0 then (r, Pushed false)
      else (r, PushLoad v (S n))
  | PushCas v n position =>
      if rg_enqueue r =? position
      then (set_enqueue r (u64_succ position), PushWrite v position)
      else (r, PushLoad v (S n))
  | PushWrite v position => (store_value r position v, PushPublish position)
  | PushPublish position => (store_sequence r position (u64_succ position), Pushed true)
  | PopLoad n =>
      if (n <? max_attempts)%nat then (r, PopSlot n (rg_dequeue r)) else (r, Popped None)
  | PopSlot n position =>
      let d := difference (sl_sequence (slot_at r position)) (u64_succ position) in
      if d =? 0 then (r, PopCas n position)
      else if d <? 0 then (r, Popped None)
      else (r, PopLoad (S n))
  | PopCas n position =>
      if rg_dequeue r =? position
      then (set_dequeue r (u64_succ position), PopRead position)
      else (r, PopLoad (S n))
  | PopRead position => (r, PopClear position (sl_value (slot_at r position)))
  | PopClear position v => (store_value r position zero, PopPublish position v)
  | PopPublish position v =>
      (store_sequence r position (u64 (position + zlen (rg_slots r))), Popped (Some v))
  | Idle | Pushed _ | Popped _ => (r, l)
  end.

(** ** Run alone *)

Fixpoint push_loop (attempts : nat) (v : T) (r : Ring) : bool * Ring :=
  match attempts with
  | O => (false, r)
  | S attempts =>
      let position := rg_enqueue r in
      let d := difference (sl_sequence (slot_at r position)) position in
      if d =? 0 then
        let r := set_enqueue r (u64_succ position) in
        (true, store_sequence (store_value r position v) position (u64_succ position))
      else if d <? 0 then (false, r)
      else push_loop attempts v r
  end.
Definition TryPush (v : T) (r : Ring) : bool * Ring := push_loop max_attempts v r.

Fixpoint pop_loop (attempts : nat) (r : Ring) : option T * Ring :=
  match attempts with
  | O => (None, r)
  | S attempts =>
      let position := rg_dequeue r in
      let d := difference (sl_sequence (slot_at r position)) (u64_succ position) in
      if d =? 0 then
        let r := set_dequeue r (u64_succ position) in
        let value := sl_value (slot_at r position) in
        (Some value, store_sequence (store_value r position zero) position
                       (u64 (position + zlen (rg_slots r))))
      else if d <? 0 then (None, r)
      else pop_loop attempts r
  end.
Definition TryPop (r : Ring) : option T * Ring := pop_loop max_attempts r.

(** ** Executions *)

(** The ring, its threads, and two histories: the values in the order their pushes
    claimed a position, and the values returned by pops with the claimed position. *)
Record system := mkSystem {
  sy_ring : Ring;
  sy_threads : gmap nat local;
  sy_pushed : list T;
  sy_popped : list (Z * T);
}.

(** A thread that is not in the middle of a call. *)
Definition at_rest (l : local) : bool :=
  match l with Idle | Pushed _ | Popped _ => true | _ => false end.

(** The histories a thread's step extends. *)
Definition claims (r : Ring) (l : local) : list T :=
  match l with PushCas v _ position => if rg_enqueue r =? position then [v] else [] | _ => [] end.
Definition returns (l : local) : list (Z * T) :=
  match l with PopPublish position v => [(position, v)] | _ => [] end.

Inductive step : system -> system -> Prop :=
  | step_call s i l call :
      default Idle (sy_threads s !! i) = l -> at_rest l = true ->
      (exists v, call = PushLoad v 0) \/ call = PopLoad 0 ->
      step s (mkSystem (sy_ring s) (<[i := call]> (sy_threads s)) (sy_pushed s) (sy_popped s))
  | step_run s i l r' l' :
      sy_threads s !! i = Some l -> thread_step (sy_ring s) l = (r', l') ->
      step s (mkSystem r' (<[i := l']> (sy_threads s)) (sy_pushed s ++ claims (sy_ring s) l)
                (sy_popped s ++ returns l)).

Inductive run (capacity : Z) : system -> Prop :=
  | run_start : run capacity (mkSystem (NewRing capacity) ∅ [] [])
  | run_step s s' : run capacity s -> step s s' -> run capacity s'.

(** ** The invariant *)

Definition ring_size (r : Ring) : Z := zlen (rg_slots r).
Definition sequence_at (r : Ring) (p : Z) : Z := sl_sequence (slot_at r p).
Definition value_at (r : Ring) (p : Z) : T := sl_value (slot_at r p).

(** A power of two of slots, at least two. *)
Definition shaped (r : Ring) : Prop :=
  exists k, 1 <= k /\ ring_size r = 2 ^ k /\ rg_mask r = 2 ^ k - 1.

Definition nth_pushed (pushed : list T) (p : Z) : option T := pushed !! Z.to_nat p.

(** A slot is free for a later push, full, or being emptied. *)
Definition slot_ok (r : Ring) (pushed : list T) (q : Z) : Prop :=
  exists p, 0 <= p /\ p mod ring_size r = q mod ring_size r /\
    ((sequence_at r q = p /\ rg_dequeue r <= p < rg_dequeue r + ring_size r) \/
     (sequence_at r q = p + 1 /\ rg_dequeue r <= p < rg_enqueue r /\
      nth_pushed pushed p = Some (value_at r q)) \/
     (sequence_at r q = p + 1 /\ p < rg_dequeue r /\ rg_enqueue r <= p + ring_size r)).

(** The position whose slot a thread may write. *)
Definition owner (l : local) : option Z :=
  match l with
  | PushWrite _ p | PushPublish p | PopRead p | PopClear p _ | PopPublish p _ => Some p
  | _ => None
  end.

Definition local_ok (r : Ring) (pushed : list T) (l : local) : Prop :=
  let pushing p := rg_dequeue r <= p < rg_enqueue r /\ sequence_at r p = p in
  let popping p := 0 <= p < rg_dequeue r /\ rg_enqueue r <= p + ring_size r /\ sequence_at r p = p + 1 in
  match l with
  | PushSlot _ _ p => 0 <= p <= rg_enqueue r
  | PushCas _ _ p => 0 <= p <= rg_enqueue r /\ p <= sequence_at r p
  | PushWrite v p => pushing p /\ nth_pushed pushed p = Some v
  | PushPublish p => pushing p /\ nth_pushed pushed p = Some (value_at r p)
  | PopSlot _ p => 0 <= p <= rg_dequeue r
  | PopCas _ p => 0 <= p <= rg_dequeue r /\ p + 1 <= sequence_at r p
  | PopRead p => popping p /\ nth_pushed pushed p = Some (value_at r p)
  | PopClear p v | PopPublish p v => popping p /\ nth_pushed pushed p = Some v
  | _ => True
  end.

Record inv (s : system) : Prop := {
  iv_shape : shaped (sy_ring s);
  iv_counts : 0 <= rg_dequeue (sy_ring s) <= rg_enqueue (sy_ring s);
  iv_room : rg_enqueue (sy_ring s) <= rg_dequeue (sy_ring s) + ring_size (sy_ring s);
  iv_pushed : rg_enqueue (sy_ring s) = zlen (sy_pushed s);
  iv_slots : forall q, 0 <= q -> slot_ok (sy_ring s) (sy_pushed s) q;
  iv_threads : forall i l, sy_threads s !! i = Some l -> local_ok (sy_ring s) (sy_pushed s) l;
  iv_owners : forall i j li lj p q, i <> j -> sy_threads s !! i = Some li -> sy_threads s !! j = Some lj ->
    owner li = Some p -> owner lj = Some q -> p mod ring_size (sy_ring s) <> q mod ring_size (sy_ring s);
  iv_popped : forall p v, (p, v) ∈ sy_popped s ->
    0 <= p < rg_dequeue (sy_ring s) /\ nth_pushed (sy_pushed s) p = Some v;
  iv_once : NoDup (sy_popped s).*1;
  iv_inflight : forall i l p, sy_threads s !! i = Some l -> owner l = Some p ->
    p ∉ (sy_popped s).*1;
}.

(** ** Slots *)

Lemma class_unique n p q : 0 < n -> p mod n = q mod n -> p - q < n -> q - p < n -> p = q.
Proof.
  intros Hn Hm H1 H2. pose proof (Z.div_mod p n ltac:(lia)). pose proof (Z.div_mod q n ltac:(lia)).
  assert (p / n = q / n) by nia. congruence.
Qed.

Lemma shaped_size r : shaped r -> 2 <= ring_size r.
Proof. intros (k & Hk & -> & _). change 2 with (2 ^ 1) at 1. apply Z.pow_le_mono_r; lia. Qed.

Lemma slot_index_mod r p : shaped r -> slot_index r p = Z.to_nat (p mod ring_size r).
Proof.
  intros (k & Hk & Hs & Hm). unfold slot_index. rewrite Hm, Hs.
  replace (2 ^ k - 1) with (Z.ones k) by (by rewrite Z.ones_equiv, Z.sub_1_r). by rewrite Z.land_ones by lia.
Qed.

Lemma slot_index_lt r p : shaped r -> (slot_index r p < length (rg_slots r))%nat.
Proof.
  intros Hr. rewrite slot_index_mod by done. pose proof (shaped_size r Hr) as H2.
  pose proof (Z.mod_pos_bound p (ring_size r) ltac:(lia)). unfold ring_size, zlen in *. lia.
Qed.

Lemma slot_at_class r p q : shaped r -> p mod ring_size r = q mod ring_size r -> slot_at r p = slot_at r q.
Proof. intros Hr E. unfold slot_at. by rewrite !slot_index_mod, E. Qed.

Lemma set_slot_shape r p s : shaped (set_slot r p s) <-> shaped r.
Proof. unfold shaped, ring_size, set_slot, zlen. cbn. by rewrite length_insert. Qed.

Lemma set_slot_size r p s : ring_size (set_slot r p s) = ring_size r.
Proof. unfold ring_size, set_slot, zlen. cbn. by rewrite length_insert. Qed.

Lemma slot_at_set_same r p q s :
  shaped r -> p mod ring_size r = q mod ring_size r -> slot_at (set_slot r p s) q = s.
Proof.
  intros Hr E. rewrite <- (slot_at_class _ p q).
  - unfold slot_at, set_slot. cbn [rg_slots]. unfold slot_index at 1. cbn [rg_mask].
    fold (slot_index r p). by rewrite list_lookup_insert_eq by (by apply slot_index_lt).
  - by apply set_slot_shape.
  - by rewrite set_slot_size.
Qed.

Lemma slot_at_set_other r p q s :
  shaped r -> p mod ring_size r <> q mod ring_size r -> slot_at (set_slot r p s) q = slot_at r q.
Proof.
  intros Hr E. unfold slot_at, set_slot. cbn [rg_slots]. unfold slot_index at 1. cbn [rg_mask].
  fold (slot_index r q). rewrite list_lookup_insert_ne; [done|].
  rewrite !slot_index_mod by done. pose proof (shaped_size r Hr).
  pose proof (Z.mod_pos_bound p (ring_size r) ltac:(lia)). pose proof (Z.mod_pos_bound q (ring_size r) ltac:(lia)).
  intros Hi. apply E. lia.
Qed.

(** A slot whose sequence grows disturbs only the thread that owns it. *)
Lemma local_ok_store r pushed p s l :
  shaped r -> sequence_at r p <= sl_sequence s -> local_ok r pushed l ->
  (forall q, owner l = Some q -> p mod ring_size r <> q mod ring_size r) ->
  local_ok (set_slot r p s) pushed l.
Proof.
  intros Hr Hmono Hl Ho. assert (forall q, sequence_at r q <= sequence_at (set_slot r p s) q) as Hseq.
  { intros q. unfold sequence_at in *. destruct (decide (p mod ring_size r = q mod ring_size r)) as [E|E].
    - by rewrite slot_at_set_same, <- (slot_at_class r p q).
    - by rewrite slot_at_set_other. }
  assert (forall q, owner l = Some q -> slot_at (set_slot r p s) q = slot_at r q) as Hown.
  { intros q Hq. apply slot_at_set_other; [done|]. by apply Ho. }
  destruct l; cbn [local_ok owner] in *; try done; rewrite ?set_slot_size;
    unfold sequence_at, value_at in *; try (by rewrite !Hown).
  - destruct Hl. specialize (Hseq position). split; [done|]. lia.
  - destruct Hl. specialize (Hseq position). split; [done|]. lia.
Qed.

(** ** Preservation *)

Lemma class_far n p q : 0 < n -> p mod n = q mod n -> p = q \/ p - q >= n \/ q - p >= n.
Proof.
  intros Hn Hm. destruct (decide (p = q)) as [?|Hne]; [by left|]. right.
  destruct (decide (p - q < n)); [|lia]. destruct (decide (q - p < n)); [|lia].
  destruct Hne. by apply (class_unique n).
Qed.

Lemma class_shift p n : (p + n) mod n = p mod n.
Proof. rewrite <- (Z_mod_plus_full p 1 n). f_equal. lia. Qed.

Lemma insert_cases (ts : gmap nat local) i l j lj :
  <[i := l]> ts !! j = Some lj -> (j = i /\ lj = l) \/ (j <> i /\ ts !! j = Some lj).
Proof.
  destruct (decide (i = j)) as [->|Hne]; [rewrite lookup_insert_eq; intros [= <-]; by left|].
  rewrite lookup_insert_ne by done. right. by split.
Qed.

(** A thread moves on without touching the ring. *)
Lemma inv_local s i l' :
  inv s -> local_ok (sy_ring s) (sy_pushed s) l' ->
  owner l' = None \/ (exists l, sy_threads s !! i = Some l /\ owner l' = owner l) ->
  inv (mkSystem (sy_ring s) (<[i := l']> (sy_threads s)) (sy_pushed s) (sy_popped s)).
Proof.
  intros I Hl Ho. assert (forall j lj p, <[i := l']> (sy_threads s) !! j = Some lj -> owner lj = Some p ->
    exists l0, sy_threads s !! j = Some l0 /\ owner l0 = Some p) as Hown.
  { intros j lj p [[-> ->]|[_ Hj]]%insert_cases Hp; [|by exists lj].
    destruct Ho as [Ho|(l & Hi & Ho)]; [congruence|]. exists l. split; congruence. }
  destruct I as [I1 I2 I3 I4 I5 I6 I7 I8 I9 I10]. split; cbn [sy_ring sy_threads sy_pushed sy_popped]; try done.
  - intros j lj [[-> ->]|[_ Hj]]%insert_cases; [done|by eapply I6].
  - intros a b la lb p q Hab Ha Hb Hp Hq. destruct (Hown _ _ _ Ha Hp) as (la' & ? & ?).
    destruct (Hown _ _ _ Hb Hq) as (lb' & ? & ?). by eapply (I7 a b).
  - intros j lj p Hj Hp. destruct (Hown _ _ _ Hj Hp) as (l0 & ? & ?). by eapply I10.
Qed.

(** The owner of a slot writes it, and possibly returns from its call. *)
Lemma inv_store s i l l' p slot returned :
  inv s -> sy_threads s !! i = Some l -> owner l = Some p -> 0 <= p ->
  sequence_at (sy_ring s) p <= sl_sequence slot ->
  slot_ok (set_slot (sy_ring s) p slot) (sy_pushed s) p ->
  local_ok (set_slot (sy_ring s) p slot) (sy_pushed s) l' ->
  returned = [] /\ (owner l' = None \/ owner l' = Some p) \/
  (exists v, returned = [(p, v)] /\ owner l' = None /\ p < rg_dequeue (sy_ring s) /\
     nth_pushed (sy_pushed s) p = Some v) ->
  inv (mkSystem (set_slot (sy_ring s) p slot) (<[i := l']> (sy_threads s)) (sy_pushed s)
         (sy_popped s ++ returned)).
Proof.
  intros I Hi Hp Hp0 Hmono Hslot Hl' Hret. pose proof (iv_inflight _ I _ _ _ Hi Hp) as Hnew.
  destruct I as [I1 I2 I3 I4 I5 I6 I7 I8 I9 I10].
  assert (owner l' = None \/ owner l' = Some p) as Ho by (destruct Hret as [[_ ?]|(v & _ & ? & _)]; tauto).
  split; cbn [sy_ring sy_threads sy_pushed sy_popped]; try done.
  - by apply set_slot_shape.
  - by rewrite set_slot_size.
  - intros q Hq. destruct (decide (p mod ring_size (sy_ring s) = q mod ring_size (sy_ring s))) as [E|E].
    + destruct Hslot as (p' & ? & Hc & Hs). exists p'. rewrite set_slot_size in *. unfold sequence_at, value_at in *.
      rewrite (slot_at_class _ q p) by (by apply set_slot_shape || by rewrite set_slot_size). rewrite <- E. by split.
    + destruct (I5 q Hq) as (p' & ? & Hc & Hs). exists p'. unfold sequence_at, value_at in *.
      rewrite slot_at_set_other, set_slot_size by done. by split.
  - intros j lj [[-> ->]|[Hne Hj]]%insert_cases; [done|]. apply local_ok_store; [done|done|by eapply I6|].
    intros q Hq. by eapply (I7 i j).
  - rewrite set_slot_size. intros a b la lb x y Hab [[-> ->]|[Ha' Ha]]%insert_cases [[-> ->]|[Hb' Hb]]%insert_cases Hx Hy; try done.
    + destruct Ho as [Ho|Ho]; [congruence|]. eapply (I7 i b); try done; congruence.
    + destruct Ho as [Ho|Ho]; [congruence|]. eapply (I7 a i); try done; congruence.
    + by eapply (I7 a b).
  - intros x v [Hx|Hx]%elem_of_app; [by apply I8|]. destruct Hret as [[-> _]|(w & -> & _ & Hlt & Hv)];
      [by apply not_elem_of_nil in Hx|]. apply list_elem_of_singleton in Hx as [= -> ->]. by split.
  - rewrite fmap_app. apply NoDup_app. split; [done|]. destruct Hret as [[-> _]|(w & -> & _)].
    + split; [intros x _ ?%not_elem_of_nil; done|constructor].
    + split; [|apply NoDup_singleton]. intros x Hx ->%list_elem_of_singleton. done.
  - intros j lj x Hj Hx. rewrite fmap_app, not_elem_of_app. apply insert_cases in Hj as [[-> ->]|[Hne Hj]].
    + destruct Ho as [Ho|Ho]; [congruence|]. assert (x = p) as -> by congruence. split; [done|].
      destruct Hret as [[-> _]|(w & _ & Hn & _)]; [apply not_elem_of_nil|congruence].
    + split; [by eapply I10|]. destruct Hret as [[-> _]|(w & -> & _)]; [apply not_elem_of_nil|].
      cbn. intros ->%list_elem_of_singleton. by apply (I7 i j l lj p p).
Qed.

Lemma nth_pushed_app (pushed : list T) v p x : nth_pushed pushed p = Some x -> nth_pushed (pushed ++ [v]) p = Some x.
Proof. apply lookup_app_l_Some. Qed.

(** A push claims the next position. *)
Lemma inv_push_claim s i v n p :
  inv s -> sy_threads s !! i = Some (PushCas v n p) -> rg_enqueue (sy_ring s) = p ->
  inv (mkSystem (set_enqueue (sy_ring s) (p + 1)) (<[i := PushWrite v p]> (sy_threads s))
         (sy_pushed s ++ [v]) (sy_popped s)).
Proof.
  intros I Hi He. pose proof (iv_threads _ I _ _ Hi) as [Hpos Hseq].
  destruct I as [I1 I2 I3 I4 I5 I6 I7 I8 I9 I10]. pose proof (shaped_size _ I1) as H2.
  set (r := sy_ring s) in *. assert (sequence_at r p = p /\ p < rg_dequeue r + ring_size r) as [Hs Hroom].
  { destruct (I5 p ltac:(lia)) as (p' & Hp' & Hc & Hcase).
    assert (p' = p \/ p' - p >= ring_size r \/ p - p' >= ring_size r) as Hd by (apply class_far; lia || done).
    destruct Hcase as [[? ?]|[[? [? ?]]|[? [? ?]]]]; lia. }
  assert (forall j lj q, j <> i -> sy_threads s !! j = Some lj -> owner lj = Some q ->
    p mod ring_size r <> q mod ring_size r) as Hapart.
  { intros j lj q _ Hj Hq Hc. pose proof (I6 _ _ Hj) as Hl. unfold sequence_at in *.
    destruct lj; cbn in Hq; try done; injection Hq as ->; cbn in Hl; unfold sequence_at in Hl;
      rewrite <- (slot_at_class r p q I1 Hc) in Hl; try lia;
      assert (p = q) by (apply (class_unique (ring_size r)); lia || done); lia. }
  split; cbn [sy_ring sy_threads sy_pushed sy_popped set_enqueue rg_dequeue rg_enqueue]; try done.
  - lia.
  - change (ring_size (set_enqueue r (p + 1))) with (ring_size r). lia.
  - rewrite zlen_app. change (zlen [v]) with 1. lia.
  - intros q Hq. destruct (I5 q Hq) as (p' & Hp' & Hc & Hcase). exists p'. split; [done|]. split; [exact Hc|].
    destruct Hcase as [?|[(? & ? & ?)|(Hq' & ? & ?)]]; [by left| |].
    + right; left. split; [done|]. split; [cbn; lia|]. by apply nth_pushed_app.
    + right; right. split; [done|]. split; [done|]. cbn. change (ring_size (set_enqueue r (p + 1))) with (ring_size r).
      destruct (decide (p = p' + ring_size r)) as [E|E]; [|lia]. exfalso.
      assert (p mod ring_size r = q mod ring_size r) as Hc' by (by rewrite <- Hc, E, class_shift).
      unfold sequence_at in *. rewrite <- (slot_at_class r p q I1 Hc') in Hq'. lia.
  - intros j lj [[-> ->]|[Hne Hj]]%insert_cases.
    + cbn. split; [split; [lia|exact Hs]|]. unfold nth_pushed. rewrite lookup_app_r by (unfold zlen in I4; lia).
      replace (Z.to_nat p - length (sy_pushed s))%nat with O by (unfold zlen in I4; lia). done.
    + pose proof (I6 _ _ Hj) as Hl. pose proof (fun q => Hapart _ _ q Hne Hj) as Ha.
      assert (forall q, owner lj = Some q -> p <> q + ring_size r) as Hshift.
      { intros q Hq E. apply (Ha q Hq). rewrite E. apply class_shift. }
      destruct lj; cbn in Hl |- *; try done; try lia;
        change (ring_size (set_enqueue r (p + 1))) with (ring_size r);
        change (sequence_at (set_enqueue r (p + 1))) with (sequence_at r);
        change (value_at (set_enqueue r (p + 1))) with (value_at r);
        try specialize (Hshift _ eq_refl); destruct Hl as [Hl Hv];
        (split; [lia|done || by apply nth_pushed_app]).
  - intros a b la lb x y Hab [[-> ->]|[Ha' Ha]]%insert_cases [[-> ->]|[Hb' Hb]]%insert_cases Hx Hy; try done.
    + injection Hx as <-. by eapply Hapart.
    + injection Hy as <-. intros E. symmetry in E. revert E. by eapply Hapart.
    + by eapply (I7 a b).
  - intros x w Hx. destruct (I8 x w Hx) as [? ?]. split; [done|]. by apply nth_pushed_app.
  - intros j lj x [[-> ->]|[Hne Hj]]%insert_cases Hx; [|by eapply I10].
    injection Hx as <-. intros ([x w] & -> & Hin)%list_elem_of_fmap. apply I8 in Hin as [Hin _]. cbn in *. lia.
Qed.

(** A pop claims the next position. *)
Lemma inv_pop_claim s i n p :
  inv s -> sy_threads s !! i = Some (PopCas n p) -> rg_dequeue (sy_ring s) = p ->
  inv (mkSystem (set_dequeue (sy_ring s) (p + 1)) (<[i := PopRead p]> (sy_threads s))
         (sy_pushed s) (sy_popped s)).
Proof.
  intros I Hi He. pose proof (iv_threads _ I _ _ Hi) as [Hpos Hseq].
  destruct I as [I1 I2 I3 I4 I5 I6 I7 I8 I9 I10]. pose proof (shaped_size _ I1) as H2.
  set (r := sy_ring s) in *.
  assert (sequence_at r p = p + 1 /\ p < rg_enqueue r /\ nth_pushed (sy_pushed s) p = Some (value_at r p))
    as (Hs & Hlt & Hval).
  { destruct (I5 p ltac:(lia)) as (p' & Hp' & Hc & Hcase).
    assert (p' = p \/ p' - p >= ring_size r \/ p - p' >= ring_size r) as Hd by (apply class_far; lia || done).
    destruct Hcase as [[? ?]|[(? & ? & ?)|[? [? ?]]]]; [lia| |lia].
    assert (p' = p) as -> by lia. split; [done|]. split; [lia|done]. }
  assert (forall j lj q, j <> i -> sy_threads s !! j = Some lj -> owner lj = Some q ->
    p mod ring_size r <> q mod ring_size r) as Hapart.
  { intros j lj q _ Hj Hq Hc. pose proof (I6 _ _ Hj) as Hl. unfold sequence_at in *.
    assert (q = p \/ q - p >= ring_size r \/ p - q >= ring_size r) as Hd by (apply class_far; lia || done).
    destruct lj; cbn in Hq; try done; injection Hq as ->; cbn in Hl; unfold sequence_at in Hl;
      rewrite <- (slot_at_class r p q I1 Hc) in Hl; lia. }
  split; cbn [sy_ring sy_threads sy_pushed sy_popped set_dequeue rg_dequeue rg_enqueue]; try done.
  - lia.
  - change (ring_size (set_dequeue r (p + 1))) with (ring_size r). lia.
  - intros q Hq. destruct (I5 q Hq) as (p' & Hp' & Hc & Hcase). exists p'. split; [done|]. split; [exact Hc|].
    cbn. change (ring_size (set_dequeue r (p + 1))) with (ring_size r).
    change (sequence_at (set_dequeue r (p + 1))) with (sequence_at r).
    change (value_at (set_dequeue r (p + 1))) with (value_at r).
    destruct (decide (p' = p)) as [->|Hne].
    + unfold sequence_at in *. rewrite <- (slot_at_class r p q I1 Hc). right; right. lia.
    + destruct Hcase as [?|[(? & ? & ?)|(? & ? & ?)]]; [left; lia|right; left; split; [done|split; [lia|done]]|right; right; lia].
  - intros j lj [[-> ->]|[Hne Hj]]%insert_cases.
    + cbn. change (ring_size (set_dequeue r (p + 1))) with (ring_size r).
      change (sequence_at (set_dequeue r (p + 1))) with (sequence_at r). split; [lia|exact Hval].
    + pose proof (I6 _ _ Hj) as Hl. pose proof (fun q => Hapart _ _ q Hne Hj) as Ha.
      assert (forall q, owner lj = Some q -> q <> p) as Hshift by (intros q Hq ->; by apply (Ha p Hq)).
      destruct lj; cbn in Hl |- *; try done; try lia;
        change (ring_size (set_dequeue r (p + 1))) with (ring_size r);
        change (sequence_at (set_dequeue r (p + 1))) with (sequence_at r);
        change (value_at (set_dequeue r (p + 1))) with (value_at r);
        try specialize (Hshift _ eq_refl); destruct Hl as [Hl Hv]; (split; [lia|done]).
  - intros a b la lb x y Hab [[-> ->]|[Ha' Ha]]%insert_cases [[-> ->]|[Hb' Hb]]%insert_cases Hx Hy; try done.
    + injection Hx as <-. by eapply Hapart.
    + injection Hy as <-. intros E. symmetry in E. revert E. by eapply Hapart.
    + by eapply (I7 a b).
  - intros x w Hx. destruct (I8 x w Hx) as [? ?]. split; [lia|done].
  - intros j lj x [[-> ->]|[Hne Hj]]%insert_cases Hx; [|by eapply I10].
    injection Hx as <-. intros ([x w] & -> & Hin)%list_elem_of_fmap. apply I8 in Hin as [Hin _]. cbn in *. lia.
Qed.

(** ** Machine arithmetic within the bound *)

Definition small (r : Ring) : Prop := rg_enqueue r + ring_size r < 2 ^ 63.

Lemma difference_small a b : 0 <= a < 2 ^ 63 -> 0 <= b <= 2 ^ 63 - 1 -> difference a b = a - b.
Proof.
  intros Ha Hb. unfold difference, i64, modulus64. destruct (Z.ltb_spec ((a - b) mod 2 ^ 64) (2 ^ 63)) as [H|H].
  - destruct (decide (0 <= a - b)); [apply Z.mod_small; lia|].
    rewrite <- (Z_mod_plus_full _ 1), Z.mod_small in H by lia. lia.
  - destruct (decide (0 <= a - b)); [rewrite Z.mod_small in H; lia|].
    rewrite <- (Z_mod_plus_full _ 1), Z.mod_small by lia. lia.
Qed.

Lemma succ_small p : 0 <= p < 2 ^ 63 -> u64_succ p = p + 1.
Proof. intros H. apply u64_succ_small; unfold modulus64; lia. Qed.

Lemma sequence_range s q :
  inv s -> small (sy_ring s) -> 0 <= q -> 0 <= sequence_at (sy_ring s) q < 2 ^ 63.
Proof.
  intros I Hb Hq. unfold small in Hb. pose proof (iv_counts _ I). pose proof (shaped_size _ (iv_shape _ I)).
  destruct (iv_slots _ I q Hq) as (p & ? & _ & [[-> ?]|[(-> & ? & _)|(-> & ? & ?)]]); lia.
Qed.

(** ** Steps *)

Lemma inv_push_step s i l r' l' :
  inv s -> small (sy_ring s) -> sy_threads s !! i = Some l ->
  match l with
  | PushLoad _ _ | PushSlot _ _ _ | PushCas _ _ _ | PushWrite _ _ | PushPublish _ => True
  | _ => False
  end ->
  thread_step (sy_ring s) l = (r', l') ->
  inv (mkSystem r' (<[i := l']> (sy_threads s)) (sy_pushed s ++ claims (sy_ring s) l) (sy_popped s ++ returns l)).
Proof.
  intros I Hb Hi Hl HT. pose proof (iv_threads _ I _ _ Hi) as Hok. pose proof (iv_counts _ I) as Hc.
  pose proof (shaped_size _ (iv_shape _ I)) as H2. pose proof Hb as Hsm. unfold small in Hb.
  destruct l as [|v n|v n p|v n p|v p|p| | | | | | | |]; try done; cbn [thread_step claims returns] in *;
    rewrite ?app_nil_r.
  - destruct (n <? max_attempts)%nat; injection HT as <- <-; (apply inv_local; [done| |by left]); cbn; [lia|done].
  - destruct (_ =? 0) eqn:E0; [|destruct (_ <? 0)]; injection HT as <- <-; (apply inv_local; [done| |by left]); try done.
    cbn in Hok |- *. pose proof (sequence_range _ p I Hsm ltac:(lia)) as Hr. unfold sequence_at in *.
    rewrite difference_small in E0 by lia. apply Z.eqb_eq in E0. lia.
  - destruct (Z.eqb_spec (rg_enqueue (sy_ring s)) p) as [E|E]; injection HT as <- <-; rewrite ?app_nil_r.
    + rewrite succ_small by lia. by apply (inv_push_claim _ _ v n).
    + apply inv_local; [done|done|by left].
  - injection HT as <- <-. cbn in Hok. destruct Hok as [[Hp Hs] Hv]. unfold store_value.
    rewrite <- (app_nil_r (sy_popped s)).
    assert (slot_at (set_slot (sy_ring s) p (mkSlot (sl_sequence (slot_at (sy_ring s) p)) v)) p
      = mkSlot (sl_sequence (slot_at (sy_ring s) p)) v) as Hat by (by apply slot_at_set_same; [apply I|]).
    eapply inv_store; try done; [lia| | |by left; split; [|right]].
    + exists p. unfold sequence_at in *. rewrite Hat, set_slot_size. cbn. split; [lia|]. split; [done|]. left.
      pose proof (iv_room _ I). lia.
    + cbn. unfold sequence_at, value_at in *. rewrite Hat. cbn. done.
  - injection HT as <- <-. cbn in Hok. destruct Hok as [[Hp Hs] Hv]. unfold store_sequence.
    rewrite succ_small by lia. rewrite <- (app_nil_r (sy_popped s)).
    eapply inv_store; try done; [lia|cbn; rewrite Hs; lia| |by left; split; [|left]].
    exists p. unfold sequence_at, value_at in *. rewrite slot_at_set_same by (done || apply I). cbn.
    split; [lia|]. rewrite set_slot_size. split; [done|]. right; left. done.
Qed.

Lemma inv_pop_step s i l r' l' :
  inv s -> small (sy_ring s) -> sy_threads s !! i = Some l ->
  match l with
  | PopLoad _ | PopSlot _ _ | PopCas _ _ | PopRead _ | PopClear _ _ | PopPublish _ _ => True
  | _ => False
  end ->
  thread_step (sy_ring s) l = (r', l') ->
  inv (mkSystem r' (<[i := l']> (sy_threads s)) (sy_pushed s ++ claims (sy_ring s) l) (sy_popped s ++ returns l)).
Proof.
  intros I Hb Hi Hl HT. pose proof (iv_threads _ I _ _ Hi) as Hok. pose proof (iv_counts _ I) as Hc.
  pose proof (shaped_size _ (iv_shape _ I)) as H2. pose proof Hb as Hsm. unfold small in Hb.
  destruct l as [| | | | | | |n|n p|n p|p|p v|p v|]; try done; cbn [thread_step claims returns] in *;
    rewrite ?app_nil_r.
  - destruct (n <? max_attempts)%nat; injection HT as <- <-; (apply inv_local; [done| |by left]); cbn; [lia|done].
  - destruct (_ =? 0) eqn:E0; [|destruct (_ <? 0)]; injection HT as <- <-; (apply inv_local; [done| |by left]); try done.
    cbn in Hok |- *. pose proof (sequence_range _ p I Hsm ltac:(lia)) as Hr. unfold sequence_at in *.
    rewrite succ_small in E0 by lia. rewrite difference_small in E0 by lia. apply Z.eqb_eq in E0. lia.
  - destruct (Z.eqb_spec (rg_dequeue (sy_ring s)) p) as [E|E]; injection HT as <- <-.
    + rewrite succ_small by lia. by apply (inv_pop_claim _ _ n).
    + apply inv_local; [done|done|by left].
  - injection HT as <- <-. apply inv_local; [done|exact Hok|right; by eexists].
  - injection HT as <- <-. cbn in Hok. destruct Hok as [(Hp & Hw & Hs) Hv]. unfold store_value.
    rewrite <- (app_nil_r (sy_popped s)).
    assert (slot_at (set_slot (sy_ring s) p (mkSlot (sl_sequence (slot_at (sy_ring s) p)) zero)) p
      = mkSlot (sl_sequence (slot_at (sy_ring s) p)) zero) as Hat by (by apply slot_at_set_same; [apply I|]).
    eapply inv_store; try done; [lia| | |by left; split; [|right]].
    + exists p. unfold sequence_at in *. rewrite Hat, set_slot_size. cbn. split; [lia|]. split; [done|].
      right; right. lia.
    + cbn. unfold sequence_at in *. rewrite Hat, set_slot_size. cbn. done.
  - injection HT as <- <-. cbn in Hok. destruct Hok as [(Hp & Hw & Hs) Hv]. unfold store_sequence.
    fold (ring_size (sy_ring s)). rewrite u64_small by (unfold is_u64, modulus64; lia).
    eapply inv_store; try done; [lia|cbn; rewrite Hs; lia| |].
    + exists (p + ring_size (sy_ring s)). unfold sequence_at in *. rewrite slot_at_set_same by (done || apply I). cbn.
      split; [lia|]. rewrite set_slot_size, class_shift. split; [done|]. left. cbn. lia.
    + right. exists v. split; [done|]. split; [done|]. split; [lia|done].
Qed.

Lemma inv_step s s' : inv s -> small (sy_ring s) -> step s s' -> inv s'.
Proof.
  intros I Hb HS. revert I Hb. destruct HS as [s i l call _ _ Hcall|s i l r' l' Hi HT]; intros I Hb.
  - apply inv_local; [done| |]; destruct Hcall as [(v & ->)| ->]; try done; by left.
  - destruct l; try (by eapply inv_push_step); try (by eapply inv_pop_step);
      injection HT as <- <-; cbn; rewrite !app_nil_r; apply inv_local; try done; by left.
Qed.

(** ** The start *)

Lemma round_up_power fuel k capacity :
  0 <= k -> capacity <= 2 ^ (k + Z.of_nat fuel) ->
  exists k', k <= k' <= k + Z.of_nat fuel /\ round_up fuel (2 ^ k) capacity = 2 ^ k' /\ capacity <= 2 ^ k' /\
    (k' = k \/ 2 ^ k' < 2 * capacity).
Proof.
  revert k. induction fuel as [|fuel IH]; intros k Hk Hc; cbn [round_up].
  - exists k. rewrite Z.add_0_r in Hc. split; [lia|]. split; [done|]. split; [done|]. by left.
  - destruct (Z.ltb_spec (2 ^ k) capacity) as [H|H].
    + rewrite Z.shiftl_mul_pow2 by lia. replace (2 ^ k * 2 ^ 1) with (2 ^ (k + 1)) by (by rewrite Z.pow_add_r by lia).
      destruct (IH (k + 1)) as (k' & H1 & H2 & H3 & H4); [lia| |].
      { by replace (k + 1 + Z.of_nat fuel) with (k + Z.of_nat (S fuel)) by lia. }
      exists k'. split; [lia|]. split; [done|]. split; [done|]. right.
      destruct H4 as [->|?]; [|done]. rewrite Z.pow_add_r by lia. lia.
    + exists k. split; [lia|]. split; [done|]. split; [done|]. by left.
Qed.

Lemma NewRing_size capacity :
  capacity <= 2 ^ 62 ->
  exists k, 1 <= k <= 62 /\ ring_size (NewRing capacity) = 2 ^ k /\ rg_mask (NewRing capacity) = 2 ^ k - 1 /\
    capacity <= 2 ^ k /\ 2 ^ k < 2 * Z.max 2 capacity.
Proof.
  intros Hc. unfold NewRing. set (cap := if capacity <? 2 then 2 else capacity).
  assert (2 <= cap <= 2 ^ 62 /\ cap = Z.max 2 capacity) as [Hcap Hmax].
  { unfold cap. destruct (Z.ltb_spec capacity 2); lia. }
  destruct (round_up_power 62 0 cap ltac:(lia) ltac:(cbn; lia)) as (k & Hk & Hr & Hle & Hlt).
  change (2 ^ 0) with 1 in *. cbv zeta. cbn [rg_slots rg_mask ring_size]. unfold ring_size. cbn [rg_slots].
  assert (k <> 0) as Hk0 by (intros ->; change (2 ^ 0) with 1 in Hle; lia).
  exists k. rewrite Hr. split; [lia|]. unfold zlen. rewrite length_fmap, length_seq.
  split; [rewrite Z2Nat.id; lia|]. split; [done|]. lia.
Qed.

Lemma NewRing_shaped capacity : capacity <= 2 ^ 62 -> shaped (NewRing capacity).
Proof. intros (k & Hk & H1 & H2 & _)%NewRing_size. exists k. split; [lia|]. done. Qed.

Lemma NewRing_sequence capacity q :
  capacity <= 2 ^ 62 -> sequence_at (NewRing capacity) q = q mod ring_size (NewRing capacity).
Proof.
  intros Hc. pose proof (NewRing_shaped _ Hc) as Hs. unfold sequence_at, slot_at.
  pose proof (slot_index_lt _ q Hs) as Hlt. pose proof (slot_index_mod _ q Hs) as Hi.
  pose proof (shaped_size _ Hs) as H2. pose proof (Z.mod_pos_bound q (ring_size (NewRing capacity)) ltac:(lia)).
  revert Hlt Hi. generalize (slot_index (NewRing capacity) q). intros i Hlt Hi.
  unfold NewRing in Hlt |- * at 1. cbv zeta in *. cbn [rg_slots] in *. rewrite length_fmap, length_seq in Hlt.
  rewrite list_lookup_fmap, lookup_seq_lt by done. cbn. lia.
Qed.

Lemma inv_start capacity : capacity <= 2 ^ 62 -> inv (mkSystem (NewRing capacity) ∅ [] []).
Proof.
  intros Hc. pose proof (NewRing_shaped _ Hc) as Hs. pose proof (shaped_size _ Hs) as H2.
  split; cbn [sy_ring sy_threads sy_pushed sy_popped]; try done.
  - cbn. lia.
  - intros q Hq. exists (q mod ring_size (NewRing capacity)).
    pose proof (Z.mod_pos_bound q (ring_size (NewRing capacity)) ltac:(lia)).
    split; [lia|]. split; [apply Z.mod_mod; lia|]. left. rewrite NewRing_sequence by done.
    change (rg_dequeue (NewRing capacity)) with 0. lia.
  - intros p v Hin. by apply not_elem_of_nil in Hin.
  - constructor.
Qed.

Lemma thread_step_size r l r' l' : thread_step r l = (r', l') -> ring_size r' = ring_size r.
Proof.
  intros HT. assert (forall b (x y : Ring * local), (ring_size x.1 = ring_size r) -> (ring_size y.1 = ring_size r) ->
    ring_size (if b : bool then x else y).1 = ring_size r) as Hif by (by intros []).
  change r' with (r', l').1. rewrite <- HT.
  destruct l; cbn [thread_step]; repeat apply Hif; try done; unfold store_value, store_sequence; cbn [fst];
    by rewrite ?set_slot_size.
Qed.

Lemma run_inv capacity s :
  capacity <= 2 ^ 62 -> run capacity s -> zlen (sy_pushed s) + ring_size (sy_ring s) < 2 ^ 63 ->
  inv s /\ ring_size (sy_ring s) = ring_size (NewRing capacity).
Proof.
  intros Hc. induction 1 as [|s s' HR IH HS]; intros Hb; [split; [by apply inv_start|done]|].
  assert (ring_size (sy_ring s') = ring_size (sy_ring s) /\ zlen (sy_pushed s) <= zlen (sy_pushed s')) as [Hsz Hle].
  { destruct HS as [s i l call _ _ _|s i l r' l' _ HT]; cbn [sy_ring sy_pushed]; [done|].
    split; [by eapply thread_step_size|]. rewrite zlen_app. pose proof (zlen_nonneg (claims (sy_ring s) l)). lia. }
  destruct IH as [I Hn]; [lia|]. split; [|congruence]. eapply inv_step; [exact I| |exact HS].
  unfold small. rewrite (iv_pushed _ I). lia.
Qed.

(** ** Run alone, the ring is a bounded queue *)

Record contains (r : Ring) (q : list T) : Prop := {
  ct_shape : shaped r;
  ct_start : 0 <= rg_dequeue r;
  ct_length : rg_enqueue r = rg_dequeue r + zlen q;
  ct_room : zlen q <= ring_size r;
  ct_full : forall i v, q !! i = Some v ->
    sequence_at r (rg_dequeue r + Z.of_nat i) = rg_dequeue r + Z.of_nat i + 1 /\
    value_at r (rg_dequeue r + Z.of_nat i) = v;
  ct_free : forall p, rg_enqueue r <= p < rg_dequeue r + ring_size r -> sequence_at r p = p;
}.

(** Writing one slot leaves the others of the window alone. *)
Lemma window_other r p q s :
  shaped r -> p <> q -> p - q < ring_size r -> q - p < ring_size r ->
  slot_at (set_slot r p s) q = slot_at r q.
Proof.
  intros Hs Hne H1 H2. apply slot_at_set_other; [done|]. intros Hc. apply Hne.
  pose proof (shaped_size r Hs). apply (class_unique (ring_size r)); lia || done.
Qed.

Lemma store_both r p v sequence :
  shaped r -> store_sequence (store_value r p v) p sequence = set_slot r p (mkSlot sequence v).
Proof.
  intros Hs. unfold store_sequence, store_value. rewrite slot_at_set_same by done. cbn [sl_value].
  unfold set_slot. cbn. unfold slot_index. cbn. by rewrite list_insert_insert_eq.
Qed.

Lemma contains_push r q v :
  contains r q -> small r -> zlen q < ring_size r ->
  exists r', TryPush v r = (true, r') /\ contains r' (q ++ [v]) /\ ring_size r' = ring_size r /\
    rg_enqueue r' = rg_enqueue r + 1.
Proof.
  intros C Hb Hq. pose proof (shaped_size _ (ct_shape _ _ C)) as H2. unfold small in Hb. destruct C as [C1 C2 C3 C4 C5 C6].
  unfold TryPush, max_attempts. cbn [push_loop]. fold (sequence_at r (rg_enqueue r)). rewrite C6 by lia.
  pose proof (zlen_nonneg q).
  rewrite difference_small, Z.sub_diag by lia. cbn [Z.eqb]. rewrite succ_small by lia.
  set (e := rg_enqueue r) in *. set (r1 := set_enqueue r (e + 1)).
  assert (shaped r1) as Hs1 by exact C1. rewrite (store_both r1 e v (e + 1) Hs1).
  set (r2 := set_slot r1 e _). exists r2. split; [done|].
  assert (ring_size r2 = ring_size r) as Hsz by (unfold r2; rewrite set_slot_size; done).
  assert (forall p, p <> e -> p - e < ring_size r -> e - p < ring_size r -> slot_at r2 p = slot_at r p) as Hother.
  { intros p Hne Ha Hb'. unfold r2. rewrite window_other; try done; change (ring_size r1) with (ring_size r); lia. }
  split; [|split; [done|done]]. split; rewrite ?Hsz; change (rg_dequeue r2) with (rg_dequeue r);
    change (rg_enqueue r2) with (e + 1); [by apply set_slot_shape|done|rewrite zlen_app; change (zlen [v]) with 1; lia
    |rewrite zlen_app; change (zlen [v]) with 1; lia| |].
  - intros i w Hi. apply lookup_app_Some in Hi as [Hi|[Hlen Hi]].
    + pose proof (lookup_lt_Some _ _ _ Hi). unfold sequence_at, value_at. rewrite Hother by (unfold zlen in *; lia).
      by apply C5.
    + apply list_lookup_singleton_Some in Hi as [Hi <-].
      assert (rg_dequeue r + Z.of_nat i = e) as -> by (unfold zlen in *; lia).
      unfold sequence_at, value_at, r2. by rewrite slot_at_set_same.
  - intros p Hp. unfold sequence_at. rewrite Hother by lia. apply C6. lia.
Qed.

Lemma contains_push_full r q v :
  contains r q -> small r -> zlen q = ring_size r -> TryPush v r = (false, r).
Proof.
  intros C Hb Hq. pose proof (shaped_size _ (ct_shape _ _ C)) as H2. unfold small in Hb. destruct C as [C1 C2 C3 C4 C5 C6].
  destruct q as [|w q]; [change (zlen []) with 0 in Hq; lia|].
  destruct (C5 O w eq_refl) as [Hs _]. rewrite Z.add_0_r in Hs.
  unfold TryPush, max_attempts. cbn [push_loop]. fold (sequence_at r (rg_enqueue r)).
  assert (sequence_at r (rg_enqueue r) = rg_dequeue r + 1) as ->.
  { rewrite <- Hs. unfold sequence_at. f_equal. apply slot_at_class; [done|]. rewrite C3, Hq. apply class_shift. }
  rewrite difference_small by lia. rewrite (proj2 (Z.eqb_neq _ _)) by lia. by rewrite (proj2 (Z.ltb_lt _ _)) by lia.
Qed.

Lemma contains_pop r v q :
  contains r (v :: q) -> small r ->
  exists r', TryPop r = (Some v, r') /\ contains r' q /\ ring_size r' = ring_size r /\
    rg_enqueue r' = rg_enqueue r.
Proof.
  intros C Hb. pose proof (shaped_size _ (ct_shape _ _ C)) as H2. unfold small in Hb. destruct C as [C1 C2 C3 C4 C5 C6].
  rewrite zlen_cons in *. pose proof (zlen_nonneg q). destruct (C5 O v eq_refl) as [Hs Hv]. rewrite Z.add_0_r in Hs, Hv.
  unfold TryPop, max_attempts. cbn [pop_loop]. fold (sequence_at r (rg_dequeue r)). rewrite Hs.
  rewrite succ_small, difference_small, Z.sub_diag by lia. cbn [Z.eqb].
  set (d := rg_dequeue r) in *. set (r1 := set_dequeue r (d + 1)).
  assert (shaped r1) as Hs1 by exact C1. rewrite (store_both r1 d zero _ Hs1).
  change (sl_value (slot_at r1 d)) with (value_at r d). rewrite Hv.
  change (zlen (rg_slots r1)) with (ring_size r). rewrite u64_small by (unfold is_u64, modulus64; lia).
  set (r2 := set_slot r1 d _). exists r2. split; [done|].
  assert (ring_size r2 = ring_size r) as Hsz by (unfold r2; rewrite set_slot_size; done).
  assert (forall p, p <> d -> p - d < ring_size r -> d - p < ring_size r -> slot_at r2 p = slot_at r p) as Hother.
  { intros p Hne Ha Hb'. unfold r2. rewrite window_other; try done; change (ring_size r1) with (ring_size r); lia. }
  split; [|split; [done|done]]. split; rewrite ?Hsz; change (rg_dequeue r2) with (d + 1);
    change (rg_enqueue r2) with (rg_enqueue r); [by apply set_slot_shape|lia|lia|lia| |].
  - intros i w Hi. pose proof (lookup_lt_Some _ _ _ Hi). unfold sequence_at, value_at.
    rewrite Hother by (unfold zlen in *; lia). replace (d + 1 + Z.of_nat i) with (d + Z.of_nat (S i)) by lia.
    by apply C5.
  - intros p Hp. unfold sequence_at. destruct (decide (p = d + ring_size r)) as [->|Hne].
    + unfold r2. rewrite slot_at_set_same; [done|done|]. change (ring_size r1) with (ring_size r). by rewrite class_shift.
    + rewrite Hother by lia. apply C6. lia.
Qed.

Lemma contains_pop_empty r : contains r [] -> small r -> TryPop r = (None, r).
Proof.
  intros C Hb. pose proof (shaped_size _ (ct_shape _ _ C)) as H2. unfold small in Hb. destruct C as [C1 C2 C3 C4 C5 C6].
  change (zlen (A:=T) []) with 0 in *. unfold TryPop, max_attempts. cbn [pop_loop]. fold (sequence_at r (rg_dequeue r)).
  rewrite C6, succ_small, difference_small by lia.
  rewrite (proj2 (Z.eqb_neq _ _)) by lia. by rewrite (proj2 (Z.ltb_lt _ _)) by lia.
Qed.

Lemma contains_new capacity : capacity <= 2 ^ 62 -> contains (NewRing capacity) [].
Proof.
  intros Hc. pose proof (NewRing_shaped _ Hc) as Hs. pose proof (shaped_size _ Hs). split; try done.
  - change (zlen (A:=T) []) with 0. lia.
  - intros p Hp. change (rg_enqueue (NewRing capacity)) with 0 in Hp. change (rg_dequeue (NewRing capacity)) with 0 in Hp.
    rewrite NewRing_sequence by done. apply Z.mod_small. lia.
Qed.

Lemma contains_len r q : contains r q -> Len r = zlen q.
Proof.
  intros [C1 C2 C3 C4 C5 C6]. unfold Len. fold (ring_size r). pose proof (zlen_nonneg q).
  destruct (Z.leb_spec (rg_enqueue r) (rg_dequeue r)); lia.
Qed.

(** ** Theorems *)

(** C16: Under every interleaving of any number of producers and consumers, each value
    a pop returns is the one pushed at the position it claimed, no position is returned
    twice, and positions are handed out in order and never run past the capacity: values
    are neither lost, duplicated nor reordered between claims. *)
Theorem ring_exactly_once capacity s :
  capacity <= 2 ^ 62 -> run capacity s -> zlen (sy_pushed s) + ring_size (sy_ring s) < 2 ^ 63 ->
  (forall p v, (p, v) ∈ sy_popped s ->
     0 <= p < rg_dequeue (sy_ring s) /\ sy_pushed s !! Z.to_nat p = Some v) /\
  NoDup (sy_popped s).*1 /\
  rg_enqueue (sy_ring s) = zlen (sy_pushed s) /\
  0 <= rg_enqueue (sy_ring s) - rg_dequeue (sy_ring s) <= Capacity (sy_ring s) /\
  capacity <= Capacity (sy_ring s).
Proof.
  intros Hc HR Hb. destruct (run_inv _ _ Hc HR Hb) as [I Hsz].
  split; [apply (iv_popped _ I)|]. split; [apply (iv_once _ I)|]. split; [apply (iv_pushed _ I)|].
  change (Capacity (sy_ring s)) with (ring_size (sy_ring s)). pose proof (iv_counts _ I). pose proof (iv_room _ I).
  destruct (NewRing_size _ Hc) as (k & _ & Hk & _ & Hle & _). rewrite Hsz in *. lia.
Qed.

(** Run alone the ring is a bounded FIFO queue: a push succeeds exactly when there
    is room and appends, a pop takes the oldest value or reports an empty ring, and
    the length is the queue's. *)
Theorem ring_is_bounded_queue r q v :
  contains r q -> small r ->
  (exists r', TryPush v r = (bool_decide (zlen q < ring_size r), r') /\
     contains r' (if decide (zlen q < ring_size r) then q ++ [v] else q)) /\
  (exists r', TryPop r = (head q, r') /\ contains r' (tail q)) /\ Len r = zlen q.
Proof.
  intros C Hb. split; [|split; [|by apply contains_len]].
  - destruct (decide (zlen q < ring_size r)) as [Hlt|Hge].
    + destruct (contains_push r q v C Hb Hlt) as (r' & -> & C' & _). exists r'.
      rewrite bool_decide_eq_true_2 by done. done.
    + rewrite (contains_push_full r q v C Hb) by (pose proof (ct_room _ _ C); lia). exists r.
      rewrite bool_decide_eq_false_2 by done. done.
  - destruct q as [|w q]; [rewrite contains_pop_empty by done; by exists r|].
    destruct (contains_pop r w q C Hb) as (r' & -> & C' & _). by exists r'.
Qed.

End ring.

(** ** Witnesses *)

(** A scheduler: start a call on a thread, or run a thread for one access. *)
Inductive action : Type :=
  | CallPush (i : nat) (v : Z)
  | CallPop (i : nat)
  | RunThread (i : nat).

Definition act (s : system) (a : action) : system :=
  let call i l :=
    if at_rest (default Idle (sy_threads s !! i))
    then mkSystem (sy_ring s) (<[i := l]> (sy_threads s)) (sy_pushed s) (sy_popped s) else s in
  match a with
  | CallPush i v => call i (PushLoad v 0)
  | CallPop i => call i (PopLoad 0)
  | RunThread i =>
      match sy_threads s !! i with
      | Some l =>
          let '(r', l') := thread_step 0 (sy_ring s) l in
          mkSystem r' (<[i := l']> (sy_threads s)) (sy_pushed s ++ claims (sy_ring s) l)
            (sy_popped s ++ returns l)
      | None => s
      end
  end.

Lemma act_run capacity s a : run 0 capacity s -> run 0 capacity (act s a).
Proof.
  intros HR. destruct a as [i v|i|i]; cbn [act].
  - destruct (at_rest _) eqn:E; [|done]. eapply run_step; [exact HR|]. eapply step_call; [done|exact E|]. left. by exists v.
  - destruct (at_rest _) eqn:E; [|done]. eapply run_step; [exact HR|]. eapply step_call; [done|exact E|]. by right.
  - destruct (sy_threads s !! i) as [l|] eqn:E; [|done].
    destruct (thread_step 0 (sy_ring s) l) as [r' l'] eqn:HT. eapply run_step; [exact HR|]. by eapply step_run.
Qed.

Lemma acts_run capacity actions s : run 0 capacity s -> run 0 capacity (foldl act s actions).
Proof. revert s. induction actions as [|a actions IH]; intros s HR; [done|]. by apply IH, act_run. Qed.

(** Two producers race for position 0; a consumer takes what was published. *)
Definition race : system :=
  foldl act (mkSystem (NewRing 0 2) ∅ [] [])
    ([CallPush 1 41; CallPush 2 42; RunThread 1; RunThread 2; RunThread 1; RunThread 2; RunThread 2]
     ++ replicate 8 (RunThread 2) ++ replicate 12 (RunThread 1) ++ [CallPop 3] ++ replicate 8 (RunThread 3)).

Lemma ring_exactly_once_witness :
  (0, 42) ∈ sy_popped race /\ sy_pushed race !! 0%nat = Some 42.
Proof.
  assert ((0, 42) ∈ sy_popped race) as Hin by (vm_compute; left).
  destruct (ring_exactly_once 0 2 race) as (H & _).
  - vm_compute. discriminate.
  - apply acts_run. constructor.
  - vm_compute. reflexivity.
  - split; [exact Hin|]. apply (H 0 42 Hin).
Defined.

Lemma ring_is_bounded_queue_witness :
  exists r', TryPush 0 7 (NewRing 0 2) = (true, r') /\ contains 0 r' [7].
Proof.
  destruct (ring_is_bounded_queue 0 (NewRing 0 2) [] 7) as (H & _).
  - apply contains_new. lia.
  - vm_compute. reflexivity.
  - exact H.
Defined.
