(* ===== verification/Pool.v ===== *)
(** * Buffer pools on the ring ([internal/fastpath/pool.go])

    [BytePool] and [BufferPool] over the ring of [Ring.v], run one call at a time.  A
    byte slice is its backing array's identity with length and capacity; a new
    allocation takes a fresh identity, so that sharing is visible. *)

From S2P Require Import Prelude Ring.

Local Open Scope Z_scope.
Local Open Scope list_scope.

(** ** Byte slices *)

Record slice := mkSlice { sc_id : Z; sc_len : Z; sc_cap : Z }.

Definition nil_slice : slice := mkSlice (-1) 0 0.

Definition defaultPoolSlots : Z := 64.

Record PoolStats := mkPoolStats {
  ps_Gets : Z;
  ps_Reuses : Z;
  ps_Allocations : Z;
  ps_Discards : Z;
}.

Record BytePool := mkBytePool {
  bp_buffers : Ring (T:=slice);
  bp_maxCapacity : Z;
  bp_stats : PoolStats;
  bp_fresh : Z;
}.

Definition pool_limit (maxCapacity : Z) : Z := if maxCapacity <=? 0 then Z.shiftl 1 20 else maxCapacity.

Definition NewBytePool (maxCapacity : Z) : BytePool :=
  mkBytePool (NewRing nil_slice defaultPoolSlots) (pool_limit maxCapacity) (mkPoolStats 0 0 0 0) 0.

Definition count_get (s : PoolStats) : PoolStats :=
  mkPoolStats (u64_succ (ps_Gets s)) (ps_Reuses s) (ps_Allocations s) (ps_Discards s).
Definition count_reuse (s : PoolStats) : PoolStats :=
  mkPoolStats (ps_Gets s) (u64_succ (ps_Reuses s)) (ps_Allocations s) (ps_Discards s).
Definition count_allocation (s : PoolStats) : PoolStats :=
  mkPoolStats (ps_Gets s) (ps_Reuses s) (u64_succ (ps_Allocations s)) (ps_Discards s).
Definition count_discard (s : PoolStats) : PoolStats :=
  mkPoolStats (ps_Gets s) (ps_Reuses s) (ps_Allocations s) (u64_succ (ps_Discards s)).

Definition set_buffers (r : Ring (T:=slice)) (p : BytePool) : BytePool :=
  mkBytePool r (bp_maxCapacity p) (bp_stats p) (bp_fresh p).
Definition on_stats (f : PoolStats -> PoolStats) (p : BytePool) : BytePool :=
  mkBytePool (bp_buffers p) (bp_maxCapacity p) (f (bp_stats p)) (bp_fresh p).

(** The loop of [Get]: buffers that are too small are dropped until one fits or the
    ring is empty; [fuel] bounds the number of pops. *)
Fixpoint get_loop (fuel : nat) (size : Z) (p : BytePool) : slice * BytePool :=
  let allocate :=
    (mkSlice (bp_fresh p) size size,
     mkBytePool (bp_buffers p) (bp_maxCapacity p) (count_allocation (bp_stats p)) (bp_fresh p + 1)) in
  match fuel with
  | O => allocate
  | S fuel =>
      match TryPop nil_slice (bp_buffers p) with
      | (None, r) => allocate
      | (Some buffer, r) =>
          let p := set_buffers r p in
          if size <=? sc_cap buffer
          then (mkSlice (sc_id buffer) size (sc_cap buffer), on_stats count_reuse p)
          else get_loop fuel size (on_stats count_discard p)
      end
  end.

Definition Get (size : Z) (p : BytePool) : slice * BytePool :=
  let size := if size <? 0 then 0 else size in
  get_loop (S (length (rg_slots (bp_buffers p)))) size (on_stats count_get p).

Definition Put (buffer : option slice) (p : BytePool) : BytePool :=
  match buffer with
  | None => p
  | Some b =>
      if bp_maxCapacity p <? sc_cap b then on_stats count_discard p
      else match TryPush nil_slice (mkSlice (sc_id b) 0 (sc_cap b)) (bp_buffers p) with
           | (true, r) => set_buffers r p
           | (false, r) => on_stats count_discard (set_buffers r p)
           end
  end.

(** ** [bytes.Buffer] pools *)

Record buffer := mkBuffer { bf_contents : bytes; bf_cap : Z }.
Definition reset (b : buffer) : buffer := mkBuffer [] (bf_cap b).
Definition nil_buffer : buffer := mkBuffer [] 0.

Record BufferPool := mkBufferPool {
  fp_buffers : Ring (T:=buffer);
  fp_maxCapacity : Z;
  fp_stats : PoolStats;
}.

Definition NewBufferPool (maxCapacity : Z) : BufferPool :=
  mkBufferPool (NewRing nil_buffer defaultPoolSlots) (pool_limit maxCapacity) (mkPoolStats 0 0 0 0).

Definition Buffer_Get (p : BufferPool) : buffer * BufferPool :=
  let st := count_get (fp_stats p) in
  match TryPop nil_buffer (fp_buffers p) with
  | (Some b, r) => (reset b, mkBufferPool r (fp_maxCapacity p) (count_reuse st))
  | (None, r) => (nil_buffer, mkBufferPool r (fp_maxCapacity p) (count_allocation st))
  end.

Definition Buffer_Put (b : option buffer) (p : BufferPool) : BufferPool :=
  match b with
  | None => p
  | Some b =>
      if fp_maxCapacity p <? bf_cap b
      then mkBufferPool (fp_buffers p) (fp_maxCapacity p) (count_discard (fp_stats p))
      else match TryPush nil_buffer (reset b) (fp_buffers p) with
           | (true, r) => mkBufferPool r (fp_maxCapacity p) (fp_stats p)
           | (false, r) => mkBufferPool r (fp_maxCapacity p) (count_discard (fp_stats p))
           end
  end.

(** ** The invariant *)

(** [q] are the pooled buffers, oldest first; [held] the identities handed out. *)
Record pool_ok (p : BytePool) (q : list slice) (held : list Z) : Prop := {
  po_ring : contains nil_slice (bp_buffers p) q;
  po_distinct : NoDup ((sc_id <$> q) ++ held);
  po_fresh : Forall (fun id => id < bp_fresh p) ((sc_id <$> q) ++ held);
  po_sizes : Forall (fun b => sc_len b = 0 /\ sc_cap b <= bp_maxCapacity p) q;
  po_balance : u64 (ps_Reuses (bp_stats p) + ps_Allocations (bp_stats p)) = ps_Gets (bp_stats p);
}.

(** ** Lemmas *)

Lemma u64_succ_add a b : u64 (a + u64_succ b) = u64_succ (u64 (a + b)).
Proof.
  unfold u64_succ, u64, modulus64. rewrite Zplus_mod_idemp_r, Zplus_mod_idemp_l. f_equal. lia.
Qed.

(** The middle of a [Get]: the call has been counted, nothing has been returned. *)
Definition get_ok (p : BytePool) (q : list slice) (held : list Z) : Prop :=
  contains nil_slice (bp_buffers p) q /\ NoDup ((sc_id <$> q) ++ held) /\
  Forall (fun id => id < bp_fresh p) ((sc_id <$> q) ++ held) /\
  Forall (fun b => sc_len b = 0 /\ sc_cap b <= bp_maxCapacity p) q /\
  u64_succ (u64 (ps_Reuses (bp_stats p) + ps_Allocations (bp_stats p))) = ps_Gets (bp_stats p).

Lemma allocate_ok p held :
  get_ok p [] held ->
  pool_ok (mkBytePool (bp_buffers p) (bp_maxCapacity p) (count_allocation (bp_stats p)) (bp_fresh p + 1))
    [] (bp_fresh p :: held).
Proof.
  intros (H1 & H2 & H3 & H4 & H5). split; cbn [bp_buffers bp_fresh bp_stats bp_maxCapacity fmap list_fmap app] in *; try done.
  - apply NoDup_cons. split; [|done]. intros Hin. rewrite Forall_forall in H3. specialize (H3 _ Hin). cbn in H3. lia.
  - constructor; [lia|]. eapply Forall_impl; [exact H3|]. cbn. lia.
  - cbn. by rewrite u64_succ_add.
Qed.

Lemma get_loop_ok fuel size p q held :
  get_ok p q held -> small (bp_buffers p) -> (length q < fuel)%nat -> 0 <= size ->
  exists b p' q', get_loop fuel size p = (b, p') /\ pool_ok p' q' (sc_id b :: held) /\
    sc_len b = size /\ size <= sc_cap b /\ bp_maxCapacity p' = bp_maxCapacity p.
Proof.
  revert p q. induction fuel as [|fuel IH]; intros p q HG Hs Hf Hsize; [lia|]. cbn [get_loop].
  destruct q as [|b q].
  - rewrite contains_pop_empty by (done || apply HG). do 3 eexists. split; [done|].
    split; [by apply allocate_ok|]. by cbn.
  - pose proof HG as (H1 & H2 & H3 & H4 & H5).
    destruct (contains_pop _ _ _ _ H1 Hs) as (r' & -> & HC & Hsz & He).
    cbn [fmap list_fmap app] in H2, H3. apply Forall_cons in H4 as [[Hl Hc] H4].
    destruct (Z.leb_spec size (sc_cap b)) as [Hfit|Hsmall].
    + do 3 eexists. split; [done|]. split; [|by cbn]. split; cbn [bp_buffers bp_fresh bp_stats bp_maxCapacity sc_id set_buffers on_stats] in *; try done.
      * by rewrite <- Permutation_middle.
      * by rewrite <- Permutation_middle.
      * cbn. by rewrite Z.add_comm, u64_succ_add, Z.add_comm.
    + destruct (IH (on_stats count_discard (set_buffers r' p)) q) as (b' & p' & q' & E & Hok & Hlen & Hcap & Hmax).
      * apply NoDup_cons in H2 as [_ H2]. apply Forall_cons in H3 as [_ H3]. done.
      * unfold small in *. cbn. rewrite Hsz, He. done.
      * cbn in Hf. lia.
      * done.
      * exists b', p', q'. done.
Qed.

Lemma get_spec size p q held :
  pool_ok p q held -> small (bp_buffers p) ->
  exists b p' q', Get size p = (b, p') /\ pool_ok p' q' (sc_id b :: held) /\
    sc_len b = Z.max 0 size /\ sc_len b <= sc_cap b.
Proof.
  intros [P1 P2 P3 P4 P5] Hs. unfold Get. set (n := if size <? 0 then 0 else size).
  assert (n = Z.max 0 size) as Hn by (unfold n; destruct (Z.ltb_spec size 0); lia).
  destruct (get_loop_ok (S (length (rg_slots (bp_buffers p)))) n (on_stats count_get p) q held)
    as (b & p' & q' & E & Hok & Hl & Hc & _); [| | |lia|].
  - do 4 (split; [done|]). cbn [on_stats bp_stats count_get ps_Reuses ps_Allocations ps_Gets]. by rewrite P5.
  - done.
  - pose proof (ct_room _ _ _ P1) as Hr. unfold ring_size, zlen in Hr. lia.
  - exists b, p', q'. split; [done|]. split; [done|]. lia.
Qed.

Lemma put_spec b p q l1 l2 :
  pool_ok p q (l1 ++ sc_id b :: l2) -> small (bp_buffers p) ->
  exists q', pool_ok (Put (Some b) p) q' (l1 ++ l2).
Proof.
  intros [P1 P2 P3 P4 P5] Hs. unfold Put.
  assert (NoDup ((sc_id <$> q) ++ l1 ++ l2) /\ Forall (fun id => id < bp_fresh p) ((sc_id <$> q) ++ l1 ++ l2)) as [N1 N2].
  { rewrite app_assoc in P2, P3. rewrite <- Permutation_middle in P2, P3. rewrite app_assoc.
    apply NoDup_cons in P2 as [_ ?]. by apply Forall_cons in P3 as [_ ?]. }
  assert (forall r, contains nil_slice r q -> pool_ok (on_stats count_discard (set_buffers r p)) q (l1 ++ l2)) as Hdrop
    by (intros r Hr; by split).
  destruct (Z.ltb_spec (bp_maxCapacity p) (sc_cap b)) as [Hbig|Hfit]; [exists q; by destruct (Hdrop (bp_buffers p) P1)|].
  destruct (decide (zlen q < ring_size (bp_buffers p))) as [Hroom|Hfull].
  - destruct (contains_push _ _ _ (mkSlice (sc_id b) 0 (sc_cap b)) P1 Hs Hroom) as (r' & -> & HC & _).
    exists (q ++ [mkSlice (sc_id b) 0 (sc_cap b)]). split; cbn [set_buffers bp_buffers bp_fresh bp_stats bp_maxCapacity]; try done.
    + rewrite fmap_app, <- app_assoc. cbn [fmap list_fmap app sc_id].
      rewrite app_assoc in P2. rewrite <- Permutation_middle in P2. rewrite <- Permutation_middle. by rewrite app_assoc.
    + rewrite fmap_app, <- app_assoc. cbn [fmap list_fmap app sc_id].
      rewrite app_assoc in P3. rewrite <- Permutation_middle in P3. rewrite <- Permutation_middle. by rewrite app_assoc.
    + apply Forall_app. split; [done|]. by constructor.
  - rewrite (contains_push_full _ _ _ _ P1 Hs) by (pose proof (ct_room _ _ _ P1); lia). exists q. by apply Hdrop.
Qed.

(** ** Theorem *)

(** No buffer is shared: as long as callers put back what they hold, a buffer that
    [Get] hands out is held by nobody else and not in the pool, has the requested
    length within its capacity, the pool keeps only buffers up to its limit, and every
    call of [Get] is counted as a reuse or an allocation (modulo 2^64). *)
Theorem pool_buffers_exclusive p q held :
  pool_ok p q held -> small (bp_buffers p) ->
  (forall size, exists b p' q', Get size p = (b, p') /\ pool_ok p' q' (sc_id b :: held) /\
     sc_len b = Z.max 0 size /\ sc_len b <= sc_cap b /\ sc_id b ∉ held ++ (sc_id <$> q')) /\
  (forall b l1 l2, held = l1 ++ sc_id b :: l2 -> exists q', pool_ok (Put (Some b) p) q' (l1 ++ l2)).
Proof.
  intros Hp Hs. split.
  - intros size. destruct (get_spec size p q held Hp Hs) as (b & p' & q' & E & Hok & Hl & Hc).
    exists b, p', q'. split; [done|]. split; [done|]. split; [done|]. split; [done|].
    pose proof (po_distinct _ _ _ Hok) as Hd. rewrite <- Permutation_middle in Hd.
    apply NoDup_cons in Hd as [Hd _]. rewrite !elem_of_app in *. tauto.
  - intros b l1 l2 ->. by eapply put_spec.
Qed.

Lemma pool_new maxCapacity : pool_ok (NewBytePool maxCapacity) [] [].
Proof. split; [apply contains_new; vm_compute; discriminate|constructor|constructor|constructor|done]. Qed.

Lemma pool_buffers_exclusive_witness :
  exists b p', Get 100 (NewBytePool 4096) = (b, p') /\ sc_len b = 100 /\ sc_id b ∉ ([] : list Z).
Proof.
  destruct (pool_buffers_exclusive (NewBytePool 4096) [] [] (pool_new 4096)) as [H _].
  - vm_compute. reflexivity.
  - destruct (H 100) as (b & p' & q' & E & _ & Hl & _). exists b, p'.
    split; [exact E|]. split; [exact Hl|]. apply not_elem_of_nil.
Defined.
