(* ===== verification/ReplicaStore.v ===== *)
(** * The receiver-side replica log ([internal/replication/store.go], [http.go])

    One log file per origin edge, named by a hash of the edge identity, holds the
    frames of the records replicated from that edge; a release checkpoint per edge
    says up to which sequence the origin no longer needs its copies.  [Handler] is
    the HTTP interface to the store.

    The store's directory is the disk; its other names never match the two
    patterns the store lists.  [range] over the release map visits the entries in
    an order of its own, given to [compactReleased] as [walk]. *)

From S2P Require Import Prelude GoStrings Hash Domain Disk Wire Lineage WalModel WalFrame Topology.
From S2P Require ReplicaPolicy.

Local Open Scope string_scope.
Local Open Scope Z_scope.
Local Open Scope list_scope.

Definition replicaHeader : bytes := to_bytes "TFREP001".
Definition replicaFrameHeaderBytes : Z := 8.
Definition defaultReplicaMaxBytes : Z := Z.shiftl 8 30.
Definition compactReleaseStride : Z := 256.
Definition maxReplicaFrame : Z := Z.shiftl 16 20.

Record StoreConfig := mkStoreConfig { sc_Directory : string; sc_MaxBytes : Z }.

Record StoreStats := mkStoreStats {
  ss_Directory : string;
  ss_Bytes : Z;
  ss_MaxBytes : Z;
  ss_Origins : Z;
  ss_RetainedRecords : Z;
}.

Record releaseCheckpoint := mkRelease {
  rl_Format : string;
  rl_FormatVersion : Z;
  rl_EdgeID : string;
  rl_ReleasedThrough : Z;
}.

Record Store := mkStore {
  rs_directory : string;
  rs_maxBytes : Z;
  rs_totalBytes : Z;
  rs_fingerprints : gmap string (gmap Z string);
  rs_released : gmap string Z;
  rs_compacted : gmap string Z;
  rs_closed : bool;
}.

(** [encoding/json] on the store's own values: the lenient [json.Unmarshal] of a
    record and the release checkpoint both ways.  What [Marshal] wrote of ASCII
    metadata and a stable event is read back as it was. *)
Class ReplicaCodec (WC : WalCodec) := {
  unmarshal_record : bytes -> option WalRecord;
  marshal_release : releaseCheckpoint -> option bytes;
  decode_release : bytes -> option releaseCheckpoint;
  unmarshal_marshal_record : forall r p,
    record_ascii r = true -> event_stable (r_Event r) ->
    marshal_record r = Some p -> unmarshal_record p = Some r;
  decode_marshal_release : forall c p,
    ascii_text (rl_EdgeID c) = true -> marshal_release c = Some p -> decode_release p = Some c;
}.

Abbreviation STORE := (M (Store * disk)).

Definition set_total (n : Z) (s : Store) : Store :=
  mkStore (rs_directory s) (rs_maxBytes s) n (rs_fingerprints s) (rs_released s) (rs_compacted s)
    (rs_closed s).
Definition set_fingerprints (f : gmap string (gmap Z string)) (s : Store) : Store :=
  mkStore (rs_directory s) (rs_maxBytes s) (rs_totalBytes s) f (rs_released s) (rs_compacted s)
    (rs_closed s).
Definition set_released (m : gmap string Z) (s : Store) : Store :=
  mkStore (rs_directory s) (rs_maxBytes s) (rs_totalBytes s) (rs_fingerprints s) m (rs_compacted s)
    (rs_closed s).
Definition set_compacted (m : gmap string Z) (s : Store) : Store :=
  mkStore (rs_directory s) (rs_maxBytes s) (rs_totalBytes s) (rs_fingerprints s) (rs_released s) m
    (rs_closed s).

(** Reading a [map[string]uint64] at a missing key gives zero. *)
Definition at_or_zero (m : gmap string Z) (key : string) : Z := default 0 (m !! key).

(** The base names of an edge's two files. *)
Definition edge_name (edgeID : string) : string := hex_encode (take 12 (sha256 (to_bytes edgeID))).
Definition path (edgeID : string) : string := edge_name edgeID +:+ ".tfreplica".
Definition releasePath (edgeID : string) : string := edge_name edgeID +:+ ".release.json".

(** [syncDirectory] on POSIX systems: open the directory and flush it. *)
Definition syncDirectory : M disk unit := syscall;; syscall.

(** [defer file.Close()]. *)
Definition closing {A} (p : string) (m : M disk A) : M disk A := fun d =>
  let '(r, d) := m d in let '(_, d) := attempt (os_close p) d in (r, d).

(** On failure of [m]: close the file, ignoring the outcome, and report. *)
Definition or_close {A} (p : string) (m : M disk A) : M disk A :=
  on_error m (fun e => _ ← attempt (os_close p); raise e).

Section store.
Context {WC : WalCodec} {RC : ReplicaCodec WC}.

Definition fingerprintRecord (r : WalRecord) : result (string * bytes) :=
  match marshal_record r with
  | Some payload => Ok (sha256_hex payload, payload)
  | None => Err json_error
  end.

(** The frame loop of [scanReplicaFile]; every round consumes at least nine bytes,
    so the length of the file is enough fuel.  The answer is the records and the
    offset to cut a torn tail at, or -1. *)
Fixpoint scan_loop (fuel : nat) (rest : bytes) (offset : Z) (records : list WalRecord)
  : result (list WalRecord * Z) :=
  match fuel with
  | O => Ok (records, -1)
  | S fuel =>
      if (length rest =? 0)%nat then Ok (records, -1)
      else if (length rest <? 8)%nat then Ok (records, offset)
      else
        let size := be32_decode (take 4 rest) in
        let expectedCRC := be32_decode (take 4 (drop 4 rest)) in
        let body := drop 8 rest in
        if (size =? 0) || (maxReplicaFrame <? size) then Err (ErrMsg "invalid replica frame size")
        else if zlen body <? size then Ok (records, offset)
        else
          let payload := take (Z.to_nat size) body in
          if negb (crc32 payload =? expectedCRC) then Err (ErrMsg "replica frame CRC mismatch")
          else match unmarshal_record payload with
          | None => Err (ErrWrap "decode replica record" json_error)
          | Some record =>
              match Record_Validate record with
              | Err e => Err (ErrWrap "validate replica record" e)
              | Ok _ =>
                  scan_loop fuel (drop (Z.to_nat size) body) (offset + replicaFrameHeaderBytes + size)
                    (records ++ [record])
              end
          end
  end.

Definition scan_bytes (d : bytes) : result (list WalRecord * Z) :=
  if (length d <? 8)%nat
  then Err (ErrWrap "read replica header" (if (length d =? 0)%nat then ErrEOF else ErrUnexpectedEOF))
  else if negb (bool_decide (take 8 d = replicaHeader))
  then Err (ErrMsg "unsupported replica log header")
  else scan_loop (length d) (drop 8 d) 8 [].

Definition scanReplicaFile (p : string) : M disk (list WalRecord * Z) :=
  d ← os_read p; lift (scan_bytes d).

(** The loop of [recoverFile] over the records of one file. *)
Fixpoint recover_records (released : gmap string Z) (records : list WalRecord)
    (fps : gmap string (gmap Z string)) : result (gmap string (gmap Z string)) :=
  match records with
  | [] => Ok fps
  | record :: records' =>
      if r_EdgeSequence record <=? at_or_zero released (r_EdgeID record)
      then recover_records released records' fps
      else
        '(fingerprint, _) ← fingerprintRecord record;
        let bySequence := default ∅ (fps !! r_EdgeID record) in
        match bySequence !! r_EdgeSequence record with
        | Some existing =>
            if negb (bool_decide (existing = fingerprint)) then Err ErrReplicaConflict
            else recover_records released records'
                   (<[r_EdgeID record := <[r_EdgeSequence record := fingerprint]> bySequence]> fps)
        | None =>
            recover_records released records'
              (<[r_EdgeID record := <[r_EdgeSequence record := fingerprint]> bySequence]> fps)
        end
  end.

Definition recoverFile (p : string) : STORE unit :=
  '(records, truncateTo) ← on_disk (scanReplicaFile p);
  (if 0 <=? truncateTo then on_disk (os_truncate p truncateTo) else mret tt);;
  released ← on_state rs_released;
  fps ← on_state rs_fingerprints;
  fps ← lift (recover_records released records fps);
  set_state (set_fingerprints fps).

Fixpoint load_releases (names : list string) : STORE unit :=
  match names with
  | [] => mret tt
  | name :: names' =>
      payload ← on_disk (os_read name);
      match decode_release payload with
      | None => raise (ErrWrap "decode replica release checkpoint" json_error)
      | Some c =>
          if negb (bool_decide (rl_Format c = "telemetryforge-edge-replica-release"))
             || negb (rl_FormatVersion c =? 1) || blank (rl_EdgeID c)
          then raise (ErrMsg "unsupported replica release checkpoint")
          else
            released ← on_state rs_released;
            (if at_or_zero released (rl_EdgeID c) <? rl_ReleasedThrough c
             then set_state (set_released (<[rl_EdgeID c := rl_ReleasedThrough c]> released))
             else mret tt);;
            load_releases names'
      end
  end.

Definition loadReleaseCheckpoints : STORE unit :=
  d ← on_disk get; load_releases (glob ".release.json" (files d)).

Fixpoint recover_files (names : list string) : STORE unit :=
  match names with
  | [] => mret tt
  | name :: names' =>
      recoverFile name;;
      size ← on_disk (os_stat name);
      set_state (fun s => set_total (rs_totalBytes s + size) s);;
      recover_files names'
  end.

Definition OpenStoreWithConfig (config : StoreConfig) (d : disk) : result Store * disk :=
  let directory := trim_space (sc_Directory config) in
  let directory := if bool_decide (directory = "") then "data/edge-replicas" else directory in
  let maxBytes := if sc_MaxBytes config <=? 0 then defaultReplicaMaxBytes else sc_MaxBytes config in
  let open : STORE unit :=
    on_disk (on_error syscall (fun e => raise (ErrWrap "create replica directory" e)));;
    loadReleaseCheckpoints;;
    d ← on_disk get;
    recover_files (glob ".tfreplica" (files d)) in
  match open (mkStore directory maxBytes 0 ∅ ∅ ∅ false, d) with
  | (Ok _, (s, d)) => (Ok s, d)
  | (Err e, (_, d)) => (Err e, d)
  end.

Definition writeReleaseCheckpoint (edgeID : string) (through : Z) : M disk unit :=
  match marshal_release (mkRelease "telemetryforge-edge-replica-release" 1 edgeID through) with
  | None => raise json_error
  | Some payload =>
      let p := releasePath edgeID in
      let temporary := p +:+ ".tmp" in
      os_create_trunc temporary;;
      or_close temporary (write_full temporary payload);;
      or_close temporary (os_sync temporary);;
      os_close temporary;;
      os_rename temporary p;;
      syncDirectory
  end.

(** The frames of the retained records, written one by one. *)
Fixpoint write_frames (p : string) (records : list WalRecord) : M disk unit :=
  match records with
  | [] => mret tt
  | record :: records' =>
      '(_, payload) ← lift (fingerprintRecord record);
      write_full p (frame_header payload);;
      write_full p payload;;
      write_frames p records'
  end.

(** Write the retained records beside the log and rename them over it: the size of
    the new log. *)
Definition replace_log (p : string) (retained : list WalRecord) : M disk Z :=
  let temporary := p +:+ ".compact" in
  os_create_trunc temporary;;
  or_close temporary (write_full temporary replicaHeader);;
  or_close temporary (write_frames temporary retained);;
  or_close temporary (os_sync temporary);;
  os_close temporary;;
  newSize ← os_stat temporary;
  os_rename temporary p;;
  syncDirectory;;
  mret newSize.

(** Record that everything released of [edgeID] is compacted. *)
Definition mark_compacted (edgeID : string) (s : Store) : Store :=
  set_compacted (<[edgeID := at_or_zero (rs_released s) edgeID]> (rs_compacted s)) s.

Definition compactEdge (edgeID : string) : STORE unit :=
  let p := path edgeID in
  info ← on_disk (attempt (os_stat p));
  match info with
  | Err e =>
      if errors_is e ErrNotExist then set_state (mark_compacted edgeID) else raise e
  | Ok size =>
      '(records, _) ← on_disk (scanReplicaFile p);
      released ← on_state (fun s => at_or_zero (rs_released s) edgeID);
      let retained := filter (fun record => released < r_EdgeSequence record) records in
      if (length retained =? 0)%nat then
        removed ← on_disk (attempt (os_remove p));
        match removed with
        | Err e => if errors_is e ErrNotExist then mret tt else raise e
        | Ok _ => mret tt
        end;;
        set_state (fun s => mark_compacted edgeID (set_total (Z.max 0 (rs_totalBytes s - size)) s));;
        on_disk syncDirectory
      else
        newSize ← on_disk (replace_log p retained);
        set_state (fun s => mark_compacted edgeID (set_total (rs_totalBytes s - size + newSize) s))
  end.

Fixpoint compact_loop (entries : list (string * Z)) : STORE unit :=
  match entries with
  | [] => mret tt
  | (edgeID, through) :: entries' =>
      compacted ← on_state (fun s => at_or_zero (rs_compacted s) edgeID);
      (if compacted <? through then compactEdge edgeID else mret tt);;
      compact_loop entries'
  end.

Definition compactReleased (walk : gmap string Z -> list (string * Z)) : STORE unit :=
  released ← on_state rs_released; compact_loop (walk released).

(** [os.Stat] used to see whether a file is missing. *)
Definition absent (p : string) : M disk bool :=
  info ← attempt (os_stat p);
  match info with
  | Err e => if errors_is e ErrNotExist then mret true else raise e
  | Ok _ => mret false
  end.

Definition wrap {S A} (text : string) (m : M S A) : M S A := on_error m (fun e => raise (ErrWrap text e)).

(** The writing part of [Put], the file closed whatever happens. *)
Definition append_frame (p : string) (newlyCreated : bool) (payload : bytes) : M disk unit :=
  wrap "open replica log" (os_open_append p);;
  closing p
    ((if newlyCreated then wrap "write replica header" (os_write_all p replicaHeader) else mret tt);;
     wrap "write replica frame header" (write_full p (frame_header payload));;
     wrap "write replica frame payload" (write_full p payload);;
     wrap "sync replica log" (os_sync p);;
     (if newlyCreated then syncDirectory else mret tt)).

Definition additional_bytes (newlyCreated : bool) (payload : bytes) : Z :=
  replicaFrameHeaderBytes + zlen payload + (if newlyCreated then zlen replicaHeader else 0).

(** Make room for the payload, compacting what is released when the store is full:
    whether the log has to be created, and the bytes that will be added. *)
Definition reserve (walk : gmap string Z -> list (string * Z)) (p : string) (payload : bytes)
  : STORE (bool * Z) :=
  newlyCreated ← on_disk (absent p);
  let additional := additional_bytes newlyCreated payload in
  s ← on_state id;
  if rs_maxBytes s <? rs_totalBytes s + additional then
    compactReleased walk;;
    newlyCreated ← on_disk (absent p);
    let additional := additional_bytes newlyCreated payload in
    s ← on_state id;
    if rs_maxBytes s <? rs_totalBytes s + additional then raise ErrReplicaPressure
    else mret (newlyCreated, additional)
  else mret (newlyCreated, additional).

(** [Put]: true for a record already held or no longer needed. *)
Definition Put (walk : gmap string Z -> list (string * Z)) (r : WalRecord) : STORE bool :=
  lift (Record_Validate r);;
  '(fingerprint, payload) ← lift (fingerprintRecord r);
  s ← on_state id;
  if rs_closed s then raise (ErrMsg "replica store is closed")
  else if r_EdgeSequence r <=? at_or_zero (rs_released s) (r_EdgeID r) then mret true
  else
    let bySequence := default ∅ (rs_fingerprints s !! r_EdgeID r) in
    set_state (set_fingerprints (<[r_EdgeID r := bySequence]> (rs_fingerprints s)));;
    match bySequence !! r_EdgeSequence r with
    | Some existing =>
        if negb (bool_decide (existing = fingerprint)) then raise ErrReplicaConflict else mret true
    | None =>
        '(newlyCreated, additional) ← reserve walk (path (r_EdgeID r)) payload;
        on_disk (append_frame (path (r_EdgeID r)) newlyCreated payload);;
        set_state (fun s => set_fingerprints
          (<[r_EdgeID r := <[r_EdgeSequence r := fingerprint]> bySequence]> (rs_fingerprints s))
          (set_total (rs_totalBytes s + additional) s));;
        mret false
    end.

(** Forget the fingerprints of an edge up to [through]. *)
Definition forget (edgeID : string) (through : Z) (fps : gmap string (gmap Z string))
  : gmap string (gmap Z string) :=
  match fps !! edgeID with
  | Some bySequence => <[edgeID := filter (fun e => through < e.1) bySequence]> fps
  | None => fps
  end.

Definition Release (edgeID : string) (through : Z) : STORE unit :=
  let edgeID := trim_space edgeID in
  if bool_decide (edgeID = "") then raise (ErrMsg "origin edge ID is required")
  else
    s ← on_state id;
    if rs_closed s then raise (ErrMsg "replica store is closed")
    else if through <=? at_or_zero (rs_released s) edgeID then mret tt
    else
      on_disk (writeReleaseCheckpoint edgeID through);;
      set_state (fun s => set_fingerprints (forget edgeID through (rs_fingerprints s))
                            (set_released (<[edgeID := through]> (rs_released s)) s));;
      s ← on_state id;
      if (compactReleaseStride <=? u64_sub through (at_or_zero (rs_compacted s) edgeID))
         || (Z.quot (i64 (rs_maxBytes s * 3)) 4 <=? rs_totalBytes s)
      then compactEdge edgeID
      else mret tt.

Definition Count (edgeID : string) (s : Store) : Z :=
  Z.of_nat (size (default ∅ (rs_fingerprints s !! edgeID))).

Definition Stats (s : Store) : StoreStats :=
  mkStoreStats (rs_directory s) (rs_totalBytes s) (rs_maxBytes s) (Z.of_nat (size (rs_fingerprints s)))
    (sumZ ((fun e => Z.of_nat (size e.2)) <$> map_to_list (rs_fingerprints s))).

Definition Close (s : Store) : Store :=
  mkStore (rs_directory s) (rs_maxBytes s) (rs_totalBytes s) (rs_fingerprints s) (rs_released s)
    (rs_compacted s) true.

(** ** The HTTP interface *)

Record Handler := mkHandler { hd_local : Node; hd_token : string }.

(** A request: the bodies as the strict decoder reads them from the permitted
    number of bytes, and whether anything follows. *)
Record http_request := mkRequest {
  rq_method : string;
  rq_path : string;
  rq_authorization : string;
  rq_record : option WalRecord;
  rq_release : option (string * Z);
  rq_trailing : bool;
}.

Inductive reply : Type :=
  | Status (code : Z)
  | Health (node : Node)
  | Acknowledged (ack : ReplicaPolicy.Ack).

Definition authorized (handler : Handler) (request : http_request) : bool :=
  if bool_decide (hd_token handler = "") then false
  else
    let expected := "Bearer " +:+ hd_token handler in
    let provided := rq_authorization request in
    if negb (String.length expected =? String.length provided)%nat then false
    else bool_decide (expected = provided).

Definition Handler_replicate (walk : gmap string Z -> list (string * Z)) (handler : Handler)
    (request : http_request) : STORE reply :=
  match rq_record request with
  | None => mret (Status 400)
  | Some record =>
      if rq_trailing request then mret (Status 400)
      else
        put ← attempt (Put walk record);
        match put with
        | Err e =>
            mret (Status (if errors_is e ErrReplicaConflict then 409
                          else if errors_is e ErrReplicaPressure then 507 else 500))
        | Ok duplicate =>
            now ← on_disk now;
            mret (Acknowledged (ReplicaPolicy.mkAck (hd_local handler) (r_EdgeID record) (r_EdgeSequence record)
              (r_PayloadSHA256 record) (r_RecordHash record) duplicate now))
        end
  end.

Definition Handler_release (request : http_request) : STORE reply :=
  match rq_release request with
  | None => mret (Status 400)
  | Some (edgeID, through) =>
      if blank edgeID || (through =? 0) || rq_trailing request then mret (Status 400)
      else
        r ← attempt (Release edgeID through);
        mret (Status (if r is Ok _ then 204 else 500))
  end.

Definition ServeHTTP (walk : gmap string Z -> list (string * Z)) (handler : Handler)
    (request : http_request) : STORE reply :=
  if negb (authorized handler request) then mret (Status 401)
  else if bool_decide (rq_method request = "GET")
          && bool_decide (rq_path request = "/internal/v1/replication/health")
  then mret (Health (hd_local handler))
  else if bool_decide (rq_method request = "POST") && bool_decide (rq_path request = "/internal/v1/replicate")
  then Handler_replicate walk handler request
  else if bool_decide (rq_method request = "POST")
          && bool_decide (rq_path request = "/internal/v1/replication/release")
  then Handler_release request
  else mret (Status 404).
End store.
