(* ===== verification/ReplicaLog.v ===== *)
(** * Durability of the replica log

    What [internal/replication/store.go] keeps on disk and what recovery reads
    back, for every schedule of I/O faults and crashes: an acknowledged record is
    held until its origin releases it. *)

From S2P Require Import Prelude GoStrings Hash Domain Disk Wire Lineage WalModel WalFrame Topology.
From S2P Require Import ReplicaStore.

Local Open Scope string_scope.
Local Open Scope Z_scope.
Local Open Scope list_scope.

Section log.
Context {WC : WalCodec} {RC : ReplicaCodec WC}.

(** ** Frames of a log *)

(** A record and the payload that stands for it in a frame. *)
Definition enc (r : WalRecord) (p : bytes) : Prop :=
  marshal_record r = Some p /\ unmarshal_record p = Some r /\ Record_Validate r = Ok tt /\
  0 < zlen p <= maxReplicaFrame.

Definition log_image (rs : list WalRecord) (b : bytes) : Prop :=
  exists ps, Forall2 enc rs ps /\ b = concat (frame <$> ps).

Lemma enc_fingerprint r p : enc r p -> fingerprintRecord r = Ok (sha256_hex p, p).
Proof. intros (H & _). unfold fingerprintRecord. by rewrite H. Qed.

Lemma be32_size (p : bytes) : zlen p <= maxReplicaFrame -> be32_decode (be32 (zlen p)) = zlen p.
Proof.
  intros H. apply be32_decode_be32. change maxReplicaFrame with 16777216 in H. unfold zlen in *. lia.
Qed.

(** One complete frame is consumed. *)
Lemma scan_one fuel r p tail off acc :
  enc r p ->
  scan_loop (S fuel) (frame p ++ tail) off acc = scan_loop fuel tail (off + zlen (frame p)) (acc ++ [r]).
Proof.
  intros (_ & Hd & Hv & Hlen). cbn [scan_loop].
  destruct (frame_parts p tail) as (-> & -> & ->).
  rewrite length_app, length_frame, be32_size, be32_decode_be32 by (apply crc32_range || lia).
  destruct (Nat.eqb_spec (8 + length p + length tail) 0); [lia|].
  destruct (Nat.ltb_spec (8 + length p + length tail) 8); [lia|].
  destruct (Z.eqb_spec (zlen p) 0); [lia|]. destruct (Z.ltb_spec maxReplicaFrame (zlen p)); [lia|].
  cbn [orb]. unfold zlen at 1. rewrite length_app.
  destruct (Z.ltb_spec (Z.of_nat (length p + length tail)) (zlen p)); [unfold zlen in *; lia|].
  replace (Z.to_nat (zlen p)) with (length p) by (unfold zlen; lia).
  rewrite take_app_length, drop_app_length, Z.eqb_refl, Hd, Hv, zlen_frame.
  cbn [negb]. by rewrite Z.add_assoc.
Qed.

Lemma scan_many fuel rs b tail off acc :
  log_image rs b -> (length (b ++ tail) < fuel)%nat ->
  exists fuel', (length tail < fuel')%nat /\
    scan_loop fuel (b ++ tail) off acc = scan_loop fuel' tail (off + zlen b) (acc ++ rs).
Proof.
  intros (ps & Henc & ->). revert fuel off acc.
  induction Henc as [|r p rs ps He Hes IH]; intros fuel off acc Hf.
  - exists fuel. split; [done|]. unfold zlen. cbn. by rewrite Z.add_0_r, app_nil_r.
  - destruct fuel as [|fuel]; [lia|]. cbn [fmap list_fmap concat] in *.
    rewrite <- (assoc_L (++)) in *. rewrite (scan_one fuel r p) by done.
    rewrite length_app, length_frame in Hf.
    destruct (IH fuel (off + zlen (frame p)) (acc ++ [r])) as (fuel' & Hf' & ->); [lia|].
    exists fuel'. split; [done|]. f_equal; [|by rewrite <- (assoc_L (++))].
    unfold zlen. rewrite length_app. lia.
Qed.

Lemma scan_nothing fuel off acc : scan_loop fuel [] off acc = Ok (acc, -1).
Proof. by destruct fuel. Qed.

Lemma scan_part fuel (p : bytes) n off acc :
  0 < zlen p <= maxReplicaFrame -> (0 < n < length (frame p))%nat -> (n < fuel)%nat ->
  scan_loop fuel (take n (frame p)) off acc = Ok (acc, off).
Proof.
  intros Hp Hn Hf. destruct fuel as [|fuel]; [lia|]. cbn [scan_loop].
  rewrite length_take_le by lia.
  destruct (Nat.eqb_spec n 0); [lia|]. destruct (Nat.ltb_spec n 8) as [|Hge]; [done|].
  assert (take n (frame p) = frame_header p ++ take (n - 8) p) as ->.
  { unfold frame. rewrite take_app. f_equal. by rewrite take_ge by (cbn; lia). }
  change (take 4 (frame_header p ++ take (n - 8) p)) with (be32 (zlen p)).
  change (drop 8 (frame_header p ++ take (n - 8) p)) with (take (n - 8) p).
  rewrite be32_size by lia. rewrite length_frame in Hn.
  destruct (Z.eqb_spec (zlen p) 0); [lia|]. destruct (Z.ltb_spec maxReplicaFrame (zlen p)); [lia|].
  cbn [orb]. unfold zlen at 1. rewrite length_take_le by lia.
  destruct (Z.ltb_spec (Z.of_nat (n - 8)) (zlen p)); [done|]. unfold zlen in *. lia.
Qed.

Lemma log_image_app rs1 b1 rs2 b2 :
  log_image rs1 b1 -> log_image rs2 b2 -> log_image (rs1 ++ rs2) (b1 ++ b2).
Proof.
  intros (ps1 & H1 & ->) (ps2 & H2 & ->). exists (ps1 ++ ps2).
  split; [by apply Forall2_app|]. by rewrite fmap_app, concat_app.
Qed.

Lemma log_image_single r p : enc r p -> log_image [r] (frame p).
Proof. intros H. exists [p]. split; [constructor; [done|constructor]|]. cbn. by rewrite app_nil_r. Qed.

Lemma log_image_nil : log_image [] [].
Proof. by exists []. Qed.

Lemma log_image_filter rs b (P : WalRecord -> Prop) `{!forall r, Decision (P r)} :
  log_image rs b -> exists b', log_image (filter P rs) b'.
Proof.
  intros (ps & HF & _). induction HF as [|r p rs ps He HF [b' IH]]; [exists []; apply log_image_nil|].
  rewrite filter_cons. case_decide; [|by eauto].
  exists (frame p ++ b'). by apply (log_image_app [r]); [apply log_image_single|].
Qed.

Lemma log_image_enc rs b r : log_image rs b -> r ∈ rs -> exists p, enc r p.
Proof.
  intros (ps & H & _). induction H as [|r' p rs ps He H IH]; [by intros ?%elem_of_nil|].
  intros [->|Hr]%elem_of_cons; eauto.
Qed.

(** ** Reading a log: whole frames and a prefix of one more *)

Definition whole_or_part (rs : list WalRecord) (b : bytes) (r : WalRecord) (p : bytes) (n : nat)
  : list WalRecord * Z :=
  if (length (frame p) <=? n)%nat then (rs ++ [r], -1)
  else if (n =? 0)%nat then (rs, -1) else (rs, 8 + zlen b).

Lemma scan_bytes_header (t : bytes) :
  scan_bytes (replicaHeader ++ t) = scan_loop (8 + length t) t 8 [].
Proof.
  unfold scan_bytes. rewrite length_app. change (length replicaHeader) with 8%nat.
  destruct (Nat.ltb_spec (8 + length t) 8); [lia|].
  change (take 8 (replicaHeader ++ t)) with replicaHeader.
  change (drop 8 (replicaHeader ++ t)) with t. rewrite bool_decide_eq_true_2 by done. done.
Qed.

Lemma scan_bytes_log rs b r p n :
  log_image rs b -> enc r p ->
  scan_bytes (replicaHeader ++ b ++ take n (frame p)) = Ok (whole_or_part rs b r p n).
Proof.
  intros Hi He. rewrite scan_bytes_header. unfold whole_or_part.
  destruct (Nat.leb_spec (length (frame p)) n) as [Hge|Hlt].
  - rewrite take_ge by done.
    destruct (scan_many (8 + length (b ++ frame p)) (rs ++ [r]) (b ++ frame p) [] 8 []) as (f & _ & Hs).
    + apply log_image_app; [done|by apply log_image_single].
    + rewrite app_nil_r. lia.
    + rewrite app_nil_r in Hs. rewrite Hs. apply scan_nothing.
  - destruct (scan_many (8 + length (b ++ take n (frame p))) rs b (take n (frame p)) 8 [] Hi)
      as (f & Hf & ->); [lia|].
    destruct (Nat.eqb_spec n 0) as [->|Hn]; [apply scan_nothing|].
    rewrite length_take_le in Hf by lia. apply scan_part; [apply He|lia|lia].
Qed.

Lemma scan_bytes_image rs b :
  log_image rs b -> scan_bytes (replicaHeader ++ b) = Ok (rs, -1).
Proof.
  intros Hi. rewrite scan_bytes_header.
  destruct (scan_many (8 + length b) rs b [] 8 [] Hi) as (f & _ & Hs); [rewrite app_nil_r; lia|].
  rewrite app_nil_r in Hs. rewrite Hs. apply scan_nothing.
Qed.


(** ** Recovering the fingerprints of one log *)

(** [fp] is the fingerprint of the record with sequence [seq] beyond [after]. *)
Definition covers (after : Z) (rs : list WalRecord) (seq : Z) (fp : string) : Prop :=
  after < seq /\ exists r p, r ∈ rs /\ enc r p /\ r_EdgeSequence r = seq /\ fp = sha256_hex p.

Definition consistent (after : Z) (rs : list WalRecord) : Prop :=
  forall seq fp1 fp2, covers after rs seq fp1 -> covers after rs seq fp2 -> fp1 = fp2.

Definition fps_of (fps : gmap string (gmap Z string)) (e : string) : gmap Z string := default ∅ (fps !! e).

Lemma covers_app after rs1 rs2 seq fp :
  covers after (rs1 ++ rs2) seq fp <-> covers after rs1 seq fp \/ covers after rs2 seq fp.
Proof.
  unfold covers. split.
  - intros (Ha & r & p & [Hr|Hr]%elem_of_app & H); [left|right]; eauto 10.
  - intros [(Ha & r & p & Hr & H)|(Ha & r & p & Hr & H)]; (split; [done|]); exists r, p;
      rewrite elem_of_app; auto.
Qed.

Lemma covers_single after r p seq fp :
  enc r p -> covers after [r] seq fp <-> after < seq /\ r_EdgeSequence r = seq /\ fp = sha256_hex p.
Proof.
  intros He. unfold covers. split.
  - intros (Ha & r' & p' & ->%list_elem_of_singleton & He' & Hs & ->). split_and!; [done..|].
    destruct He as [E _], He' as [E' _]. congruence.
  - intros (Ha & Hs & ->). split; [done|]. exists r, p. by rewrite list_elem_of_singleton.
Qed.

Lemma consistent_app_l after rs1 rs2 : consistent after (rs1 ++ rs2) -> consistent after rs1.
Proof. intros H seq fp1 fp2 H1 H2. apply (H seq); apply covers_app; by left. Qed.

Lemma recover_records_spec released e pre rs fps :
  let after := at_or_zero released e in
  Forall (fun r => r_EdgeID r = e /\ exists p, enc r p) rs ->
  consistent after (pre ++ rs) ->
  (forall seq fp, fps_of fps e !! seq = Some fp <-> covers after pre seq fp) ->
  exists fps', recover_records released rs fps = Ok fps' /\
    (forall e', e' <> e -> fps' !! e' = fps !! e') /\
    (forall seq fp, fps_of fps' e !! seq = Some fp <-> covers after (pre ++ rs) seq fp).
Proof.
  intros after HF. revert pre fps. induction HF as [|r rs [He [p Hp]] HF IH]; intros pre fps HC Hpre.
  - exists fps. rewrite app_nil_r. done.
  - cbn [recover_records]. rewrite He. fold after.
    replace (pre ++ r :: rs) with ((pre ++ [r]) ++ rs) in * by (by rewrite <- app_assoc).
    destruct (Z.leb_spec (r_EdgeSequence r) after) as [Hle|Hgt].
    { apply IH; [done|]. intros seq fp. rewrite Hpre, covers_app, (covers_single _ _ p) by done.
      split; [auto|]. intros [H|(? & ? & ?)]; [done|lia]. }
    rewrite (enc_fingerprint _ _ Hp). cbn [mbind result_mbind].
    set (fps' := <[e := <[r_EdgeSequence r := sha256_hex p]> (default ∅ (fps !! e))]> fps).
    assert (forall seq fp, fps_of fps' e !! seq = Some fp <-> covers after (pre ++ [r]) seq fp) as Hfps'.
    { intros seq fp. unfold fps_of, fps'. rewrite lookup_insert_eq. cbn [from_option id].
      rewrite covers_app, <- Hpre, (covers_single _ _ p) by done. unfold fps_of.
      destruct (decide (seq = r_EdgeSequence r)) as [->|Hne].
      - rewrite lookup_insert_eq. split; [intros [= <-]; auto|]. intros [H|(_ & _ & ->)]; [|done].
        f_equal. apply (consistent_app_l _ _ _ HC (r_EdgeSequence r)); apply covers_app; [right|left].
        + by apply (covers_single _ _ p).
        + by apply Hpre.
      - rewrite lookup_insert_ne by done. split; [auto|]. intros [H|(_ & ? & _)]; congruence. }
    assert (exists fps2, recover_records released rs fps' = Ok fps2 /\
      (forall e', e' <> e -> fps2 !! e' = fps !! e') /\
      (forall seq fp, fps_of fps2 e !! seq = Some fp <-> covers after ((pre ++ [r]) ++ rs) seq fp))
      as (fps2 & Er & Ho & Hc).
    { destruct (IH _ _ HC Hfps') as (fps2 & Er & Ho & Hc). exists fps2. split_and!; [done| |done].
      intros e' Hne. rewrite Ho by done. unfold fps'. by rewrite lookup_insert_ne. }
    exists fps2. split; [|done].
    destruct (default ∅ (fps !! e) !! r_EdgeSequence r) as [existing|] eqn:Ex; [|exact Er].
    rewrite bool_decide_true; [exact Er|].
    apply (consistent_app_l _ _ _ HC (r_EdgeSequence r)); apply covers_app; [left|right].
    + by apply Hpre.
    + by apply (covers_single _ _ p).
Qed.

(** ** File names *)

Lemma app_inj_r (a b s : string) : a +:+ s = b +:+ s -> a = b.
Proof.
  intros E%(f_equal String.rev). rewrite !string_rev_app in E. apply (inj _) in E.
  apply (f_equal String.rev) in E. by rewrite !string_rev_involutive in E.
Qed.

Lemma path_suffix e : has_suffix (path e) ".tfreplica" = true.
Proof. apply has_suffix_app. Qed.
Lemma release_suffix e : has_suffix (releasePath e) ".release.json" = true.
Proof. apply has_suffix_app. Qed.
Lemma path_not_release e : has_suffix (path e) ".release.json" = false.
Proof. unfold path, has_suffix. rewrite string_rev_app. reflexivity. Qed.
Lemma release_not_path e : has_suffix (releasePath e) ".tfreplica" = false.
Proof. unfold releasePath, has_suffix. rewrite string_rev_app. reflexivity. Qed.

Lemma path_ne_release e e' : path e <> releasePath e'.
Proof. intros E. pose proof (path_suffix e) as H. by rewrite E, release_not_path in H. Qed.

(** A name the store does not list. *)
Definition unlisted (name : string) : Prop :=
  has_suffix name ".tfreplica" = false /\ has_suffix name ".release.json" = false.

Lemma tmp_unlisted e : unlisted (releasePath e +:+ ".tmp").
Proof. split; unfold has_suffix; rewrite string_rev_app; reflexivity. Qed.
Lemma compact_unlisted e : unlisted (path e +:+ ".compact").
Proof. split; unfold has_suffix; rewrite string_rev_app; reflexivity. Qed.

Lemma unlisted_ne name e : unlisted name -> name <> path e /\ name <> releasePath e.
Proof. intros [H1 H2]. split; intros ->; [by rewrite path_suffix in H1|by rewrite release_suffix in H2]. Qed.

(** ** The state of a store

    [edges] are the origins in use, whose hashed file names differ; [logs] are the
    records on disk per origin and [rel] the release checkpoints. *)

Context (edges : gset string).
Definition names_distinct : Prop :=
  forall e1 e2, e1 ∈ edges -> e2 ∈ edges -> edge_name e1 = edge_name e2 -> e1 = e2.
Context (Hnames : names_distinct).

Implicit Types (logs : gmap string (list WalRecord)) (rel : gmap string Z) (fs : gmap string file).

Lemma path_inj e1 e2 : e1 ∈ edges -> e2 ∈ edges -> path e1 = path e2 -> e1 = e2.
Proof using Hnames. intros H1 H2 E. apply Hnames; [done..|]. by eapply app_inj_r. Qed.
Lemma release_inj e1 e2 : e1 ∈ edges -> e2 ∈ edges -> releasePath e1 = releasePath e2 -> e1 = e2.
Proof using Hnames. intros H1 H2 E. apply Hnames; [done..|]. by eapply app_inj_r. Qed.

Definition stored (e : string) (rs : list WalRecord) : Prop :=
  e ∈ edges /\ Forall (fun r => r_EdgeID r = e /\ exists p, enc r p) rs.

Definition release_of (e : string) (n : Z) : releaseCheckpoint :=
  mkRelease "telemetryforge-edge-replica-release" 1 e n.

(** The release checkpoints on disk. *)
Record releases_on rel fs : Prop := {
  ro_file e n : rel !! e = Some n ->
    e ∈ edges /\ blank e = false /\ 0 <= n /\
    exists f, fs !! releasePath e = Some f /\ synced f = length (data f) /\
      decode_release (data f) = Some (release_of e n);
  ro_only name : is_Some (fs !! name) -> has_suffix name ".release.json" = true ->
    exists e, is_Some (rel !! e) /\ name = releasePath e;
}.

(** A log file that is complete and on stable storage. *)
Definition log_file (rs : list WalRecord) (f : file) : Prop :=
  exists b, log_image rs b /\ data f = replicaHeader ++ b /\ synced f = length (data f).

Record logs_on logs fs : Prop := {
  lo_file e rs : logs !! e = Some rs ->
    stored e rs /\ exists f, fs !! path e = Some f /\ log_file rs f;
  lo_only name : is_Some (fs !! name) -> has_suffix name ".tfreplica" = true ->
    exists e, is_Some (logs !! e) /\ name = path e;
}.

(** What the memory of an open store says about them. *)
Record memory logs rel (s : Store) : Prop := {
  me_released e : 0 <= at_or_zero (rs_released s) e <= at_or_zero rel e;
  me_edges e n : rs_released s !! e = Some n -> e ∈ edges;
  me_fps e seq fp : fps_of (rs_fingerprints s) e !! seq = Some fp <->
    covers (at_or_zero (rs_released s) e) (default [] (logs !! e)) seq fp;
}.

(** ** Opening *)

Definition cut (t : Z) (f : file) : file :=
  if 0 <=? t then mkFile (take (Z.to_nat t) (data f)) (Nat.min (synced f) (Z.to_nat t)) else f.

(** Scanning the logs of [fs] gives [logs]; recovery leaves [fs']. *)
Record reads logs fs fs' : Prop := {
  rd_file e rs : logs !! e = Some rs ->
    stored e rs /\ exists f t, fs !! path e = Some f /\ scan_bytes (data f) = Ok (rs, t) /\
      fs' !! path e = Some (cut t f);
  rd_only name : is_Some (fs !! name) -> has_suffix name ".tfreplica" = true ->
    exists e, is_Some (logs !! e) /\ name = path e;
  rd_other name : (forall e, is_Some (logs !! e) -> name <> path e) -> fs' !! name = fs !! name;
}.

Lemma run_on_state {S A} (f : S -> A) s d : on_state f (s, d) = (Ok (f s), (s, d)).
Proof. done. Qed.
Lemma run_set_state {S} (f : S -> S) s d : set_state f (s, d) = (Ok tt, (f s, d)).
Proof. done. Qed.
Lemma run_ret {S A} (a : A) (s : S) : mret (M := M S) a s = (Ok a, s).
Proof. done. Qed.

(** The checkpoints still to be loaded are [names]. *)
Lemma load_releases_run rel fs c names s :
  releases_on rel fs -> NoDup names ->
  (forall name, name ∈ names -> exists e, is_Some (rel !! e) /\ name = releasePath e) ->
  (forall e, at_or_zero (rs_released s) e =
     if decide (releasePath e ∈ names /\ is_Some (rel !! e)) then 0 else at_or_zero rel e) ->
  (forall e n, rs_released s !! e = Some n -> e ∈ edges) ->
  exists m, load_releases names (s, mkDisk fs [] c) = (Ok tt, (set_released m s, mkDisk fs [] c)) /\
    (forall e, at_or_zero m e = at_or_zero rel e) /\ (forall e n, m !! e = Some n -> e ∈ edges).
Proof using Hnames.
  intros HR. revert s. induction names as [|name names IH]; intros s ND Hn Hs Hd.
  - exists (rs_released s). split; [by destruct s|]. split; [|done]. intros e. rewrite Hs.
    rewrite decide_False; [done|]. by intros [?%elem_of_nil _].
  - apply NoDup_cons in ND as [Hnn ND]. destruct (Hn name) as (e & [n Hen] & ->); [by left|].
    destruct (ro_file _ _ HR _ _ Hen) as (Hedge & Hb & Hn0 & f & Hf & _ & Hdec). cbn [load_releases].
    rewrite (run_bind _ _ _ _ _ (run_on_disk _ _ _ _ _ (os_read_free _ _ _ _ Hf))), Hdec.
    cbn [release_of rl_Format rl_FormatVersion rl_EdgeID rl_ReleasedThrough].
    rewrite bool_decide_true, Hb by done. cbn [negb Z.eqb Pos.eqb orb].
    rewrite (run_bind _ _ _ _ _ (run_on_state _ _ _)).
    assert (at_or_zero (rs_released s) e = 0) as E0.
    { rewrite Hs, decide_True; [done|]. split; [by left|eauto]. }
    assert (at_or_zero rel e = n) as En by (unfold at_or_zero; by rewrite Hen).
    assert (forall s', (forall e', at_or_zero (rs_released s') e' =
      if decide (e' = e) then n else at_or_zero (rs_released s) e') ->
      (forall e n, rs_released s' !! e = Some n -> e ∈ edges) ->
      exists m, load_releases names (s', mkDisk fs [] c) = (Ok tt, (set_released m s', mkDisk fs [] c)) /\
      (forall e, at_or_zero m e = at_or_zero rel e) /\ (forall e n, m !! e = Some n -> e ∈ edges)) as Hgo.
    { intros s' Hs' Hd'. apply IH; [done| | |done].
      - intros name' Hin. apply Hn. by right.
      - intros e'. rewrite Hs'. destruct (decide (e' = e)) as [->|Hne].
        + rewrite decide_False; [done|]. by intros [? _].
        + rewrite Hs. destruct (decide (releasePath e' ∈ names /\ is_Some (rel !! e'))) as [[Hi Hi']|Hi].
          * rewrite decide_True; [done|]. split; [by right|done].
          * rewrite decide_False; [done|]. intros [[Heq|Hin]%elem_of_cons [n' Hn']]; apply Hi; [|eauto].
            apply release_inj in Heq; [done| |done]. by apply (ro_file _ _ HR _ _ Hn'). }
    rewrite E0. destruct (Z.ltb_spec 0 n) as [Hlt|Hge].
    + rewrite (run_bind _ _ _ _ _ (run_set_state _ _ _)).
      destruct (Hgo (set_released (<[e:=n]> (rs_released s)) s)) as (m & Hm & H).
      * intros e'. unfold at_or_zero. cbn [set_released rs_released]. case_decide as E.
        -- by rewrite E, lookup_insert_eq.
        -- by rewrite lookup_insert_ne.
      * cbn [set_released rs_released]. intros e' n' [[<- _]|[_ E]]%lookup_insert_Some; [done|by eapply Hd].
      * exists m. split; [|done]. exact Hm.
    + rewrite (run_bind _ _ _ _ _ (run_ret tt _)). apply Hgo; [|done].
      intros e'. case_decide as E; [|done]. rewrite E, E0. lia.
Qed.

(** Scanning and cutting one log. *)
Lemma recoverFile_run e rs t f s fs c fps' :
  fs !! path e = Some f -> scan_bytes (data f) = Ok (rs, t) ->
  recover_records (rs_released s) rs (rs_fingerprints s) = Ok fps' ->
  recoverFile (path e) (s, mkDisk fs [] c) =
    (Ok tt, (set_fingerprints fps' s, mkDisk (<[path e := cut t f]> fs) [] c)).
Proof.
  intros Hf Hs Hr. unfold recoverFile, scanReplicaFile.
  assert ((os_read (path e) ≫= fun d => lift (scan_bytes d)) (mkDisk fs [] c) =
          (Ok (rs, t), mkDisk fs [] c)) as E.
  { rewrite (run_bind _ _ _ _ _ (os_read_free _ _ _ _ Hf)). unfold lift. by rewrite Hs. }
  rewrite (run_bind _ _ _ _ _ (run_on_disk _ _ _ _ _ E)). cbv beta iota.
  assert ((if 0 <=? t then on_disk (os_truncate (path e) t) else mret tt) (s, mkDisk fs [] c) =
          (Ok tt, (s, mkDisk (<[path e := cut t f]> fs) [] c))) as Ec.
  { unfold cut. destruct (0 <=? t).
    - apply run_on_disk. by apply os_truncate_free.
    - rewrite insert_id by done. done. }
  rewrite (run_bind _ _ _ _ _ Ec), !(run_bind _ _ _ _ _ (run_on_state _ _ _)).
  unfold lift at 1. rewrite Hr. done.
Qed.

(** The store after the logs not in [names] were recovered. *)
Definition recovered logs rel fs fs' (names : list string) (s : Store) (fsc : gmap string file) : Prop :=
  (forall e rs, logs !! e = Some rs ->
     if decide (path e ∈ names)
     then fps_of (rs_fingerprints s) e = ∅ /\ fsc !! path e = fs !! path e
     else (forall seq fp, fps_of (rs_fingerprints s) e !! seq = Some fp <->
             covers (at_or_zero rel e) rs seq fp) /\ fsc !! path e = fs' !! path e) /\
  (forall e, logs !! e = None -> fps_of (rs_fingerprints s) e = ∅) /\
  (forall name, (forall e, is_Some (logs !! e) -> name <> path e) -> fsc !! name = fs !! name).

Lemma covers_nil after seq fp : ~ covers after [] seq fp.
Proof. intros (_ & r & p & []%elem_of_nil & _). Qed.

Lemma recover_files_run logs rel fs fs' c names s fsc :
  reads logs fs fs' -> (forall e rs, logs !! e = Some rs -> consistent (at_or_zero rel e) rs) ->
  (forall e, at_or_zero (rs_released s) e = at_or_zero rel e) ->
  NoDup names -> (forall name, name ∈ names -> exists e, is_Some (logs !! e) /\ name = path e) ->
  recovered logs rel fs fs' names s fsc ->
  exists s' fsc', recover_files names (s, mkDisk fsc [] c) = (Ok tt, (s', mkDisk fsc' [] c)) /\
    recovered logs rel fs fs' [] s' fsc' /\ rs_released s' = rs_released s /\ rs_closed s' = rs_closed s.
Proof using Hnames.
  intros RD HC. revert s fsc. induction names as [|name names IH]; intros s fsc Hrel ND Hn HP.
  - by exists s, fsc.
  - apply NoDup_cons in ND as [Hnn ND]. destruct (Hn name) as (e & [rs He] & ->); [by left|].
    destruct (rd_file _ _ _ RD _ _ He) as ([Hedge HF] & f & t & Hf & Hs & Hf').
    destruct HP as (HP1 & HP2 & HP3). pose proof (HP1 e rs He) as Hcur.
    rewrite decide_True in Hcur by by left. destruct Hcur as [Hempty Hsame].
    destruct (recover_records_spec (rs_released s) e [] rs (rs_fingerprints s)) as (fps' & Er & Ho & Hc).
    { exact HF. } { rewrite Hrel. by apply HC. }
    { intros seq fp. rewrite Hempty, lookup_empty. split; [done|]. intros []%covers_nil. }
    rewrite Hf in Hsame. cbn [recover_files].
    rewrite (run_bind _ _ _ _ _ (recoverFile_run _ _ _ _ _ _ c _ Hsame Hs Er)).
    rewrite (run_bind _ _ _ _ _ (run_on_disk _ _ _ _ _ (os_stat_free _ _ _ c (lookup_insert_eq _ _ _)))).
    rewrite (run_bind _ _ _ _ _ (run_set_state _ _ _)).
    edestruct IH as (s' & fsc' & E & HP' & Hr' & Hcl); [| | |split; [|split]|exists s', fsc'; split; [exact E|]].
    + exact Hrel.
    + exact ND.
    + intros name Hin. apply Hn. by right.
    + intros e' rs' He'. cbn [set_total set_fingerprints rs_fingerprints].
      destruct (decide (e' = e)) as [->|Hne].
      * assert (rs' = rs) as -> by congruence. rewrite decide_False by done.
        rewrite lookup_insert_eq, Hf'. split; [|done]. intros seq fp. by rewrite Hc, Hrel.
      * assert (path e' <> path e) as Hpe.
        { intros E'. apply Hne, path_inj; [|done|done]. by apply (rd_file _ _ _ RD _ _ He'). }
        specialize (HP1 _ _ He'). unfold fps_of in *. rewrite Ho, lookup_insert_ne by done.
        destruct (decide (path e' ∈ names)) as [Hin|Hin].
        -- rewrite decide_True in HP1 by by right. exact HP1.
        -- rewrite decide_False in HP1; [exact HP1|]. by intros [?|?]%elem_of_cons.
    + intros e' He'. cbn [set_total set_fingerprints rs_fingerprints]. unfold fps_of.
      rewrite Ho by congruence. by apply HP2.
    + intros name Hname. rewrite lookup_insert_ne; [by apply HP3|]. intros <-. eapply Hname; eauto.
    + split; [exact HP'|]. split; [exact Hr'|exact Hcl].
Qed.

(** A fault-free opening succeeds and gives a store that agrees with the disk. *)
Lemma open_run logs rel fs fs' c config :
  reads logs fs fs' -> releases_on rel fs ->
  (forall e rs, logs !! e = Some rs -> consistent (at_or_zero rel e) rs) ->
  exists s, OpenStoreWithConfig config (mkDisk fs [] c) = (Ok s, mkDisk fs' [] c) /\
    memory logs rel s /\ (forall e, at_or_zero (rs_released s) e = at_or_zero rel e) /\ rs_closed s = false.
Proof using Hnames.
  intros RD RO HC. unfold OpenStoreWithConfig. cbv zeta.
  match goal with |- context [mkStore ?dir ?mb 0 ∅ ∅ ∅ false] => set (s0 := mkStore dir mb 0 ∅ ∅ ∅ false) end.
  set (d := mkDisk fs [] c).
  destruct (load_releases_run rel fs c (glob ".release.json" fs) s0 RO) as (m & E1 & Hm & Hme).
  { apply NoDup_glob. }
  { intros name [H1 H2]%elem_of_glob. by apply (ro_only _ _ RO). }
  { intros e. cbn [s0 rs_released]. unfold at_or_zero at 1. rewrite lookup_empty. cbn [from_option].
    case_decide as Hd; [done|]. unfold at_or_zero. destruct (rel !! e) as [n|] eqn:E; [|done].
    exfalso. apply Hd. split; [|eauto]. destruct (ro_file _ _ RO _ _ E) as (_ & _ & _ & f & Hf & _).
    apply elem_of_glob. split; [by rewrite Hf|apply release_suffix]. }
  { intros e n. cbn [s0 rs_released]. by rewrite lookup_empty. }
  destruct (recover_files_run logs rel fs fs' c (glob ".tfreplica" fs) (set_released m s0) fs)
    as (s & fsc & E2 & (HP1 & HP2 & HP3) & Hrel & Hcl); [done|done| | | | |].
  { intros e. apply Hm. }
  { apply NoDup_glob. }
  { intros name [H1 H2]%elem_of_glob. by apply (rd_only _ _ _ RD). }
  { split_and!.
    - intros e rs He. destruct (rd_file _ _ _ RD _ _ He) as (_ & f & t & Hf & _).
      rewrite decide_True; [|apply elem_of_glob; split; [by rewrite Hf|apply path_suffix]].
      split; [|done]. cbn [s0 set_released rs_fingerprints]. unfold fps_of. by rewrite lookup_empty.
    - intros e _. cbn [s0 set_released rs_fingerprints]. unfold fps_of. by rewrite lookup_empty.
    - done. }
  assert (fsc = fs') as ->.
  { apply map_eq. intros name.
    destruct (decide (name ∈ path <$> elements (dom logs))) as [(e & -> & He)%list_elem_of_fmap|Hno];
      [apply elem_of_elements, elem_of_dom in He as [rs He]|].
    - specialize (HP1 _ _ He). rewrite decide_False in HP1 by (by intros ?%elem_of_nil). apply HP1.
    - assert (forall e, is_Some (logs !! e) -> name <> path e) as Hne.
      { intros e He ->. apply Hno, list_elem_of_fmap_2. by apply elem_of_elements, elem_of_dom. }
      by rewrite (rd_other _ _ _ RD), HP3. }
  exists s. split.
  - rewrite (run_bind _ _ (s0, d) tt (s0, d)) by done.
    unfold loadReleaseCheckpoints. rewrite (run_bind _ _ (s0, d) tt (set_released m s0, d)).
    + rewrite (run_bind _ _ (set_released m s0, d) d (set_released m s0, d)) by done. unfold d. cbn [files]. by rewrite E2.
    + rewrite (run_bind _ _ (s0, d) d (s0, d)) by done. exact E1.
  - split; [|split; [intros e; rewrite Hrel; apply Hm|by rewrite Hcl]]. constructor; rewrite ?Hrel.
    + intros e. cbn [set_released rs_released]. rewrite Hm. unfold at_or_zero.
      destruct (rel !! e) as [n|] eqn:E; cbn; [|lia]. apply (ro_file _ _ RO) in E. lia.
    + intros e n. apply Hme.
    + intros e seq fp. cbn [set_released rs_released]. rewrite Hm.
      destruct (logs !! e) as [rs|] eqn:E; cbn [from_option id].
      * specialize (HP1 _ _ E). rewrite decide_False in HP1 by (by intros ?%elem_of_nil). apply HP1.
      * rewrite HP2, lookup_empty by done. split; [done|]. intros []%covers_nil.
Qed.

(** ** Crashes *)

Lemma crash_lookup d d' name :
  crash d d' ->
  match files d !! name, files d' !! name with
  | Some f, Some f' => crash_file f f'
  | None, None => True
  | _, _ => False
  end.
Proof. intros H. specialize (H name). by destruct (files d !! name), (files d' !! name). Qed.

Lemma crash_is_Some d d' name : crash d d' -> is_Some (files d' !! name) -> is_Some (files d !! name).
Proof.
  intros H%(crash_lookup _ _ name) [f Hf]. rewrite Hf in H. by destruct (files d !! name).
Qed.

(** A file that is entirely on stable storage survives as it is. *)
Lemma log_crash_synced d d' name f :
  crash d d' -> files d !! name = Some f -> synced f = length (data f) -> files d' !! name = Some f.
Proof.
  intros H%(crash_lookup _ _ name) Hf Hs. rewrite Hf in H.
  destruct (files d' !! name) as [f'|]; [|done]. destruct H as (n & Hn & ->).
  assert (n = length (data f)) as -> by lia. rewrite firstn_all, <- Hs. by destruct f.
Qed.

Lemma log_file_synced rs f : log_file rs f -> synced f = length (data f).
Proof. by intros (b & _ & _ & H). Qed.

Lemma crash_releases rel d d' : crash d d' -> releases_on rel (files d) -> releases_on rel (files d').
Proof.
  intros C [H1 H2]. constructor.
  - intros e n He. destruct (H1 e n He) as (? & ? & ? & f & Hf & Hs & Hd). split_and!; [done..|].
    exists f. split; [|done]. by eapply log_crash_synced.
  - intros name Hs. apply H2. by eapply crash_is_Some.
Qed.

Lemma crash_logs logs d d' : crash d d' -> logs_on logs (files d) -> logs_on logs (files d').
Proof.
  intros C [H1 H2]. constructor.
  - intros e rs He. destruct (H1 e rs He) as (? & f & Hf & Hl). split; [done|]. exists f.
    split; [|done]. eapply log_crash_synced; [done..|]. by eapply log_file_synced.
  - intros name Hs. apply H2. by eapply crash_is_Some.
Qed.

(** Complete logs are read back as they are. *)
Lemma reads_clean logs fs : logs_on logs fs -> reads logs fs fs.
Proof.
  intros [H1 H2]. constructor; [|done|done].
  intros e rs He. destruct (H1 e rs He) as (Hst & f & Hf & b & Hi & Hd & _). split; [done|].
  exists f, (-1). rewrite Hd. split_and!; [done|by apply scan_bytes_image|done].
Qed.

(** The log of [e] ends in a prefix of one more frame, its first part on stable
    storage; the other logs are complete. *)
Record torn_on logs (e : string) (rs : list WalRecord) (r : WalRecord) (p b : bytes) fs : Prop := {
  to_log : logs !! e = Some rs;
  to_image : log_image rs b;
  to_enc : enc r p;
  to_edge : r_EdgeID r = e;
  to_file : exists f n, fs !! path e = Some f /\ data f = replicaHeader ++ b ++ take n (frame p) /\
    (8 + length b <= synced f)%nat;
  to_rest : logs_on logs (<[path e := mkFile (replicaHeader ++ b) (8 + length b)]> fs);
}.

Lemma crash_torn logs e rs r p b d d' :
  crash d d' -> torn_on logs e rs r p b (files d) -> torn_on logs e rs r p b (files d').
Proof.
  intros C [H1 H2 H3 H4 (f & n & Hf & Hd & Hs) [L1 L2]]. constructor; [done..| |].
  - pose proof (crash_lookup _ _ (path e) C) as Hc. rewrite Hf in Hc.
    destruct (files d' !! path e) as [f'|]; [|done]. destruct Hc as (m & Hm & ->).
    eexists _, (Nat.min (m - (8 + length b)) n). split; [done|]. cbn [data synced]. split; [|lia].
    rewrite Hd, app_assoc, take_app, length_app, take_ge by (rewrite length_app; cbn; lia).
    rewrite <- app_assoc. do 2 f_equal. rewrite take_take. done.
  - constructor.
    + intros e' rs' He'. destruct (L1 e' rs' He') as (Hst & f' & Hf' & Hl'). split; [done|]. exists f'.
      split; [|done]. apply lookup_insert_Some in Hf' as [[E <-]|[E Hf']].
      * by rewrite E, lookup_insert_eq.
      * rewrite lookup_insert_ne by done. eapply log_crash_synced; [done..|]. by eapply log_file_synced.
    + intros name Hn. apply L2. destruct (decide (name = path e)) as [->|Hne].
      * by rewrite lookup_insert_eq.
      * rewrite lookup_insert_ne in Hn |- * by done. by eapply crash_is_Some.
Qed.

(** Reading it gives the complete records, with or without the last one, and
    recovery leaves complete logs. *)
Lemma reads_torn logs e rs r p b d d' :
  crash d d' -> torn_on logs e rs r p b (files d) ->
  exists logs' fs', reads logs' (files d') fs' /\ logs_on logs' fs' /\
    (logs' = logs \/ logs' = <[e := rs ++ [r]]> logs) /\
    (forall name, name <> path e -> fs' !! name = files d' !! name).
Proof using Hnames.
  intros C T. pose proof (crash_torn _ _ _ _ _ _ _ _ C T) as [H1 H2 H3 H4 (f & n & Hf & Hd & Hs) LO].
  assert (synced f = length (data f)) as Hall.
  { pose proof (crash_lookup _ _ (path e) C) as Hc. rewrite Hf in Hc.
    destruct (files d !! path e); [|done]. destruct Hc as (m & Hm & ->). cbn. rewrite length_take. lia. }
  pose proof (scan_bytes_log rs b r p n H2 H3) as HS. rewrite <- Hd in HS. unfold whole_or_part in HS.
  destruct (lo_file _ _ LO _ _ H1) as ([Hedge Hrs] & _).
  assert (forall rs' t b', scan_bytes (data f) = Ok (rs', t) -> (rs' = rs \/ rs' = rs ++ [r]) ->
    log_image rs' b' -> data (cut t f) = replicaHeader ++ b' ->
    reads (<[e := rs']> logs) (files d') (<[path e := cut t f]> (files d')) /\
    logs_on (<[e := rs']> logs) (<[path e := cut t f]> (files d'))) as Hgo.
  { intros rs' t b' Hsc Hor Hi Hcut.
    assert (stored e rs') as Hst.
    { split; [done|]. destruct Hor as [-> | ->]; [done|]. apply Forall_app. split; [done|].
      constructor; [|constructor]. eauto. }
    assert (log_file rs' (cut t f)) as Hlf.
    { exists b'. split_and!; [done..|]. unfold cut in *. destruct (0 <=? t); [|done].
      cbn [data synced]. rewrite length_take, Hall. lia. }
    assert (forall e', is_Some (<[e := rs']> logs !! e') <-> is_Some (logs !! e')) as Hdom.
    { intros e'. destruct (decide (e = e')) as [<-|Hne]; [|by rewrite lookup_insert_ne].
      rewrite lookup_insert_eq, H1. split; eauto. }
    assert (forall name, is_Some (files d' !! name) -> has_suffix name ".tfreplica" = true ->
      exists e', is_Some (<[e := rs']> logs !! e') /\ name = path e') as Honly.
    { intros name Hn Hsu. destruct (lo_only _ _ LO name) as (e' & He' & ->); [|done|].
      - destruct (decide (name = path e)) as [->|Hne]; [by rewrite lookup_insert_eq|].
        by rewrite lookup_insert_ne.
      - exists e'. by rewrite Hdom. }
    split; constructor.
    - intros e' rs2 [[<- <-]|[Hne He']]%lookup_insert_Some.
      + split; [done|]. exists f, t. by rewrite lookup_insert_eq.
      + destruct (lo_file _ _ LO _ _ He') as (Hst' & f' & Hf' & b2 & Hi2 & Hd2 & _). split; [done|].
        assert (path e <> path e') as Hp by (intros E; apply Hne, path_inj; [done|apply Hst'|done]).
        rewrite lookup_insert_ne in Hf' by done. exists f', (-1). rewrite lookup_insert_ne by done.
        rewrite Hd2. split_and!; [done|by apply scan_bytes_image|done].
    - done.
    - intros name Hn. rewrite lookup_insert_ne; [done|]. intros <-.
      apply (Hn e); [|done]. by rewrite Hdom, H1.
    - intros e' rs2 [[<- <-]|[Hne He']]%lookup_insert_Some.
      + split; [done|]. exists (cut t f). by rewrite lookup_insert_eq.
      + destruct (lo_file _ _ LO _ _ He') as (Hst' & f' & Hf' & Hl'). split; [done|].
        assert (path e <> path e') as Hp by (intros E; apply Hne, path_inj; [done|apply Hst'|done]).
        rewrite lookup_insert_ne in Hf' by done. exists f'. by rewrite lookup_insert_ne.
    - intros name Hn. apply Honly. destruct (decide (name = path e)) as [->|Hne]; [by rewrite Hf|].
      by rewrite lookup_insert_ne in Hn. }
  destruct (Nat.leb_spec (length (frame p)) n) as [Hge|Hlt].
  - destruct (Hgo (rs ++ [r]) (-1) (b ++ frame p)) as [R L]; [done|by right| | |].
    + apply log_image_app; [done|by apply log_image_single].
    + unfold cut. cbn [Z.leb Z.compare]. by rewrite Hd, take_ge.
    + exists (<[e := rs ++ [r]]> logs), (<[path e := cut (-1) f]> (files d')). split_and!; [done|done|by right|].
      intros name Hne. by rewrite lookup_insert_ne.
  - destruct (Hgo rs (if (n =? 0)%nat then -1 else 8 + zlen b) b) as [R L]; [|by left|done| |].
    + by destruct (n =? 0)%nat.
    + unfold cut. destruct (Nat.eqb_spec n 0) as [->|Hn]; cbn [Z.leb Z.compare].
      * by rewrite Hd, take_0, app_nil_r.
      * destruct (Z.leb_spec 0 (8 + zlen b)); [|unfold zlen in *; lia]. cbn [data].
        replace (Z.to_nat (8 + zlen b)) with (length (replicaHeader ++ b)) by (rewrite length_app; unfold zlen; cbn; lia).
        by rewrite Hd, app_assoc, take_app_length.
    + rewrite insert_id in R, L by done. eexists logs, _. split_and!; [exact R|exact L|by left|].
      intros name Hne. by rewrite lookup_insert_ne.
Qed.

(** ** Operations under any schedule of faults *)

Record store_inv logs rel (s : Store) fs : Prop := {
  iv_logs : logs_on logs fs;
  iv_releases : releases_on rel fs;
  iv_memory : memory logs rel s;
}.

(** [r'] has the sequence and the fingerprint of [r]. *)
Definition copy_of (r r' : WalRecord) : Prop :=
  r_EdgeSequence r' = r_EdgeSequence r /\
  exists p p', enc r p /\ enc r' p' /\ sha256_hex p' = sha256_hex p.

(** A record is held: a copy is on disk, or its origin no longer needs it. *)
Definition held logs (released : gmap string Z) (r : WalRecord) : Prop :=
  r_EdgeSequence r <= at_or_zero released (r_EdgeID r) \/
  exists r', r' ∈ default [] (logs !! r_EdgeID r) /\ copy_of r r'.

Definition listed (name : string) : Prop :=
  has_suffix name ".tfreplica" = true \/ has_suffix name ".release.json" = true.

Lemma listed_path e : listed (path e).
Proof. left. apply path_suffix. Qed.
Lemma listed_release e : listed (releasePath e).
Proof. right. apply release_suffix. Qed.
Lemma unlisted_not name : unlisted name -> ~ listed name.
Proof. intros [H1 H2] [H|H]; congruence. Qed.

(** Changing the log of one edge. *)
Lemma logs_on_insert logs fs fs' e rs f :
  logs_on logs fs -> stored e rs -> log_file rs f -> fs' !! path e = Some f ->
  (forall name, listed name -> name <> path e -> fs' !! name = fs !! name) ->
  logs_on (<[e := rs]> logs) fs'.
Proof using Hnames.
  intros [H1 H2] Hst Hl Hf Hsame. constructor.
  - intros e' rs' [[<- <-]|[Hne He']]%lookup_insert_Some; [by eauto|].
    destruct (H1 _ _ He') as (Hst' & f' & Hf' & Hl'). split; [done|]. exists f'. split; [|done].
    rewrite Hsame; [done|apply listed_path|]. intros E. apply Hne. symmetry.
    apply path_inj; [apply Hst'|apply Hst|done].
  - intros name Hn Hsu. destruct (decide (name = path e)) as [->|Hne].
    + exists e. by rewrite lookup_insert_eq.
    + rewrite Hsame in Hn by (done || by left). destruct (H2 _ Hn Hsu) as (e' & He' & ->).
      exists e'. split; [|done]. destruct (decide (e = e')) as [->|?]; [by rewrite lookup_insert_eq|].
      by rewrite lookup_insert_ne.
Qed.

Lemma logs_on_delete logs fs fs' e :
  logs_on logs fs -> e ∈ edges -> fs' !! path e = None ->
  (forall name, listed name -> name <> path e -> fs' !! name = fs !! name) ->
  logs_on (delete e logs) fs'.
Proof using Hnames.
  intros [H1 H2] Hedge Hf Hsame. constructor.
  - intros e' rs' [Hne He']%lookup_delete_Some.
    destruct (H1 _ _ He') as (Hst' & f' & Hf' & Hl'). split; [done|]. exists f'. split; [|done].
    rewrite Hsame; [done|apply listed_path|]. intros E. apply Hne. symmetry.
    apply path_inj; [apply Hst'|done|done].
  - intros name Hn Hsu. destruct (decide (name = path e)) as [->|Hne].
    + rewrite Hf in Hn. by destruct Hn.
    + rewrite Hsame in Hn by (done || by left). destruct (H2 _ Hn Hsu) as (e' & He' & ->).
      exists e'. split; [|done]. rewrite lookup_delete_ne; [done|]. by intros ->.
Qed.

Lemma logs_on_same logs fs fs' :
  logs_on logs fs -> (forall name, listed name -> fs' !! name = fs !! name) -> logs_on logs fs'.
Proof.
  intros [H1 H2] Hsame. constructor.
  - intros e rs He. destruct (H1 _ _ He) as (Hst & f & Hf & Hl). split; [done|]. exists f.
    rewrite Hsame; [done|apply listed_path].
  - intros name Hn Hsu. apply H2; [|done]. by rewrite <- Hsame by by left.
Qed.

Lemma releases_on_same rel fs fs' :
  releases_on rel fs ->
  (forall name, has_suffix name ".release.json" = true -> fs' !! name = fs !! name) -> releases_on rel fs'.
Proof.
  intros [H1 H2] Hsame. constructor.
  - intros e n He. destruct (H1 _ _ He) as (? & ? & ? & f & Hf & Hd). split_and!; [done..|]. exists f.
    rewrite Hsame; [done|apply release_suffix].
  - intros name Hn Hsu. apply H2; [|done]. by rewrite <- Hsame.
Qed.

Lemma log_exists logs fs e :
  logs_on logs fs -> e ∈ edges -> is_Some (fs !! path e) <-> is_Some (logs !! e).
Proof using Hnames.
  intros L He. split.
  - intros H. destruct (lo_only _ _ L _ H (path_suffix e)) as (e' & [rs He'] & E).
    apply path_inj in E as ->; [|done|by apply (lo_file _ _ L _ _ He')]. eauto.
  - intros [rs Hrs]. destruct (lo_file _ _ L _ _ Hrs) as (_ & f & Hf & _). eauto.
Qed.

(** Dropping released records from a log does not change what is remembered. *)
Lemma covers_filter after rs seq fp :
  covers after (filter (fun r => after < r_EdgeSequence r) rs) seq fp <-> covers after rs seq fp.
Proof.
  unfold covers. split; intros (Ha & r & p & Hr & He & Hs & Hf); (split; [done|]); exists r, p.
  - apply list_elem_of_filter in Hr as [_ Hr]. done.
  - rewrite list_elem_of_filter. split_and!; [lia|done..].
Qed.

(** [logs'] is [logs] with the released records of edge [e] dropped. *)
Definition compacted_logs logs logs' (s : Store) (e : string) : Prop :=
  (forall e', e' <> e -> logs' !! e' = logs !! e') /\
  default [] (logs' !! e) =
    filter (fun r => at_or_zero (rs_released s) e < r_EdgeSequence r) (default [] (logs !! e)).

Lemma compacted_memory logs logs' rel s e :
  compacted_logs logs logs' s e -> memory logs rel s -> memory logs' rel s.
Proof.
  intros [Ho He] [M1 M2 M3]. constructor; [done..|]. intros e' seq fp. rewrite M3.
  destruct (decide (e' = e)) as [->|Hne]; [|by rewrite Ho]. by rewrite He, covers_filter.
Qed.

Lemma compacted_held logs logs' s e r :
  compacted_logs logs logs' s e -> held logs (rs_released s) r -> held logs' (rs_released s) r.
Proof.
  intros [Ho He] [H|(r' & H & Hc)]; [by left|]. unfold held.
  destruct (decide (r_EdgeID r = e)) as [E|Hne]; [|right; exists r'; by rewrite Ho].
  destruct (Z.le_gt_cases (r_EdgeSequence r) (at_or_zero (rs_released s) (r_EdgeID r))); [by left|right].
  exists r'. split; [|done]. destruct Hc as [Hs _]. rewrite E in *. rewrite He, list_elem_of_filter.
  split; [lia|done].
Qed.

Lemma wp_os_stat_missing name Q d :
  files d !! name = None ->
  (forall e d', files d' = files d -> e = ErrIO \/ e = ErrNotExist -> Q (Err e) d') ->
  wp (os_stat name) Q d.
Proof.
  intros Hp H. unfold os_stat. wp_steps. apply wp_syscall_err. intros r d' [-> | ->] Hf _; wp_steps.
  - rewrite Hf, Hp. wp_steps. apply H; auto.
  - apply H; auto.
Qed.

Lemma wp_or_close {A} name (m : M disk A) Q d :
  wp m (fun r d' => match r with
                    | Ok a => Q (Ok a) d'
                    | Err e => forall d'', files d'' = files d' -> Q (Err e) d''
                    end) d ->
  wp (or_close name m) Q d.
Proof.
  intros H. unfold or_close. wp_steps. eapply wp_mono; [exact H|]. intros [a|e] d' HQ; [done|]. wp_steps.
  apply wp_os_close. intros r d'' Hf _. wp_steps. by apply HQ.
Qed.

Lemma wp_closing {A} name (m : M disk A) Q d :
  wp m (fun r d' => forall d'', files d'' = files d' -> Q r d'') d -> wp (closing name m) Q d.
Proof.
  unfold closing. intros H. unfold wp in H |- *. destruct (m d) as [r d1]. cbn [fst snd] in H.
  assert (wp (attempt (os_close name)) (fun _ d2 => files d2 = files d1) d1) as Hc.
  { wp_steps. apply wp_os_close. by intros. }
  unfold wp in Hc. destruct (attempt (os_close name) d1) as [x d2]. apply H. exact Hc.
Qed.

Lemma wp_syncDirectory Q d :
  (forall r d', files d' = files d -> Q r d') -> wp syncDirectory Q d.
Proof.
  intros H. unfold syncDirectory. wp_steps. apply wp_syscall. intros [[]|e] d1 Hf _; wp_steps; [|by apply H].
  apply wp_syscall. intros r d2 Hf2 _. apply H. congruence.
Qed.

(** Writing [p] to [name], other files untouched; everything is there on success. *)
Definition extended {A} (name : string) (f : file) (p : bytes) (d : disk) (r : result A) (d' : disk) : Prop :=
  exists n, files d' = <[name := append_data (take n p) f]> (files d) /\
    (is_ok r = true -> (length p <= n)%nat).

Lemma wp_write_extended name f p Q d :
  files d !! name = Some f -> (forall r d', extended name f p d r d' -> Q r d') ->
  wp (write_full name p) Q d.
Proof.
  intros Hf H. eapply wp_write_full; [done|]. intros r d' (_ & n & Hn & Hd & Hok). apply H.
  exists n. split; [done|]. intros E. specialize (Hok E). lia.
Qed.

Lemma append_append p q n f :
  append_data (take n q) (append_data p f) = append_data (take (length p + n) (p ++ q)) f.
Proof.
  unfold append_data. cbn [data synced]. f_equal. rewrite <- app_assoc. f_equal.
  rewrite take_app, (take_ge p) by lia. do 2 f_equal. lia.
Qed.

(** A frame header and its payload, in two writes. *)
Lemma extended_app {A B} name f p q d (a : A) d1 (r : result B) d2 :
  extended name f p d (Ok a) d1 -> extended name (append_data p f) q d1 r d2 ->
  extended name f (p ++ q) d r d2.
Proof.
  intros (n & Hd1 & Hn) (m & Hd2 & Hm). specialize (Hn eq_refl). rewrite take_ge in Hd1 by done.
  exists (length p + m)%nat. split.
  - by rewrite Hd2, Hd1, insert_insert_eq, append_append.
  - intros E. specialize (Hm E). rewrite length_app. lia.
Qed.

Lemma extended_fail {A B} name f p q d (e e' : error) d1 :
  extended (A := A) name f p d (Err e) d1 -> extended (A := B) name f (p ++ q) d (Err e') d1.
Proof.
  intros (n & Hd1 & _). exists (Nat.min n (length p)). split; [|done]. rewrite Hd1. do 2 f_equal.
  rewrite take_app_le by lia. destruct (Nat.min_spec n (length p)) as [[? ->]|[? ->]]; [done|].
  rewrite !take_ge by lia. done.
Qed.

Lemma extended_ok {A} name f p d (a : A) d1 :
  extended name f p d (Ok a) d1 -> files d1 = <[name := append_data p f]> (files d).
Proof. intros (n & -> & H). by rewrite take_ge by by apply H. Qed.

Lemma wp_write_frames name f rs Q d :
  Forall (fun r => exists p, enc r p) rs -> files d !! name = Some f ->
  (forall r d' b, log_image rs b -> extended name f b d r d' -> Q r d') ->
  wp (write_frames name rs) Q d.
Proof.
  intros HF. revert f Q d. induction HF as [|r rs [p Hp] HF IH]; intros f Q d Hf H; cbn [write_frames].
  - wp_steps. eapply (H _ _ []); [apply log_image_nil|]. exists 0%nat. split; [|cbn; lia].
    unfold append_data. cbn [take]. rewrite app_nil_r, insert_id; [done|]. by destruct f.
  - rewrite (enc_fingerprint _ _ Hp). wp_steps.
    assert (exists b0, log_image rs b0) as [b0 Hb0].
    { clear -HF. induction HF as [|r rs [p Hp] _ [b IH]]; [exists []; apply log_image_nil|].
      exists (frame p ++ b). by apply (log_image_app [r]); [apply log_image_single|]. }
    eapply wp_write_extended; [done|]. intros [[]|e] d1 H1; wp_steps.
    + pose proof (extended_ok _ _ _ _ _ _ H1) as E1.
      eapply (wp_write_extended _ (append_data (frame_header p) f)); [by rewrite E1, lookup_insert_eq|].
      intros r2 d2 H2. pose proof (extended_app _ _ _ _ _ _ _ _ _ H1 H2) as H12. fold (frame p) in H12.
      destruct r2 as [[]|e]; wp_steps.
      * apply (IH (append_data (frame p) f)); [by rewrite (extended_ok _ _ _ _ _ _ H12), lookup_insert_eq|].
        intros r3 d3 b Hb H3. apply (H _ _ (frame p ++ b)).
        -- by apply (log_image_app [r]); [apply log_image_single|].
        -- by eapply extended_app.
      * apply (H _ _ (frame p ++ b0)); [by apply (log_image_app [r]); [apply log_image_single|]|].
        by eapply extended_fail.
    + apply (H _ _ (frame p ++ b0)); [by apply (log_image_app [r]); [apply log_image_single|]|].
      unfold frame. rewrite <- app_assoc. by eapply extended_fail.
Qed.

(** The part of a store's memory the invariant speaks of. *)
Definition same_memory (s s' : Store) : Prop :=
  rs_released s' = rs_released s /\ rs_fingerprints s' = rs_fingerprints s /\ rs_closed s' = rs_closed s.

Lemma memory_same logs rel s s' : same_memory s s' -> memory logs rel s -> memory logs rel s'.
Proof. intros (E1 & E2 & _) [M1 M2 M3]. constructor; rewrite ?E1, ?E2; done. Qed.

Lemma inv_unlisted logs rel s s' fs fs' :
  store_inv logs rel s fs -> same_memory s s' ->
  (forall name, listed name -> fs' !! name = fs !! name) -> store_inv logs rel s' fs'.
Proof.
  intros [L R M] Hs Hf. constructor.
  - by eapply logs_on_same.
  - eapply releases_on_same; [done|]. intros name Hn. apply Hf. by right.
  - by eapply memory_same.
Qed.

Lemma inv_compacted logs logs' rel s s' fs fs' e :
  store_inv logs rel s fs -> same_memory s s' -> compacted_logs logs logs' s e -> logs_on logs' fs' ->
  (forall name, listed name -> name <> path e -> fs' !! name = fs !! name) -> store_inv logs' rel s' fs'.
Proof.
  intros [L R M] Hs Hc L' Hf. constructor; [done| |].
  - eapply releases_on_same; [done|]. intros name Hn. apply Hf; [by right|]. intros ->.
    by rewrite path_not_release in Hn.
  - eapply memory_same; [done|]. by eapply compacted_memory.
Qed.

Lemma temp_listed (temp : string) (f : file) fs name :
  unlisted temp -> listed name -> <[temp := f]> fs !! name = fs !! name.
Proof. intros Hu Hl. apply lookup_insert_ne. intros ->. by eapply unlisted_not. Qed.

(** Writing the retained records beside the log and putting them in its place. *)
Lemma wp_replace_log logs fs0 e retained (Q : result Z -> disk -> Prop) d :
  let temp := path e +:+ ".compact" in
  files d = fs0 -> logs_on logs fs0 -> stored e retained ->
  (forall r d', (forall name, listed name -> files d' !! name = fs0 !! name) -> is_ok r = false -> Q r d') ->
  (forall r d', logs_on (<[e := retained]> logs) (files d') ->
     (forall name, listed name -> name <> path e -> files d' !! name = fs0 !! name) -> Q r d') ->
  wp (replace_log (path e) retained) Q d.
Proof using Hnames.
  intros temp Hfs L Hst Hfail Hdone. unfold replace_log. fold temp. assert (unlisted temp) as Hu by apply compact_unlisted.
  assert (forall f d' (r : result Z), files d' = <[temp := f]> fs0 -> is_ok r = false -> Q r d') as Hf1.
  { intros f d' r E Hr. apply Hfail; [|done]. intros name Hl. rewrite E. by apply temp_listed. }
  wp_steps. apply wp_os_create_trunc. intros [[]|err] d1 [_ E1]; cbn [is_ok] in E1; wp_steps.
  2:{ apply Hfail; [|done]. by rewrite E1, Hfs. }
  rewrite Hfs in E1.
  apply wp_or_close. eapply wp_write_extended; [by rewrite E1, lookup_insert_eq|].
  intros r2 d2 H2. assert (exists f2, files d2 = <[temp := f2]> fs0) as [f2 E2].
  { destruct H2 as (n & -> & _). rewrite E1, insert_insert_eq. eauto. }
  destruct r2 as [[]|err]; wp_steps; [|intros d2' E; wp_steps; eapply Hf1; [by rewrite E|done]].
  apply extended_ok in H2. rewrite E1, insert_insert_eq in H2. clear f2 E2.
  apply wp_or_close. eapply wp_write_frames; [|by rewrite H2, lookup_insert_eq|].
  { destruct Hst as [_ HF]. eapply Forall_impl; [exact HF|]. by intros r [_ ?]. }
  intros r3 d3 b Hb H3. assert (exists f3, files d3 = <[temp := f3]> fs0) as [f3 E3].
  { destruct H3 as (n & -> & _). rewrite H2, insert_insert_eq. eauto. }
  destruct r3 as [[]|err]; wp_steps; [|intros d3' E; wp_steps; eapply Hf1; [by rewrite E|done]].
  apply extended_ok in H3. rewrite H2, insert_insert_eq in H3. clear f3 E3.
  match type of H3 with _ = <[_ := ?f]> _ => set (f3 := f) in H3 end.
  apply wp_or_close. eapply wp_os_sync; [by rewrite H3, lookup_insert_eq|].
  intros [[]|err] d4 [_ E4]; cbn [is_ok] in E4; wp_steps.
  2:{ intros d4' E. wp_steps. eapply Hf1; [by rewrite E, E4, H3|done]. }
  rewrite H3, insert_insert_eq in E4.
  apply wp_os_close. intros [[]|err] d5 E5 _; wp_steps; [|eapply Hf1; [by rewrite E5, E4|done]].
  rewrite E4 in E5. eapply wp_os_stat; [by rewrite E5, lookup_insert_eq|].
  intros [size|err] d6 E6 _ _; wp_steps; [|eapply Hf1; [by rewrite E6, E5|done]].
  rewrite E5 in E6. eapply wp_os_rename; [by rewrite E6, lookup_insert_eq|].
  intros [[]|err] d7 [_ E7]; cbn [is_ok] in E7; wp_steps.
  2:{ eapply Hf1; [by rewrite E7, E6|done]. }
  rewrite E6 in E7.
  assert (logs_on (<[e := retained]> logs) (files d7)) as L7.
  { eapply (logs_on_insert _ fs0 _ _ _ (sync_file f3)); [done|done| |by rewrite E7, lookup_insert_eq|].
    - exists b. split; [done|]. split; [|done]. reflexivity.
    - intros name Hl Hne. rewrite E7, lookup_insert_ne by done.
      rewrite lookup_delete_ne by (intros <-; by eapply unlisted_not). by apply temp_listed. }
  assert (forall name, listed name -> name <> path e -> files d7 !! name = fs0 !! name) as O7.
  { intros name Hl Hne. rewrite E7, lookup_insert_ne by done.
    rewrite lookup_delete_ne by (intros <-; by eapply unlisted_not). by apply temp_listed. }
  apply wp_syncDirectory. intros [[]|err] d8 E8; wp_steps; apply Hdone; rewrite E8; done.
Qed.

(** What compaction does to the ghost logs: they may lose released records only. *)
Definition thinner logs (s : Store) logs' : Prop :=
  forall r, held logs (rs_released s) r -> held logs' (rs_released s) r.

Lemma same_memory_refl s : same_memory s s.
Proof. done. Qed.

Lemma thinner_refl logs s : thinner logs s logs.
Proof. by intros r. Qed.

Lemma wp_compactEdge logs rel s d e (Q : result unit -> Store * disk -> Prop) :
  store_inv logs rel s (files d) -> e ∈ edges ->
  (forall r s' d' logs', store_inv logs' rel s' (files d') -> same_memory s s' -> thinner logs s logs' ->
     Q r (s', d')) ->
  wp (compactEdge e) Q (s, d).
Proof using Hnames.
  intros I He H. unfold compactEdge.
  assert (forall r s' d', files d' = files d -> same_memory s s' -> Q r (s', d')) as Hsame.
  { intros r s' d' E Hs. eapply H; [|done|apply thinner_refl]. eapply inv_unlisted; [done..|]. by rewrite E. }
  wp_steps. destruct (files d !! path e) as [f|] eqn:Ef.
  2:{ eapply wp_os_stat_missing; [done|]. intros err d1 E1 Herr. wp_steps. destruct (errors_is err ErrNotExist).
      - wp_steps. by apply Hsame.
      - wp_steps. by apply Hsame. }
  eapply wp_os_stat; [done|]. intros [size|err] d1 E1 _ _; wp_steps.
  2:{ destruct (errors_is err ErrNotExist); wp_steps; by apply Hsame. }
  destruct (proj1 (log_exists _ _ _ (iv_logs _ _ _ _ I) He)) as [rs Hrs]; [by rewrite Ef|].
  destruct (lo_file _ _ (iv_logs _ _ _ _ I) _ _ Hrs) as (Hst & f' & Hf' & b & Hb & Hd & _).
  assert (f' = f) as -> by congruence. unfold scanReplicaFile. wp_steps.
  eapply wp_os_read; [by rewrite E1|]. intros r2 d2 E2 _ Hr2. destruct r2 as [content|err]; wp_steps.
  2:{ apply Hsame; [congruence|done]. }
  injection (Hr2 eq_refl) as ->. rewrite Hd, (scan_bytes_image _ _ Hb). wp_steps.
  set (retained := filter _ rs).
  assert (stored e retained) as Hret.
  { split; [done|]. destruct Hst as [_ HF]. apply Forall_forall. intros x [_ Hx]%list_elem_of_filter.
    rewrite Forall_forall in HF. by apply HF. }
  split_if; wp_steps.
  - eapply wp_os_remove; [by rewrite E2, E1|]. intros r3 d3 [-> | ->] [_ E3]; cbn [is_ok] in E3; wp_steps.
    2:{ apply Hsame; [congruence|done]. }
    apply Nat.eqb_eq, length_zero_iff_nil in G.
    assert (compacted_logs logs (delete e logs) s e) as Hc.
    { split; [intros e' Hne; by rewrite lookup_delete_ne|]. rewrite lookup_delete_eq, Hrs. cbn [from_option id].
      by rewrite <- G. }
    apply wp_syncDirectory. intros r4 d4 E4. eapply H; [|done|intros r; by eapply compacted_held].
    rewrite E4. eapply inv_compacted; [done|done|exact Hc| |].
    + eapply logs_on_delete; [apply I|done|by rewrite E3, lookup_delete_eq|].
      intros name _ Hne. by rewrite E3, lookup_delete_ne, E2, E1.
    + intros name _ Hne. by rewrite E3, lookup_delete_ne, E2, E1.
  - assert (compacted_logs logs (<[e := retained]> logs) s e) as Hc.
    { split; [intros e' Hne; by rewrite lookup_insert_ne|]. rewrite lookup_insert_eq, Hrs. done. }
    eapply (wp_replace_log logs (files d)); [congruence|apply I|exact Hret| |].
    + intros r3 d3 E3 Hr3. destruct r3; [done|]. wp_steps. eapply H; [|done|apply thinner_refl].
      by eapply inv_unlisted.
    + intros r3 d3 L3 E3. assert (forall s', same_memory s s' ->
        store_inv (<[e := retained]> logs) rel s' (files d3)) as I3.
      { intros s' Hs. by eapply inv_compacted. }
      destruct r3; wp_steps; (eapply H; [by apply I3|done|intros r; by eapply compacted_held]).
Qed.

Lemma thinner_trans logs s logs1 s1 logs2 :
  thinner logs s logs1 -> same_memory s s1 -> thinner logs1 s1 logs2 -> thinner logs s logs2.
Proof. intros H1 (E & _) H2 r Hr. apply H1 in Hr. rewrite <- E in *. by apply H2. Qed.

Lemma same_memory_trans s s1 s2 : same_memory s s1 -> same_memory s1 s2 -> same_memory s s2.
Proof. intros (? & ? & ?) (? & ? & ?). split_and!; congruence. Qed.

Lemma wp_compact_entries entries logs rel s d (Q : result unit -> Store * disk -> Prop) :
  store_inv logs rel s (files d) -> Forall (fun e => e.1 ∈ edges) entries ->
  (forall r s' d' logs', store_inv logs' rel s' (files d') -> same_memory s s' -> thinner logs s logs' ->
     Q r (s', d')) ->
  wp (compact_loop entries) Q (s, d).
Proof using Hnames.
  intros I HF. revert logs s d I Q. induction HF as [|[e n] entries He HF IH]; intros logs s d I Q H;
    cbn [compact_loop].
  - wp_steps. eapply H; [done|done|apply thinner_refl].
  - wp_steps. split_if; wp_steps.
    + eapply wp_compactEdge; [done|done|]. intros r s1 d1 logs1 I1 Hs1 Ht1. destruct r as [[]|err]; wp_steps.
      * eapply IH; [done|]. intros r s2 d2 logs2 I2 Hs2 Ht2.
        eapply H; [done|by eapply same_memory_trans|by eapply thinner_trans].
      * by eapply H.
    + eapply IH; [done|]. intros r s2 d2 logs2 I2 Hs2 Ht2. by eapply H.
Qed.

(** [range] visits exactly the entries of the map. *)
Definition fair_walk (walk : gmap string Z -> list (string * Z)) : Prop :=
  forall m, walk m ≡ₚ map_to_list m.

Lemma wp_compactReleased walk logs rel s d (Q : result unit -> Store * disk -> Prop) :
  fair_walk walk -> store_inv logs rel s (files d) ->
  (forall r s' d' logs', store_inv logs' rel s' (files d') -> same_memory s s' -> thinner logs s logs' ->
     Q r (s', d')) ->
  wp (compactReleased walk) Q (s, d).
Proof using Hnames.
  intros W I H. unfold compactReleased. wp_steps. eapply wp_compact_entries; [done| |done].
  apply Forall_forall. intros [e n]. rewrite (W (rs_released s)). intros Hin%elem_of_map_to_list.
  by eapply (me_edges _ _ _ (iv_memory _ _ _ _ I)).
Qed.

(** ** Restarting after a crash *)

(** Every crash of [d] is followed by a fault-free opening that still holds what
    [s] held. *)
Definition restartable logs rel (s : Store) (d : disk) : Prop :=
  forall d1 config, crash d d1 -> faults d1 = [] ->
  exists s2 d2 logs2, OpenStoreWithConfig config d1 = (Ok s2, d2) /\ store_inv logs2 rel s2 (files d2) /\
    rs_closed s2 = false /\ forall r, held logs (rs_released s) r -> held logs2 (rs_released s2) r.

Lemma memory_consistent logs rel s e rs :
  memory logs rel s -> logs !! e = Some rs -> consistent (at_or_zero rel e) rs.
Proof.
  intros M He seq fp1 fp2 H1 H2. pose proof (me_released _ _ _ M e) as Hle.
  assert (forall fp, covers (at_or_zero rel e) rs seq fp -> fps_of (rs_fingerprints s) e !! seq = Some fp) as H.
  { intros fp [Ha Hc]. apply (me_fps _ _ _ M). rewrite He. split; [lia|exact Hc]. }
  apply H in H1, H2. congruence.
Qed.

(** Reading [logs2] after the crash, which extend [logs1]. *)
Lemma restart logs logs1 logs2 rel s d d1 fs2 config :
  memory logs1 rel s -> releases_on rel (files d1) -> thinner logs s logs1 ->
  reads logs2 (files d1) fs2 -> logs_on logs2 fs2 -> faults d1 = [] -> crash d d1 ->
  (forall name, has_suffix name ".release.json" = true -> fs2 !! name = files d1 !! name) ->
  (forall e rs, logs2 !! e = Some rs -> consistent (at_or_zero rel e) rs) ->
  (forall e r, r ∈ default [] (logs1 !! e) -> r ∈ default [] (logs2 !! e)) ->
  exists s2 d2, OpenStoreWithConfig config d1 = (Ok s2, d2) /\ store_inv logs2 rel s2 (files d2) /\
    rs_closed s2 = false /\ forall r, held logs (rs_released s) r -> held logs2 (rs_released s2) r.
Proof using Hnames.
  intros M RO T RD L2 F C HR HC Hsub. destruct d1 as [fs1 fl c1]. cbn [files faults] in *. subst fl.
  destruct (open_run logs2 rel fs1 fs2 c1 config RD RO HC) as (s2 & E & M2 & Hrel & Hcl).
  exists s2, (mkDisk fs2 [] c1). split; [done|]. cbn [files]. split.
  { constructor; [done| |done]. eapply releases_on_same; [done|]. exact HR. }
  split; [done|]. intros r [H|(r' & H & Hc)]%T.
  - left. rewrite Hrel. pose proof (me_released _ _ _ M (r_EdgeID r)). lia.
  - right. exists r'. split; [by apply Hsub|done].
Qed.

Lemma inv_restartable logs logs1 rel s d :
  store_inv logs1 rel s (files d) -> thinner logs s logs1 -> restartable logs rel s d.
Proof using Hnames.
  intros [L R M] T d1 config C F. pose proof (crash_logs _ _ _ C L) as L1.
  destruct (restart logs logs1 logs1 rel s d d1 (files d1) config) as (s2 & d2 & H); try done.
  - by eapply crash_releases.
  - by apply reads_clean.
  - intros e rs. by apply (memory_consistent _ _ s).
  - by exists s2, d2, logs1.
Qed.

Lemma torn_restartable logs logs1 rel s d e rs r p b :
  torn_on logs1 e rs r p b (files d) -> releases_on rel (files d) -> memory logs1 rel s ->
  thinner logs s logs1 -> fps_of (rs_fingerprints s) e !! r_EdgeSequence r = None ->
  at_or_zero (rs_released s) e < r_EdgeSequence r -> restartable logs rel s d.
Proof using Hnames.
  intros T R M Th Hnone Hgt d1 config C F.
  destruct (reads_torn _ _ _ _ _ _ _ _ C T) as (logs2 & fs2 & RD & L2 & Hor & Ho).
  pose proof (to_log _ _ _ _ _ _ _ T) as He. pose proof (to_enc _ _ _ _ _ _ _ T) as Henc.
  destruct (restart logs logs1 logs2 rel s d d1 fs2 config) as (s2 & d2 & H); try done.
  - by eapply crash_releases.
  - intros name Hn. apply Ho. intros ->. by rewrite path_not_release in Hn.
  - destruct Hor as [-> | ->]; [intros e' rs'; by apply (memory_consistent _ _ s)|].
    intros e' rs' [[<- <-]|[_ He']]%lookup_insert_Some; [|by apply (memory_consistent logs1 _ s)].
    intros seq fp1 fp2. rewrite !covers_app, !(covers_single _ _ p) by done.
    pose proof (memory_consistent _ _ _ _ _ M He seq fp1 fp2) as HC.
    assert (forall fp, ~ covers (at_or_zero rel e) rs (r_EdgeSequence r) fp) as Hno.
    { intros fp [Ha Hc]. pose proof (proj2 (me_fps _ _ _ M e (r_EdgeSequence r) fp)) as Hfp.
      rewrite He, Hnone in Hfp. discriminate Hfp. split; [done|exact Hc]. }
    intros [H1|(_ & <- & ->)] [H2|(_ & E2 & ->)]; [by apply HC| |exfalso; by eapply Hno|done].
    subst seq. exfalso. by eapply Hno.
  - intros e' x Hx. destruct Hor as [-> | ->]; [done|]. destruct (decide (e = e')) as [<-|Hne].
    + rewrite lookup_insert_eq. rewrite He in Hx. cbn in *. apply elem_of_app. by left.
    + by rewrite lookup_insert_ne.
  - by exists s2, d2, logs2.
Qed.

(** ** [Put] *)

Lemma wp_absent name Q d :
  (forall r d', files d' = files d -> r = Ok (bool_decide (files d !! name = None)) \/ is_ok r = false -> Q r d') ->
  wp (absent name) Q d.
Proof.
  intros H. unfold absent, os_stat. wp_steps. apply wp_syscall_err. intros r d1 [-> | ->] E1 _; wp_steps.
  - rewrite E1. destruct (files d !! name) eqn:E; wp_steps; apply H; auto.
  - apply H; auto.
Qed.

Lemma wp_reserve walk logs rel s d e payload (Q : result (bool * Z) -> Store * disk -> Prop) :
  fair_walk walk -> store_inv logs rel s (files d) ->
  (forall r s' d' logs', store_inv logs' rel s' (files d') -> same_memory s s' -> thinner logs s logs' ->
     (forall newly n, r = Ok (newly, n) -> newly = bool_decide (files d' !! path e = None)) -> Q r (s', d')) ->
  wp (reserve walk (path e) payload) Q (s, d).
Proof using Hnames.
  intros W I H. unfold reserve. wp_steps. apply wp_absent. intros r1 d1 E1 H1.
  assert (store_inv logs rel s (files d1)) as I1 by by rewrite E1.
  destruct r1 as [newly|err]; wp_steps; [|by eapply H; eauto using same_memory_refl, thinner_refl].
  destruct H1 as [[= ->]|]; [|done]. split_if; wp_steps.
  - eapply wp_compactReleased; [done|done|]. intros r2 s2 d2 logs2 I2 Hs2 Ht2.
    destruct r2 as [[]|err]; wp_steps; [|by eapply H; eauto].
    apply wp_absent. intros r3 d3 E3 H3. assert (store_inv logs2 rel s2 (files d3)) as I3 by by rewrite E3.
    destruct r3 as [newly|err]; wp_steps; [|by eapply H; eauto].
    destruct H3 as [[= ->]|]; [|done]. split_if; wp_steps.
    + by eapply H; eauto.
    + eapply H; eauto. rewrite E3. congruence.
  - eapply H; eauto using same_memory_refl, thinner_refl. rewrite E1. congruence.
Qed.

(** The outcome of the writes: the file [name] of content [base] extended by
    [content], completely and on stable storage on success; on failure untouched,
    by a prefix, or completely. *)
Definition appended {A} (name : string) (base : file) (content : bytes) (d : disk) (r : result A) (d' : disk)
  : Prop :=
  files d' = <[name := sync_file (append_data content base)]> (files d) \/
  (is_ok r = false /\
   (files d' = files d \/ exists n, files d' = <[name := append_data (take n content) base]> (files d))).

Lemma wp_append_frame (name : string) (newly : bool) (payload : bytes) (f : file) (Q : result unit -> disk -> Prop) d :
  files d !! name = (if newly then None else Some f) -> (newly = true -> f = mkFile [] 0) ->
  (forall r d', appended name f ((if newly then replicaHeader else []) ++ frame payload) d r d' -> Q r d') ->
  wp (append_frame name newly payload) Q d.
Proof.
  intros Hf Hnew H. unfold append_frame, wrap. wp_steps. unfold os_open_append. wp_steps.
  apply wp_syscall. intros [[]|err] d0 E0 _; wp_steps.
  2:{ apply H. right. split; [done|]. by left. }
  set (d1 := with_files d0 _). assert (files d1 = <[name := f]> (files d)) as E1.
  { unfold d1, with_files. cbn [files]. rewrite E0, Hf. destruct newly; [by rewrite Hnew|].
    by rewrite insert_id. }
  clearbody d1. clear d0 E0. apply wp_closing.
  (* the frame, once [pre] has been written *)
  assert (forall (pre : bytes) d2, files d2 = <[name := append_data pre f]> (files d) ->
    wp (wrap "write replica frame header" (write_full name (frame_header payload));;
        wrap "write replica frame payload" (write_full name payload);;
        wrap "sync replica log" (os_sync name);;
        (if newly then syncDirectory else mret tt))
      (fun r d' => forall d'', files d'' = files d' -> appended name f (pre ++ frame payload) d r d'') d2) as Hframe.
  { intros pre d2 E2. unfold wrap. wp_steps.
    eapply wp_write_extended; [by rewrite E2, lookup_insert_eq|]. intros r3 d3 H3.
    assert (forall n (q : bytes), append_data (take n q) (append_data pre f) = append_data (take (length pre + n) (pre ++ q)) f)
      as Happ by (intros; apply append_append).
    destruct r3 as [[]|err]; wp_steps.
    2:{ intros d'' E. right. split; [done|]. right. apply (extended_fail (B := unit) _ _ _ payload _ _ err) in H3.
        destruct H3 as (n & E3 & _). exists (length pre + n)%nat. rewrite E, E3, E2, insert_insert_eq. by rewrite Happ. }
    pose proof (extended_ok _ _ _ _ _ _ H3) as E3.
    eapply wp_write_extended; [by rewrite E3, lookup_insert_eq|]. intros r4 d4 H4.
    pose proof (extended_app _ _ _ _ _ _ _ _ _ H3 H4) as H34. fold (frame payload) in H34.
    destruct r4 as [[]|err]; wp_steps.
    2:{ intros d'' E. right. split; [done|]. right. destruct H34 as (n & E4 & _).
        exists (length pre + n)%nat. rewrite E, E4, E2, insert_insert_eq. by rewrite Happ. }
    apply extended_ok in H34. rewrite E2, insert_insert_eq in H34.
    assert (append_data (frame payload) (append_data pre f) = append_data (pre ++ frame payload) f) as Hall.
    { unfold append_data. cbn. by rewrite <- app_assoc. }
    rewrite Hall in H34.
    eapply wp_os_sync; [by rewrite H34, lookup_insert_eq|]. intros [[]|err] d5 [_ E5]; cbn [is_ok] in E5; wp_steps.
    2:{ intros d'' E. right. split; [done|]. right. exists (length (pre ++ frame payload)).
        rewrite firstn_all. by rewrite E, E5, H34. }
    rewrite H34, insert_insert_eq in E5.
    destruct newly; wp_steps; [|intros d'' E; left; by rewrite E, E5].
    apply wp_syncDirectory. intros r6 d6 E6 d'' E. left. by rewrite E, E6, E5. }
  unfold wrap in Hframe. destruct newly.
  - wp_steps. eapply wp_os_write_all; [by rewrite E1, lookup_insert_eq|].
    intros r2 d2 (_ & n & Hn & E2 & Hok). rewrite E1, insert_insert_eq in E2. destruct r2 as [[]|err]; cbv beta iota.
    + unfold and_then at 1. specialize (Hok eq_refl). subst n. rewrite firstn_all in E2.
      eapply wp_mono; [by apply (Hframe replicaHeader)|]. intros r3 d3 H3 d'' E. apply H. by apply H3.
    + wp_steps. intros d'' E. apply H. right. split; [done|]. right. exists n. rewrite E, E2.
      by rewrite take_app_le.
  - apply wp_bind, wp_ret. unfold and_then at 1. eapply wp_mono; [apply (Hframe [])|intros r3 d3 H3 d'' E; apply H; by apply H3].
    rewrite E1. unfold append_data. rewrite app_nil_r. by destruct f.
Qed.

(** The ghost log of [e], there or empty, and its bytes without the header. *)
Lemma memory_logs_same logs logs' rel s :
  (forall e, default [] (logs' !! e) = default [] (logs !! e)) -> memory logs rel s -> memory logs' rel s.
Proof. intros E [M1 M2 M3]. constructor; [done..|]. intros e seq fp. by rewrite E. Qed.

Lemma default_insert logs e rs e' :
  rs = default [] (logs !! e) -> default [] (<[e := rs]> logs !! e') = default [] (logs !! e').
Proof.
  intros ->. destruct (decide (e = e')) as [->|Hne]; [by rewrite lookup_insert_eq|by rewrite lookup_insert_ne].
Qed.

(** Where the log of [e] stands before an append. *)
Lemma log_base logs fs e :
  logs_on logs fs -> e ∈ edges ->
  let rs := default [] (logs !! e) in
  exists f b, log_image rs b /\ stored e rs /\
    let newly := bool_decide (fs !! path e = None) in
    fs !! path e = (if newly then None else Some f) /\ (newly = true -> f = mkFile [] 0) /\
    (if newly then b = [] else data f = replicaHeader ++ b /\ synced f = length (data f)).
Proof using Hnames.
  intros L He rs. pose proof (log_exists _ _ _ L He) as HE. unfold rs.
  destruct (logs !! e) as [rs'|] eqn:Ers; cbn [from_option id].
  - destruct (lo_file _ _ L _ _ Ers) as (Hst & f & Hf & b & Hb & Hd & Hs). exists f, b.
    rewrite bool_decide_false by congruence. by rewrite Hf.
  - exists (mkFile [] 0), []. split; [apply log_image_nil|]. split; [by split; [|constructor]|].
    rewrite bool_decide_true; [|destruct (fs !! path e); [|done]; by destruct (proj1 HE)].
    split; [|done]. destruct (fs !! path e); [|done]. by destruct (proj1 HE).
Qed.

Definition header_durable (d : disk) (e : string) : Prop :=
  forall f, files d !! path e = Some f -> (8 <= synced f)%nat.

(** The disk after an append that went through, and after one that did not. *)
Lemma appended_cases logs fs e r p f b rs (newly : bool) (res : result unit) d d' :
  files d = fs -> logs_on logs fs -> e ∈ edges -> enc r p -> r_EdgeID r = e ->
  log_image rs b -> stored e rs -> (newly = true -> f = mkFile [] 0) ->
  (if newly then b = [] else data f = replicaHeader ++ b /\ synced f = length (data f)) ->
  appended (path e) f ((if newly then replicaHeader else []) ++ frame p) d res d' ->
  (is_ok res = true -> logs_on (<[e := rs ++ [r]]> logs) (files d')) /\
  (header_durable d' e -> files d' = fs \/ torn_on (<[e := rs]> logs) e rs r p b (files d')) /\
  (forall name, name <> path e -> files d' !! name = fs !! name).
Proof using Hnames.
  intros Hfs L He Henc Hedge Hb Hst Hnew Hbase Happ.
  unfold appended in Happ. rewrite Hfs in Happ.
  assert (append_data ((if newly then replicaHeader else []) ++ frame p) f =
          mkFile (replicaHeader ++ b ++ frame p) (synced f)) as Hall.
  { unfold append_data. destruct newly; [rewrite Hbase, Hnew by done; done|].
    destruct Hbase as [-> _]. by rewrite <- app_assoc. }
  assert (forall n, newly = false -> append_data (take n ([] ++ frame p)) f =
          mkFile (replicaHeader ++ b ++ take n (frame p)) (synced f)) as Hpart.
  { intros n E. rewrite E in Hbase. destruct Hbase as [Hd _]. unfold append_data.
    by rewrite Hd, <- app_assoc. }
  assert (forall g, logs_on (<[e := rs]> logs)
    (<[path e := mkFile (replicaHeader ++ b) (8 + length b)]> (<[path e := g]> fs))) as Hrest.
  { intros g. eapply (logs_on_insert _ fs); [done|done| |by rewrite lookup_insert_eq|].
    - exists b. split; [done|]. split; [done|]. cbn [data synced]. by rewrite length_app.
    - intros name _ Hne. by rewrite !lookup_insert_ne. }
  rewrite Hall in Happ. split_and!.
  - intros Hok. destruct Happ as [E|[Hno _]]; [|congruence]. rewrite E.
    eapply (logs_on_insert _ fs); [done| | |by rewrite lookup_insert_eq|].
    + split; [done|]. apply Forall_app. split; [apply Hst|]. constructor; [eauto|constructor].
    + exists (b ++ frame p). split; [apply log_image_app; [done|by apply log_image_single]|]. done.
    + intros name _ Hne. by rewrite lookup_insert_ne.
  - intros Hdur. destruct Happ as [E|[_ [E|[n E]]]]; [right|by left|right].
    + rewrite E. constructor; [by rewrite lookup_insert_eq|done..| |apply Hrest].
      eexists _, (length (frame p)). rewrite lookup_insert_eq, firstn_all. split; [done|]. split; [done|].
      cbn. rewrite !length_app. lia.
    + destruct newly eqn:En.
      { exfalso. rewrite (Hnew eq_refl) in E. specialize (Hdur _ ltac:(rewrite E; apply lookup_insert_eq)).
        cbn in Hdur. lia. }
      rewrite Hpart in E by done. rewrite E. constructor; [by rewrite lookup_insert_eq|done..| |apply Hrest].
      eexists _, n. rewrite lookup_insert_eq. split; [done|]. split; [done|]. cbn [synced].
      destruct Hbase as [Hd ->]. rewrite Hd, length_app. cbn. lia.
  - intros name Hne. destruct Happ as [-> |[_ [-> |[n ->]]]]; [|done|]; by rewrite lookup_insert_ne.
Qed.

Definition refusal (e : error) : Prop := e = ErrReplicaConflict \/ e = ErrReplicaPressure.


Lemma insert_same_fps s e e' :
  fps_of (<[e := default ∅ (rs_fingerprints s !! e)]> (rs_fingerprints s)) e' = fps_of (rs_fingerprints s) e'.
Proof.
  unfold fps_of. destruct (decide (e = e')) as [->|Hne]; [by rewrite lookup_insert_eq|by rewrite lookup_insert_ne].
Qed.

(** Remembering one more record. *)
Lemma memory_put logs rel s s' e rs r p :
  memory logs rel s -> rs = default [] (logs !! e) -> enc r p ->
  at_or_zero (rs_released s) e < r_EdgeSequence r -> fps_of (rs_fingerprints s) e !! r_EdgeSequence r = None ->
  rs_released s' = rs_released s ->
  rs_fingerprints s' = <[e := <[r_EdgeSequence r := sha256_hex p]> (fps_of (rs_fingerprints s) e)]> (rs_fingerprints s) ->
  memory (<[e := rs ++ [r]]> logs) rel s'.
Proof.
  intros [M1 M2 M3] -> He Hgt Hnone Er Ef. constructor; rewrite ?Er, ?Ef; [done..|].
  intros e' seq fp. unfold fps_of. destruct (decide (e = e')) as [<-|Hne].
  - rewrite !lookup_insert_eq. cbn [from_option id]. rewrite covers_app, <- M3, (covers_single _ _ p) by done.
    destruct (decide (seq = r_EdgeSequence r)) as [->|Hs].
    + rewrite lookup_insert_eq, Hnone. split; [intros [= <-]; auto|]. by intros [?|(_ & _ & ->)].
    + rewrite lookup_insert_ne by done. split; [auto|]. by intros [?|(_ & <- & _)].
  - rewrite !lookup_insert_ne by done. apply M3.
Qed.

(** The errors of the writes are not refusals. *)
Definition not_refused (r : result unit) : Prop := forall e, r = Err e -> ~ refusal e.

Lemma wp_wrap_error {B} text (m : M disk unit) (k : unit -> M disk B) (P : result B -> Prop) d :
  (forall d', wp (k tt) (fun r _ => P r) d') -> (forall e, P (Err (ErrWrap text e))) ->
  wp (wrap text m ≫= k) (fun r _ => P r) d.
Proof.
  intros H1 H2. unfold wrap. wp_steps. unfold wp. destruct (m d) as [[[]|e] d']; cbn; [apply H1|apply H2].
Qed.

Lemma append_frame_error name newly payload d :
  wp (append_frame name newly payload) (fun r _ => not_refused r) d.
Proof.
  assert (forall text e, not_refused (Err (ErrWrap text e))) as Hw by (intros text e e' [= <-] [?|?]; done).
  assert (not_refused (Ok tt)) as Hok by done.
  assert (not_refused (Err ErrIO)) as Hio by (intros e' [= <-] [?|?]; done).
  assert (forall d0, wp (if newly then syncDirectory else mret tt) (fun r _ => not_refused r) d0) as Hlast.
  { intros d0. destruct newly; [|done]. unfold syncDirectory. wp_steps. apply wp_syscall_err.
    intros r d1 [-> | ->] _ _; wp_steps; [|done]. apply wp_syscall_err. by intros r d2 [-> | ->] _ _. }
  unfold append_frame. apply wp_wrap_error; [|done]. intros d1. apply wp_closing.
  eapply (wp_mono _ (fun r _ => not_refused r)); [|done].
  destruct newly; [apply wp_wrap_error; [|done]; intros d2|apply wp_bind, wp_ret; unfold and_then at 1; set (d2 := d1)].
  all: do 3 (apply wp_wrap_error; [intros ?|done]); apply Hlast.
Qed.

Lemma wp_and {S A} (m : M S A) (P Q : result A -> S -> Prop) s :
  wp m P s -> wp m Q s -> wp m (fun r s' => P r s' /\ Q r s') s.
Proof. unfold wp. auto. Qed.

(** [Put] for every schedule of faults: an acknowledged record is held in a store
    that keeps what it held; a refusal leaves such a store; any other failure
    leaves a disk that can be restarted from, once the log's header is durable. *)
Definition put_outcome logs rel (s : Store) (r : WalRecord) (res : result bool) (s' : Store) (d' : disk) : Prop :=
  rs_released s' = rs_released s /\ rs_closed s' = rs_closed s /\
  match res with
  | Ok _ => exists logs', store_inv logs' rel s' (files d') /\ thinner logs s logs' /\
      held logs' (rs_released s') r
  | Err e =>
      (refusal e -> exists logs', store_inv logs' rel s' (files d') /\ thinner logs s logs') /\
      (header_durable d' (r_EdgeID r) -> restartable logs rel s d')
  end.

Lemma restartable_same logs rel s s' d :
  rs_released s' = rs_released s -> restartable logs rel s' d -> restartable logs rel s d.
Proof.
  intros E H d1 config C F. destruct (H d1 config C F) as (s2 & d2 & l2 & ? & ? & ? & Hh).
  exists s2, d2, l2. split_and!; [done..|]. intros r Hr. apply Hh. by rewrite E.
Qed.

Lemma put_kept logs logs' rel s r res s' d' :
  store_inv logs' rel s' (files d') -> thinner logs s logs' -> rs_released s' = rs_released s ->
  rs_closed s' = rs_closed s -> (is_ok res = true -> held logs' (rs_released s') r) ->
  put_outcome logs rel s r res s' d'.
Proof using Hnames.
  intros I T Er Ec Hh. split; [done|]. split; [done|]. destruct res as [dup|e]; [by eauto|].
  split; [by eauto|]. intros _ d1 config C F.
  assert (thinner logs s' logs') as T' by (unfold thinner; by rewrite Er).
  destruct (inv_restartable _ _ _ _ _ I T' d1 config C F) as (s2 & d2 & l2 & ? & ? & ? & H).
  exists s2, d2, l2. split_and!; [done..|]. intros x Hx. apply H. by rewrite Er.
Qed.

Lemma wp_Put walk logs rel s d r p :
  fair_walk walk -> store_inv logs rel s (files d) -> r_EdgeID r ∈ edges -> enc r p ->
  wp (Put walk r) (fun res '(s', d') => put_outcome logs rel s r res s' d') (s, d).
Proof using Hnames.
  intros W I He Hp. pose proof Hp as (Hm & _ & Hv & _). unfold Put.
  assert (forall res d', files d' = files d -> (is_ok res = true -> held logs (rs_released s) r) ->
    put_outcome logs rel s r res s d') as Hsame.
  { intros res d' E Hh. eapply put_kept; [by rewrite E|apply thinner_refl|done..]. }
  wp_steps. rewrite Hv. wp_steps. rewrite (enc_fingerprint _ _ Hp). wp_steps.
  split_if; wp_steps; [by apply Hsame|]. cbn [id].
  split_if; wp_steps; [apply Hsame; [done|]; left; by apply Z.leb_le|]. apply Z.leb_gt in G0. cbn [id] in G0.
  set (e := r_EdgeID r) in *. set (seq := r_EdgeSequence r) in *.
  set (s0 := set_fingerprints _ s).
  assert (memory logs rel s0) as M0.
  { destruct (iv_memory _ _ _ _ I) as [M1 M2 M3]. constructor; [done..|]. intros e' sq fp. unfold s0. cbn [set_fingerprints rs_fingerprints rs_released]. by rewrite insert_same_fps. }
  assert (store_inv logs rel s0 (files d)) as I0 by (constructor; [apply I|apply I|done]).
  destruct (default ∅ (rs_fingerprints s !! e) !! seq) as [existing|] eqn:Ex.
  - split_if; wp_steps; (eapply put_kept; [exact I0|apply thinner_refl|done|done|]); [done|]. intros _. right.
    apply negb_false_iff, bool_decide_eq_true in G1. subst existing. fold (fps_of (rs_fingerprints s) e) in Ex.
    apply (me_fps _ _ _ (iv_memory _ _ _ _ I)) in Ex as (_ & r' & p' & Hr' & He' & Hs' & Hf').
    exists r'. split; [done|]. split; [done|]. by exists p, p'.
  - fold (fps_of (rs_fingerprints s) e) in Ex. wp_steps. eapply wp_reserve; [done|exact I0|].
    intros r1 s1 d1 logs1 I1 Hs1 Ht1 Hnew. pose proof Hs1 as (Er & Ef & Ec).
    destruct r1 as [[newly n]|err]; wp_steps; [|by eapply put_kept].
    specialize (Hnew _ _ eq_refl).
    destruct (log_base logs1 (files d1) e) as (f & b & Hb & Hst & Hf & Hf0 & Hbase); [apply I1|done|].
    rewrite <- Hnew in *. set (rs := default [] (logs1 !! e)) in *.
    eapply wp_mono; [apply wp_and; [apply (append_frame_error)|
      eapply (wp_append_frame _ _ _ f); [done|done|intros res d2 Ha; exact Ha]]|].
    intros res d2 [Hno Ha].
    destruct (appended_cases logs1 (files d1) e r p f b rs newly res d1 d2) as (Hok & Htorn & Hoth);
      [done|apply I1|done..|].
    assert (forall name, has_suffix name ".release.json" = true -> files d2 !! name = files d1 !! name) as Hrel.
    { intros name Hn. apply Hoth. intros ->. by rewrite path_not_release in Hn. }
    assert (at_or_zero (rs_released s1) e < seq) as Hgt by by rewrite Er.
    assert (fps_of (rs_fingerprints s1) e !! seq = None) as Hnone.
    { rewrite Ef. unfold s0. cbn [set_fingerprints rs_fingerprints]. by rewrite insert_same_fps. }
    destruct res as [[]|err]; wp_steps.
    + eapply (put_kept _ (<[e := rs ++ [r]]> logs1)); [constructor| |done|done|].
      * by apply Hok.
      * eapply releases_on_same; [apply I1|done].
      * eapply (memory_put logs1 _ s1); [apply I1|done|exact Hp|done|done|done|]. cbn [set_fingerprints rs_fingerprints].
        do 2 f_equal. rewrite Ef. unfold s0. cbn [set_fingerprints rs_fingerprints]. by rewrite insert_same_fps.
      * intros x Hx. apply Ht1 in Hx. destruct Hx as [Hx|(x' & Hx & Hc)]; [by left|right]. exists x'. split; [|done].
        destruct (decide (e = r_EdgeID x)) as [E|Hne]; [|by rewrite lookup_insert_ne].
        rewrite <- E in *. rewrite lookup_insert_eq. apply elem_of_app. by left.
      * intros _. right. exists r. fold e. rewrite lookup_insert_eq. split; [apply elem_of_app; right; by left|].
        split; [done|]. by exists p, p.
    + split; [by rewrite Er|]. split; [by rewrite Ec|]. split; [intros Hr; by destruct (Hno _ eq_refl Hr)|].
      intros Hd. apply (restartable_same _ _ _ s1); [done|]. destruct (Htorn Hd) as [E|T].
      * eapply inv_restartable; [by rewrite E|]. intros x Hx. rewrite Er in *. by apply Ht1.
      * eapply torn_restartable; [exact T| | | |exact Hnone|exact Hgt].
        -- eapply releases_on_same; [apply I1|done].
        -- eapply memory_logs_same; [|apply I1]. intros e'. by apply default_insert.
        -- intros x Hx. rewrite Er in *. apply Ht1 in Hx. unfold held in *. by rewrite default_insert.
Qed.

(** ** [Release] *)

Lemma releases_on_insert rel fs fs' e n f :
  releases_on rel fs -> e ∈ edges -> blank e = false -> 0 <= n ->
  fs' !! releasePath e = Some f -> synced f = length (data f) ->
  decode_release (data f) = Some (release_of e n) ->
  (forall name, has_suffix name ".release.json" = true -> name <> releasePath e -> fs' !! name = fs !! name) ->
  releases_on (<[e := n]> rel) fs'.
Proof using Hnames.
  intros [H1 H2] He Hb Hn Hf Hs Hd Ho. constructor.
  - intros e' n' [[<- <-]|[Hne He']]%lookup_insert_Some; [by eauto 10|].
    destruct (H1 _ _ He') as (He2 & Hb2 & Hn2 & f' & Hf' & Hd'). split_and!; [done..|]. exists f'.
    rewrite Ho; [done|apply release_suffix|]. intros E. apply Hne. symmetry. by apply release_inj.
  - intros name Hi Hsu. destruct (decide (name = releasePath e)) as [->|Hne].
    + exists e. by rewrite lookup_insert_eq.
    + rewrite Ho in Hi by done. destruct (H2 _ Hi Hsu) as (e' & He' & ->). exists e'. split; [|done].
      destruct (decide (e = e')) as [->|?]; [by rewrite lookup_insert_eq|by rewrite lookup_insert_ne].
Qed.

(** The checkpoint is replaced by a complete one, or nothing listed changes. *)
Lemma wp_writeReleaseCheckpoint e through (Q : result unit -> disk -> Prop) d :
  ascii_text e = true ->
  (forall r d', is_ok r = false -> (forall name, listed name -> files d' !! name = files d !! name) -> Q r d') ->
  (forall r d' f, files d' !! releasePath e = Some f -> synced f = length (data f) ->
     decode_release (data f) = Some (release_of e through) ->
     (forall name, listed name -> name <> releasePath e -> files d' !! name = files d !! name) -> Q r d') ->
  wp (writeReleaseCheckpoint e through) Q d.
Proof.
  intros Ha Hfail Hdone. unfold writeReleaseCheckpoint. fold (release_of e through).
  destruct (marshal_release (release_of e through)) as [payload|] eqn:Em; wp_steps.
  2:{ by apply Hfail. }
  set (temp := releasePath e +:+ ".tmp"). assert (unlisted temp) as Hu by apply tmp_unlisted.
  assert (forall f d' (r : result unit), files d' = <[temp := f]> (files d) -> is_ok r = false -> Q r d') as Hf1.
  { intros f d' r E Hr. apply Hfail; [done|]. intros name Hl. rewrite E. by apply temp_listed. }
  apply wp_os_create_trunc. intros [[]|err] d1 [_ E1]; cbn [is_ok] in E1; wp_steps.
  2:{ apply Hfail; [done|]. by rewrite E1. }
  apply wp_or_close. eapply wp_write_extended; [by rewrite E1, lookup_insert_eq|].
  intros r2 d2 H2. assert (exists f2, files d2 = <[temp := f2]> (files d)) as [f2 E2].
  { destruct H2 as (n & -> & _). rewrite E1, insert_insert_eq. eauto. }
  destruct r2 as [[]|err]; wp_steps; [|intros d2' E; wp_steps; eapply Hf1; [by rewrite E|done]].
  apply extended_ok in H2. rewrite E1, insert_insert_eq in H2. clear f2 E2.
  apply wp_or_close. eapply wp_os_sync; [by rewrite H2, lookup_insert_eq|].
  intros [[]|err] d3 [_ E3]; cbn [is_ok] in E3; wp_steps.
  2:{ intros d3' E. wp_steps. eapply Hf1; [by rewrite E, E3, H2|done]. }
  rewrite H2, insert_insert_eq in E3.
  apply wp_os_close. intros [[]|err] d4 E4 _; wp_steps; [|eapply Hf1; [by rewrite E4, E3|done]].
  rewrite E3 in E4. eapply wp_os_rename; [by rewrite E4, lookup_insert_eq|].
  intros [[]|err] d5 [_ E5]; cbn [is_ok] in E5; wp_steps; [|eapply Hf1; [by rewrite E5, E4|done]].
  rewrite E4 in E5. apply wp_syncDirectory. intros r6 d6 E6.
  eapply Hdone; [by rewrite E6, E5, lookup_insert_eq|done| |].
  - cbn. by apply (decode_marshal_release (release_of e through)).
  - intros name Hl Hne. rewrite E6, E5, lookup_insert_ne by done.
    rewrite lookup_delete_ne by (intros <-; by eapply unlisted_not). by apply temp_listed.
Qed.

Lemma forget_fps fps e through e' seq fp :
  fps_of (forget e through fps) e' !! seq = Some fp <->
  fps_of fps e' !! seq = Some fp /\ (e' = e -> through < seq).
Proof.
  unfold forget, fps_of. destruct (fps !! e) as [m|] eqn:E.
  - destruct (decide (e = e')) as [<-|Hne].
    + rewrite lookup_insert_eq, E. cbn [from_option id]. rewrite map_lookup_filter_Some. cbn. tauto.
    + rewrite lookup_insert_ne by done. intuition congruence.
  - destruct (decide (e = e')) as [<-|Hne]; [|intuition congruence].
    rewrite E. cbn [from_option id]. rewrite lookup_empty. intuition congruence.
Qed.

(** The memory after a release up to [through]. *)
Lemma memory_release logs rel s e through :
  memory logs rel s -> e ∈ edges -> at_or_zero (rs_released s) e < through ->
  memory logs (<[e := through]> rel)
    (set_fingerprints (forget e through (rs_fingerprints s)) (set_released (<[e := through]> (rs_released s)) s)).
Proof.
  intros [M1 M2 M3] He Hlt.
  assert (forall m e', at_or_zero (<[e := through]> m) e' = if decide (e' = e) then through else at_or_zero m e') as Hz.
  { intros m e'. unfold at_or_zero. case_decide as E; [by rewrite E, lookup_insert_eq|by rewrite lookup_insert_ne]. }
  constructor; cbn [set_fingerprints set_released rs_released rs_fingerprints].
  - intros e'. rewrite !Hz. specialize (M1 e'). case_decide as E; [subst e'|]; lia.
  - intros e' n [[<- _]|[_ H]]%lookup_insert_Some; [done|by eapply M2].
  - intros e' seq fp. rewrite forget_fps, Hz, M3. unfold covers. case_decide as E; [subst e'|tauto].
    intuition (done || lia).
Qed.

Lemma memory_rel_grow logs rel rel' s :
  memory logs rel s -> (forall e, at_or_zero (rs_released s) e <= at_or_zero rel' e) -> memory logs rel' s.
Proof. intros [M1 M2 M3] H. constructor; [|done..]. intros e. specialize (M1 e). specialize (H e). lia. Qed.

(** [Release] always leaves a store that holds what it held. *)
Lemma wp_Release logs rel s d edgeID through :
  let e := trim_space edgeID in
  store_inv logs rel s (files d) -> e ∈ edges -> blank e = false -> ascii_text e = true ->
  wp (Release edgeID through) (fun res '(s', d') => exists logs' rel',
    store_inv logs' rel' s' (files d') /\ rs_closed s' = rs_closed s /\
    (forall r, held logs (rs_released s) r -> held logs' (rs_released s') r) /\
    (is_ok res = true -> through <= at_or_zero (rs_released s') e)) (s, d).
Proof using Hnames.
  intros e I He Hb Ha. unfold Release. fold e. split_if; wp_steps; [by exists logs, rel|].
  split_if; wp_steps; [by exists logs, rel|]. cbn [id] in *.
  split_if; wp_steps; [exists logs, rel; split_and!; [done..|]; intros _; by apply Z.leb_le|].
  apply Z.leb_gt in G1. pose proof I as [L R M]. pose proof (me_released _ _ _ M e) as Hrel0.
  apply wp_writeReleaseCheckpoint; [done| |].
  { intros r1 d1 Hr E1. destruct r1; [done|]. wp_steps. exists logs, rel. split_and!; [|done..].
    by eapply inv_unlisted. }
  intros r1 d1 f Hf Hs Hd Ho.
  assert (releases_on (<[e := through]> rel) (files d1)) as R1.
  { eapply releases_on_insert; [exact R|done|done|lia|done..|]. intros name Hn. apply Ho. by right. }
  assert (logs_on logs (files d1)) as L1.
  { constructor.
    - intros e' rs' H. destruct (lo_file _ _ L _ _ H) as (Hst & f' & Hf' & Hl'). split; [done|]. exists f'.
      rewrite Ho; [done|apply listed_path|apply path_ne_release].
    - intros name Hi Hsu. apply (lo_only _ _ L); [|done]. rewrite <- Ho; [done|by left|].
      intros ->. by rewrite release_not_path in Hsu. }
  assert (forall e', at_or_zero (rs_released s) e' <= at_or_zero (<[e := through]> rel) e') as Hgrow.
  { intros e'. pose proof (me_released _ _ _ M e'). unfold at_or_zero at 2.
    destruct (decide (e = e')) as [<-|Hne]; [rewrite lookup_insert_eq; cbn; lia|].
    rewrite lookup_insert_ne by done. fold (at_or_zero rel e'). lia. }
  destruct r1 as [[]|err]; wp_steps.
  2:{ exists logs, (<[e := through]> rel). split_and!; [constructor; [done|done|by eapply memory_rel_grow]|done..]. }
  set (s1 := set_fingerprints _ _).
  assert (store_inv logs (<[e := through]> rel) s1 (files d1)) as I1
    by (constructor; [done|done|by apply memory_release]).
  assert (at_or_zero (rs_released s1) e = through) as Ht.
  { cbn. unfold at_or_zero. by rewrite lookup_insert_eq. }
  assert (forall r, held logs (rs_released s) r -> held logs (rs_released s1) r) as Hheld.
  { intros r [H|H]; [left|by right]. cbn. unfold at_or_zero in *.
    destruct (decide (e = r_EdgeID r)) as [E|Hne]; [|by rewrite lookup_insert_ne].
    rewrite <- E in *. rewrite lookup_insert_eq. cbn. lia. }
  split_if; wp_steps.
  - eapply wp_compactEdge; [exact I1|done|]. intros r2 s2 d2 logs2 I2 (E2 & _ & Ec2) Ht2.
    exists logs2, (<[e := through]> rel). split_and!; [done|done| |rewrite E2; lia].
    intros x Hx. rewrite E2. by apply Ht2, Hheld.
  - exists logs, (<[e := through]> rel). split_and!; [done..|]. intros _. lia.
Qed.

(** ** Lives of a store *)

(** [Put] recognises a held record without touching the disk. *)
Lemma held_put walk logs rel s d r p :
  memory logs rel s -> rs_closed s = false -> enc r p -> held logs (rs_released s) r ->
  (Put walk r (s, d)).1 = Ok true.
Proof.
  intros M Hc Hp Hh. pose proof Hp as (_ & _ & Hv & _).
  assert (wp (Put walk r) (fun res _ => res = Ok true) (s, d)) as H; [|exact H].
  unfold Put. wp_steps. rewrite Hv. wp_steps. rewrite (enc_fingerprint _ _ Hp). wp_steps. cbn [id].
  rewrite Hc. split_if; wp_steps; [done|]. apply Z.leb_gt in G.
  destruct Hh as [Hh|(r' & Hr' & Hs & p1 & p2 & He1 & He2 & Hf)]; [lia|].
  assert (p1 = p) as -> by (destruct He1 as [E1 _], Hp as [E2 _]; congruence).
  assert (fps_of (rs_fingerprints s) (r_EdgeID r) !! r_EdgeSequence r = Some (sha256_hex p)) as E.
  { apply (me_fps _ _ _ M). split; [done|]. by exists r', p2. }
  unfold fps_of in E. rewrite E, bool_decide_true by done. done.
Qed.

(** The histories of a store on one directory, with the records it acknowledged:
    it is created, serves calls whose system calls may fail, loses power, and is
    reopened.  A write failure other than a refusal is followed by a restart, with
    the header of the log on stable storage. *)
Inductive life : Store -> disk -> list WalRecord -> Prop :=
  | life_new config c s d :
      OpenStoreWithConfig config (mkDisk ∅ [] c) = (Ok s, d) -> life s d []
  | life_weather s d acked fl c :
      life s d acked -> life s (mkDisk (files d) fl c) acked
  | life_put s d acked walk r p dup s' d' :
      life s d acked -> fair_walk walk -> r_EdgeID r ∈ edges -> enc r p ->
      Put walk r (s, d) = (Ok dup, (s', d')) -> life s' d' (r :: acked)
  | life_refused s d acked walk r p e s' d' :
      life s d acked -> fair_walk walk -> r_EdgeID r ∈ edges -> enc r p -> refusal e ->
      Put walk r (s, d) = (Err e, (s', d')) -> life s' d' acked
  | life_release s d acked edgeID through res s' d' :
      life s d acked -> trim_space edgeID ∈ edges -> blank (trim_space edgeID) = false ->
      ascii_text (trim_space edgeID) = true ->
      Release edgeID through (s, d) = (res, (s', d')) -> life s' d' acked
  | life_crash s d acked d1 config s2 d2 :
      life s d acked -> crash d d1 -> faults d1 = [] ->
      OpenStoreWithConfig config d1 = (Ok s2, d2) -> life s2 d2 acked
  | life_failed s d acked walk r p e s' d' d1 config s2 d2 :
      life s d acked -> fair_walk walk -> r_EdgeID r ∈ edges -> enc r p ->
      Put walk r (s, d) = (Err e, (s', d')) -> header_durable d' (r_EdgeID r) ->
      crash d' d1 -> faults d1 = [] -> OpenStoreWithConfig config d1 = (Ok s2, d2) -> life s2 d2 acked.

Definition life_inv (s : Store) (d : disk) (acked : list WalRecord) : Prop :=
  exists logs rel, store_inv logs rel s (files d) /\ rs_closed s = false /\
  Forall (fun r => (exists p, enc r p) /\ held logs (rs_released s) r) acked.

Lemma life_inv_restart logs rel s d acked d1 config s2 d2 :
  restartable logs rel s d -> crash d d1 -> faults d1 = [] ->
  OpenStoreWithConfig config d1 = (Ok s2, d2) ->
  Forall (fun r => (exists p, enc r p) /\ held logs (rs_released s) r) acked -> life_inv s2 d2 acked.
Proof.
  intros HR C F E HF. destruct (HR d1 config C F) as (s2' & d2' & logs2 & E' & I & Hc & Hh).
  rewrite E in E'. injection E' as <- <-. exists logs2, rel. split_and!; [done..|].
  eapply Forall_impl; [exact HF|]. intros r [? ?]. auto.
Qed.

Lemma life_invariant s d acked : life s d acked -> life_inv s d acked.
Proof using Hnames.
  induction 1 as [config c s d E|s d acked fl c _ IH|s d acked walk r p dup s' d' _ IH W He Hp E
    |s d acked walk r p e s' d' _ IH W He Hp Hr E|s d acked edgeID through res s' d' _ IH He Hb Ha E
    |s d acked d1 config s2 d2 _ IH C F E|s d acked walk r p e s' d' d1 config s2 d2 _ IH W He Hp E HD C F EO].
  - destruct (open_run ∅ ∅ ∅ ∅ c config) as (s' & E' & M & _ & Hc).
    + constructor; [done| |done]. intros name H. rewrite lookup_empty in H. by destruct H.
    + constructor; [done|]. intros name H. rewrite lookup_empty in H. by destruct H.
    + done.
    + rewrite E in E'. injection E' as -> ->. exists ∅, ∅. split; [|split; [done|constructor]].
      constructor; [constructor|constructor|done]; try done; intros name H;
        cbn [files] in H; rewrite lookup_empty in H; by destruct H.
  - exact IH.
  - destruct IH as (logs & rel & I & Hc & HF). pose proof (wp_Put walk logs rel s d r p W I He Hp) as K.
    unfold wp in K. rewrite E in K. destruct K as (Er & Ec & logs' & I' & T & Hh). exists logs', rel.
    split; [done|]. split; [congruence|]. constructor; [by eauto|]. eapply Forall_impl; [exact HF|].
    intros x [? Hx]. split; [done|]. rewrite Er. by apply T.
  - destruct IH as (logs & rel & I & Hc & HF). pose proof (wp_Put walk logs rel s d r p W I He Hp) as K.
    unfold wp in K. rewrite E in K. destruct K as (Er & Ec & Href & _). destruct (Href Hr) as (logs' & I' & T).
    exists logs', rel. split; [done|]. split; [congruence|]. eapply Forall_impl; [exact HF|].
    intros x [? Hx]. split; [done|]. rewrite Er. by apply T.
  - destruct IH as (logs & rel & I & Hc & HF).
    pose proof (wp_Release logs rel s d edgeID through I He Hb Ha) as K. unfold wp in K. rewrite E in K.
    destruct K as (logs' & rel' & I' & Ec & Hh & _). exists logs', rel'. split; [done|]. split; [congruence|].
    eapply Forall_impl; [exact HF|]. intros x [? Hx]. auto.
  - destruct IH as (logs & rel & I & Hc & HF). eapply life_inv_restart; [|done..].
    eapply inv_restartable; [done|apply thinner_refl].
  - destruct IH as (logs & rel & I & Hc & HF). pose proof (wp_Put walk logs rel s d r p W I He Hp) as K.
    unfold wp in K. rewrite E in K. destruct K as (Er & Ec & _ & HR). by eapply life_inv_restart; [apply HR|..].
Qed.

(** A copy of [r] can be read from its edge's log. *)
Definition readable (d : disk) (r : WalRecord) : Prop :=
  exists f rs r', files d !! path (r_EdgeID r) = Some f /\ scan_bytes (data f) = Ok (rs, -1) /\
    r' ∈ rs /\ copy_of r r'.

Lemma held_readable logs rel s d r :
  store_inv logs rel s (files d) -> held logs (rs_released s) r ->
  r_EdgeSequence r <= at_or_zero (rs_released s) (r_EdgeID r) \/ readable d r.
Proof.
  intros I [H|(r' & Hr' & Hc)]; [by left|right].
  destruct (logs !! r_EdgeID r) as [rs|] eqn:E; [|by apply elem_of_nil in Hr'].
  destruct (lo_file _ _ (iv_logs _ _ _ _ I) _ _ E) as (_ & f & Hf & b & Hb & Hd & _).
  exists f, rs, r'. rewrite Hd, (scan_bytes_image _ _ Hb). done.
Qed.

End log.


(** ** Reference codec and examples *)

#[export] Instance wire_release : Wire releaseCheckpoint.
Proof.
  refine (wire_iso (fun c => (rl_Format c, rl_FormatVersion c, rl_EdgeID c, rl_ReleasedThrough c))
    (fun '(f, v, e, n) => mkRelease f v e n) _).
  by intros [].
Defined.

Lemma wire_unmarshal (r : WalRecord) (p : bytes) :
  @marshal_record wire_wal_codec r = Some p -> mark_get p = Some r.
Proof. unfold marshal_record, wire_wal_codec. apply mark_law. Qed.

Definition wire_replica_codec : ReplicaCodec wire_wal_codec := {|
  unmarshal_record := mark_get;
  marshal_release := mark_put;
  decode_release := mark_get;
  unmarshal_marshal_record r p _ _ := wire_unmarshal r p;
  decode_marshal_release c p _ := mark_law c p;
|}.

#[local] Existing Instance wire_wal_codec.
#[local] Existing Instance wire_replica_codec.

Definition demo_config : StoreConfig := mkStoreConfig "" 0.
Definition demo_walk : gmap string Z -> list (string * Z) := map_to_list.
Definition demo_open : result Store * disk := OpenStoreWithConfig demo_config (mkDisk ∅ [] 0).
Definition demo_store : Store :=
  match demo_open.1 with Ok s => s | Err _ => mkStore "" 0 0 ∅ ∅ ∅ true end.
Definition demo_record : WalRecord := example_record 1 "".
Definition demo_next : WalRecord := example_record 2 (r_RecordHash demo_record).
Definition demo_put : result bool * (Store * disk) := Put demo_walk demo_record (demo_store, demo_open.2).

Lemma demo_open_ok : demo_open = (Ok demo_store, demo_open.2).
Proof.
  assert (is_ok demo_open.1 = true) as H by (vm_compute; reflexivity).
  unfold demo_store. destruct demo_open as [[s|e] d]; [reflexivity|discriminate H].
Qed.

Lemma demo_put_ok : demo_put = (Ok false, demo_put.2).
Proof.
  assert (demo_put.1 = Ok false) as H by (vm_compute; reflexivity).
  destruct demo_put as [r sd]. cbn in H. by subst r.
Qed.

Lemma demo_enc : exists p, enc demo_record p.
Proof.
  assert (marshal_record demo_record = Some (default [] (marshal_record demo_record))) as E by reflexivity.
  exists (default [] (marshal_record demo_record)). split; [exact E|]. split; [exact (wire_unmarshal demo_record _ E)|].
  assert (bool_decide (Record_Validate demo_record = Ok tt) &&
    (0 <? zlen (default [] (marshal_record demo_record))) &&
    (zlen (default [] (marshal_record demo_record)) <=? maxReplicaFrame) = true) as H by (vm_compute; reflexivity).
  rewrite !andb_true_iff, bool_decide_eq_true, Z.ltb_lt, Z.leb_le in H. tauto.
Qed.

Lemma demo_names : names_distinct {["edge-1"]}.
Proof. intros e1 e2 ->%elem_of_singleton ->%elem_of_singleton _. reflexivity. Qed.

Lemma demo_life : life {["edge-1"]} demo_put.2.1 demo_put.2.2 [demo_record].
Proof.
  destruct demo_enc as [p Hp].
  apply (life_put _ demo_store demo_open.2 [] demo_walk demo_record p false).
  - exact (life_new _ demo_config 0 _ _ demo_open_ok).
  - by intros m.
  - by apply elem_of_singleton.
  - exact Hp.
  - etransitivity; [exact demo_put_ok|]. by destruct demo_put as [? [? ?]].
Qed.


(** The calls of the two scenarios below: a first [Put] that fails in the header of
    a new log, and a second one that fails inside a payload and is tried again. *)
Definition torn_first : result bool * (Store * disk) :=
  Put demo_walk demo_record (demo_store, mkDisk ∅ [IoOk; IoOk; IoFail 3] 0).
Definition torn_second : result bool * (Store * disk) :=
  Put demo_walk demo_next (demo_put.2.1, mkDisk (files demo_put.2.2) [IoOk; IoOk; IoOk; IoFail 5] 0).
Definition retried_second : result bool * (Store * disk) := Put demo_walk demo_next torn_second.2.

Definition reopen (d : disk) : result Store := (OpenStoreWithConfig demo_config (mkDisk (files d) [] 0)).1.

(** A failed write is not contained.  A [Put] that fails inside a frame leaves the
    store open, a retry is acknowledged behind the torn frame, and after a restart
    the log no longer opens although both its records were acknowledged; and a first
    [Put] that fails inside the eight header bytes leaves a file that blocks every
    later start of the store. *)
Theorem failed_put_poisons_log :
  is_ok torn_second.1 = false /\ demo_put.1 = Ok false /\ retried_second.1 = Ok false /\
  is_ok (reopen demo_put.2.2) = true /\ is_ok (reopen retried_second.2.2) = false /\
  is_ok torn_first.1 = false /\ is_ok (reopen torn_first.2.2) = false.
Proof. vm_compute. auto 10. Qed.
