(* ===== verification/Mesh.v ===== *)
(** * Global edge mesh ([internal/mesh])

    [model.go] and [config.go]: configuration; [manager.go]: the health view of
    the peers and the ownership decision [Route]; [publisher.go]: delivery with
    failover; [http.go]: the receiving node.

    [range] over the peer map has no order of its own, so [Route] is run against
    a [moment]: the order in which the map is walked, what the local state
    provider returned, and the clock readings.  The network and the Kafka
    publisher are operations on a world [W]. *)

From S2P Require Import Prelude GoStrings GoFloat Hash Domain Topology.

Local Open Scope string_scope.
Local Open Scope Z_scope.
Local Open Scope list_scope.

(** ** Numbers and times *)

(** [0.90]. *)
Definition default_pressure : float64 := S754_finite false 8106479329266893 (-53).

Definition second : Z := 1000000000.

(** [Time.Sub] saturates at the ends of [Duration]. *)
Definition time_sub (a b : time) : Z := Z.max (- 2 ^ 63) (Z.min (2 ^ 63 - 1) (a - b)).

(** [binary.BigEndian.Uint64]. *)
Definition be64_decode (b : bytes) : Z :=
  be32_decode (take 4 b) * 2 ^ 32 + be32_decode (take 4 (drop 4 b)).

(** ** Data *)

Record State := mkState {
  st_Node : Node;
  st_Ready : bool;
  st_Draining : bool;
  st_PendingRecords : Z;
  st_WALBytes : Z;
  st_WALMaxBytes : Z;
  st_Pressure : float64;
  st_ObservedAt : time;
}.

(** [LastError] keeps the error whose text the field holds. *)
Record PeerStatus := mkPeerStatus {
  ps_State : State;
  ps_Healthy : bool;
  ps_LatencyMS : float64;
  ps_ConsecutiveFailures : Z;
  ps_LastSuccessAt : time;
  ps_LastFailureAt : time;
  ps_LastError : option error;
}.

Record Candidate := mkCandidate {
  c_Node : Node;
  c_Locality : Z;
  c_Score : Z;
  c_Pressure : float64;
  c_LatencyMS : float64;
  c_IsLocal : bool;
}.

Record Route := mkRoute {
  ro_Key : string;
  ro_Selected : Node;
  ro_Candidates : list Candidate;
  ro_Policy : string;
  ro_GeneratedAt : time;
}.

Record Snapshot := mkSnapshot {
  sn_Local : State;
  sn_Peers : list PeerStatus;
  sn_Policy : string;
  sn_MaxPressure : float64;
  sn_GeneratedAt : time;
}.

Record Config := mkConfig {
  cf_Local : Node;
  cf_Peers : list Node;
  cf_Token : string;
  cf_Policy : string;
  cf_ProbeInterval : Z;
  cf_Timeout : Z;
  cf_StaleAfter : Z;
  cf_MaxPressure : float64;
}.

(** ** Configuration *)

Definition ParsePeers (raw : string) : result (list Node) :=
  parse_peers "mesh peer must be id|url|cloud|region|zone" raw.

Record url := mkUrl { u_Scheme : string; u_Host : string }.

(** [net/url.Parse]: the scheme and host of a reference, or an error. *)
Class UrlParser := url_parse : string -> option url.

Definition check_policy (policy : string) : result unit :=
  if bool_decide (policy = "") || bool_decide (policy = "locality") || bool_decide (policy = "global")
  then Ok tt else Err (ErrMsg "unsupported mesh routing policy").

Definition peer_reachable `{UrlParser} (peer : Node) : result unit :=
  if blank (n_ID peer) || blank (n_URL peer) then Err (ErrMsg "mesh peers require ID and URL")
  else match url_parse (trim_space (n_URL peer)) with
  | Some u =>
      if (negb (bool_decide (u_Scheme u = "http")) && negb (bool_decide (u_Scheme u = "https")))
         || blank (u_Host u)
      then Err (ErrMsg "mesh peer URL must use http or https with a host")
      else Ok tt
  | None => Err (ErrMsg "mesh peer URL must use http or https with a host")
  end.

Definition Config_Validate `{UrlParser} (config : Config) : result unit :=
  if blank (n_ID (cf_Local config)) then Err (ErrMsg "local mesh node ID is required")
  else
    _ ← check_policy (cf_Policy config);
    if SFltb (cf_MaxPressure config) float_zero || SFltb float_one (cf_MaxPressure config)
    then Err (ErrMsg "mesh max pressure must be between 0 and 1")
    else
      _ ← check_peers peer_reachable "duplicate mesh node ID" (cf_Peers config)
            {[n_ID (cf_Local config)]};
      if (0 <? zlen (cf_Peers config)) && blank (cf_Token config)
      then Err (ErrMsg "configured mesh peers require TELEMETRYFORGE_MESH_TOKEN")
      else Ok tt.

Definition normalizedConfig (config : Config) : Config :=
  let policy := to_lower (trim_space (cf_Policy config)) in
  let policy := if bool_decide (policy = "") then "locality" else policy in
  let interval := if cf_ProbeInterval config <=? 0 then 5 * second else cf_ProbeInterval config in
  let timeout := if cf_Timeout config <=? 0 then 2 * second else cf_Timeout config in
  let stale := if cf_StaleAfter config <=? 0 then i64 (3 * interval) else cf_StaleAfter config in
  let pressure :=
    if SFeqb (cf_MaxPressure config) float_zero then default_pressure else cf_MaxPressure config in
  mkConfig (cf_Local config) (cf_Peers config) (cf_Token config) policy interval timeout stale pressure.

(** ** The manager *)

(** [wake] is the one-place channel that asks [Run] for another probe round. *)
Record Manager := mkManager {
  mm_config : Config;
  mm_peers : gmap string PeerStatus;
  mm_wake : bool;
}.

Definition zero_state (node : Node) : State := mkState node false false 0 0 0 float_zero 0.
Definition zero_status (node : Node) : PeerStatus :=
  mkPeerStatus (zero_state node) false float_zero 0 0 0 None.
Definition zero_node : Node := mkNode "" "" (mkDomain "" "" "").

Definition set_peers (peers : gmap string PeerStatus) (m : Manager) : Manager :=
  mkManager (mm_config m) peers (mm_wake m).

(** [provided] tells whether a local state provider was given. *)
Definition NewManager `{UrlParser} (config : Config) (provided : bool) : result Manager :=
  let config := normalizedConfig config in
  _ ← Config_Validate config;
  if negb provided then Err (ErrMsg "mesh local state provider is required")
  else Ok (mkManager config
             (foldl (fun peers peer => <[n_ID peer := zero_status peer]> peers) ∅ (cf_Peers config))
             false).

(** A status after a failure and after a success. *)
Definition failed (e : option error) (now : time) (s : PeerStatus) : PeerStatus :=
  mkPeerStatus (ps_State s) false (ps_LatencyMS s) (i64 (ps_ConsecutiveFailures s + 1))
    (ps_LastSuccessAt s) now e.

Definition observed_at (now : time) (s : State) : State :=
  mkState (st_Node s) (st_Ready s) (st_Draining s) (st_PendingRecords s) (st_WALBytes s)
    (st_WALMaxBytes s) (st_Pressure s) now.

Definition with_node (node : Node) (s : State) : State :=
  mkState node (st_Ready s) (st_Draining s) (st_PendingRecords s) (st_WALBytes s)
    (st_WALMaxBytes s) (st_Pressure s) (st_ObservedAt s).

Definition recordProbe (node : Node) (outcome : result State) (latency : Z) (now : time) (m : Manager)
  : Manager :=
  let status := default (zero_status zero_node) (mm_peers m !! n_ID node) in
  let status :=
    match outcome with
    | Err e => failed (Some e) now status
    | Ok state =>
        mkPeerStatus (observed_at now state) true
          (float_div (float_of_int (Z.quot latency 1000)) float_thousand) 0 now
          (ps_LastFailureAt status) None
    end in
  set_peers (<[n_ID node := status]> (mm_peers m)) m.

Definition ReportFailure (nodeID : string) (err : option error) (now : time) (m : Manager) : Manager :=
  if bool_decide (nodeID = n_ID (cf_Local (mm_config m))) then m
  else
    let peers :=
      match mm_peers m !! nodeID with
      | Some status =>
          <[nodeID := failed (union err (ps_LastError status)) now status]> (mm_peers m)
      | None => mm_peers m
      end in
    mkManager (mm_config m) peers true.

Definition ReportSuccess (nodeID : string) (now : time) (m : Manager) : Manager :=
  if bool_decide (nodeID = n_ID (cf_Local (mm_config m))) then m
  else match mm_peers m !! nodeID with
  | Some s =>
      set_peers (<[nodeID := mkPeerStatus (ps_State s) true (ps_LatencyMS s) 0 now
                               (ps_LastFailureAt s) None]> (mm_peers m)) m
  | None => m
  end.

(** A peer's answer to a probe: the status code and the decoded body. *)
Record probe_response := mkProbeResponse { pr_status : Z; pr_state : option State }.

(** [probePeer] from the transport's outcome on. *)
Definition probePeer (peer : Node) (outcome : result probe_response) : result State :=
  resp ← outcome;
  if negb (pr_status resp =? 200) then Err (ErrMsg "mesh peer returned an error status")
  else match pr_state resp with
  | None => Err (ErrMsg "invalid mesh state body")
  | Some state =>
      if negb (bool_decide (n_ID (st_Node state) = n_ID peer))
      then Err (ErrMsg "mesh peer identity mismatch")
      else if negb (bool_decide (n_Domain (st_Node state) = n_Domain peer))
      then Err (ErrMsg "mesh peer failure-domain mismatch")
      else Ok (with_node (mkNode (n_ID (st_Node state)) (n_URL peer) (n_Domain (st_Node state))) state)
  end.

(** What [Probe] receives next: the end of its context, or one probe's outcome,
    its latency and the time it is recorded at. *)
Inductive probe_arrival : Type :=
  | ProbeDone
  | Probed (peer : Node) (outcome : result probe_response) (latency : Z) (now : time).

Fixpoint probe_loop (rounds : list Node) (events : list probe_arrival) (m : Manager) : Manager :=
  match rounds, events with
  | _ :: rounds', Probed peer outcome latency now :: events' =>
      probe_loop rounds' events' (recordProbe peer (probePeer peer outcome) latency now m)
  | _, _ => m
  end.

Definition Probe (events : list probe_arrival) (m : Manager) : Manager :=
  probe_loop (cf_Peers (mm_config m)) events m.

(** ** Ownership *)

Definition localityTier (local remote : FailureDomain) : Z :=
  if bool_decide (fd_Cloud local = fd_Cloud remote) && bool_decide (fd_Region local = fd_Region remote)
     && bool_decide (fd_Zone local = fd_Zone remote) then 0
  else if bool_decide (fd_Cloud local = fd_Cloud remote) && negb (bool_decide (fd_Region local = ""))
          && bool_decide (fd_Region local = fd_Region remote) then 1
  else if negb (bool_decide (fd_Cloud local = "")) && bool_decide (fd_Cloud local = fd_Cloud remote) then 2
  else 3.

Definition candidateFor (key : string) (node : Node) (pressure latency : float64) (local : bool)
    (localNode : Node) (policy : string) : Candidate :=
  let score := be64_decode (take 8 (sha256 (to_bytes (key +:+ "|" +:+ n_ID node)))) in
  let locality :=
    if bool_decide (policy = "locality") then localityTier (n_Domain localNode) (n_Domain node) else 0 in
  mkCandidate node locality score pressure latency local.

Definition eligible (state : State) (local : bool) (now : time) (staleAfter : Z) (maxPressure : float64)
  : bool :=
  if negb (st_Ready state) || st_Draining state || SFleb maxPressure (st_Pressure state) then false
  else if negb local && (is_zero (st_ObservedAt state) || (staleAfter <? time_sub now (st_ObservedAt state)))
  then false
  else true.

(** The comparison that ranks candidates. *)
Definition cand_less (a b : Candidate) : bool :=
  if negb (c_Locality a =? c_Locality b) then c_Locality a <? c_Locality b
  else if negb (c_Score a =? c_Score b) then c_Score b <? c_Score a
  else String.ltb (n_ID (c_Node a)) (n_ID (c_Node b)).

(** A stable sort by [less] keeps [a] before [b] unless [less b a]. *)
Definition cand_le (a b : Candidate) : Prop := cand_less b a = false.
#[export] Instance cand_le_dec : RelDecision cand_le.
Proof. intros a b. unfold cand_le. apply _. Defined.

(** The circumstances of one call: the walk over the peer map, the local
    provider's answer, and the clock at the call's reading points. *)
Record moment := mkMoment {
  mo_walk : gmap string PeerStatus -> list PeerStatus;
  mo_local : State;
  mo_clock : nat -> time;
}.

Definition local_state (mo : moment) (m : Manager) : State :=
  let local := with_node (cf_Local (mm_config m)) (mo_local mo) in
  if is_zero (st_ObservedAt local) then observed_at (mo_clock mo 0) local else local.

Definition local_candidates (mo : moment) (key : string) (m : Manager) : list Candidate :=
  let config := mm_config m in
  let local := local_state mo m in
  if eligible local true (mo_clock mo 1) (cf_StaleAfter config) (cf_MaxPressure config)
  then [candidateFor key (cf_Local config) (st_Pressure local) float_zero true (cf_Local config)
          (cf_Policy config)]
  else [].

(** The candidate a peer's status makes, if it is healthy and eligible. *)
Definition peer_candidate (now : time) (key : string) (config : Config) (status : PeerStatus)
  : option Candidate :=
  let state := ps_State status in
  if negb (ps_Healthy status)
     || negb (eligible state false now (cf_StaleAfter config) (cf_MaxPressure config))
  then None
  else Some (candidateFor key (st_Node state) (st_Pressure state) (ps_LatencyMS status) false
               (cf_Local config) (cf_Policy config)).

Definition candidates_of (mo : moment) (key : string) (m : Manager) : list Candidate :=
  local_candidates mo key m ++
  omap (peer_candidate (mo_clock mo 2) key (mm_config m)) (mo_walk mo (mm_peers m)).

Definition Manager_Route (mo : moment) (key : string) (m : Manager) : result Route :=
  match merge_sort cand_le (candidates_of mo key m) with
  | [] => Err ErrNoRoute
  | (best :: _) as ranked =>
      Ok (mkRoute key (c_Node best) ranked (cf_Policy (mm_config m)) (mo_clock mo 3))
  end.

Definition status_le (a b : PeerStatus) : Prop :=
  String.ltb (n_ID (st_Node (ps_State b))) (n_ID (st_Node (ps_State a))) = false.
#[export] Instance status_le_dec : RelDecision status_le.
Proof. intros a b. unfold status_le. apply _. Defined.

Definition Manager_Snapshot (mo : moment) (m : Manager) : Snapshot :=
  mkSnapshot (local_state mo m) (merge_sort status_le (mo_walk mo (mm_peers m)))
    (cf_Policy (mm_config m)) (cf_MaxPressure (mm_config m)) (mo_clock mo 3).

(** One thing that happens to a manager: a turn of [Run]'s loop on the ticker or on
    the wake channel, or a report of the publisher. *)
Inductive mesh_event : Type :=
  | Tick (events : list probe_arrival)
  | Woken (events : list probe_arrival)
  | Failure (nodeID : string) (err : option error) (now : time)
  | Success (nodeID : string) (now : time).

Definition mesh_apply (m : Manager) (e : mesh_event) : Manager :=
  match e with
  | Tick events => Probe events m
  | Woken events =>
      if mm_wake m then Probe events (mkManager (mm_config m) (mm_peers m) false) else m
  | Failure nodeID err now => ReportFailure nodeID err now m
  | Success nodeID now => ReportSuccess nodeID now m
  end.

(** ** The publisher *)

Record ForwardRequest := mkForward {
  fw_TargetNodeID : string;
  fw_RouteKey : string;
  fw_Topic : string;
  fw_Event : Event;
}.

Record BatchItem := mkBatchItem { bi_Topic : string; bi_Event : Event }.

(** The publishing contract; [ds_PublishBatch] is there when the value also
    implements [stream.BatchPublisher]. *)
Record Downstream (W : Type) := mkDownstream {
  ds_Publish : string -> Event -> M W unit;
  ds_PublishBatch : option (list BatchItem -> W -> list (option error) * W);
}.
Arguments mkDownstream {W} _ _.
Arguments ds_Publish {W} _ _ _.
Arguments ds_PublishBatch {W} _.

(** The two ways out of a node: its own downstream, and a forward request to a
    peer, which gives the response's status code or a transport error. *)
Record Publisher (W : Type) := mkPublisher {
  pb_local : Downstream W;
  pb_send : Node -> ForwardRequest -> M W Z;
}.
Arguments mkPublisher {W} _ _.
Arguments pb_local {W} _.
Arguments pb_send {W} _ _ _.

Definition pipe : ascii := "|"%char.

(** [strings.Trim(key, "|") == ""]: only separators. *)
Definition only_pipes (s : string) : bool :=
  forallb (fun c => bool_decide (c = pipe)) (chars_of_string s).

Definition routeKey (event : Event) : string :=
  let key := join "|" [trim_space (ev_TenantID event); trim_space (ev_Source event)] in
  if only_pipes key then ev_ID event else key.

Section publisher.
Context {W : Type} (pub : Publisher W).

Definition forwardToPeer (peer : Node) (payload : ForwardRequest) : M W unit :=
  status ← pb_send pub peer payload;
  if negb (status =? 204) then raise (ErrMsg "mesh peer forward returned an error status")
  else mret tt.

(** The candidate loop of [Publish]: the world and the manager are both updated;
    the failures are collected in order. *)
Fixpoint publish_loop (mo : moment) (key topic : string) (event : Event) (cands : list Candidate)
    (failures : list error) (m : Manager) (w : W) : result unit * (Manager * W) :=
  match cands with
  | [] =>
      (Err (if failures is [] then ErrNoRoute else ErrWrap "mesh candidates failed" ErrNoRoute), (m, w))
  | candidate :: cands' =>
      let node := c_Node candidate in
      if bool_decide (n_ID node = n_ID (cf_Local (mm_config m))) then
        match ds_Publish (pb_local pub) topic event w with
        | (Ok _, w) => (Ok tt, (m, w))
        | (Err e, w) => publish_loop mo key topic event cands' (failures ++ [e]) m w
        end
      else
        match forwardToPeer node (mkForward (n_ID node) key topic event) w with
        | (Ok _, w) => (Ok tt, (ReportSuccess (n_ID node) (mo_clock mo (4 + length failures)) m, w))
        | (Err e, w) =>
            publish_loop mo key topic event cands' (failures ++ [e])
              (ReportFailure (n_ID node) (Some e) (mo_clock mo (4 + length failures)) m) w
        end
  end.

Definition Publish (mo : moment) (topic : string) (event : Event) (m : Manager) (w : W)
  : result unit * (Manager * W) :=
  let key := routeKey event in
  match Manager_Route mo key m with
  | Err e => (Err e, (m, w))
  | Ok route => publish_loop mo key topic event (ro_Candidates route) [] m w
  end.

(** The first pass of [PublishBatch]: the routing error of each item, and whether
    all items are owned here.  The moments are those of the items in order. *)
Fixpoint route_all (mos : nat -> moment) (index : nat) (items : list BatchItem) (m : Manager)
  : list (option error) * bool :=
  match items with
  | [] => ([], true)
  | item :: items' =>
      let '(errs, all_local) := route_all mos (S index) items' m in
      match Manager_Route (mos index) (routeKey (bi_Event item)) m with
      | Err e => (Some e :: errs, false)
      | Ok route =>
          (None :: errs,
           bool_decide (n_ID (ro_Selected route) = n_ID (cf_Local (mm_config m))) && all_local)
      end
  end.

(** The second pass, over the items that have no result yet. *)
Fixpoint publish_each (mos : nat -> moment) (index : nat) (items : list BatchItem)
    (results : list (option error)) (m : Manager) (w : W) : list (option error) * (Manager * W) :=
  match items, results with
  | item :: items', Some e :: results' =>
      let '(rs, s) := publish_each mos (S index) items' results' m w in (Some e :: rs, s)
  | item :: items', None :: results' =>
      let '(r, (m, w)) := Publish (mos index) (bi_Topic item) (bi_Event item) m w in
      let '(rs, s) := publish_each mos (S index) items' results' m w in
      ((if r is Err e then Some e else None) :: rs, s)
  | _, _ => ([], (m, w))
  end.

Definition PublishBatch (before after : nat -> moment) (items : list BatchItem) (m : Manager) (w : W)
  : list (option error) * (Manager * W) :=
  let results := replicate (length items) None in
  if (length items =? 0)%nat then (results, (m, w))
  else match ds_PublishBatch (pb_local pub) with
  | Some publish_batch =>
      let '(results, all_local) := route_all before 0 items m in
      if all_local then let '(rs, w) := publish_batch items w in (rs, (m, w))
      else publish_each after 0 items results m w
  | None => publish_each after 0 items results m w
  end.

Definition Publisher_Ready (mo : moment) (m : Manager) : result unit :=
  _ ← Manager_Route mo "__telemetryforge_readiness__" m; Ok tt.
End publisher.

(** ** The receiving node *)

Record Handler := mkHandler { hd_local : Node; hd_token : string }.

(** A request to the mesh endpoints: the forward body as the strict decoder reads
    it from the first 4 MiB, and whether anything follows it. *)
Record http_request := mkRequest {
  rq_method : string;
  rq_path : string;
  rq_authorization : string;
  rq_body : option ForwardRequest;
  rq_trailing : bool;
}.

Definition authorized (handler : Handler) (request : http_request) : bool :=
  if bool_decide (hd_token handler = "") then false
  else
    let expected := "Bearer " +:+ hd_token handler in
    let provided := rq_authorization request in
    if negb (String.length expected =? String.length provided)%nat then false
    else bool_decide (expected = provided).

Section handler.
Context {W : Type} (local_publish : string -> Event -> M W unit).

Definition Handler_forward (handler : Handler) (request : http_request) : M W Z :=
  match rq_body request with
  | None => mret 400
  | Some forward =>
      if rq_trailing request || blank (fw_Topic forward) || blank (fw_TargetNodeID forward)
         || blank (fw_RouteKey forward) then mret 400
      else if negb (bool_decide (fw_TargetNodeID forward = n_ID (hd_local handler))) then mret 409
      else match Event_Validate (fw_Event forward) with
      | Err _ => mret 400
      | Ok _ =>
          r ← attempt (local_publish (fw_Topic forward) (fw_Event forward));
          mret (if r is Ok _ then 204 else 503)
      end
  end.

(** The status code and, for a state query, the advertised state. *)
Definition ServeHTTP (handler : Handler) (state : State) (now : time) (request : http_request)
  : M W (Z * option State) :=
  if negb (authorized handler request) then mret (401, None)
  else if bool_decide (rq_method request = "GET") && bool_decide (rq_path request = "/internal/v1/mesh/state")
  then mret (200, Some (observed_at now (with_node (hd_local handler) state)))
  else if bool_decide (rq_method request = "POST")
          && bool_decide (rq_path request = "/internal/v1/mesh/forward")
  then status ← Handler_forward handler request; mret (status, None)
  else mret (404, None).
End handler.

(** ** Lemmas: ranking *)

Lemma string_ltb_false a b : String.ltb a b = false <-> String.le b a.
Proof.
  unfold String.ltb, String.le, String.leb. rewrite (String.compare_antisym b a).
  by destruct (String.compare a b).
Qed.

Lemma cand_le_spec a b :
  cand_le a b <->
  c_Locality a < c_Locality b \/
  (c_Locality a = c_Locality b /\
   (c_Score b < c_Score a \/ (c_Score a = c_Score b /\ String.le (n_ID (c_Node a)) (n_ID (c_Node b))))).
Proof.
  unfold cand_le, cand_less.
  destruct (Z.eqb_spec (c_Locality b) (c_Locality a)) as [EL|NL]; cbn.
  - destruct (Z.eqb_spec (c_Score b) (c_Score a)) as [ES|NS]; cbn.
    + rewrite string_ltb_false. intuition lia.
    + rewrite Z.ltb_ge. intuition lia.
  - rewrite Z.ltb_ge. intuition lia.
Qed.

#[export] Instance cand_le_trans : Transitive cand_le.
Proof.
  intros a b c. rewrite !cand_le_spec.
  intros [?|[? [?|[? ?]]]] [?|[? [?|[? ?]]]]; try lia.
  right. split; [lia|]. right. split; [lia|]. by etrans.
Qed.

#[export] Instance cand_le_total : Total cand_le.
Proof.
  intros a b. rewrite !cand_le_spec.
  destruct (total String.le (n_ID (c_Node a)) (n_ID (c_Node b))); lia || (
  destruct (Z.lt_trichotomy (c_Locality a) (c_Locality b)) as [|[|]]; try lia;
  destruct (Z.lt_trichotomy (c_Score a) (c_Score b)) as [|[|]]; intuition lia).
Qed.

Lemma cand_le_antisym a b : cand_le a b -> cand_le b a -> n_ID (c_Node a) = n_ID (c_Node b).
Proof.
  rewrite !cand_le_spec. intros [?|[? [?|[? ?]]]] [?|[? [?|[? ?]]]]; try lia.
  by apply (anti_symm String.le).
Qed.

#[export] Instance status_le_trans : Transitive status_le.
Proof. intros a b c. unfold status_le. rewrite !string_ltb_false. intros. by etrans. Qed.

#[export] Instance status_le_total : Total status_le.
Proof. intros a b. unfold status_le. rewrite !string_ltb_false. apply (total String.le). Qed.

Section sorting.
Context {A : Type} (R : relation A) `{!RelDecision R, !Transitive R, !Total R} (name : A -> string).
Context (R_names : forall a b, R a b -> R b a -> name a = name b).

Lemma NoDup_names_inj (l : list A) a b :
  NoDup (name <$> l) -> a ∈ l -> b ∈ l -> name a = name b -> a = b.
Proof.
  intros H (i & Hi)%list_elem_of_lookup (j & Hj)%list_elem_of_lookup E.
  assert (i = j) as ->; [|congruence].
  apply (NoDup_lookup (name <$> l) i j (name a)); [done|by rewrite list_lookup_fmap, Hi|].
  by rewrite list_lookup_fmap, Hj, E.
Qed.

(** Sorting by a relation that separates names does not depend on the order of
    the input. *)
Lemma sort_unique l l' :
  NoDup (name <$> l) -> l ≡ₚ l' -> StronglySorted R l' -> merge_sort R l = l'.
Proof.
  intros ND P S. apply (StronglySorted_unique_strong R).
  - intros a b Ha Hb H1 H2. rewrite merge_sort_Permutation in Ha.
    apply (NoDup_names_inj l); [done|done|by rewrite P|by apply R_names].
  - by apply (StronglySorted_merge_sort R).
  - done.
  - by rewrite merge_sort_Permutation.
Qed.

Lemma sort_perm l l' :
  NoDup (name <$> l) -> l ≡ₚ l' -> merge_sort R l = merge_sort R l'.
Proof.
  intros ND P. apply sort_unique; [done|by rewrite merge_sort_Permutation|].
  by apply (StronglySorted_merge_sort R).
Qed.

Lemma sorted_filter (P : A -> Prop) `{forall x, Decision (P x)} l :
  StronglySorted R l -> StronglySorted R (filter P l).
Proof.
  induction 1 as [|a l H0 IH Ha]; [constructor|]. rewrite filter_cons. case_decide; [|done].
  constructor; [done|]. rewrite Forall_forall in Ha |- *. intros x [_ Hx]%list_elem_of_filter. auto.
Qed.

(** Leaving elements out before sorting is leaving them out of the sorted list. *)
Lemma sort_filter (P : A -> Prop) `{forall x, Decision (P x)} l l' :
  NoDup (name <$> l) -> l' ≡ₚ filter P l -> merge_sort R l' = filter P (merge_sort R l).
Proof.
  intros ND E. apply sort_unique.
  - rewrite E. apply (sublist_NoDup _ (name <$> l)); [done|].
    apply fmap_sublist. apply sublist_filter.
  - by rewrite E, merge_sort_Permutation.
  - apply sorted_filter. by apply (StronglySorted_merge_sort R).
Qed.
End sorting.

(** ** Lemmas: the topology view *)

(** [range] visits every entry once, in some order. *)
Definition fair (mo : moment) : Prop :=
  forall peers, mo_walk mo peers ≡ₚ (map_to_list peers).*2.

(** Every status is that of a configured peer, with the node it was configured
    as; every configured peer has one; identities differ, the local one too. *)
Record mesh_inv (m : Manager) : Prop := {
  mi_node id s : mm_peers m !! id = Some s ->
    n_ID (st_Node (ps_State s)) = id /\ st_Node (ps_State s) ∈ cf_Peers (mm_config m);
  mi_dom peer : peer ∈ cf_Peers (mm_config m) -> is_Some (mm_peers m !! n_ID peer);
  mi_local peer : peer ∈ cf_Peers (mm_config m) -> n_ID peer <> n_ID (cf_Local (mm_config m));
  mi_nodup : NoDup (n_ID <$> cf_Peers (mm_config m));
}.

(** The probes that arrive are those of configured peers. *)
Definition probes_peers (config : Config) (e : mesh_event) : Prop :=
  match e with
  | Tick events | Woken events =>
      Forall (fun a => match a with Probed peer _ _ _ => peer ∈ cf_Peers config | ProbeDone => True end) events
  | _ => True
  end.

Lemma initial_peers_lookup (peers : list Node) (acc : gmap string PeerStatus) :
  NoDup (n_ID <$> peers) ->
  forall id s, foldl (fun ps peer => <[n_ID peer := zero_status peer]> ps) acc peers !! id = Some s ->
  (exists peer, peer ∈ peers /\ n_ID peer = id /\ s = zero_status peer) \/ acc !! id = Some s.
Proof.
  revert acc. induction peers as [|p peers IH]; intros acc ND id s H; [by right|].
  apply NoDup_cons in ND as [_ ND]. destruct (IH _ ND id s H) as [(q & ? & ?)|H'].
  - left. exists q. split; [by right|done].
  - destruct (decide (n_ID p = id)) as [<-|N].
    + rewrite lookup_insert_eq in H'. injection H' as <-. left. exists p. repeat split. by left.
    + rewrite lookup_insert_ne in H' by done. by right.
Qed.

Lemma initial_peers_dom (peers : list Node) (acc : gmap string PeerStatus) id :
  id ∈ n_ID <$> peers \/ is_Some (acc !! id) ->
  is_Some (foldl (fun ps peer => <[n_ID peer := zero_status peer]> ps) acc peers !! id).
Proof.
  revert acc. induction peers as [|p peers IH]; intros acc H.
  - destruct H as [H|H]; [by apply elem_of_nil in H|done].
  - cbn. apply IH. destruct (decide (n_ID p = id)) as [<-|N].
    + right. by rewrite lookup_insert_eq.
    + rewrite lookup_insert_ne by done. destruct H as [H|H]; [|by right].
      rewrite fmap_cons, elem_of_cons in H. destruct H as [?|?]; [done|by left].
Qed.

Lemma NewManager_inv `{UrlParser} config provided m :
  NewManager config provided = Ok m ->
  mm_config m = normalizedConfig config /\ mesh_inv m.
Proof.
  unfold NewManager. cbv zeta. set (c := normalizedConfig config).
  destruct (Config_Validate c) as [[]|e] eqn:V; [|done]. cbn [mbind result_mbind].
  destruct provided; [|done]. cbn [negb]. intros [= <-]. split; [done|].
  unfold Config_Validate in V. destruct (blank _); [done|]. destruct (check_policy _); [|done].
  cbn [mbind result_mbind] in V. destruct (_ || _); [done|].
  destruct (check_peers _ _ _ _) as [[]|] eqn:CP; [|done].
  apply check_peers_distinct in CP as (_ & ND & LN). constructor; cbn [mm_config mm_peers].
  - intros id s E. destruct (initial_peers_lookup _ _ ND _ _ E) as [(p & Hp & <- & ->)|E']; [done|].
    by rewrite lookup_empty in E'.
  - intros p Hp. apply initial_peers_dom. left. by apply list_elem_of_fmap_2.
  - intros p Hp E. rewrite Forall_forall in LN. apply (LN p Hp). by rewrite E, elem_of_singleton.
  - done.
Qed.

(** Replacing the status of a peer by one with the same configured node. *)
Lemma mesh_inv_insert m peer s :
  mesh_inv m -> peer ∈ cf_Peers (mm_config m) -> st_Node (ps_State s) = peer ->
  mesh_inv (set_peers (<[n_ID peer := s]> (mm_peers m)) m).
Proof.
  intros I Hp Hs. constructor; cbn [set_peers mm_config mm_peers]; try apply I.
  - intros id s' E. destruct (decide (n_ID peer = id)) as [<-|N].
    + rewrite lookup_insert_eq in E. injection E as <-. by rewrite Hs.
    + rewrite lookup_insert_ne in E by done. by apply I.
  - intros q Hq. destruct (decide (n_ID peer = n_ID q)) as [->|N].
    + by rewrite lookup_insert_eq.
    + rewrite lookup_insert_ne by done. by apply I.
Qed.

Lemma mesh_inv_wake m b :
  mesh_inv m -> mesh_inv (mkManager (mm_config m) (mm_peers m) b).
Proof. by intros []. Qed.

(** A peer's identity determines its configuration. *)
Lemma configured_unique m p q :
  mesh_inv m -> p ∈ cf_Peers (mm_config m) -> q ∈ cf_Peers (mm_config m) -> n_ID p = n_ID q -> p = q.
Proof. intros I Hp Hq E. by eapply (NoDup_names_inj n_ID); [apply I| | |]. Qed.

Lemma probePeer_node peer outcome state :
  probePeer peer outcome = Ok state -> st_Node state = peer.
Proof.
  unfold probePeer. destruct outcome as [resp|e]; [|done]. cbn. destruct (negb _); [done|].
  destruct (pr_state resp) as [s|]; [|done]. case_bool_decide as E1; [|done].
  case_bool_decide as E2; [|done]. intros [= <-]. destruct peer. cbn in *. by subst.
Qed.

Lemma recordProbe_inv m peer outcome latency now :
  mesh_inv m -> peer ∈ cf_Peers (mm_config m) ->
  mesh_inv (recordProbe peer (probePeer peer outcome) latency now m).
Proof.
  intros I Hp. unfold recordProbe. destruct (mi_dom _ I _ Hp) as [s Es].
  destruct (mi_node _ I _ _ Es) as [En Hn]. apply mesh_inv_insert; [done..|].
  rewrite Es. cbn [default]. destruct (probePeer _ _) as [state|e] eqn:EP.
  - cbn. by apply probePeer_node in EP.
  - cbn. by apply (configured_unique m).
Qed.

Lemma probe_loop_inv rounds events m :
  mesh_inv m -> probes_peers (mm_config m) (Tick events) ->
  mesh_inv (probe_loop rounds events m) /\ mm_config (probe_loop rounds events m) = mm_config m.
Proof.
  revert events m. induction rounds as [|n rounds IH]; intros events m I H; [done|].
  destruct events as [|[|peer outcome latency now] events]; [done..|]. cbn.
  apply Forall_cons in H as [Hp H]. apply (IH events (recordProbe _ _ _ _ m)); [|done].
  by apply recordProbe_inv.
Qed.

Lemma ReportFailure_config id err now m : mm_config (ReportFailure id err now m) = mm_config m.
Proof. unfold ReportFailure. by case_bool_decide. Qed.

Lemma ReportSuccess_config id now m : mm_config (ReportSuccess id now m) = mm_config m.
Proof. unfold ReportSuccess. case_bool_decide; [done|]. by destruct (_ !! _). Qed.

Lemma ReportFailure_inv id err now m : mesh_inv m -> mesh_inv (ReportFailure id err now m).
Proof.
  intros I. unfold ReportFailure. case_bool_decide; [done|].
  destruct (mm_peers m !! id) as [s|] eqn:E; [|by apply mesh_inv_wake].
  destruct (mi_node _ I _ _ E) as [<- Hn].
  apply (mesh_inv_wake (set_peers _ m)). by apply mesh_inv_insert.
Qed.

Lemma ReportSuccess_inv id now m : mesh_inv m -> mesh_inv (ReportSuccess id now m).
Proof.
  intros I. unfold ReportSuccess. case_bool_decide; [done|].
  destruct (mm_peers m !! id) as [s|] eqn:E; [|done].
  destruct (mi_node _ I _ _ E) as [<- Hn]. by apply mesh_inv_insert.
Qed.

Lemma mesh_apply_inv e m :
  mesh_inv m -> probes_peers (mm_config m) e ->
  mesh_inv (mesh_apply m e) /\ mm_config (mesh_apply m e) = mm_config m.
Proof.
  intros I H. destruct e as [events|events|id err now|id now]; cbn [mesh_apply].
  - by apply probe_loop_inv.
  - destruct (mm_wake m); [|done].
    apply (probe_loop_inv _ _ (mkManager (mm_config m) (mm_peers m) false)); [by apply mesh_inv_wake|done].
  - split; [by apply ReportFailure_inv|apply ReportFailure_config].
  - split; [by apply ReportSuccess_inv|apply ReportSuccess_config].
Qed.

Lemma mesh_run_inv es m :
  mesh_inv m -> Forall (probes_peers (mm_config m)) es ->
  mesh_inv (foldl mesh_apply m es) /\ mm_config (foldl mesh_apply m es) = mm_config m.
Proof.
  revert m. induction es as [|e es IH]; intros m I H; [done|]. cbn.
  apply Forall_cons in H as [He H]. destruct (mesh_apply_inv e m I He) as [I' C].
  rewrite <- C. apply IH; [done|]. by rewrite C.
Qed.

(** ** Lemmas: ownership *)

Definition tier (config : Config) (node : Node) : Z :=
  if bool_decide (cf_Policy config = "locality")
  then localityTier (n_Domain (cf_Local config)) (n_Domain node) else 0.

Definition score (key : string) (node : Node) : Z :=
  be64_decode (take 8 (sha256 (to_bytes (key +:+ "|" +:+ n_ID node)))).

(** The documented preference: the nearer tier, then the higher rendezvous score,
    then the smaller identity. *)
Definition preferred (config : Config) (key : string) (a b : Node) : Prop :=
  tier config a < tier config b \/
  (tier config a = tier config b /\
   (score key b < score key a \/ (score key a = score key b /\ String.le (n_ID a) (n_ID b)))).

Definition serving (config : Config) (s : State) : Prop :=
  st_Ready s = true /\ st_Draining s = false /\ SFleb (cf_MaxPressure config) (st_Pressure s) = false.

Definition fresh (config : Config) (now : time) (s : State) : Prop :=
  st_ObservedAt s <> 0 /\ time_sub now (st_ObservedAt s) <= cf_StaleAfter config.

(** The nodes that can own a key at a moment. *)
Definition routable (mo : moment) (m : Manager) (node : Node) : Prop :=
  (node = cf_Local (mm_config m) /\ serving (mm_config m) (mo_local mo)) \/
  (exists s, mm_peers m !! n_ID node = Some s /\ st_Node (ps_State s) = node /\ ps_Healthy s = true /\
     serving (mm_config m) (ps_State s) /\ fresh (mm_config m) (mo_clock mo 2) (ps_State s)).

Lemma eligible_local s now config :
  eligible s true now (cf_StaleAfter config) (cf_MaxPressure config) = true <-> serving config s.
Proof.
  unfold eligible, serving. destruct (st_Ready s), (st_Draining s), (SFleb _ _); cbn; intuition congruence.
Qed.

Lemma eligible_remote s now config :
  eligible s false now (cf_StaleAfter config) (cf_MaxPressure config) = true <->
  serving config s /\ fresh config now s.
Proof.
  unfold eligible, serving, fresh, is_zero.
  destruct (st_Ready s), (st_Draining s), (SFleb _ _); cbn; try intuition congruence.
  destruct (Z.eqb_spec (st_ObservedAt s) 0); cbn; [intuition congruence|].
  destruct (Z.ltb_spec (cf_StaleAfter config) (time_sub now (st_ObservedAt s))); intuition (congruence || lia).
Qed.

Lemma serving_local_state mo m config :
  serving config (local_state mo m) <-> serving config (mo_local mo).
Proof. unfold local_state. by destruct (is_zero _). Qed.

Lemma local_candidates_spec mo key m c :
  c ∈ local_candidates mo key m ->
  c_Node c = cf_Local (mm_config m) /\ serving (mm_config m) (mo_local mo) /\
  c_Locality c = tier (mm_config m) (c_Node c) /\ c_Score c = score key (c_Node c).
Proof.
  unfold local_candidates. destruct (eligible _ _ _ _ _) eqn:E; [|by intros ?%elem_of_nil].
  intros ->%list_elem_of_singleton. by apply eligible_local, serving_local_state in E.
Qed.

Lemma peer_candidate_spec now key config s c :
  peer_candidate now key config s = Some c ->
  c_Node c = st_Node (ps_State s) /\ ps_Healthy s = true /\ serving config (ps_State s) /\
  fresh config now (ps_State s) /\ c_Locality c = tier config (c_Node c) /\ c_Score c = score key (c_Node c).
Proof.
  unfold peer_candidate. destruct (ps_Healthy s); [|done]. cbn.
  destruct (eligible _ _ _ _ _) eqn:E; [|done]. intros [= <-]. apply eligible_remote in E. cbn. tauto.
Qed.

Lemma elem_walk mo m s :
  fair mo -> s ∈ mo_walk mo (mm_peers m) <-> exists id, mm_peers m !! id = Some s.
Proof.
  intros F. rewrite (F (mm_peers m)), list_elem_of_fmap. split.
  - intros ([id s'] & -> & H). exists id. by apply elem_of_map_to_list.
  - intros [id H]. exists (id, s). split; [done|]. by apply elem_of_map_to_list.
Qed.

Lemma elem_candidates mo key m c :
  fair mo -> c ∈ candidates_of mo key m <->
  c ∈ local_candidates mo key m \/
  exists id s, mm_peers m !! id = Some s /\ peer_candidate (mo_clock mo 2) key (mm_config m) s = Some c.
Proof.
  intros F. unfold candidates_of. rewrite elem_of_app, list_elem_of_omap. f_equiv. split.
  - intros (s & Hs & E). apply elem_walk in Hs as [id Hid]; [|done]. eauto.
  - intros (id & s & Hid & E). exists s. split; [|done]. apply elem_walk; eauto.
Qed.

Lemma candidates_rank mo key m c :
  fair mo -> c ∈ candidates_of mo key m ->
  c_Locality c = tier (mm_config m) (c_Node c) /\ c_Score c = score key (c_Node c).
Proof.
  intros F. rewrite elem_candidates by done. intros [H|(id & s & _ & H)].
  - apply local_candidates_spec in H. tauto.
  - apply peer_candidate_spec in H. tauto.
Qed.

Lemma candidates_routable mo key m node :
  mesh_inv m -> fair mo -> node ∈ c_Node <$> candidates_of mo key m <-> routable mo m node.
Proof.
  intros I F. rewrite list_elem_of_fmap. unfold routable. split.
  - intros (c & -> & Hc). rewrite elem_candidates in Hc by done. destruct Hc as [H|(id & s & Hid & H)].
    + apply local_candidates_spec in H. left. tauto.
    + apply peer_candidate_spec in H as (E & ? & ? & ? & _). right. exists s.
      destruct (mi_node _ I _ _ Hid) as [En _]. rewrite E. by rewrite En.
  - intros [[-> S]|(s & Hs & E & Hh & S & Fr)].
    + eexists. rewrite elem_candidates by done. split; [|left]. 2:{ unfold local_candidates.
      rewrite (proj2 (eligible_local _ _ _)) by (by apply serving_local_state).
      by apply list_elem_of_singleton. } done.
    + eexists. rewrite elem_candidates by done. split; [|right]. 2:{ exists (n_ID node), s.
      split; [done|]. unfold peer_candidate. rewrite Hh, (proj2 (eligible_remote _ _ _)) by done. done. }
      cbn. by symmetry.
Qed.

Lemma peer_names_nodup (l : list (string * PeerStatus)) (f : PeerStatus -> option Candidate) :
  (forall id s, (id, s) ∈ l -> n_ID (st_Node (ps_State s)) = id) ->
  (forall s c, f s = Some c -> c_Node c = st_Node (ps_State s)) ->
  NoDup l.*1 -> NoDup ((fun c => n_ID (c_Node c)) <$> omap f l.*2).
Proof.
  intros Hid Hf. induction l as [|[id s] l IH]; [constructor|]. cbn.
  intros [Hn ND]%NoDup_cons.
  assert (NoDup ((fun c => n_ID (c_Node c)) <$> omap f l.*2)) as IH'.
  { apply IH; [|done]. intros id' s' H. apply Hid. by right. }
  destruct (f s) as [c|] eqn:E; [|done]. cbn. apply NoDup_cons. split; [|done].
  intros (c' & Ec & (s' & Hs' & E')%list_elem_of_omap)%list_elem_of_fmap. apply Hn.
  apply list_elem_of_fmap in Hs' as ([id' s''] & -> & Hin). apply list_elem_of_fmap.
  exists (id', s''). split; [|done]. cbn in *.
  rewrite <- (Hid id s) by by left. rewrite <- (Hid id' s'') by by right.
  by rewrite <- (Hf _ _ E), <- (Hf _ _ E').
Qed.

Lemma candidates_nodup mo key m :
  mesh_inv m -> fair mo -> NoDup ((fun c => n_ID (c_Node c)) <$> candidates_of mo key m).
Proof.
  intros I F. unfold candidates_of. rewrite fmap_app. apply NoDup_app. split_and!.
  - unfold local_candidates. destruct (eligible _ _ _ _ _); [apply NoDup_singleton|constructor].
  - intros id (c & -> & Hc)%list_elem_of_fmap (c' & E & (s & Hs & Hc')%list_elem_of_omap)%list_elem_of_fmap.
    apply local_candidates_spec in Hc as [Ec _]. apply peer_candidate_spec in Hc' as [Ec' _].
    apply elem_walk in Hs as [id Hid]; [|done]. destruct (mi_node _ I _ _ Hid) as [_ Hp].
    apply (mi_local _ I _ Hp). by rewrite <- Ec, <- Ec', E.
  - rewrite (F (mm_peers m)). apply peer_names_nodup; [| |apply NoDup_fst_map_to_list].
    + intros id s Hin%elem_of_map_to_list. by apply (mi_node _ I).
    + intros s c E. by apply peer_candidate_spec in E as [? _].
Qed.

Lemma filter_all {A} (P : A -> Prop) `{forall x, Decision (P x)} (l : list A) :
  (forall x, x ∈ l -> P x) -> filter P l = l.
Proof.
  induction l as [|x l IH]; intros Hl; [done|].
  rewrite filter_cons_True by (apply Hl; by left). f_equal. apply IH. intros y Hy. apply Hl. by right.
Qed.

Definition not_node (id : string) (c : Candidate) : Prop := n_ID (c_Node c) <> id.
#[local] Instance not_node_dec id c : Decision (not_node id c).
Proof. unfold not_node. apply _. Defined.

Lemma walk_delete mo (peers : gmap string PeerStatus) id s :
  fair mo -> peers !! id = Some s -> mo_walk mo peers ≡ₚ s :: (map_to_list (delete id peers)).*2.
Proof. intros F E. rewrite (F peers), <- (map_to_list_delete _ _ _ E). done. Qed.

(** The candidates that other peers' entries make. *)
Lemma others_kept mo key m id :
  mesh_inv m ->
  filter (not_node id) (omap (peer_candidate (mo_clock mo 2) key (mm_config m))
                          (map_to_list (delete id (mm_peers m))).*2) =
  omap (peer_candidate (mo_clock mo 2) key (mm_config m)) (map_to_list (delete id (mm_peers m))).*2.
Proof.
  intros I. apply filter_all.
  intros c (s & ([id' s'] & -> & Hin)%list_elem_of_fmap & Hc)%list_elem_of_omap.
  apply elem_of_map_to_list in Hin. apply lookup_delete_Some in Hin as [Hne Hin].
  destruct (mi_node _ I _ _ Hin) as [E _]. apply peer_candidate_spec in Hc as [Ec _].
  unfold not_node. cbn in *. by rewrite Ec, E.
Qed.

(** A reported failure removes exactly that node's candidate. *)
Lemma ReportFailure_candidates mo key m id err now :
  mesh_inv m -> fair mo -> id <> n_ID (cf_Local (mm_config m)) ->
  candidates_of mo key (ReportFailure id err now m) ≡ₚ filter (not_node id) (candidates_of mo key m).
Proof.
  intros I F Hid. unfold candidates_of. rewrite filter_app.
  assert (local_candidates mo key (ReportFailure id err now m) =
          filter (not_node id) (local_candidates mo key m)) as ->.
  { rewrite filter_all. 2:{ intros c [E _]%local_candidates_spec. unfold not_node. by rewrite E. }
    unfold local_candidates, local_state. by rewrite ReportFailure_config. }
  f_equiv. rewrite ReportFailure_config. unfold ReportFailure. rewrite bool_decide_false by done.
  destruct (mm_peers m !! id) as [s|] eqn:E; cbn [mm_peers].
  - rewrite (walk_delete mo (mm_peers m) id s) by done.
    erewrite (walk_delete mo (<[id:=_]> (mm_peers m)) id) by (done || apply lookup_insert_eq).
    rewrite delete_insert_eq. cbn [omap list_omap]. unfold peer_candidate at 1. cbn [failed ps_Healthy negb orb].
    destruct (peer_candidate _ _ _ s) as [c|] eqn:Ec; [|by rewrite others_kept].
    destruct (mi_node _ I _ _ E) as [En _]. apply peer_candidate_spec in Ec as [Ec _].
    rewrite filter_cons_False by (unfold not_node; rewrite Ec, En; tauto). by rewrite others_kept.
  - pose proof (others_kept mo key m id I) as K. rewrite (delete_id _ _ E) in K.
    by rewrite (F (mm_peers m)), K.
Qed.

Lemma Route_ok mo key m r :
  Manager_Route mo key m = Ok r ->
  ro_Key r = key /\ ro_Candidates r = merge_sort cand_le (candidates_of mo key m) /\
  exists best rest, ro_Candidates r = best :: rest /\ ro_Selected r = c_Node best /\
  ro_Policy r = cf_Policy (mm_config m) /\ ro_GeneratedAt r = mo_clock mo 3.
Proof.
  unfold Manager_Route. destruct (merge_sort _ _) as [|b l] eqn:E; [done|]. intros [= <-]. cbn.
  split_and!; [done..|]. by exists b, l.
Qed.

Lemma Route_err mo key m e :
  Manager_Route mo key m = Err e -> e = ErrNoRoute /\ candidates_of mo key m = [].
Proof.
  unfold Manager_Route. destruct (merge_sort _ _) as [|b l] eqn:E; [|done]. intros [= <-]. split; [done|].
  apply Permutation_nil_r. by rewrite <- (merge_sort_Permutation cand_le), E.
Qed.

Lemma cand_le_preferred mo key m a b :
  fair mo -> a ∈ candidates_of mo key m -> b ∈ candidates_of mo key m -> cand_le a b ->
  preferred (mm_config m) key (c_Node a) (c_Node b).
Proof.
  intros F Ha Hb. rewrite cand_le_spec. destruct (candidates_rank _ _ _ _ F Ha) as [-> ->].
  destruct (candidates_rank _ _ _ _ F Hb) as [-> ->]. done.
Qed.

Lemma ranked_preferred mo key m l :
  fair mo -> l ≡ₚ candidates_of mo key m -> StronglySorted cand_le l ->
  StronglySorted (preferred (mm_config m) key) (c_Node <$> l).
Proof.
  intros F. assert (forall l', (forall c, c ∈ l' -> c ∈ candidates_of mo key m) -> StronglySorted cand_le l' ->
    StronglySorted (preferred (mm_config m) key) (c_Node <$> l')) as H.
  { intros l' Hl'. induction 1 as [|a l' S IH Ha]; [constructor|]. cbn. constructor.
    - apply IH. intros c Hc. apply Hl'. by right.
    - rewrite Forall_fmap. rewrite Forall_forall in Ha |- *. intros b Hb.
      apply (cand_le_preferred mo); [done|apply Hl'; by left|apply Hl'; by right|auto]. }
  intros P. apply H. intros c Hc. by rewrite <- P.
Qed.

(** ** Properties of the ownership decision *)

(** The states a manager of a configuration can be in. *)
Definition manager_state `{UrlParser} (config : Config) (m : Manager) : Prop :=
  exists m0 es, NewManager config true = Ok m0 /\ Forall (probes_peers (mm_config m0)) es /\
  m = foldl mesh_apply m0 es.

Lemma manager_state_inv `{UrlParser} config m : manager_state config m -> mesh_inv m.
Proof.
  intros (m0 & es & H0 & Hes & ->). apply NewManager_inv in H0 as [_ I]. by apply mesh_run_inv.
Qed.

(** Any walk over the peer map gives the same ranking. *)
Lemma Route_walk mo walk key m :
  mesh_inv m -> fair mo -> fair (mkMoment walk (mo_local mo) (mo_clock mo)) ->
  Manager_Route (mkMoment walk (mo_local mo) (mo_clock mo)) key m = Manager_Route mo key m.
Proof.
  intros I F F'. unfold Manager_Route.
  rewrite (sort_perm cand_le (fun c => n_ID (c_Node c)) cand_le_antisym
    (candidates_of (mkMoment walk (mo_local mo) (mo_clock mo)) key m) (candidates_of mo key m)); [done| |].
  - by apply candidates_nodup.
  - unfold candidates_of. apply Permutation_app; [done|]. apply omap_Permutation.
    by rewrite (F' (mm_peers m)), (F (mm_peers m)).
Qed.

Lemma Route_candidates mo key m r :
  mesh_inv m -> fair mo -> Manager_Route mo key m = Ok r ->
  (forall node, node ∈ c_Node <$> ro_Candidates r <-> routable mo m node) /\
  NoDup ((fun c => n_ID (c_Node c)) <$> ro_Candidates r) /\
  StronglySorted (preferred (mm_config m) key) (c_Node <$> ro_Candidates r) /\
  head (c_Node <$> ro_Candidates r) = Some (ro_Selected r).
Proof.
  intros I F H. apply Route_ok in H as (_ & Er & best & rest & Eb & Es & _).
  assert (ro_Candidates r ≡ₚ candidates_of mo key m) as P by (by rewrite Er, merge_sort_Permutation).
  split_and!.
  - intros node. rewrite P. by apply candidates_routable.
  - rewrite P. by apply candidates_nodup.
  - eapply ranked_preferred; [done|done|]. rewrite Er. by apply (StronglySorted_merge_sort cand_le).
  - by rewrite Eb, Es.
Qed.

(** C23: In every state a mesh manager reaches, [Route] ranks exactly the nodes that
    are ready, not draining, below the pressure limit and (for peers) healthy and
    freshly observed, each once; the ranking and the selected owner follow tier,
    rendezvous score and identity; without such a node the answer is the no-route
    error; and the outcome does not depend on the order in which the peer map is
    walked. *)
Theorem route_owner_deterministic `{UrlParser} (config : Config) (m : Manager) (mo : moment) (key : string) :
  manager_state config m -> fair mo ->
  match Manager_Route mo key m with
  | Err e => e = ErrNoRoute /\ forall node, ~ routable mo m node
  | Ok r =>
      (forall node, node ∈ c_Node <$> ro_Candidates r <-> routable mo m node) /\
      NoDup ((fun c => n_ID (c_Node c)) <$> ro_Candidates r) /\
      StronglySorted (preferred (mm_config m) key) (c_Node <$> ro_Candidates r) /\
      head (c_Node <$> ro_Candidates r) = Some (ro_Selected r)
  end /\
  forall walk, fair (mkMoment walk (mo_local mo) (mo_clock mo)) ->
    Manager_Route (mkMoment walk (mo_local mo) (mo_clock mo)) key m = Manager_Route mo key m.
Proof.
  intros I%manager_state_inv F. split; [|intros walk F'; by apply Route_walk].
  destruct (Manager_Route mo key m) as [r|e] eqn:E; [by apply Route_candidates|].
  apply Route_err in E as [-> E]. split; [done|]. intros node R.
  apply (candidates_routable mo key m node I F) in R. rewrite E in R. by apply elem_of_nil in R.
Qed.

(** When the publisher reports a peer as failed, the ranking of every key loses
    that peer and nothing else changes: a key owned by another node keeps its
    owner, and a key owned by the failed peer moves to the next candidate. *)
Theorem failure_moves_only_its_keys `{UrlParser} (config : Config) (m : Manager) (mo : moment)
    (key id : string) (err : option error) (now : time) (r : Route) :
  manager_state config m -> fair mo -> id <> n_ID (cf_Local (mm_config m)) ->
  Manager_Route mo key m = Ok r ->
  Manager_Route mo key (ReportFailure id err now m) =
    match filter (fun c => n_ID (c_Node c) <> id) (ro_Candidates r) with
    | [] => Err ErrNoRoute
    | (best :: _) as ranked => Ok (mkRoute key (c_Node best) ranked (ro_Policy r) (ro_GeneratedAt r))
    end /\
  (n_ID (ro_Selected r) <> id ->
   exists r', Manager_Route mo key (ReportFailure id err now m) = Ok r' /\ ro_Selected r' = ro_Selected r).
Proof.
  intros I%manager_state_inv F Hid (_ & Er & best & rest & Eb & Es & Ep & Eg)%Route_ok.
  assert (Manager_Route mo key (ReportFailure id err now m) =
    match filter (not_node id) (ro_Candidates r) with
    | [] => Err ErrNoRoute
    | (best :: _) as ranked => Ok (mkRoute key (c_Node best) ranked (ro_Policy r) (ro_GeneratedAt r))
    end) as E.
  { unfold Manager_Route. rewrite ReportFailure_config, Ep, Eg, Er.
    rewrite (sort_filter cand_le (fun c => n_ID (c_Node c)) cand_le_antisym (not_node id)
      (candidates_of mo key m)); [done|by apply candidates_nodup|by apply ReportFailure_candidates]. }
  split; [exact E|]. intros Hs. rewrite E, Eb, filter_cons_True by (unfold not_node; congruence).
  eexists. split; [done|]. by rewrite Es.
Qed.

(** A two-node mesh: this node and one peer that answered its last probe. *)
Definition demo_url : UrlParser := fun raw => Some (mkUrl "http" raw).
Definition demo_local : Node := mkNode "edge-a" "" (mkDomain "aws" "us-east-1" "a").
Definition demo_peer : Node := mkNode "edge-b" "http://b" (mkDomain "aws" "us-east-1" "b").
Definition demo_config : Config :=
  mkConfig demo_local [demo_peer] "secret" "global" 0 0 0 float_zero.
Definition demo_serving (node : Node) : State := mkState node true false 0 0 0 float_zero 1.
Definition demo_events : list mesh_event :=
  [Tick [Probed demo_peer (Ok (mkProbeResponse 200 (Some (demo_serving demo_peer)))) 5000 10]].
Definition demo_start : Manager :=
  mkManager (normalizedConfig demo_config) {["edge-b" := zero_status demo_peer]} false.
Definition demo_manager : Manager := foldl mesh_apply demo_start demo_events.
Definition demo_moment : moment :=
  mkMoment (fun peers => (map_to_list peers).*2) (demo_serving demo_local) (fun _ => 20).

Lemma demo_fair : fair demo_moment.
Proof. by intros peers. Qed.

Lemma demo_state : @manager_state demo_url demo_config demo_manager.
Proof.
  exists demo_start, demo_events. split; [reflexivity|]. split; [|done].
  constructor; [|constructor]. constructor; [by left|constructor].
Qed.

Lemma route_owner_deterministic_witness :
  match Manager_Route demo_moment "tenant|service" demo_manager with
  | Ok r => length (ro_Candidates r) = 2%nat /\ head (c_Node <$> ro_Candidates r) = Some (ro_Selected r)
  | Err _ => False
  end.
Proof.
  assert (match Manager_Route demo_moment "tenant|service" demo_manager with
          | Ok r => length (ro_Candidates r) | Err _ => 0%nat end = 2%nat) as L by (vm_compute; reflexivity).
  destruct (@route_owner_deterministic demo_url demo_config demo_manager demo_moment "tenant|service"
    demo_state demo_fair) as [H _].
  destruct (Manager_Route _ _ _) as [r|e]; [|discriminate L]. split; [exact L|]. apply H.
Defined.

Lemma failure_moves_only_its_keys_witness :
  exists r, Manager_Route demo_moment "tenant|service" (ReportFailure "edge-b" None 30 demo_manager) = r /\
  is_ok r = true.
Proof.
  destruct (Manager_Route demo_moment "tenant|service" demo_manager) as [r|e] eqn:E;
    [|exfalso; vm_compute in E; discriminate E].
  destruct (@failure_moves_only_its_keys demo_url demo_config demo_manager demo_moment "tenant|service"
    "edge-b" None 30 r demo_state demo_fair ltac:(discriminate) E) as [H _].
  eexists. split; [exact H|]. vm_compute in E. injection E as <-. vm_compute. reflexivity.
Defined.

(** ** A cluster of nodes

    The world of the delivery theorems: every node's Kafka accepts publishes and is
    reached through its own [Handler].  Each publish and each forward meets the next
    entry of a fault schedule: it goes well, it is refused, or it happens and the
    answer is lost.  [carry] is what the receiver's decoder makes of an encoded
    request. *)

Inductive link : Type := Fine | Refused | LostReply.
#[export] Instance link_eq_dec : EqDecision link.
Proof. solve_decision. Defined.

Record delivery := mkDelivery { d_node : string; d_topic : string; d_event : Event }.
Record cluster := mkCluster { cl_log : list delivery; cl_faults : list link }.

Definition next_link : M cluster link := fun c =>
  match cl_faults c with
  | [] => (Ok Fine, c)
  | f :: fs => (Ok f, mkCluster (cl_log c) fs)
  end.

Definition kafka_publish (node topic : string) (event : Event) : M cluster unit :=
  f ← next_link;
  match f with
  | Refused => raise ErrIO
  | _ =>
      modify (fun c => mkCluster (cl_log c ++ [mkDelivery node topic event]) (cl_faults c));;
      if f is LostReply then raise ErrIO else mret tt
  end.

Section cluster.
Context (handlers : gmap string Handler) (carry : ForwardRequest -> option ForwardRequest).

Definition send (token : string) (node : Node) (payload : ForwardRequest) : M cluster Z :=
  f ← next_link;
  match f, handlers !! n_ID node with
  | Refused, _ | _, None => raise ErrIO
  | _, Some h =>
      r ← ServeHTTP (kafka_publish (n_ID (hd_local h))) h (zero_state node) 0
            (mkRequest "POST" "/internal/v1/mesh/forward" ("Bearer " +:+ token) (carry payload) false);
      if f is LostReply then raise ErrIO else mret r.1
  end.

Definition cluster_publisher (config : Config) : Publisher cluster :=
  mkPublisher (mkDownstream (kafka_publish (n_ID (cf_Local config))) None) (send (cf_Token config)).

(** Each handler answers for its own identity, and what a decoder accepts is what
    was sent. *)
Definition handlers_ok : Prop := forall id h, handlers !! id = Some h -> n_ID (hd_local h) = id.
Definition carry_ok (topic : string) (event : Event) : Prop :=
  forall target key req, carry (mkForward target key topic event) = Some req ->
  req = mkForward target key topic event.

(** An attempt on node [id] that ends in [r] appended at most one delivery of
    [event] there, and exactly one when it succeeded. *)
Definition attempted {A} (id topic : string) (event : Event) (c : cluster) (r : result A) (c' : cluster)
  : Prop :=
  (cl_log c' = cl_log c /\ is_ok r = false) \/ cl_log c' = cl_log c ++ [mkDelivery id topic event].

(** The faults still ahead. *)
Definition trouble (f : link) : nat := match f with Fine => 0 | _ => 1 end.
Definition troubles (c : cluster) : nat := foldr (fun f n => trouble f + n)%nat 0%nat (cl_faults c).

(** A failed attempt used up a fault. *)
Definition blamed {A} (c : cluster) (r : result A) (c' : cluster) : Prop :=
  (troubles c' + (if is_ok r then 0 else 1) <= troubles c)%nat.

(** The request reaches the node's publisher: it is authorised, decodes, names the
    node and carries a valid event. *)
Definition accepting (h : Handler) (token : string) (req : ForwardRequest) : Prop :=
  hd_token h = token /\ token <> "" /\ carry req = Some req /\ blank (fw_Topic req) = false /\
  blank (fw_RouteKey req) = false /\ blank (fw_TargetNodeID req) = false /\
  Event_Validate (fw_Event req) = Ok tt.

Lemma kafka_cases id topic event c :
  wp (kafka_publish id topic event) (fun r c' => attempted id topic event c r c' /\ blamed c r c') c.
Proof.
  unfold kafka_publish, wp, mbind, M_mbind, next_link, attempted, blamed, troubles.
  destruct c as [log [|[] fs]]; cbn; (split; [auto|lia]).
Qed.

Lemma next_link_cases c :
  exists f c', next_link c = (Ok f, c') /\ cl_log c' = cl_log c /\ (troubles c' + trouble f = troubles c)%nat.
Proof.
  unfold next_link, troubles. destruct c as [log [|f fs]]; cbn; do 2 eexists; (split; [done|]); cbn;
    (split; [done|lia]).
Qed.

Definition status_result (status : Z) : result unit := if status =? 204 then Ok tt else Err ErrIO.

Lemma handler_forward_cases h req authorization c :
  n_ID (hd_local h) = fw_TargetNodeID req ->
  (forall req', carry req = Some req' -> req' = req) ->
  wp (Handler_forward (kafka_publish (n_ID (hd_local h))) h
        (mkRequest "POST" "/internal/v1/mesh/forward" authorization (carry req) false))
    (fun r c' => exists status, r = Ok status /\
       attempted (n_ID (hd_local h)) (fw_Topic req) (fw_Event req) c (status_result status) c' /\
       (accepting h (hd_token h) req -> blamed c (status_result status) c')) c.
Proof.
  intros Hid Hc. unfold Handler_forward. cbn [rq_body rq_trailing orb].
  assert (forall status, status <> 204 -> exists status', Ok status = Ok status' /\
    attempted (n_ID (hd_local h)) (fw_Topic req) (fw_Event req) c (status_result status') c) as Hno.
  { intros status Hs. exists status. split; [done|]. left. split; [done|]. unfold status_result.
    by destruct (Z.eqb_spec status 204). }
  destruct (carry req) as [req'|] eqn:Ec.
  2:{ destruct (Hno 400) as (st & E & Ha); [lia|]. exists st. split; [done|]. split; [done|].
      intros (_ & _ & E' & _). congruence. }
  rewrite (Hc _ eq_refl) in *. destruct (blank (fw_Topic req)) eqn:B1; [|destruct (blank (fw_TargetNodeID req)) eqn:B2;
    [|destruct (blank (fw_RouteKey req)) eqn:B3]]; cbn [orb].
  1-3: destruct (Hno 400) as (st & E & Ha); [lia|]; exists st; split; [done|]; split; [done|];
      unfold accepting; intros; destruct_and!; congruence.
  rewrite bool_decide_true by done. cbn [negb].
  destruct (Event_Validate (fw_Event req)) as [[]|e] eqn:EV.
  2:{ destruct (Hno 400) as (st & E & Ha); [lia|]; exists st; split; [done|]; split; [done|].
      unfold accepting; intros; destruct_and!; congruence. }
  pose proof (kafka_cases (n_ID (hd_local h)) (fw_Topic req) (fw_Event req) c) as K. unfold wp in K |- *.
  unfold mbind, M_mbind, attempt, mret, M_mret. destruct (kafka_publish _ _ _ c) as [[[]|e] c'] eqn:EK;
    cbn in K |- *; eexists; (split; [done|]); cbn; tauto.
Qed.

Lemma authorized_same h body trailing :
  hd_token h <> "" ->
  authorized h (mkRequest "POST" "/internal/v1/mesh/forward" ("Bearer " +:+ hd_token h) body trailing) = true.
Proof.
  intros Hne. unfold authorized. rewrite bool_decide_false by done. cbn [rq_authorization].
  rewrite Nat.eqb_refl. cbn [negb]. by apply bool_decide_eq_true.
Qed.

(** Serving a forward request: either refused before the publisher, or handled. *)
Lemma serve_cases h token req node c :
  n_ID (hd_local h) = fw_TargetNodeID req ->
  (forall req', carry req = Some req' -> req' = req) ->
  wp (ServeHTTP (kafka_publish (n_ID (hd_local h))) h (zero_state node) 0
        (mkRequest "POST" "/internal/v1/mesh/forward" ("Bearer " +:+ token) (carry req) false))
    (fun r c' => exists status, r = Ok (status, None) /\
       attempted (n_ID (hd_local h)) (fw_Topic req) (fw_Event req) c (status_result status) c' /\
       (accepting h token req -> blamed c (status_result status) c')) c.
Proof.
  intros Hid Hc. unfold ServeHTTP. destruct (authorized h _) eqn:A; cbn [negb].
  - pose proof (handler_forward_cases h req ("Bearer " +:+ token) c Hid Hc) as K. unfold wp in K |- *.
    cbn [rq_method rq_path]. do 4 (rewrite ?bool_decide_true by done; rewrite ?bool_decide_false by done).
    cbn [andb]. unfold mbind, M_mbind. destruct (Handler_forward _ _ _ _) as [r c']. cbn [fst snd] in K.
    destruct K as (status & -> & K1 & K2). exists status. split; [done|]. split; [done|].
    intros Ha. apply K2. destruct Ha as [Ht Ha]. by rewrite Ht.
  - unfold wp. cbn. exists 401. split; [done|]. split; [by left|]. intros (Ht & Hne & _). subst token.
    by rewrite authorized_same in A.
Qed.

Lemma send_cases token node req c :
  handlers_ok -> n_ID node = fw_TargetNodeID req ->
  (forall req', carry req = Some req' -> req' = req) ->
  wp (send token node req) (fun r c' =>
    let r := status ← r; status_result status in
    attempted (n_ID node) (fw_Topic req) (fw_Event req) c r c' /\
    ((exists h, handlers !! n_ID node = Some h /\ accepting h token req) -> blamed c r c')) c.
Proof.
  intros Hh Hn Hc. destruct (next_link_cases c) as (f & c1 & E & EL & ET).
  unfold wp, send. rewrite (run_bind _ _ _ _ _ E).
  assert (forall (e : error), attempted (A := unit) (n_ID node) (fw_Topic req) (fw_Event req) c (Err e) c1) as H1.
  { intros e. by left. }
  destruct (handlers !! n_ID node) as [h|] eqn:EH.
  2:{ destruct f; cbn; (split; [apply H1|]); intros (h & ? & _); congruence. }
  destruct (decide (f = Refused)) as [->|Hf].
  { cbn. split; [apply H1|]. intros _. unfold blamed. cbn in *. lia. }
  specialize (Hh _ _ EH). pose proof (serve_cases h token req node c1) as K. unfold wp in K.
  rewrite Hh in K. specialize (K Hn Hc). rewrite Hh.
  destruct (ServeHTTP _ _ _ _ _ c1) as [r c2] eqn:ES. cbn [fst snd] in K. destruct K as (status & -> & K1 & K2).
  unfold attempted in *. rewrite EL in K1.
  destruct f; [|done|]; rewrite (run_bind _ _ _ _ _ ES); cbn in ET |- *.
  - split; [exact K1|]. intros (h' & [= <-] & Ha). specialize (K2 Ha). unfold blamed in *. lia.
  - split; [destruct K1 as [[]|]; auto|]. intros (h' & [= <-] & Ha). specialize (K2 Ha).
    unfold blamed in *. cbn. lia.
Qed.

Lemma forward_cases config node key topic event c :
  handlers_ok -> carry_ok topic event ->
  wp (forwardToPeer (cluster_publisher config) node (mkForward (n_ID node) key topic event)) (fun r c' =>
    attempted (n_ID node) topic event c r c' /\
    ((exists h, handlers !! n_ID node = Some h /\
        accepting h (cf_Token config) (mkForward (n_ID node) key topic event)) -> blamed c r c')) c.
Proof.
  intros Hh Hc.
  pose proof (send_cases (cf_Token config) node (mkForward (n_ID node) key topic event) c Hh eq_refl
    (Hc _ _)) as K.
  unfold wp in K |- *. unfold forwardToPeer. cbn [pb_send cluster_publisher].
  destruct (send _ _ _ c) as [[status|e] c'] eqn:E; cbn [fst snd] in K.
  - rewrite (run_bind _ _ _ _ _ E). cbn [mbind result_mbind] in K. unfold status_result in K.
    by destruct (status =? 204).
  - unfold mbind, M_mbind. by rewrite E.
Qed.

(** Deliveries of [event] on nodes of [cands], in their order, at most one each. *)
Definition stray (topic : string) (event : Event) (cands : list Candidate) (l : list delivery) : Prop :=
  Forall (fun d => d_topic d = topic /\ d_event d = event) l /\
  (d_node <$> l) `sublist_of` ((fun c => n_ID (c_Node c)) <$> cands).

Definition marked_down (m : Manager) (c : Candidate) : Prop :=
  n_ID (c_Node c) <> n_ID (cf_Local (mm_config m)) ->
  forall s, mm_peers m !! n_ID (c_Node c) = Some s -> ps_Healthy s = false.

Lemma marked_down_failure m c id err now :
  marked_down m c \/ n_ID (c_Node c) = id -> marked_down (ReportFailure id err now m) c.
Proof.
  unfold marked_down. rewrite ReportFailure_config. intros H Hne s. unfold ReportFailure.
  case_bool_decide as Hl; [destruct H as [H|H]; [by apply H|congruence]|].
  destruct (decide (n_ID (c_Node c) = id)) as [->|Hid].
  - destruct (mm_peers m !! id) as [s0|] eqn:E; cbn [mm_peers]; [|congruence].
    rewrite lookup_insert_eq. by intros [= <-].
  - destruct H as [H|H]; [|done].
    destruct (mm_peers m !! id); cbn [mm_peers]; [|by apply H].
    rewrite lookup_insert_ne by done. by apply H.
Qed.

Lemma marked_down_success m c id now :
  marked_down m c -> n_ID (c_Node c) <> id -> marked_down (ReportSuccess id now m) c.
Proof.
  unfold marked_down. rewrite ReportSuccess_config. intros H Hid Hne s. unfold ReportSuccess.
  case_bool_decide; [by apply H|]. destruct (mm_peers m !! id); [|by apply H]. cbn [set_peers mm_peers].
  rewrite lookup_insert_ne by done. by apply H.
Qed.

Definition cand_id (c : Candidate) : string := n_ID (c_Node c).

(** What a run of the candidate loop leaves behind: [tried] are the candidates
    tried before it. *)
Definition loop_outcome (topic : string) (event : Event) (tried cands : list Candidate) (c : cluster)
    (r : result unit) (m' : Manager) (c' : cluster) : Prop :=
  match r with
  | Ok _ => exists pre cand post dup, cands = pre ++ cand :: post /\
      cl_log c' = cl_log c ++ dup ++ [mkDelivery (cand_id cand) topic event] /\
      stray topic event pre dup /\ Forall (marked_down m') (tried ++ pre)
  | Err e => errors_is e ErrNoRoute = true /\ exists dup, cl_log c' = cl_log c ++ dup /\
      stray topic event cands dup /\ Forall (marked_down m') (tried ++ cands)
  end.

(** A failed attempt on the first candidate before the rest of the loop. *)
Lemma loop_outcome_cons topic event tried cand cands c c1 e r m' c' :
  attempted (cand_id cand) topic event c (Err (A := unit) e) c1 ->
  loop_outcome topic event (tried ++ [cand]) cands c1 r m' c' ->
  loop_outcome topic event tried (cand :: cands) c r m' c'.
Proof.
  intros Ha H.
  assert (exists d, cl_log c1 = cl_log c ++ d /\ forall pre dup, stray topic event pre dup ->
    stray topic event (cand :: pre) (d ++ dup)) as (d & Ed & Hd).
  { destruct Ha as [[-> _]|E].
    - exists []. split; [by rewrite app_nil_r|]. intros pre dup [H1 H2]. split; [done|]. by constructor.
    - exists [mkDelivery (cand_id cand) topic event]. split; [done|]. intros pre dup [H1 H2].
      split; [by constructor|]. by constructor. }
  destruct r as [[]|e']; cbn in *.
  - destruct H as (pre & x & post & dup & -> & EL & Hs & Hm). exists (cand :: pre), x, post, (d ++ dup).
    split; [done|]. split; [by rewrite EL, Ed, <- !app_assoc|]. split; [by apply Hd|].
    by rewrite <- app_assoc in Hm.
  - destruct H as (He & dup & EL & Hs & Hm). split; [done|]. exists (d ++ dup).
    split; [by rewrite EL, Ed, <- app_assoc|]. split; [by apply Hd|]. by rewrite <- app_assoc in Hm.
Qed.

Lemma publish_loop_outcome config mo key topic event cands tried failures m c :
  handlers_ok -> carry_ok topic event -> NoDup (cand_id <$> tried ++ cands) ->
  mm_config m = config -> Forall (marked_down m) tried ->
  let '(r, (m', c')) := publish_loop (cluster_publisher config) mo key topic event cands failures m c in
  loop_outcome topic event tried cands c r m' c' /\ mm_config m' = config.
Proof.
  intros Hh Hc. revert tried failures m c.
  induction cands as [|cand cands IH]; intros tried failures m c ND Cm Hd.
  - cbn. split; [|done]. split; [by destruct failures|]. exists []. rewrite !app_nil_r.
    split; [done|]. split; [split; constructor|done].
  - cbn [publish_loop]. rewrite Cm.
    assert (NoDup (cand_id <$> (tried ++ [cand]) ++ cands)) as ND' by by rewrite <- app_assoc.
    assert (forall x, x ∈ tried -> cand_id x <> cand_id cand) as Hne.
    { intros x Hx E. rewrite fmap_app, fmap_cons in ND. apply NoDup_app in ND as (_ & ND & _).
      apply (ND (cand_id x)); [by apply list_elem_of_fmap_2|]. rewrite E. by left. }
    case_bool_decide as HL.
    + pose proof (kafka_cases (n_ID (cf_Local config)) topic event c) as [K _]. unfold wp in K.
      cbn [pb_local cluster_publisher ds_Publish]. rewrite <- HL in K |- *.
      destruct (kafka_publish _ _ _ c) as [[[]|e] c1]; cbn [fst snd] in K.
      * split; [|done]. exists [], cand, cands, []. rewrite app_nil_r. split; [done|].
        split; [by destruct K as [[]|]|]. split; [split; constructor|done].
      * specialize (IH (tried ++ [cand]) (failures ++ [e]) m c1 ND' Cm).
        destruct (publish_loop _ _ _ _ _ cands _ m c1) as [r [m' c']].
        destruct IH as [IH ?]; [|split; [by eapply loop_outcome_cons|done]].
        apply Forall_app. split; [done|]. constructor; [|constructor]. intros Hn. congruence.
    + pose proof (forward_cases config (c_Node cand) key topic event c Hh Hc) as [K _].
      destruct (forwardToPeer _ _ _ c) as [[[]|e] c1]; cbn [fst snd] in K.
      * split; [|by rewrite ReportSuccess_config]. exists [], cand, cands, []. rewrite app_nil_r.
        split; [done|]. split; [by destruct K as [[]|]|]. split; [split; constructor|].
        rewrite Forall_forall in Hd |- *. intros x Hx. apply marked_down_success; auto. by apply Hne.
      * specialize (IH (tried ++ [cand]) (failures ++ [e])
          (ReportFailure (n_ID (c_Node cand)) (Some e) (mo_clock mo (4 + length failures)) m) c1 ND').
        rewrite ReportFailure_config in IH. specialize (IH Cm).
        destruct (publish_loop _ _ _ _ _ cands _ _ c1) as [r [m' c']].
        destruct IH as [IH ?]; [|split; [by eapply loop_outcome_cons|done]].
        apply Forall_app. split.
        -- rewrite Forall_forall in Hd |- *. intros x Hx. apply marked_down_failure. auto.
        -- constructor; [|constructor]. apply marked_down_failure. by right.
Qed.

Lemma publish_loop_live config mo key topic event cands failures m c :
  handlers_ok -> carry_ok topic event -> mm_config m = config ->
  Forall (fun cand => cand_id cand = n_ID (cf_Local config) \/
    exists h, handlers !! cand_id cand = Some h /\
      accepting h (cf_Token config) (mkForward (cand_id cand) key topic event)) cands ->
  (troubles c < length cands)%nat ->
  (publish_loop (cluster_publisher config) mo key topic event cands failures m c).1 = Ok tt.
Proof.
  intros Hh Hc. revert failures m c.
  induction cands as [|cand cands IH]; intros failures m c Cm HF Hlt; [cbn in Hlt; lia|].
  apply Forall_cons in HF as [Hcand HF]. cbn [publish_loop]. rewrite Cm. cbn [length] in Hlt.
  case_bool_decide as HL.
  - pose proof (kafka_cases (n_ID (cf_Local config)) topic event c) as [_ K].
    cbn [pb_local cluster_publisher ds_Publish].
    destruct (kafka_publish _ _ _ c) as [[[]|e] c1]; [done|]. unfold blamed in K. cbn in K.
    apply IH; [done..|lia].
  - pose proof (forward_cases config (c_Node cand) key topic event c Hh Hc) as [_ K].
    destruct Hcand as [?|Hcand]; [done|]. specialize (K Hcand).
    destruct (forwardToPeer _ _ _ c) as [[[]|e] c1]; [done|]. unfold blamed in K. cbn in K.
    apply IH; [by rewrite ReportFailure_config|done|lia].
Qed.
End cluster.

Lemma manager_state_config `{UrlParser} config m :
  manager_state config m -> Config_Validate (mm_config m) = Ok tt.
Proof.
  intros (m0 & es & H0 & Hes & ->). pose proof (NewManager_inv _ _ _ H0) as [E I].
  destruct (mesh_run_inv es m0 I Hes) as [_ ->]. rewrite E. unfold NewManager in H0. cbv zeta in H0.
  by destruct (Config_Validate (normalizedConfig config)) as [[]|].
Qed.

(** What validation guarantees about every configured peer. *)
Lemma validated_peer `{UrlParser} config peer :
  Config_Validate config = Ok tt -> peer ∈ cf_Peers config ->
  blank (n_ID peer) = false /\ cf_Token config <> "".
Proof.
  unfold Config_Validate. destruct (blank (n_ID (cf_Local config))); [done|]. destruct (check_policy _); [|done].
  cbn [mbind result_mbind]. destruct (_ || _); [done|].
  destruct (check_peers _ _ _ _) as [[]|] eqn:CP; [|done]. cbn [mbind result_mbind].
  apply check_peers_distinct in CP as (Hok & _). intros V Hp. split.
  - rewrite Forall_forall in Hok. specialize (Hok _ Hp). unfold peer_reachable in Hok.
    by destruct (blank (n_ID peer)).
  - intros Ht. rewrite Ht in V.
    assert (0 < zlen (cf_Peers config)) as HL by (destruct (cf_Peers config); [by apply elem_of_nil in Hp|unfold zlen; cbn; lia]).
    apply Z.ltb_lt in HL. by rewrite HL in V.
Qed.

(** C22: Delivery through the mesh is at the ranked owner: [Publish] tries the
    candidates in rank order; on success the event is appended at exactly the first
    candidate that confirmed it, any other new delivery is an unconfirmed one on an
    earlier candidate, and every earlier peer is marked unhealthy; a failure is the
    no-route error after all candidates were tried and marked; a forwarded event is
    delivered by the receiving node itself and never routed again. *)
Theorem publish_delivers_at_ranked_owner `{UrlParser} (handlers : gmap string Handler)
    (carry : ForwardRequest -> option ForwardRequest) (config : Config) (m : Manager) (mo : moment)
    (topic : string) (event : Event) (c : cluster) :
  manager_state config m -> fair mo -> handlers_ok handlers -> carry_ok carry topic event ->
  let '(r, (m', c')) := Publish (cluster_publisher handlers carry (mm_config m)) mo topic event m c in
  match Manager_Route mo (routeKey event) m with
  | Err _ => r = Err ErrNoRoute /\ m' = m /\ c' = c
  | Ok route => loop_outcome topic event [] (ro_Candidates route) c r m' c'
  end.
Proof.
  intros I%manager_state_inv F Hh Hc. unfold Publish.
  destruct (Manager_Route mo (routeKey event) m) as [route|e] eqn:E.
  - destruct (Route_candidates _ _ _ _ I F E) as (_ & ND & _).
    pose proof (publish_loop_outcome handlers carry (mm_config m) mo (routeKey event) topic event
      (ro_Candidates route) [] [] m c Hh Hc ND eq_refl (Forall_nil_2 _)) as K.
    destruct (publish_loop _ _ _ _ _ _ _ _ _) as [r [m' c']]. by destruct K.
  - by apply Route_err in E as [-> _].
Qed.

(** Failover completes: when every configured peer runs a handler with the
    shared token, a valid event whose topic and key are not blank is delivered as
    long as fewer faults happen than there are ranked candidates. *)
Theorem publish_survives_faults `{UrlParser} (handlers : gmap string Handler)
    (carry : ForwardRequest -> option ForwardRequest) (config : Config) (m : Manager) (mo : moment)
    (topic : string) (event : Event) (c : cluster) (route : Route) :
  manager_state config m -> fair mo -> handlers_ok handlers ->
  (forall peer, peer ∈ cf_Peers (mm_config m) ->
     exists h, handlers !! n_ID peer = Some h /\ hd_token h = cf_Token (mm_config m)) ->
  (forall target key, carry (mkForward target key topic event) = Some (mkForward target key topic event)) ->
  Event_Validate event = Ok tt -> blank topic = false -> blank (routeKey event) = false ->
  Manager_Route mo (routeKey event) m = Ok route ->
  (troubles c < length (ro_Candidates route))%nat ->
  (Publish (cluster_publisher handlers carry (mm_config m)) mo topic event m c).1 = Ok tt.
Proof.
  intros S F Hh Hdep Hc HE Ht Hk E Hlt. pose proof (manager_state_inv _ _ S) as I.
  apply manager_state_config in S. unfold Publish. rewrite E. apply publish_loop_live; [done| |done| |done].
  - intros target key req. rewrite Hc. congruence.
  - destruct (Route_candidates _ _ _ _ I F E) as (HR & _).
    apply Forall_forall. intros cand Hin.
    assert (routable mo m (c_Node cand)) as R by (apply HR; by apply list_elem_of_fmap_2).
    destruct R as [[R _]|(s & Hs & En & _)]; [left; unfold cand_id; by rewrite R|]. right.
    destruct (mi_node _ I _ _ Hs) as [_ Hp]. rewrite En in Hp.
    destruct (Hdep _ Hp) as (h & Hlk & Htok). destruct (validated_peer _ _ S Hp) as [HB HT].
    exists h. split; [done|]. unfold accepting. cbn. auto 10.
Qed.

Definition demo_handlers : gmap string Handler := {["edge-b" := mkHandler demo_peer "secret"]}.
Definition demo_event : Event :=
  mkEvent "e1" "tenant" "service" "metric" 5 ∅ [] None "" "1.0" "" "".
Definition demo_cluster : cluster := mkCluster [] [Refused].

Lemma demo_handlers_ok : handlers_ok demo_handlers.
Proof. intros id h. unfold demo_handlers. intros [<- <-]%lookup_singleton_Some. reflexivity. Qed.

Lemma demo_carry_ok : carry_ok Some "telemetry" demo_event.
Proof. intros target key req. congruence. Qed.

Lemma publish_delivers_at_ranked_owner_witness :
  exists m' c', Publish (cluster_publisher demo_handlers Some (mm_config demo_manager)) demo_moment
    "telemetry" demo_event demo_manager demo_cluster = (Ok tt, (m', c')) /\
  exists cands, loop_outcome "telemetry" demo_event [] cands demo_cluster (Ok tt) m' c'.
Proof.
  pose proof (@publish_delivers_at_ranked_owner demo_url demo_handlers Some demo_config demo_manager
    demo_moment "telemetry" demo_event demo_cluster demo_state demo_fair demo_handlers_ok demo_carry_ok) as H.
  destruct (Publish _ _ _ _ _ _) as [r [m' c']] eqn:E.
  assert (r = Ok tt) as -> by
    (transitivity (Publish (cluster_publisher demo_handlers Some (mm_config demo_manager)) demo_moment
       "telemetry" demo_event demo_manager demo_cluster).1; [by rewrite E|vm_compute; reflexivity]).
  exists m', c'. split; [reflexivity|].
  destruct (Manager_Route demo_moment (routeKey demo_event) demo_manager) as [route|e].
  - exists (ro_Candidates route). exact H.
  - destruct H as [H _]. discriminate H.
Defined.

Lemma publish_survives_faults_witness :
  (Publish (cluster_publisher demo_handlers Some (mm_config demo_manager)) demo_moment
     "telemetry" demo_event demo_manager demo_cluster).1 = Ok tt.
Proof.
  destruct (Manager_Route demo_moment (routeKey demo_event) demo_manager) as [route|e] eqn:E;
    [|exfalso; vm_compute in E; discriminate E].
  apply (@publish_survives_faults demo_url demo_handlers Some demo_config demo_manager
    demo_moment "telemetry" demo_event demo_cluster route demo_state demo_fair demo_handlers_ok).
  - intros peer ->%list_elem_of_singleton. eexists. split; [apply lookup_singleton_eq|reflexivity].
  - reflexivity.
  - reflexivity.
  - reflexivity.
  - reflexivity.
  - exact E.
  - vm_compute in E. injection E as <-. vm_compute. lia.
Defined.
