(* ===== verification/EdgeLog.v ===== *)
(** * The log as the edge publisher sees it

    [internal/edge] uses the write-ahead log through [Append], [Pending], [Commit],
    [Ready], [Close] and the committed sequence of [Stats].  [EdgeLog] states
    what they promise in terms of the queue of undelivered records; the publisher's
    theorems are proved against it, and [wal_log] shows that [wal.Store] on a disk
    with faults and crashes keeps the promise. *)

From S2P Require Import Prelude GoStrings Hash Domain Disk Wire Lineage WalModel.
From S2P Require Import WalFrame WalStore WalInv WalOps WalRecovery WalCrash WalTheorems.

Local Open Scope string_scope.
Local Open Scope Z_scope.
Local Open Scope list_scope.

(** [St] is the state of a log.  [el_rep st q]: it works and holds the queue [q];
    [el_down st P]: a failure has stopped it, and a restart gives a queue in [P].
    Between two calls time passes ([el_idle]), or the process crashes and opens the
    log again ([el_restart]); [el_admits] is what a record needs to be accepted, and
    [el_quiet] says that no fault lies ahead.  The laws of the operations cover the
    failing runs as well. *)
Class EdgeLog (St : Type) := {
  el_append : string -> Event -> M St WalRecord;
  el_pending : Z -> M St (list WalRecord);
  el_commit : Z -> M St unit;
  el_ready : M St unit;
  el_close : M St unit;
  el_committed : St -> Z;
  el_rep : St -> queue -> Prop;
  el_down : St -> (queue -> Prop) -> Prop;
  el_idle : St -> St -> Prop;
  el_restart : St -> St -> Prop;
  el_admits : St -> string -> Event -> Prop;
  el_quiet : St -> Prop;

  el_numbered : forall st q, el_rep st q -> numbered (q_committed q + 1) (q_records q);
  el_committed_rep : forall st q, el_rep st q -> el_committed st = q_committed q;
  el_append_law : forall st q topic ev, el_rep st q -> el_admits st topic ev ->
    wp (el_append topic ev) (fun r st' =>
      match r with
      | Ok rec => el_rep st' (enqueue rec q) /\ r_Topic rec = topic /\ r_Event rec = ev
      | Err _ => el_rep st' q \/ el_down st' (fun q' => q' = q \/
          exists rec, q' = enqueue rec q /\ r_Topic rec = topic /\ r_Event rec = ev)
      end) st;
  el_pending_law : forall st q limit, el_rep st q ->
    wp (el_pending limit) (fun r st' => el_rep st' q /\ forall rs, r = Ok rs -> rs = cut limit (q_records q)) st;
  el_commit_law : forall st q sequence, el_rep st q ->
    wp (el_commit sequence) (fun r st' =>
      match r with
      | Ok _ => sequence <= q_committed q /\ el_rep st' q \/
                sequence = q_committed q + 1 /\ q_records q <> [] /\ el_rep st' (dequeue q)
      | Err _ => el_rep st' q \/ el_down st' (fun q' => q' = q \/
                   q' = dequeue q /\ sequence = q_committed q + 1 /\ q_records q <> [])
      end) st;
  el_down_law : forall st P topic ev limit sequence, el_down st P ->
    wp (el_append topic ev) (fun r st' => is_ok r = false /\ st' = st) st /\
    wp (el_pending limit) (fun r st' => is_ok r = false /\ st' = st) st /\
    wp (el_commit sequence) (fun r st' => is_ok r = false /\ st' = st) st;
  el_idle_law : forall st st', el_idle st st' ->
    (forall q, el_rep st q -> el_rep st' q) /\ (forall P, el_down st P -> el_down st' P);
  el_quiet_pending : forall st q limit, el_rep st q -> el_quiet st ->
    wp (el_pending limit) (fun r st' => is_ok r = true /\ el_quiet st') st;
  el_quiet_commit : forall st q, el_rep st q -> el_quiet st -> q_records q <> [] ->
    wp (el_commit (q_committed q + 1)) (fun r st' => is_ok r = true /\ el_quiet st') st;
  el_restart_rep : forall st q st', el_rep st q -> el_restart st st' -> el_rep st' q;
  el_restart_down : forall st P st', el_down st P -> el_restart st st' -> exists q, P q /\ el_rep st' q;
}.

(** ** The write-ahead log keeps the promise *)

Section wal.
Context {ED : Ed25519} {SC : SealCodec} {WC : WalCodec} {CC : CheckpointCodec}.
Context (config : Config) (key : private_key).

Definition wal_rep (sd : Store * disk) (q : queue) : Prop :=
  represents config key sd.1 sd.2 q /\ limits_ok config.

Definition wal_down (sd : Store * disk) (P : queue -> Prop) : Prop :=
  failed sd.1 <> None /\ restarts_as config key sd.2 P /\ limits_ok config.

(** Time passes and the device's future faults are whatever they are. *)
Definition wal_idle (sd sd' : Store * disk) : Prop := sd'.1 = sd.1 /\ files sd'.2 = files sd.2.

(** A crash that leaves whole segment headers, and an opening without faults. *)
Definition wal_restart (sd sd' : Store * disk) : Prop :=
  exists d2, crash sd.2 d2 /\ faults d2 = [] /\
  (forall path f, has_suffix path ".tfwal" = true -> files d2 !! path = Some f ->
     segmentHeaderBytes <= zlen (data f)) /\
  Open config key d2 = (Ok sd'.1, sd'.2).

(** What an append needs of the event, the clock and the sequence space. *)
Definition wal_admits (sd : Store * disk) (topic : string) (ev : Event) : Prop :=
  acceptable topic ev /\ is_zero (clock sd.2) = false /\ nextSequence sd.1 + 1 < modulus64.

(** No I/O fault is scheduled, and checkpoints encode. *)
Definition wal_quiet (sd : Store * disk) : Prop := faults sd.2 = [] /\ ~ encoder_fails.

Lemma wal_append_law sd q topic ev :
  wal_rep sd q -> wal_admits sd topic ev ->
  wp (Append topic ev) (fun r sd' =>
    match r with
    | Ok rec => wal_rep sd' (enqueue rec q) /\ r_Topic rec = topic /\ r_Event rec = ev
    | Err _ => wal_rep sd' q \/ wal_down sd' (fun q' => q' = q \/
        exists rec, q' = enqueue rec q /\ r_Topic rec = topic /\ r_Event rec = ev)
    end) sd.
Proof.
  destruct sd as [s d]. intros [R HL] (Hacc & Hclk & Hnext). cbn in *. apply wp_run. intros r [s' d'] E.
  pose proof (append_queue _ _ _ _ _ _ _ _ _ _ R Hacc Hclk Hnext E) as H.
  destruct r as [rec|e]; [by destruct H as (? & _ & ?)|]. destruct H as [H|H]; [by left|right].
  split; [done|]. split; [|done]. intros d2 C F Hh.
  destruct (append_crash _ _ _ _ _ _ _ _ _ _ R Hacc Hclk Hnext HL E d2 C F Hh)
    as (s2 & d3 & q2 & HO & R2 & Hq). exists s2, d3, q2. split_and!; [done..|].
  destruct Hq as [->|(rec & p & Hb & ->)]; [by left|right]. exists rec. split; [done|].
  apply build_record_inv in Hb as (hash & rh & _ & _ & -> & _). done.
Qed.

Lemma wal_commit_law sd q sequence :
  wal_rep sd q ->
  wp (Commit sequence) (fun r sd' =>
    match r with
    | Ok _ => sequence <= q_committed q /\ wal_rep sd' q \/
              sequence = q_committed q + 1 /\ q_records q <> [] /\ wal_rep sd' (dequeue q)
    | Err _ => wal_rep sd' q \/ wal_down sd' (fun q' => q' = q \/
                 q' = dequeue q /\ sequence = q_committed q + 1 /\ q_records q <> [])
    end) sd.
Proof.
  destruct sd as [s d]. intros [R HL]. cbn in *. apply wp_run. intros r [s' d'] E.
  pose proof (commit_queue _ _ _ _ _ _ _ _ _ R E) as H. destruct r as [[]|e].
  - destruct H as [(? & -> & ->)|(? & ? & ?)]; [left; by split; [|split]|right; by split; [|split; [|split]]].
  - destruct H as [[_ H]|H]; [by left|right]. split; [done|]. split; [|done]. intros d2 C F Hh.
    destruct (commit_crash _ _ _ _ _ _ _ _ _ R HL E d2 C F Hh) as (s2 & d3 & q2 & HO & R2 & Hq).
    exists s2, d3, q2. split_and!; [done..|]. tauto.
Qed.

Lemma wal_restart_rep sd q sd' : wal_rep sd q -> wal_restart sd sd' -> wal_rep sd' q.
Proof.
  destruct sd as [s d], sd' as [s' d']. intros [R HL] (d2 & C & F & Hh & HO). cbn in *.
  assert (0 <= q_committed q /\ Commit 0 (s, d) = (Ok tt, (s, d))) as [H0 HC].
  { destruct R as (n & h & full & act & base & old & now & L & _ & _ & -> & _).
    pose proof (lv_first _ _ _ _ _ _ _ L). split; [lia|].
    cbv [Commit the_store on_state mbind M_mbind id].
    rewrite (lv_closed _ _ _ _ _ _ _ L), (lv_failed _ _ _ _ _ _ _ L).
    destruct (Z.leb_spec 0 (committed s)); [done|lia]. }
  destruct (commit_crash _ _ _ _ _ _ _ _ _ R HL HC d2 C F Hh) as (s2 & d3 & q2 & HO2 & R2 & Hq).
  rewrite HO in HO2. injection HO2 as <- <-. split; [|done].
  destruct Hq as [[-> _]|(_ & ? & _)]; [done|lia].
Qed.

Lemma wal_restart_down sd P sd' : wal_down sd P -> wal_restart sd sd' -> exists q, P q /\ wal_rep sd' q.
Proof.
  destruct sd as [s d], sd' as [s' d']. intros (_ & HR & HL) (d2 & C & F & Hh & HO). cbn in *.
  destruct (HR d2 C F Hh) as (s2 & d3 & q2 & HO2 & R2 & Hq). rewrite HO in HO2. injection HO2 as <- <-.
  by exists q2.
Qed.

Lemma wal_idle_law sd sd' :
  wal_idle sd sd' -> (forall q, wal_rep sd q -> wal_rep sd' q) /\ (forall P, wal_down sd P -> wal_down sd' P).
Proof.
  destruct sd as [s d], sd' as [s' d']. intros [Es Ef]. cbn in *. subst s'. split.
  - intros q [R HL]. split; [|done]. by apply (represents_files _ _ s d d').
  - intros P (H1 & H2 & H3). split; [done|]. split; [|done]. intros d2 C. apply H2.
    unfold crash in *. cbn in *. by rewrite <- Ef.
Qed.

Lemma wal_pending_law sd q limit :
  wal_rep sd q ->
  wp (Pending limit) (fun r sd' => wal_rep sd' q /\ forall rs, r = Ok rs -> rs = cut limit (q_records q)) sd.
Proof.
  destruct sd as [s d]. intros [R HL]. cbn in *. pose proof R as (n & h & full & act & base & old & now & L & T & C & Hc & Hq).
  eapply wp_mono; [apply (pending_spec s d n h full act base limit L)|]. intros r [s' d'] (E1 & Ef & _ & Hok & _).
  cbn in *. subst s'. split; [split; [by apply (represents_files _ _ s d d')|done]|]. intros rs ->.
  injection (Hok eq_refl) as ->. by rewrite Hq.
Qed.

Lemma wal_down_law sd P topic ev limit sequence :
  wal_down sd P ->
  wp (Append topic ev) (fun r sd' => is_ok r = false /\ sd' = sd) sd /\
  wp (Pending limit) (fun r sd' => is_ok r = false /\ sd' = sd) sd /\
  wp (Commit sequence) (fun r sd' => is_ok r = false /\ sd' = sd) sd.
Proof.
  destruct sd as [s d]. intros (H & _). cbn [fst] in H. destruct (failed_refuses s d H) as (e & HA & HP & HC & _).
  unfold wp. rewrite (HA topic ev), (HP limit), (HC sequence). by split_and!.
Qed.

Lemma wal_numbered sd q : wal_rep sd q -> numbered (q_committed q + 1) (q_records q).
Proof. intros [R _]. by destruct (represents_numbered _ _ _ _ _ R). Qed.

Lemma wal_committed_rep sd q : wal_rep sd q -> committed sd.1 = q_committed q.
Proof. by intros [(n & h & full & act & base & old & now & _ & _ & _ & -> & _) _]. Qed.

Lemma wal_quiet_pending sd q limit :
  wal_rep sd q -> wal_quiet sd -> wp (Pending limit) (fun r sd' => is_ok r = true /\ wal_quiet sd') sd.
Proof.
  destruct sd as [s d]. intros [(n & h & full & act & base & old & now & L & _) _] [F E]. cbn in *.
  eapply wp_mono; [apply (pending_spec s d n h full act base limit L)|].
  intros r [s' d'] (_ & _ & _ & _ & H). cbn in *. by destruct (H F).
Qed.

Lemma wal_quiet_commit sd q :
  wal_rep sd q -> wal_quiet sd -> q_records q <> [] ->
  wp (Commit (q_committed q + 1)) (fun r sd' => is_ok r = true /\ wal_quiet sd') sd.
Proof.
  destruct sd as [s d]. intros [R _] [F E] Hne. cbn in *. apply wp_run. intros r [s' d'] HC.
  pose proof (represents_numbered _ _ _ _ _ R) as [_ Hnext]. pose proof (zlen_pos _ Hne) as Hpos.
  destruct R as (n & h & full & act & base & old & now & L & _ & _ & Hc & _).
  pose proof (commit_spec _ _ _ _ _ _ _ _ _ _ _ L HC) as O.
  inversion O as [Hst|e Hlt Hr|e d2 _ _ _ Hbad|payload gone rest d2 _ _ _ _ _ St|payload gone rest e s2 d2 _ _ _ _ _ _ Hbad];
    subst; try lia; try by destruct Hbad.
  split; [done|]. split; [by apply St|done].
Qed.

(** [wal.Store] is an edge log. *)
Definition wal_log : EdgeLog (Store * disk) := {|
  el_append := Append;
  el_pending := Pending;
  el_commit := Commit;
  el_ready := Ready;
  el_close := Close;
  el_committed sd := committed sd.1;
  el_rep := wal_rep;
  el_down := wal_down;
  el_idle := wal_idle;
  el_restart := wal_restart;
  el_admits := wal_admits;
  el_quiet := wal_quiet;
  el_numbered := wal_numbered;
  el_committed_rep := wal_committed_rep;
  el_append_law := wal_append_law;
  el_pending_law := wal_pending_law;
  el_commit_law := wal_commit_law;
  el_down_law := wal_down_law;
  el_idle_law := wal_idle_law;
  el_quiet_pending := wal_quiet_pending;
  el_quiet_commit := wal_quiet_commit;
  el_restart_rep := wal_restart_rep;
  el_restart_down := wal_restart_down;
|}.
End wal.
