(* ===== verification/Edge.v ===== *)
(** * The durable edge publisher

    [internal/edge]: an event is accepted once it is in the write-ahead log (and, with
    a replication manager, once its quorum has answered); a background goroutine
    replicates, delivers and checkpoints the queue.  [PublishWithReceipt] and the
    goroutine run concurrently, so the goroutine is a machine of small steps, one per
    call that touches shared state, and [edge_step] interleaves them with new events,
    the passing of time, shutdown and crashes.  The theorems are proved against the
    interfaces of the log ([EdgeLog]) and of the downstream ([delivers]). *)

From S2P Require Import Prelude GoStrings Domain WalModel WalOps WalInv WalTheorems EdgeLog.
From S2P Require Import Topology ReplicaPolicy Mesh.

Local Open Scope string_scope.
Local Open Scope Z_scope.
Local Open Scope list_scope.

(** ** Data *)

Record Config := mkConfig { ReplayBatchSize : Z }.

Record FastPathStatus := mkFastPath {
  fp_ReplayBatchSize : Z;
  fp_BatchCalls : Z;
  fp_BatchEvents : Z;
  fp_SingleEvents : Z;
  fp_PartialFailures : Z;
}.

Record Status (S : Type) := mkStatus {
  ss_Stats : S;
  ss_Replication : ReplStatus;
  ss_FastPath : FastPathStatus;
}.
Arguments mkStatus {S} _ _ _.

Record Receipt := mkReceipt {
  rcp_Persisted : bool;
  rcp_EdgeSequence : Z;
  rcp_ReplicationSatisfied : bool;
}.
Definition no_receipt : Receipt := mkReceipt false 0 false.

(** [ep_world] is everything behind the downstream publisher; [ep_notify] is the
    wake-up channel of capacity one, [ep_stop] the closed [stop] channel. *)
Record Publisher (St W : Type) := mkEdge {
  ep_store : St;
  ep_world : W;
  ep_replicator : option ReplicaPolicy.Manager;
  ep_batchSize : Z;
  ep_counters : FastPathStatus;
  ep_notify : bool;
  ep_stop : bool;
}.
Arguments mkEdge {St W} _ _ _ _ _ _ _.
Arguments ep_store {St W} _.
Arguments ep_world {St W} _.
Arguments ep_replicator {St W} _.
Arguments ep_batchSize {St W} _.
Arguments ep_counters {St W} _.
Arguments ep_notify {St W} _.
Arguments ep_stop {St W} _.

(** Where the goroutine is: before the loop, at its head, in the [select] of an empty
    queue, in [wait] (after which the backoff may double), before replicating
    [records[index]], before [publishBatch], and in the checkpoint loop with the
    records and result slots still to go. *)
Inductive phase : Type :=
  | Starting
  | Polling
  | Idle
  | Waiting (grow : bool)
  | Replicating (records : list WalRecord) (index : nat)
  | Delivering (batch : list WalRecord) (blocked : bool)
  | Committing (batch : list WalRecord) (results : list (option error)) (blocked : bool)
  | Done.

Record loop := mkLoop {
  lp_phase : phase;
  lp_backoff : Z;
  lp_lastReleased : Z;
  lp_lastReleaseAt : time;
}.

(** What one step meets: the clock's readings, the peers' answers to a replication
    and to a release, and which case of a [select] fires. *)
Inductive wake : Type := ByStop | ByNotify | ByTimer.
Record input := mkInput {
  in_clock : nat -> time;
  in_arrivals : list arrival;
  in_release : list (option (result unit));
  in_wake : wake;
}.

Definition millisecond : Z := 1000000.
Definition initialBackoff : Z := 100 * millisecond.
Definition maxBackoff : Z := 5 * second.

Section edge.
Context {St W : Type} {EL : EdgeLog St} (ds : Downstream W).
Implicit Types p : Publisher St W.

(** ** Operations *)

Definition set_store (st : St) p : Publisher St W :=
  mkEdge st (ep_world p) (ep_replicator p) (ep_batchSize p) (ep_counters p) (ep_notify p) (ep_stop p).
Definition set_world (w : W) p : Publisher St W :=
  mkEdge (ep_store p) w (ep_replicator p) (ep_batchSize p) (ep_counters p) (ep_notify p) (ep_stop p).
Definition set_replicator (m : ReplicaPolicy.Manager) p : Publisher St W :=
  mkEdge (ep_store p) (ep_world p) (Some m) (ep_batchSize p) (ep_counters p) (ep_notify p) (ep_stop p).
Definition set_notify (b : bool) p : Publisher St W :=
  mkEdge (ep_store p) (ep_world p) (ep_replicator p) (ep_batchSize p) (ep_counters p) b (ep_stop p).
Definition set_stop p : Publisher St W :=
  mkEdge (ep_store p) (ep_world p) (ep_replicator p) (ep_batchSize p) (ep_counters p) (ep_notify p) true.
Definition count (f : FastPathStatus -> FastPathStatus) p : Publisher St W :=
  mkEdge (ep_store p) (ep_world p) (ep_replicator p) (ep_batchSize p) (f (ep_counters p)) (ep_notify p)
    (ep_stop p).

Definition add_batch (n : Z) (c : FastPathStatus) : FastPathStatus :=
  mkFastPath (fp_ReplayBatchSize c) (u64_succ (fp_BatchCalls c)) (u64 (fp_BatchEvents c + n))
    (fp_SingleEvents c) (fp_PartialFailures c).
Definition add_single (c : FastPathStatus) : FastPathStatus :=
  mkFastPath (fp_ReplayBatchSize c) (fp_BatchCalls c) (fp_BatchEvents c) (u64_succ (fp_SingleEvents c))
    (fp_PartialFailures c).
Definition add_failure (c : FastPathStatus) : FastPathStatus :=
  mkFastPath (fp_ReplayBatchSize c) (fp_BatchCalls c) (fp_BatchEvents c) (fp_SingleEvents c)
    (u64_succ (fp_PartialFailures c)).

(** A send on the channel of capacity one, or nothing when it is full. *)
Definition signal p : Publisher St W := set_notify true p.

Definition NewPublisherWithConfig (store : St) (world : W) (config : Config)
    (replicator : option ReplicaPolicy.Manager) : Publisher St W * loop :=
  let batchSize := ReplayBatchSize config in
  let batchSize := if batchSize <=? 0 then 64 else batchSize in
  let batchSize := if 1024 <? batchSize then 1024 else batchSize in
  (signal (mkEdge store world replicator batchSize (mkFastPath batchSize 0 0 0 0) false false),
   mkLoop Starting initialBackoff 0 0).

(** [ctx] is the error of a context that is already done. *)
Definition PublishWithReceipt (ctx : option error) (topic : string) (event : Event) (now : time)
    (events : list arrival) p : (Receipt * option error) * Publisher St W :=
  match ctx with
  | Some e => ((no_receipt, Some e), p)
  | None =>
      match el_append topic event (ep_store p) with
      | (Err e, st) => ((no_receipt, Some e), set_store st p)
      | (Ok record, st) =>
          let p := set_store st p in
          match ep_replicator p with
          | None => ((mkReceipt true (r_EdgeSequence record) true, None), signal p)
          | Some m =>
              let '((_, replicationErr), m) := ReplicaPolicy.Replicate record now events m in
              ((mkReceipt true (r_EdgeSequence record) (if replicationErr is None then true else false),
                replicationErr), signal (set_replicator m p))
          end
      end
  end.

Definition Publish (ctx : option error) (topic : string) (event : Event) (now : time)
    (events : list arrival) p : option error * Publisher St W :=
  let '((_, err), p) := PublishWithReceipt ctx topic event now events p in (err, p).

(** Readiness of the log, of the replication quorum, of the downstream. *)
Definition Ready (now : time) (events : list (option (Node * result health))) (downstream : result unit) p
  : result unit * Publisher St W :=
  match el_ready (ep_store p) with
  | (Err e, st) => (Err e, set_store st p)
  | (Ok _, st) =>
      (_ ← (match ep_replicator p with None => Ok tt | Some m => Manager_Ready now events m end);
       downstream, set_store st p)
  end.

(** [store_stats] is the log's own [Stats]. *)
Definition Stats {S} (store_stats : St -> S) p : Status S :=
  mkStatus (store_stats (ep_store p))
    (match ep_replicator p with
     | Some m => mg_status m
     | None => mkReplStatus ModeLocal 1 0 1 true 0 0 ""
     end) (ep_counters p).

(** [releaseCommitted]. *)
Definition releaseCommitted (force : bool) (i : input) p (l : loop) : loop :=
  match ep_replicator p with
  | None => l
  | Some m =>
      let committed := el_committed (ep_store p) in
      if (committed =? 0) || (committed <=? lp_lastReleased l) then l
      else if negb force && negb (is_zero (lp_lastReleaseAt l))
              && (time_sub (in_clock i 0) (lp_lastReleaseAt l) <? 5 * second) then l
      else mkLoop (lp_phase l) (lp_backoff l)
             (if Manager_Release committed (in_release i) m is None then committed
              else lp_lastReleased l) (in_clock i 1)
  end.

(** The one-by-one path of [publishBatch]: the first failure ends the loop, and the
    slots after it keep their zero value, which is [nil]. *)
Fixpoint publish_singles (items : list BatchItem) p : list (option error) * Publisher St W :=
  match items with
  | [] => ([], p)
  | item :: items' =>
      let p := count add_single p in
      match ds_Publish ds (bi_Topic item) (bi_Event item) (ep_world p) with
      | (Err e, w) => (Some e :: replicate (length items') None, set_world w p)
      | (Ok _, w) =>
          let '(results, p) := publish_singles items' (set_world w p) in (None :: results, p)
      end
  end.

Definition item_of (record : WalRecord) : BatchItem := mkBatchItem (r_Topic record) (r_Event record).

Definition publishBatch (records : list WalRecord) p : list (option error) * Publisher St W :=
  let items := item_of <$> records in
  match ds_PublishBatch ds with
  | Some publish_batch =>
      if 1 <? zlen items then
        let p := count (add_batch (zlen items)) p in
        let '(results, w) := publish_batch items (ep_world p) in (results, set_world w p)
      else publish_singles items p
  | None => publish_singles items p
  end.

Definition goto (ph : phase) (l : loop) : loop :=
  mkLoop ph (lp_backoff l) (lp_lastReleased l) (lp_lastReleaseAt l).
Definition set_backoff (d : Z) (l : loop) : loop :=
  mkLoop (lp_phase l) d (lp_lastReleased l) (lp_lastReleaseAt l).
Definition grow_backoff (l : loop) : loop :=
  if lp_backoff l <? maxBackoff then set_backoff (Z.min (2 * lp_backoff l) maxBackoff) l else l.

(** A [select] on the stop channel, the wake-up channel and a timer: [false] when it
    was the stop; no result when the chosen case is not ready. *)
Definition select (w : wake) p : option (bool * Publisher St W) :=
  match w with
  | ByStop => if ep_stop p then Some (false, p) else None
  | ByNotify => if ep_notify p then Some (true, set_notify false p) else None
  | ByTimer => Some (true, p)
  end.

(** The checkpoint loop at one record: a missing or failed slot ends the round, and so
    does a failed commit. *)
Definition commit_next (i : input) (record : WalRecord) (batch : list WalRecord)
    (results : list (option error)) (blocked : bool) p (l : loop) : Publisher St W * loop :=
  match results with
  | None :: results' =>
      match el_commit (r_EdgeSequence record) (ep_store p) with
      | (Err _, st) => (set_store st p, goto (Waiting true) l)
      | (Ok _, st) =>
          let p := set_store st p in
          let l := if 64 <=? u64_sub (r_EdgeSequence record) (lp_lastReleased l)
                   then releaseCommitted true i p l else l in
          (p, goto (Committing batch results' blocked) l)
      end
  | _ => (count add_failure p, goto (Waiting true) l)
  end.

(** The goroutine's next step; no result when the chosen [select] case is not ready. *)
Definition run_step (i : input) p (l : loop) : option (Publisher St W * loop) :=
  match lp_phase l with
  | Starting => Some (p, goto Polling (releaseCommitted true i p l))
  | Polling =>
      if ep_stop p then Some (p, goto Done l)
      else match el_pending (ep_batchSize p) (ep_store p) with
      | (Err _, st) => Some (set_store st p, goto (Waiting false) l)
      | (Ok [], st) =>
          let p := set_store st p in
          Some (p, goto Idle (releaseCommitted false i p (set_backoff initialBackoff l)))
      | (Ok records, st) =>
          Some (set_store st p,
                goto (match ep_replicator p with
                      | None => Delivering records false
                      | Some _ => Replicating records 0
                      end) l)
      end
  | Idle =>
      '(go, p) ← select (in_wake i) p;
      Some (p, goto (if go : bool then Polling else Done) l)
  | Waiting grow =>
      '(go, p) ← select (in_wake i) p;
      Some (p, if go : bool then goto Polling (if grow then grow_backoff l else l) else goto Done l)
  | Replicating records index =>
      match ep_replicator p, records !! index with
      | Some m, Some record =>
          let '((_, err), m) := ReplicaPolicy.Replicate record (in_clock i 0) (in_arrivals i) m in
          let ph := match err with
                    | None => Replicating records (S index)
                    | Some _ => Delivering (take index records) true
                    end in
          Some (set_replicator m p, goto ph l)
      | _, _ => Some (p, goto (Delivering records false) l)
      end
  | Delivering batch blocked =>
      if 0 <? zlen batch then
        let '(results, p) := publishBatch batch p in Some (p, goto (Committing batch results blocked) l)
      else Some (p, goto (Committing [] [] blocked) l)
  | Committing [] _ blocked =>
      Some (p, if blocked then goto (Waiting true) l else goto Polling (set_backoff initialBackoff l))
  | Committing (record :: batch) results blocked => Some (commit_next i record batch results blocked p l)
  | Done => None
  end.

(** [Close], once the goroutine is done: the stop channel is closed, then the
    downstream and the log; a failure to close the log is only logged. *)
Definition Close p : Publisher St W := set_store (el_close (ep_store p)).2 (set_stop p).

(** ** The running node *)

(** What an observer of a step records. *)
Inductive obs : Type :=
  | Accepted (topic : string) (event : Event)
  | Quorum (record : WalRecord) (config : ReplConfig) (events : list arrival)
  | Handed (record : WalRecord).

(** The records a step of the goroutine finds replicated, or hands downstream. *)
Definition observe (i : input) p (l : loop) : list obs :=
  match lp_phase l with
  | Replicating records index =>
      match ep_replicator p, records !! index with
      | Some m, Some record =>
          let '((_, err), _) := ReplicaPolicy.Replicate record (in_clock i 0) (in_arrivals i) m in
          if err is None then [Quorum record (mg_config m) (in_arrivals i)] else []
      | _, _ => []
      end
  | Delivering batch _ => Handed <$> batch
  | _ => []
  end.

(** What the downstream has taken for good; it never forgets. *)
Context (delivered : W -> string -> Event -> Prop).
Definition keeps (w w' : W) : Prop := forall topic event, delivered w topic event -> delivered w' topic event.

(** The replication manager, if there is one, comes from [NewManager]. *)
Definition built (m : option ReplicaPolicy.Manager) : Prop :=
  match m with
  | None => True
  | Some m => exists config now, ReplicaPolicy.NewManager config now = Ok m
  end.

Inductive edge_step : Publisher St W * loop -> list obs -> Publisher St W * loop -> Prop :=
  | step_publish ctx topic event now events p l receipt err p' :
      el_admits (ep_store p) topic event ->
      PublishWithReceipt ctx topic event now events p = ((receipt, err), p') ->
      edge_step (p, l) (if rcp_Persisted receipt then [Accepted topic event] else []) (p', l)
  | step_run i p l p' l' :
      run_step i p l = Some (p', l') -> edge_step (p, l) (observe i p l) (p', l')
  | step_time p l st : el_idle (ep_store p) st -> edge_step (p, l) [] (set_store st p, l)
  | step_world p l w : keeps (ep_world p) w -> edge_step (p, l) [] (set_world w p, l)
  | step_stop p l : edge_step (p, l) [] (set_stop p, l)
  | step_crash p l st config m :
      el_restart (ep_store p) st -> built m -> (m = None <-> ep_replicator p = None) ->
      edge_step (p, l) [] (NewPublisherWithConfig st (ep_world p) config m).

Inductive edge_run : Publisher St W * loop -> list obs -> Publisher St W * loop -> Prop :=
  | run_nil n : edge_run n [] n
  | run_snoc n tr n1 os n2 : edge_run n tr n1 -> edge_step n1 os n2 -> edge_run n (tr ++ os) n2.

(** The downstream's contract: [nil] means taken, slot by slot for a batch. *)
Record delivers : Prop := {
  dl_publish : forall topic event w,
    wp (ds_Publish ds topic event) (fun r w' =>
      keeps w w' /\ (is_ok r = true -> delivered w' topic event)) w;
  dl_batch : forall publish_batch items w,
    ds_PublishBatch ds = Some publish_batch ->
    let '(results, w') := publish_batch items w in
    keeps w w' /\ forall index item, items !! index = Some item -> results !! index = Some None ->
      delivered w' (bi_Topic item) (bi_Event item);
}.

(** ** At least once *)

Definition queued (q : queue) (topic : string) (event : Event) : Prop :=
  exists r, r ∈ q_records q /\ r_Topic r = topic /\ r_Event r = event.

(** The log works and its queue is in [P], or it has stopped and every restart gives
    a queue in [P]. *)
Definition log_holds (st : St) (P : queue -> Prop) : Prop :=
  (exists q, el_rep st q /\ P q) \/ (exists P', el_down st P' /\ forall q, P' q -> P q).

(** The leading [nil] slots stand for records that were delivered. *)
Fixpoint prefix_delivered (w : W) (batch : list WalRecord) (results : list (option error)) : Prop :=
  match batch, results with
  | r :: batch', None :: results' =>
      delivered w (r_Topic r) (r_Event r) /\ prefix_delivered w batch' results'
  | _, _ => True
  end.

(** The goroutine works on a prefix of the queue. *)
Definition phase_ok (w : W) (q : queue) (ph : phase) : Prop :=
  match ph with
  | Replicating records _ => records `prefix_of` q_records q
  | Delivering batch _ => batch `prefix_of` q_records q
  | Committing batch results _ => batch `prefix_of` q_records q /\ prefix_delivered w batch results
  | _ => True
  end.

(** Every event of [acc] is delivered or in the queue. *)
Definition covered (acc : list (string * Event)) (w : W) (q : queue) : Prop :=
  Forall (fun te => delivered w te.1 te.2 \/ queued q te.1 te.2) acc.

Definition edge_inv (acc : list (string * Event)) (n : Publisher St W * loop) : Prop :=
  (exists q, el_rep (ep_store n.1) q /\ covered acc (ep_world n.1) q /\
             phase_ok (ep_world n.1) q (lp_phase n.2)) \/
  (exists P, el_down (ep_store n.1) P /\ forall q, P q -> covered acc (ep_world n.1) q).

Lemma covered_keeps acc w w' q : keeps w w' -> covered acc w q -> covered acc w' q.
Proof. intros K H. apply (Forall_impl _ _ _ H). clear H. intros te [H|H]; [left; by apply K|by right]. Qed.

Lemma queued_enqueue q rec topic event : queued q topic event -> queued (enqueue rec q) topic event.
Proof. intros (r & Hr & E). exists r. split; [|done]. apply elem_of_app. by left. Qed.

Lemma covered_enqueue acc w q rec : covered acc w q -> covered acc w (enqueue rec q).
Proof. intros H. apply (Forall_impl _ _ _ H). clear H. intros te [H|H]; [by left|right; by apply queued_enqueue]. Qed.

Lemma covered_dequeue acc w q r rest :
  q_records q = r :: rest -> delivered w (r_Topic r) (r_Event r) -> covered acc w q ->
  covered acc w (dequeue q).
Proof.
  intros Eq D H. apply (Forall_impl _ _ _ H). clear H. intros te [H|(r' & Hr & <- & <-)]; [by left|]. rewrite Eq in Hr.
  apply elem_of_cons in Hr as [->|Hr]; [by left|right]. exists r'. unfold dequeue. by rewrite Eq.
Qed.

Lemma prefix_delivered_keeps w w' batch results :
  keeps w w' -> prefix_delivered w batch results -> prefix_delivered w' batch results.
Proof.
  intros K. revert results. induction batch as [|r batch IH]; intros [|[e|] results]; cbn; try done.
  intros [? ?]. split; [by apply K|by apply IH].
Qed.

Lemma phase_ok_keeps w w' q ph : keeps w w' -> phase_ok w q ph -> phase_ok w' q ph.
Proof. intros K. destruct ph; cbn; try done. intros [? ?]. split; [done|by eapply prefix_delivered_keeps]. Qed.

Lemma phase_ok_enqueue w q rec ph : phase_ok w q ph -> phase_ok w (enqueue rec q) ph.
Proof.
  destruct ph; cbn; try done; [..|intros [? ?]; split; [|done]]; by apply prefix_app_r.
Qed.

Lemma keeps_refl w : keeps w w.
Proof. by intros ? ?. Qed.

Lemma keeps_trans w1 w2 w3 : keeps w1 w2 -> keeps w2 w3 -> keeps w1 w3.
Proof. intros H1 H2 ? ? ?. by apply H2, H1. Qed.

Lemma cut_prefix (limit : Z) (l : list WalRecord) : cut limit l `prefix_of` l.
Proof. unfold cut. destruct (0 <? limit); [apply prefix_take|done]. Qed.

Lemma slots_prefix w batch results :
  (forall index item, (item_of <$> batch) !! index = Some item -> results !! index = Some None ->
     delivered w (bi_Topic item) (bi_Event item)) ->
  prefix_delivered w batch results.
Proof.
  revert results. induction batch as [|r batch IH]; intros [|[e|] results] H; cbn; try done.
  split; [by apply (H 0%nat (item_of r))|]. apply IH. intros index item. apply (H (S index)).
Qed.

Lemma publish_singles_spec (D : delivers) batch p :
  let '(results, p') := publish_singles (item_of <$> batch) p in
  ep_store p' = ep_store p /\ keeps (ep_world p) (ep_world p') /\
  prefix_delivered (ep_world p') batch results.
Proof.
  revert p. induction batch as [|r batch IH]; intros p; cbn; [split_and!; [done|apply keeps_refl|done]|].
  pose proof (dl_publish D (r_Topic r) (r_Event r) (ep_world p)) as H. unfold wp in H.
  destruct (ds_Publish _ _ _ _) as [[[]|e] w]; cbn in *; destruct H as [K H]; [|by split_and!].
  specialize (IH (set_world w (count add_single p))). destruct (publish_singles _ _) as [results p'].
  destruct IH as (Es & K' & HP). split; [done|]. split; [by eapply keeps_trans|].
  split; [apply K'; by apply H|done].
Qed.

Lemma publishBatch_spec (D : delivers) batch p :
  let '(results, p') := publishBatch batch p in
  ep_store p' = ep_store p /\ keeps (ep_world p) (ep_world p') /\
  prefix_delivered (ep_world p') batch results.
Proof.
  unfold publishBatch. cbv zeta. pose proof (publish_singles_spec D batch p) as HS.
  destruct (ds_PublishBatch ds) as [f|] eqn:E; [|done]. destruct (1 <? _); [|done].
  pose proof (dl_batch D f (item_of <$> batch) (ep_world p) E) as H. cbn in *.
  destruct (f _ _) as [results w]. destruct H as [K H]. split; [done|]. split; [done|]. by apply slots_prefix.
Qed.

(** Delivering changes the world and the counters only. *)
Lemma publish_singles_frame items p results p' :
  publish_singles items p = (results, p') -> exists w c, p' = set_world w (count (fun _ => c) p).
Proof.
  revert p results p'. induction items as [|item items IH]; intros p results p'; cbn.
  { intros [= _ <-]. exists (ep_world p), (ep_counters p). by destruct p. }
  destruct (ds_Publish _ _ _ _) as [[[]|e] w]; [|intros [= _ <-]; by eexists _, _].
  destruct (publish_singles _ _) as [rs p1] eqn:E. intros [= _ <-].
  apply IH in E as (w' & c & ->). by exists w', c.
Qed.

Lemma publishBatch_frame batch p results p' :
  publishBatch batch p = (results, p') -> exists w c, p' = set_world w (count (fun _ => c) p).
Proof.
  unfold publishBatch. destruct (ds_PublishBatch ds); [|apply publish_singles_frame]. cbv zeta.
  destruct (1 <? _); [|apply publish_singles_frame]. destruct (_ _ (ep_world _)). intros [= _ <-]. by eexists _, _.
Qed.

(** A step that leaves the log and the world alone, and ends in a phase without
    obligations. *)
Lemma edge_inv_calm acc p l p' l' :
  edge_inv acc (p, l) -> ep_store p' = ep_store p -> ep_world p' = ep_world p ->
  (forall q, el_rep (ep_store p) q -> phase_ok (ep_world p) q (lp_phase l) ->
     phase_ok (ep_world p) q (lp_phase l')) ->
  edge_inv acc (p', l').
Proof.
  intros I Es Ew H. unfold edge_inv in *. cbn in *. rewrite Es, Ew.
  destruct I as [(q & R & C & Ph)|Hd]; [left|by right]. exists q. auto.
Qed.

Lemma edge_inv_pending acc p l :
  edge_inv acc (p, l) ->
  wp (el_pending (ep_batchSize p)) (fun r st =>
    forall ph, (forall w q, phase_ok w q ph) \/
      (exists records, r = Ok records /\ forall w q, records `prefix_of` q_records q -> phase_ok w q ph) ->
    forall p' l', ep_store p' = st -> ep_world p' = ep_world p -> lp_phase l' = ph ->
    edge_inv acc (p', l')) (ep_store p).
Proof.
  intros [(q & R & C & Ph)|(P & Dn & HP)]; cbn in *.
  - eapply wp_mono; [exact (el_pending_law _ _ _ R)|]. intros r st [R' Hr] ph Hph p' l' Es Ew El.
    left. exists q. cbn. rewrite Es, Ew, El. split; [done|]. split; [done|].
    destruct Hph as [Hph|(records & -> & Hph)]; [done|]. apply Hph. rewrite (Hr _ eq_refl). apply cut_prefix.
  - destruct (el_down_law _ _ "" (mkEvent "" "" "" "" 0 ∅ [] None "" "" "" "") (ep_batchSize p) 0 Dn)
      as (_ & H & _).
    eapply wp_mono; [exact H|]. intros r st [_ ->] ph _ p' l' Es Ew El.
    right. exists P. cbn. by rewrite Es, Ew.
Qed.

Lemma release_phase force i p l : lp_phase (releaseCommitted force i p l) = lp_phase l.
Proof.
  unfold releaseCommitted. destruct (ep_replicator p); [|done]. cbv zeta.
  destruct (_ || _); [done|]. by destruct (_ && _).
Qed.

Lemma commit_next_inv acc i record batch results blocked p l :
  lp_phase l = Committing (record :: batch) results blocked -> edge_inv acc (p, l) ->
  edge_inv acc (commit_next i record batch results blocked p l).
Proof.
  intros El I. unfold commit_next.
  destruct results as [|[e|] results]; [by eapply edge_inv_calm|by eapply edge_inv_calm|].
  destruct I as [(q & R & C & Ph)|(P & Dn & HP)]; cbn [fst snd] in *.
  - rewrite El in Ph. destruct Ph as [[rest Eq] [D HD]]. cbn in Eq.
    pose proof (el_numbered _ _ R) as Hn. rewrite Eq in Hn. destruct Hn as [Hseq _].
    assert (covered acc (ep_world p) (dequeue q)) as Cd by (by eapply covered_dequeue).
    pose proof (el_commit_law _ _ (r_EdgeSequence record) R) as H. unfold wp in H.
    destruct (el_commit _ _) as [[[]|e] st]; cbn in H |- *.
    + destruct H as [[? _]|(_ & _ & R')]; [lia|]. left. exists (dequeue q). cbn. split; [done|]. split; [done|].
      split; [|done]. exists rest. unfold dequeue. by rewrite Eq.
    + destruct H as [R'|Dn]; [left; by exists q|]. right. eexists. split; [exact Dn|].
      intros q' [->|[-> _]]; [done|exact Cd].
  - destruct (el_down_law _ _ "" (r_Event record) 0 (r_EdgeSequence record) Dn) as (_ & _ & H).
    unfold wp in H. destruct (el_commit _ _) as [[[]|e] st]; destruct H as [H E]; [done|]. cbn in E.
    right. exists P. cbn. rewrite E. by split.
Qed.

Lemma select_calm w p go p' : select w p = Some (go, p') -> ep_store p' = ep_store p /\ ep_world p' = ep_world p.
Proof. unfold select. destruct w; [destruct (ep_stop p)|destruct (ep_notify p)|]; by intros [= <- <-]. Qed.

Lemma run_step_inv acc (D : delivers) i p l p' l' :
  run_step i p l = Some (p', l') -> edge_inv acc (p, l) -> edge_inv acc (p', l').
Proof.
  unfold run_step. intros Hs I. destruct (lp_phase l) as [| | |grow|records index|batch blocked|batch results blocked|] eqn:El.
  - injection Hs as <- <-. by eapply edge_inv_calm.
  - destruct (ep_stop p); [injection Hs as <- <-; by eapply edge_inv_calm|].
    pose proof (edge_inv_pending _ _ _ I) as H. unfold wp in H.
    destruct (el_pending _ _) as [[[|r records]|e] st]; cbn in H; injection Hs as <- <-.
    + by eapply (H Idle); [left|..].
    + eapply H; [right; exists (r :: records); split; [done|]|done..]. by destruct (ep_replicator p).
    + by eapply (H (Waiting false)); [left|..].
  - destruct (select _ _) as [[go p1]|] eqn:E; [|done]. apply select_calm in E as [E1 E2].
    injection Hs as <- <-. eapply edge_inv_calm; [done..|]. intros q _ _. by destruct go.
  - destruct (select _ _) as [[go p1]|] eqn:E; [|done]. apply select_calm in E as [E1 E2].
    injection Hs as <- <-. eapply edge_inv_calm; [done..|]. intros q _ _. by destruct go.
  - destruct (ep_replicator p) as [m|]; [destruct (records !! index) as [record|]|];
      [destruct (Replicate _ _ _ _) as [[res err] m']| |];
      injection Hs as <- <-; (eapply edge_inv_calm; [done..|]); intros q _; rewrite El; cbn; [|done..].
    intros Hp. destruct err; [|done]. cbn. etransitivity; [apply prefix_take|done].
  - destruct (0 <? zlen batch).
    + pose proof (publishBatch_spec D batch p) as H. destruct (publishBatch batch p) as [results p1].
      destruct H as (E1 & K & HP). injection Hs as <- <-. unfold edge_inv in *. cbn in *. rewrite E1.
      destruct I as [(q & R & C & Ph)|(P & Dn & Hd)].
      * left. exists q. rewrite El in Ph. split; [done|]. split; [by eapply covered_keeps|]. by split.
      * right. exists P. split; [done|]. intros q Hq. by eapply covered_keeps; [|apply Hd].
    + injection Hs as <- <-. eapply edge_inv_calm; [done..|]. intros q _ _. split; [apply prefix_nil|done].
  - destruct batch as [|record batch].
    + injection Hs as <- <-. eapply edge_inv_calm; [done..|]. intros q _ _. by destruct blocked.
    + injection Hs as Hs. rewrite <- Hs. by apply commit_next_inv.
  - done.
Qed.

Lemma publish_store ctx topic event now events p receipt err p' :
  PublishWithReceipt ctx topic event now events p = ((receipt, err), p') ->
  ep_world p' = ep_world p /\
  ((p' = p /\ receipt = no_receipt) \/
   exists r, el_append topic event (ep_store p) = (r, ep_store p') /\ rcp_Persisted receipt = is_ok r).
Proof.
  unfold PublishWithReceipt. destruct ctx; [intros [= <- <- <-]; by auto|].
  destruct (el_append _ _ _) as [[record|e] st]; 
    [|intros [= <- <- <-]; cbn; split; [done|]; right; by exists (Err e)].
  cbn [ep_replicator set_store]. destruct (ep_replicator p) as [m|] eqn:Em.
  - destruct (Replicate _ _ _ _) as [[res re] m']. intros [= <- <- <-]. cbn. split; [done|].
    right. by exists (Ok record).
  - intros [= <- <- <-]. cbn. split; [done|]. right. by exists (Ok record).
Qed.

Lemma publish_inv acc ctx topic event now events p l receipt err p' :
  el_admits (ep_store p) topic event ->
  PublishWithReceipt ctx topic event now events p = ((receipt, err), p') ->
  edge_inv acc (p, l) ->
  edge_inv (if rcp_Persisted receipt then acc ++ [(topic, event)] else acc) (p', l).
Proof.
  intros Hadm HP I. apply publish_store in HP as (Ew & [[-> ->]|(r & HA & ->)]); [done|].
  unfold edge_inv in *. cbn [fst snd] in *. rewrite Ew.
  destruct I as [(q & R & C & Ph)|(P & Dn & Hd)].
  - pose proof (el_append_law _ _ _ _ R Hadm) as H. unfold wp in H. rewrite HA in H. cbn in H.
    destruct r as [rec|e]; cbn.
    + destruct H as (R' & Et & Ev). left. exists (enqueue rec q). split; [done|].
      split; [|by apply phase_ok_enqueue]. apply Forall_app. split; [by apply covered_enqueue|].
      apply Forall_singleton. right. exists rec. split; [|done]. apply elem_of_app. right. by left.
    + destruct H as [R'|Dn]; [left; by exists q|]. right. eexists. split; [exact Dn|].
      intros q' [->|(rec & -> & _)]; [done|by apply covered_enqueue].
  - destruct (el_down_law _ _ topic event 0 0 Dn) as (H & _). unfold wp in H. rewrite HA in H.
    destruct H as [H Es]. cbn in H, Es. rewrite H, Es. right. by exists P.
Qed.

(** The events a trace shows as accepted. *)
Definition accepted (tr : list obs) : list (string * Event) :=
  omap (fun o => match o with Accepted topic event => Some (topic, event) | _ => None end) tr.

Lemma accepted_app tr tr' : accepted (tr ++ tr') = accepted tr ++ accepted tr'.
Proof. apply omap_app. Qed.

Lemma accepted_observe i p l : accepted (observe i p l) = [].
Proof.
  unfold observe. destruct (lp_phase l) as [| | | |records index|batch ?| |]; try done.
  - destruct (ep_replicator p); [|done]. destruct (records !! index); [|done].
    destruct (Replicate _ _ _ _) as [[? []] ?]; done.
  - by induction batch.
Qed.

Lemma accepted_elem tr topic event : Accepted topic event ∈ tr -> (topic, event) ∈ accepted tr.
Proof. intros H. apply list_elem_of_omap. by exists (Accepted topic event). Qed.

Lemma edge_step_inv acc (D : delivers) n os n' :
  edge_step n os n' -> edge_inv acc n -> edge_inv (acc ++ accepted os) n'.
Proof.
  intros Hs I. destruct Hs as [ctx topic event now events p l receipt err p' Hadm HP|i p l p' l' Hr|p l st Hi|p l w K|p l|p l st config m Hst _ _].
  - pose proof (publish_inv _ _ _ _ _ _ _ _ _ _ _ Hadm HP I) as H.
    destruct (rcp_Persisted receipt); cbn; [done|by rewrite app_nil_r].
  - rewrite accepted_observe, app_nil_r. by eapply run_step_inv.
  - rewrite app_nil_r. apply el_idle_law in Hi as [H1 H2].
    destruct I as [(q & R & C & Ph)|(P & Dn & Hd)]; [left; exists q; cbn; auto|right; exists P; cbn; auto].
  - rewrite app_nil_r. destruct I as [(q & R & C & Ph)|(P & Dn & Hd)].
    + left. exists q. cbn in *. split; [done|]. split; [by eapply covered_keeps|by eapply phase_ok_keeps].
    + right. exists P. split; [done|]. intros q Hq. by eapply covered_keeps; [|apply Hd].
  - rewrite app_nil_r. by eapply edge_inv_calm.
  - rewrite app_nil_r. destruct I as [(q & R & C & Ph)|(P & Dn & Hd)].
    + left. exists q. cbn in *. split; [by eapply el_restart_rep|done].
    + destruct (el_restart_down _ _ _ Dn Hst) as (q & Hq & R). left. exists q. cbn in *. auto.
Qed.

Lemma edge_run_inv (D : delivers) acc n tr n' :
  edge_run n tr n' -> edge_inv acc n -> edge_inv (acc ++ accepted tr) n'.
Proof.
  intros Hr I. induction Hr as [|n tr n1 os n2 _ IH Hs]; [by rewrite app_nil_r|].
  rewrite accepted_app, app_assoc. by eapply edge_step_inv; [| |apply IH].
Qed.

Definition records_of (q : queue) : list (string * Event) := (fun r => (r_Topic r, r_Event r)) <$> q_records q.

Lemma covered_self w q : covered (records_of q) w q.
Proof. apply Forall_forall. intros te Hte. apply list_elem_of_fmap in Hte as (r & -> & Hr). right. by exists r. Qed.

(** Nothing accepted is lost: it was delivered, or the log still has it. *)
Lemma edge_keeps (D : delivers) st w q config m tr p l topic event :
  el_rep st q -> edge_run (NewPublisherWithConfig st w config m) tr (p, l) ->
  Accepted topic event ∈ tr \/ queued q topic event ->
  log_holds (ep_store p) (fun q' => delivered (ep_world p) topic event \/ queued q' topic event).
Proof.
  intros R Hr Hin.
  assert (edge_inv (records_of q) (NewPublisherWithConfig st w config m)) as I0.
  { left. exists q. split; [done|]. split; [apply covered_self|done]. }
  pose proof (edge_run_inv D _ _ _ _ Hr I0) as I.
  assert ((topic, event) ∈ records_of q ++ accepted tr) as Hacc.
  { apply elem_of_app. destruct Hin as [H|(r & Hr' & <- & <-)]; [right; by apply accepted_elem|left].
    by apply (list_elem_of_fmap_2 (fun r => (r_Topic r, r_Event r))). }
  destruct I as [(q' & R' & C & _)|(P & Dn & Hd)]; [left; exists q'|right; exists P]; (split; [done|]).
  - exact (proj1 (Forall_forall _ _) C _ Hacc).
  - intros q' Hq. exact (proj1 (Forall_forall _ _) (Hd _ Hq) _ Hacc).
Qed.

(** ** Replication before delivery *)

Lemma Replicate_config record now events m result err m' :
  ReplicaPolicy.Replicate record now events m = (result, err, m') -> mg_config m' = mg_config m.
Proof.
  unfold Replicate. destruct (bool_decide _); [by intros [= _ _ <-]|]. cbv zeta.
  destruct (replicate_loop _ _ _ _ _ _). by intros [= _ _ <-].
Qed.

(** The quorum was met: outside the local mode, the acknowledgements heard for the
    record satisfy the configured policy. *)
Definition met (record : WalRecord) (config : ReplConfig) (events : list arrival) : Prop :=
  rc_Mode config <> ModeLocal ->
  durable config (local_ack config record :: heard record (rc_Peers config) events).

Lemma Replicate_met record now events m result m' :
  ReplicaPolicy.normalizedConfig (mg_config m) = mg_config m ->
  ReplicaPolicy.Replicate record now events m = (result, None, m') -> met record (mg_config m) events.
Proof.
  intros Hn HR Hmode. unfold Replicate in HR. rewrite bool_decide_eq_false_2 in HR by done. cbv zeta in HR.
  destruct (replicate_loop _ _ _ _ _ _) as [res failure] eqn:L. injection HR as _ Hf _.
  apply replicate_loop_decides in L; [|rewrite Hn; by intros ?%durable_alone]. rewrite Hn in L.
  apply L. by destruct failure.
Qed.

(** [record] met its quorum earlier in the trace. *)
Definition replicated (tr : list obs) (record : WalRecord) : Prop :=
  exists config events, Quorum record config events ∈ tr /\ met record config events.

Definition gated (tr : list obs) : Prop :=
  forall before record after, tr = before ++ Handed record :: after -> replicated before record.

Definition phase_gated (tr : list obs) (ph : phase) : Prop :=
  match ph with
  | Replicating records index => Forall (replicated tr) (take index records)
  | Delivering batch _ => Forall (replicated tr) batch
  | _ => True
  end.

Definition has_manager p : Prop :=
  exists m, ep_replicator p = Some m /\ ReplicaPolicy.normalizedConfig (mg_config m) = mg_config m.

Definition gate_inv (tr : list obs) (n : Publisher St W * loop) : Prop :=
  gated tr /\ has_manager n.1 /\ phase_gated tr (lp_phase n.2).

Lemma replicated_app tr os record : replicated tr record -> replicated (tr ++ os) record.
Proof. intros (c & e & H & Hm). exists c, e. split; [|done]. apply elem_of_app. by left. Qed.

Lemma gated_app tr os :
  gated tr -> (forall record, Handed record ∈ os -> replicated tr record) -> gated (tr ++ os).
Proof.
  intros G H before record after E. apply app_eq_app in E as (l & [[-> Ea]|[-> Ea]]).
  - destruct l as [|o l]; [|injection Ea as <- _; by eapply G].
    cbn in Ea. rewrite app_nil_r in *. apply H. rewrite <- Ea. by left.
  - apply replicated_app, H. rewrite Ea. apply elem_of_app. right. by left.
Qed.

Lemma built_normal m : built (Some m) -> ReplicaPolicy.normalizedConfig (mg_config m) = mg_config m.
Proof. intros (config & now & H). apply NewManager_config in H as (-> & _). apply normalized_idempotent. Qed.

Lemma phase_gated_app tr os ph : phase_gated tr ph -> phase_gated (tr ++ os) ph.
Proof.
  destruct ph; cbn; try done; intros H; apply (Forall_impl _ _ _ H); intros; by apply replicated_app.
Qed.

Lemma same_manager p p' : ep_replicator p' = ep_replicator p -> has_manager p -> has_manager p'.
Proof. intros E (m & Em & Hn). exists m. by rewrite E. Qed.

(** A step that hands nothing downstream. *)
Lemma gate_quiet tr os n n' :
  gate_inv tr n -> (forall record, Handed record ∉ os) -> has_manager n'.1 ->
  phase_gated (tr ++ os) (lp_phase n'.2) -> gate_inv (tr ++ os) n'.
Proof. intros (G & _ & _) Ho Hm Hp. split; [|done]. apply gated_app; [done|]. by intros r Hr%Ho. Qed.

Lemma gate_silent tr n n' :
  gate_inv tr n -> has_manager n'.1 -> phase_gated tr (lp_phase n'.2) -> gate_inv (tr ++ []) n'.
Proof.
  intros G Hm Hp. eapply gate_quiet; [done| |done|by rewrite app_nil_r]. intros r. apply not_elem_of_nil.
Qed.

Lemma select_manager w p go p' : select w p = Some (go, p') -> ep_replicator p' = ep_replicator p.
Proof. unfold select. destruct w; [destruct (ep_stop p)|destruct (ep_notify p)|]; by intros [= <- <-]. Qed.

Lemma publish_manager ctx topic event now events p receipt err p' :
  PublishWithReceipt ctx topic event now events p = ((receipt, err), p') -> has_manager p -> has_manager p'.
Proof.
  intros HP (m & Em & Hn). unfold PublishWithReceipt in HP.
  destruct ctx; [injection HP as <- <- <-; by exists m|].
  destruct (el_append _ _ _) as [[record|e] st]; [|injection HP as <- <- <-; by exists m].
  cbn [ep_replicator set_store] in HP. rewrite Em in HP.
  destruct (Replicate _ _ _ _) as [[res re] m'] eqn:ER. injection HP as <- <- <-. exists m'. split; [done|].
  by rewrite (Replicate_config _ _ _ _ _ _ _ ER).
Qed.

Lemma commit_next_gate tr i record batch results blocked p l :
  gate_inv tr (p, l) -> gate_inv (tr ++ []) (commit_next i record batch results blocked p l).
Proof.
  intros G. pose proof G as (_ & Hm & _). unfold commit_next.
  destruct results as [|[e|] results]; try by eapply gate_silent.
  destruct (el_commit _ _) as [[[]|e] st]; by eapply gate_silent.
Qed.

Lemma replicating_gate tr i p l records index p' l' :
  lp_phase l = Replicating records index -> run_step i p l = Some (p', l') ->
  gate_inv tr (p, l) -> gate_inv (tr ++ observe i p l) (p', l').
Proof.
  intros El Hs G. pose proof G as (_ & (m & Em & Hn) & Ph). cbn in Em, Ph. rewrite El in Ph. cbn in Ph.
  unfold run_step, observe in *. rewrite El, Em in *.
  destruct (records !! index) as [record|] eqn:Hi.
  - destruct (Replicate _ _ _ _) as [[res err] m'] eqn:ER. injection Hs as <- <-.
    pose proof (Replicate_config _ _ _ _ _ _ _ ER) as Ec.
    assert (has_manager (set_replicator m' p)) as Hm by (exists m'; by rewrite Ec).
    destruct err as [e|]; [by eapply gate_silent|].
    eapply gate_quiet; [done| |done|].
    + intros r. by rewrite list_elem_of_singleton.
    + cbn. rewrite (take_S_r _ _ record) by done. apply Forall_app. split.
      * apply (Forall_impl _ _ _ Ph). intros. by apply replicated_app.
      * apply Forall_singleton. exists (mg_config m), (in_arrivals i). split; [|by eapply Replicate_met].
        apply elem_of_app. right. by apply list_elem_of_singleton.
  - injection Hs as <- <-. eapply gate_silent; [done|by exists m|]. cbn.
    apply lookup_ge_None in Hi. by rewrite take_ge in Ph by lia.
Qed.

Lemma run_step_gate tr i p l p' l' :
  run_step i p l = Some (p', l') -> gate_inv tr (p, l) -> gate_inv (tr ++ observe i p l) (p', l').
Proof.
  intros Hs G. destruct (lp_phase l) as [| | |grow|records index|batch blocked|batch results blocked|] eqn:El;
    [| | | |by eapply replicating_gate|..]; pose proof G as (Gt & Hm & Ph); cbn in Hm, Ph;
    unfold run_step, observe in *; rewrite El in *.
  - injection Hs as <- <-. by eapply gate_silent.
  - destruct (ep_stop p); [injection Hs as <- <-; by eapply gate_silent|].
    destruct Hm as (m & Em & Hn). rewrite Em in Hs. destruct (el_pending _ _) as [[[|r records]|e] st]; injection Hs as <- <-;
      (eapply gate_silent; [done|by exists m|]); [done|by apply Forall_nil|done].
  - destruct (select _ _) as [[go p1]|] eqn:E; [|done]. apply select_manager in E.
    injection Hs as <- <-. eapply gate_silent; [done|by eapply same_manager|by destruct go].
  - destruct (select _ _) as [[go p1]|] eqn:E; [|done]. apply select_manager in E.
    injection Hs as <- <-. eapply gate_silent; [done|by eapply same_manager|by destruct go].
  - assert (has_manager p' /\ exists rs, l' = goto (Committing batch rs blocked) l) as (Hm' & rs & ->).
    { destruct (Z.ltb_spec 0 (zlen batch)).
      - destruct (publishBatch batch p) as [results p1] eqn:Ep. pose proof (publishBatch_frame _ _ _ _ Ep) as (w & c & ->).
        injection Hs as <- <-. split; [by eapply same_manager|by exists results].
      - injection Hs as <- <-. assert (batch = []) as -> by (apply zlen_zero; pose proof (zlen_nonneg batch); lia).
        split; [done|by exists []]. }
    split; [|done]. apply gated_app; [done|]. intros r Hr. apply list_elem_of_fmap in Hr as (r' & [= ->] & Hr).
    by eapply Forall_forall.
  - destruct batch as [|record batch].
    + injection Hs as <- <-. eapply gate_silent; [done..|by destruct blocked].
    + injection Hs as Hs. rewrite <- Hs. by apply commit_next_gate.
  - done.
Qed.

Lemma edge_step_gate tr n os n' : edge_step n os n' -> gate_inv tr n -> gate_inv (tr ++ os) n'.
Proof.
  intros Hs G. destruct Hs as [ctx topic event now events p l receipt err p' Hadm HP|i p l p' l' Hr|p l st Hi|p l w K|p l|p l st config m Hst Hb Hnone];
    pose proof G as (Gt & Hm & Ph); cbn in Hm, Ph; try by eapply gate_silent.
  - eapply gate_quiet; [done| | |by apply phase_gated_app].
    + intros r. destruct (rcp_Persisted receipt); [by rewrite list_elem_of_singleton|apply not_elem_of_nil].
    + by eapply publish_manager.
  - by eapply run_step_gate.
  - eapply gate_silent; [done| |done]. destruct m as [m|]; [|destruct Hm as (m & Em & _); by rewrite (proj1 Hnone eq_refl) in Em].
    exists m. split; [done|by apply built_normal].
Qed.

(** ** Progress *)

(** The goroutine alone, under a schedule that answers each of its steps. *)
Definition runs (sched : Publisher St W * loop -> input) (n n' : Publisher St W * loop) : Prop :=
  run_step (sched n) n.1 n.2 = Some n'.

(** Nothing is in the way: the quorum of a manager with configuration [config] is met
    for the record it is asked about, and the downstream takes everything as long as
    its state is [fine], which it stays. *)
Record healthy (fine : W -> Prop) (sched : Publisher St W * loop -> input) (config : option ReplConfig)
  : Prop := {
  hy_quorum : forall p l records index record m,
    lp_phase l = Replicating records index -> records !! index = Some record ->
    ep_replicator p = Some m -> Some (mg_config m) = config ->
    (ReplicaPolicy.Replicate record (in_clock (sched (p, l)) 0) (in_arrivals (sched (p, l))) m).1.2 = None;
  hy_publish : forall topic event w, fine w ->
    wp (ds_Publish ds topic event) (fun r w' => is_ok r = true /\ fine w') w;
  hy_batch : forall publish_batch items w, ds_PublishBatch ds = Some publish_batch -> fine w ->
    (publish_batch items w).1 = replicate (length items) None /\ fine (publish_batch items w).2;
}.

Lemma publish_singles_healthy fine sched config items p :
  healthy fine sched config -> fine (ep_world p) ->
  (publish_singles items p).1 = replicate (length items) None /\ fine (ep_world (publish_singles items p).2).
Proof.
  intros H. revert p. induction items as [|item items IH]; intros p F; cbn; [done|].
  pose proof (hy_publish _ _ _ H (bi_Topic item) (bi_Event item) (ep_world p) F) as Hp. unfold wp in Hp.
  destruct (ds_Publish _ _ _ _) as [[[]|e] w]; [|by destruct Hp]. destruct Hp as [_ Fw].
  specialize (IH (set_world w (count add_single p)) Fw). destruct (publish_singles _ _) as [rs p'].
  cbn in *. destruct IH as [-> ?]. done.
Qed.

Lemma publishBatch_healthy fine sched config batch p :
  healthy fine sched config -> fine (ep_world p) ->
  (publishBatch batch p).1 = replicate (length batch) None /\ fine (ep_world (publishBatch batch p).2).
Proof.
  intros H F. rewrite <- (length_fmap item_of batch). unfold publishBatch. cbv zeta.
  pose proof (publish_singles_healthy fine sched config (item_of <$> batch) p H F) as HS.
  destruct (ds_PublishBatch ds) as [f|] eqn:E; [|done]. destruct (1 <? _); [|done].
  pose proof (hy_batch _ _ _ H f (item_of <$> batch) (ep_world p) E F) as HB. cbn.
  by destruct (f _ _).
Qed.

(** What a round keeps of the publisher. *)
Definition kept (p p' : Publisher St W) : Prop :=
  ep_batchSize p' = ep_batchSize p /\ ep_stop p' = ep_stop p /\
  mg_config <$> ep_replicator p' = mg_config <$> ep_replicator p.

Lemma kept_refl p : kept p p.
Proof. done. Qed.

Lemma kept_trans p1 p2 p3 : kept p1 p2 -> kept p2 p3 -> kept p1 p3.
Proof. unfold kept. intuition congruence. Qed.

(** The log works, holds [q] and meets no fault; the publisher is [p0] but for what
    rounds change. *)
Definition working (fine : W -> Prop) (p0 p : Publisher St W) (q : queue) : Prop :=
  el_rep (ep_store p) q /\ el_quiet (ep_store p) /\ fine (ep_world p) /\ kept p0 p.

Section drain.
Context (fine : W -> Prop) (sched : Publisher St W * loop -> input) (p0 : Publisher St W).
Context (Hsched : healthy fine sched (mg_config <$> ep_replicator p0)).
Context (Hbatch : 0 < ep_batchSize p0) (Hstop : ep_stop p0 = false).

Lemma drain_replicating q records k index p l :
  working fine p0 p q -> lp_phase l = Replicating records index -> (index + k = length records)%nat ->
  exists p' l', rtc (runs sched) (p, l) (p', l') /\ working fine p0 p' q /\ lp_phase l' = Delivering records false.
Proof.
  revert index p l. induction k as [|k IH]; intros index p l Wk El Hlen.
  - exists p, (goto (Delivering records false) l). split; [|done]. apply rtc_once. unfold runs, run_step. cbn.
    rewrite El. rewrite (proj2 (lookup_ge_None records index)) by lia. by destruct (ep_replicator p).
  - destruct Wk as (R & Q & F & K). destruct (ep_replicator p) as [m|] eqn:Em.
    + assert (Some (mg_config m) = mg_config <$> ep_replicator p0) as Ec by (destruct K as (_ & _ & <-); by rewrite Em).
      destruct (lookup_lt_is_Some_2 records index) as [record Hr]; [lia|].
      pose proof (hy_quorum _ _ _ Hsched p l records index record m El Hr Em Ec) as Hq.
      destruct (Replicate _ _ _ _) as [[res err] m'] eqn:ER. cbn in Hq. subst err.
      destruct (IH (S index) (set_replicator m' p) (goto (Replicating records (S index)) l)) as (p' & l' & Hrun & H);
        [|done|lia|].
      * split; [done|]. split; [done|]. split; [done|]. eapply kept_trans; [exact K|]. split; [done|]. split; [done|].
        cbn. by rewrite Em, (Replicate_config _ _ _ _ _ _ _ ER).
      * exists p', l'. split; [|done]. eapply rtc_l; [|exact Hrun]. unfold runs, run_step. cbn.
        by rewrite El, Em, Hr, ER.
    + exists p, (goto (Delivering records false) l). split; [|done]. apply rtc_once. unfold runs, run_step. cbn.
      by rewrite El, Em.
Qed.

Lemma drain_committing batch q p l :
  working fine p0 p q -> lp_phase l = Committing batch (replicate (length batch) None) false ->
  batch `prefix_of` q_records q ->
  exists p' l' q', rtc (runs sched) (p, l) (p', l') /\ working fine p0 p' q' /\ lp_phase l' = Polling /\
    q_records q = batch ++ q_records q' /\ q_committed q' = q_committed q + zlen batch.
Proof.
  revert q p l. induction batch as [|record batch IH]; intros q p l Wk El Hpre; cbn in El.
  - exists p, (goto Polling (set_backoff initialBackoff l)), q. split.
    + apply rtc_once. unfold runs, run_step. cbn. by rewrite El.
    + split; [done|]. split; [done|]. split; [done|]. rewrite zlen_nil. lia.
  - destruct Wk as (R & Q & F & K), Hpre as [rest Eq]. cbn in Eq.
    pose proof (el_numbered _ _ R) as Hn. rewrite Eq in Hn. destruct Hn as [Hseq _].
    assert (q_records q <> []) as Hne by (by rewrite Eq).
    pose proof (el_commit_law _ _ (r_EdgeSequence record) R) as HC.
    pose proof (el_quiet_commit _ _ R Q Hne) as HQ. rewrite <- Hseq in HQ. unfold wp in HC, HQ.
    destruct (el_commit _ _) as [[[]|e] st] eqn:EC; [|by destruct HQ]. cbn in HC, HQ.
    destruct HQ as [_ Q']. destruct HC as [[? _]|(_ & _ & R')]; [lia|].
    set (l1 := (commit_next (sched (p, l)) record batch (replicate (S (length batch)) None) false p l).2).
    destruct (IH (dequeue q) (set_store st p) l1) as (p' & l' & q' & Hrun & Wk & Ep & Er & Ec).
    + split; [done|]. by split.
    + unfold l1, commit_next. cbn. by rewrite EC.
    + exists rest. unfold dequeue. by rewrite Eq.
    + exists p', l', q'. split; [|split; [done|]; split; [done|]; split].
      * eapply rtc_l; [|exact Hrun]. unfold runs, run_step. cbn. rewrite El. unfold l1, commit_next. cbn. by rewrite EC.
      * cbn in Er. rewrite Eq in Er |- *. cbn in *. by rewrite Er.
      * rewrite Ec, zlen_cons. cbn. lia.
Qed.

Lemma drain_delivering batch q p l :
  working fine p0 p q -> lp_phase l = Delivering batch false -> batch `prefix_of` q_records q ->
  exists p' l' q', rtc (runs sched) (p, l) (p', l') /\ working fine p0 p' q' /\ lp_phase l' = Polling /\
    q_records q = batch ++ q_records q' /\ q_committed q' = q_committed q + zlen batch.
Proof.
  intros (R & Q & F & K) El Hpre.
  assert (exists p1, runs sched (p, l) (p1, goto (Committing batch (replicate (length batch) None) false) l) /\
    working fine p0 p1 q) as (p1 & H1 & W1).
  { unfold runs, run_step. cbn. rewrite El. destruct (Z.ltb_spec 0 (zlen batch)).
    - pose proof (publishBatch_healthy _ _ _ batch p Hsched F) as [Hr Fr].
      destruct (publishBatch batch p) as [results p1] eqn:E. cbn in Hr, Fr. subst results. exists p1. split; [done|].
      by apply publishBatch_frame in E as (w & c & ->).
    - assert (batch = []) as -> by (apply zlen_zero; pose proof (zlen_nonneg batch); lia). by exists p. }
  destruct (drain_committing batch q p1 (goto (Committing batch (replicate (length batch) None) false) l)
    W1 eq_refl Hpre) as (p' & l' & q' & Hrun & H).
  exists p', l', q'. split; [by eapply rtc_l|done].
Qed.

Lemma drain_round q p l :
  working fine p0 p q -> lp_phase l = Polling -> q_records q <> [] ->
  exists p' l' q' batch, rtc (runs sched) (p, l) (p', l') /\ working fine p0 p' q' /\ lp_phase l' = Polling /\
    batch <> [] /\ q_records q = batch ++ q_records q' /\ q_committed q' = q_committed q + zlen batch.
Proof.
  intros (R & Q & F & K) El Hne. pose proof K as (Kb & Ks & _).
  pose proof (el_pending_law _ _ (ep_batchSize p) R) as HP. pose proof (el_quiet_pending _ _ (ep_batchSize p) R Q) as HQ.
  unfold wp in HP, HQ. destruct (el_pending _ _) as [[records|e] st] eqn:EP; [|by destruct HQ]. cbn in HP, HQ.
  destruct HP as [R' Hr], HQ as [_ Q']. specialize (Hr _ eq_refl). subst records.
  set (records := cut (ep_batchSize p) (q_records q)) in *.
  assert (records <> []) as Hrs.
  { unfold records, cut. rewrite (proj2 (Z.ltb_lt 0 (ep_batchSize p))) by lia. destruct (q_records q); [done|].
    replace (Z.to_nat (ep_batchSize p)) with (S (Z.to_nat (ep_batchSize p - 1))) by lia. done. }
  set (l1 := goto (match ep_replicator p with None => Delivering records false | Some _ => Replicating records 0 end) l).
  assert (runs sched (p, l) (set_store st p, l1)) as H1.
  { unfold runs, run_step. cbn. rewrite El, Ks, Hstop, EP. by destruct records. }
  assert (exists p2 l2, rtc (runs sched) (set_store st p, l1) (p2, l2) /\ working fine p0 p2 q /\
    lp_phase l2 = Delivering records false) as (p2 & l2 & H2 & W2 & E2).
  { assert (working fine p0 (set_store st p) q) as W1 by done.
    unfold l1. destruct (ep_replicator p); [by eapply (drain_replicating q records (length records))|].
    by eexists _, _; split; [apply rtc_refl|]. }
  destruct (drain_delivering records q p2 l2 W2 E2) as (p' & l' & q' & H3 & H); [apply cut_prefix|].
  exists p', l', q', records. destruct H as (? & ? & ? & ?). split_and!; [|done..].
  eapply rtc_l; [exact H1|]. by etransitivity.
Qed.

Lemma drain_all k q p l :
  (length (q_records q) <= k)%nat -> working fine p0 p q -> lp_phase l = Polling ->
  exists p' l' q', rtc (runs sched) (p, l) (p', l') /\ working fine p0 p' q' /\ lp_phase l' = Polling /\
    q_records q' = [] /\ q_committed q' = q_committed q + zlen (q_records q).
Proof.
  revert q p l. induction k as [|k IH]; intros q p l Hk Wk El;
    (destruct (decide (q_records q = [])) as [E|Hne]; [exists p, l, q; rewrite E, zlen_nil; split_and!; [apply rtc_refl|done..|lia]|]).
  - by destruct (q_records q); cbn in Hk; [|lia].
  - destruct (drain_round q p l Wk El Hne) as (p1 & l1 & q1 & batch & H1 & W1 & E1 & Hb & Eq & Ec).
    destruct (IH q1 p1 l1) as (p' & l' & q' & H2 & W2 & E2 & En & Ec2); [|done..|].
    { rewrite Eq, length_app in Hk. destruct batch; [done|]. cbn in Hk. lia. }
    exists p', l', q'. split_and!; [by etransitivity|done..|]. rewrite Ec2, Ec, Eq, zlen_app. lia.
Qed.
End drain.

Lemma runs_edge_run sched n tr n1 n2 :
  edge_run n tr n1 -> rtc (runs sched) n1 n2 -> exists tr', edge_run n (tr ++ tr') n2.
Proof.
  intros Hr H. revert tr Hr. induction H as [n1|n1 n2 n3 H12 _ IH]; intros tr Hr; [exists []; by rewrite app_nil_r|].
  destruct n1 as [p l], n2 as [p2 l2].
  destruct (IH _ (run_snoc _ _ _ _ _ Hr (step_run _ _ _ _ _ H12))) as [tr' Hr']. eexists. by rewrite app_assoc.
Qed.

Lemma rep_unique st q q' : el_rep st q -> el_rep st q' -> el_quiet st -> q = q'.
Proof.
  intros R R' Q. pose proof (el_pending_law _ _ 0 R) as H. pose proof (el_pending_law _ _ 0 R') as H'.
  pose proof (el_quiet_pending _ _ 0 R Q) as HQ. unfold wp in *.
  destruct (el_pending _ _) as [[rs|e] st']; cbn in *; [|by destruct HQ].
  destruct H as [_ H], H' as [_ H']. specialize (H _ eq_refl). specialize (H' _ eq_refl). cbn in H, H'.
  pose proof (el_committed_rep _ _ R). pose proof (el_committed_rep _ _ R'). destruct q, q'. cbn in *. congruence.
Qed.

Lemma runs_inv (D : delivers) acc sched n n' : rtc (runs sched) n n' -> edge_inv acc n -> edge_inv acc n'.
Proof. induction 1 as [|[p l] [p2 l2] n3 H _ IH]; [done|]. intros I. by eapply IH, run_step_inv. Qed.

(** ** Running a list of inputs *)

Fixpoint exec (inputs : list input) (n : Publisher St W * loop) : option (list obs * (Publisher St W * loop)) :=
  match inputs with
  | [] => Some ([], n)
  | i :: inputs' =>
      n' ← run_step i n.1 n.2;
      '(tr, n2) ← exec inputs' n';
      Some (observe i n.1 n.2 ++ tr, n2)
  end.

Lemma exec_run inputs n0 tr0 n tr n' :
  edge_run n0 tr0 n -> exec inputs n = Some (tr, n') -> edge_run n0 (tr0 ++ tr) n'.
Proof.
  revert tr0 n tr. induction inputs as [|i inputs IH]; intros tr0 [p l] tr Hr; cbn.
  { intros [= <- <-]. by rewrite app_nil_r. }
  destruct (run_step i p l) as [[p1 l1]|] eqn:E1; [|done]. cbn.
  destruct (exec inputs (p1, l1)) as [[tr2 n2]|] eqn:E2; [|done]. cbn. intros [= <- <-].
  rewrite app_assoc. eapply IH; [|exact E2]. eapply run_snoc; [exact Hr|by apply step_run].
Qed.
End edge.
