(* ===== verification/EdgeNode.v ===== *)
(** * A whole edge node

    The composition of [cmd/edge]: the durable publisher over the write-ahead log, with
    the mesh publisher behind it, Kafka behind the mesh, and a replication manager
    beside it.  The mesh publisher keeps the downstream contract whenever what it
    publishes through does ([mesh_delivers]), so the guarantees of [Edge] hold for
    events that leave through any node of the mesh. *)

From S2P Require Import Prelude GoStrings Hash Domain Disk Wire Lineage WalModel.
From S2P Require Import WalFrame WalStore WalInv WalOps WalRecovery WalCrash WalTheorems.
From S2P Require Import EdgeLog Topology ReplicaPolicy Mesh Edge.

Local Open Scope string_scope.
Local Open Scope Z_scope.
Local Open Scope list_scope.

(** ** The in-memory publisher *)

Record PublishedEvent := mkPublished { pe_Topic : string; pe_Event : Event }.
Record MemoryPublisher := mkMemory { mp_events : list PublishedEvent; mp_err : option error }.

Definition NewMemoryPublisher : MemoryPublisher := mkMemory [] None.

Definition Memory_Publish (topic : string) (event : Event) : M MemoryPublisher unit := fun mp =>
  match mp_err mp with
  | Some e => (Err e, mp)
  | None => (Ok tt, mkMemory (mp_events mp ++ [mkPublished topic event]) None)
  end.

Definition Memory_PublishBatch (items : list BatchItem) (mp : MemoryPublisher)
  : list (option error) * MemoryPublisher :=
  match mp_err mp with
  | Some e => (replicate (length items) (Some e), mp)
  | None =>
      (replicate (length items) None,
       mkMemory (mp_events mp ++ ((fun item => mkPublished (bi_Topic item) (bi_Event item)) <$> items)) None)
  end.

Definition Memory_SetError (e : option error) (mp : MemoryPublisher) : MemoryPublisher :=
  mkMemory (mp_events mp) e.

Definition memory : Downstream MemoryPublisher := mkDownstream Memory_Publish (Some Memory_PublishBatch).
Definition memory_delivered (mp : MemoryPublisher) (topic : string) (event : Event) : Prop :=
  mkPublished topic event ∈ mp_events mp.

(** ** The Kafka publisher

    One produce per item that encodes; its outcome is the next one of the cluster's
    schedule. *)
Section kafka.
Context (encode : Event -> result bytes) (node : string).

Fixpoint Kafka_PublishBatch (items : list BatchItem) (c : cluster) : list (option error) * cluster :=
  match items with
  | [] => ([], c)
  | item :: items' =>
      match encode (bi_Event item) with
      | Err e =>
          let '(results, c) := Kafka_PublishBatch items' c in (Some (ErrWrap "encode event" e) :: results, c)
      | Ok _ =>
          let '(r, c) := kafka_publish node (bi_Topic item) (bi_Event item) c in
          let '(results, c) := Kafka_PublishBatch items' c in
          ((if r is Err e then Some (ErrWrap "publish to topic" e) else None) :: results, c)
      end
  end.

Definition Kafka_Publish (topic : string) (event : Event) : M cluster unit := fun c =>
  let '(results, c) := Kafka_PublishBatch [mkBatchItem topic event] c in
  match results with
  | [] => (Err (ErrMsg "Kafka batch publisher returned no result"), c)
  | Some e :: _ => (Err e, c)
  | None :: _ => (Ok tt, c)
  end.

Definition kafka : Downstream cluster := mkDownstream Kafka_Publish (Some Kafka_PublishBatch).
End kafka.

(** What Kafka holds, on whichever node. *)
Definition on_kafka (c : cluster) (topic : string) (event : Event) : Prop :=
  exists node, mkDelivery node topic event ∈ cl_log c.

(** ** The mesh publisher as a downstream

    Its state is the mesh manager and the world behind it; [mos] are the moments of its
    calls: of a publish, and of the items of a batch in the two passes. *)
Record mesh_world (W : Type) := mkMeshWorld { mw_manager : Mesh.Manager; mw_calls : nat; mw_inner : W }.
Arguments mkMeshWorld {W} _ _ _.
Arguments mw_manager {W} _.
Arguments mw_calls {W} _.
Arguments mw_inner {W} _.

Section mesh.
Context {W : Type} (pub : Mesh.Publisher W) (mos : nat -> bool -> nat -> moment).

Definition mesh_Publish (topic : string) (event : Event) : M (mesh_world W) unit := fun mw =>
  let '(r, (m, w)) := Mesh.Publish pub (mos (mw_calls mw) true 0) topic event (mw_manager mw) (mw_inner mw) in
  (r, mkMeshWorld m (S (mw_calls mw)) w).

Definition mesh_PublishBatch (items : list BatchItem) (mw : mesh_world W)
  : list (option error) * mesh_world W :=
  let '(results, (m, w)) := Mesh.PublishBatch pub (mos (mw_calls mw) false) (mos (mw_calls mw) true) items
                              (mw_manager mw) (mw_inner mw) in
  (results, mkMeshWorld m (S (mw_calls mw)) w).

Definition mesh_downstream : Downstream (mesh_world W) :=
  mkDownstream mesh_Publish (Some mesh_PublishBatch).

Context (delivered : W -> string -> Event -> Prop).
Definition mesh_delivered (mw : mesh_world W) : string -> Event -> Prop := delivered (mw_inner mw).

(** A forward that the peer confirms has been taken. *)
Definition forwards : Prop := forall node key topic event w,
  wp (forwardToPeer pub node (mkForward (n_ID node) key topic event)) (fun r w' =>
    keeps delivered w w' /\ (is_ok r = true -> delivered w' topic event)) w.

Context (DL : delivers (pb_local pub) delivered) (FW : forwards).

Lemma publish_loop_delivers mo key topic event cands failures m w :
  let '(r, (_, w')) := publish_loop pub mo key topic event cands failures m w in
  keeps delivered w w' /\ (is_ok r = true -> delivered w' topic event).
Proof.
  revert failures m w. induction cands as [|c cands IH]; intros failures m w; cbn; [split; [apply keeps_refl|done]|].
  destruct (bool_decide _).
  - pose proof (dl_publish _ _ DL topic event w) as H. unfold wp in H.
    destruct (ds_Publish _ _ _ _) as [[[]|e] w1]; cbn in H; [done|]. destruct H as [K _].
    specialize (IH (failures ++ [e]) m w1). destruct (publish_loop _ _ _ _ _ _ _ _ _) as [r [m' w']].
    destruct IH. split; [by eapply keeps_trans|done].
  - pose proof (FW (c_Node c) key topic event w) as H. unfold wp in H.
    destruct (forwardToPeer _ _ _ _) as [[[]|e] w1]; cbn in H; [done|]. destruct H as [K _].
    match goal with |- context [publish_loop _ _ _ _ _ _ ?f ?m' w1] => specialize (IH f m' w1) end.
    destruct (publish_loop _ _ _ _ _ _ _ _ _) as [r [m' w']]. destruct IH. split; [by eapply keeps_trans|done].
Qed.

Lemma mesh_publish_delivers mo topic event m w :
  let '(r, (_, w')) := Mesh.Publish pub mo topic event m w in
  keeps delivered w w' /\ (is_ok r = true -> delivered w' topic event).
Proof. unfold Mesh.Publish. destruct (Manager_Route _ _ _); [apply publish_loop_delivers|split; [apply keeps_refl|done]]. Qed.

Lemma publish_each_delivers before index items results m w :
  let '(rs, (_, w')) := publish_each pub before index items results m w in
  keeps delivered w w' /\ forall i item, items !! i = Some item -> rs !! i = Some None ->
    delivered w' (bi_Topic item) (bi_Event item).
Proof.
  revert index results m w. induction items as [|item items IH]; intros index results m w;
    destruct results as [|[e|] results]; cbn; try (split; [apply keeps_refl|done]).
  - specialize (IH (S index) results m w). destruct (publish_each _ _ _ _ _ _ _) as [rs [m' w']].
    destruct IH as [K H]. split; [done|]. intros [|i] it; [done|]. apply H.
  - pose proof (mesh_publish_delivers (before index) (bi_Topic item) (bi_Event item) m w) as HP.
    destruct (Mesh.Publish _ _ _ _ _ _) as [r [m1 w1]]. specialize (IH (S index) results m1 w1).
    destruct (publish_each _ _ _ _ _ _ _) as [rs [m' w']]. destruct IH as [K H], HP as [K1 H1].
    split; [by eapply keeps_trans|]. intros [|i] it; [|apply H]. cbn. intros [= <-] Hr.
    apply K, H1. by destruct r.
Qed.

(** The mesh publisher keeps the downstream contract. *)
Lemma mesh_delivers : delivers mesh_downstream mesh_delivered.
Proof.
  split.
  - intros topic event [m n w]. unfold wp. cbn. unfold mesh_Publish. cbn.
    pose proof (mesh_publish_delivers (mos n true 0) topic event m w) as H.
    by destruct (Mesh.Publish _ _ _ _ _ _) as [r [m' w']].
  - intros f items [m n w] [= <-]. unfold mesh_PublishBatch, Mesh.PublishBatch. cbn.
    destruct items as [|item items]; [split; [by intros ? ?|done]|]. cbn [length Nat.eqb].
    destruct (ds_PublishBatch (pb_local pub)) as [g|] eqn:E.
    + destruct (route_all _ _ _ _) as [errs []].
      * pose proof (dl_batch _ _ DL g (item :: items) w E) as H. by destruct (g _ _).
      * pose proof (publish_each_delivers (mos n true) 0 (item :: items) errs m w) as H.
        by destruct (publish_each _ _ _ _ _ _ _) as [rs [m' w']].
    + pose proof (publish_each_delivers (mos n true) 0 (item :: items)
        (replicate (length (item :: items)) None) m w) as H.
      by destruct (publish_each _ _ _ _ _ _ _) as [rs [m' w']].
Qed.
End mesh.

(** ** The contracts hold *)

Lemma memory_delivers : delivers memory memory_delivered.
Proof.
  split.
  - intros topic event [events err]; unfold wp, Memory_Publish; cbn; destruct err as [e|]; cbn; (split; [|]).
    + by intros ? ?.
    + done.
    + intros ? ? H. apply elem_of_app. by left.
    + intros _. apply elem_of_app. right. by left.
  - intros f items [events err] [= <-]. unfold Memory_PublishBatch. destruct err as [e|]; cbn.
    + split; [by intros ? ?|]. intros i item _ Hr. apply lookup_replicate in Hr as [? _]. done.
    + split; [intros ? ? H; apply elem_of_app; by left|]. intros i item Hi _. apply elem_of_app. right.
      apply list_elem_of_fmap. exists item. split; [done|]. by eapply list_elem_of_lookup_2.
Qed.

Lemma attempted_kept {A} node topic event c (r : result A) c' :
  attempted node topic event c r c' ->
  keeps on_kafka c c' /\ (is_ok r = true -> on_kafka c' topic event).
Proof.
  unfold keeps, on_kafka. intros [[-> Hr]| ->].
  - split; [done|]. by rewrite Hr.
  - split; [|intros _; exists node; apply elem_of_app; right; by left].
    intros t e (n & H). exists n. apply elem_of_app. by left.
Qed.

Lemma kafka_batch_delivers encode node items c :
  let '(results, c') := Kafka_PublishBatch encode node items c in
  keeps on_kafka c c' /\ forall i item, items !! i = Some item -> results !! i = Some None ->
    on_kafka c' (bi_Topic item) (bi_Event item).
Proof.
  revert c. induction items as [|item items IH]; intros c; cbn; [split; [apply keeps_refl|done]|].
  destruct (encode _) as [?|e].
  - pose proof (kafka_cases node (bi_Topic item) (bi_Event item) c) as H. unfold wp in H.
    destruct (kafka_publish _ _ _ _) as [r c1]. destruct H as [HA _]. apply attempted_kept in HA as [K H]. cbn in K, H.
    specialize (IH c1). destruct (Kafka_PublishBatch _ _ _ _) as [rs c']. destruct IH as [K' H'].
    split; [by eapply keeps_trans|]. intros [|i] it; [|apply H']. cbn. intros [= <-] Hr.
    apply K', H. by destruct r.
  - specialize (IH c). destruct (Kafka_PublishBatch _ _ _ _) as [rs c']. destruct IH as [K' H'].
    split; [done|]. intros [|i] it; [done|apply H'].
Qed.

Lemma kafka_delivers encode node : delivers (kafka encode node) on_kafka.
Proof.
  split.
  - intros topic event c. unfold wp. cbn [ds_Publish kafka]. unfold Kafka_Publish.
    pose proof (kafka_batch_delivers encode node [mkBatchItem topic event] c) as H.
    destruct (Kafka_PublishBatch _ _ _ _) as [[|[e|] rs] c']; cbn; destruct H as [K H]; split; try done.
    intros _. by apply (H 0%nat (mkBatchItem topic event)).
  - intros f items c [= <-]. apply kafka_batch_delivers.
Qed.

Section node.
Context (handlers : gmap string Handler) (carry : ForwardRequest -> option ForwardRequest).
Context (encode : Event -> result bytes).

(** Kafka under the mesh, and the other nodes reached through their handlers. *)
Definition node_publisher (config : Mesh.Config) : Mesh.Publisher cluster :=
  mkPublisher (kafka encode (n_ID (cf_Local config))) (send handlers carry (cf_Token config)).

Lemma node_delivers config mos :
  handlers_ok handlers -> (forall topic event, carry_ok carry topic event) ->
  delivers (mesh_downstream (node_publisher config) mos) (mesh_delivered on_kafka).
Proof.
  intros Hh Hc. apply mesh_delivers; [apply kafka_delivers|]. intros node key topic event c.
  eapply wp_mono; [exact (forward_cases handlers carry config node key topic event c Hh (Hc _ _))|].
  intros r c' [H _]. by eapply attempted_kept.
Qed.
End node.

(** ** What an edge node guarantees *)

Section claims.
Context {ED : Ed25519} {SC : SealCodec} {WC : WalCodec} {CC : CheckpointCodec}.

End claims.

Section interface.
Context {St W : Type} {EL : EdgeLog St} (ds : Downstream W) (delivered : W -> string -> Event -> Prop).

(** C9: Nothing is delivered before it is replicated: with a replication manager, in
    every interleaving and across restarts, each record handed to the downstream was
    found replicated earlier, and outside the local mode the acknowledgements heard for
    it satisfy the durability policy. *)
Theorem replicated_before_delivery st w config m tr n before record after :
  built (Some m) ->
  edge_run ds delivered (NewPublisherWithConfig st w config (Some m)) tr n ->
  tr = before ++ Handed record :: after ->
  exists replConfig events, Quorum record replConfig events ∈ before /\
    (rc_Mode replConfig <> ModeLocal ->
     durable replConfig (local_ack replConfig record :: heard record (rc_Peers replConfig) events)).
Proof.
  intros Hb Hr. enough (gate_inv tr n) as (G & _) by apply G.
  remember (NewPublisherWithConfig st w config (Some m)) as n0 eqn:E0.
  induction Hr as [n0|n0 tr n1 os n2 _ IH Hs]; [|by eapply edge_step_gate; [|apply IH]].
  subst n0. split; [by intros [|] ? ?|]. split; [|done]. exists m. split; [done|by apply built_normal].
Qed.

(** C10: The queue drains: when nothing fails any more, the replay goroutine, run alone
    from the head of its loop, comes to a state where every queued record has been
    delivered and committed, however long the queue and whatever the batch size. *)
Theorem queue_drains fine sched p l q :
  delivers ds delivered -> healthy ds fine sched (mg_config <$> ep_replicator p) ->
  fine (ep_world p) -> 0 < ep_batchSize p -> ep_stop p = false ->
  el_rep (ep_store p) q -> el_quiet (ep_store p) -> lp_phase l = Polling ->
  exists p' l', rtc (runs ds sched) (p, l) (p', l') /\
    el_rep (ep_store p') (mkQueue (q_committed q + zlen (q_records q)) []) /\
    Forall (fun r => delivered (ep_world p') (r_Topic r) (r_Event r)) (q_records q).
Proof.
  intros D Hs F Hb Hp R Q El.
  destruct (drain_all ds fine sched p Hs Hb Hp (length (q_records q)) q p l) as (p' & l' & q' & Hrun & (R' & Q' & _) & _ & En & Ec);
    [done|by split_and!|done|].
  exists p', l'. split; [done|]. split; [by destruct q'; cbn in *; subst|].
  assert (edge_inv delivered (records_of q) (p, l)) as I.
  { left. exists q. split; [done|]. split; [apply covered_self|cbn; by rewrite El]. }
  apply (runs_inv ds delivered D _ _ _ _ Hrun) in I as [(q2 & R2 & C & _)|(P & Dn & _)].
  - assert (q2 = q') as -> by (by eapply rep_unique). apply Forall_fmap in C. apply (Forall_impl _ _ _ C).
    intros r [Hd|(r' & Hr' & _)]; [done|]. rewrite En in Hr'. by apply elem_of_nil in Hr'.
  - destruct (el_down_law _ _ "" (mkEvent "" "" "" "" 0 ∅ [] None "" "" "" "") 0 0 Dn) as (_ & H & _).
    pose proof (el_quiet_pending _ _ 0 R' Q') as H'. unfold wp in *. destruct H as [H _], H' as [H' _].
    cbn [fst] in H. by rewrite H in H'.
Qed.
End interface.

(** ** Witnesses

    A node on the reference directory: with the demonstration mesh behind it, and with
    the in-memory publisher and a three-node replication group. *)

#[local] Existing Instance toy_ed25519.
#[local] Existing Instance wire_seal_codec.
#[local] Existing Instance wire_wal_codec.
#[local] Existing Instance wire_checkpoint_codec.

Definition ref_log : EdgeLog (Store * disk) := wal_log ref_config ref_key.
#[local] Existing Instance ref_log.

Definition demo_world : mesh_world cluster := mkMeshWorld demo_manager 0 demo_cluster.
Definition demo_downstream : Downstream (mesh_world cluster) :=
  mesh_downstream (node_publisher demo_handlers Some (fun _ => Ok []) demo_config) (fun _ _ _ => demo_moment).

Lemma opened_rep : wal_rep ref_config ref_key opened (mkQueue 0 []).
Proof. split; [exact opened_represents|exact ref_limits]. Qed.

Lemma appended_rep : wal_rep ref_config ref_key appended_one.2 one.
Proof. split; [exact appended_one_represents|exact ref_limits]. Qed.

Lemma opened_admits : wal_admits opened "telemetry" ref_event.
Proof. split; [exact ref_acceptable|]. split; reflexivity. Qed.


(** The answers of both peers of the replication group. *)
Definition group_answers (record : WalRecord) : list (Node * Ack) :=
  [good_answer record (zone_node "n3" "z1"); good_answer record (zone_node "n2" "z2")].
Definition good_input (record : WalRecord) : input :=
  mkInput (fun _ => 9) (answer <$> group_answers record) [] ByTimer.

Definition group_start : Edge.Publisher (Store * disk) MemoryPublisher * loop :=
  NewPublisherWithConfig appended_one.2 NewMemoryPublisher (Edge.mkConfig 0) (Some trio_manager).

Lemma group_built : built (Some trio_manager).
Proof. exists trio, 5. vm_compute. reflexivity. Qed.

(** The start, the poll, the two replication steps and the delivery of one record. *)
Definition group_inputs : list input := replicate 5 (good_input appended_one.1).
Definition group_quorum : obs :=
  Quorum appended_one.1 (mg_config trio_manager) (answer <$> group_answers appended_one.1).

Lemma group_trace : fst <$> exec memory group_inputs group_start = Some [group_quorum; Handed appended_one.1].
Proof. vm_compute. reflexivity. Qed.

Lemma group_run :
  exists n, edge_run memory memory_delivered group_start ([] ++ [group_quorum; Handed appended_one.1]) n.
Proof.
  pose proof group_trace as Ht. destruct (exec memory group_inputs group_start) as [[tr n]|] eqn:E; [|discriminate Ht].
  exists n. apply (inj Some) in Ht. rewrite <- Ht. exact (exec_run memory memory_delivered _ _ [] _ _ _ (run_nil _ _ _) E).
Qed.

Lemma replicated_before_delivery_witness :
  exists replConfig events, Quorum appended_one.1 replConfig events ∈ [group_quorum] /\
    (rc_Mode replConfig <> ModeLocal ->
     durable replConfig (local_ack replConfig appended_one.1
                           :: heard appended_one.1 (rc_Peers replConfig) events)).
Proof.
  destruct group_run as [n Hr].
  exact (replicated_before_delivery memory memory_delivered appended_one.2 NewMemoryPublisher (Edge.mkConfig 0)
    trio_manager _ n [group_quorum] appended_one.1 [] group_built Hr eq_refl).
Defined.

(** The schedule that answers for the record the goroutine asks about. *)
Definition good_schedule (n : Edge.Publisher (Store * disk) MemoryPublisher * loop) : input :=
  good_input (match lp_phase n.2 with
              | Replicating records index => default sample_record (records !! index)
              | _ => sample_record
              end).

Definition memory_fine (mp : MemoryPublisher) : Prop := mp_err mp = None.

Lemma Replicate_by_config record now events m m' :
  mg_config m = mg_config m' -> (Replicate record now events m).1 = (Replicate record now events m').1.
Proof.
  unfold Replicate. intros ->. destruct (bool_decide _); [done|]. cbv zeta.
  by destruct (replicate_loop _ _ _ _ _ _).
Qed.

Lemma good_schedule_healthy :
  healthy (St := Store * disk) memory memory_fine good_schedule (Some (mg_config trio_manager)).
Proof.
  split.
  - intros p l records index record m El Hr _ Em. apply (inj Some) in Em.
    unfold good_schedule. cbn [snd]. rewrite El, Hr. cbn [default in_clock in_arrivals good_input].
    rewrite (Replicate_by_config _ _ _ _ trio_manager Em). destruct group_built as (config & now & HB).
    eapply feasible_replicates; [exact HB|apply perm_swap|by repeat constructor].
  - intros topic event [events err] E. unfold memory_fine in E. cbn in E. by subst err.
  - intros f items [events err] [= <-] E. unfold memory_fine in E. cbn in E. by subst err.
Qed.

Lemma queue_drains_witness :
  exists p' l', rtc (runs memory good_schedule) (group_start.1, goto Polling group_start.2) (p', l') /\
    el_rep (ep_store p') (mkQueue 1 []) /\
    Forall (fun r => memory_delivered (ep_world p') (r_Topic r) (r_Event r)) (q_records one).
Proof.
  apply (queue_drains memory memory_delivered memory_fine good_schedule group_start.1 (goto Polling group_start.2) one
    memory_delivers good_schedule_healthy).
  - reflexivity.
  - reflexivity.
  - reflexivity.
  - exact appended_rep.
  - split; [reflexivity|exact wire_encodes].
  - reflexivity.
Defined.
