(* ===== verification/Proc.v ===== *)
(** * Programs that call their environment

    Code whose calls to shared objects and to the outside (a coordinator, a broker,
    a database, a clock) may interleave with other goroutines is a [proc]: a tree that
    either returns or makes one call and goes on with the answer.  A call is the unit
    of interleaving.  [runs p t a] says that [p] returns [a] after the calls and answers
    [t]; [guarantees G p Q past] that, whatever the answers, every call of [p] is allowed
    by [G] given the calls made so far, and that the result and the final trace are in
    [Q]. *)

From S2P Require Import Prelude.

Section proc.
Context {C : Type} (ans : C -> Type).

Inductive proc (A : Type) : Type :=
  | Return (a : A)
  | Call (c : C) (k : ans c -> proc A).

(** One call and its answer. *)
Definition obs : Type := {c : C & ans c}.

Definition observe (c : C) (x : ans c) : obs := existT c x.

Fixpoint proc_bind {A B} (f : A -> proc B) (p : proc A) : proc B :=
  match p with
  | Return _ a => f a
  | Call _ c k => Call B c (fun x => proc_bind f (k x))
  end.

Definition call (c : C) : proc (ans c) := Call _ c (fun x => Return _ x).

Fixpoint runs {A} (p : proc A) (t : list obs) (a : A) : Prop :=
  match p with
  | Return _ a' => t = [] /\ a = a'
  | Call _ c k => exists x t', t = observe c x :: t' /\ runs (k x) t' a
  end.

Fixpoint guarantees {A} (G : list obs -> C -> Prop) (p : proc A) (Q : A -> list obs -> Prop)
    (past : list obs) : Prop :=
  match p with
  | Return _ a => Q a past
  | Call _ c k => G past c /\ forall x, guarantees G (k x) Q (past ++ [observe c x])
  end.

(** Every call the program can make is in [P]. *)
Fixpoint calls_only {A} (P : C -> Prop) (p : proc A) : Prop :=
  match p with
  | Return _ _ => True
  | Call _ c k => P c /\ forall x, calls_only P (k x)
  end.

End proc.

Arguments Return {C ans A} a.
Arguments Call {C ans A} c k.
Arguments observe {C ans} c x.
Arguments call {C ans} c.
Arguments runs {C ans A} p t a.
Arguments guarantees {C ans A} G p Q past.
Arguments calls_only {C ans A} P p.

#[export] Instance proc_mret {C} {ans : C -> Type} : MRet (proc ans) := fun A a => Return a.
#[export] Instance proc_mbind {C} {ans : C -> Type} : MBind (proc ans) := fun A B f p => proc_bind ans f p.

(** [(A, error)] results: [err != nil] returns at once. *)
Definition try_bind {C} {ans : C -> Type} {A B} (p : proc ans (result A)) (f : A -> proc ans (result B))
  : proc ans (result B) :=
  r ← p; match r with Ok a => f a | Err e => mret (Err e) end.

(** Programs over one set of calls used where a larger set is available. *)
Section embed.
Context {C D : Type} {ansC : C -> Type} {ansD : D -> Type}.
Variables (to : C -> D) (back : forall c, ansD (to c) -> ansC c).

Fixpoint embed {A} (p : proc ansC A) : proc ansD A :=
  match p with
  | Return a => Return a
  | Call c k => Call (to c) (fun x => embed (k (back c x)))
  end.

(** The calls of the inner program, as the larger set sees them. *)
Inductive embeds : list (obs ansC) -> list (obs ansD) -> Prop :=
  | embeds_nil : embeds [] []
  | embeds_cons c x t t' : embeds t t' -> embeds (observe c (back c x) :: t) (observe (to c) x :: t').

End embed.

(** The run in which every call gets the oracle's answer. *)
Fixpoint trace_of {C} {ans : C -> Type} {A} (oracle : forall c, ans c) (p : proc ans A) : list (obs ans) * A :=
  match p with
  | Return a => ([], a)
  | Call c k => let r := trace_of oracle (k (oracle c)) in (observe c (oracle c) :: r.1, r.2)
  end.

(** ** Reasoning *)

Section reasoning.
Context {C : Type} {ans : C -> Type}.
Implicit Types (G : list (obs ans) -> C -> Prop) (t past : list (obs ans)).

Lemma runs_trace_of {A} (oracle : forall c, ans c) (p : proc ans A) :
  runs p (trace_of oracle p).1 (trace_of oracle p).2.
Proof. induction p as [a|c k IH]; cbn; [done|]. eauto. Qed.

Lemma runs_bind {A B} (p : proc ans A) (f : A -> proc ans B) t b :
  runs (p ≫= f) t b <-> exists a t1 t2, t = t1 ++ t2 /\ runs p t1 a /\ runs (f a) t2 b.
Proof.
  unfold mbind, proc_mbind. revert t. induction p as [a|c k IH]; intros t; cbn; split.
  - intros H. by exists a, [], t.
  - by intros (a' & t1 & t2 & -> & [-> ->] & H).
  - intros (x & t' & -> & (a & t1 & t2 & -> & H1 & H2)%IH). exists a, (observe c x :: t1), t2. eauto 10.
  - intros (a & ? & t2 & -> & (x & t1 & -> & H1) & H2). exists x, (t1 ++ t2). split; [done|].
    apply IH. eauto 10.
Qed.

(** [(A, error)] results: a successful run is a successful run of both parts. *)
Lemma runs_try {A B} (p : proc ans (result A)) (f : A -> proc ans (result B)) t b :
  runs (try_bind p f) t (Ok b) <->
  exists a t1 t2, t = t1 ++ t2 /\ runs p t1 (Ok a) /\ runs (f a) t2 (Ok b).
Proof.
  unfold try_bind. rewrite runs_bind. split.
  - intros ([a|e] & t1 & t2 & -> & H1 & H2); [eauto 10|]. by destruct H2.
  - intros (a & t1 & t2 & -> & H1 & H2). exists (Ok a), t1, t2. done.
Qed.

Lemma runs_try_err {A B} (p : proc ans (result A)) (f : A -> proc ans (result B)) t e :
  runs (try_bind p f) t (Err e) <->
  runs p t (Err e) \/ exists a t1 t2, t = t1 ++ t2 /\ runs p t1 (Ok a) /\ runs (f a) t2 (Err e).
Proof.
  unfold try_bind. rewrite runs_bind. split.
  - intros ([a|e'] & t1 & t2 & -> & H1 & H2); [right; eauto 10|]. destruct H2 as [-> [= ->]].
    left. by rewrite app_nil_r.
  - intros [H|(a & t1 & t2 & -> & H1 & H2)]; [|exists (Ok a), t1, t2; done].
    exists (Err e), t, []. by rewrite app_nil_r.
Qed.

Lemma guarantees_mono {A} G (p : proc ans A) (Q Q' : A -> list (obs ans) -> Prop) past :
  guarantees G p Q past -> (forall a t, Q a (past ++ t) -> runs p t a -> Q' a (past ++ t)) ->
  guarantees G p Q' past.
Proof.
  revert past. induction p as [a|c k IH]; intros past; cbn.
  - intros H HQ. specialize (HQ a []). rewrite app_nil_r in HQ. auto.
  - intros [HG H] HQ. split; [done|]. intros x. eapply IH; [done|].
    intros a t. rewrite <- app_assoc. intros Ha Hr. apply HQ; [done|]. by exists x, t.
Qed.

Lemma guarantees_bind {A B} G (p : proc ans A) (f : A -> proc ans B) Q past :
  guarantees G p (fun a t => guarantees G (f a) Q t) past -> guarantees G (p ≫= f) Q past.
Proof.
  unfold mbind, proc_mbind. revert past. induction p as [a|c k IH]; intros past; cbn; [done|].
  intros [HG H]. split; [done|]. intros x. apply IH. auto.
Qed.

(** A program that makes only allowed calls. *)
Lemma guarantees_made {A} (P : C -> Prop) G (p : proc ans A) past :
  calls_only P p -> (forall t c, Forall (fun o => P (projT1 o)) t -> P c -> G (past ++ t) c) ->
  guarantees G p (fun a t => exists t', t = past ++ t' /\ runs p t' a /\ Forall (fun o => P (projT1 o)) t') past.
Proof.
  revert past. induction p as [a|c k IH]; intros past; cbn.
  - intros _ _. exists []. by rewrite app_nil_r.
  - intros [Hc Hk] HG. split; [rewrite <- (app_nil_r past); by apply HG|]. intros x.
    eapply guarantees_mono; [apply IH; [apply Hk|]|].
    + intros t c' Ht Hc'. rewrite <- app_assoc. apply HG; [by constructor|done].
    + intros a t (t' & E & Hr & Ht) _. apply app_inv_head in E as ->.
      exists (observe c x :: t'). split; [by rewrite <- app_assoc|]. split; [eauto|by constructor].
Qed.

Lemma guarantees_calls {A} (P : C -> Prop) G (p : proc ans A) past :
  calls_only P p -> (forall t c, P c -> G t c) ->
  guarantees G p (fun a t => exists t', t = past ++ t' /\ runs p t' a) past.
Proof.
  intros Hp HG. eapply guarantees_mono; [by eapply guarantees_made; [exact Hp|auto]|].
  intros a t (t' & E & Hr & _) _. eauto.
Qed.

Lemma calls_only_bind {A B} (P : C -> Prop) (p : proc ans A) (f : A -> proc ans B) :
  calls_only P p -> (forall a, calls_only P (f a)) -> calls_only P (p ≫= f).
Proof.
  unfold mbind, proc_mbind. intros Hp Hf. induction p as [a|c k IH]; cbn in *; [done|].
  destruct Hp as [Hc Hk]. split; [done|]. intros x. apply IH, Hk.
Qed.

Lemma calls_only_impl {A} (P P' : C -> Prop) (p : proc ans A) :
  calls_only P p -> (forall c, P c -> P' c) -> calls_only P' p.
Proof. intros Hp HP. induction p as [a|c k IH]; cbn in *; [done|]. destruct Hp as [Hc Hk]. eauto. Qed.

(** What the guarantee says of a complete run. *)
Lemma guarantees_runs {A} G (p : proc ans A) Q past t a :
  guarantees G p Q past -> runs p t a -> Q a (past ++ t).
Proof.
  revert past t. induction p as [a'|c k IH]; intros past t; cbn.
  - intros HQ [-> ->]. by rewrite app_nil_r.
  - intros [_ H] (x & t' & -> & Hr). specialize (IH x (past ++ [observe c x]) t' (H x) Hr).
    by rewrite <- app_assoc in IH.
Qed.

End reasoning.

Section embedding.
Context {C D : Type} {ansC : C -> Type} {ansD : D -> Type}.
Variables (to : C -> D) (back : forall c, ansD (to c) -> ansC c).

Lemma calls_only_embed {A} (p : proc ansC A) : calls_only (fun d => exists c, d = to c) (embed to back p).
Proof. induction p as [a|c k IH]; cbn; [done|]. split; [by exists c|]. intros x. apply IH. Qed.

Lemma runs_embed {A} (p : proc ansC A) outer a :
  runs (embed to back p) outer a -> exists inner, embeds to back inner outer /\ runs p inner a.
Proof.
  revert outer. induction p as [a'|c k IH]; intros outer; cbn.
  - intros [-> ->]. exists []. split; [constructor|done].
  - intros (x & t' & -> & (inner & He & Hr)%IH). exists (observe c (back c x) :: inner).
    split; [by constructor|]. eauto.
Qed.

End embedding.
