(* ===== verification/Database.v ===== *)
(** * Transactions of a database

    What a client can see of a transaction: its result, or a failure after which the
    transaction did not happen, or did and the reply was lost.  The state and the
    operation are those of the store that uses it. *)

From S2P Require Import Prelude.

Inductive fault : Type :=
  | NoFault
  | NotApplied (e : error)
  | ReplyLost (e : error).

(** A [TIMESTAMPTZ] keeps microseconds. *)
Definition pg_time (t : Z) : Z := t / 1000 * 1000.

Definition transact {S A} (f : fault) (op : S -> result (A * S)) (db : S) : result A * S :=
  match f with
  | NotApplied e => (Err e, db)
  | NoFault => match op db with Ok (a, db') => (Ok a, db') | Err e => (Err e, db) end
  | ReplyLost lost => match op db with Ok (_, db') => (Err lost, db') | Err e => (Err e, db) end
  end.

(** A property that an operation keeps is kept whatever happens to its transaction. *)
Lemma transact_keeps {S A} f (op : S -> result (A * S)) (R : S -> S -> Prop) db :
  R db db -> (forall a db', op db = Ok (a, db') -> R db db') -> R db (transact f op db).2.
Proof.
  intros Hr H. unfold transact. destruct f; [|done|]; destruct (op db) as [[a db']|] eqn:E; try done; by eapply H.
Qed.
