(* ===== verification/Reliability.v ===== *)
(** * Failure classification and bounded retry ([internal/reliability])

    Which failures may be repeated, and how long to wait before the next attempt.  A
    [time.Duration] is an [int64] number of nanoseconds; the random number of the
    jitter is an argument. *)

From S2P Require Import Prelude GoFloat.

Local Open Scope string_scope.
Local Open Scope Z_scope.

(** [reliability.New]; a nil error stays nil. *)
Definition reliability_New (class : Class) (op : string) (err : option error) : option error :=
  match err with
  | None => None
  | Some e => Some (ErrClassified class op e)
  end.

(** [errors.As(err, &classified)] for a [reliability.Error]: the first one of the chain. *)
Fixpoint as_classified (err : error) : option Class :=
  match err with
  | ErrClassified class _ _ => Some class
  | ErrWrap _ cause | ErrDelivery _ cause => as_classified cause
  | ErrJoin first second =>
      match as_classified first with Some class => Some class | None => as_classified second end
  | _ => None
  end.

Definition IsTransient (err : error) : bool :=
  match as_classified err with Some Transient => true | _ => false end.

Definition Classification (err : error) : Class :=
  if IsTransient err then Transient else Permanent.

Record RetryPolicy := mkRetryPolicy {
  rp_MaxAttempts : Z;
  rp_BaseDelay : Z;
  rp_MaxDelay : Z;
  rp_Jitter : float64;
}.

Definition millisecond : Z := 1000000.

Definition DefaultRetryPolicy : RetryPolicy :=
  mkRetryPolicy 4 (250 * millisecond) (5000 * millisecond) (float_ratio 20 100).

(** [Delay]: the shift is on [int64], so it wraps and is zero from 64 bits on. *)
Definition Delay (policy : RetryPolicy) (random : float64) (attempt : Z) : Z :=
  let attempt := if attempt <? 1 then 1 else attempt in
  let delay := i64 (rp_BaseDelay policy * 2 ^ (attempt - 1)) in
  let delay := if rp_MaxDelay policy <? delay then rp_MaxDelay policy else delay in
  if (rp_Jitter policy <=? float_zero)%F then delay
  else
    let spread := (float_of_int delay * rp_Jitter policy)%F in
    let offset := ((random * float_of_int 2 - float_one) * spread)%F in
    let value := int_of_float (float_of_int delay + offset)%F in
    if value <? 0 then 0 else value.

(** ** Lemmas *)

Lemma i64_small z : - 2 ^ 63 <= z < 2 ^ 63 -> i64 z = z.
Proof.
  intros H. unfold i64, modulus64. change (2 ^ 64) with (2 * 2 ^ 63).
  destruct (decide (0 <= z)).
  - rewrite Z.mod_small by lia. by rewrite (proj2 (Z.ltb_lt _ _)) by lia.
  - rewrite <- (Z_mod_plus_full z 1), Z.mod_small by lia.
    rewrite (proj2 (Z.ltb_ge _ _)) by lia. lia.
Qed.

(** A wrapped error keeps its class. *)
Lemma classified_wrap text err : IsTransient (ErrWrap text err) = IsTransient err.
Proof. done. Qed.

Lemma classified_class class op err : IsTransient (ErrClassified class op err) = bool_decide (class = Transient).
Proof. by destruct class. Qed.

(** ** Theorems *)

(** The backoff is exponential and capped: without jitter, as long as the shifted base
    delay fits an [int64], attempt [n] waits exactly the smaller of [base * 2^(n-1)] and the
    maximum, and attempts below 1 wait like the first. *)
Theorem delay_exponential policy random attempt :
  (rp_Jitter policy <=? float_zero)%F = true ->
  0 <= rp_BaseDelay policy -> rp_BaseDelay policy * 2 ^ (Z.max 1 attempt - 1) < 2 ^ 63 ->
  Delay policy random attempt = Z.min (rp_BaseDelay policy * 2 ^ (Z.max 1 attempt - 1)) (rp_MaxDelay policy).
Proof.
  intros Hj Hb Hs. unfold Delay. rewrite Hj.
  assert ((if attempt <? 1 then 1 else attempt) = Z.max 1 attempt) as ->
    by (destruct (Z.ltb_spec attempt 1); lia).
  rewrite i64_small by (pose proof (Z.pow_nonneg 2 (Z.max 1 attempt - 1)); nia).
  destruct (Z.ltb_spec (rp_MaxDelay policy) (rp_BaseDelay policy * 2 ^ (Z.max 1 attempt - 1))); lia.
Qed.

(** The shift is not guarded: a policy that allows enough attempts wraps the delay to a
    negative number, which the cap does not catch, and to zero from 64 bits on. *)
Lemma delay_overflows :
  let policy := mkRetryPolicy 80 (250 * millisecond) (5000 * millisecond) float_zero in
  Delay policy float_zero 30 = 5000 * millisecond /\ Delay policy float_zero 37 < 0 /\
  Delay policy float_zero 65 = 0.
Proof. vm_compute. done. Qed.

Lemma delay_exponential_witness :
  Delay (mkRetryPolicy 4 (250 * millisecond) (5000 * millisecond) float_zero) float_zero 3 = 1000 * millisecond.
Proof.
  exact (delay_exponential (mkRetryPolicy 4 (250 * millisecond) (5000 * millisecond) float_zero) float_zero 3
    eq_refl ltac:(vm_compute; discriminate) ltac:(reflexivity)).
Defined.
