(* ===== verification/Worker.v ===== *)
(** * The bounded worker pool ([internal/worker]: pool, processor, chain)

    A [Job] with its callbacks, [handleJob] with bounded retry, dead-letter routing and
    acknowledgement, and the [Chain] of processors.  The code is a [proc] over the calls
    of the process it runs in, so that the workers of a pool interleave at every call;
    the queue and the goroutines are in [Consumer].  Logging and tracing are left out. *)

From S2P Require Import Prelude GoStrings GoFloat Domain Proc Reliability.

Local Open Scope string_scope.
Local Open Scope Z_scope.
Local Open Scope list_scope.

(** What a processor returns: [(domain.Event, error)]. *)
Abbreviation processed := (Event * option error)%type.

Definition zero_event : Event := mkEvent "" "" "" "" 0 ∅ [] None "" "" "" "".

(** [stopProcessing] and [isStopProcessing]. *)
Fixpoint isStopProcessing (err : error) : bool :=
  match err with
  | ErrStop _ => true
  | ErrWrap _ cause | ErrClassified _ _ cause | ErrDelivery _ cause => isStopProcessing cause
  | ErrJoin first second => isStopProcessing first || isStopProcessing second
  | _ => false
  end.

Section worker.
Context {C : Type} {ans : C -> Type}.
Implicit Types (past t : list (obs ans)).

Definition Processor : Type := Event -> proc ans processed.

(** [Normalizer.Process]. *)
Definition Normalizer_Process : Processor := fun event =>
  let source := trim_space (ev_Source event) in
  let type := trim_space (ev_Type event) in
  if bool_decide (source = "") || bool_decide (type = "")
  then mret (zero_event,
    reliability_New Permanent "normalize" (Some (ErrMsg "normalized event has empty source or type")))
  else mret (mkEvent (ev_ID event) (ev_TenantID event) source type (ev_Timestamp event) (ev_Tags event)
    (ev_Payload event) (ev_Value event) (ev_Unit event) (ev_SchemaVersion event) (ev_SchemaURL event)
    (ev_CorrelationID event), None).

(** [Chain.Process]: a stop marker ends the chain with the event of that stage. *)
Fixpoint Chain_Process (processors : list Processor) : Processor := fun event =>
  match processors with
  | [] => mret (event, None)
  | process :: rest =>
      '(processed, err) ← process event;
      match err with
      | Some e => if isStopProcessing e then mret (processed, None) else mret (zero_event, Some e)
      | None => Chain_Process rest processed
      end
  end.

(** [NewChain]; [None] is a nil processor. *)
Definition NewChain (processors : list (option Processor)) : result Processor :=
  if bool_decide (processors = []) then Err (ErrMsg "at least one processor is required")
  else match mapM id processors with
       | Some l => Ok (Chain_Process l)
       | None => Err (ErrMsg "processor chain cannot contain nil")
       end.

Record Observer := mkObserver {
  ob_QueueDepth : Z -> Z -> proc ans unit;
  ob_JobCompleted : Z -> Z -> string -> proc ans unit;
  ob_Retry : Class -> proc ans unit;
}.

(** [CompositeObserver]: every observer in order. *)
Fixpoint fan_out (l : list (proc ans unit)) : proc ans unit :=
  match l with [] => mret tt | p :: l' => p;; fan_out l' end.

Definition NewCompositeObserver (observers : list (option Observer)) : Observer :=
  let filtered := omap id observers in
  mkObserver (fun current capacity => fan_out ((fun o => ob_QueueDepth o current capacity) <$> filtered))
    (fun duration attempts outcome => fan_out ((fun o => ob_JobCompleted o duration attempts outcome) <$> filtered))
    (fun class => fan_out ((fun o => ob_Retry o class) <$> filtered)).

Record Job := mkJob {
  job_Event : Event;
  job_Ack : option (proc ans (result unit));
  job_Nack : option (error -> proc ans unit);
  job_Failure : option (Event -> error -> Z -> proc ans (result unit));
  job_Done : option (proc ans unit);
}.

(** The clock, the random numbers and the timer of the process. *)
Record Runtime := mkRuntime {
  rt_now : proc ans time;
  rt_random : proc ans float64;
  rt_sleep : Z -> proc ans (result unit);
}.

Record Pool := mkPool {
  pl_capacity : Z;
  pl_processor : Processor;
  pl_workers : Z;
  pl_retryPolicy : RetryPolicy;
  pl_observer : option Observer;
}.

Definition NewPoolWithRetryAndObserver (workers queueCapacity : Z) (processor : option Processor)
    (retryPolicy : RetryPolicy) (observer : option Observer) : result Pool :=
  if workers <? 1 then Err (ErrMsg "worker count must be at least 1")
  else if queueCapacity <? 1 then Err (ErrMsg "queue capacity must be at least 1")
  else match processor with
       | None => Err (ErrMsg "processor is required")
       | Some processor =>
           if rp_MaxAttempts retryPolicy <? 1 then Err (ErrMsg "retry attempts must be at least 1")
           else Ok (mkPool queueCapacity processor workers retryPolicy observer)
       end.

Definition NewPoolWithObserver (workers queueCapacity : Z) (processor : option Processor)
    (observer : option Observer) : result Pool :=
  NewPoolWithRetryAndObserver workers queueCapacity processor DefaultRetryPolicy observer.

Section pool.
Variables (rt : Runtime) (pool : Pool).

(** The random number [Delay] draws, if the policy has jitter. *)
Definition draw : proc ans float64 :=
  if (rp_Jitter (pl_retryPolicy pool) <=? float_zero)%F then mret float_zero else rt_random rt.

(** [RetryPolicy.Wait]. *)
Definition Wait (attempt : Z) : proc ans (result unit) :=
  random ← draw;
  rt_sleep rt (Delay (pl_retryPolicy pool) random attempt).

Definition observe_with (f : Observer -> proc ans unit) : proc ans unit :=
  match pl_observer pool with Some o => f o | None => mret tt end.

(** The loop of [processWithRetry]; [fuel] attempts are left. *)
Fixpoint retry_loop (fuel : nat) (attempt : Z) (event : Event) : proc ans (Event * Z * option error) :=
  match fuel with
  | O => mret (zero_event, rp_MaxAttempts (pl_retryPolicy pool), Some (ErrMsg "retry loop exhausted"))
  | S fuel' =>
      '(result, err) ← pl_processor pool event;
      match err with
      | None => mret (result, attempt, None)
      | Some err =>
          if negb (IsTransient err) || (attempt =? rp_MaxAttempts (pl_retryPolicy pool))
          then mret (zero_event, attempt, Some err)
          else
            observe_with (fun o => ob_Retry o (Classification err));;
            _ ← draw;
            waited ← Wait attempt;
            match waited with
            | Err e => mret (zero_event, attempt, Some e)
            | Ok _ => retry_loop fuel' (attempt + 1) event
            end
      end
  end.

Definition processWithRetry (event : Event) : proc ans (Event * Z * option error) :=
  retry_loop (Z.to_nat (rp_MaxAttempts (pl_retryPolicy pool))) 1 event.

Definition nack (job : Job) (err : error) : proc ans unit :=
  match job_Nack job with Some f => f err | None => mret tt end.

Definition ack (job : Job) : proc ans bool :=
  match job_Ack job with
  | None => mret true
  | Some f =>
      r ← f;
      match r with
      | Ok _ => mret true
      | Err e => nack job e;; mret false
      end
  end.

(** The terminal-failure path of [handleJob]. *)
Definition route_failure (job : Job) (err : error) (attempts : Z) : proc ans string :=
  '(handled, outcome, err) ←
    match job_Failure job with
    | None => mret (false, "failed", err)
    | Some failure =>
        r ← failure (job_Event job) err attempts;
        match r with
        | Ok _ =>
            acked ← ack job;
            mret (if acked : bool then (true, "dlq", err) else (false, "ack_failed", err))
        | Err failureErr => mret (false, "failed", ErrJoin err failureErr)
        end
    end;
  if handled : bool then mret outcome else nack job err;; mret outcome.

(** The body of [handleJob] before its deferred calls: the outcome and the attempts. *)
Definition handle_body (job : Job) : proc ans (string * Z) :=
  '(_, attempts, err) ← processWithRetry (job_Event job);
  match err with
  | Some err => outcome ← route_failure job err attempts; mret (outcome, attempts)
  | None => acked ← ack job; mret (if acked : bool then "success" else "ack_failed", attempts)
  end.

Definition finish (job : Job) : proc ans unit :=
  match job_Done job with Some d => d | None => mret tt end.

(** The deferred observation, with the time since the job started. *)
Definition report (started : time) (outcome : string) (attempts : Z) : proc ans unit :=
  observe_with (fun o => finished ← rt_now rt; ob_JobCompleted o (finished - started) attempts outcome).

Definition handleJob (job : Job) : proc ans unit :=
  started ← rt_now rt;
  '(outcome, attempts) ← handle_body job;
  finish job;;
  report started outcome attempts.

End pool.
End worker.

Arguments Processor {C} ans.
Arguments Observer {C} ans.
Arguments Job {C} ans.
Arguments Runtime {C} ans.
Arguments Pool {C} ans.

(** ** What a job has done when it acknowledges *)

Section guarantees.
Context {C : Type} {ans : C -> Type}.
Variables (rt : Runtime ans) (pool : Pool ans) (job : Job ans).
Implicit Types (past t : list (obs ans)).

Variables (G : list (obs ans) -> C -> Prop) (plain : C -> Prop).

(** The processor returned without error on the job's event, or the failure callback
    took it. *)
Definition settled past : Prop :=
  (exists pre t post result, past = pre ++ t ++ post /\ runs (pl_processor pool (job_Event job)) t (result, None)) \/
  (exists pre t post failure err attempts, past = pre ++ t ++ post /\ job_Failure job = Some failure /\
    runs (failure (job_Event job) err attempts) t (Ok tt)).

(** Callbacks and observers whose calls are unconstrained. *)
Record plain_pool : Prop := {
  pp_now : calls_only plain (rt_now rt);
  pp_random : calls_only plain (rt_random rt);
  pp_sleep d : calls_only plain (rt_sleep rt d);
  pp_processor e : calls_only plain (pl_processor pool e);
  pp_retry o class : pl_observer pool = Some o -> calls_only plain (ob_Retry o class);
  pp_completed o d n s : pl_observer pool = Some o -> calls_only plain (ob_JobCompleted o d n s);
  pp_nack f e : job_Nack job = Some f -> calls_only plain (f e);
  pp_failure f e err n : job_Failure job = Some f -> calls_only plain (f e err n);
}.

Hypothesis Hplain : forall t c, plain c -> G t c.
Hypothesis Hpool : plain_pool.

Lemma plain_draw : calls_only plain (draw rt pool).
Proof. unfold draw. destruct (_ <=? _)%F; [done|apply Hpool]. Qed.

Lemma plain_wait n : calls_only plain (Wait rt pool n).
Proof. apply calls_only_bind; [apply plain_draw|]. intros r. apply Hpool. Qed.

Lemma plain_retry class : calls_only plain (observe_with pool (fun o => ob_Retry o class)).
Proof. unfold observe_with. destruct (pl_observer pool) eqn:E; [by apply Hpool|done]. Qed.

Lemma plain_loop fuel attempt e : calls_only plain (retry_loop rt pool fuel attempt e).
Proof.
  revert attempt. induction fuel as [|fuel IH]; intros attempt; cbn [retry_loop]; [done|].
  apply calls_only_bind; [apply Hpool|]. intros [r [err|]]; [|done].
  destruct (_ || _); [done|]. apply calls_only_bind; [apply plain_retry|]. intros _.
  apply calls_only_bind; [apply plain_draw|]. intros _. apply calls_only_bind; [apply plain_wait|].
  intros [_|?]; [apply IH|done].
Qed.

Lemma plain_nack err : calls_only plain (nack job err).
Proof. unfold nack. destruct (job_Nack job) eqn:E; [by apply Hpool|done]. Qed.

(** Success means that one of the attempts succeeded. *)
Lemma loop_success fuel attempt e t r n :
  runs (retry_loop rt pool fuel attempt e) t (r, n, None) ->
  exists pre t' post, t = pre ++ t' ++ post /\ runs (pl_processor pool e) t' (r, None).
Proof.
  revert attempt t. induction fuel as [|fuel IH]; intros attempt t; cbn [retry_loop]; [by intros [_ ?]|].
  intros ([r' err] & t1 & t2 & -> & H1 & H2)%runs_bind. destruct err as [err|].
  - destruct (_ || _); [by destruct H2|].
    apply runs_bind in H2 as (? & t3 & t4 & -> & _ & H2).
    apply runs_bind in H2 as (? & t5 & t6 & -> & _ & H2).
    apply runs_bind in H2 as ([u|?] & t7 & t8 & -> & _ & H2); [|by destruct H2].
    apply IH in H2 as (pre & t' & post & -> & H). exists (t1 ++ t3 ++ t5 ++ t7 ++ pre), t', post.
    split; [by rewrite <- !app_assoc|done].
  - destruct H2 as [-> [= -> ->]]. exists [], t1, []. done.
Qed.

(** The job's own acknowledgement is allowed once the job is settled. *)
Variable a : proc ans (result unit).
Hypothesis Hack : job_Ack job = Some a.
Hypothesis Hallowed : forall past, settled past -> guarantees G a (fun _ _ => True) past.

Lemma settled_more past t : settled past -> settled (past ++ t).
Proof.
  intros [(pre & t' & post & r & -> & H)|(pre & t' & post & f & err & n & -> & H & H')]; [left|right].
  - exists pre, t', (post ++ t), r. split; [by rewrite <- !app_assoc|done].
  - exists pre, t', (post ++ t), f, err, n. split; [by rewrite <- !app_assoc|done].
Qed.

Lemma guarantees_ack past : settled past -> guarantees G (ack job) (fun _ _ => True) past.
Proof.
  intros Hs. unfold ack. rewrite Hack. apply guarantees_bind.
  eapply guarantees_mono; [by apply Hallowed|]. intros [u|err] t _ _; [done|].
  apply guarantees_bind. eapply guarantees_mono; [by eapply guarantees_calls; [apply plain_nack|]|]. done.
Qed.

Lemma guarantees_failure err n past : guarantees G (route_failure job err n) (fun _ _ => True) past.
Proof.
  unfold route_failure. apply guarantees_bind.
  assert (forall outcome e past, guarantees G (nack job e;; mret outcome : proc ans string) (fun _ _ => True) past) as Hn.
  { intros o e p. apply guarantees_bind.
    eapply guarantees_mono; [by eapply guarantees_calls; [apply plain_nack|]|done]. }
  destruct (job_Failure job) as [f|] eqn:Hf; [|apply Hn].
  apply guarantees_bind. eapply guarantees_mono; [by eapply guarantees_calls; [by apply Hpool|]|].
  intros [[]|fe] t (t' & E & Hr) _; [|apply Hn]. apply app_inv_head in E as ->.
  apply guarantees_bind. eapply guarantees_mono; [apply guarantees_ack|].
  - right. exists past, t', [], f, err, n. by rewrite app_nil_r.
  - intros [] t _ _; [done|apply Hn].
Qed.

Lemma guarantees_body past : guarantees G (handle_body rt pool job) (fun _ _ => True) past.
Proof.
  unfold handle_body, processWithRetry. apply guarantees_bind.
  eapply guarantees_mono; [by eapply guarantees_calls; [apply plain_loop|]|].
  intros [[r n] [err|]] t (t' & E & Hr) _; apply app_inv_head in E as ->; apply guarantees_bind.
  - eapply guarantees_mono; [apply guarantees_failure|done].
  - eapply guarantees_mono; [apply guarantees_ack|done].
    apply loop_success in Hr as (pre & ts & post & -> & H). left.
    exists (past ++ pre), ts, post, r. split; [by rewrite <- !app_assoc|done].
Qed.

End guarantees.
