(* ===== verification/Consumer.v ===== *)
(** * The consuming side: Kafka records through the worker pool
      ([internal/stream/consumer.go] with [internal/worker/pool.go])

    [run_iteration] is the body of the loop of [KafkaConsumer.Run]; [processBatch]
    registers the records of one poll, sends malformed ones to the dead-letter topic and
    submits the others to the pool; [job_of] is the job with the callbacks the consumer
    gives it.  [Sys] is the running process: the poller, the pool's goroutines, the
    bounded queue, the wait group of the batch, the offset coordinator, the [fatal]
    channel and the contexts.  Its steps are single calls of one goroutine, chosen by an
    arbitrary schedule that also supplies every answer of the environment: the broker,
    the dead-letter producer, the clock and whatever the processor calls.

    [s_log] records what happened, for the statements. *)

From S2P Require Import Prelude GoStrings GoFloat Domain OffsetTracker Proc Reliability Worker.

Local Open Scope string_scope.
Local Open Scope Z_scope.
Local Open Scope list_scope.

(** The fields of a polled [kgo.Record] the consumer reads. *)
Record Message := mkMessage { m_Record : KRecord; m_Value : bytes }.

(** [domain.DeadLetter]; the message of the error stands for its text. *)
Record DeadLetter := mkDeadLetter {
  dl_Event : option Event;
  dl_RawPayload : bytes;
  dl_OriginalTopic : string;
  dl_Partition : Z;
  dl_Offset : Z;
  dl_FailureClass : Class;
  dl_Error : error;
  dl_Attempts : Z;
  dl_FailedAt : time;
}.

(** The record handed to [ProduceSync]. *)
Record Outgoing := mkOutgoing {
  og_Topic : string;
  og_Key : string;
  og_Value : bytes;
  og_Headers : list (string * string);
}.

Definition class_name (class : Class) : string :=
  match class with Transient => "transient" | Permanent => "permanent" end.

Section consumer.

(** The processor of the pool and the calls it makes. *)
Context {PC : Type} {pans : PC -> Type}.
Variable Process : Event -> proc pans processed.

(** [encoding/json] of the two types. *)
Variable Unmarshal : bytes -> result Event.
Variable Marshal : DeadLetter -> result bytes.

Variable dlqTopic : string.
Variables (workers capacity : Z) (retryPolicy : RetryPolicy).

Inductive call : Type :=
  | cProcess (c : PC)
  | cNow | cRandom | cSleep (duration : Z)
  | cQueueLen
  | cObserveDepth (current capacity : Z)
  | cObserveCompleted (duration attempts : Z) (outcome : string)
  | cObserveRetry (class : Class)
  | cObserveDeadLetter (class : Class)
  | cPoll | cAllowRebalance | cSetLag (lag : Z)
  | cRegister (r : KRecord) | cAck (r : KRecord)
  | cProduce (out : Outgoing)
  | cFail (err : error) | cTakeFatal | cCtxErr | cRunErr
  | cSubmit (m : Message) (event : Event)
  | cJobsAdd | cJobsDone | cJobsWait.

Definition ans (c : call) : Type :=
  match c with
  | cProcess c => pans c
  | cNow => time
  | cRandom => float64
  | cSleep _ => result unit
  | cQueueLen => Z
  | cPoll => list Message * list error
  | cRegister _ | cAck _ | cProduce _ | cSubmit _ _ => result unit
  | cTakeFatal | cCtxErr | cRunErr => option error
  | _ => unit
  end.

Abbreviation P := (proc ans).

(** ** The worker pool of the process *)

Definition metrics : Observer ans :=
  mkObserver (fun current capacity => Proc.call (cObserveDepth current capacity) : P unit)
    (fun duration attempts outcome => Proc.call (cObserveCompleted duration attempts outcome) : P unit)
    (fun class => Proc.call (cObserveRetry class) : P unit).

Definition runtime : Runtime ans :=
  mkRuntime (Proc.call cNow : P time) (Proc.call cRandom : P float64)
    (fun duration => Proc.call (cSleep duration) : P (result unit)).

Definition process (event : Event) : P processed :=
  embed (ansD := ans) cProcess (fun _ x => x) (Process event).

Definition pool : Pool ans := mkPool capacity process workers retryPolicy (Some metrics).

Definition queue_depth : P unit :=
  current ← (Proc.call cQueueLen : P Z);
  (Proc.call (cObserveDepth current capacity) : P unit).

(** ** Dead letters and jobs *)

Definition publishDeadLetter (dead : DeadLetter) : P (result unit) :=
  match Marshal dead with
  | Err e => mret (Err (ErrWrap "encode dead letter" e))
  | Ok payload =>
      let key := match dl_Event dead with
                 | Some event => if bool_decide (ev_Source event = "") then dl_OriginalTopic dead
                                 else ev_Source event
                 | None => dl_OriginalTopic dead
                 end in
      r ← (Proc.call (cProduce (mkOutgoing dlqTopic key payload
             [("telemetryforge-original-topic", dl_OriginalTopic dead);
              ("telemetryforge-failure-class", class_name (dl_FailureClass dead))])) : P (result unit));
      match r with
      | Err e => mret (Err (ErrWrap "publish DLQ record" e))
      | Ok _ =>
          (Proc.call (cObserveDeadLetter (dl_FailureClass dead)) : P unit);;
          mret (Ok tt)
      end
  end.

Definition failed_letter (m : Message) (failed : Event) (err : error) (attempts : Z) (now : time) : DeadLetter :=
  mkDeadLetter (Some failed) [] (k_Topic (m_Record m)) (k_Partition (m_Record m)) (k_Offset (m_Record m))
    (Classification err) err attempts now.

Definition malformed_letter (m : Message) (err : error) (now : time) : DeadLetter :=
  mkDeadLetter None (m_Value m) (k_Topic (m_Record m)) (k_Partition (m_Record m)) (k_Offset (m_Record m))
    Permanent (ErrWrap "decode event" err) 1 now.

Definition fail_callback (m : Message) (failed : Event) (err : error) (attempts : Z) : P (result unit) :=
  now ← (Proc.call cNow : P time);
  publishDeadLetter (failed_letter m failed err attempts now).

Definition job_of (m : Message) (event : Event) : Job ans :=
  mkJob event
    (Some (Proc.call (cAck (m_Record m)) : P (result unit)))
    (Some (fun err => Proc.call (cFail (ErrWrap "unresolved Kafka record" err)) : P unit))
    (Some (fail_callback m))
    (Some (Proc.call cJobsDone : P unit)).

(** [Pool.run] for one job. *)
Definition run_job (m : Message) (event : Event) : P unit :=
  queue_depth;;
  handleJob runtime pool (job_of m event).

(** [Pool.Submit]. *)
Definition Submit (m : Message) (event : Event) : P (result unit) :=
  r ← (Proc.call (cSubmit m event) : P (result unit));
  match r with
  | Ok _ => queue_depth;; mret (Ok tt)
  | Err e => mret (Err e)
  end.

(** ** The poller *)

Definition fatalOrContext (fallback : error) : P (option error) :=
  fatal ← (Proc.call cTakeFatal : P (option error));
  match fatal with
  | Some e => mret (Some e)
  | None =>
      cancelled ← (Proc.call cCtxErr : P (option error));
      match cancelled with
      | Some _ => mret None
      | None => mret (Some fallback)
      end
  end.

(** A record that does not decode. *)
Definition divert (m : Message) (err : error) : P (option error) :=
  now ← (Proc.call cNow : P time);
  sent ← publishDeadLetter (malformed_letter m err now);
  match sent with
  | Err e => mret (Some (ErrWrap "publish malformed record to DLQ" e))
  | Ok _ =>
      acked ← (Proc.call (cAck (m_Record m)) : P (result unit));
      match acked with
      | Err e => mret (Some (ErrWrap "acknowledge malformed DLQ record" e))
      | Ok _ => mret None
      end
  end.

(** A record that does: [Some err] is the return of [processBatch]. *)
Definition dispatch (total : Z) (m : Message) (event : Event) : P (option (option error)) :=
  (Proc.call cJobsAdd : P unit);;
  submitted ← Submit m event;
  match submitted with
  | Err e =>
      (Proc.call cJobsDone : P unit);;
      r ← fatalOrContext (ErrWrap "submit event to worker pool" e);
      mret (Some r)
  | Ok _ =>
      (Proc.call (cSetLag total) : P unit);;
      mret None
  end.

(** The loop of [processBatch] over the records of the poll. *)
Fixpoint batch_loop (total : Z) (records : list Message) : P (option error) :=
  match records with
  | [] => mret None
  | m :: rest =>
      cancelled ← (Proc.call cRunErr : P (option error));
      match cancelled with
      | Some e => fatalOrContext e
      | None =>
          registered ← (Proc.call (cRegister (m_Record m)) : P (result unit));
          match registered with
          | Err e => mret (Some (ErrWrap "register Kafka offset" e))
          | Ok _ =>
              match Unmarshal (m_Value m) with
              | Err e =>
                  r ← divert m e;
                  match r with
                  | Some e => mret (Some e)
                  | None => batch_loop total rest
                  end
              | Ok event =>
                  r ← dispatch total m event;
                  match r with
                  | Some r => mret r
                  | None => batch_loop total rest
                  end
              end
          end
      end
  end.

(** [processBatch]: the deferred wait comes last. *)
Definition processBatch (records : list Message) : P (option error) :=
  r ← batch_loop (zlen records) records;
  (Proc.call cJobsWait : P unit);;
  mret r.

(** The body of the loop of [Run]: [None] continues, [Some err] returns. *)
Definition run_iteration : P (option (option error)) :=
  '(records, errs) ← (Proc.call cPoll : P (list Message * list error));
  match records with
  | _ :: _ =>
      batchErr ← match errs with
                 | e :: _ => mret (Some (ErrWrap "poll Kafka" e))
                 | [] => processBatch records
                 end;
      (Proc.call cAllowRebalance : P unit);;
      mret (match batchErr with Some e => Some (Some e) | None => None end)
  | [] =>
      cancelled ← (Proc.call cRunErr : P (option error));
      match cancelled with
      | Some e => r ← fatalOrContext e; mret (Some r)
      | None =>
          match errs with
          | e :: _ => mret (Some (Some (ErrWrap "poll Kafka" e)))
          | [] => mret None
          end
      end
  end.

(** ** The process *)

Inductive wstate : Type :=
  | Idle
  | Busy (n : nat) (m : Message) (event : Event) (past : list (obs ans)) (p : P unit).

Inductive pstate : Type :=
  | Polling (past : list (obs ans)) (p : P (option (option error)))
  | Stopped (r : option error).

(** What the log shows: a call and its answer, of the poller ([None]) or of job [n]; the
    start of job [n]; and the events of the offset coordinator. *)
Inductive entry : Type :=
  | Did (who : option nat) (o : obs ans)
  | Started (n : nat) (m : Message) (event : Event)
  | Offset (e : OffsetTracker.event).

Record Sys := mkSys {
  s_coord : ackCoordinator;
  s_queue : list (Message * Event);
  s_workers : list wstate;
  s_outstanding : Z;
  s_fatal : option error;
  s_cancelled : bool;
  s_parent : bool;
  s_poller : pstate;
  s_next : nat;
  s_log : list entry;
}.

Definition start : Sys :=
  mkSys newAckCoordinator [] (replicate (Z.to_nat workers) Idle) 0 None false false
    (Polling [] run_iteration) 0 [].

Definition set_coord c s := mkSys c (s_queue s) (s_workers s) (s_outstanding s) (s_fatal s) (s_cancelled s) (s_parent s) (s_poller s) (s_next s) (s_log s).
Definition set_queue q s := mkSys (s_coord s) q (s_workers s) (s_outstanding s) (s_fatal s) (s_cancelled s) (s_parent s) (s_poller s) (s_next s) (s_log s).
Definition set_workers w s := mkSys (s_coord s) (s_queue s) w (s_outstanding s) (s_fatal s) (s_cancelled s) (s_parent s) (s_poller s) (s_next s) (s_log s).
Definition set_outstanding n s := mkSys (s_coord s) (s_queue s) (s_workers s) n (s_fatal s) (s_cancelled s) (s_parent s) (s_poller s) (s_next s) (s_log s).
Definition set_fatal f c s := mkSys (s_coord s) (s_queue s) (s_workers s) (s_outstanding s) f c (s_parent s) (s_poller s) (s_next s) (s_log s).
Definition set_parent s := mkSys (s_coord s) (s_queue s) (s_workers s) (s_outstanding s) (s_fatal s) (s_cancelled s) true (s_poller s) (s_next s) (s_log s).
Definition set_poller p s := mkSys (s_coord s) (s_queue s) (s_workers s) (s_outstanding s) (s_fatal s) (s_cancelled s) (s_parent s) p (s_next s) (s_log s).
Definition set_next n s := mkSys (s_coord s) (s_queue s) (s_workers s) (s_outstanding s) (s_fatal s) (s_cancelled s) (s_parent s) (s_poller s) n (s_log s).
Definition add_log l s := mkSys (s_coord s) (s_queue s) (s_workers s) (s_outstanding s) (s_fatal s) (s_cancelled s) (s_parent s) (s_poller s) (s_next s) (s_log s ++ l).

(** [runCtx.Err()]. *)
Definition run_err (s : Sys) : option error :=
  if s_cancelled s || s_parent s then Some ErrCancelled else None.

(** The answer to a call, [None] while it blocks.  [oracle] is the environment's part of
    the answer; of two enabled branches of [Submit]'s select it picks one. *)
Definition respond (oracle : forall c, ans c) (c : call) (s : Sys)
  : option (ans c * Sys * list OffsetTracker.event) :=
  match c with
  | cRegister r =>
      Some ((Register (Some r) (s_coord s)).1, set_coord (Register (Some r) (s_coord s)).2 s,
            (perform (DoRegister (Some r)) (s_coord s)).1)
  | cAck r =>
      let broker := fun _ => oracle (cAck r) in
      let answer := Ack broker (Some r) (s_coord s) in
      Some (answer.1.1, set_coord answer.2 s, (perform (DoAck (Some r) broker) (s_coord s)).1)
  | cFail err =>
      Some (tt, match s_fatal s with None => set_fatal (Some err) true s | Some _ => s end, [])
  | cTakeFatal => Some (s_fatal s, set_fatal None (s_cancelled s) s, [])
  | cCtxErr => Some (if s_parent s then Some ErrCancelled else None, s, [])
  | cRunErr => Some (run_err s, s, [])
  | cSubmit m event =>
      match oracle (cSubmit m event) with
      | Ok _ => if zlen (s_queue s) <? capacity
                then Some (Ok tt, set_queue (s_queue s ++ [(m, event)]) s, []) else None
      | Err _ => if s_cancelled s || s_parent s then Some (Err ErrCancelled, s, []) else None
      end
  | cQueueLen => Some (zlen (s_queue s), s, [])
  | cJobsAdd => Some (tt, set_outstanding (s_outstanding s + 1) s, [])
  | cJobsDone => Some (tt, set_outstanding (s_outstanding s - 1) s, [])
  | cJobsWait => if s_outstanding s =? 0 then Some (tt, s, []) else None
  | c => Some (oracle c, s, [])
  end.

Inductive choice : Type :=
  | PollerStep (oracle : forall c, ans c)
  | WorkerStep (i : nat) (oracle : forall c, ans c)
  | Take (i : nat)
  | CancelParent.

(** Where the poller goes after an answer; returning cancels the run context. *)
Definition poller_next (past : list (obs ans)) (p : P (option (option error))) (s : Sys) : Sys :=
  match p with
  | Return None => set_poller (Polling [] run_iteration) s
  | Return (Some r) => set_poller (Stopped r) (set_fatal (s_fatal s) true s)
  | Call _ _ => set_poller (Polling past p) s
  end.

Definition worker_next (i : nat) (n : nat) (m : Message) (event : Event) (past : list (obs ans)) (p : P unit)
    (s : Sys) : Sys :=
  match p with
  | Return _ => set_workers (<[i := Idle]> (s_workers s)) s
  | Call _ _ => set_workers (<[i := Busy n m event past p]> (s_workers s)) s
  end.

(** One step; [None] if the chosen goroutine is blocked or has nothing to do. *)
Definition step (ch : choice) (s : Sys) : option Sys :=
  match ch with
  | PollerStep oracle =>
      match s_poller s with
      | Polling past (Call c k) =>
          '(x, s', events) ← respond oracle c s;
          Some (poller_next (past ++ [observe c x]) (k x)
            (add_log (Did None (observe c x) :: (Offset <$> events)) s'))
      | _ => None
      end
  | WorkerStep i oracle =>
      match s_workers s !! i with
      | Some (Busy n m event past (Call c k)) =>
          '(x, s', events) ← respond oracle c s;
          Some (worker_next i n m event (past ++ [observe c x]) (k x)
            (add_log (Did (Some n) (observe c x) :: (Offset <$> events)) s'))
      | _ => None
      end
  | Take i =>
      match s_workers s !! i, s_queue s with
      | Some Idle, (m, event) :: rest =>
          Some (add_log [Started (s_next s) m event]
            (set_next (S (s_next s)) (set_queue rest
              (set_workers (<[i := Busy (s_next s) m event [] (run_job m event)]> (s_workers s)) s))))
      | _, _ => None
      end
  | CancelParent => Some (set_parent s)
  end.

(** Executions: a choice that is not enabled changes nothing. *)
Fixpoint exec (schedule : list choice) (s : Sys) : Sys :=
  match schedule with
  | [] => s
  | ch :: rest => exec rest (default s (step ch s))
  end.

(** ** What a log shows of a record *)

(** The calls of job [n]. *)
Definition job_trace (n : nat) (l : list entry) : list (obs ans) :=
  omap (fun e => match e with
                 | Did (Some n') o => if bool_decide (n' = n) then Some o else None
                 | _ => None
                 end) l.

Definition offset_events (l : list entry) : list OffsetTracker.event :=
  omap (fun e => match e with Offset e => Some e | _ => None end) l.

(** A record for the dead-letter topic that names the message's topic, partition and
    offset and carries its payload or its decoded event. *)
Definition letter_for (m : Message) (out : Outgoing) : Prop :=
  exists dead,
    dl_OriginalTopic dead = k_Topic (m_Record m) /\ dl_Partition dead = k_Partition (m_Record m) /\
    dl_Offset dead = k_Offset (m_Record m) /\
    (dl_RawPayload dead = m_Value m \/
     exists event, dl_Event dead = Some event /\ Unmarshal (m_Value m) = Ok event) /\
    Marshal dead = Ok (og_Value out) /\ og_Topic out = dlqTopic.

(** Such a record was accepted by the broker. *)
Definition dead_lettered (l : list entry) (m : Message) : Prop :=
  exists who out, letter_for m out /\ Did who (observe (cProduce out) (Ok tt)) ∈ l.

(** A job for the record ran the processor on its decoded event to success. *)
Definition processed_ok (l : list entry) (m : Message) : Prop :=
  exists n event pre inner outer post result,
    Unmarshal (m_Value m) = Ok event /\ Started n m event ∈ l /\
    job_trace n l = pre ++ outer ++ post /\ embeds cProcess (fun _ x => x) inner outer /\
    runs (Process event) inner (result, None).

(** ** Discipline of the workers *)

Implicit Types (past t : list (obs ans)) (s : Sys) (l : list entry).

Definition is_done (o : obs ans) : bool := match projT1 o with cJobsDone => true | _ => false end.
Definition ended past : bool := existsb is_done past.

(** Calls a job makes outside its acknowledgement. *)
Definition plain (c : call) : Prop :=
  match c with
  | cProcess _ | cNow | cRandom | cSleep _ | cQueueLen | cObserveDepth _ _ | cObserveCompleted _ _ _
  | cObserveRetry _ | cObserveDeadLetter _ | cProduce _ | cFail _ => True
  | _ => False
  end.

(** The calls left once the wait group knows the job is done. *)
Definition tail (c : call) : Prop :=
  match c with cNow | cObserveCompleted _ _ _ => True | _ => False end.

(** A job acknowledges only its own record, once settled; it never touches the poller's
    objects. *)
Definition job_may (m : Message) (event : Event) past (c : call) : Prop :=
  match c with
  | cAck r => r = m_Record m /\ settled pool (job_of m event) past
  | cJobsDone => True
  | c => plain c
  end.

(** It tells the wait group once, and only reports afterwards. *)
Definition job_ends past (c : call) : Prop := ended past = true -> tail c.

Lemma ended_app past t : ended (past ++ t) = ended past || ended t.
Proof. apply existsb_app. Qed.

Lemma ended_made past : Forall (fun o => projT1 o <> cJobsDone) past -> ended past = false.
Proof.
  intros H. apply not_true_iff_false. intros (o & Hin & Ho)%existsb_exists.
  rewrite Forall_forall in H. specialize (H o). rewrite list_elem_of_In in H. specialize (H Hin).
  unfold is_done in Ho. by destruct (projT1 o).
Qed.

Lemma plain_publish dead : calls_only plain (publishDeadLetter dead).
Proof.
  unfold publishDeadLetter. destruct (Marshal dead); [|done]. apply calls_only_bind; [by cbn|].
  intros [u|e]; [|done]. cbn. done.
Qed.

Lemma plain_job m event : plain_pool runtime pool (job_of m event) plain.
Proof.
  split; try by cbn.
  - intros e. apply (calls_only_impl (fun d => exists c, d = cProcess c)); [apply calls_only_embed|].
    by intros c [? ->].
  - by intros o class [= <-].
  - by intros o d n str [= <-].
  - by intros f e [= <-].
  - intros f e err n [= <-]. unfold fail_callback. apply calls_only_bind; [by cbn|]. intros. apply plain_publish.
Qed.

Lemma plain_depth : calls_only plain queue_depth.
Proof. by cbn. Qed.

Lemma job_may_plain m event t c : plain c -> job_may m event t c.
Proof. by destruct c. Qed.

Lemma job_guarantees m event : guarantees (job_may m event) (run_job m event) (fun _ _ => True) [].
Proof.
  unfold run_job, handleJob. apply guarantees_bind.
  eapply guarantees_mono; [by eapply guarantees_calls; [apply plain_depth|apply job_may_plain]|].
  intros _ t1 _ _. apply guarantees_bind. cbn [guarantees runtime rt_now Proc.call]. split; [done|]. intros started.
  apply guarantees_bind. eapply guarantees_mono.
  - eapply (guarantees_body runtime pool (job_of m event) (job_may m event) plain).
    + apply job_may_plain.
    + apply plain_job.
    + reflexivity.
    + intros past Hs. cbn. by split.
  - intros [outcome attempts] t2 _ _. cbn. repeat (split || intros); done.
Qed.

(** The body of a job never tells the wait group. *)
Definition busy (c : call) : Prop := c <> cJobsDone.

Lemma plain_busy c : plain c -> busy c.
Proof. by intros H ->. Qed.

Lemma busy_body m event : calls_only busy (handle_body runtime pool (job_of m event)).
Proof.
  assert (forall A (p : P A), calls_only plain p -> calls_only busy p) as Hp
    by (intros A p H; by eapply calls_only_impl; [exact H|apply plain_busy]).
  assert (calls_only busy (ack (job_of m event))) as Hack.
  { cbn. split; [done|]. intros [u|e]; cbn; [done|]. split; [done|]. intros _. done. }
  unfold handle_body, processWithRetry. apply calls_only_bind.
  - apply Hp, (plain_loop _ _ (job_of m event)), plain_job.
  - intros [[r n] [err|]]; (apply calls_only_bind; [|done]); [|exact Hack].
    unfold route_failure. cbn [job_of job_Failure]. apply calls_only_bind.
    + apply calls_only_bind; [apply Hp, (pp_failure _ _ (job_of m event) _ (plain_job m event)); done|].
      intros [u|fe]; [|done]. apply calls_only_bind; [exact Hack|]. by intros [].
    + intros [[[] o] e]; [done|]. cbn. split; [done|]. intros _. done.
Qed.

Lemma job_ends_guarantees m event : guarantees job_ends (run_job m event) (fun _ t => ended t = true) [].
Proof.
  assert (forall A (p : P A) past, calls_only busy p -> ended past = false ->
    guarantees job_ends p (fun _ t => ended t = false) past) as Hbusy.
  { intros A p past Hp Hpast. eapply guarantees_mono; [eapply guarantees_made; [exact Hp|]|].
    - intros t c Ht _. unfold job_ends. rewrite ended_app, Hpast, (ended_made t Ht). done.
    - intros a t (t' & E & _ & Ht) _. apply app_inv_head in E as ->. by rewrite ended_app, Hpast, (ended_made t' Ht). }
  unfold run_job, handleJob. apply guarantees_bind. eapply guarantees_mono.
  { apply Hbusy; [|done]. eapply calls_only_impl; [apply plain_depth|apply plain_busy]. }
  intros ? t1 H1 _. apply guarantees_bind. eapply guarantees_mono.
  { apply Hbusy; [by cbn|exact H1]. }
  intros started t2 H2 _. apply guarantees_bind. eapply guarantees_mono; [apply Hbusy; [apply busy_body|exact H2]|].
  intros [outcome attempts] t3 H3 _. cbn [finish job_of job_Done]. apply guarantees_bind. split.
  - unfold job_ends. intros E. cbv beta in H3. by rewrite E in H3.
  - intros []. repeat (split; [by unfold job_ends|]; intros ?). cbn.
    rewrite !existsb_app. cbn. by rewrite !orb_true_r.
Qed.

(** ** Discipline of the poller *)

(** Wait-group counts the poller has added and not yet passed on to a queued job. *)
Definition owe (n : Z) (o : obs ans) : Z :=
  let 'existT c x := o in
  match c return ans c -> Z with
  | cJobsAdd => fun _ => n + 1
  | cJobsDone => fun _ => n - 1
  | cSubmit _ _ => fun x => match x with Ok _ => n - 1 | Err _ => n end
  | _ => fun _ => n
  end x.
Definition owed past : Z := foldl owe 0 past.

(** No job was submitted since the last wait. *)
Definition settle (b : bool) (o : obs ans) : bool :=
  let 'existT c x := o in
  match c return ans c -> bool with
  | cSubmit _ _ => fun x => match x with Ok _ => false | Err _ => b end
  | cJobsWait => fun _ => true
  | _ => fun _ => b
  end x.
Definition quiet past : bool := foldl settle true past.

Definition poller_may past (c : call) : Prop :=
  match c with
  | cAck r => exists m out, m_Record m = r /\ letter_for m out /\ observe (cProduce out) (Ok tt) ∈ past
  | cSubmit m event => Unmarshal (m_Value m) = Ok event
  | cJobsWait => owed past = 0
  | cAllowRebalance => quiet past = true
  | _ => True
  end.

Lemma owed_snoc past o : owed (past ++ [o]) = owe (owed past) o.
Proof. unfold owed. by rewrite foldl_app. Qed.

Lemma quiet_snoc past o : quiet (past ++ [o]) = settle (quiet past) o.
Proof. unfold quiet. by rewrite foldl_app. Qed.

Lemma elem_of_observed past (o : obs ans) : o ∈ past ++ [o].
Proof. apply elem_of_app. right. by left. Qed.

Ltac ret := cbn [guarantees mret proc_mret].
Ltac ask := apply guarantees_bind; split; [try done|intros ?; ret].

(** Publishing leaves the accounts alone and, on success, leaves its evidence. *)
Lemma guarantees_publish dead past :
  guarantees poller_may (publishDeadLetter dead)
    (fun r t => owed t = owed past /\
       (r = Ok tt -> exists out, Marshal dead = Ok (og_Value out) /\ og_Topic out = dlqTopic /\
          observe (cProduce out) (Ok tt) ∈ t)) past.
Proof.
  unfold publishDeadLetter. destruct (Marshal dead) as [payload|e]; [|by cbn]. ask. destruct x as [[]|e].
  - ask. split; [by rewrite !owed_snoc|]. intros _. eexists (mkOutgoing _ _ payload _).
    split; [done|]. split; [done|]. apply elem_of_app. left. apply elem_of_observed.
  - ret. split; [by rewrite !owed_snoc|done].
Qed.

Lemma guarantees_divert m e past :
  guarantees poller_may (divert m e) (fun _ t => owed t = owed past) past.
Proof.
  unfold divert. ask. apply guarantees_bind. eapply guarantees_mono; [apply guarantees_publish|].
  intros [u|err] t [Ho Hsent] _; [|ret; rewrite Ho; by rewrite owed_snoc].
  destruct u. destruct (Hsent eq_refl) as (out & Hm & Ht & Hin). apply guarantees_bind. split.
  - exists m, out. split; [done|]. split; [|done]. exists (malformed_letter m e x). cbn. eauto 10.
  - intros [u|err]; ret; rewrite owed_snoc, Ho, owed_snoc; done.
Qed.

Lemma guarantees_fatal e past : guarantees poller_may (fatalOrContext e) (fun _ t => owed t = owed past) past.
Proof.
  unfold fatalOrContext. ask. destruct x as [err|]; ret; [by rewrite owed_snoc|]. ask.
  destruct x as [err|]; ret; by rewrite !owed_snoc.
Qed.

Lemma guarantees_dispatch total m event past :
  Unmarshal (m_Value m) = Ok event ->
  guarantees poller_may (dispatch total m event) (fun _ t => owed t = owed past) past.
Proof.
  intros Hm. unfold dispatch. ask. apply guarantees_bind. unfold Submit. ask. destruct x0 as [u|err].
  - apply guarantees_bind. unfold queue_depth. ask. split; [done|]. intros ?. ret. ask. rewrite !owed_snoc. cbn [owe observe]. lia.
  - ask. apply guarantees_bind. eapply guarantees_mono; [apply guarantees_fatal|]. intros r t Ho _. ret.
    rewrite Ho, !owed_snoc. cbn [owe observe]. lia.
Qed.

Lemma guarantees_loop total records past :
  owed past = 0 -> guarantees poller_may (batch_loop total records) (fun _ t => owed t = 0) past.
Proof.
  revert past. induction records as [|m rest IH]; intros past Ho; cbn [batch_loop]; [done|].
  ask. destruct x as [e|].
  { eapply guarantees_mono; [apply guarantees_fatal|]. intros r t -> _. by rewrite owed_snoc. }
  ask. destruct x as [u|e]; [|by ret; rewrite !owed_snoc].
  destruct (Unmarshal (m_Value m)) as [event|e] eqn:Hm; apply guarantees_bind.
  - eapply guarantees_mono; [by apply guarantees_dispatch|]. intros [r|] t Ht _; cbv beta in Ht.
    + ret. rewrite Ht. by rewrite !owed_snoc.
    + apply IH. rewrite Ht. by rewrite !owed_snoc.
  - eapply guarantees_mono; [apply guarantees_divert|]. intros [r|] t Ht _; cbv beta in Ht.
    + ret. rewrite Ht. by rewrite !owed_snoc.
    + apply IH. rewrite Ht. by rewrite !owed_snoc.
Qed.

(** An iteration waits for its jobs before it lets the group rebalance, and ends with
    nothing owed. *)
Lemma iteration_guarantees :
  guarantees poller_may run_iteration (fun _ t => owed t = 0 /\ quiet t = true) [].
Proof.
  unfold run_iteration. ask. destruct x as [[|m records] errs].
  - ask. destruct x as [e|].
    + apply guarantees_bind. cbn. split; [done|]. intros [err|]; [done|]. cbn. split; [done|]. by intros [].
    + by destruct errs.
  - apply guarantees_bind. destruct errs as [|e errs].
    + unfold processBatch. apply guarantees_bind. eapply guarantees_mono; [by apply guarantees_loop|].
      intros r t Ho _. cbv beta in Ho. apply guarantees_bind. split; [done|]. intros []. ret. ask.
      * unfold poller_may. by rewrite quiet_snoc.
      * rewrite !owed_snoc, !quiet_snoc. by split.
    + cbn. split; [done|]. done.
Qed.

(** ** What a call changes *)

(** The job a successful submission adds to the queue. *)
Definition submit_of (o : obs ans) : option (Message * Event) :=
  let 'existT c x := o in
  match c return ans c -> option (Message * Event) with
  | cSubmit m event => fun x => match x with Ok _ => Some (m, event) | Err _ => None end
  | _ => fun _ => None
  end x.

Definition count_of (c : call) : Z :=
  match c with cJobsAdd => 1 | cJobsDone => -1 | _ => 0 end.

Record answered (c : call) (x : ans c) (s s' : Sys) (events : list OffsetTracker.event) : Prop := {
  an_workers : s_workers s' = s_workers s;
  an_poller : s_poller s' = s_poller s;
  an_next : s_next s' = s_next s;
  an_log : s_log s' = s_log s;
  an_queue : s_queue s' = s_queue s ++ option_list (submit_of (observe c x));
  an_count : s_outstanding s' = s_outstanding s + count_of c;
  an_wait : c = cJobsWait -> s_outstanding s = 0;
  an_good h : good h (s_coord s) -> good (h ++ events) (s_coord s');
  an_acked r : Acked r ∈ events -> c = cAck r;
}.

Lemma perform_ack_state broker record c :
  (perform (DoAck record broker) c).2 = (Ack broker record c).2.
Proof. unfold perform. by destruct (Ack broker record c) as [[? ?] ?]. Qed.

Lemma perform_acked broker r r' c : Acked r' ∈ (perform (DoAck (Some r) broker) c).1 -> r' = r.
Proof.
  unfold perform. destruct (Ack broker (Some r) c) as [[? commit] ?]. cbn [fst].
  destruct (mark_done _ _); [|by intros []%not_elem_of_nil].
  intros [[= ->]|H]%elem_of_cons; [done|]. destruct commit; [|by apply not_elem_of_nil in H].
  by apply list_elem_of_singleton in H.
Qed.

Lemma perform_no_ack record r' c : ~ Acked r' ∈ (perform (DoRegister record) c).1.
Proof.
  unfold perform. destruct record as [r|]; [|apply not_elem_of_nil]. cbn [fst].
  destruct (_ <? _)%nat; [by intros ?%list_elem_of_singleton|apply not_elem_of_nil].
Qed.

Ltac unchanged :=
  split; try done; try (by cbn; rewrite ?app_nil_r); try (by cbn; lia);
  try (by intros h; rewrite app_nil_r); try (by intros r' []%not_elem_of_nil).

Lemma respond_answered oracle c s x s' events :
  respond oracle c s = Some (x, s', events) -> answered c x s s' events.
Proof.
  destruct c; cbn [respond]; intros H; try (injection H as <- <- <-; by unchanged).
  - (* cRegister *) injection H as <- <- <-. unchanged; [by intros h Hh; apply (perform_good h _ (DoRegister (Some r)))|].
    intros r' Hr. destruct (perform_no_ack (Some r) r' (s_coord s) Hr).
  - (* cAck *) injection H as <- <- <-. unchanged.
    + intros h Hh. pose proof (perform_good h _ (DoAck (Some r) (fun _ => oracle (cAck r))) Hh) as Hg.
      by rewrite perform_ack_state in Hg.
    + intros r' Hr. by rewrite (perform_acked (fun _ => oracle (cAck r)) r r' (s_coord s) Hr).
  - (* cFail *) injection H as <- <- <-. by destruct (s_fatal s); unchanged.
  - (* cSubmit *) destruct (oracle (cSubmit m event)).
    + destruct (_ <? _); [|done]. injection H as <- <- <-. by unchanged.
    + destruct (_ || _); [|done]. injection H as <- <- <-. by unchanged.
  - (* cJobsWait *) destruct (s_outstanding s =? 0) eqn:E; [|done]. injection H as <- <- <-.
    apply Z.eqb_eq in E. by unchanged.
Qed.

(** ** The log *)

Definition submitted l : list (Message * Event) :=
  omap (fun e => match e with Did None o => submit_of o | _ => None end) l.

Definition started l : list (Message * Event) :=
  omap (fun e => match e with Started _ m event => Some (m, event) | _ => None end) l.

(** The entries of one call. *)
Definition entries (who : option nat) (o : obs ans) (events : list OffsetTracker.event) : list entry :=
  Did who o :: (Offset <$> events).

Lemma split_snoc {A} (l d l1 l2 : list A) e :
  l ++ d = l1 ++ e :: l2 ->
  (exists k, l = l1 ++ e :: k /\ l2 = k ++ d) \/ exists k, l1 = l ++ k /\ d = k ++ e :: l2.
Proof.
  intros [(k & -> & Hk)|(k & -> & ->)]%app_eq_inv; [|right; eauto].
  destruct k as [|e' k]; cbn in Hk; [|injection Hk as -> ->; by left; exists k].
  right. exists []. by rewrite !app_nil_r.
Qed.

Lemma omap_none {A B} (f : A -> option B) (l : list A) : (forall x, x ∈ l -> f x = None) -> omap f l = [].
Proof.
  induction l as [|x l IH]; intros H; [done|]. cbn. rewrite (H x) by set_solver. apply IH. set_solver.
Qed.

Lemma job_trace_app n l l' : job_trace n (l ++ l') = job_trace n l ++ job_trace n l'.
Proof. apply omap_app. Qed.

Lemma job_trace_entries n who o events :
  job_trace n (entries who o events) = if decide (who = Some n) then [o] else [].
Proof.
  unfold job_trace, entries. cbn. rewrite omap_none by (by intros x (e & -> & _)%list_elem_of_fmap).
  destruct who as [n'|]; [|done]. destruct (decide (n' = n)) as [->|E].
  - by rewrite bool_decide_eq_true_2, decide_True.
  - rewrite bool_decide_eq_false_2, decide_False by congruence. done.
Qed.

Lemma job_trace_log n l o : o ∈ job_trace n l -> Did (Some n) o ∈ l.
Proof.
  intros (e & Hin & He)%list_elem_of_omap. destruct e as [[n'|] o'| |]; try done.
  case_bool_decide; [|done]. by simplify_eq.
Qed.

Lemma offset_events_app l l' : offset_events (l ++ l') = offset_events l ++ offset_events l'.
Proof. apply omap_app. Qed.

Lemma offset_events_entries who o events : offset_events (entries who o events) = events.
Proof. unfold offset_events, entries. cbn. induction events; cbn; by f_equal. Qed.

Lemma submitted_app l l' : submitted (l ++ l') = submitted l ++ submitted l'.
Proof. apply omap_app. Qed.

Lemma submitted_entries who o events :
  submitted (entries who o events) = match who with None => option_list (submit_of o) | Some _ => [] end.
Proof.
  unfold submitted, entries. cbn. rewrite omap_none by (by intros x (e & -> & _)%list_elem_of_fmap).
  destruct who; [done|]. by destruct (submit_of o).
Qed.

Lemma started_app l l' : started (l ++ l') = started l ++ started l'.
Proof. apply omap_app. Qed.

Lemma started_entries who o events : started (entries who o events) = [].
Proof. apply omap_none. intros x [->|(e & -> & _)%list_elem_of_fmap]%elem_of_cons; done. Qed.

Lemma no_start_entries n m event who o events : Started n m event ∉ entries who o events.
Proof. unfold entries. intros [?|(e & ? & _)%list_elem_of_fmap]%elem_of_cons; done. Qed.

(** A record taken care of stays taken care of. *)
Definition handled l (m : Message) : Prop := dead_lettered l m \/ processed_ok l m.

Lemma handled_more l l' m : handled l m -> handled (l ++ l') m.
Proof.
  intros [(who & out & Hl & Hin)|(n & event & pre & inner & outer & post & r & Hu & Hs & Ht & He & Hr)].
  - left. exists who, out. split; [done|]. apply elem_of_app. by left.
  - right. exists n, event, pre, inner, outer, (post ++ job_trace n l'), r. split; [done|].
    split; [apply elem_of_app; by left|]. split; [|done]. by rewrite job_trace_app, Ht, <- !app_assoc.
Qed.

(** ** The invariant *)

Definition active (w : wstate) : Z :=
  match w with
  | Busy _ _ _ past _ => if ended past then 0 else 1
  | Idle => 0
  end.

Record worker_ok s (n : nat) (m : Message) (event : Event) past (p : P unit) : Prop := {
  wo_next : (n < s_next s)%nat;
  wo_started : Started n m event ∈ s_log s;
  wo_decoded : Unmarshal (m_Value m) = Ok event;
  wo_trace : job_trace n (s_log s) = past;
  wo_may : guarantees (job_may m event) p (fun _ _ => True) past;
  wo_ends : guarantees job_ends p (fun _ t => ended t = true) past;
}.

(** Counts of the wait group: jobs in the queue, jobs not ended, and what the poller owes. *)
Definition in_flight s : Z := zlen (s_queue s) + sumZ (active <$> s_workers s).

Definition poller_ok s : Prop :=
  match s_poller s with
  | Polling past p =>
      guarantees poller_may p (fun _ t => owed t = 0 /\ quiet t = true) past /\
      (forall o, o ∈ past -> Did None o ∈ s_log s) /\
      s_outstanding s = in_flight s + owed past /\
      (quiet past = true -> in_flight s = 0)
  | Stopped _ => s_outstanding s = in_flight s
  end.

(** Every started job has ended in [l]. *)
Definition all_ended l : Prop := forall n m event, Started n m event ∈ l -> ended (job_trace n l) = true.

Record inv s : Prop := {
  i_offsets : good (offset_events (s_log s)) (s_coord s);
  i_acked l1 r l2 : s_log s = l1 ++ Offset (Acked r) :: l2 -> exists m, m_Record m = r /\ handled l1 m;
  i_queue : Forall (fun me => Unmarshal (m_Value me.1) = Ok me.2) (s_queue s);
  i_worker i n m event past p :
    s_workers s !! i = Some (Busy n m event past p) -> worker_ok s n m event past p;
  i_alone i j n m event past p m' event' past' p' :
    s_workers s !! i = Some (Busy n m event past p) -> s_workers s !! j = Some (Busy n m' event' past' p') -> i = j;
  i_fresh n : (s_next s <= n)%nat -> job_trace n (s_log s) = [] /\ forall m event, Started n m event ∉ s_log s;
  i_live n m event : Started n m event ∈ s_log s ->
    ended (job_trace n (s_log s)) = true \/ exists i past p, s_workers s !! i = Some (Busy n m event past p);
  i_tail n pre x post : job_trace n (s_log s) = pre ++ observe cJobsDone x :: post ->
    Forall (fun o => tail (projT1 o)) post;
  i_poller : poller_ok s;
  i_fifo : submitted (s_log s) = started (s_log s) ++ s_queue s;
  i_rebalance l1 x l2 : s_log s = l1 ++ Did None (observe cAllowRebalance x) :: l2 ->
    submitted l1 = started l1 /\ all_ended l1;
}.

(** ** Evidence at an acknowledgement *)

Lemma runs_publish dead t :
  runs (publishDeadLetter dead) t (Ok tt) ->
  exists out, Marshal dead = Ok (og_Value out) /\ og_Topic out = dlqTopic /\ observe (cProduce out) (Ok tt) ∈ t.
Proof.
  intros Hr. destruct (guarantees_runs _ _ _ [] _ _ (guarantees_publish dead []) Hr) as [_ Hev].
  destruct (Hev eq_refl) as (out & ?). by exists out.
Qed.

Lemma worker_handled s n m event past p :
  worker_ok s n m event past p -> settled pool (job_of m event) past -> handled (s_log s) m.
Proof.
  intros [_ Hs Hu Ht _ _] [(pre & t & post & r & -> & Hr)|(pre & t & post & f & err & k & -> & [= <-] & Hr)].
  - right. apply runs_embed in Hr as (inner & He & Hr). by exists n, event, pre, inner, t, post, r.
  - left. apply runs_bind in Hr as (now & t1 & t2 & -> & _ & Hr).
    apply runs_publish in Hr as (out & Hm & Htopic & Hin). exists (Some n), out. split.
    + exists (failed_letter m event err k now). do 3 (split; [done|]). split; [right; by exists event|done].
    + apply job_trace_log. rewrite Ht. set_solver.
Qed.

Lemma acked_step s who c x s' events :
  inv s -> answered c x s s' events -> (forall r, c = cAck r -> exists m, m_Record m = r /\ handled (s_log s) m) ->
  forall l1 r l2, s_log s ++ entries who (observe c x) events = l1 ++ Offset (Acked r) :: l2 ->
  exists m, m_Record m = r /\ handled l1 m.
Proof.
  intros I A Hack l1 r l2 [(k & Hk & _)|(k & -> & Hk)]%split_snoc; [by eapply i_acked|].
  destruct (Hack r) as (m & Hm & Hh); [|exists m; split; [done|by apply handled_more]].
  apply (an_acked _ _ _ _ _ A). rewrite <- (offset_events_entries who (observe c x) events), Hk, offset_events_app.
  apply elem_of_app. right. by left.
Qed.

Lemma rebalance_step s who c x s' events :
  inv s -> answered c x s s' events ->
  (who = None -> c = cAllowRebalance -> submitted (s_log s) = started (s_log s) /\ all_ended (s_log s)) ->
  forall l1 y l2, s_log s ++ entries who (observe c x) events = l1 ++ Did None (observe cAllowRebalance y) :: l2 ->
  submitted l1 = started l1 /\ all_ended l1.
Proof.
  intros I A Hre l1 y l2 [(k & Hk & _)|(k & -> & Hk)]%split_snoc; [by eapply i_rebalance|].
  destruct k as [|e k].
  - injection Hk as -> Hc. rewrite app_nil_r. by apply Hre.
  - injection Hk as _ Hk. assert (Did None (observe cAllowRebalance y) ∈ Offset <$> events) as Hin
      by (rewrite Hk; apply elem_of_app; right; by left).
    by apply list_elem_of_fmap in Hin as (? & ? & _).
Qed.

(** ** Counting *)

Lemma sumZ_insert (ws : list wstate) i w w' :
  ws !! i = Some w ->
  sumZ (active <$> <[i := w']> ws) = sumZ (active <$> ws) - active w + active w'.
Proof.
  revert i. induction ws as [|v ws IH]; intros [|i] H; try done.
  - injection H as ->. change (<[0%nat := w']> (w :: ws)) with (w' :: ws). rewrite !fmap_cons, !sumZ_cons. lia.
  - change (<[S i := w']> (v :: ws)) with (v :: <[i := w']> ws). rewrite !fmap_cons, !sumZ_cons, (IH i H). lia.
Qed.

Lemma active_nonneg w : 0 <= active w.
Proof. destruct w; cbn; [lia|]. destruct (ended past); lia. Qed.

Lemma sumZ_active_nonneg ws : 0 <= sumZ (active <$> ws).
Proof.
  induction ws as [|w ws IH]; [done|]. rewrite fmap_cons, sumZ_cons. pose proof (active_nonneg w). lia.
Qed.

Lemma sumZ_active_zero ws i w : sumZ (active <$> ws) = 0 -> ws !! i = Some w -> active w = 0.
Proof.
  revert i. induction ws as [|v ws IH]; intros i H; [done|].
  rewrite fmap_cons, sumZ_cons in H.
  pose proof (active_nonneg v). pose proof (sumZ_active_nonneg ws).
  destruct i as [|i]; cbn; [intros [= ->]; lia|]. apply IH. lia.
Qed.

Lemma sumZ_idle ws : Forall (fun w => active w = 0) ws -> sumZ (active <$> ws) = 0.
Proof. induction 1 as [|w ws Hw _ IH]; [done|]. rewrite fmap_cons, sumZ_cons. lia. Qed.

Lemma in_flight_zero s : in_flight s = 0 -> s_queue s = [] /\ forall i w, s_workers s !! i = Some w -> active w = 0.
Proof.
  unfold in_flight. intros H. pose proof (zlen_nonneg (s_queue s)). pose proof (sumZ_active_nonneg (s_workers s)).
  split; [apply zlen_zero; lia|]. intros i w. apply sumZ_active_zero. lia.
Qed.

Lemma owe_spec n c (x : ans c) :
  owe n (observe c x) = n + count_of c - zlen (option_list (submit_of (observe c x))).
Proof. unfold zlen. destruct c; cbn in *; try lia. destruct x; cbn; lia. Qed.

Lemma settle_spec b c (x : ans c) :
  settle b (observe c x) = true -> c = cJobsWait \/ (b = true /\ submit_of (observe c x) = None).
Proof. destruct c; cbn in *; auto. by destruct x; auto. Qed.

Lemma quiet_all_ended s : inv s -> in_flight s = 0 -> submitted (s_log s) = started (s_log s) /\ all_ended (s_log s).
Proof.
  intros I [Hq Hw]%in_flight_zero. split; [by rewrite (i_fifo s I), Hq, app_nil_r|].
  intros n m event Hin. destruct (i_live s I _ _ _ Hin) as [?|(i & past & p & Hi)]; [done|].
  specialize (Hw _ _ Hi). cbn in Hw. rewrite (wo_trace _ _ _ _ _ _ (i_worker s I _ _ _ _ _ _ Hi)).
  by destruct (ended past).
Qed.

(** ** Steps of a worker *)

Lemma worker_ok_more s s' n m event past p l :
  worker_ok s n m event past p -> (s_next s <= s_next s')%nat -> s_log s' = s_log s ++ l -> job_trace n l = [] ->
  worker_ok s' n m event past p.
Proof.
  intros [W1 W2 W3 W4 W5 W6] Hn Hl Ht. split; [lia| |done| |done|done]; rewrite Hl.
  - apply elem_of_app. by left.
  - by rewrite job_trace_app, Ht, app_nil_r.
Qed.

Section worker_step.
Variables (s : Sys) (i n : nat) (m : Message) (event : Event) (past : list (obs ans)).
Variables (c : call) (k : ans c -> P unit) (x : ans c) (s' : Sys) (events : list OffsetTracker.event).
Hypothesis I : inv s.
Hypothesis Hi : s_workers s !! i = Some (Busy n m event past (Call c k)).
Hypothesis A : answered c x s s' events.

Let o := observe c x.
Let log' := s_log s ++ entries (Some n) o events.
Let s1 := worker_next i n m event (past ++ [o]) (k x) (add_log (entries (Some n) o events) s').

(** The worker's next state. *)
Definition next_worker : wstate :=
  match k x with Return _ => Idle | Call _ _ => Busy n m event (past ++ [o]) (k x) end.

Lemma step_fields :
  s_coord s1 = s_coord s' /\ s_queue s1 = s_queue s' /\ s_next s1 = s_next s /\ s_log s1 = log' /\
  s_poller s1 = s_poller s /\ s_outstanding s1 = s_outstanding s' /\
  s_workers s1 = <[i := next_worker]> (s_workers s).
Proof.
  destruct A as [Aw Ap An Al Aq Ac Awt Ag Aa].
  unfold s1, worker_next, next_worker, log'. rewrite <- Al. destruct (k x); cbn; rewrite ?Aw; done.
Qed.

Lemma step_ok : worker_ok s n m event past (Call c k).
Proof. by apply (i_worker s I i). Qed.

Lemma step_no_submit : submit_of o = None.
Proof. destruct (wo_may _ _ _ _ _ _ step_ok) as [H _]. unfold o. by destruct c. Qed.

Lemma step_count : count_of c <= 0.
Proof. destruct (wo_may _ _ _ _ _ _ step_ok) as [H _]. by destruct c. Qed.

Lemma step_queue : s_queue s' = s_queue s.
Proof. rewrite (an_queue _ _ _ _ _ A). fold o. by rewrite step_no_submit, app_nil_r. Qed.

Lemma step_trace n' : job_trace n' log' = job_trace n' (s_log s) ++ (if decide (n = n') then [o] else []).
Proof.
  unfold log'. rewrite job_trace_app, job_trace_entries.
  destruct (decide (n = n')); [rewrite decide_True|rewrite decide_False]; congruence.
Qed.

Lemma step_own_trace : job_trace n log' = past ++ [o].
Proof. by rewrite step_trace, decide_True, (wo_trace _ _ _ _ _ _ step_ok). Qed.

Lemma step_idle_ended : next_worker = Idle -> ended (past ++ [o]) = true.
Proof.
  unfold next_worker. intros H. destruct (wo_ends _ _ _ _ _ _ step_ok) as [_ Hk]. specialize (Hk x).
  by destruct (k x).
Qed.

Lemma step_active : active next_worker = active (Busy n m event past (Call c k)) + count_of c.
Proof.
  assert (active next_worker = if ended (past ++ [o]) then 0 else 1) as ->.
  { pose proof step_idle_ended as H. unfold next_worker in *. destruct (k x); [by rewrite H|done]. }
  destruct (wo_may _ _ _ _ _ _ step_ok) as [Hm _]. destruct (wo_ends _ _ _ _ _ _ step_ok) as [He _].
  cbn [active]. rewrite ended_app. unfold job_ends in He. unfold o.
  destruct (ended past); [specialize (He eq_refl)|]; by destruct c.
Qed.

Lemma step_in_flight : in_flight s1 = in_flight s + count_of c.
Proof.
  destruct step_fields as (_ & Hq & _ & _ & _ & _ & Hw). unfold in_flight.
  rewrite Hq, Hw, step_queue, (sumZ_insert _ _ _ _ Hi), step_active. lia.
Qed.

Lemma step_tail n' pre y post :
  job_trace n' log' = pre ++ observe cJobsDone y :: post -> Forall (fun o => tail (projT1 o)) post.
Proof.
  rewrite step_trace. destruct (decide (n = n')) as [<-|]; [|rewrite app_nil_r; by apply i_tail].
  rewrite (wo_trace _ _ _ _ _ _ step_ok). intros [(t & Hp & ->)|(t & -> & Ht)]%split_snoc.
  - apply Forall_app. split; [apply (i_tail s I n pre y); by rewrite (wo_trace _ _ _ _ _ _ step_ok)|].
    constructor; [|constructor]. destruct (wo_ends _ _ _ _ _ _ step_ok) as [He _]. apply He. rewrite Hp, ended_app.
    cbn. by rewrite orb_true_r.
  - destruct t as [|? [|]]; [|done..]. apply (f_equal List.tl) in Ht. cbn in Ht. by rewrite <- Ht.
Qed.

Lemma step_poller : poller_ok s1.
Proof.
  pose proof (i_poller s I) as Hp. unfold poller_ok in *.
  destruct step_fields as (_ & _ & _ & Hl & -> & -> & Hw). rewrite (an_count _ _ _ _ _ A), step_in_flight.
  destruct (s_poller s) as [pp q|]; [|lia]. destruct Hp as (Hg & Hlog & Ho & Hq). split; [done|]. split.
  { intros o' Ho'. rewrite Hl. apply elem_of_app. left. auto. }
  split; [lia|]. intros Hquiet. specialize (Hq Hquiet).
  pose proof (proj2 (in_flight_zero s Hq) _ _ Hi) as Ha. pose proof step_active as Hs. rewrite Ha in Hs.
  pose proof (active_nonneg next_worker). pose proof step_count. lia.
Qed.

Lemma worker_step_inv : inv s1.
Proof.
  destruct step_fields as (Hc & Hq & Hn & Hl & _ & _ & Hw).
  pose proof step_own_trace as Htr. pose proof step_idle_ended as Hidle. pose proof step_trace as Htrace.
  pose proof step_ok as W. pose proof (wo_next _ _ _ _ _ _ W) as Hnext. split; rewrite ?Hl, ?Hw, ?Hn, ?Hq, ?step_queue.
  - rewrite Hc. unfold log'. rewrite offset_events_app, offset_events_entries. apply (an_good _ _ _ _ _ A), I.
  - apply (acked_step s (Some n) c x s' events I A). intros r Hr. destruct (wo_may _ _ _ _ _ _ W) as [Hm _]. rewrite Hr in Hm. destruct Hm as [-> Hs].
    exists m. split; [done|]. by eapply worker_handled.
  - apply I.
  - intros j n' m' event' past' p' [(-> & Hj & _)|[Hne Hj]]%list_lookup_insert_Some.
    + unfold next_worker in Hj. destruct (k x) eqn:E; [done|]. injection Hj as <- <- <- <- <-. split.
      * lia.
      * rewrite Hl. apply elem_of_app. left. apply W.
      * apply W.
      * by rewrite Hl.
      * destruct (wo_may _ _ _ _ _ _ W) as [_ Hk]. rewrite <- E. apply Hk.
      * destruct (wo_ends _ _ _ _ _ _ W) as [_ Hk]. rewrite <- E. apply Hk.
    + eapply (worker_ok_more s s1); [by eapply i_worker|by rewrite Hn|exact Hl|].
      rewrite job_trace_entries, decide_False; [done|]. intros [= ->]. by apply Hne, (i_alone s I i j _ _ _ _ _ _ _ _ _ Hi Hj).
  - assert (forall j n' m' event' past' p', <[i := next_worker]> (s_workers s) !! j = Some (Busy n' m' event' past' p') ->
      exists m2 e2 past2 p2, s_workers s !! j = Some (Busy n' m2 e2 past2 p2)) as Hold.
    { intros j n' m' event' past' p' [(-> & Hj & _)|[_ Hj]]%list_lookup_insert_Some; [|by do 4 eexists].
      unfold next_worker in Hj. destruct (k x); [done|]. injection Hj as <- <- <- <- <-. by do 4 eexists. }
    intros j1 j2 n' m1 e1 past1 p1 m2 e2 past2 p2 (? & ? & ? & ? & H1)%Hold (? & ? & ? & ? & H2)%Hold.
    by eapply (i_alone s I).
  - intros n' Hn'. destruct (i_fresh s I n' Hn') as [Ht Hs]. rewrite Htrace, decide_False, Ht by lia.
    split; [done|]. intros m' event' [?|?]%elem_of_app; [by eapply Hs|by eapply no_start_entries].
  - intros n' m' event' [Hin|?]%elem_of_app; [|exfalso; by eapply no_start_entries].
    destruct (i_live s I _ _ _ Hin) as [He|(j & past' & p' & Hj)].
    + left. rewrite Htrace, ended_app, He. done.
    + destruct (decide (j = i)) as [->|Hne].
      * rewrite Hj in Hi. injection Hi as -> -> -> -> ->. destruct next_worker eqn:E.
        -- left. rewrite Htr. by apply Hidle.
        -- right. unfold next_worker in E. destruct (k x) eqn:E'; [done|]. injection E as <- <- <- <- <-.
           exists i. do 2 eexists. apply list_lookup_insert_eq. by eapply lookup_lt_Some.
      * right. exists j, past', p'. by rewrite list_lookup_insert_ne.
  - intros. by eapply step_tail.
  - apply step_poller.
  - unfold log'. rewrite submitted_app, started_app, submitted_entries, started_entries, !app_nil_r. apply I.
  - by apply (rebalance_step s (Some n) c x s' events I A).
Qed.

End worker_step.

(** ** Steps of the poller *)

Section poller_step.
Variables (s : Sys) (past : list (obs ans)) (c : call) (k : ans c -> P (option (option error))) (x : ans c).
Variables (s' : Sys) (events : list OffsetTracker.event).
Hypothesis I : inv s.
Hypothesis Hp : s_poller s = Polling past (Call c k).
Hypothesis A : answered c x s s' events.

Let o := observe c x.
Let log' := s_log s ++ entries None o events.
Let s0 := add_log (entries None o events) s'.
Let s1 := poller_next (past ++ [o]) (k x) s0.

Lemma polled_fields :
  s_coord s1 = s_coord s' /\ s_queue s1 = s_queue s ++ option_list (submit_of o) /\ s_next s1 = s_next s /\
  s_log s1 = log' /\ s_outstanding s1 = s_outstanding s + count_of c /\ s_workers s1 = s_workers s.
Proof.
  destruct A as [Aw Ap An Al Aq Ac Awt Ag Aa]. unfold s1, s0, poller_next, log', o.
  destruct (k x) as [[r|]|]; cbn; rewrite ?Al, ?Aq, ?Ac, ?Aw; done.
Qed.

Lemma polled_ok :
  guarantees poller_may (Call c k) (fun _ t => owed t = 0 /\ quiet t = true) past /\
  (forall o, o ∈ past -> Did None o ∈ s_log s) /\ s_outstanding s = in_flight s + owed past /\
  (quiet past = true -> in_flight s = 0).
Proof. pose proof (i_poller s I) as H. unfold poller_ok in H. by rewrite Hp in H. Qed.

Lemma polled_handled r : c = cAck r -> exists m, m_Record m = r /\ handled (s_log s) m.
Proof.
  intros Hc. destruct polled_ok as ([Hm _] & Hlog & _). rewrite Hc in Hm. destruct Hm as (m & out & <- & Hl & Hin).
  exists m. split; [done|]. left. exists None, out. auto.
Qed.

Lemma polled_counts :
  s_outstanding s1 = in_flight s1 + owed (past ++ [o]) /\ (quiet (past ++ [o]) = true -> in_flight s1 = 0).
Proof.
  destruct polled_ok as ([Hm _] & _ & Ho & Hq). destruct polled_fields as (_ & Hqu & _ & _ & Hout & Hw).
  unfold in_flight in *. rewrite Hqu, Hout, Hw, zlen_app, owed_snoc, quiet_snoc. unfold o at 2 3.
  rewrite owe_spec. fold o. split; [lia|]. intros [Hc|[Hb Hsub]]%settle_spec.
  - rewrite Hc in Hm. cbn in Hm. pose proof (an_wait _ _ _ _ _ A Hc) as Hz.
    assert (submit_of o = None) as -> by (unfold o; clear -Hc; by destruct c). cbn. rewrite zlen_nil. lia.
  - specialize (Hq Hb). fold o in Hsub. rewrite Hsub. cbn. rewrite zlen_nil. lia.
Qed.

Lemma polled_poller : poller_ok s1.
Proof.
  destruct polled_ok as ([_ Hg] & Hlog & _). destruct polled_counts as [Ho Hq].
  destruct polled_fields as (_ & _ & _ & Hl & _). specialize (Hg x). fold o in Hg.
  unfold poller_ok. assert (s_poller s1 = match k x with
    | Return None => Polling [] run_iteration
    | Return (Some r) => Stopped r
    | Call _ _ => Polling (past ++ [o]) (k x) end) as ->
    by (unfold s1, poller_next; by destruct (k x) as [[|]|]).
  destruct (k x) as [[r|]|c' k'] eqn:E.
  - destruct Hg as [Hz _]. lia.
  - destruct Hg as [Hz Hquiet]. split; [apply iteration_guarantees|].
    split; [by intros ? ?%not_elem_of_nil|]. change (owed []) with 0. split; [lia|]. intros _. by apply Hq.
  - split; [done|]. split; [|done]. intros o' [Ho'| ->%list_elem_of_singleton]%elem_of_app; rewrite Hl; apply elem_of_app.
    + left. auto.
    + right. by left.
Qed.

Lemma polled_rebalance :
  c = cAllowRebalance -> submitted (s_log s) = started (s_log s) /\ all_ended (s_log s).
Proof.
  intros Hc. destruct polled_ok as ([Hm _] & _ & _ & Hq). rewrite Hc in Hm. by apply quiet_all_ended, Hq.
Qed.

Lemma polled_trace n : job_trace n log' = job_trace n (s_log s).
Proof. unfold log'. by rewrite job_trace_app, job_trace_entries, decide_False, app_nil_r. Qed.

Lemma polled_queue : Forall (fun me => Unmarshal (m_Value me.1) = Ok me.2) (s_queue s ++ option_list (submit_of o)).
Proof.
  apply Forall_app. split; [apply I|]. destruct polled_ok as ([Hm _] & _). unfold o. clear -Hm.
  destruct c; cbn in *; try constructor. destruct x; cbn; by repeat constructor.
Qed.

Lemma poller_step_inv : inv s1.
Proof.
  destruct polled_fields as (Hc & Hq & Hn & Hl & _ & Hw). split; rewrite ?Hl, ?Hw, ?Hn, ?Hq.
  - rewrite Hc. unfold log'. rewrite offset_events_app, offset_events_entries. apply (an_good _ _ _ _ _ A), I.
  - apply (acked_step s None c x s' events I A). apply polled_handled.
  - apply polled_queue.
  - intros j n m event past' p Hj. eapply (worker_ok_more s s1); [by eapply i_worker|by rewrite Hn|exact Hl|].
    by rewrite job_trace_entries, decide_False.
  - apply I.
  - intros n Hn'. destruct (i_fresh s I n Hn') as [Ht Hs]. rewrite polled_trace. split; [done|].
    intros m event [?|?]%elem_of_app; [by eapply Hs|by eapply no_start_entries].
  - intros n m event [Hin|?]%elem_of_app; [|exfalso; by eapply no_start_entries].
    rewrite polled_trace. by apply I.
  - intros n. rewrite polled_trace. apply I.
  - apply polled_poller.
  - unfold log'. rewrite submitted_app, started_app, submitted_entries, started_entries, app_nil_r, app_assoc.
    f_equal. apply I.
  - apply (rebalance_step s None c x s' events I A). intros _. apply polled_rebalance.
Qed.

End poller_step.

(** ** Every execution *)

Lemma take_inv s i m event rest :
  inv s -> s_workers s !! i = Some Idle -> s_queue s = (m, event) :: rest ->
  inv (add_log [Started (s_next s) m event] (set_next (S (s_next s)) (set_queue rest
    (set_workers (<[i := Busy (s_next s) m event [] (run_job m event)]> (s_workers s)) s)))).
Proof.
  intros I Hi Hq. set (s1 := add_log _ _).
  assert (s_log s1 = s_log s ++ [Started (s_next s) m event]) as Hl by done.
  assert (forall n, job_trace n (s_log s1) = job_trace n (s_log s)) as Htr
    by (intros n; rewrite Hl, job_trace_app; apply app_nil_r).
  assert (in_flight s1 = in_flight s) as Hf.
  { unfold in_flight. cbn. rewrite (sumZ_insert _ _ _ _ Hi), Hq, zlen_cons. cbn. lia. }
  destruct (i_fresh s I (s_next s) ltac:(lia)) as [Hfresh Hnew].
  assert (forall j n m' event' past p, s_workers s !! j = Some (Busy n m' event' past p) -> n <> s_next s) as Hold.
  { intros j n m' event' past p Hj. pose proof (wo_next _ _ _ _ _ _ (i_worker s I _ _ _ _ _ _ Hj)). lia. }
  split.
  - rewrite Hl, offset_events_app, app_nil_r. apply I.
  - intros l1 r l2 [(k & Hk & _)|(k & -> & Hk)]%split_snoc; [by eapply (i_acked s I)|].
    destruct k as [|? [|]]; done.
  - pose proof (i_queue s I) as H. rewrite Hq in H. by apply Forall_cons in H as [_ H].
  - intros j n m' event' past p [(-> & Hj & _)|[Hne Hj]]%list_lookup_insert_Some.
    + injection Hj as <- <- <- <- <-. split; rewrite ?Htr; [cbn; lia| |..].
      * apply elem_of_app. right. by left.
      * pose proof (i_queue s I) as H. rewrite Hq in H. by apply Forall_cons in H as [H _].
      * done.
      * apply job_guarantees.
      * apply job_ends_guarantees.
    + eapply (worker_ok_more s s1); [by eapply i_worker|cbn; lia|done|done].
  - intros j1 j2 n m1 e1 past1 p1 m2 e2 past2 p2 [(-> & H1 & _)|[Hn1 H1]]%list_lookup_insert_Some
      [(-> & H2 & _)|[Hn2 H2]]%list_lookup_insert_Some; [done|..].
    + injection H1 as <- <- <- <- <-. by destruct (Hold _ _ _ _ _ _ H2).
    + injection H2 as <- <- <- <- <-. by destruct (Hold _ _ _ _ _ _ H1).
    + by eapply (i_alone s I).
  - intros n Hn. cbn in Hn. rewrite Htr. destruct (i_fresh s I n ltac:(lia)) as [? Hs]. split; [done|].
    intros m' event' [?|Hin%list_elem_of_singleton]%elem_of_app; [by eapply Hs|]. injection Hin as -> _ _. lia.
  - intros n m' event' [Hin|Hin%list_elem_of_singleton]%elem_of_app; rewrite Htr.
    + destruct (i_live s I _ _ _ Hin) as [?|(j & past & p & Hj)]; [by left|right]. exists j, past, p. cbn.
      rewrite list_lookup_insert_ne; [done|]. intros ->. congruence.
    + injection Hin as -> -> ->. right. exists i. do 2 eexists. apply list_lookup_insert_eq. by eapply lookup_lt_Some.
  - intros n. rewrite Htr. apply I.
  - pose proof (i_poller s I) as Hp. unfold poller_ok in *. change (s_poller s1) with (s_poller s).
    change (s_outstanding s1) with (s_outstanding s). rewrite Hf. destruct (s_poller s); [|done].
    destruct Hp as (? & Hlog & ?). split; [done|]. split; [|done]. intros o Ho. apply elem_of_app. left. auto.
  - rewrite Hl, submitted_app, started_app, (i_fifo s I), Hq.
    change (submitted [_]) with (@nil (Message * Event)). by rewrite app_nil_r, <- app_assoc.
  - intros l1 x l2 [(k & Hk & _)|(k & -> & Hk)]%split_snoc; [by eapply (i_rebalance s I)|].
    destruct k as [|? [|]]; done.
Qed.

Lemma step_inv ch s s' : inv s -> step ch s = Some s' -> inv s'.
Proof.
  intros I. destruct ch as [oracle|i oracle|i|]; cbn [step].
  - destruct (s_poller s) as [past [r|c k]|] eqn:Hp; try done.
    destruct (respond oracle c s) as [[[x s0] events]|] eqn:Hr; [|done]. intros H. apply (inj Some) in H as <-.
    by apply (poller_step_inv s past c k x s0 events I Hp), (respond_answered oracle).
  - destruct (s_workers s !! i) as [[|n m event past [u|c k]]|] eqn:Hi; try done.
    destruct (respond oracle c s) as [[[x s0] events]|] eqn:Hr; [|done]. intros H. apply (inj Some) in H as <-.
    by apply (worker_step_inv s i n m event past c k x s0 events I Hi), (respond_answered oracle).
  - destruct (s_workers s !! i) as [[|]|] eqn:Hi; try done. destruct (s_queue s) as [|[m event] rest] eqn:Hq; [done|].
    intros H. apply (inj Some) in H as <-. by eapply take_inv.
  - intros [= <-]. split; try apply I. intros i n m event past p Hi. by destruct (i_worker s I _ _ _ _ _ _ Hi); split.
Qed.

Lemma exec_inv schedule s : inv s -> inv (exec schedule s).
Proof.
  revert s. induction schedule as [|ch schedule IH]; intros s I; cbn; [done|]. apply IH.
  destruct (step ch s) eqn:E; [by eapply step_inv|done].
Qed.

Lemma start_inv : inv start.
Proof.
  assert (forall i w, s_workers start !! i = Some w -> w = Idle) as Hw.
  { intros i w Hi. by apply lookup_replicate in Hi as [-> _]. }
  assert (in_flight start = 0) as Hf.
  { unfold in_flight, start. cbn [s_queue s_workers]. rewrite zlen_nil. clear.
    induction (Z.to_nat workers) as [|n IH]; [done|]. cbn [replicate]. by rewrite fmap_cons, sumZ_cons. }
  split; try done.
  - exact good_start.
  - by intros [|? l1].
  - by intros i n m event past p ?%Hw.
  - by intros i j n m event past p m' event' past' p' ?%Hw.
  - intros n _. split; [done|]. by intros m event ?%not_elem_of_nil.
  - by intros n m event ?%not_elem_of_nil.
  - by intros n [|? pre].
  - cbn. split; [apply iteration_guarantees|]. split; [by intros ? ?%not_elem_of_nil|]. rewrite Hf. done.
  - by intros [|? l1].
Qed.

(** ** Progress *)

Lemma exec_app a b s : exec (a ++ b) s = exec b (exec a s).
Proof. revert s. induction a as [|ch a IH]; intros s; cbn; [done|]. apply IH. Qed.

Definition calling {A} (p : P A) : bool := match p with Call _ _ => true | Return _ => false end.

(** Goroutines wait at a call, and there are as many workers as configured. *)
Record shaped s : Prop := {
  sh_workers : length (s_workers s) = Z.to_nat workers;
  sh_worker i n m event past p : s_workers s !! i = Some (Busy n m event past p) -> calling p = true;
  sh_poller past p : s_poller s = Polling past p -> calling p = true;
}.

Lemma step_shaped ch s s' : shaped s -> step ch s = Some s' -> shaped s'.
Proof.
  intros [H1 H2 H3]. destruct ch as [oracle|i oracle|i|]; cbn [step].
  - destruct (s_poller s) as [past [r|c k]|] eqn:Hp; try done.
    destruct (respond oracle c s) as [[[x s0] events]|] eqn:Hr; [|done]. intros H. apply (inj Some) in H as <-.
    apply respond_answered in Hr as A.
    assert (s_workers (poller_next (past ++ [observe c x]) (k x) (add_log (Did None (observe c x) :: (Offset <$> events)) s0))
      = s_workers s) as Hw by (rewrite <- (an_workers _ _ _ _ _ A); unfold poller_next; by destruct (k x) as [[|]|]).
    split; rewrite ?Hw; [done|done|]. unfold poller_next. destruct (k x) as [[|]|] eqn:E; by intros ? ? [= <- <-].
  - destruct (s_workers s !! i) as [[|n m event past [u|c k]]|] eqn:Hi; try done.
    destruct (respond oracle c s) as [[[x s0] events]|] eqn:Hr; [|done]. intros H. apply (inj Some) in H as <-.
    apply respond_answered in Hr as A.
    split; unfold worker_next; destruct (k x) eqn:E; cbn; rewrite ?(an_workers _ _ _ _ _ A), ?(an_poller _ _ _ _ _ A),
      ?length_insert; try done.
    + intros j n' m' event' past' p' [(-> & Hj & _)|[_ Hj]]%list_lookup_insert_Some; [done|by eapply H2].
    + intros j n' m' event' past' p' [(-> & Hj & _)|[_ Hj]]%list_lookup_insert_Some; [|by eapply H2].
      by injection Hj as <- <- <- <- <-.
  - destruct (s_workers s !! i) as [[|]|] eqn:Hi; try done. destruct (s_queue s) as [|[m event] rest] eqn:Hq; [done|].
    intros H. apply (inj Some) in H as <-. split; cbn; rewrite ?length_insert; try done.
    intros j n' m' event' past' p' [(-> & Hj & _)|[_ Hj]]%list_lookup_insert_Some; [|by eapply H2].
    by injection Hj as <- <- <- <- <-.
  - by intros [= <-].
Qed.

Lemma exec_shaped schedule s : shaped s -> shaped (exec schedule s).
Proof.
  revert s. induction schedule as [|ch schedule IH]; intros s I; cbn; [done|]. apply IH.
  destruct (step ch s) eqn:E; [by eapply step_shaped|done].
Qed.

Lemma start_shaped : shaped start.
Proof.
  split; cbn; [apply length_replicate| |by intros ? ? [= <- <-]].
  intros i n m event past p Hi. by apply lookup_replicate in Hi as [? _].
Qed.

Section progress.
Variable oracle : forall c, ans c.
Hypothesis Hworkers : 1 <= workers.
Hypothesis Hcapacity : 1 <= capacity.

(** The oracle, with the send of [Submit]'s select preferred. *)
Definition eager (c : call) : ans c := match c with cSubmit _ _ => Ok tt | c => oracle c end.

(** Steps whose answers come from the oracle. *)
Definition driven (ch : choice) : Prop :=
  match ch with
  | PollerStep answers | WorkerStep _ answers => answers = eager
  | Take _ => True
  | CancelParent => False
  end.

Lemma worker_answers m event past c s :
  job_may m event past c -> exists x s' events, respond eager c s = Some (x, s', events).
Proof. destruct c; cbn; intros H; try done; by do 3 eexists. Qed.

(** Left alone, a worker finishes its job. *)
Lemma worker_finishes p : forall s i n m event past,
  inv s -> shaped s -> s_workers s !! i = Some (Busy n m event past p) ->
  exists schedule, Forall driven schedule /\ s_workers (exec schedule s) = <[i := Idle]> (s_workers s) /\
    s_queue (exec schedule s) = s_queue s /\ s_poller (exec schedule s) = s_poller s.
Proof.
  induction p as [u|c k IH]; intros s i n m event past I Sh Hi; [by pose proof (sh_worker s Sh _ _ _ _ _ _ Hi)|].
  destruct (worker_answers m event past c s) as (x & s0 & events & Hr).
  { apply (wo_may _ _ _ _ _ _ (i_worker s I _ _ _ _ _ _ Hi)). }
  assert (answered c x s s0 events) as A by (by eapply respond_answered).
  set (s1 := worker_next i n m event (past ++ [observe c x]) (k x) (add_log (entries (Some n) (observe c x) events) s0)).
  assert (step (WorkerStep i eager) s = Some s1) as Hstep by (cbn; rewrite Hi, Hr; done).
  destruct (step_fields s i n m event past c k x s0 events A) as (_ & Hq & _ & _ & Hp & _ & Hw). fold s1 in Hq, Hp, Hw.
  rewrite (step_queue s i n m event past c k x s0 events I Hi A) in Hq.
  unfold next_worker in Hw. destruct (k x) as [u|c' k'] eqn:E.
  - exists [WorkerStep i eager]. cbn [exec]. rewrite Hstep. split; [by repeat constructor|done].
  - rewrite <- E in Hw. destruct (IH x s1 i n m event (past ++ [observe c x])) as (schedule & Hd & Hw' & Hq' & Hp').
    + by eapply step_inv.
    + by eapply step_shaped.
    + rewrite Hw. apply list_lookup_insert_eq. by eapply lookup_lt_Some.
    + exists (WorkerStep i eager :: schedule). split; [by constructor|]. cbn [exec]. rewrite Hstep. change (default s (Some s1)) with s1.
      rewrite Hw', Hq', Hp', Hw, list_insert_insert_eq. done.
Qed.

(** Then all of them do. *)
Lemma workers_finish s k :
  inv s -> shaped s -> exists schedule, Forall driven schedule /\
    (forall i, (i < k)%nat -> (i < length (s_workers s))%nat -> s_workers (exec schedule s) !! i = Some Idle) /\
    s_queue (exec schedule s) = s_queue s /\ s_poller (exec schedule s) = s_poller s.
Proof.
  intros I Sh. induction k as [|k (schedule & Hd & Hidle & Hq & Hp)].
  { exists []. split; [constructor|]. split; [lia|done]. }
  pose proof (exec_inv schedule s I) as I'. pose proof (exec_shaped schedule s Sh) as Sh'.
  assert (length (s_workers (exec schedule s)) = length (s_workers s)) as Hlen
    by (by rewrite (sh_workers _ Sh), (sh_workers _ Sh')).
  destruct (s_workers (exec schedule s) !! k) as [[|n m event past p]|] eqn:Hk.
  - exists schedule. split; [done|]. split; [|done]. intros i Hi Hl. destruct (decide (i = k)) as [->|]; [done|]. apply Hidle; lia.
  - destruct (worker_finishes p _ _ _ _ _ _ I' Sh' Hk) as (more & Hd' & Hw & Hq' & Hp').
    exists (schedule ++ more). rewrite exec_app. split; [by apply Forall_app|]. split; [|by rewrite Hq', Hp']. intros i Hi Hl. rewrite Hw.
    destruct (decide (i = k)) as [->|]; [by apply list_lookup_insert_eq; rewrite Hlen|].
    rewrite list_lookup_insert_ne by done. apply Hidle; lia.
  - exists schedule. split; [done|]. split; [|done]. intros i Hi Hl. apply lookup_ge_None in Hk. apply Hidle; lia.
Qed.

(** And the queue drains. *)
Lemma drains s :
  inv s -> shaped s -> exists schedule, Forall driven schedule /\
    in_flight (exec schedule s) = 0 /\ s_queue (exec schedule s) = [] /\ s_poller (exec schedule s) = s_poller s.
Proof.
  remember (s_queue s) as q eqn:Hq. revert s Hq.
  induction q as [|[m event] q IH]; intros s Hq I Sh;
    destruct (workers_finish s (length (s_workers s)) I Sh) as (first & Hd1 & Hidle & Hq1 & Hp1);
    set (s1 := exec first s) in *; pose proof (exec_inv first s I : inv s1) as I1;
    pose proof (exec_shaped first s Sh : shaped s1) as Sh1.
  - exists first. fold s1. split; [done|]. split; [|by rewrite Hq1, Hq]. unfold in_flight. rewrite Hq1, <- Hq, zlen_nil.
    rewrite sumZ_idle; [done|]. apply Forall_lookup_2. intros i w Hi.
    rewrite Hidle in Hi; [by injection Hi as <-| |];
      apply lookup_lt_Some in Hi; by rewrite (sh_workers _ Sh), <- (sh_workers _ Sh1).
  - assert (s_workers s1 !! 0%nat = Some Idle) as H0
      by (apply Hidle; rewrite (sh_workers _ Sh); lia).
    rewrite <- Hq in Hq1. set (s2 := default s1 (step (Take 0) s1)).
    assert (step (Take 0) s1 = Some s2) as Hstep by (unfold s2; cbn [step]; rewrite H0, Hq1; done).
    assert (s_queue s2 = q /\ s_poller s2 = s_poller s1) as [Hq2 Hp2] by (unfold s2; cbn [step]; rewrite H0, Hq1; done).
    destruct (IH s2 (eq_sym Hq2)) as (more & Hd2 & Hf & Hqe & Hpe); [by eapply step_inv|by eapply step_shaped|].
    exists (first ++ Take 0 :: more). split; [apply Forall_app; split; [done|by constructor]|]. rewrite exec_app. fold s1. cbn [exec]. rewrite Hstep.
    change (default s1 (Some s2)) with s2. by rewrite Hpe, Hp2.
Qed.

Definition between_polls s : Prop := s_poller s = Polling [] run_iteration \/ exists r, s_poller s = Stopped r.

Lemma poller_finishes p : forall s past,
  inv s -> shaped s -> s_poller s = Polling past p ->
  exists schedule, Forall driven schedule /\ between_polls (exec schedule s).
Proof.
  induction p as [r|c k IH]; intros s past I Sh Hp; [by pose proof (sh_poller s Sh _ _ Hp)|].
  destruct (drains s I Sh) as (first & Hd & Hf & Hq & Hp1). set (s1 := exec first s) in *.
  pose proof (exec_inv first s I : inv s1) as I1. pose proof (exec_shaped first s Sh : shaped s1) as Sh1.
  rewrite Hp in Hp1. pose proof (i_poller s1 I1) as Hok. unfold poller_ok in Hok. rewrite Hp1, Hf in Hok.
  destruct Hok as ([Hmay _] & _ & Hout & _).
  assert (exists x s' events, respond eager c s1 = Some (x, s', events)) as (x & s' & events & Hr).
  { destruct c; cbn [respond eager]; try by do 3 eexists.
    - rewrite Hq, zlen_nil, (proj2 (Z.ltb_lt _ _)) by lia. by do 3 eexists.
    - cbn in Hmay. rewrite (proj2 (Z.eqb_eq _ _)) by lia. by do 3 eexists. }
  set (s2 := poller_next (past ++ [observe c x]) (k x) (add_log (entries None (observe c x) events) s')).
  assert (step (PollerStep eager) s1 = Some s2) as Hstep by (cbn [step]; rewrite Hp1, Hr; done).
  assert (exists schedule, Forall driven schedule /\ between_polls (exec schedule s2)) as (more & Hd2 & Hmore).
  { destruct (k x) as [[r|]|c' k'] eqn:E.
    - exists []. split; [constructor|]. right. exists r. unfold s2. by rewrite ?E.
    - exists []. split; [constructor|]. left. unfold s2. by rewrite ?E.
    - eapply (IH x); [by eapply step_inv|by eapply step_shaped|]. unfold s2. rewrite E. done. }
  exists (first ++ PollerStep eager :: more). split; [apply Forall_app; split; [done|by constructor]|]. rewrite exec_app. fold s1. cbn [exec]. rewrite Hstep. done.
Qed.

End progress.

(** ** Theorems *)

(** A commit past a record comes after the record's acknowledgement, and that after the
    record was handled. *)
Lemma commit_after_ack schedule l1 r l2 a x b :
  s_log (exec schedule start) = l1 ++ Offset (Committed r) :: l2 ->
  offset_events l1 = a ++ Registered x :: b -> key_of x = key_of r ->
  (exists y, same_slot y r /\ Registered y ∈ Registered x :: b) ->
  exists m l3 l4, l1 = l3 ++ Offset (Acked (m_Record m)) :: l4 /\ same_slot (m_Record m) x /\ handled l3 m.
Proof.
  intros Hlog Hl1 Hkey Hy. pose proof (exec_inv schedule start start_inv) as I.
  destruct (i_offsets _ I) as [Hsafe _]. rewrite Hlog, offset_events_app in Hsafe.
  destruct (Hsafe _ _ _ eq_refl a x b Hl1 Hkey Hy) as (y & Hslot & Hin).
  assert (exists l3 l4, l1 = l3 ++ Offset (Acked y) :: l4) as (l3 & l4 & Hl).
  { apply list_elem_of_split. assert (Acked y ∈ offset_events l1) as H 
      by (rewrite Hl1; apply elem_of_app; right; apply elem_of_cons; by right).
    apply list_elem_of_omap in H as (e & He & Hey). destruct e; try done. by injection Hey as ->. }
  rewrite Hl, <- app_assoc in Hlog. destruct (i_acked _ I _ _ _ Hlog) as (m & <- & Hm).
  by exists m, l3, l4.
Qed.

(** C4: At-least-once consumption: in every interleaving of the poller and the workers, with
    every behaviour of the broker, the dead-letter topic and the processor's dependencies,
    when an offset is committed, each record of that partition registered up to it has been
    taken care of before the commit: the processor returned without error on its decoded
    event, or a dead letter naming its topic, partition and offset, with its payload or its
    event, was accepted by the dead-letter topic. *)
Theorem committed_records_handled schedule l1 r l2 a x b :
  s_log (exec schedule start) = l1 ++ Offset (Committed r) :: l2 ->
  offset_events l1 = a ++ Registered x :: b -> key_of x = key_of r ->
  (exists y, same_slot y r /\ Registered y ∈ Registered x :: b) ->
  exists m, same_slot (m_Record m) x /\ (dead_lettered l1 m \/ processed_ok l1 m).
Proof.
  intros Hlog Hl Hkey Hy. destruct (commit_after_ack _ _ _ _ _ _ _ Hlog Hl Hkey Hy) as (m & l3 & l4 & -> & Hm & Hh).
  exists m. split; [done|]. by apply handled_more.
Qed.

(** C17: Rebalancing waits for the batch: whenever the consumer lets the group rebalance, every
    job submitted so far has been started and has told the wait group it is done; and a job
    that has told so only reads the clock and reports its metrics afterwards, it neither
    processes, dead-letters nor acknowledges anything. *)
Theorem rebalance_waits_for_jobs schedule l1 x l2 :
  s_log (exec schedule start) = l1 ++ Did None (observe cAllowRebalance x) :: l2 ->
  submitted l1 = started l1 /\
  (forall n m event, Started n m event ∈ l1 -> ended (job_trace n l1) = true) /\
  (forall n pre y post, job_trace n (s_log (exec schedule start)) = pre ++ observe cJobsDone y :: post ->
     Forall (fun o => tail (projT1 o)) post).
Proof.
  intros Hlog. pose proof (exec_inv schedule start start_inv) as I.
  destruct (i_rebalance _ I _ _ _ Hlog) as [Hs He]. split; [done|]. split; [exact He|]. apply I.
Qed.

(** C40: The consumer cannot wedge: with at least one worker and one queue slot, from every
    reachable state, and for whatever answers the environment gives from there on (without
    the process being told to stop), the goroutines can be scheduled so that the current
    poll completes: the consumer is back at its next poll or has returned. *)
Theorem batch_completes schedule (oracle : forall c, ans c) :
  1 <= workers -> 1 <= capacity -> 
  exists more, Forall (driven oracle) more /\ between_polls (exec (schedule ++ more) start).
Proof.
  intros Hw Hc. pose proof (exec_inv schedule start start_inv) as I.
  pose proof (exec_shaped schedule start start_shaped) as Sh.
  destruct (s_poller (exec schedule start)) as [past p|r] eqn:Hp.
  - destruct (poller_finishes oracle Hw Hc p _ _ I Sh Hp) as (more & Hd & H).
    exists more. by rewrite exec_app.
  - exists []. split; [constructor|]. rewrite app_nil_r. right. by exists r.
Qed.

End consumer.

(** ** Witnesses

    One worker, a queue of two, and a poll of two records of partition 0, the second of
    which does not decode; the processor makes one call, "persist". *)

Definition demo_ans (c : string) : Type := result unit.

Definition demo_process (event : Event) : proc demo_ans processed :=
  r ← (Proc.call "persist" : proc demo_ans (result unit));
  mret (event, match r with Ok _ => None | Err e => Some (ErrClassified Transient "persist event" e) end).

Definition demo_unmarshal (b : bytes) : result Event :=
  match b with
  | [] => Err (ErrMsg "unexpected end of JSON input")
  | _ => Ok (mkEvent "id" "tenant" "api" "latency" 1 ∅ [] None "" "1" "" "")
  end.
Definition demo_marshal (dead : DeadLetter) : result bytes := Ok (dl_RawPayload dead).

Definition demo_messages : list Message :=
  [mkMessage (at_offset 10) [x7b]; mkMessage (at_offset 11) []].

(** Everything works. *)
Definition demo_oracle (c : call (PC := string)) : ans (pans := demo_ans) c :=
  match c with
  | cProcess _ => Ok tt
  | cNow => 5
  | cRandom => float_zero
  | cSleep _ => Ok tt
  | cQueueLen => 0
  | cPoll => (demo_messages, [])
  | cRegister _ | cAck _ | cProduce _ | cSubmit _ _ => Ok tt
  | cTakeFatal | cCtxErr | cRunErr => None
  | cObserveDepth _ _ | cObserveCompleted _ _ _ | cObserveRetry _ | cObserveDeadLetter _ | cAllowRebalance
  | cSetLag _ | cFail _ | cJobsAdd | cJobsDone | cJobsWait => tt
  end.

Abbreviation demo_step := (step demo_process demo_unmarshal demo_marshal "telemetry.dlq" 1 2 DefaultRetryPolicy).
Abbreviation demo_exec := (exec demo_process demo_unmarshal demo_marshal "telemetry.dlq" 1 2 DefaultRetryPolicy).
Abbreviation demo_start := (start (PC := string) (pans := demo_ans) demo_unmarshal demo_marshal "telemetry.dlq" 1 2).

Definition demo_schedule : list (choice (PC := string) (pans := demo_ans)) :=
  mjoin (replicate 18 [PollerStep demo_oracle; Take 0; WorkerStep 0 demo_oracle]).

(** The log up to an entry, and what follows it. *)
Fixpoint cut {A} (found : A -> bool) (l : list A) : option (list A * A * list A) :=
  match l with
  | [] => None
  | e :: l' => if found e then Some ([], e, l')
               else '(l1, x, l2) ← cut found l'; Some (e :: l1, x, l2)
  end.

Lemma cut_spec {A} found (l : list A) l1 x l2 : cut found l = Some (l1, x, l2) -> l = l1 ++ x :: l2.
Proof.
  revert l1. induction l as [|e l IH]; intros l1; cbn; [done|]. destruct (found e); [by intros [= <- <- <-]|].
  destruct (cut found l) as [[[l1' x'] l2']|]; [|done]. intros [= <- <- <-]. cbn. f_equal. by apply IH.
Qed.

Abbreviation demo_log := (s_log (demo_exec demo_schedule demo_start)).

Definition is_commit (e : entry (PC := string) (pans := demo_ans)) : bool :=
  match e with Offset (Committed r) => k_Offset r =? 11 | _ => false end.
Definition is_rebalance (e : entry (PC := string) (pans := demo_ans)) : bool :=
  match e with Did None (existT cAllowRebalance _) => true | _ => false end.

Definition demo_offsets : list OffsetTracker.event :=
  [Acked (at_offset 10); Committed (at_offset 10); Registered (at_offset 11); Acked (at_offset 11)].

Lemma demo_commits : exists l1 l2,
  demo_log = l1 ++ Offset (Committed (at_offset 11)) :: l2 /\ offset_events l1 = [] ++ Registered (at_offset 10) :: demo_offsets.
Proof.
  assert ((fun t => (t.1.2, offset_events t.1.1)) <$> cut is_commit demo_log =
    Some (Offset (Committed (at_offset 11)), Registered (at_offset 10) :: demo_offsets)) as H by (vm_compute; reflexivity).
  destruct (cut is_commit demo_log) as [[[l1 e] l2]|] eqn:E; [|discriminate H].
  exists l1, l2. rewrite (cut_spec _ _ _ _ _ E). apply (inj Some) in H. apply pair_eq in H as [He Ho].
  cbn [fst snd] in He, Ho. subst e. exact (conj eq_refl Ho).
Qed.

Lemma demo_rebalances : exists l1 l2,
  demo_log = l1 ++ Did None (observe (ans := ans) cAllowRebalance tt) :: l2 /\ length (started l1) = 1%nat.
Proof.
  assert ((fun t => (t.1.2, length (started t.1.1))) <$> cut is_rebalance demo_log =
    Some (Did None (observe (ans := ans) cAllowRebalance tt), 1%nat)) as H by (vm_compute; reflexivity).
  destruct (cut is_rebalance demo_log) as [[[l1 e] l2]|] eqn:E; [|discriminate H].
  exists l1, l2. rewrite (cut_spec _ _ _ _ _ E). apply (inj Some) in H. apply pair_eq in H as [He Ho].
  cbn [fst snd] in He, Ho. rewrite He. exact (conj eq_refl Ho).
Qed.

Lemma committed_records_handled_witness : exists l1 l2,
  demo_log = l1 ++ Offset (Committed (at_offset 11)) :: l2 /\
  exists m, same_slot (m_Record m) (at_offset 10) /\
    (dead_lettered demo_unmarshal demo_marshal "telemetry.dlq" l1 m \/ processed_ok demo_process demo_unmarshal l1 m).
Proof.
  destruct demo_commits as (l1 & l2 & Hlog & Hl). exists l1, l2. split; [exact Hlog|].
  apply (committed_records_handled demo_process demo_unmarshal demo_marshal "telemetry.dlq" 1 2 DefaultRetryPolicy
    demo_schedule l1 (at_offset 11) l2 [] (at_offset 10) demo_offsets Hlog Hl eq_refl).
  exists (at_offset 11). split; [split; reflexivity|]. do 3 (apply elem_of_cons; right). apply elem_of_cons. by left.
Defined.

Lemma rebalance_waits_for_jobs_witness : exists l1 l2,
  demo_log = l1 ++ Did None (observe (ans := ans) cAllowRebalance tt) :: l2 /\
  submitted l1 = started l1 /\ length (started l1) = 1%nat.
Proof.
  destruct demo_rebalances as (l1 & l2 & Hlog & Hl). exists l1, l2. split; [exact Hlog|]. split; [|exact Hl].
 
  apply (rebalance_waits_for_jobs demo_process demo_unmarshal demo_marshal "telemetry.dlq" 1 2 DefaultRetryPolicy
    demo_schedule l1 tt l2 Hlog).
Defined.

Lemma batch_completes_witness :
  exists more, Forall (driven demo_oracle) more /\
    between_polls demo_unmarshal demo_marshal "telemetry.dlq" 2 (demo_exec (firstn 8 demo_schedule ++ more) demo_start).
Proof.
  apply (batch_completes demo_process demo_unmarshal demo_marshal "telemetry.dlq" 1 2 DefaultRetryPolicy
    (firstn 8 demo_schedule) demo_oracle); lia.
Defined.
