(* ===== verification/Autonomy.v ===== *)
(** * The bounded control loop ([internal/autonomy])

    [Controller] observes the worker pool and, in auto mode, applies a temporary sampling
    multiplier.  Its mutex makes every method atomic, so an execution is a sequence of
    [operation]s; the clock readings and the auditor's answers are inputs of [Tick], which
    returns the action records it handed to the auditor.  Floating-point arithmetic is the
    one of [GoFloat], without fused multiply-add. *)

From S2P Require Import Prelude GoStrings GoTime GoFloat Domain.

Local Open Scope string_scope.
Local Open Scope Z_scope.
Local Open Scope list_scope.

(** ** Configuration ([model.go]) *)

Inductive Mode : Type :=
  | ModeOff | ModeShadow | ModeAuto
  | ModeOther (text : string).

#[export] Instance Mode_eq_dec : EqDecision Mode.
Proof. solve_decision. Defined.

Inductive ActionState : Type := ActionShadow | ActionApplied | ActionRolledBack | ActionExpired.

#[export] Instance ActionState_eq_dec : EqDecision ActionState.
Proof. solve_decision. Defined.

Record Config := mkConfig {
  ac_Mode : Mode;
  ac_Window : Z;
  ac_Horizon : Z;
  ac_TickInterval : Z;
  ac_TriggerPressure : float64;
  ac_RecoverPressure : float64;
  ac_MinMultiplier : float64;
  ac_MaxActionTTL : Z;
  ac_Cooldown : Z;
  ac_MinObservations : Z;
  ac_MaxErrorRateIncrease : float64;
  ac_MaxLatencyIncreaseRatio : float64;
}.

Definition DefaultConfig : Config :=
  mkConfig ModeShadow 12 (30 * ns_second) (5 * ns_second) (float_ratio 82 100) (float_ratio 55 100)
    (float_ratio 35 100) (2 * ns_minute) (30 * ns_second) 4 (float_ratio 2 100) (float_ratio 25 100).

Definition Validate (c : Config) : result unit :=
  match ac_Mode c with
  | ModeOther _ => Err (ErrMsg "unsupported autonomy mode")
  | _ =>
    if (ac_Window c <? 3) || (256 <? ac_Window c)
    then Err (ErrMsg "autonomy window must be between 3 and 256")
    else if (ac_MinObservations c <? 3) || (ac_Window c <? ac_MinObservations c)
    then Err (ErrMsg "autonomy min observations must be between 3 and window")
    else if (ac_Horizon c <=? 0) || (10 * ns_minute <? ac_Horizon c)
    then Err (ErrMsg "autonomy horizon must be between 0 and 10 minutes")
    else if (ac_TickInterval c <=? 0) || (ns_minute <? ac_TickInterval c)
    then Err (ErrMsg "autonomy tick interval must be between 0 and 1 minute")
    else if (ac_TriggerPressure c <=? float_zero)%F || (ac_TriggerPressure c >? float_one)%F
    then Err (ErrMsg "autonomy trigger pressure must be in (0,1]")
    else if (ac_RecoverPressure c <? float_zero)%F || (ac_RecoverPressure c >=? ac_TriggerPressure c)%F
    then Err (ErrMsg "autonomy recover pressure must be below trigger pressure")
    else if (ac_MinMultiplier c <=? float_zero)%F || (ac_MinMultiplier c >? float_one)%F
    then Err (ErrMsg "autonomy minimum multiplier must be in (0,1]")
    else if (ac_MaxActionTTL c <=? 0) || (30 * ns_minute <? ac_MaxActionTTL c)
    then Err (ErrMsg "autonomy action TTL must be between 0 and 30 minutes")
    else if (ac_Cooldown c <? 0) || (30 * ns_minute <? ac_Cooldown c)
    then Err (ErrMsg "autonomy cooldown must be between 0 and 30 minutes")
    else if (ac_MaxErrorRateIncrease c <? float_zero)%F || (ac_MaxErrorRateIncrease c >? float_one)%F
    then Err (ErrMsg "autonomy max error-rate increase must be between 0 and 1")
    else if (ac_MaxLatencyIncreaseRatio c <? float_zero)%F || (ac_MaxLatencyIncreaseRatio c >? float_of_int 10)%F
    then Err (ErrMsg "autonomy max latency increase ratio must be between 0 and 10")
    else Ok tt
  end.

Definition ParseMode (value : string) : Mode :=
  let v := to_lower (trim_space value) in
  if bool_decide (v = "off") || bool_decide (v = "disabled") then ModeOff
  else if bool_decide (v = "auto") || bool_decide (v = "automatic") then ModeAuto
  else ModeShadow.

Record Observation := mkObservation {
  ob_At : time;
  ob_QueuePressure : float64;
  ob_ErrorRate : float64;
  ob_MeanLatencyMS : float64;
  ob_RetryRate : float64;
  ob_Completed : Z;
}.

Record Forecast := mkForecast {
  fc_GeneratedAt : time;
  fc_Horizon : Z;
  fc_Samples : Z;
  fc_CurrentPressure : float64;
  fc_PredictedPressure : float64;
  fc_SlopePerSecond : float64;
  fc_Confidence : string;
}.

Record Action := mkAction {
  a_ID : string;
  a_State : ActionState;
  a_CreatedAt : time;
  a_UpdatedAt : time;
  a_ExpiresAt : time;
  a_Multiplier : float64;
  a_PredictedPressure : float64;
  a_BaselineErrorRate : float64;
  a_BaselineMeanLatencyMS : float64;
  a_Reason : string;
  a_RollbackReason : string;
}.

(** ** The predictor ([predictor.go]) *)

(** [Time.Sub], which saturates, and [Duration.Seconds]. *)
Definition time_sub (a b : time) : Z := Z.max (- 2 ^ 63) (Z.min (2 ^ 63 - 1) (a - b)).
Definition seconds (d : Z) : float64 :=
  (float_of_int (Z.quot d ns_second) + float_of_int (Z.rem d ns_second) / float_of_int ns_second)%F.

(** The four sums of the least-squares loop. *)
Definition add_sample (origin : time) (sums : float64 * float64 * float64 * float64) (sample : Observation)
  : float64 * float64 * float64 * float64 :=
  let '(sumX, sumY, sumXY, sumXX) := sums in
  let x := seconds (time_sub (ob_At sample) origin) in
  let y := clamp (ob_QueuePressure sample) float_zero float_one in
  (sumX + x, sumY + y, sumXY + x * y, sumXX + x * x)%F.

Definition confidence (samples : Z) : string :=
  if 8 <=? samples then "high" else if 4 <=? samples then "medium" else "low".

Definition ForecastPressure (history : list Observation) (horizon : Z) (now : time) : Forecast :=
  let insufficient current predicted :=
    mkForecast now horizon (zlen history) current predicted float_zero "insufficient" in
  match history, last history with
  | first :: _, Some latest =>
      let current := clamp (ob_QueuePressure latest) float_zero float_one in
      if zlen history <? 2 then insufficient current current
      else
        let '(sumX, sumY, sumXY, sumXX) :=
          foldl (add_sample (ob_At first)) (float_zero, float_zero, float_zero, float_zero) history in
        let n := float_of_int (zlen history) in
        let denom := (n * sumXX - sumX * sumX)%F in
        if (SFabs denom <? float_ratio 1 (10 ^ 12))%F then insufficient current current
        else
          let slope := ((n * sumXY - sumX * sumY) / denom)%F in
          let projected := (current + slope * seconds horizon)%F in
          mkForecast now horizon (zlen history) current (clamp projected float_zero float_one) slope
            (confidence (zlen history))
  | _, _ => insufficient float_zero float_zero
  end.

(** ** The controller ([controller.go]) *)

Record Controller := mkController {
  c_cfg : Config;
  c_multiplier : float64;
  c_queuePressure : float64;
  c_completed : Z;
  c_failed : Z;
  c_retries : Z;
  c_totalLatency : Z;
  c_lastCompleted : Z;
  c_lastFailed : Z;
  c_lastRetries : Z;
  c_lastLatency : Z;
  c_history : list Observation;
  c_forecast : Forecast;
  c_active : option Action;
  c_recent : list Action;
  c_cooldownUntil : time;
  c_sequence : Z;
}.

Definition zero_forecast : Forecast := mkForecast 0 0 0 float_zero float_zero float_zero "".

Definition NewController (cfg : Config) : result Controller :=
  _ ← Validate cfg;
  Ok (mkController cfg float_one float_zero 0 0 0 0 0 0 0 0 [] zero_forecast None [] 0 0).

Definition QueueDepth (current capacity : Z) (c : Controller) : Controller :=
  let pressure := if capacity <=? 0 then float_zero
                  else clamp (float_of_int current / float_of_int capacity)%F float_zero float_one in
  mkController (c_cfg c) (c_multiplier c) pressure (c_completed c) (c_failed c) (c_retries c) (c_totalLatency c)
    (c_lastCompleted c) (c_lastFailed c) (c_lastRetries c) (c_lastLatency c) (c_history c) (c_forecast c)
    (c_active c) (c_recent c) (c_cooldownUntil c) (c_sequence c).

Definition counts_as_failure (outcome : string) : bool :=
  bool_decide (outcome = "failed") || bool_decide (outcome = "ack_failed") || bool_decide (outcome = "dlq").

Definition JobCompleted (duration attempts : Z) (outcome : string) (c : Controller) : Controller :=
  mkController (c_cfg c) (c_multiplier c) (c_queuePressure c)
    (u64_succ (c_completed c))
    (if counts_as_failure outcome then u64_succ (c_failed c) else c_failed c)
    (if 1 <? attempts then u64 (c_retries c + (attempts - 1)) else c_retries c)
    (i64 (c_totalLatency c + duration))
    (c_lastCompleted c) (c_lastFailed c) (c_lastRetries c) (c_lastLatency c) (c_history c) (c_forecast c)
    (c_active c) (c_recent c) (c_cooldownUntil c) (c_sequence c).

(** The last [n] elements. *)
Definition keep_last {A} (n : Z) (l : list A) : list A := drop (length l - Z.to_nat n) l.

(** The first part of [Tick]: the observation of this window, the history and the forecast. *)
Definition observe_window (now : time) (c : Controller) : Observation :=
  let completed := u64_sub (c_completed c) (c_lastCompleted c) in
  let failed := u64_sub (c_failed c) (c_lastFailed c) in
  let retries := u64_sub (c_retries c) (c_lastRetries c) in
  let latency := i64 (c_totalLatency c - c_lastLatency c) in
  if 0 <? completed
  then mkObservation now (c_queuePressure c)
    (float_of_int failed / float_of_int completed)%F
    (float_of_int (Z.quot latency 1000) / float_thousand / float_of_int completed)%F
    (float_of_int retries / float_of_int completed)%F completed
  else mkObservation now (c_queuePressure c) float_zero float_zero float_zero completed.

Definition record_window (obs : Observation) (now : time) (c : Controller) : Controller :=
  let history := c_history c ++ [obs] in
  let history := if ac_Window (c_cfg c) <? zlen history then keep_last (ac_Window (c_cfg c)) history else history in
  mkController (c_cfg c) (c_multiplier c) (c_queuePressure c) (c_completed c) (c_failed c) (c_retries c)
    (c_totalLatency c) (c_completed c) (c_failed c) (c_retries c) (c_totalLatency c) history
    (ForecastPressure history (ac_Horizon (c_cfg c)) now) (c_active c) (c_recent c) (c_cooldownUntil c)
    (c_sequence c).

Definition latencyRegression (baseline current ratio : float64) : bool :=
  if (baseline <=? float_zero)%F || (current <=? float_zero)%F then false
  else (current >? baseline * (float_one + ratio))%F.

Definition recommendedMultiplier (predicted minimum : float64) : float64 :=
  let candidate :=
    if (predicted >=? float_ratio 95 100)%F then float_ratio 50 100
    else if (predicted >=? float_ratio 90 100)%F then float_ratio 60 100
    else float_ratio 75 100 in
  let candidate := if (candidate <? minimum)%F then minimum else candidate in
  if (candidate >? float_one)%F then float_one else candidate.

(** Why an active action ends, and in which state; [None] while it goes on. *)
Definition rollback_reason (cfg : Config) (action : Action) (obs : Observation) (now : time)
  : option (string * ActionState) :=
  if a_ExpiresAt action <=? now then Some ("action TTL expired", ActionExpired)
  else if (ob_QueuePressure obs <=? ac_RecoverPressure cfg)%F
  then Some ("queue pressure recovered below rollback threshold", ActionRolledBack)
  else if (ob_ErrorRate obs >? a_BaselineErrorRate action + ac_MaxErrorRateIncrease cfg)%F
  then Some ("error rate exceeded action guardrail", ActionRolledBack)
  else if latencyRegression (a_BaselineMeanLatencyMS action) (ob_MeanLatencyMS obs) (ac_MaxLatencyIncreaseRatio cfg)
  then Some ("mean processing latency exceeded action guardrail", ActionRolledBack)
  else None.

Definition set_action (multiplier : float64) (active : option Action) (recent : list Action) (cooldown : time)
    (sequence : Z) (c : Controller) : Controller :=
  mkController (c_cfg c) multiplier (c_queuePressure c) (c_completed c) (c_failed c) (c_retries c)
    (c_totalLatency c) (c_lastCompleted c) (c_lastFailed c) (c_lastRetries c) (c_lastLatency c) (c_history c)
    (c_forecast c) active recent cooldown sequence.

Definition with_state (state : ActionState) (updated : time) (reason rollback : string) (a : Action) : Action :=
  mkAction (a_ID a) state (a_CreatedAt a) updated (a_ExpiresAt a) (a_Multiplier a) (a_PredictedPressure a)
    (a_BaselineErrorRate a) (a_BaselineMeanLatencyMS a) reason rollback.

(** What was handed to the auditor, and its answer. *)
Abbreviation audited := (list (Action * option error)).

Section audit.
(** [Auditor.Record] at this tick. *)
Variable audit : Action -> option error.

Definition evaluateActiveLocked (obs : Observation) (now : time) (c : Controller) : audited * Controller :=
  match c_active c with
  | None => ([], c)
  | Some action =>
      match rollback_reason (c_cfg c) action obs now with
      | None => ([], c)
      | Some (rollback, terminal) =>
          let closed := with_state terminal now (a_Reason action) rollback action in
          let answer := audit closed in
          let closed' := match answer with
                         | Some _ => with_state terminal now (a_Reason action)
                             (rollback +:+ "; audit persistence also failed: ") action
                         | None => closed
                         end in
          let recent := c_recent c ++ [closed'] in
          let recent := if 16 <? zlen recent then keep_last 16 recent else recent in
          ([(closed, answer)],
           set_action float_one None recent (now + ac_Cooldown (c_cfg c)) (c_sequence c) c)
      end
  end.

Definition startActionLocked (obs : Observation) (now : time) (c : Controller) : audited * Controller :=
  let sequence := u64_succ (c_sequence c) in
  let predicted := fc_PredictedPressure (c_forecast c) in
  let multiplier := recommendedMultiplier predicted (ac_MinMultiplier (c_cfg c)) in
  let state := if decide (ac_Mode (c_cfg c) = ModeAuto) then ActionApplied else ActionShadow in
  let action := mkAction ("autonomy-" +:+ format_d (unix_milli now) +:+ "-" +:+ format_padded 4 sequence) state
    now now (now + ac_MaxActionTTL (c_cfg c)) multiplier predicted (ob_ErrorRate obs) (ob_MeanLatencyMS obs)
    "forecast pressure crossed configured trigger; reduce only non-protected telemetry" "" in
  let answer := audit action in
  let action' := match answer with
                 | Some _ => with_state ActionShadow now
                     "automatic action suppressed because audit persistence failed: " "" action
                 | None => action
                 end in
  let multiplier' := if decide (a_State action' = ActionApplied) then multiplier else c_multiplier c in
  ([(action, answer)],
   set_action multiplier' (Some action') (c_recent c) (c_cooldownUntil c) sequence c).

Definition may_start (now : time) (c : Controller) : bool :=
  negb (bool_decide (ac_Mode (c_cfg c) = ModeOff)) && (c_cooldownUntil c <=? now) &&
  (ac_MinObservations (c_cfg c) <=? zlen (c_history c)) &&
  (fc_PredictedPressure (c_forecast c) >=? ac_TriggerPressure (c_cfg c))%F.

Definition Tick (now : time) (c : Controller) : audited * Controller :=
  let obs := observe_window now c in
  let c := record_window obs now c in
  let '(records, c) := evaluateActiveLocked obs now c in
  match c_active c with
  | None => if may_start now c
            then let '(records', c) := startActionLocked obs now c in (records ++ records', c)
            else (records, c)
  | Some _ => (records, c)
  end.

End audit.

(** [Snapshot]: a copy of what the controller holds. *)
Record Snapshot := mkSnapshot {
  sn_Mode : Mode;
  sn_CurrentMultiplier : float64;
  sn_Forecast : Forecast;
  sn_LastObservation : Observation;
  sn_ActiveAction : option Action;
  sn_RecentActions : list Action;
  sn_CooldownUntil : time;
}.

Definition zero_observation : Observation := mkObservation 0 float_zero float_zero float_zero float_zero 0.

Definition snapshotLocked (c : Controller) (last : Observation) : Snapshot :=
  mkSnapshot (ac_Mode (c_cfg c)) (c_multiplier c) (c_forecast c) last (c_active c) (c_recent c) (c_cooldownUntil c).

Definition takeSnapshot (c : Controller) : Snapshot :=
  snapshotLocked c (default zero_observation (last (c_history c))).

(** ** Executions *)

Inductive operation : Type :=
  | OpQueueDepth (current capacity : Z)
  | OpJobCompleted (duration attempts : Z) (outcome : string)
  | OpTick (now : time) (audit : Action -> option error).

Definition perform (op : operation) (c : Controller) : audited * Controller :=
  match op with
  | OpQueueDepth current capacity => ([], QueueDepth current capacity c)
  | OpJobCompleted duration attempts outcome => ([], JobCompleted duration attempts outcome c)
  | OpTick now audit => Tick audit now c
  end.

(** All the records handed to the auditor, and the controller in the end. *)
Fixpoint execute (ops : list operation) (c : Controller) : audited * Controller :=
  match ops with
  | [] => ([], c)
  | op :: ops' =>
      let '(records, c') := perform op c in
      let '(records', c'') := execute ops' c' in
      (records ++ records', c'')
  end.

(** ** Bounds of the multiplier *)

(** In (0, 1], and not below the configured minimum unless that is NaN. *)
Definition bounded_multiplier (cfg : Config) (m : float64) : Prop :=
  (float_zero <? m)%F = true /\ (m <=? float_one)%F = true /\
  (is_nan (ac_MinMultiplier cfg) = true \/ (ac_MinMultiplier cfg <=? m)%F = true).

Lemma validated_minimum cfg :
  Validate cfg = Ok tt ->
  (ac_MinMultiplier cfg <=? float_zero)%F = false /\ (float_one <? ac_MinMultiplier cfg)%F = false.
Proof.
  unfold Validate. destruct (ac_Mode cfg); [..|done];
    repeat (match goal with |- context [if ?b then Err _ else _] => destruct b eqn:?; [done|] end); intros _; by bools.
Qed.

Lemma recommended_bounded cfg predicted :
  Validate cfg = Ok tt -> bounded_multiplier cfg (recommendedMultiplier predicted (ac_MinMultiplier cfg)).
Proof.
  intros [Hlow Hhigh]%validated_minimum. unfold recommendedMultiplier, bounded_multiplier.
  set (minimum := ac_MinMultiplier cfg) in *. set (candidate := if (_ <=? predicted)%F then _ else _).
  assert ((float_zero <? candidate)%F = true /\ (candidate <=? float_one)%F = true) as [Hc1 Hc2].
  { unfold candidate. destruct (_ <=? predicted)%F; [done|]. by destruct (_ <=? predicted)%F. }
  destruct (SFleb_nan _ _ Hc2) as [Hcn _].
  assert (forall x, (x <=? float_one)%F = true -> (if (float_one <? x)%F then float_one else x) = x) as Hcap.
  { intros x Hx. destruct (SFleb_nan _ _ Hx) as [Hn _]. by rewrite (SFltb_leb float_one x), Hx. }
  destruct (candidate <? minimum)%F eqn:E.
  - assert (is_nan minimum = false) as Hn by (apply SFltb_le, SFleb_nan in E; tauto).
    assert ((minimum <=? float_one)%F = true) as Hle by (by apply not_SFltb).
    rewrite Hcap by done. split; [by rewrite SFltb_leb, Hlow|]. split; [done|]. right. by apply SFleb_refl.
  - rewrite Hcap by done. split; [done|]. split; [done|]. destruct (is_nan minimum) eqn:Hn; [by left|right].
    by apply not_SFltb.
Qed.

Lemma one_bounded : (float_zero <? float_one)%F = true /\ (float_one <=? float_one)%F = true.
Proof. done. Qed.

(** ** The invariant *)

(** Neither below 0 nor above 1. *)
Definition within_unit (p : float64) : Prop := (p <? float_zero)%F = false /\ (float_one <? p)%F = false.

Lemma clamp_within p : within_unit (clamp p float_zero float_one).
Proof.
  unfold clamp, within_unit. destruct (p <? float_zero)%F eqn:E1; [done|].
  destruct (float_one <? p)%F eqn:E2; [done|]. by rewrite E1, E2.
Qed.

Definition is_i64 (z : Z) : Prop := - 2 ^ 63 <= z < 2 ^ 63.

Lemma i64_range z : is_i64 (i64 z).
Proof.
  unfold is_i64, i64, modulus64. change (2 ^ 64) with (2 * 2 ^ 63).
  pose proof (Z.mod_pos_bound z (2 * 2 ^ 63) ltac:(lia)). destruct (Z.ltb_spec (z mod (2 * 2 ^ 63)) (2 ^ 63)); lia.
Qed.

Lemma u64_range z : is_u64 (u64 z).
Proof. apply Z.mod_pos_bound. done. Qed.

(** The action in progress: shadow, or applied in auto mode with a successful audit record,
    and then it is what the multiplier shows. *)
Definition action_ok (log : audited) (cfg : Config) (multiplier : float64) (active : option Action) : Prop :=
  match active with
  | None => multiplier = float_one
  | Some a =>
      a_ExpiresAt a = a_CreatedAt a + ac_MaxActionTTL cfg /\ bounded_multiplier cfg (a_Multiplier a) /\
      match a_State a with
      | ActionShadow => multiplier = float_one
      | ActionApplied => ac_Mode cfg = ModeAuto /\ multiplier = a_Multiplier a /\ (a, None) ∈ log
      | _ => False
      end
  end.

Record well_formed (log : audited) (c : Controller) : Prop := {
  wf_cfg : Validate (c_cfg c) = Ok tt;
  wf_pressure : within_unit (c_queuePressure c);
  wf_predicted : within_unit (fc_PredictedPressure (c_forecast c));
  wf_counters : is_u64 (c_completed c) /\ is_u64 (c_failed c) /\ is_u64 (c_retries c) /\ is_u64 (c_sequence c);
  wf_latency : is_i64 (c_totalLatency c);
  wf_history : zlen (c_history c) <= ac_Window (c_cfg c);
  wf_recent : zlen (c_recent c) <= 16;
  wf_closed : Forall (fun a => a_State a = ActionRolledBack \/ a_State a = ActionExpired) (c_recent c);
  wf_action : action_ok log (c_cfg c) (c_multiplier c) (c_active c);
}.

Lemma keep_last_length {A} n (l : list A) : 0 <= n -> zlen (keep_last n l) <= n.
Proof. intros Hn. unfold zlen, keep_last. rewrite length_drop. lia. Qed.

Lemma action_ok_more log more cfg m active : action_ok log cfg m active -> action_ok (log ++ more) cfg m active.
Proof.
  unfold action_ok. destruct active as [a|]; [|done]. intros (H1 & H2 & H3). split; [done|]. split; [done|].
  destruct (a_State a); try done. destruct H3 as (? & ? & ?). split; [done|]. split; [done|].
  apply elem_of_app. by left.
Qed.

Lemma forecast_within history horizon now : within_unit (fc_PredictedPressure (ForecastPressure history horizon now)).
Proof.
  unfold ForecastPressure. destruct history as [|first rest]; [done|]. set (h := first :: rest).
  destruct (last h) as [latest|]; [|done]. destruct (zlen h <? 2); [apply clamp_within|].
  destruct (foldl _ _ h) as [[[sumX sumY] sumXY] sumXX].
  destruct (SFabs _ <? _)%F; apply clamp_within.
Qed.

Lemma record_window_wf log obs now c : well_formed log c -> well_formed log (record_window obs now c).
Proof.
  intros [W1 W2 W3 W4 W5 W6 W7 W8 W9]. split; try done; cbn; [apply forecast_within|].
  destruct (Z.ltb_spec (ac_Window (c_cfg c)) (zlen (c_history c ++ [obs]))) as [_|H]; [|done].
  apply keep_last_length. pose proof (zlen_nonneg (c_history c)). lia.
Qed.

Lemma rollback_terminal cfg a obs now why terminal :
  rollback_reason cfg a obs now = Some (why, terminal) -> terminal = ActionRolledBack \/ terminal = ActionExpired.
Proof.
  unfold rollback_reason.
  repeat (match goal with |- context [if ?b then Some _ else _] => destruct b; [intros [= <- <-]; auto|] end). done.
Qed.

Lemma evaluate_wf audit log obs now c :
  well_formed log c ->
  well_formed (log ++ (evaluateActiveLocked audit obs now c).1) (evaluateActiveLocked audit obs now c).2.
Proof.
  intros W. unfold evaluateActiveLocked. destruct (c_active c) as [a|] eqn:Ha; [|by rewrite app_nil_r].
  destruct (rollback_reason _ _ _ _) as [[why terminal]|] eqn:Hr; [|by rewrite app_nil_r].
  apply rollback_terminal in Hr. destruct W as [W1 W2 W3 W4 W5 W6 W7 W8 W9]. cbv zeta. set (closed := match audit _ with Some _ => _ | None => _ end).
  assert (a_State closed = ActionRolledBack \/ a_State closed = ActionExpired) as Hc
    by (unfold closed; by destruct (audit _)).
  split; try done; cbn.
  - destruct (Z.ltb_spec 16 (zlen (c_recent c ++ [closed]))); [by apply keep_last_length|done].
  - assert (Forall (fun a => a_State a = ActionRolledBack \/ a_State a = ActionExpired) (c_recent c ++ [closed])) as Hall
      by (apply Forall_app; split; [done|by constructor]).
    destruct (16 <? _); [by apply Forall_drop|done].
Qed.

Lemma start_wf audit log obs now c :
  well_formed log c -> c_active c = None ->
  well_formed (log ++ (startActionLocked audit obs now c).1) (startActionLocked audit obs now c).2.
Proof.
  intros [W1 W2 W3 W4 W5 W6 W7 W8 W9] Ha. rewrite Ha in W9. cbn in W9.
  pose proof (recommended_bounded (c_cfg c) (fc_PredictedPressure (c_forecast c)) W1) as Hb.
  unfold startActionLocked. cbv zeta. set (action := mkAction _ _ _ _ _ _ _ _ _ _ _).
  split; try done; cbn.
  - destruct W4 as (? & ? & ? & ?). repeat (split; [done|]). apply u64_range.
  - destruct (audit action) as [e|] eqn:He; cbn.
    + split; [done|]. split; [done|]. done.
    + split; [done|]. split; [done|]. destruct (decide (ac_Mode (c_cfg c) = ModeAuto)) as [Hm|]; [|done].
      cbn. split; [done|]. split; [done|]. apply elem_of_app. right. by left.
Qed.

Lemma perform_wf log op c : well_formed log c -> well_formed (log ++ (perform op c).1) (perform op c).2.
Proof.
  intros W. destruct op as [current capacity|duration attempts outcome|now audit]; cbn [perform fst snd].
  - rewrite app_nil_r. destruct W. split; try done. cbn. destruct (capacity <=? 0); [done|apply clamp_within].
  - rewrite app_nil_r. destruct W as [W1 W2 W3 (Wc & Wf & Wr & Ws) W5 W6 W7 W8 W9]. split; try done; cbn.
    + split; [apply u64_range|]. split; [destruct (counts_as_failure outcome); [apply u64_range|done]|].
      split; [|done]. destruct (1 <? attempts); [apply u64_range|done].
    + apply i64_range.
  - unfold Tick. cbv zeta. set (obs := observe_window now c).
    pose proof (evaluate_wf audit log obs now _ (record_window_wf log obs now c W)) as We.
    destruct (evaluateActiveLocked audit obs now (record_window obs now c)) as [records c1]. cbn [fst snd] in We.
    destruct (c_active c1) eqn:Ha; [done|]. destruct (may_start now c1); [|done].
    pose proof (start_wf audit _ obs now c1 We Ha) as Ws. destruct (startActionLocked audit obs now c1) as [records' c2].
    cbn [fst snd] in *. by rewrite app_assoc.
Qed.

Lemma execute_wf ops log c : well_formed log c -> well_formed (log ++ (execute ops c).1) (execute ops c).2.
Proof.
  revert log c. induction ops as [|op ops IH]; intros log c W; cbn [execute]; [by rewrite app_nil_r|].
  pose proof (perform_wf log op c W) as Wp. destruct (perform op c) as [records c1]. cbn [fst snd] in Wp.
  specialize (IH _ _ Wp). destruct (execute ops c1) as [records' c2]. cbn [fst snd] in *. by rewrite app_assoc.
Qed.

Lemma new_wf cfg c : NewController cfg = Ok c -> well_formed [] c /\ c_cfg c = cfg.
Proof.
  unfold NewController, mbind, result_mbind. destruct (Validate cfg) as [[]|] eqn:Hv; [|done]. intros [= <-]. split; [|done].
  assert (3 <= ac_Window cfg) as Hw.
  { revert Hv. unfold Validate. destruct (ac_Mode cfg); [..|done];
      destruct ((ac_Window cfg <? 3) || (256 <? ac_Window cfg)) eqn:E; try done; bools; guards; lia. }
  split; try done; cbn. rewrite zlen_nil. lia.
Qed.

Lemma perform_cfg op c : c_cfg (perform op c).2 = c_cfg c.
Proof.
  destruct op as [| |now audit]; [done..|]. cbn [perform]. unfold Tick. cbv zeta.
  assert (forall obs c, c_cfg (evaluateActiveLocked audit obs now c).2 = c_cfg c) as He.
  { intros obs c'. unfold evaluateActiveLocked. destruct (c_active c'); [|done]. by destruct (rollback_reason _ _ _ _) as [[? ?]|]. }
  specialize (He (observe_window now c) (record_window (observe_window now c) now c)).
  destruct (evaluateActiveLocked _ _ _ _) as [records c1]. cbn [snd] in He.
  destruct (c_active c1); [done|]. by destruct (may_start now c1).
Qed.

Lemma execute_cfg ops c : c_cfg (execute ops c).2 = c_cfg c.
Proof.
  revert c. induction ops as [|op ops IH]; intros c; cbn [execute]; [done|].
  pose proof (perform_cfg op c) as Hp. destruct (perform op c) as [records c1]. specialize (IH c1).
  destruct (execute ops c1). cbn [snd] in *. congruence.
Qed.

Lemma execute_app ops ops' c :
  execute (ops ++ ops') c =
  ((execute ops c).1 ++ (execute ops' (execute ops c).2).1, (execute ops' (execute ops c).2).2).
Proof.
  revert c. induction ops as [|op ops IH]; intros c; cbn [execute app fst snd];
    [by destruct (execute ops' c)|].
  destruct (perform op c) as [records c1]. rewrite IH. destruct (execute ops c1) as [r2 c2]. cbn [fst snd].
  destruct (execute ops' c2). cbn [fst snd]. by rewrite app_assoc.
Qed.

Lemma validated_ttl cfg c : NewController cfg = Ok c -> 0 < ac_MaxActionTTL cfg.
Proof.
  unfold NewController, mbind, result_mbind. destruct (Validate cfg) eqn:Hv; [|done]. intros _. revert Hv.
  unfold Validate. destruct (ac_Mode cfg); [..|done];
    repeat (match goal with |- context [if ?b then Err _ else _] => destruct b eqn:?; [done|] end); intros _;
    bools; guards; lia.
Qed.

(** A started action begins now. *)
Lemma start_active audit obs now c a :
  c_active (startActionLocked audit obs now c).2 = Some a ->
  a_CreatedAt a = now /\ a_ExpiresAt a = now + ac_MaxActionTTL (c_cfg c).
Proof.
  unfold startActionLocked. cbv zeta. cbn [snd c_active set_action]. destruct (audit _); by intros [= <-].
Qed.

(** The action a tick leaves active is new, or the previous one with its guardrails kept. *)
Lemma tick_active audit now c a :
  c_active (Tick audit now c).2 = Some a ->
  (a_CreatedAt a = now /\ a_ExpiresAt a = now + ac_MaxActionTTL (c_cfg c)) \/
  (c_active c = Some a /\ rollback_reason (c_cfg c) a (observe_window now c) now = None).
Proof.
  unfold Tick. cbv zeta. set (obs := observe_window now c). set (c' := record_window obs now c).
  assert (c_active c' = c_active c /\ c_cfg c' = c_cfg c) as [Ha' Hc'] by done.
  unfold evaluateActiveLocked. rewrite Ha', Hc'.
  assert (forall c1 records, c_active c1 = None -> c_cfg c1 = c_cfg c ->
    c_active (if may_start now c1
              then let '(records', c2) := startActionLocked audit obs now c1 in (records ++ records', c2)
              else (records, c1)).2 = Some a -> a_CreatedAt a = now /\ a_ExpiresAt a = now + ac_MaxActionTTL (c_cfg c)) as Hs.
  { intros c1 records Hn Hc1. destruct (may_start now c1); [|cbn; congruence]. intros H.
    rewrite <- Hc1. eapply (start_active audit obs now c1). by destruct (startActionLocked audit obs now c1). }
  destruct (c_active c) as [a0|] eqn:Ha.
  - destruct (rollback_reason (c_cfg c) a0 obs now) as [[why terminal]|] eqn:Hr.
    + cbn [c_active set_action]. intros H. left. by eapply Hs in H.
    + rewrite Ha'. cbn [snd]. rewrite Ha'. intros [= <-]. by right.
  - rewrite Ha'. intros H. left. by eapply Hs in H.
Qed.

(** ** Theorems *)


(** C31: The only mutation is bounded and audited: at every moment the multiplier is 1, or the
    mode is auto and it is the multiplier of the active applied action, in (0, 1] and not
    below a configured minimum that is a number, and the auditor has taken the record of
    that action before. *)
Theorem multiplier_only_from_audited_action cfg c0 ops :
  NewController cfg = Ok c0 ->
  let '(log, c) := execute ops c0 in
  c_multiplier c = float_one \/
  exists a, ac_Mode cfg = ModeAuto /\ c_active c = Some a /\ a_State a = ActionApplied /\
    c_multiplier c = a_Multiplier a /\ bounded_multiplier cfg (a_Multiplier a) /\ (a, None) ∈ log.
Proof.
  intros [W Hcfg]%new_wf. pose proof (execute_wf ops [] c0 W) as We. pose proof (execute_cfg ops c0) as Hc.
  destruct (execute ops c0) as [log c]. cbn in *. pose proof (wf_action _ _ We) as Ha. unfold action_ok in Ha.
  destruct (c_active c) as [a|]; [|by left]. destruct Ha as (_ & Hb & Hs). rewrite Hc, Hcfg in *.
  destruct (a_State a) eqn:E; try done; [by left|right]. destruct Hs as (? & ? & ?). by exists a.
Qed.

(** No action outlives its limits: after every tick, the action still active expires
    later than the tick, at its creation plus the configured maximum, and it is either new
    or passes every guardrail on the observation of this tick: pressure above the recovery
    threshold, error rate and latency within the allowed increase over its baseline. *)
Theorem active_action_within_limits cfg c0 ops now audit a :
  NewController cfg = Ok c0 ->
  c_active (execute (ops ++ [OpTick now audit]) c0).2 = Some a ->
  now < a_ExpiresAt a /\ a_ExpiresAt a = a_CreatedAt a + ac_MaxActionTTL cfg /\
  (a_CreatedAt a = now \/
   rollback_reason cfg a (observe_window now (execute ops c0).2) now = None).
Proof.
  intros Hnew Ha. destruct (new_wf cfg c0 Hnew) as [W Hcfg].
  pose proof (execute_wf (ops ++ [OpTick now audit]) [] c0 W) as We. pose proof (wf_action _ _ We) as Hok.
  unfold action_ok in Hok. rewrite Ha, execute_cfg, Hcfg in Hok. destruct Hok as (Hexp & _).
  rewrite execute_app in Ha. cbn [execute perform] in Ha.
  assert (c_active (Tick audit now (execute ops c0).2).2 = Some a) as Ht
    by (by destruct (Tick audit now (execute ops c0).2)).
  pose proof (validated_ttl cfg c0 Hnew). apply tick_active in Ht. rewrite execute_cfg, Hcfg in Ht.
  destruct Ht as [[Hcr Hex]|[_ Hr]]; [split; [lia|auto]|]. split; [|auto]. unfold rollback_reason in Hr.
  destruct (Z.leb_spec (a_ExpiresAt a) now); [done|lia].
Qed.

(** The validation of the bounds is by comparisons that are false on NaN, so NaN is accepted,
    and an error-rate guardrail of NaN never fires. *)
Lemma nan_guardrail_accepted :
  let cfg := mkConfig ModeAuto 12 (30 * ns_second) (5 * ns_second) (float_ratio 82 100) (float_ratio 55 100)
    (float_ratio 35 100) (2 * ns_minute) (30 * ns_second) 4 S754_nan (float_ratio 25 100) in
  Validate cfg = Ok tt /\
  forall (action : Action) (obs : Observation),
    (ob_ErrorRate obs >? a_BaselineErrorRate action + ac_MaxErrorRateIncrease cfg)%F = false.
Proof.
  split; [by vm_compute|]. intros action obs. cbn.
  assert (a_BaselineErrorRate action + S754_nan = S754_nan)%F as ->
    by (unfold float_add; by destruct (a_BaselineErrorRate action)).
  done.
Qed.

(** ** Witnesses

    Auto mode with the default limits; the queue fills up over four ticks, five seconds
    apart. *)

Definition demo_config : Config :=
  mkConfig ModeAuto 12 (30 * ns_second) (5 * ns_second) (float_ratio 82 100) (float_ratio 55 100)
    (float_ratio 35 100) (2 * ns_minute) (30 * ns_second) 4 (float_ratio 2 100) (float_ratio 25 100).

Definition demo_controller : Controller :=
  mkController demo_config float_one float_zero 0 0 0 0 0 0 0 0 [] zero_forecast None [] 0 0.

Definition demo_ops : list operation :=
  [OpQueueDepth 5 10; OpTick (1 * ns_second) (fun _ => None);
   OpQueueDepth 6 10; OpTick (6 * ns_second) (fun _ => None);
   OpQueueDepth 7 10; OpJobCompleted 1000000 2 "success"; OpTick (11 * ns_second) (fun _ => None)].
Definition demo_tick : list operation := [OpQueueDepth 8 10].

Lemma demo_new : NewController demo_config = Ok demo_controller.
Proof. vm_compute. reflexivity. Qed.

Lemma demo_action : exists a,
  c_active (execute ((demo_ops ++ demo_tick) ++ [OpTick (16 * ns_second) (fun _ => None)]) demo_controller).2 = Some a /\
  a_State a = ActionApplied /\ a_Multiplier a = float_ratio 50 100.
Proof. eexists. vm_compute. split; [reflexivity|]. split; reflexivity. Qed.


Lemma multiplier_only_from_audited_action_witness :
  let '(log, c) := execute ((demo_ops ++ demo_tick) ++ [OpTick (16 * ns_second) (fun _ => None)]) demo_controller in
  c_multiplier c = float_one \/
  exists a, ac_Mode demo_config = ModeAuto /\ c_active c = Some a /\ a_State a = ActionApplied /\
    c_multiplier c = a_Multiplier a /\ bounded_multiplier demo_config (a_Multiplier a) /\ (a, None) ∈ log.
Proof.
  exact (multiplier_only_from_audited_action demo_config demo_controller
    ((demo_ops ++ demo_tick) ++ [OpTick (16 * ns_second) (fun _ => None)]) demo_new).
Defined.

Lemma active_action_within_limits_witness : exists a,
  a_State a = ActionApplied /\ 16 * ns_second < a_ExpiresAt a /\ a_ExpiresAt a = a_CreatedAt a + 2 * ns_minute.
Proof.
  destruct demo_action as (a & Ha & Hs & _). exists a.
  destruct (active_action_within_limits demo_config demo_controller (demo_ops ++ demo_tick) (16 * ns_second)
    (fun _ => None) a demo_new Ha) as (H1 & H2 & _).
  exact (conj Hs (conj H1 H2)).
Defined.
