(* ===== verification/Shaping.v ===== *)
(** * Adaptive sampling and shaping ([internal/shaping])

    Rules that match events, protection, deterministic sampling and the tag and payload
    transformations, with the validation of a configuration.  Ranging over a Go map visits
    its entries in an unspecified order: where the order can be seen (the protection tags)
    the visited list is an argument, a permutation of the map's entries; elsewhere only
    which of several errors is reported depends on it.  The length of an event's JSON form
    is a parameter. *)

From S2P Require Import Prelude GoStrings GoFloat GoPath GoTime Hash Domain.

Local Open Scope string_scope.
Local Open Scope Z_scope.
Local Open Scope list_scope.

Definition PayloadKeep := "keep".
Definition PayloadDrop := "drop".

(** ** Configuration ([model.go]) *)

Record Protection := mkProtection {
  pr_Errors : bool;
  pr_Severities : list string;
  pr_Types : list string;
  pr_Tags : gmap string string;
  pr_LatencyThresholdMS : float64;
}.

Record PressureConfig := mkPressure {
  pc_Enabled : bool;
  pc_HighWatermark : float64;
  pc_CriticalWatermark : float64;
  pc_HighFactor : float64;
  pc_CriticalFactor : float64;
}.

Record Rule := mkRule {
  ru_Name : string;
  ru_Tenant : string;
  ru_Source : string;
  ru_Type : string;
  ru_Severity : list string;
  ru_Tags : gmap string string;
  ru_SampleRate : option float64;
  ru_MinSampleRate : float64;
  ru_DropTags : list string;
  ru_RenameTags : gmap string string;
  ru_PayloadMaxBytes : Z;
  ru_PayloadAction : string;
  ru_ShapeProtected : bool;
  ru_Stop : bool;
}.

Record Config := mkConfig {
  sc_Name : string;
  sc_Version : string;
  sc_DefaultSampleRate : float64;
  sc_Protection : Protection;
  sc_Pressure : PressureConfig;
  sc_Rules : list Rule;
}.

Record Decision := mkDecision {
  d_TenantID : string;
  d_EventID : string;
  d_Source : string;
  d_EventType : string;
  d_ObservedAt : time;
  d_ConfigName : string;
  d_ConfigVersion : string;
  d_Rules : list string;
  d_Keep : bool;
  d_Protected : bool;
  d_ProtectionReason : string;
  d_BaseRate : float64;
  d_EffectiveRate : float64;
  d_QueuePressure : float64;
  d_AutonomyMultiplier : float64;
  d_DroppedTags : list string;
  d_RenamedTags : gmap string string;
  d_PayloadDropped : bool;
  d_OriginalBytes : Z;
  d_ShapedBytes : Z;
  d_Reason : string;
}.

Record ShadowDiff := mkShadowDiff {
  sd_TenantID : string;
  sd_EventID : string;
  sd_ObservedAt : time;
  sd_ActiveConfig : string;
  sd_ActiveVersion : string;
  sd_ShadowConfig : string;
  sd_ShadowVersion : string;
  sd_ActiveKeep : bool;
  sd_ShadowKeep : bool;
  sd_ActiveRate : float64;
  sd_ShadowRate : float64;
  sd_ActiveEffects : list string;
  sd_ShadowEffects : list string;
}.

Definition pressure_validate (pressure : PressureConfig) : result unit :=
  if negb (pc_Enabled pressure) then Ok tt
  else if (pc_HighWatermark pressure <=? float_zero)%F || (pc_HighWatermark pressure >=? float_one)%F
  then Err (ErrMsg "pressure high_watermark must be between 0 and 1")
  else if (pc_CriticalWatermark pressure <=? pc_HighWatermark pressure)%F || (pc_CriticalWatermark pressure >? float_one)%F
  then Err (ErrMsg "pressure critical_watermark must be greater than high_watermark and at most 1")
  else if (pc_HighFactor pressure <=? float_zero)%F || (pc_HighFactor pressure >? float_one)%F
  then Err (ErrMsg "pressure high_factor must be between 0 and 1")
  else if (pc_CriticalFactor pressure <=? float_zero)%F || (pc_CriticalFactor pressure >? pc_HighFactor pressure)%F
  then Err (ErrMsg "pressure critical_factor must be greater than 0 and no more than high_factor")
  else Ok tt.

(** A map of tag patterns: no blank key, every pattern well formed. *)
Definition validate_tags (label : string) (tags : gmap string string) : result unit :=
  first_error ((fun '(key, pattern) =>
    if blank key then Err (ErrMsg (label +:+ " tag key is empty"))
    else validateGlob (label +:+ " tag " +:+ key) pattern) <$> map_to_list tags).

(** The rename loop of [Validate]: [targets] are the ones seen so far. *)
Fixpoint validate_renames (dropped : list string) (targets : list string) (renames : list (string * string))
  : result unit :=
  match renames with
  | [] => Ok tt
  | (from, to) :: rest =>
      let from := trim_space from in
      let to := trim_space to in
      if bool_decide (from = "") || bool_decide (to = "") || bool_decide (from = to)
      then Err (ErrMsg "shaping rule has invalid rename")
      else if bool_decide (from ∈ dropped) then Err (ErrMsg "shaping rule cannot both drop and rename tag")
      else if bool_decide (to ∈ targets) then Err (ErrMsg "shaping rule has duplicate rename target")
      else validate_renames dropped (to :: targets) rest
  end.

(** The checks of one rule; [seen] are the names of the rules before it. *)
Definition validate_rule (seen : list string) (rule : Rule) : result unit :=
  first_error [
    reject_if (blank (ru_Name rule)) "shaping rule name is required";
    reject_if (128 <? Z.of_nat (String.length (ru_Name rule))) "shaping rule name exceeds maximum";
    reject_if (128 <? Z.of_nat (size (ru_Tags rule))) "shaping rule has too many tag matchers";
    reject_if (128 <? zlen (ru_DropTags rule) + Z.of_nat (size (ru_RenameTags rule)))
      "shaping rule has too many tag transforms";
    reject_if (bool_decide (ru_Name rule ∈ seen)) "duplicate shaping rule";
    validateGlob "shaping rule tenant" (ru_Tenant rule);
    validateGlob "shaping rule source" (ru_Source rule);
    validateGlob "shaping rule type" (ru_Type rule);
    validate_tags "shaping rule" (ru_Tags rule);
    reject_if (match ru_SampleRate rule with
               | Some rate => (rate <? float_zero)%F || (rate >? float_one)%F
               | None => false
               end) "shaping rule sample_rate must be between 0 and 1";
    reject_if ((ru_MinSampleRate rule <? float_zero)%F || (ru_MinSampleRate rule >? float_one)%F)
      "shaping rule min_sample_rate must be between 0 and 1";
    reject_if (match ru_SampleRate rule with
               | Some rate => (ru_MinSampleRate rule >? rate)%F
               | None => false
               end) "shaping rule min_sample_rate cannot exceed sample_rate";
    reject_if (ru_PayloadMaxBytes rule <? 0) "shaping rule payload_max_bytes cannot be negative";
    reject_if (negb (bool_decide (ru_PayloadAction rule = "")) &&
               negb (bool_decide (ru_PayloadAction rule = PayloadKeep)) &&
               negb (bool_decide (ru_PayloadAction rule = PayloadDrop)))
      "shaping rule payload_action must be keep or drop";
    reject_if (existsb blank (ru_DropTags rule)) "shaping rule contains an empty drop_tags key";
    validate_renames (trim_space <$> ru_DropTags rule) [] (map_to_list (ru_RenameTags rule))].

Fixpoint validate_rules (seen : list string) (rules : list Rule) : result unit :=
  match rules with
  | [] => Ok tt
  | rule :: rest =>
      match validate_rule seen rule with
      | Err e => Err e
      | Ok _ => validate_rules (ru_Name rule :: seen) rest
      end
  end.

Definition Validate (config : Config) : result unit :=
  first_error [
    reject_if (blank (sc_Name config)) "shaping config name is required";
    reject_if (128 <? Z.of_nat (String.length (sc_Name config))) "shaping config name exceeds maximum";
    reject_if (blank (sc_Version config)) "shaping config version is required";
    reject_if (128 <? Z.of_nat (String.length (sc_Version config))) "shaping config version exceeds maximum";
    reject_if (256 <? zlen (sc_Rules config)) "shaping config has too many rules";
    reject_if ((sc_DefaultSampleRate config <? float_zero)%F || (sc_DefaultSampleRate config >? float_one)%F)
      "default_sample_rate must be between 0 and 1";
    pressure_validate (sc_Pressure config);
    first_error (validateGlob "protection type" <$> pr_Types (sc_Protection config));
    validate_tags "protection" (pr_Tags (sc_Protection config));
    validate_rules [] (sc_Rules config)].

(** ** Matching *)

Definition severity (event : Event) : string :=
  let tag key := trim_space (default "" (ev_Tags event !! key)) in
  if negb (bool_decide (tag "severity" = "")) then to_lower (tag "severity")
  else if negb (bool_decide (tag "level" = "")) then to_lower (tag "level")
  else if string_contains (to_lower (ev_Type event)) "error" then "error"
  else "".

Definition ruleMatches (rule : Rule) (event : Event) : bool :=
  glob (ru_Tenant rule) (ev_TenantID event) && glob (ru_Source rule) (ev_Source event) &&
  glob (ru_Type rule) (ev_Type event) &&
  (bool_decide (ru_Severity rule = []) ||
   existsb (fun candidate => equal_fold (trim_space candidate) (severity event)) (ru_Severity rule)) &&
  forallb (fun '(key, pattern) =>
    match ev_Tags event !! key with Some value => glob pattern value | None => false end)
    (map_to_list (ru_Tags rule)).

(** [isProtected]; [tags] is the order in which the protection tags are visited. *)
Definition isProtected (protection : Protection) (tags : list (string * string)) (event : Event) : bool * string :=
  let actual := severity event in
  if pr_Errors protection &&
     (string_contains (to_lower (ev_Type event)) "error" || bool_decide (actual = "error") ||
      bool_decide (actual = "critical") || bool_decide (actual = "fatal"))
  then (true, "error/severe telemetry")
  else if existsb (fun candidate => equal_fold (trim_space candidate) actual && negb (bool_decide (actual = "")))
            (pr_Severities protection)
  then (true, "protected severity " +:+ actual)
  else match list_find (fun pattern => glob pattern (ev_Type event) = true) (pr_Types protection) with
  | Some (_, pattern) => (true, "protected event type " +:+ pattern)
  | None =>
      match list_find (fun '(key, pattern) =>
              match ev_Tags event !! key with Some value => glob pattern value | None => false end = true) tags with
      | Some (_, (key, _)) => (true, "protected tag " +:+ key)
      | None =>
          match ev_Value event with
          | Some value =>
              if (pr_LatencyThresholdMS protection >? float_zero)%F && equal_fold (ev_Unit event) "ms" &&
                 (string_contains (to_lower (ev_Type event)) "latency" ||
                  string_contains (to_lower (ev_Type event)) "duration") &&
                 (value >=? pr_LatencyThresholdMS protection)%F
              then (true, "high-latency telemetry")
              else (false, "")
          | None => (false, "")
          end
      end
  end.

(** ** Rates ([engine.go]) *)

Definition effectiveRate (pressure : PressureConfig) (base min current : float64) : float64 :=
  let base := clamp base float_zero float_one in
  let min := clamp min float_zero base in
  let current := clamp current float_zero float_one in
  if negb (pc_Enabled pressure) || (current <? pc_HighWatermark pressure)%F then base
  else
    let factor := if (current >=? pc_CriticalWatermark pressure)%F then pc_CriticalFactor pressure
                  else pc_HighFactor pressure in
    let result := (base * factor)%F in
    let result := if (result <? min)%F then min else result in
    clamp result float_zero float_one.

Definition be64_decode (b : bytes) : Z := foldl (fun acc x => acc * 256 + Z_of_byte x) 0 (take 8 b).

(** The event's position in [0, 1] for a configuration. *)
Definition sample_fraction (event : Event) (config : Config) : float64 :=
  let identity :=
    if bool_decide (ev_ID event = "")
    then ev_TenantID event +:+ "|" +:+ ev_Source event +:+ "|" +:+ ev_Type event +:+ "|" +:+
         format_rfc3339_nano (ev_Timestamp event) +:+ "|" +:+ ev_CorrelationID event
    else ev_ID event in
  let sum := sha256 (to_bytes (sc_Name config +:+ "|" +:+ sc_Version config +:+ "|" +:+ identity)) in
  (float_of_int (be64_decode sum) / float_of_int (2 ^ 64 - 1))%F.

Definition deterministicKeep (event : Event) (config : Config) (rate : float64) : bool :=
  if (rate <=? float_zero)%F then false
  else if (rate >=? float_one)%F then true
  else (sample_fraction event config <? rate)%F.

(** ** Evaluation *)

(** The variables of the rule loop. *)
Record loop := mkLoop {
  lp_rate : float64;
  lp_minRate : float64;
  lp_tags : gmap string string;
  lp_payload : bytes;
  lp_matched : list string;
  lp_dropped : gset string;
  lp_renamed : gmap string string;
  lp_payloadDropped : bool;
}.

Definition drop_tag (st : gmap string string * gset string) (key : string) : gmap string string * gset string :=
  let '(tags, dropped) := st in
  match tags !! key with
  | Some _ => (delete key tags, {[key]} ∪ dropped)
  | None => st
  end.

Definition rename_tag (renames : gmap string string) (st : gmap string string * gmap string string) (from : string)
  : gmap string string * gmap string string :=
  let '(tags, renamed) := st in
  let to := default "" (renames !! from) in
  match tags !! from with
  | None => st
  | Some value =>
      let tags := match tags !! to with Some _ => tags | None => <[to := value]> tags end in
      (delete from tags, <[from := to]> renamed)
  end.

(** The transformations of one rule. *)
Definition transform (rule : Rule) (st : loop) : loop :=
  let '(tags, dropped) := foldl drop_tag (lp_tags st, lp_dropped st) (ru_DropTags rule) in
  let '(tags, renamed) := foldl (rename_tag (ru_RenameTags rule)) (tags, lp_renamed st)
    (sort_strings (fst <$> map_to_list (ru_RenameTags rule))) in
  if (0 <? ru_PayloadMaxBytes rule) && (ru_PayloadMaxBytes rule <? zlen (lp_payload st)) &&
     bool_decide (ru_PayloadAction rule = PayloadDrop)
  then mkLoop (lp_rate st) (lp_minRate st) (<["telemetryforge.payload_oversize" := "true"]> tags) []
         (lp_matched st) dropped renamed true
  else mkLoop (lp_rate st) (lp_minRate st) tags (lp_payload st) (lp_matched st) dropped renamed (lp_payloadDropped st).

(** A matching rule is noted and may set the rates. *)
Definition match_rule (rule : Rule) (st : loop) : loop :=
  let '(rate, minRate) := match ru_SampleRate rule with
                          | Some rate => (rate, ru_MinSampleRate rule)
                          | None => (lp_rate st, lp_minRate st)
                          end in
  mkLoop rate minRate (lp_tags st) (lp_payload st) (lp_matched st ++ [ru_Name rule]) (lp_dropped st)
    (lp_renamed st) (lp_payloadDropped st).

Fixpoint rule_loop (protected : bool) (event : Event) (rules : list Rule) (st : loop) : loop :=
  match rules with
  | [] => st
  | rule :: rest =>
      if ruleMatches rule event then
        let st := match_rule rule st in
        let st := if protected && negb (ru_ShapeProtected rule) then st else transform rule st in
        if ru_Stop rule then st else rule_loop protected event rest st
      else rule_loop protected event rest st
  end.

Definition with_shape (tags : gmap string string) (payload : bytes) (event : Event) : Event :=
  mkEvent (ev_ID event) (ev_TenantID event) (ev_Source event) (ev_Type event) (ev_Timestamp event) tags payload
    (ev_Value event) (ev_Unit event) (ev_SchemaVersion event) (ev_SchemaURL event) (ev_CorrelationID event).

(** The loop before the first rule; [cloneEvent] copies the tags and the payload. *)
Definition loop_start (config : Config) (event : Event) : loop :=
  mkLoop (sc_DefaultSampleRate config) float_zero (ev_Tags event) (ev_Payload event) [] ∅ ∅ false.

(** The rate after pressure and the runtime multiplier. *)
Definition final_rate (config : Config) (protected : bool) (rate minRate queuePressure multiplier : float64) : float64 :=
  let effective := effectiveRate (sc_Pressure config) rate minRate queuePressure in
  if negb protected && (multiplier <? float_one)%F
  then let scaled := (effective * multiplier)%F in if (scaled <? minRate)%F then minRate else scaled
  else effective.

Section engine.
(** [len(json.Marshal(event))]. *)
Variable canonicalBytes : Event -> Z.

Definition evaluateConfig (config : Config) (tags : list (string * string)) (event : Event) (queuePressure : float64)
    (now : time) (autonomyMultiplier : float64) : Event * Decision :=
  let '(protected, protectionReason) := isProtected (sc_Protection config) tags event in
  let st := rule_loop protected event (sc_Rules config) (loop_start config event) in
  let multiplier := clamp autonomyMultiplier float_zero float_one in
  let effective := final_rate config protected (lp_rate st) (lp_minRate st) queuePressure multiplier in
  let keep := protected || deterministicKeep event config effective in
  let reason :=
    if protected then "protected: " +:+ protectionReason
    else if (effective >=? float_one)%F then "sample rate keeps all matching events"
    else if negb keep then "deterministic sample excluded event"
    else "sampled by deterministic event hash" in
  let shaped := with_shape (lp_tags st) (lp_payload st) event in
  (shaped,
   mkDecision (ev_TenantID event) (ev_ID event) (ev_Source event) (ev_Type event) now (sc_Name config) (sc_Version config)
     (lp_matched st) keep protected protectionReason (lp_rate st) effective
     (clamp queuePressure float_zero float_one) multiplier (sort_strings (elements (lp_dropped st))) (lp_renamed st)
     (lp_payloadDropped st) (canonicalBytes event) (canonicalBytes shaped) reason).

Definition effects (decision : Decision) : list string :=
  sort_strings (
    (if d_Keep decision then [] else ["sampled_out"]) ++
    ((fun key => "drop_tag:" +:+ key) <$> d_DroppedTags decision) ++
    ((fun key => "rename_tag:" +:+ key +:+ "->" +:+ default "" (d_RenamedTags decision !! key))
       <$> sort_strings (fst <$> map_to_list (d_RenamedTags decision))) ++
    (if d_PayloadDropped decision then ["drop_payload"] else [])).

Record Engine := mkEngine { en_active : Config; en_shadow : option Config }.

(** [NewEngineWithMultiplier]; the multiplier source is an argument of [Evaluate]. *)
Definition NewEngine (active : Config) (shadow : option Config) : result Engine :=
  match Validate active with
  | Err e => Err (ErrWrap "active shaping config" e)
  | Ok _ =>
      match shadow with
      | Some candidate =>
          match Validate candidate with
          | Err e => Err (ErrWrap "shadow shaping config" e)
          | Ok _ => Ok (mkEngine active shadow)
          end
      | None => Ok (mkEngine active shadow)
      end
  end.

(** [EvaluateWithMultiplier]; [activeTags] and [shadowTags] are the visited protection tags,
    [clock] the reading used when no time is given. *)
Definition EvaluateWithMultiplier (engine : Engine) (activeTags shadowTags : list (string * string)) (clock : time)
    (event : Event) (queuePressure : float64) (now : time) (multiplier : float64)
  : Event * Decision * option ShadowDiff :=
  let now := if is_zero now then clock else now in
  let multiplier := clamp multiplier float_zero float_one in
  let '(activeEvent, activeDecision) := evaluateConfig (en_active engine) activeTags event queuePressure now multiplier in
  match en_shadow engine with
  | None => (activeEvent, activeDecision, None)
  | Some shadow =>
      let shadowDecision := (evaluateConfig shadow shadowTags event queuePressure now multiplier).2 in
      let activeEffects := effects activeDecision in
      let shadowEffects := effects shadowDecision in
      if Bool.eqb (d_Keep activeDecision) (d_Keep shadowDecision) &&
         (d_EffectiveRate activeDecision =? d_EffectiveRate shadowDecision)%F &&
         bool_decide (activeEffects = shadowEffects)
      then (activeEvent, activeDecision, None)
      else (activeEvent, activeDecision,
        Some (mkShadowDiff (ev_TenantID event) (ev_ID event) now (sc_Name (en_active engine)) (sc_Version (en_active engine))
          (sc_Name shadow) (sc_Version shadow) (d_Keep activeDecision) (d_Keep shadowDecision)
          (d_EffectiveRate activeDecision) (d_EffectiveRate shadowDecision) activeEffects shadowEffects))
  end.

(** [Evaluate]; [multiplier] is the reading of the multiplier source, if there is one. *)
Definition Evaluate (engine : Engine) (activeTags shadowTags : list (string * string)) (clock : time)
    (event : Event) (queuePressure : float64) (now : time) (multiplier : option float64)
  : Event * Decision * option ShadowDiff :=
  let multiplier := match multiplier with Some m => clamp m float_zero float_one | None => float_one end in
  EvaluateWithMultiplier engine activeTags shadowTags clock event queuePressure now multiplier.

End engine.

(** ** Queue pressure ([pressure.go]) *)

(** The ratio [PressureController.QueueDepth] stores. *)
Definition pressure_ratio (current capacity : Z) : float64 :=
  let ratio := if 0 <? capacity then (float_of_int current / float_of_int capacity)%F else float_zero in
  let ratio := if (ratio <? float_zero)%F then float_zero else ratio in
  if (ratio >? float_one)%F then float_one else ratio.

(** ** Historical previews ([preview.go]) *)

Record Preview := mkPreview {
  pv_Observed : Z;
  pv_Kept : Z;
  pv_SampledOut : Z;
  pv_ProtectedObserved : Z;
  pv_ProtectedKept : Z;
  pv_Transformed : Z;
  pv_PayloadDropped : Z;
  pv_OriginalBytes : Z;
  pv_ShapedBytes : Z;
  pv_observedKinds : gset string;
  pv_keptKinds : gset string;
}.

Definition kind_of (event : Event) : string := ev_Source event +:+ String (ascii_of_N 0) (ev_Type event).

Definition one_if (b : bool) : Z := if b then 1 else 0.

(** One event of the preview loop. *)
Definition preview_event (event : Event) (decision : Decision) (p : Preview) : Preview :=
  let transformed := negb (bool_decide (d_DroppedTags decision = [])) || negb (bool_decide (d_RenamedTags decision = ∅)) ||
                     d_PayloadDropped decision in
  mkPreview (pv_Observed p + 1)
    (pv_Kept p + one_if (d_Keep decision))
    (pv_SampledOut p + one_if (negb (d_Keep decision)))
    (pv_ProtectedObserved p + one_if (d_Protected decision))
    (pv_ProtectedKept p + one_if (d_Keep decision && d_Protected decision))
    (pv_Transformed p + one_if transformed)
    (pv_PayloadDropped p + one_if (d_PayloadDropped decision))
    (pv_OriginalBytes p + d_OriginalBytes decision)
    (pv_ShapedBytes p + d_ShapedBytes decision)
    ({[kind_of event]} ∪ pv_observedKinds p)
    (if d_Keep decision then {[kind_of event]} ∪ pv_keptKinds p else pv_keptKinds p).

Definition percent (numerator denominator : Z) : float64 :=
  if denominator =? 0 then float_of_int 100
  else (float_of_int numerator * float_of_int 100 / float_of_int denominator)%F.

Definition empty_preview : Preview := mkPreview 0 0 0 0 0 0 0 0 0 ∅ ∅.

(** The counters of [PreviewEvents]; every event is visited with the protection tags in the
    order [tags event], and [clock] is read for an event without a timestamp. *)
Definition PreviewEvents (canonicalBytes : Event -> Z) (config : Config) (tags : Event -> list (string * string))
    (clock : time) (events : list Event) (pressure : float64) : result Preview :=
  engine ← NewEngine config None;
  Ok (foldl (fun p event =>
        let '(_, decision, _) :=
          Evaluate canonicalBytes engine (tags event) [] clock event pressure (ev_Timestamp event) None in
        preview_event event decision p) empty_preview events).

(** The percentages derived from them. *)
Definition preview_percentages (p : Preview) : float64 * float64 * float64 * float64 :=
  (percent (pv_Kept p) (pv_Observed p),
   (if 0 <? pv_OriginalBytes p
    then (float_of_int (pv_ShapedBytes p) * float_of_int 100 / float_of_int (pv_OriginalBytes p))%F else float_zero),
   percent (pv_ProtectedKept p) (pv_ProtectedObserved p),
   percent (Z.of_nat (size (pv_keptKinds p))) (Z.of_nat (size (pv_observedKinds p)))).

(** ** Lemmas *)

(** Whether an event is protected does not depend on the order of the tags. *)
Lemma list_find_perm {A} (Q : A -> Prop) `{forall x, base.Decision (Q x)} l l' :
  l ≡ₚ l' -> is_Some (list_find Q l) <-> is_Some (list_find Q l').
Proof.
  intros Hp. assert (forall k, is_Some (list_find Q k) <-> exists x, x ∈ k /\ Q x) as Hs.
  { intros k. split.
    - intros [[i x] (Hx & HQ & _)%list_find_Some]. exists x. split; [by eapply list_elem_of_lookup_2|done].
    - intros (x & Hx & HQ). by eapply list_find_elem_of. }
  rewrite !Hs. setoid_rewrite Hp. done.
Qed.

Lemma isProtected_order protection tags tags' event :
  tags ≡ₚ tags' -> (isProtected protection tags event).1 = (isProtected protection tags' event).1.
Proof.
  intros Hp. unfold isProtected. destruct (_ && _); [done|]. destruct (existsb _ _); [done|].
  destruct (list_find _ (pr_Types protection)) as [[? ?]|]; [done|].
  match goal with |- context [list_find ?Q tags] => pose proof (list_find_perm Q tags tags' Hp) as Hf end.
  destruct (list_find _ tags) as [[? [? ?]]|], (list_find _ tags') as [[? [? ?]]|]; try done.
  - destruct Hf as [Hf _]. by destruct (Hf ltac:(eauto)).
  - destruct Hf as [_ Hf]. by destruct (Hf ltac:(eauto)).
Qed.

(** Without a rule that shapes protected events, protected events keep their shape. *)
Lemma protected_loop event rules st :
  Forall (fun rule => ruleMatches rule event = true -> ru_ShapeProtected rule = false) rules ->
  lp_tags (rule_loop true event rules st) = lp_tags st /\ lp_payload (rule_loop true event rules st) = lp_payload st.
Proof.
  intros H. revert st. induction H as [|rule rules Hr _ IH]; intros st; cbn [rule_loop]; [done|].
  destruct (ruleMatches rule event); [|apply IH]. rewrite Hr by done. cbn [andb negb].
  assert (lp_tags (match_rule rule st) = lp_tags st /\ lp_payload (match_rule rule st) = lp_payload st) as [<- <-]
    by (unfold match_rule; by destruct (ru_SampleRate rule)).
  destruct (ru_Stop rule); [done|apply IH].
Qed.

Lemma with_shape_id event : with_shape (ev_Tags event) (ev_Payload event) event = event.
Proof. by destruct event. Qed.

(** A larger rate keeps more. *)
Lemma keep_monotone event config r1 r2 :
  (r1 <=? r2)%F = true -> deterministicKeep event config r1 = true -> deterministicKeep event config r2 = true.
Proof.
  intros Hle. destruct (SFleb_nan _ _ Hle) as [Hn1 Hn2]. unfold deterministicKeep.
  destruct (r1 <=? float_zero)%F eqn:E0; [done|].
  assert ((r2 <=? float_zero)%F = false) as ->.
  { apply not_true_iff_false. intros H. by rewrite (SFleb_trans _ _ _ Hle H) in E0. }
  destruct (float_one <=? r1)%F eqn:E1.
  - intros _. by rewrite (SFleb_trans _ _ _ E1 Hle).
  - intros Hk. destruct (float_one <=? r2)%F; [done|]. by eapply SFltb_leb_trans.
Qed.

(** Recorded pressures and multipliers reproduce the rates. *)
Lemma effectiveRate_clamped pressure base min current :
  effectiveRate pressure base min (clamp current float_zero float_one) = effectiveRate pressure base min current.
Proof. unfold effectiveRate. by rewrite clamp_idem. Qed.

Lemma final_rate_clamped config protected rate minRate current multiplier :
  final_rate config protected rate minRate (clamp current float_zero float_one) multiplier =
  final_rate config protected rate minRate current multiplier.
Proof. unfold final_rate. by rewrite effectiveRate_clamped. Qed.

(** ** Accounting for tags *)

Definition oversize_tag : string := "telemetryforge.payload_oversize".

(** Every original tag is still there, or recorded as dropped or renamed. *)
Definition accounted (orig tags : gmap string string) (dropped : gset string) (renamed : gmap string string) : Prop :=
  forall key value, orig !! key = Some value -> key <> oversize_tag ->
    tags !! key = Some value \/ key ∈ dropped \/ is_Some (renamed !! key).

Lemma drop_tags_accounted orig keys tags dropped renamed :
  accounted orig tags dropped renamed ->
  accounted orig (foldl drop_tag (tags, dropped) keys).1 (foldl drop_tag (tags, dropped) keys).2 renamed.
Proof.
  revert tags dropped. induction keys as [|k keys IH]; intros tags dropped H; [done|]. cbn [foldl drop_tag].
  destruct (tags !! k) as [v|] eqn:E; [|by apply IH]. apply IH. intros key value Ho Hne.
  destruct (H key value Ho Hne) as [Ht|[Hd|Hr]]; [|right; left; set_solver|by right; right].
  destruct (decide (key = k)) as [->|]; [right; left; set_solver|]. left. by rewrite lookup_delete_ne.
Qed.

Lemma rename_tags_accounted orig renames keys tags dropped renamed :
  accounted orig tags dropped renamed ->
  accounted orig (foldl (rename_tag renames) (tags, renamed) keys).1 dropped
    (foldl (rename_tag renames) (tags, renamed) keys).2.
Proof.
  revert tags renamed. induction keys as [|k keys IH]; intros tags renamed H; [done|]. cbn [foldl rename_tag].
  destruct (tags !! k) as [v|] eqn:E; [|by apply IH]. apply IH. intros key value Ho Hne.
  destruct (decide (key = k)) as [->|Hk]; [right; right; rewrite lookup_insert_eq; eauto|].
  destruct (H key value Ho Hne) as [Ht|[Hd|Hr]]; [left|by right; left|right; right; by rewrite lookup_insert_ne].
  rewrite lookup_delete_ne by done. destruct (tags !! default "" (renames !! k)) eqn:Eto; [done|].
  rewrite lookup_insert_ne; [done|]. intros <-. congruence.
Qed.

(** The loop keeps the accounts of the event's tags and payload. *)
Record accounts (event : Event) (st : loop) : Prop := {
  ac_tags : accounted (ev_Tags event) (lp_tags st) (lp_dropped st) (lp_renamed st);
  ac_payload : lp_payload st = if lp_payloadDropped st then [] else ev_Payload event;
}.

Lemma transform_accounts event rule st : accounts event st -> accounts event (transform rule st).
Proof.
  intros [Ht Hp]. unfold transform.
  pose proof (drop_tags_accounted _ (ru_DropTags rule) _ _ _ Ht) as Hd.
  destruct (foldl drop_tag _ _) as [tags dropped]. cbn [fst snd] in Hd.
  pose proof (rename_tags_accounted _ (ru_RenameTags rule) (sort_strings (map_to_list (ru_RenameTags rule)).*1) _ _ _ Hd) as Hr.
  destruct (foldl (rename_tag _) _ _) as [tags' renamed]. cbn [fst snd] in Hr.
  destruct (_ && _); (split; [|done]); [|done]. intros key value Ho Hne. cbn.
  rewrite lookup_insert_ne by done. by apply Hr.
Qed.

Lemma loop_accounts protected event rules st : accounts event st -> accounts event (rule_loop protected event rules st).
Proof.
  revert st. induction rules as [|rule rules IH]; intros st H; cbn [rule_loop]; [done|].
  destruct (ruleMatches rule event); [|by apply IH].
  assert (accounts event (match_rule rule st)) as Hm by (unfold match_rule; destruct (ru_SampleRate rule), H; by split).
  assert (accounts event (if protected && negb (ru_ShapeProtected rule) then match_rule rule st
    else transform rule (match_rule rule st))) as Hs by (destruct (_ && _); [done|by apply transform_accounts]).
  destruct (ru_Stop rule); [done|by apply IH].
Qed.

Lemma start_accounts config event : accounts event (loop_start config event).
Proof. split; [|done]. intros key value H _. by left. Qed.

(** ** Theorems *)

Section theorems.
Variable canonicalBytes : Event -> Z.

Abbreviation evaluate := (evaluateConfig canonicalBytes).

(** What a decision says apart from why the event is protected. *)
Definition sans_reason (d : Decision) : Decision :=
  mkDecision (d_TenantID d) (d_EventID d) (d_Source d) (d_EventType d) (d_ObservedAt d) (d_ConfigName d) (d_ConfigVersion d)
    (d_Rules d) (d_Keep d) (d_Protected d) "" (d_BaseRate d) (d_EffectiveRate d) (d_QueuePressure d)
    (d_AutonomyMultiplier d) (d_DroppedTags d) (d_RenamedTags d) (d_PayloadDropped d) (d_OriginalBytes d)
    (d_ShapedBytes d) "".

(** C18: Protected telemetry is never sampled out: whatever the rates, the queue pressure, the
    runtime multiplier and the order in which the protection tags are visited, a protected
    event is kept; and unless a rule that matches it asks to shape protected events, its
    tags and its payload are untouched. *)
Theorem protected_events_survive config tags event pressure now multiplier :
  (isProtected (sc_Protection config) tags event).1 = true ->
  let '(shaped, decision) := evaluate config tags event pressure now multiplier in
  d_Keep decision = true /\ d_Protected decision = true /\
  (Forall (fun rule => ruleMatches rule event = true -> ru_ShapeProtected rule = false) (sc_Rules config) ->
   shaped = event).
Proof.
  unfold evaluateConfig. destruct (isProtected _ _ _) as [protected reason]. cbn [fst]. intros ->. cbn.
  split; [done|]. split; [done|]. intros Hr. destruct (protected_loop event (sc_Rules config) (loop_start config event) Hr) as [-> ->].
  apply with_shape_id.
Qed.

(** Sampling is nested: for one event and configuration, if the event is kept at some
    effective rate it is kept at every larger one, so raising a rate, relieving pressure or
    raising the multiplier never drops an event that was kept before. *)
Theorem sampling_nested config event tags pressure now multiplier tags' pressure' now' multiplier' :
  tags ≡ₚ tags' ->
  let d := (evaluate config tags event pressure now multiplier).2 in
  let d' := (evaluate config tags' event pressure' now' multiplier').2 in
  (d_EffectiveRate d <=? d_EffectiveRate d')%F = true -> d_Keep d = true -> d_Keep d' = true.
Proof.
  intros Hp. pose proof (isProtected_order (sc_Protection config) _ _ event Hp) as Ho. unfold evaluateConfig.
  destruct (isProtected _ tags event) as [protected reason], (isProtected _ tags' event) as [protected' reason'].
  cbn [fst] in Ho. subst protected'. cbn. destruct protected; [done|]. cbn. apply keep_monotone.
Qed.

(** A retry repeats the first decision: evaluating the event again with the pressure, the
    time and the multiplier the decision recorded gives the same shaped event and the same
    decision - keep or drop, rates, rules, effects and sizes - for every order in which the
    protection tags are visited; only the text naming the protecting tag may differ, and it
    does not when the order is the same. *)
Theorem retry_repeats_decision engine at1 st1 at2 st2 clock clock' event pressure now multiplier shaped d diff :
  at1 ≡ₚ at2 -> is_zero now = false ->
  Evaluate canonicalBytes engine at1 st1 clock event pressure now multiplier = (shaped, d, diff) ->
  let '(shaped', d', diff') := EvaluateWithMultiplier canonicalBytes engine at2 st2 clock' event
    (d_QueuePressure d) (d_ObservedAt d) (d_AutonomyMultiplier d) in
  shaped' = shaped /\ sans_reason d' = sans_reason d /\ (at1 = at2 -> d' = d).
Proof.
  intros Hp Hnow. set (m := match multiplier with Some m => clamp m float_zero float_one | None => float_one end).
  assert (forall e at' st' k ev p n x, (EvaluateWithMultiplier canonicalBytes e at' st' k ev p n x).1 =
    evaluate (en_active e) at' ev p (if is_zero n then k else n) (clamp x float_zero float_one)) as Hfst.
  { intros. unfold EvaluateWithMultiplier. destruct (evaluateConfig _ (en_active e) _ _ _ _ _); by destruct (en_shadow e) as [s0|]; [destruct (_ && _)|]. }
  intros H. unfold Evaluate in H. fold m in H. apply (f_equal fst) in H. rewrite Hfst, Hnow in H. cbn [fst] in H.
  assert (d_ObservedAt d = now /\ d_QueuePressure d = clamp pressure float_zero float_one /\
    d_AutonomyMultiplier d = clamp m float_zero float_one) as (Hat & Hq & Hm).
  { unfold evaluateConfig in H. destruct (isProtected _ _ _). injection H as _ <-. cbn. by rewrite clamp_idem. }
  specialize (Hfst engine at2 st2 clock' event (d_QueuePressure d) (d_ObservedAt d) (d_AutonomyMultiplier d)).
  destruct (EvaluateWithMultiplier _ _ _ _ _ _ _ _ _) as [[shaped' d'] diff']. cbn [fst] in Hfst.
  rewrite Hat, Hnow, Hq, Hm, clamp_idem in Hfst by done.
  pose proof (isProtected_order (sc_Protection (en_active engine)) _ _ event Hp) as Ho.
  revert H Hfst. unfold evaluateConfig.
  destruct (isProtected _ at1 event) as [protected reason] eqn:E1, (isProtected _ at2 event) as [protected' reason'] eqn:E2.
  cbn [fst] in Ho. subst protected'. cbv zeta. rewrite !final_rate_clamped, !clamp_idem by done.
  intros [= <- <-] [= -> ->]. split; [done|]. split; [done|]. intros ->. rewrite E1 in E2. by injection E2 as ->.
Qed.

(** Shaping loses nothing silently: every tag of the event is in the shaped event with its
    value, or listed by the decision as dropped or renamed (the oversize marker aside); the
    payload is the original one unless the decision says it was dropped; and every other
    field is unchanged. *)
Theorem shaping_accounts_for_changes config tags event pressure now multiplier :
  let '(shaped, decision) := evaluate config tags event pressure now multiplier in
  (forall key value, ev_Tags event !! key = Some value -> key <> oversize_tag ->
     ev_Tags shaped !! key = Some value \/ key ∈ d_DroppedTags decision \/ is_Some (d_RenamedTags decision !! key)) /\
  ev_Payload shaped = (if d_PayloadDropped decision then [] else ev_Payload event) /\
  with_shape (ev_Tags event) (ev_Payload event) shaped = event.
Proof.
  unfold evaluateConfig. destruct (isProtected _ _ _) as [protected reason].
  pose proof (loop_accounts protected event (sc_Rules config) _ (start_accounts config event)) as [Ht Hpl].
  cbn. split; [|split; [done|by destruct event]]. intros key value Hv Hne.
  destruct (Ht key value Hv Hne) as [?|[Hd|?]]; [by left|right; left|by right; right].
  unfold sort_strings. rewrite merge_sort_Permutation. by apply elem_of_elements.
Qed.

End theorems.

(** A preview's counters add up, and it shows no protected loss: kept and sampled-out
    events together are all the events, and every protected event is among the kept ones. *)
Theorem preview_counts canonicalBytes config tags clock events pressure p :
  PreviewEvents canonicalBytes config tags clock events pressure = Ok p ->
  pv_Observed p = zlen events /\ pv_Kept p + pv_SampledOut p = pv_Observed p /\
  pv_ProtectedKept p = pv_ProtectedObserved p /\ 0 <= pv_Kept p <= pv_Observed p.
Proof.
  unfold PreviewEvents, mbind, result_mbind. destruct (NewEngine config None) as [engine|]; [|done]. intros [= <-].
  set (f := fun p event => _).
  assert (forall p, let p' := foldl f p events in
    pv_Observed p' = pv_Observed p + zlen events /\
    (pv_Kept p' + pv_SampledOut p') - pv_Observed p' = (pv_Kept p + pv_SampledOut p) - pv_Observed p /\
    pv_ProtectedKept p' - pv_ProtectedObserved p' = pv_ProtectedKept p - pv_ProtectedObserved p /\
    pv_Kept p <= pv_Kept p' /\ pv_SampledOut p <= pv_SampledOut p') as H.
  { induction events as [|event events IH]; intros p; cbn [foldl]; [rewrite zlen_nil; lia|].
    specialize (IH (f p event)). cbv zeta in IH. rewrite zlen_cons.
    assert (pv_Observed (f p event) = pv_Observed p + 1 /\
      pv_Kept (f p event) + pv_SampledOut (f p event) = pv_Kept p + pv_SampledOut p + 1 /\
      pv_ProtectedKept (f p event) - pv_ProtectedObserved (f p event) = pv_ProtectedKept p - pv_ProtectedObserved p /\
      pv_Kept p <= pv_Kept (f p event) /\ pv_SampledOut p <= pv_SampledOut (f p event)) as Hf; [|lia].
    unfold f. destruct (Evaluate _ _ _ _ _ _ _ _ _) as [[shaped d] diff] eqn:E. cbn.
    assert (d_Protected d = true -> d_Keep d = true) as Hk.
    { apply (f_equal fst) in E. unfold Evaluate, EvaluateWithMultiplier in E.
      destruct (evaluateConfig _ _ _ _ _ _ _) as [shaped' d'] eqn:E'.
      assert (d' = d) as -> by (destruct (en_shadow engine) as [s0|]; [destruct (_ && _)|]; by injection E).
      unfold evaluateConfig in E'. destruct (isProtected _ _ _) as [protected reason]. injection E' as _ <-. cbn.
      by intros ->. }
    destruct (d_Keep d), (d_Protected d); cbn; try lia; by specialize (Hk eq_refl). }
  specialize (H empty_preview). cbv zeta in H. cbn in H. lia.
Qed.

(** ** Findings and witnesses *)

Definition keep_all : float64 := float_one.
Definition no_pressure : PressureConfig := mkPressure false float_zero float_zero float_zero float_zero.
Definition demo_event (tags : gmap string string) : Event :=
  mkEvent "evt-1" "tenant" "api" "request" (63000000000 * ns_second) tags [x7b; x7d] None "" "1" "" "".

Definition demo_rule (drop : list string) (rename : gmap string string) : Rule :=
  mkRule "r1" "*" "ap?" "" [] ∅ (Some (float_ratio 1 2)) (float_ratio 1 10) drop rename 0 "" false false.

Definition demo_config (protection : gmap string string) (rule : Rule) : Config :=
  mkConfig "shape" "v1" (float_ratio 3 4) (mkProtection true ["critical"] [] protection float_zero) no_pressure [rule].

(** The reason of a decision depends on the order in which the map of protection tags is
    visited: two evaluations of one event need not agree on it. *)
Lemma protection_reason_depends_on_order :
  let protection : gmap string string := {["env" := "prod"; "tier" := "gold"]} in
  let config := demo_config protection (demo_rule [] ∅) in
  let event := demo_event {["env" := "prod"; "tier" := "gold"]} in
  [("env", "prod"); ("tier", "gold")] ≡ₚ map_to_list protection /\
  [("tier", "gold"); ("env", "prod")] ≡ₚ map_to_list protection /\
  isProtected (sc_Protection config) [("env", "prod"); ("tier", "gold")] event = (true, "protected tag env") /\
  isProtected (sc_Protection config) [("tier", "gold"); ("env", "prod")] event = (true, "protected tag tier").
Proof.
  assert (map_to_list ({["env" := "prod"; "tier" := "gold"]} : gmap string string) ≡ₚ
    [("env", "prod"); ("tier", "gold")]) as H.
  { rewrite (map_to_list_insert _ "env" "prod") by done. by rewrite map_to_list_singleton. }
  cbv zeta. split; [done|]. split; [rewrite H; apply Permutation_swap|]. by vm_compute.
Qed.

(** Validation trims the keys of [drop_tags], evaluation does not: a padded key is accepted
    and drops nothing. *)
Lemma padded_drop_tag_ignored :
  let config := demo_config ∅ (demo_rule [" secret "] ∅) in
  let event := demo_event {["secret" := "42"]} in
  Validate config = Ok tt /\
  ev_Tags (evaluateConfig (fun _ => 0) config [] event float_zero 1 float_one).1 !! "secret" = Some "42".
Proof. vm_compute. done. Qed.

Lemma protected_events_survive_witness :
  let config := demo_config ∅ (demo_rule ["secret"] ∅) in
  let event := demo_event {["secret" := "42"; "severity" := "Critical"]} in
  let '(shaped, decision) := evaluateConfig (fun _ => 0) config [] event float_one 1 float_zero in
  d_Keep decision = true /\ d_Protected decision = true /\
  (Forall (fun rule => ruleMatches rule event = true -> ru_ShapeProtected rule = false) (sc_Rules config) ->
   shaped = event).
Proof.
  apply (protected_events_survive (fun _ => 0) (demo_config ∅ (demo_rule ["secret"] ∅)) []
    (demo_event {["secret" := "42"; "severity" := "Critical"]}) float_one 1 float_zero).
  vm_compute. reflexivity.
Defined.

Lemma sampling_nested_witness :
  let config := demo_config ∅ (demo_rule [] ∅) in
  let event := demo_event ∅ in
  d_Keep (evaluateConfig (fun _ => 0) config [] event float_zero 1 (float_ratio 9 10)).2 = true ->
  d_Keep (evaluateConfig (fun _ => 0) config [] event float_zero 1 float_one).2 = true.
Proof.
  apply (sampling_nested (fun _ => 0) (demo_config ∅ (demo_rule [] ∅)) (demo_event ∅) [] float_zero 1 (float_ratio 9 10)
    [] float_zero 1 float_one (Permutation_refl _)).
  vm_compute. reflexivity.
Defined.

Definition demo_engine : Engine := mkEngine (demo_config ∅ (demo_rule ["secret"] {["zone" := "az"]})) None.
Definition demo_input : Event := demo_event {["secret" := "42"; "zone" := "b"]}.

Lemma retry_repeats_decision_witness :
  let '(shaped, d, _) := Evaluate (fun _ => 0) demo_engine [] [] 7 demo_input (float_ratio 7 2) 5 (Some (float_ratio 9 10)) in
  let '(shaped', d', _) := EvaluateWithMultiplier (fun _ => 0) demo_engine [] [] 8 demo_input
    (d_QueuePressure d) (d_ObservedAt d) (d_AutonomyMultiplier d) in
  shaped' = shaped /\ sans_reason d' = sans_reason d /\ (([] : list (string * string)) = [] -> d' = d).
Proof.
  destruct (Evaluate (fun _ => 0) demo_engine [] [] 7 demo_input (float_ratio 7 2) 5 (Some (float_ratio 9 10)))
    as [[shaped d] diff] eqn:E.
  exact (retry_repeats_decision (fun _ => 0) demo_engine [] [] [] [] 7 8 demo_input (float_ratio 7 2) 5
    (Some (float_ratio 9 10)) shaped d diff (Permutation_refl _) eq_refl E).
Defined.

Lemma preview_counts_witness :
  match PreviewEvents (fun _ => 10) (demo_config ∅ (demo_rule [] ∅)) (fun _ => []) 1
          [demo_event ∅; demo_event {["severity" := "fatal"]}] float_zero with
  | Ok p => pv_Observed p = 2 /\ pv_ProtectedObserved p = 1 /\ pv_ProtectedKept p = 1
  | Err _ => False
  end.
Proof.
  destruct (PreviewEvents (fun _ => 10) (demo_config ∅ (demo_rule [] ∅)) (fun _ => []) 1
    [demo_event ∅; demo_event {["severity" := "fatal"]}] float_zero) as [p|e] eqn:E.
  - destruct (preview_counts (fun _ => 10) (demo_config ∅ (demo_rule [] ∅)) (fun _ => []) 1
      [demo_event ∅; demo_event {["severity" := "fatal"]}] float_zero p E) as (H1 & _ & H3 & _).
    assert (pv_ProtectedObserved p = 1) as H2.
    { assert (match PreviewEvents (fun _ => 10) (demo_config ∅ (demo_rule [] ∅)) (fun _ => []) 1
        [demo_event ∅; demo_event {["severity" := "fatal"]}] float_zero with Ok p => pv_ProtectedObserved p | Err _ => 0 end = 1)
        as H by (vm_compute; reflexivity). rewrite E in H. exact H. }
    exact (conj H1 (conj H2 (eq_trans H3 H2))).
  - assert (is_ok (PreviewEvents (fun _ => 10) (demo_config ∅ (demo_rule [] ∅)) (fun _ => []) 1
      [demo_event ∅; demo_event {["severity" := "fatal"]}] float_zero) = true) as H by (vm_compute; reflexivity).
    rewrite E in H. discriminate H.
Defined.
