(* ===== verification/Connectors.v ===== *)
(** * The connector contract ([internal/connectors]: model and delivery errors)

    The specification of a backend connection, its validation and defaults, and the
    retryability of a delivery error.  [net/url.Parse] is a parameter. *)

From S2P Require Import Prelude GoStrings GoPath.

Local Open Scope string_scope.
Local Open Scope Z_scope.
Local Open Scope list_scope.

Definition KindKafka := "kafka".
Definition KindHTTPJSON := "http_json".
Definition KindOTLPHTTP := "otlp_http".
Definition KindPrometheusRemoteWrite := "prometheus_remote_write".
Definition KindSplunkHEC := "splunk_hec".
Definition KindDatadogLogs := "datadog_logs".

Definition kinds : list string :=
  [KindKafka; KindHTTPJSON; KindOTLPHTTP; KindPrometheusRemoteWrite; KindSplunkHEC; KindDatadogLogs].

Record Spec := mkSpec {
  sp_Kind : string;
  sp_Endpoint : string;
  sp_HealthEndpoint : string;
  sp_Brokers : list string;
  sp_Topic : string;
  sp_Headers : gmap string string;
  sp_HeaderEnv : gmap string string;
  sp_BearerTokenEnv : string;
  sp_APIKeyEnv : string;
  sp_TimeoutMS : Z;
  sp_PrometheusLabels : list string;
}.

(** The parts of a [url.URL] the validation reads. *)
Record Endpoint := mkEndpoint {
  ep_Scheme : string;
  ep_Host : string;
  ep_HasUser : bool;
  ep_Fragment : string;
  ep_QueryKeys : list string;
}.

Definition normalizeKind (kind : string) : string :=
  let k := to_lower (trim_space kind) in
  if bool_decide (k = "http") then KindHTTPJSON
  else if bool_decide (k = "otlp") || bool_decide (k = "otlp-http") then KindOTLPHTTP
  else if bool_decide (k = "prometheus") || bool_decide (k = "remote_write") || bool_decide (k = "prometheus-remote-write")
  then KindPrometheusRemoteWrite
  else if bool_decide (k = "splunk") then KindSplunkHEC
  else if bool_decide (k = "datadog") then KindDatadogLogs
  else k.

Definition withDefaults (spec : Spec) : Spec :=
  mkSpec (normalizeKind (sp_Kind spec)) (sp_Endpoint spec) (sp_HealthEndpoint spec) (sp_Brokers spec) (sp_Topic spec)
    (sp_Headers spec) (sp_HeaderEnv spec) (sp_BearerTokenEnv spec) (sp_APIKeyEnv spec)
    (if sp_TimeoutMS spec <=? 0 then 5000 else sp_TimeoutMS spec) (sp_PrometheusLabels spec).

Definition sensitive_markers : list string :=
  ["authorization"; "cookie"; "token"; "api-key"; "apikey"; "secret"; "password"].

Definition sensitiveHeaderName (name : string) : bool :=
  existsb (string_contains (to_lower (trim_space name))) sensitive_markers.

(** [strings.ContainsAny(s, "\r\n")]. *)
Definition has_newline (s : string) : bool :=
  existsb (fun c => bool_decide (c = ascii_of_N 13) || bool_decide (c = ascii_of_N 10)) (chars_of_string s).

Section parse.
Variable url_Parse : string -> result Endpoint.

Definition validateHTTPEndpoint (raw : string) : result unit :=
  let raw := trim_space raw in
  if bool_decide (raw = "") then Err (ErrMsg "endpoint is required")
  else match url_Parse raw with
  | Err e => Err (ErrWrap "invalid endpoint" e)
  | Ok parsed =>
      if negb (bool_decide (ep_Scheme parsed = "http")) && negb (bool_decide (ep_Scheme parsed = "https"))
      then Err (ErrMsg "endpoint must use http or https")
      else if bool_decide (ep_Host parsed = "") then Err (ErrMsg "endpoint host is required")
      else if ep_HasUser parsed then Err (ErrMsg "endpoint must not embed credentials")
      else if negb (bool_decide (ep_Fragment parsed = "")) then Err (ErrMsg "endpoint must not contain a URL fragment")
      else reject_if (existsb (fun key => sensitiveHeaderName key || string_contains (to_lower key) "key")
                        (ep_QueryKeys parsed)) "endpoint query parameter looks credential-bearing"
  end.

Definition Spec_Validate (spec : Spec) : result unit :=
  let spec := withDefaults spec in
  let kind := normalizeKind (sp_Kind spec) in
  first_error [
    reject_if (negb (bool_decide (kind ∈ kinds))) "unsupported connector kind";
    reject_if ((32 <? size (sp_Headers spec))%nat || (32 <? size (sp_HeaderEnv spec))%nat)
      "connector supports at most 32 static headers and 32 environment-backed headers";
    reject_if (32 <? zlen (sp_PrometheusLabels spec)) "prometheus_label_tags supports at most 32 tag names";
    first_error ((fun '(name, value) => first_error [
      reject_if (blank name) "connector static header name cannot be empty";
      reject_if (sensitiveHeaderName name) "connector cannot store sensitive header directly";
      reject_if (has_newline name || has_newline value) "connector static header contains newline characters"])
      <$> map_to_list (sp_Headers spec));
    first_error ((fun '(name, env) => first_error [
      reject_if (blank name || blank env) "connector header_env requires non-empty header/environment names";
      reject_if (has_newline name) "connector header contains newline characters"])
      <$> map_to_list (sp_HeaderEnv spec));
    (if bool_decide (kind = KindKafka) then reject_if (blank (sp_Topic spec)) "Kafka connector requires topic"
     else match validateHTTPEndpoint (sp_Endpoint spec) with
          | Err e => Err (ErrWrap "connector" e)
          | Ok _ =>
              if blank (sp_HealthEndpoint spec) then Ok tt
              else match validateHTTPEndpoint (sp_HealthEndpoint spec) with
                   | Err e => Err (ErrWrap "connector health endpoint" e)
                   | Ok _ => Ok tt
                   end
          end);
    reject_if (bool_decide (kind = KindSplunkHEC) && blank (sp_APIKeyEnv spec))
      "Splunk HEC connector requires api_key_env containing the HEC token";
    reject_if (bool_decide (kind = KindDatadogLogs) && blank (sp_APIKeyEnv spec))
      "Datadog Logs connector requires api_key_env";
    reject_if (existsb blank (sp_PrometheusLabels spec)) "prometheus_label_tags cannot contain empty names"].

End parse.

(** [errors.As(err, &e)] for a [DeliveryError], and [Retryable] of a non-nil error. *)
Fixpoint as_delivery (err : error) : option bool :=
  match err with
  | ErrDelivery retryable _ => Some retryable
  | ErrWrap _ cause | ErrClassified _ _ cause => as_delivery cause
  | ErrJoin first second =>
      match as_delivery first with Some r => Some r | None => as_delivery second end
  | _ => None
  end.

Definition Retryable (err : error) : bool := default true (as_delivery err).
