(* ===== verification/Router.v ===== *)
(** * The telemetry router ([internal/router]: model and planner)

    Destinations, routing rules and their validation, the fan-out plan of an event and the
    comparison with a shadow plan.  [net/url.Parse], which the validation of connectors
    uses, is a parameter.  Go maps are visited in an unspecified order: here that decides
    only which of several errors is reported.  [fallback_walk] has fuel; the number of
    destinations plus two is enough ([fallback_walk_fuel]). *)

From S2P Require Import Prelude GoStrings GoPath Domain Connectors.

Local Open Scope string_scope.
Local Open Scope Z_scope.
Local Open Scope list_scope.

Definition DestinationKafka := "kafka".
Definition DestinationHTTP := "http".
Definition DestinationConnector := "connector".

Record Destination := mkDestination {
  de_Name : string;
  de_Type : string;
  de_Enabled : bool;
  de_Brokers : list string;
  de_Topic : string;
  de_URL : string;
  de_HealthURL : string;
  de_Headers : gmap string string;
  de_HeaderEnv : gmap string string;
  de_BearerTokenEnv : string;
  de_Connector : option Spec;
  de_TimeoutMS : Z;
  de_MaxAttempts : Z;
  de_BaseDelayMS : Z;
  de_MaxDelayMS : Z;
  de_Concurrency : Z;
  de_FailureFallback : string;
}.

Definition zero_destination : Destination :=
  mkDestination "" "" false [] "" "" "" ∅ ∅ "" None 0 0 0 0 0 "".

Record Rule := mkRule {
  rr_Name : string;
  rr_Tenant : string;
  rr_Source : string;
  rr_Type : string;
  rr_Severity : list string;
  rr_Tags : gmap string string;
  rr_Destinations : list string;
  rr_Stop : bool;
}.

Record Config := mkConfig {
  rc_Name : string;
  rc_Version : string;
  rc_Destinations : list Destination;
  rc_Rules : list Rule;
  rc_FallbackDestination : string;
}.

Record Decision := mkDecision {
  rd_Destination : string;
  rd_RouteRules : list string;
  rd_MaxAttempts : Z;
  rd_BaseDelayMS : Z;
  rd_MaxDelayMS : Z;
  rd_FailureFallback : string;
}.

Record ShadowDiff := mkShadowDiff {
  sf_TenantID : string;
  sf_EventID : string;
  sf_ObservedAt : time;
  sf_ActiveConfig : string;
  sf_ActiveVersion : string;
  sf_ShadowConfig : string;
  sf_ShadowVersion : string;
  sf_ActiveDestinations : list string;
  sf_ShadowDestinations : list string;
  sf_Added : list string;
  sf_Removed : list string;
}.

(** ** Defaults and connector specifications *)

Definition withDestinationDefaults (d : Destination) : Destination :=
  let timeout := if de_TimeoutMS d <=? 0 then 5000 else de_TimeoutMS d in
  let attempts := if de_MaxAttempts d <=? 0 then 5 else de_MaxAttempts d in
  let base := if de_BaseDelayMS d <=? 0 then 500 else de_BaseDelayMS d in
  let max := if de_MaxDelayMS d <=? 0 then 30000 else de_MaxDelayMS d in
  let concurrency := if de_Concurrency d <=? 0 then 2 else de_Concurrency d in
  let max := if max <? base then base else max in
  mkDestination (de_Name d) (de_Type d) (de_Enabled d) (de_Brokers d) (de_Topic d) (de_URL d) (de_HealthURL d)
    (de_Headers d) (de_HeaderEnv d) (de_BearerTokenEnv d) (de_Connector d)
    timeout attempts base max concurrency (de_FailureFallback d).

Definition DestinationByName (config : Config) (name : string) : option Destination :=
  withDestinationDefaults <$> List.find (fun d => bool_decide (de_Name d = name)) (rc_Destinations config).

Definition by_name (a b : Destination) : Prop := String.le (de_Name a) (de_Name b).
#[export] Instance by_name_dec : RelDecision by_name := fun a b => decide (String.le (de_Name a) (de_Name b)).

Definition EnabledDestinations (config : Config) : list Destination :=
  merge_sort by_name (withDestinationDefaults <$> filter (fun d => de_Enabled d = true) (rc_Destinations config)).

Definition route_markers : list string :=
  ["authorization"; "cookie"; "token"; "api-key"; "apikey"; "secret"].

Definition sensitive_route_header (name : string) : bool :=
  existsb (string_contains (to_lower (trim_space name))) route_markers.

Section parse.
Variable url_Parse : string -> result Endpoint.

Definition ConnectorSpec (destination : Destination) : result Spec :=
  let d := withDestinationDefaults destination in
  let checked spec := match Spec_Validate url_Parse spec with Ok _ => Ok (withDefaults spec) | Err e => Err e end in
  if bool_decide (de_Type d = DestinationConnector) then
    match de_Connector d with
    | None => Err (ErrMsg "destination has no connector configuration")
    | Some spec =>
        let timeout := if sp_TimeoutMS spec <=? 0 then de_TimeoutMS d else sp_TimeoutMS spec in
        checked (withDefaults (mkSpec (sp_Kind spec) (sp_Endpoint spec) (sp_HealthEndpoint spec) (sp_Brokers spec)
          (sp_Topic spec) (sp_Headers spec) (sp_HeaderEnv spec) (sp_BearerTokenEnv spec) (sp_APIKeyEnv spec)
          timeout (sp_PrometheusLabels spec)))
    end
  else if bool_decide (de_Type d = DestinationKafka) then
    checked (mkSpec KindKafka "" "" (de_Brokers d) (de_Topic d) ∅ ∅ "" "" (de_TimeoutMS d) [])
  else if bool_decide (de_Type d = DestinationHTTP) then
    checked (mkSpec KindHTTPJSON (de_URL d) (de_HealthURL d) [] "" (de_Headers d) (de_HeaderEnv d)
      (de_BearerTokenEnv d) "" (de_TimeoutMS d) [])
  else Err (ErrMsg "destination has unsupported type").

(** ** Validation *)

(** The [switch] on the destination's type. *)
Definition validate_type (d : Destination) : result unit :=
  if bool_decide (de_Type d = DestinationKafka) then
    first_error [
      reject_if (bool_decide (is_Some (de_Connector d))) "legacy Kafka destination cannot also define connector";
      reject_if (blank (de_Topic d)) "Kafka destination requires topic"]
  else if bool_decide (de_Type d = DestinationHTTP) then
    first_error [
      reject_if (bool_decide (is_Some (de_Connector d))) "legacy HTTP destination cannot also define connector";
      reject_if (blank (de_URL d)) "HTTP destination requires url";
      reject_if (negb (String.prefix "http://" (de_URL d)) && negb (String.prefix "https://" (de_URL d)))
        "HTTP destination URL must use http or https";
      first_error ((fun '(name, _) => first_error [
        reject_if (blank name) "HTTP destination has empty static header name";
        reject_if (sensitive_route_header name) "HTTP destination cannot store sensitive header directly"])
        <$> map_to_list (de_Headers d));
      first_error ((fun '(name, env) =>
        reject_if (blank name || blank env) "HTTP destination header_env requires non-empty names")
        <$> map_to_list (de_HeaderEnv d))]
  else match de_Connector d with
  | None => Err (ErrMsg "connector destination requires connector configuration")
  | Some spec =>
      first_error [
        match Spec_Validate url_Parse spec with Ok _ => Ok tt | Err e => Err (ErrWrap "connector destination" e) end;
        reject_if (negb (bool_decide (de_Brokers d = []))) "connector destination must put brokers inside connector";
        reject_if (negb (blank (de_Topic d))) "connector destination must put topic inside connector";
        reject_if (negb (blank (de_URL d))) "connector destination must put url inside connector";
        reject_if (negb (blank (de_HealthURL d))) "connector destination must put health_url inside connector";
        reject_if (negb (bool_decide (de_Headers d = ∅))) "connector destination must put headers inside connector";
        reject_if (negb (bool_decide (de_HeaderEnv d = ∅))) "connector destination must put header_env inside connector";
        reject_if (negb (blank (de_BearerTokenEnv d)))
          "connector destination must put bearer_token_env inside connector"]
  end.

(** The first loop of [Validate]: the map of destinations by trimmed name. *)
Fixpoint index_destinations (seen : gmap string Destination) (l : list Destination)
  : result (gmap string Destination) :=
  match l with
  | [] => Ok seen
  | d :: l =>
      let d := withDestinationDefaults d in
      let name := trim_space (de_Name d) in
      if bool_decide (name = "") then Err (ErrMsg "destination name is required")
      else if bool_decide (is_Some (seen !! name)) then Err (ErrMsg "duplicate destination")
      else if negb (bool_decide (de_Type d = DestinationKafka)) && negb (bool_decide (de_Type d = DestinationHTTP)) &&
              negb (bool_decide (de_Type d = DestinationConnector))
      then Err (ErrMsg "destination has unsupported type")
      else match validate_type d with
           | Err e => Err e
           | Ok _ => index_destinations (<[name := d]> seen) l
           end
  end.

(** A reference to a destination that must exist and be enabled. *)
Definition usable (destinations : gmap string Destination) (name : string) : bool :=
  match destinations !! name with Some d => de_Enabled d | None => false end.

Fixpoint validate_rules (destinations : gmap string Destination) (seen : list string) (rules : list Rule)
  : result unit :=
  match rules with
  | [] => Ok tt
  | rule :: rules =>
      let name := trim_space (rr_Name rule) in
      match first_error [
        reject_if (bool_decide (name = "")) "routing rule name is required";
        reject_if (bool_decide (name ∈ seen)) "duplicate routing rule";
        validateGlob "routing rule tenant" (rr_Tenant rule);
        validateGlob "routing rule source" (rr_Source rule);
        validateGlob "routing rule type" (rr_Type rule);
        first_error ((fun '(key, pattern) => first_error [
          reject_if (blank key) "routing rule has empty tag key";
          validateGlob ("tag " +:+ key) pattern]) <$> map_to_list (rr_Tags rule));
        reject_if (bool_decide (rr_Destinations rule = [])) "routing rule requires at least one destination";
        first_error ((fun name => reject_if (negb (usable destinations name))
          "routing rule references unknown or disabled destination") <$> rr_Destinations rule)]
      with
      | Err e => Err e
      | Ok _ => validate_rules destinations (name :: seen) rules
      end
  end.

(** The inner loop of [validateFallbackCycles]; [None]: out of fuel. *)
Fixpoint fallback_walk (fuel : nat) (destinations : gmap string Destination) (seen : gset string)
    (current : string) : option (result unit) :=
  match fuel with
  | O => None
  | S fuel =>
      if bool_decide (current = "") then Some (Ok tt)
      else if bool_decide (current ∈ seen) then Some (Err (ErrMsg "routing failure fallback cycle"))
      else fallback_walk fuel destinations ({[current]} ∪ seen)
             (de_FailureFallback (default zero_destination (destinations !! current)))
  end.

Definition validateFallbackCycles (destinations : gmap string Destination) : result unit :=
  first_error ((fun '(start, _) =>
    default (Err (ErrMsg "out of fuel")) (fallback_walk (size destinations + 2) destinations ∅ start))
    <$> map_to_list destinations).

Definition validate_fallbacks (destinations : gmap string Destination) : result unit :=
  first_error ((fun '(name, d) =>
    if bool_decide (de_FailureFallback d = "") then Ok tt
    else first_error [
      reject_if (negb (usable destinations (de_FailureFallback d))) "failure_fallback is missing or disabled";
      reject_if (bool_decide (de_FailureFallback d = name)) "destination cannot fall back to itself"])
    <$> map_to_list destinations).

Definition Validate (config : Config) : result unit :=
  match first_error [
    reject_if (blank (rc_Name config)) "routing config name is required";
    reject_if (blank (rc_Version config)) "routing config version is required";
    reject_if (bool_decide (rc_Destinations config = [])) "at least one routing destination is required";
    reject_if (64 <? zlen (rc_Destinations config)) "routing config: maximum is 64 destinations";
    reject_if (512 <? zlen (rc_Rules config)) "routing config: maximum is 512 rules"]
  with
  | Err e => Err e
  | Ok _ =>
      match index_destinations ∅ (rc_Destinations config) with
      | Err e => Err e
      | Ok destinations =>
          let fallback := trim_space (rc_FallbackDestination config) in
          first_error [
            reject_if (negb (bool_decide (fallback = "")) && negb (usable destinations fallback))
              "fallback destination is missing or disabled";
            validate_rules destinations [] (rc_Rules config);
            validate_fallbacks destinations;
            validateFallbackCycles destinations]
      end
  end.

End parse.

(** ** Planning ([planner.go]) *)

Definition eventSeverity (event : Event) : string :=
  let tag key := to_lower (trim_space (default "" (ev_Tags event !! key))) in
  if negb (bool_decide (tag "severity" = "")) then tag "severity"
  else if negb (bool_decide (tag "level" = "")) then tag "level"
  else if string_contains (to_lower (ev_Type event)) "error" then "error"
  else "".

Definition ruleMatches (rule : Rule) (event : Event) : bool :=
  glob (rr_Tenant rule) (ev_TenantID event) && glob (rr_Source rule) (ev_Source event) &&
  glob (rr_Type rule) (ev_Type event) &&
  (bool_decide (rr_Severity rule = []) ||
   existsb (fun candidate => equal_fold (trim_space candidate) (eventSeverity event)) (rr_Severity rule)) &&
  forallb (fun '(key, pattern) =>
    match ev_Tags event !! key with Some value => glob pattern value | None => false end)
    (map_to_list (rr_Tags rule)).

Definition appendUnique (values : list string) (value : string) : list string :=
  if bool_decide (value ∈ values) then values else values ++ [value].

Abbreviation route_map := (gmap string (list string)).

(** The loop over one rule's destinations. *)
Definition add_destination (config : Config) (rule : Rule) (routes : route_map) (name : string) : route_map :=
  match DestinationByName config name with
  | Some d => if de_Enabled d then <[name := appendUnique (default [] (routes !! name)) (rr_Name rule)]> routes
              else routes
  | None => routes
  end.

(** The loop over the rules: the routes and whether a rule matched. *)
Fixpoint route_rules (config : Config) (event : Event) (rules : list Rule) (routes : route_map) (matchedAny : bool)
  : route_map * bool :=
  match rules with
  | [] => (routes, matchedAny)
  | rule :: rules =>
      if negb (ruleMatches rule event) then route_rules config event rules routes matchedAny
      else
        let routes := foldl (add_destination config rule) routes (rr_Destinations rule) in
        if rr_Stop rule then (routes, true) else route_rules config event rules routes true
  end.

Definition decision_for (config : Config) (routes : route_map) (name : string) : Decision :=
  let d := default zero_destination (DestinationByName config name) in
  mkDecision name (default [] (routes !! name)) (de_MaxAttempts d) (de_BaseDelayMS d) (de_MaxDelayMS d)
    (de_FailureFallback d).

Definition plan_routes (config : Config) (event : Event) : route_map :=
  let '(routes, matchedAny) := route_rules config event (rc_Rules config) ∅ false in
  if negb matchedAny && negb (bool_decide (rc_FallbackDestination config = ""))
  then <[rc_FallbackDestination config := ["fallback"]]> routes
  else routes.

Definition Plan (config : Config) (event : Event) : list Decision :=
  let routes := plan_routes config event in
  decision_for config routes <$> sort_strings (fst <$> map_to_list routes).

Definition decisionNames (decisions : list Decision) : list string :=
  sort_strings (rd_Destination <$> decisions).

Definition setDifference (l r : list string) : list string :=
  filter (fun value => value ∉ r) l.

Definition ComparePlans (event : Event) (activeConfig shadowConfig : Config) (active shadow : list Decision)
    (observedAt : time) : option ShadowDiff :=
  let activeNames := decisionNames active in
  let shadowNames := decisionNames shadow in
  let added := setDifference shadowNames activeNames in
  let removed := setDifference activeNames shadowNames in
  if bool_decide (added = []) && bool_decide (removed = []) then None
  else Some (mkShadowDiff (ev_TenantID event) (ev_ID event) observedAt (rc_Name activeConfig) (rc_Version activeConfig)
         (rc_Name shadowConfig) (rc_Version shadowConfig) activeNames shadowNames added removed).

(** The fallback delivery of [terminalFailure] ([dispatcher.go]). *)
Definition fallback_decision (config : Config) (failureFallback destination : string) : option Decision :=
  if bool_decide (failureFallback = "") then None
  else match DestinationByName config failureFallback with
       | Some d => if de_Enabled d
                   then Some (mkDecision (de_Name d) ["failure_fallback:" +:+ destination] (de_MaxAttempts d)
                                (de_BaseDelayMS d) (de_MaxDelayMS d) (de_FailureFallback d))
                   else None
       | None => None
       end.

(** ** What a validated configuration guarantees *)

(** The rules that apply to an event: the matching ones up to the first that stops. *)
Fixpoint applied_rules (event : Event) (rules : list Rule) : list Rule :=
  match rules with
  | [] => []
  | rule :: rules =>
      if ruleMatches rule event then rule :: (if rr_Stop rule then [] else applied_rules event rules)
      else applied_rules event rules
  end.

(** Names without surrounding white space. *)
Definition unpadded (config : Config) : Prop :=
  Forall (fun d => trim_space (de_Name d) = de_Name d) (rc_Destinations config) /\
  trim_space (rc_FallbackDestination config) = rc_FallbackDestination config.

(** The constraints of the table [routing_deliveries] on a planned row. *)
Definition row_ok (d : Decision) : Prop :=
  1 <= rd_MaxAttempts d /\ 1 <= rd_BaseDelayMS d <= rd_MaxDelayMS d.

(** Each decision is the failure fallback of the one before. *)
Fixpoint fallback_chain (config : Config) (d : Decision) (rest : list Decision) : Prop :=
  match rest with
  | [] => True
  | d' :: rest =>
      fallback_decision config (rd_FailureFallback d) (rd_Destination d) = Some d' /\ fallback_chain config d' rest
  end.

Section theorems.
Variable url_Parse : string -> result Endpoint.
Implicit Types (config : Config) (m : gmap string Destination).

Lemma defaults_ok d :
  let d' := withDestinationDefaults d in
  1 <= de_MaxAttempts d' /\ 1 <= de_BaseDelayMS d' <= de_MaxDelayMS d' /\ 1 <= de_Concurrency d' /\
  de_Name d' = de_Name d /\ de_Enabled d' = de_Enabled d /\ de_FailureFallback d' = de_FailureFallback d.
Proof.
  cbn. repeat match goal with |- context [if ?b then _ else _] => destruct b eqn:? end; repeat split; lia.
Qed.

Lemma index_spec m l m' :
  index_destinations url_Parse m l = Ok m' ->
  m ⊆ m' /\ Forall (fun d => m' !! trim_space (de_Name d) = Some (withDestinationDefaults d)) l /\
  (forall name d', m' !! name = Some d' -> m !! name = Some d' \/
     exists d, d ∈ l /\ name = trim_space (de_Name d) /\ d' = withDestinationDefaults d).
Proof.
  revert m. induction l as [|d l IH]; intros m; cbn [index_destinations].
  { intros [= <-]. repeat split; [done|by constructor|auto]. }
  destruct (bool_decide (trim_space _ = "")); [done|].
  destruct (bool_decide (is_Some _)) eqn:E; [done|]. apply bool_decide_eq_false in E.
  destruct (_ && _); [done|]. destruct (validate_type _ _); [|done].
  intros (Hm & Hl & Hd)%IH. cbn [de_Name withDestinationDefaults] in *.
  assert (m !! trim_space (de_Name d) = None) as Hn by (by apply eq_None_not_Some).
  split; [|split].
  - etrans; [|exact Hm]. by apply insert_subseteq.
  - constructor; [|done]. eapply lookup_weaken; [|exact Hm]. apply lookup_insert_eq.
  - intros name d' [H|(d0 & H & ?)]%Hd.
    + apply lookup_insert_Some in H as [[<- <-]|[_ H]]; [|by left]. right. exists d. split; [left|done].
    + right. exists d0. split; [by right|done].
Qed.

Lemma by_name_spec config name d :
  DestinationByName config name = Some d ->
  exists d0, d0 ∈ rc_Destinations config /\ de_Name d0 = name /\ d = withDestinationDefaults d0.
Proof.
  unfold DestinationByName. rewrite fmap_Some. intros (d0 & [H1 H2]%find_some & ->).
  apply bool_decide_eq_true in H2. exists d0. by rewrite list_elem_of_In.
Qed.

(** The parts of [Validate] that the theorems use. *)
Lemma Validate_spec config :
  Validate url_Parse config = Ok tt ->
  exists m, index_destinations url_Parse ∅ (rc_Destinations config) = Ok m /\
    rc_Destinations config <> [] /\
    (trim_space (rc_FallbackDestination config) <> "" ->
     usable m (trim_space (rc_FallbackDestination config)) = true) /\
    validate_rules m [] (rc_Rules config) = Ok tt /\
    validate_fallbacks m = Ok tt /\ validateFallbackCycles m = Ok tt.
Proof.
  unfold Validate. destruct (first_error _) as [[]|] eqn:E1; [|done].
  destruct (index_destinations _ _ _) as [m|] eqn:E2; [|done].
  rewrite first_error_Ok in E1. rewrite first_error_Ok.
  rewrite !Forall_cons, !reject_if_Ok in E1. rewrite !Forall_cons, !reject_if_Ok.
  destruct E1 as (_ & _ & E1 & _). apply bool_decide_eq_false in E1.
  intros (Hf & Hr & Hb & Hc & _). exists m. split_and!; try done.
  intros Hne. apply andb_false_iff in Hf as [Hf|Hf]; apply negb_false_iff in Hf; [|done].
  by apply bool_decide_eq_true in Hf.
Qed.

Lemma validate_rules_spec m seen rules :
  validate_rules m seen rules = Ok tt ->
  Forall (fun r => rr_Destinations r <> [] /\ Forall (fun n => usable m n = true) (rr_Destinations r)) rules.
Proof.
  revert seen. induction rules as [|r rules IH]; intros seen; cbn [validate_rules]; [by constructor|].
  destruct (first_error _) as [[]|] eqn:E; [|done]. intros H%IH. constructor; [|done].
  rewrite first_error_Ok, !Forall_cons, !reject_if_Ok in E.
  destruct E as (_ & _ & _ & _ & _ & _ & E1 & E2 & _). apply bool_decide_eq_false in E1. split; [done|].
  rewrite first_error_Ok, Forall_fmap in E2. eapply Forall_impl; [exact E2|].
  intros n. cbn. rewrite reject_if_Ok, negb_false_iff. done.
Qed.

Lemma usable_spec config m name :
  index_destinations url_Parse ∅ (rc_Destinations config) = Ok m -> usable m name = true ->
  exists d0, d0 ∈ rc_Destinations config /\ name = trim_space (de_Name d0) /\ de_Enabled d0 = true /\
    m !! name = Some (withDestinationDefaults d0).
Proof.
  intros (_ & _ & Hm)%index_spec. unfold usable. destruct (m !! name) as [d|] eqn:E; [|done].
  intros He. destruct (Hm _ _ E) as [?|(d0 & ? & ? & ->)]; [done|]. exists d0. done.
Qed.

Lemma validate_rules_names m seen rules :
  validate_rules m seen rules = Ok tt ->
  NoDup (trim_space <$> (rr_Name <$> rules)) /\ Forall (fun r => trim_space (rr_Name r) ∉ seen) rules.
Proof.
  revert seen. induction rules as [|r rules IH]; intros seen; cbn [validate_rules].
  { intros _. split; constructor. }
  destruct (first_error _) as [[]|] eqn:E; [|done]. intros [Hn Hf]%IH.
  rewrite first_error_Ok, !Forall_cons, !reject_if_Ok in E. destruct E as (_ & E & _).
  apply bool_decide_eq_false in E. rewrite Forall_forall in Hf. split.
  - cbn. constructor; [|done]. rewrite !list_elem_of_fmap. intros (n & Hr & (r' & -> & Hr')%list_elem_of_fmap).
    apply (Hf _ Hr'). rewrite <- Hr. left.
  - constructor; [done|]. rewrite Forall_forall. intros r' Hr' Hs. apply (Hf _ Hr'). by right.
Qed.

Lemma by_name_found config m d0 :
  index_destinations url_Parse ∅ (rc_Destinations config) = Ok m -> d0 ∈ rc_Destinations config ->
  DestinationByName config (de_Name d0) = Some (withDestinationDefaults d0).
Proof.
  intros (_ & Hm & _)%index_spec Hd. rewrite Forall_forall in Hm.
  destruct (DestinationByName config (de_Name d0)) as [d|] eqn:E.
  - apply by_name_spec in E as (d1 & H1 & Hn & ->). f_equal.
    pose proof (Hm _ Hd) as Hm0. pose proof (Hm _ H1) as Hm1. rewrite Hn in Hm1. congruence.
  - unfold DestinationByName in E. apply fmap_None in E. rewrite list_elem_of_In in Hd.
    by apply (find_none _ _ E) in Hd; apply bool_decide_eq_false in Hd.
Qed.

(** The names of the rules that route to a destination. *)
Definition rules_to (name : string) (rules : list Rule) : list string :=
  rr_Name <$> filter (fun r => name ∈ rr_Destinations r) rules.

Definition routed (rules : list Rule) (routes : route_map) : Prop :=
  forall name, routes !! name = match rules_to name rules with [] => None | l => Some l end.

(** Destinations the plan can use. *)
Definition enabled_in config (name : string) : Prop :=
  exists d, DestinationByName config name = Some d /\ de_Enabled d = true.

Lemma rules_to_app name l k : rules_to name (l ++ k) = rules_to name l ++ rules_to name k.
Proof. unfold rules_to. by rewrite filter_app, fmap_app. Qed.

Lemma rules_to_single name rule :
  rules_to name [rule] = if bool_decide (name ∈ rr_Destinations rule) then [rr_Name rule] else [].
Proof.
  unfold rules_to. case_bool_decide; [by rewrite filter_cons_True|by rewrite filter_cons_False].
Qed.

Lemma rules_to_names name rules x : x ∈ rules_to name rules -> x ∈ rr_Name <$> rules.
Proof.
  unfold rules_to. rewrite !list_elem_of_fmap. intros (r & -> & [_ H]%list_elem_of_filter). eauto.
Qed.

Lemma add_destinations config rule before routes names :
  routed before routes -> rr_Name rule ∉ rr_Name <$> before -> Forall (enabled_in config) names ->
  forall name, foldl (add_destination config rule) routes names !! name =
    if bool_decide (name ∈ names) then Some (rules_to name before ++ [rr_Name rule]) else routes !! name.
Proof.
  intros Hr Hn. induction names as [|n names IH] using rev_ind; intros Hf name; [done|].
  apply Forall_app in Hf as [Hf Hn']. inversion Hn' as [|?? (d & Hd & He) _]; subst.
  rewrite foldl_app. cbn [foldl]. unfold add_destination at 1. rewrite Hd; cbn beta iota; rewrite He.
  destruct (decide (n = name)) as [->|Hne].
  - rewrite lookup_insert_eq, bool_decide_eq_true_2 by (apply elem_of_app; right; left).
    f_equal. rewrite (IH Hf name). unfold appendUnique.
    destruct (decide (name ∈ names)) as [Hin|Hin];
      [rewrite (bool_decide_eq_true_2 (name ∈ names)) by done|rewrite (bool_decide_eq_false_2 (name ∈ names)) by done];
      cbn [default].
    + by rewrite bool_decide_eq_true_2 by (apply elem_of_app; right; left).
    + rewrite (Hr name). assert (default [] (match rules_to name before with [] => None | l => Some l end)
        = rules_to name before) as -> by (by destruct (rules_to name before)).
      rewrite bool_decide_eq_false_2; [done|]. intros H. by apply Hn, (rules_to_names name).
  - rewrite lookup_insert_ne by done. rewrite (IH Hf name).
    rewrite (bool_decide_ext (name ∈ names ++ [n]) (name ∈ names)); [done|].
    rewrite elem_of_app, list_elem_of_singleton. split; [by intros [?| ->]|by left].
Qed.

Lemma routed_step config rule before routes :
  routed before routes -> rr_Name rule ∉ rr_Name <$> before -> Forall (enabled_in config) (rr_Destinations rule) ->
  routed (before ++ [rule]) (foldl (add_destination config rule) routes (rr_Destinations rule)).
Proof.
  intros Hr Hn Hf name. rewrite add_destinations with (before := before) by done.
  rewrite rules_to_app, rules_to_single. case_bool_decide as Hin.
  - by destruct (rules_to name before).
  - by rewrite app_nil_r, Hr.
Qed.

Lemma route_rules_spec config event rules : forall before routes matched,
  routed before routes -> NoDup (rr_Name <$> (before ++ rules)) ->
  Forall (fun r => Forall (enabled_in config) (rr_Destinations r)) rules ->
  let '(routes', matched') := route_rules config event rules routes matched in
  routed (before ++ applied_rules event rules) routes' /\
  matched' = matched || negb (bool_decide (applied_rules event rules = [])).
Proof.
  induction rules as [|rule rules IH]; intros before routes matched Hr Hn Hf; cbn [route_rules applied_rules].
  { by rewrite app_nil_r, orb_false_r. }
  apply Forall_cons in Hf as [Hd Hf].
  assert (rr_Name rule ∉ rr_Name <$> before) as Hnew.
  { rewrite fmap_app, NoDup_app in Hn. destruct Hn as (_ & Hn & _). intros Hin. apply (Hn _ Hin). left. }
  destruct (ruleMatches rule event); cbn [negb].
  - pose proof (routed_step config rule before routes Hr Hnew Hd) as Hr'.
    destruct (rr_Stop rule); [by rewrite orb_true_r|].
    specialize (IH (before ++ [rule]) _ true Hr'). rewrite <- !app_assoc in IH. cbn [app] in IH.
    specialize (IH Hn Hf). destruct (route_rules _ _ _ _ _) as [routes' matched'].
    destruct IH as [H1 ->]. by rewrite orb_true_r.
  - apply IH; [done| |done]. rewrite !fmap_app in *. cbn in Hn.
    eapply sublist_NoDup; [exact Hn|]. apply sublist_app; [done|]. by apply sublist_cons.
Qed.

Lemma applied_sub event rules r : r ∈ applied_rules event rules -> r ∈ rules.
Proof.
  induction rules as [|r0 rules IH]; cbn [applied_rules]; [done|].
  destruct (ruleMatches r0 event); [|by right; apply IH].
  intros [-> |H]%elem_of_cons; [left|]. right. destruct (rr_Stop r0); [by apply not_elem_of_nil in H|by apply IH].
Qed.

Lemma usable_enabled config m name :
  index_destinations url_Parse ∅ (rc_Destinations config) = Ok m -> unpadded config ->
  usable m name = true -> enabled_in config name.
Proof.
  intros Hm [Hu _] (d0 & Hd & -> & He & _)%(usable_spec config m name Hm).
  rewrite Forall_forall in Hu. rewrite (Hu _ Hd). exists (withDestinationDefaults d0).
  split; [by eapply by_name_found|done].
Qed.

Lemma NoDup_trimmed (l : list string) : NoDup (trim_space <$> l) -> NoDup l.
Proof. apply NoDup_fmap_1. Qed.

Lemma routed_empty : routed [] ∅.
Proof. intros name. apply lookup_empty. Qed.

(** The routes of a validated configuration. *)
Lemma plan_routes_spec config event :
  Validate url_Parse config = Ok tt -> unpadded config ->
  let applied := applied_rules event (rc_Rules config) in
  (forall name, name ∈ dom (plan_routes config event) -> enabled_in config name) /\
  (forall name, plan_routes config event !! name =
     match applied with
     | [] => if bool_decide (name = rc_FallbackDestination config /\ name <> "") then Some ["fallback"] else None
     | _ => match rules_to name applied with [] => None | l => Some l end
     end).
Proof.
  intros (m & Hm & _ & Hf & Hr & _)%Validate_spec Hu applied.
  pose proof (validate_rules_spec _ _ _ Hr) as Hd. apply validate_rules_names in Hr as [Hn%NoDup_trimmed _].
  assert (Forall (fun r => Forall (enabled_in config) (rr_Destinations r)) (rc_Rules config)) as Hen.
  { eapply Forall_impl; [exact Hd|]. intros r [_ H]. eapply Forall_impl; [exact H|].
    intros n. by apply usable_enabled. }
  pose proof (route_rules_spec config event (rc_Rules config) [] ∅ false routed_empty Hn Hen) as Hs.
  unfold plan_routes. destruct (route_rules _ _ _ _ _) as [routes matched]. cbn [app orb] in Hs.
  fold applied in Hs. destruct Hs as [Hrt ->].
  assert (forall name, name ∈ dom routes -> enabled_in config name) as Hdom.
  { intros name [l Hl]%elem_of_dom. rewrite (Hrt name) in Hl.
    destruct (rules_to name applied) as [|x k] eqn:E; [done|].
    assert (x ∈ rules_to name applied) as Hx by (rewrite E; left).
    apply list_elem_of_fmap in Hx as (r & _ & [Hin Hr]%list_elem_of_filter).
    rewrite Forall_forall in Hen. assert (r ∈ rc_Rules config) as Hr' by (by apply (applied_sub event)).
    specialize (Hen _ Hr'). rewrite Forall_forall in Hen. by apply Hen. }
  destruct applied as [|r0 rest] eqn:Ea.
  - rewrite bool_decide_eq_true_2 by done. cbn [negb andb].
    case_bool_decide as Hfb; cbn [negb].
    + split; [done|]. intros name. rewrite bool_decide_eq_false_2 by (intros [-> ?]; done). apply Hrt.
    + split.
      * intros name. rewrite dom_insert, elem_of_union, elem_of_singleton. intros [-> |?]; [|by apply Hdom].
        destruct Hu as [Hu1 Hu2]. rewrite Hu2 in Hf. eapply usable_enabled; [done|by split|by apply Hf].
      * intros name. destruct (decide (name = rc_FallbackDestination config)) as [-> |Hne].
        -- by rewrite lookup_insert_eq, bool_decide_eq_true_2.
        -- rewrite lookup_insert_ne, bool_decide_eq_false_2 by (done || by intros []). apply Hrt.
  - rewrite bool_decide_eq_false_2 by done. cbn [negb andb]. split; [done|]. intros name. apply Hrt.
Qed.

Lemma plan_names config event :
  rd_Destination <$> Plan config event = sort_strings (fst <$> map_to_list (plan_routes config event)).
Proof. unfold Plan. rewrite <- list_fmap_compose. by apply list_fmap_id. Qed.

Lemma plan_name config event name :
  name ∈ rd_Destination <$> Plan config event <-> name ∈ dom (plan_routes config event).
Proof.
  rewrite plan_names. unfold sort_strings. rewrite merge_sort_Permutation, elem_of_dom.
  rewrite list_elem_of_fmap. split.
  - intros ([k l] & -> & H%elem_of_map_to_list). by exists l.
  - intros [l H%elem_of_map_to_list]. by exists (name, l).
Qed.

Lemma plan_sorted config event :
  StronglySorted String.le (rd_Destination <$> Plan config event) /\ NoDup (rd_Destination <$> Plan config event).
Proof.
  rewrite plan_names. unfold sort_strings. split; [apply (StronglySorted_merge_sort String.le)|].
  rewrite merge_sort_Permutation. apply NoDup_fst_map_to_list.
Qed.

Lemma rules_to_nonempty name rules :
  rules_to name rules <> [] <-> exists r, r ∈ rules /\ name ∈ rr_Destinations r.
Proof.
  split.
  - intros H. destruct (rules_to name rules) as [|x l] eqn:E; [done|].
    assert (x ∈ rules_to name rules) as Hx by (rewrite E; left).
    apply list_elem_of_fmap in Hx as (r & _ & [? ?]%list_elem_of_filter). eauto.
  - intros (r & Hr & Hn) E. assert (rr_Name r ∈ rules_to name rules) as Hx.
    { apply list_elem_of_fmap. exists r. split; [done|]. by apply list_elem_of_filter. }
    rewrite E in Hx. by apply not_elem_of_nil in Hx.
Qed.

(** Which destinations a plan names. *)
Lemma plan_members config event name :
  Validate url_Parse config = Ok tt -> unpadded config ->
  let applied := applied_rules event (rc_Rules config) in
  name ∈ rd_Destination <$> Plan config event <->
     (exists r, r ∈ applied /\ name ∈ rr_Destinations r) \/
     (applied = [] /\ name = rc_FallbackDestination config /\ name <> "").
Proof.
  intros Hv Hu applied. destruct (plan_routes_spec config event Hv Hu) as [_ Hl].
  rewrite plan_name, elem_of_dom, Hl. fold applied. rewrite <- (rules_to_nonempty name applied).
  destruct applied as [|r0 rest].
  - case_bool_decide as E; split; [auto|by eexists|by intros [? [=]]|].
    intros [H|(_ & H)]; [done|]. by destruct E.
  - destruct (rules_to name (r0 :: rest)) as [|x k]; split.
    + by intros [? [=]].
    + by intros [H|[[=] _]].
    + auto.
    + by eexists.
Qed.

(** One planned delivery. *)
Lemma plan_member_ok config event d :
  Validate url_Parse config = Ok tt -> unpadded config -> d ∈ Plan config event ->
  let applied := applied_rules event (rc_Rules config) in
  exists dest,
     DestinationByName config (rd_Destination d) = Some dest /\ de_Enabled dest = true /\
     rd_RouteRules d = match applied with [] => ["fallback"] | _ => rules_to (rd_Destination d) applied end /\
     rd_FailureFallback d = de_FailureFallback dest /\ row_ok d.
Proof.
  intros Hv Hu Hd applied. destruct (plan_routes_spec config event Hv Hu) as [Hen Hl].
  assert (rd_Destination d ∈ dom (plan_routes config event)) as Hdom.
  { apply plan_name, list_elem_of_fmap. eauto. }
  apply list_elem_of_fmap in Hd as (name & -> & _). cbn [decision_for rd_Destination] in *.
  destruct (Hen _ Hdom) as (dest & Hdest & He). exists dest. split; [done|]. split; [done|].
  apply elem_of_dom in Hdom as [l Hln]. rewrite (Hl name) in Hln. unfold decision_for, row_ok.
  rewrite (Hl name), Hdest. cbn [default rd_RouteRules rd_FailureFallback rd_MaxAttempts rd_BaseDelayMS rd_MaxDelayMS].
  fold applied in Hln |- *. split; [|split; [done|]].
  - destruct applied; [by case_bool_decide|]. by destruct (rules_to name _).
  - apply by_name_spec in Hdest as (d0 & _ & _ & ->). destruct (defaults_ok d0) as (H1 & H2 & _). done.
Qed.


(** ** Failure fallbacks *)

Definition next_of m (name : string) : string :=
  de_FailureFallback (default zero_destination (m !! name)).

Lemma fallback_walk_fuel m fuel : forall seen current,
  seen ⊆ dom m -> (size m + 2 <= fuel + size seen)%nat -> is_Some (fallback_walk fuel m seen current).
Proof.
  induction fuel as [|fuel IH]; intros seen current Hs Hf.
  { apply subseteq_size in Hs. rewrite size_dom in Hs. lia. }
  cbn [fallback_walk]. case_bool_decide; [by eexists|]. case_bool_decide as Hc; [by eexists|].
  destruct (m !! current) as [d|] eqn:E; cbn [default].
  - apply IH.
    + apply union_subseteq. split; [|done]. apply singleton_subseteq_l, elem_of_dom. by exists d.
    + rewrite size_union, size_singleton by set_solver. lia.
  - apply subseteq_size in Hs. rewrite size_dom in Hs. destruct fuel; [lia|]. by eexists.
Qed.

(** Following the fallbacks of a walk that ends meets no name twice. *)
Lemma fallback_walk_path m fuel : forall seen current rest,
  fallback_walk fuel m seen current = Some (Ok tt) -> current <> "" ->
  (forall i a b, (current :: rest) !! i = Some a -> (current :: rest) !! S i = Some b -> next_of m a = b /\ b <> "") ->
  NoDup (current :: rest) /\ Forall (fun n => n ∉ seen) (current :: rest).
Proof.
  induction fuel as [|fuel IH]; intros seen current rest; cbn [fallback_walk]; [done|].
  intros Hw Hne Hp. rewrite bool_decide_eq_false_2 in Hw by done.
  case_bool_decide as Hc; [done|]. destruct rest as [|b rest].
  { split; [apply NoDup_singleton|by constructor]. }
  destruct (Hp 0%nat current b) as [<- Hb]; [done..|].
  destruct (IH _ _ rest Hw Hb) as [Hn Hf]; [intros i; apply (Hp (S i))|].
  rewrite Forall_forall in Hf. split.
  - constructor; [|done]. intros H. apply (Hf _ H), elem_of_union_l, elem_of_singleton_2. done.
  - constructor; [done|]. rewrite Forall_forall. intros x Hx Hs. by apply (Hf _ Hx), elem_of_union_r.
Qed.

Lemma index_not_blank m l m' :
  index_destinations url_Parse m l = Ok m' -> Forall (fun d => trim_space (de_Name d) <> "") l.
Proof.
  revert m. induction l as [|d l IH]; intros m; cbn [index_destinations]; [by constructor|].
  destruct (bool_decide (trim_space _ = "")) eqn:E; [done|]. apply bool_decide_eq_false in E.
  destruct (bool_decide _); [done|]. destruct (_ && _); [done|]. destruct (validate_type _ _); [|done].
  intros H. constructor; [done|by eapply IH].
Qed.

Lemma fallback_decision_spec config m ff destination d :
  index_destinations url_Parse ∅ (rc_Destinations config) = Ok m ->
  fallback_decision config ff destination = Some d ->
  ff <> "" /\ rd_Destination d = ff /\ ff ∈ de_Name <$> rc_Destinations config /\
  rd_FailureFallback d = next_of m (trim_space ff) /\ row_ok d.
Proof.
  intros (_ & Hm & _)%index_spec. unfold fallback_decision. case_bool_decide; [done|].
  destruct (DestinationByName config ff) as [dest|] eqn:E; [|done].
  apply by_name_spec in E as (d0 & Hd & <- & ->). destruct (de_Enabled _); [|done]. intros [= <-].
  rewrite Forall_forall in Hm. unfold next_of. rewrite (Hm _ Hd).
  destruct (defaults_ok d0) as (H1 & H2 & _).
  split_and!; [done|done|apply list_elem_of_fmap; eauto|done|by split].
Qed.

(** A chain of fallbacks is a path of the validated map. *)
Lemma fallback_chain_path config m rest : forall d,
  index_destinations url_Parse ∅ (rc_Destinations config) = Ok m -> validate_fallbacks m = Ok tt ->
  rd_FailureFallback d = next_of m (trim_space (rd_Destination d)) -> fallback_chain config d rest ->
  Forall (fun d => rd_Destination d ∈ de_Name <$> rc_Destinations config) rest /\
  let path := trim_space <$> (rd_Destination <$> d :: rest) in
  forall i a b, path !! i = Some a -> path !! S i = Some b -> next_of m a = b /\ b <> "".
Proof.
  induction rest as [|d' rest IH]; intros d Hm Hf Hd Hc.
  { split; [constructor|]. intros path [|i] a b _ H; done. }
  destruct Hc as [Hd' Hc]. pose proof Hd' as Hs.
  apply (fallback_decision_spec config m) in Hs as (Hne & Hn & Hin & Hff & _); [|done].
  rewrite <- Hn in Hff. destruct (IH d' Hm Hf Hff Hc) as [Hrest Hpath].
  split; [constructor; [by rewrite Hn|done]|]. intros path [|i] a b Ha Hb; [|by apply (Hpath i)].
  injection Ha as <-. injection Hb as <-. rewrite Hn.
  assert (usable m (rd_FailureFallback d) = true) as Hu.
  { unfold validate_fallbacks in Hf. rewrite first_error_Ok, Forall_fmap, Forall_forall in Hf.
    unfold next_of in Hd. destruct (m !! trim_space (rd_Destination d)) as [dd|] eqn:E; [|done].
    apply elem_of_map_to_list in E. specialize (Hf _ E). cbn [compose] in Hf.
    change (rd_FailureFallback d = de_FailureFallback dd) in Hd.
    rewrite <- Hd, bool_decide_eq_false_2, first_error_Ok, !Forall_cons, !reject_if_Ok in Hf by done.
    destruct Hf as [Hu _]. by apply negb_false_iff in Hu. }
  apply (usable_spec config m _ Hm) in Hu as (d0 & _ & Ht & _).
  assert (trim_space (rd_FailureFallback d) = rd_FailureFallback d) as -> by (by rewrite Ht, trim_space_idem).
  by rewrite <- Hd.
Qed.

Lemma fallback_chain_rows config m rest : forall d,
  index_destinations url_Parse ∅ (rc_Destinations config) = Ok m -> fallback_chain config d rest ->
  Forall row_ok rest.
Proof.
  induction rest as [|d' rest IH]; intros d Hm Hc; [constructor|]. destruct Hc as [Hd' Hc].
  apply (fallback_decision_spec config m) in Hd' as (_ & _ & _ & _ & Hr); [|done].
  constructor; [done|by eapply IH].
Qed.

Lemma cycles_walk m name :
  validateFallbackCycles m = Ok tt -> is_Some (m !! name) ->
  fallback_walk (size m + 2) m ∅ name = Some (Ok tt).
Proof.
  intros Hc [d Hd%elem_of_map_to_list]. unfold validateFallbackCycles in Hc.
  rewrite first_error_Ok, Forall_fmap, Forall_forall in Hc. specialize (Hc _ Hd). cbn in Hc.
  destruct (fallback_walk_fuel m (size m + 2) ∅ name) as [r Hr]; [set_solver|rewrite size_empty; lia|].
  by rewrite Hr in Hc |- *; cbn in Hc; subst.
Qed.

(** C33: failure fallbacks end.  For a validated configuration, the deliveries that the
    dispatcher can create one after the other for an event by falling back from a planned
    destination go to pairwise different destinations, so there are at most as many as
    configured destinations, and each satisfies the table's constraints. *)
Theorem fallbacks_end config event d rest :
  Validate url_Parse config = Ok tt -> d ∈ Plan config event -> fallback_chain config d rest ->
  NoDup (rd_Destination <$> d :: rest) /\
  (length (d :: rest) <= length (rc_Destinations config))%nat /\ Forall row_ok rest.
Proof.
  intros (m & Hm & Hne & _ & _ & Hf & Hcy)%Validate_spec Hd Hc.
  pose proof (index_spec _ _ _ Hm) as (_ & Hall & _). rewrite Forall_forall in Hall.
  apply list_elem_of_fmap in Hd as (name & Hdec & _).
  pose proof (fallback_chain_rows config m rest d Hm Hc) as Hrow.
  destruct (DestinationByName config name) as [dest|] eqn:E.
  - apply by_name_spec in E as Hd0. destruct Hd0 as (d0 & Hd0 & <- & ->). pose proof (Hall _ Hd0) as Hm0.
    destruct (fallback_chain_path config m rest d Hm Hf) as [Hin Hp]; [|done|].
    { rewrite Hdec. unfold decision_for. cbn [rd_FailureFallback rd_Destination]. rewrite E. unfold next_of.
      by rewrite Hm0. }
    assert (trim_space (rd_Destination d) <> "") as Hd_ne.
    { rewrite Hdec. cbn [decision_for rd_Destination]. apply index_not_blank in Hm. rewrite Forall_forall in Hm. by apply Hm. }
    apply (fallback_walk_path m (size m + 2) ∅) in Hp as [Hnd _]; [|apply cycles_walk; [done|]|done].
    + change (NoDup (trim_space <$> (rd_Destination <$> d :: rest))) in Hnd.
      apply NoDup_trimmed in Hnd. split; [done|]. split; [|done].
      assert (rd_Destination <$> d :: rest ⊆+ de_Name <$> rc_Destinations config) as Hsub.
      { apply NoDup_submseteq; [done|]. intros x Hx. apply list_elem_of_fmap in Hx as (d1 & -> & Hd1).
        apply elem_of_cons in Hd1 as [-> |Hd1].
        - rewrite Hdec. apply list_elem_of_fmap. by exists d0.
        - rewrite Forall_forall in Hin. by apply Hin. }
      apply submseteq_length in Hsub. by rewrite !length_fmap in Hsub.
    + rewrite Hdec. cbn [decision_for rd_Destination]. rewrite Hm0. by eexists.
  - destruct rest as [|d' rest].
    + split; [apply NoDup_singleton|]. destruct (rc_Destinations config); [done|]. cbn. split; [lia|done].
    + destruct Hc as [Hc _]. rewrite Hdec in Hc. cbn in Hc. by rewrite E in Hc.
Qed.

(** What a recorded difference says: exactly the destinations gained and lost, and
    nothing is recorded when the two plans reach the same destinations. *)
Lemma compare_plans_spec event activeConfig shadowConfig active shadow at_ :
  let reaches plan n := n ∈ rd_Destination <$> plan in
  match ComparePlans event activeConfig shadowConfig active shadow at_ with
  | None => forall n, reaches active n <-> reaches shadow n
  | Some diff =>
      (forall n, n ∈ sf_Added diff <-> reaches shadow n /\ ~ reaches active n) /\
      (forall n, n ∈ sf_Removed diff <-> reaches active n /\ ~ reaches shadow n) /\
      ~ (sf_Added diff = [] /\ sf_Removed diff = [])
  end.
Proof.
  assert (forall plan n, n ∈ decisionNames plan <-> n ∈ rd_Destination <$> plan) as Hn.
  { intros plan n. unfold decisionNames, sort_strings. by rewrite merge_sort_Permutation. }
  assert (forall l k n, n ∈ setDifference (decisionNames l) (decisionNames k) <->
    n ∈ rd_Destination <$> l /\ n ∉ rd_Destination <$> k) as Hd.
  { intros l k n. unfold setDifference. rewrite list_elem_of_filter, !Hn. tauto. }
  intros reaches. unfold ComparePlans, reaches. destruct (bool_decide _ && bool_decide _) eqn:E.
  - apply andb_prop in E as [E1%bool_decide_eq_true E2%bool_decide_eq_true]. intros n.
    pose proof (Hd shadow active n) as H1. pose proof (Hd active shadow n) as H2.
    rewrite E1 in H1. rewrite E2 in H2. rewrite elem_of_nil in H1, H2.
    destruct (decide (n ∈ rd_Destination <$> active)), (decide (n ∈ rd_Destination <$> shadow)); tauto.
  - cbn. split; [apply Hd|]. split; [apply Hd|]. apply andb_false_iff in E.
    rewrite !bool_decide_eq_false in E. tauto.
Qed.

End theorems.

(** ** Concrete configurations *)

Definition demo_destination (name fallback : string) : Destination :=
  mkDestination name DestinationKafka true [] "events" "" "" ∅ ∅ "" None 0 0 0 0 0 fallback.

Definition demo_rule (name source : string) (destinations : list string) : Rule :=
  mkRule name "" source "" [] ∅ destinations false.

Definition demo_config : Config :=
  mkConfig "routes" "1" [demo_destination "primary" "archive"; demo_destination "archive" ""]
    [demo_rule "orders" "orders-*" ["primary"; "archive"; "primary"]; demo_rule "all" "" ["archive"]] "archive".

Definition demo_event : Event := mkEvent "e1" "acme" "orders-eu" "order" 0 ∅ [] None "" "" "" "".


Lemma fallbacks_end_witness :
  exists d d', d ∈ Plan demo_config demo_event /\ fallback_chain demo_config d [d'] /\
    rd_Destination d = "primary" /\ rd_Destination d' = "archive" /\ NoDup (rd_Destination <$> [d; d']).
Proof.
  exists (mkDecision "primary" ["orders"] 5 500 30000 "archive"),
    (mkDecision "archive" ["failure_fallback:primary"] 5 500 30000 "").
  assert (mkDecision "primary" ["orders"] 5 500 30000 "archive" ∈ Plan demo_config demo_event) as Hd
    by (vm_compute; right; left).
  assert (fallback_chain demo_config (mkDecision "primary" ["orders"] 5 500 30000 "archive")
    [mkDecision "archive" ["failure_fallback:primary"] 5 500 30000 ""]) as Hc by (vm_compute; split; reflexivity).
  split; [exact Hd|]. split; [exact Hc|]. split; [reflexivity|]. split; [reflexivity|].
  apply (fallbacks_end (fun _ => Err (ErrMsg "no URL")) demo_config demo_event _ _); [vm_compute; reflexivity|exact Hd|exact Hc].
Defined.

(** ** What validation lets through *)

(** [Validate] trims the fallback's name and the destinations' names, planning does not:
    a padded fallback is planned with zero attempts and delays, which the table rejects,
    so that every event no rule matches fails. *)
Lemma padded_fallback_unstorable url_Parse :
  let config := mkConfig "routes" "1" [demo_destination "archive" ""] [] " archive" in
  Validate url_Parse config = Ok tt /\
  Plan config demo_event = [mkDecision " archive" ["fallback"] 0 0 0 ""] /\
  ~ row_ok (mkDecision " archive" ["fallback"] 0 0 0 "").
Proof.
  split; [vm_compute; reflexivity|]. split; [vm_compute; reflexivity|]. intros [H _]. by cbn in H.
Qed.

(** A rule's destination declared with a padded name is accepted and then skipped: the
    matching event is routed nowhere. *)
Lemma padded_destination_skipped url_Parse :
  let config := mkConfig "routes" "1" [demo_destination "archive " ""] [demo_rule "all" "" ["archive"]] "" in
  Validate url_Parse config = Ok tt /\
  applied_rules demo_event (rc_Rules config) = rc_Rules config /\ Plan config demo_event = [].
Proof. split; [vm_compute; reflexivity|]. split; vm_compute; reflexivity. Qed.

(** An HTTP destination with a header that only the connector's check calls sensitive
    passes [Validate], but no sender can be built for it. *)
Lemma validated_http_unbuildable url_Parse :
  let d := mkDestination "hook" DestinationHTTP true [] "" "https://hook.example/in" ""
             {["X-Password" := "p"]} ∅ "" None 0 0 0 0 0 "" in
  Validate url_Parse (mkConfig "routes" "1" [d] [] "") = Ok tt /\
  ConnectorSpec url_Parse d = Err (ErrMsg "connector cannot store sensitive header directly").
Proof. split; vm_compute; reflexivity. Qed.
