(* ===== verification/Outbox.v ===== *)
(** * The routing outbox and its dispatcher
      ([internal/storage/routing.go] with [internal/router/dispatcher.go])

    [Db] holds the tables of the migration [010_telemetry_router.sql]; each operation of
    the store is one transaction on it ([Database]).  [lane_iteration] is the body of a dispatcher lane's loop.  [Sys] is the running
    system: any number of lanes (of any number of router replicas), the worker that
    enqueues plans, the operator who requeues dead letters and the database clock.  Its
    steps are single calls, chosen by an arbitrary schedule that also supplies the answers
    of the backends; a lane may be killed between any two of its calls.

    A PostgreSQL [INTEGER] holds 32 bits.  [FOR UPDATE SKIP LOCKED LIMIT 1] takes an
    oldest due row among those no other transaction holds.  [encoding/json] of an event is
    a parameter. *)

From S2P Require Import Prelude GoStrings GoFloat Domain Proc Reliability Database Connectors.
From S2P Require Import Router.

Local Open Scope string_scope.
Local Open Scope Z_scope.
Local Open Scope list_scope.

(** ** Tables *)

Inductive Status : Type := Pending | Sending | Retry | Delivered | DeadLettered.

#[export] Instance Status_eq_dec : EqDecision Status.
Proof. solve_decision. Defined.

(** [(tenant_id, event_id, destination)]. *)
Abbreviation Key := (string * string * string)%type.

Record Row := mkRow {
  r_RouteRules : list string;
  r_Envelope : string;
  r_Status : Status;
  r_Attempts : Z;
  r_MaxAttempts : Z;
  r_BaseDelayMS : Z;
  r_MaxDelayMS : Z;
  r_FailureFallback : string;
  r_NextAttemptAt : time;
  r_LeaseUntil : option time;
  r_LastError : option error;
  r_CreatedAt : time;
  r_UpdatedAt : time;
  r_DeliveredAt : option time;
}.

Record Dead := mkDead {
  dd_RouteRules : list string;
  dd_Envelope : string;
  dd_Attempts : Z;
  dd_Error : error;
  dd_FailedAt : time;
  dd_FailureCount : Z;
}.

Record Health := mkHealth {
  he_State : string;
  he_ConsecutiveFailures : Z;
  he_LastSuccessAt : option time;
  he_LastFailureAt : option time;
  he_LastError : option error;
}.

Record Db := mkDb {
  db_deliveries : gmap Key Row;
  db_dead : gmap Key Dead;
  db_health : gmap (string * string) Health;
  db_shadow : gmap (string * string) ShadowDiff;
}.

Definition set_deliveries rows db := mkDb rows (db_dead db) (db_health db) (db_shadow db).
Definition set_dead dead db := mkDb (db_deliveries db) dead (db_health db) (db_shadow db).

Definition fits_int4 (z : Z) : bool := (- 2 ^ 31 <=? z) && (z <? 2 ^ 31).

(** The column types and checks of [routing_deliveries] for a new row. *)
Definition row_accepted (d : Decision) : bool :=
  fits_int4 (rd_MaxAttempts d) && fits_int4 (rd_BaseDelayMS d) && fits_int4 (rd_MaxDelayMS d) &&
  (1 <=? rd_MaxAttempts d) && (1 <=? rd_BaseDelayMS d) && (rd_BaseDelayMS d <=? rd_MaxDelayMS d).

(** [INSERT ... ON CONFLICT DO NOTHING]; the checks come before the conflict. *)
Definition insert_delivery (now : time) (tenant event_id envelope : string) (d : Decision)
    (rows : gmap Key Row) : result (gmap Key Row) :=
  let key := (tenant, event_id, rd_Destination d) in
  if negb (row_accepted d) then Err (ErrMsg "routing_deliveries constraint")
  else match rows !! key with
       | Some _ => Ok rows
       | None => Ok (<[key := mkRow (rd_RouteRules d) envelope Pending 0 (rd_MaxAttempts d) (rd_BaseDelayMS d)
                        (rd_MaxDelayMS d) (rd_FailureFallback d) now None None now now None]> rows)
       end.

(** [Delivery] as a claim fills it. *)
Record Delivery := mkDelivery {
  dv_TenantID : string;
  dv_EventID : string;
  dv_Destination : string;
  dv_RouteRules : list string;
  dv_Event : Event;
  dv_Status : Status;
  dv_Attempts : Z;
  dv_MaxAttempts : Z;
  dv_BaseDelayMS : Z;
  dv_MaxDelayMS : Z;
  dv_FailureFallback : string;
  dv_NextAttemptAt : time;
  dv_LeaseUntil : time;
  dv_CreatedAt : time;
  dv_UpdatedAt : time;
}.

Definition dv_key (d : Delivery) : Key := (dv_TenantID d, dv_EventID d, dv_Destination d).

(** ** Updates *)

(** [UPDATE routing_deliveries ... WHERE] the primary key. *)
Definition update_row (key : Key) (f : Row -> Row) (db : Db) : Db :=
  set_deliveries (alter f key (db_deliveries db)) db.

Definition set_status (status : Status) (lease : option time) (lastError : option error) (now : time) (r : Row) : Row :=
  mkRow (r_RouteRules r) (r_Envelope r) status (r_Attempts r) (r_MaxAttempts r) (r_BaseDelayMS r) (r_MaxDelayMS r)
    (r_FailureFallback r) (r_NextAttemptAt r) lease lastError (r_CreatedAt r) now (r_DeliveredAt r).

Definition set_attempts (attempts : Z) (r : Row) : Row :=
  mkRow (r_RouteRules r) (r_Envelope r) (r_Status r) attempts (r_MaxAttempts r) (r_BaseDelayMS r) (r_MaxDelayMS r)
    (r_FailureFallback r) (r_NextAttemptAt r) (r_LeaseUntil r) (r_LastError r) (r_CreatedAt r) (r_UpdatedAt r)
    (r_DeliveredAt r).

Definition set_next_attempt (next : time) (r : Row) : Row :=
  mkRow (r_RouteRules r) (r_Envelope r) (r_Status r) (r_Attempts r) (r_MaxAttempts r) (r_BaseDelayMS r) (r_MaxDelayMS r)
    (r_FailureFallback r) next (r_LeaseUntil r) (r_LastError r) (r_CreatedAt r) (r_UpdatedAt r)
    (r_DeliveredAt r).

Definition set_delivered_at (at_ : time) (r : Row) : Row :=
  mkRow (r_RouteRules r) (r_Envelope r) (r_Status r) (r_Attempts r) (r_MaxAttempts r) (r_BaseDelayMS r) (r_MaxDelayMS r)
    (r_FailureFallback r) (r_NextAttemptAt r) (r_LeaseUntil r) (r_LastError r) (r_CreatedAt r) (r_UpdatedAt r)
    (Some at_).

Definition due (now : time) (destination : string) (key : Key) (r : Row) : bool :=
  bool_decide (key.2 = destination) &&
  (((bool_decide (r_Status r = Pending) || bool_decide (r_Status r = Retry)) && (r_NextAttemptAt r <=? now)) ||
   (bool_decide (r_Status r = Sending) && match r_LeaseUntil r with Some t => t <? now | None => false end)).

(** The row the [SELECT] may return: an oldest due row that is not locked. *)
Definition may_pick (now : time) (destination : string) (locked : gset Key) (pick : option Key) (db : Db) : bool :=
  let free := filter (fun kr => bool_decide (kr.1 ∉ locked) && due now destination kr.1 kr.2 = true)
                (map_to_list (db_deliveries db)) in
  match pick with
  | None => bool_decide (free = [])
  | Some key =>
      match db_deliveries db !! key with
      | Some r => bool_decide (key ∉ locked) && due now destination key r &&
                  forallb (fun kr => r_CreatedAt r <=? r_CreatedAt kr.2) free
      | None => false
      end
  end.

Section store.

Variable Marshal : Event -> result string.
Variable Unmarshal : string -> result Event.

(** [security.TenantID(ctx)] of the calling context. *)
Variable ctx_tenant : string.

Definition tenantForEvent (event : Event) : string :=
  let tenant := trim_space (ev_TenantID event) in
  if bool_decide (tenant = "") then ctx_tenant else tenant.

Fixpoint insert_all (now : time) (tenant event_id envelope : string) (decisions : list Decision)
    (rows : gmap Key Row) : result (gmap Key Row) :=
  match decisions with
  | [] => Ok rows
  | d :: decisions =>
      match insert_delivery now tenant event_id envelope d rows with
      | Err e => Err (ErrWrap "enqueue routing destination" e)
      | Ok rows => insert_all now tenant event_id envelope decisions rows
      end
  end.

Definition EnqueueRoutingPlan (f : fault) (now : time) (event : Event) (decisions : list Decision) (db : Db)
  : result unit * Db :=
  if bool_decide (decisions = []) then (Ok tt, db)
  else match Marshal event with
  | Err e => (Err (ErrWrap "encode routing envelope" e), db)
  | Ok envelope =>
      transact f (fun db =>
        match insert_all now (tenantForEvent event) (ev_ID event) envelope decisions (db_deliveries db) with
        | Err e => Err e
        | Ok rows => Ok (tt, set_deliveries rows db)
        end) db
  end.

Definition ClaimRoutingDelivery (f : fault) (now appNow : time) (lease : Z) (pick : option Key) (db : Db)
  : result (option Delivery) * Db :=
  match pick with
  | None => match f with NoFault => (Ok None, db) | NotApplied e | ReplyLost e => (Err e, db) end
  | Some key =>
      transact f (fun db =>
        match db_deliveries db !! key with
        | None => Ok (None, db)
        | Some r =>
            match Unmarshal (r_Envelope r) with
            | Err e => Err (ErrWrap "decode routing envelope" e)
            | Ok event =>
                let attempts := r_Attempts r + 1 in
                let leaseUntil := appNow + lease in
                if negb (fits_int4 attempts) then Err (ErrMsg "lease routing delivery: integer out of range")
                else Ok (Some (mkDelivery key.1.1 key.1.2 key.2 (r_RouteRules r) event Sending attempts (r_MaxAttempts r)
                                 (r_BaseDelayMS r) (r_MaxDelayMS r) (r_FailureFallback r) (r_NextAttemptAt r)
                                 leaseUntil (r_CreatedAt r) (r_UpdatedAt r)),
                         update_row key (fun r => set_attempts attempts (set_status Sending (Some leaseUntil) (r_LastError r) now r)) db)
            end
        end) db
  end.

Definition MarkRoutingDelivered (f : fault) (now : time) (d : Delivery) (db : Db) : result unit * Db :=
  transact f (fun db => Ok (tt, update_row (dv_key d) (fun r => set_delivered_at now (set_status Delivered None None now r)) db)) db.

Definition MarkRoutingRetry (f : fault) (now : time) (d : Delivery) (message : error) (next : time) (db : Db)
  : result unit * Db :=
  transact f (fun db =>
    Ok (tt, update_row (dv_key d) (fun r => set_next_attempt next (set_status Retry None (Some message) now r)) db)) db.

Definition DeadLetterRoutingDelivery (f : fault) (now : time) (d : Delivery) (message : error)
    (fallback : option Decision) (db : Db) : result unit * Db :=
  match Marshal (dv_Event d) with
  | Err e => (Err (ErrWrap "encode routing dead letter" e), db)
  | Ok envelope =>
      transact f (fun db =>
        let count := match db_dead db !! dv_key d with Some dead => dd_FailureCount dead + 1 | None => 1 end in
        let db := set_dead (<[dv_key d := mkDead (dv_RouteRules d) envelope (dv_Attempts d) message now count]> (db_dead db)) db in
        let db := update_row (dv_key d) (set_status DeadLettered None (Some message) now) db in
        match fallback with
        | None => Ok (tt, db)
        | Some fb =>
            match insert_delivery now (dv_TenantID d) (dv_EventID d) envelope fb (db_deliveries db) with
            | Err e => Err (ErrWrap "enqueue routing failure fallback" e)
            | Ok rows => Ok (tt, set_deliveries rows db)
            end
        end) db
  end.

Definition RecordRoutingDestinationHealth (f : fault) (now : time) (tenant destination : string) (success : bool)
    (message : option error) (db : Db) : result unit * Db :=
  let tenant := if bool_decide (tenant = "") then ctx_tenant else tenant in
  let key := (tenant, destination) in
  transact f (fun db =>
    let old := db_health db !! key in
    let h :=
      if success then
        match old with
        | None => mkHealth "healthy" 0 (Some now) None None
        | Some h => mkHealth "healthy" 0 (Some now) (he_LastFailureAt h) None
        end
      else
        match old with
        | None => mkHealth "degraded" 1 None (Some now) message
        | Some h =>
            mkHealth (if 5 <=? he_ConsecutiveFailures h + 1 then "unhealthy" else "degraded")
              (he_ConsecutiveFailures h + 1) (he_LastSuccessAt h) (Some now) message
        end in
    Ok (tt, mkDb (db_deliveries db) (db_dead db) (<[key := h]> (db_health db)) (db_shadow db))) db.

Definition RecordRoutingShadowDiff (f : fault) (diff : ShadowDiff) (db : Db) : result unit * Db :=
  let tenant := if bool_decide (sf_TenantID diff = "") then ctx_tenant else sf_TenantID diff in
  transact f (fun db =>
    Ok (tt, mkDb (db_deliveries db) (db_dead db) (db_health db) (<[(tenant, sf_EventID diff) := diff]> (db_shadow db)))) db.

Definition RequeueRoutingDeadLetter (f : fault) (now : time) (event_id destination : string) (db : Db)
  : result unit * Db :=
  let key := (ctx_tenant, event_id, destination) in
  transact f (fun db =>
    match db_deliveries db !! key with
    | Some r =>
        if bool_decide (r_Status r = DeadLettered)
        then Ok (tt, set_dead (delete key (db_dead db))
               (update_row key (fun r => set_attempts 0 (set_next_attempt now (set_status Retry None None now r))) db))
        else Err (ErrMsg "routing dead letter not found")
    | None => Err (ErrMsg "routing dead letter not found")
    end) db.

End store.

(** ** The dispatcher *)

Definition retryDelay (attempt baseMS maxMS : Z) : Z :=
  let attempt := if attempt <? 1 then 1 else attempt in
  let baseMS := if baseMS <? 1 then 500 else baseMS in
  let maxMS := if maxMS <? baseMS then baseMS else maxMS in
  let delay := i64 (int_of_float (float_of_int baseMS * float_pow2 (attempt - 1))%F * millisecond) in
  let maximum := i64 (maxMS * millisecond) in
  if maximum <? delay then maximum else delay.

Definition pollInterval : Z := 250 * millisecond.
Definition dispatcher_lease : Z := 30000 * millisecond.

Inductive call : Type :=
  | cCtxErr
  | cSleep (duration : Z)
  | cNow
  | cClaim (destination : string) (lease : Z)
  | cSend (destination : string) (event : Event)
  | cMarkDelivered (d : Delivery)
  | cMarkRetry (d : Delivery) (message : error) (next : time)
  | cDeadLetter (d : Delivery) (message : error) (fallback : option Decision)
  | cHealth (tenant destination : string) (success : bool) (message : option error)
  | cObserve (destination outcome : string).

Definition ans (c : call) : Type :=
  match c with
  | cCtxErr => option error
  | cSleep _ => bool
  | cNow => time
  | cClaim _ _ => result (option Delivery)
  | cSend _ _ => option error
  | cMarkDelivered _ | cMarkRetry _ _ _ | cDeadLetter _ _ _ | cHealth _ _ _ _ => result unit
  | cObserve _ _ => unit
  end.

Abbreviation P := (proc ans).

(** [NewDispatcher]: a sender for every enabled destination; [NewSender] is a parameter. *)
Fixpoint build_senders (NewSender : Destination -> result unit) (destinations : list Destination) (senders : gset string)
  : result (gset string) :=
  match destinations with
  | [] => Ok senders
  | d :: rest =>
      match NewSender d with
      | Err e => Err (ErrWrap "destination" e)
      | Ok _ => build_senders NewSender rest ({[de_Name d]} ∪ senders)
      end
  end.

Record Dispatcher := mkDispatcher { di_config : Config; di_senders : gset string }.

Definition NewDispatcher (url_Parse : string -> result Endpoint) (NewSender : Destination -> result unit)
    (config : Config) : result Dispatcher :=
  match Validate url_Parse config with
  | Err e => Err e
  | Ok _ =>
      match build_senders NewSender (EnabledDestinations config) ∅ with
      | Err e => Err e
      | Ok senders => Ok (mkDispatcher config senders)
      end
  end.

Section dispatcher.
Variable dispatcher : Dispatcher.

Definition terminalFailure (d : Delivery) (cause : error) : P unit :=
  let fallback := fallback_decision (di_config dispatcher) (dv_FailureFallback d) (dv_Destination d) in
  r ← (Proc.call (cDeadLetter d cause fallback) : P (result unit));
  match r with
  | Err _ => mret tt
  | Ok _ =>
      (Proc.call (cObserve (dv_Destination d) "dead_letter") : P unit);;
      match fallback with
      | Some fb => (Proc.call (cObserve (rd_Destination fb) "fallback_enqueued") : P unit)
      | None => mret tt
      end
  end.

Definition deliver (d : Delivery) : P unit :=
  if negb (bool_decide (dv_Destination d ∈ di_senders dispatcher))
  then terminalFailure d (ErrMsg "destination is no longer configured")
  else
    err ← (Proc.call (cSend (dv_Destination d) (dv_Event d)) : P (option error));
    match err with
    | None =>
        r ← (Proc.call (cMarkDelivered d) : P (result unit));
        match r with
        | Err _ => mret tt
        | Ok _ =>
            (Proc.call (cHealth (dv_TenantID d) (dv_Destination d) true None) : P (result unit));;
            (Proc.call (cObserve (dv_Destination d) "delivered") : P unit)
        end
    | Some e =>
        (Proc.call (cHealth (dv_TenantID d) (dv_Destination d) false (Some e)) : P (result unit));;
        if negb (Retryable e) then
          (Proc.call (cObserve (dv_Destination d) "permanent_failure") : P unit);;
          terminalFailure d e
        else if dv_MaxAttempts d <=? dv_Attempts d then terminalFailure d e
        else
          now ← (Proc.call cNow : P time);
          let delay := retryDelay (dv_Attempts d) (dv_BaseDelayMS d) (dv_MaxDelayMS d) in
          r ← (Proc.call (cMarkRetry d e (now + delay)) : P (result unit));
          match r with
          | Err _ => mret tt
          | Ok _ => (Proc.call (cObserve (dv_Destination d) "retry") : P unit)
          end
    end.

(** The body of [runLane]'s loop; [false] when the lane returns. *)
Definition lane_iteration (destination : string) : P bool :=
  stopped ← (Proc.call cCtxErr : P (option error));
  match stopped with
  | Some _ => mret false
  | None =>
      claimed ← (Proc.call (cClaim destination dispatcher_lease) : P (result (option Delivery)));
      match claimed with
      | Ok (Some d) => deliver d;; mret true
      | _ => (Proc.call (cSleep pollInterval) : P bool)
      end
  end.

End dispatcher.

(** ** The system *)

Section system.

Variable Marshal : Event -> result string.
Variable Unmarshal : string -> result Event.
Variable ctx_tenant : string.
Variable dispatcher : Dispatcher.

(** A lane: between two iterations, in one, or returned. *)
Inductive lane : Type :=
  | Ready (destination : string)
  | Running (destination : string) (past : list (obs ans)) (p : P bool)
  | Returned (destination : string).

Record Sys := mkSys {
  y_db : Db;
  y_now : time;
  y_lanes : list lane;
  (** Sends that succeeded, and plans the store accepted with their tenants. *)
  y_sent : list (string * Event);
  y_plans : list (string * Event * list Decision);
}.

Definition set_db db s := mkSys db (y_now s) (y_lanes s) (y_sent s) (y_plans s).
Definition set_lanes l s := mkSys (y_db s) (y_now s) l (y_sent s) (y_plans s).

Definition start (lanes : list string) (db : Db) (now : time) : Sys :=
  mkSys db now (Ready <$> lanes) [] [].

(** The environment's part of an answer: what happens to the transaction, the row a claim
    selects with the rows it finds locked, and the answers of the other calls. *)
Record env := mkEnv {
  en_fault : fault;
  en_locked : gset Key;
  en_pick : option Key;
  en_oracle : forall c, ans c;
}.

Definition respond (e : env) (c : call) (s : Sys) : option (ans c * Sys) :=
  let store (r : result unit * Db) : result unit * Sys := (r.1, set_db r.2 s) in
  match c with
  | cClaim destination lease =>
      if may_pick (y_now s) destination (en_locked e) (en_pick e) (y_db s) then
        let r := ClaimRoutingDelivery Unmarshal (en_fault e) (y_now s) (en_oracle e cNow) lease (en_pick e) (y_db s) in
        Some (r.1, set_db r.2 s)
      else None
  | cSend destination event =>
      match en_oracle e (cSend destination event) with
      | None => Some (None, mkSys (y_db s) (y_now s) (y_lanes s) (y_sent s ++ [(destination, event)]) (y_plans s))
      | Some err => Some (Some err, s)
      end
  | cMarkDelivered d => Some (store (MarkRoutingDelivered (en_fault e) (y_now s) d (y_db s)))
  | cMarkRetry d message next => Some (store (MarkRoutingRetry (en_fault e) (y_now s) d message next (y_db s)))
  | cDeadLetter d message fallback =>
      Some (store (DeadLetterRoutingDelivery Marshal (en_fault e) (y_now s) d message fallback (y_db s)))
  | cHealth tenant destination success message =>
      Some (store (RecordRoutingDestinationHealth ctx_tenant (en_fault e) (y_now s) tenant destination success message (y_db s)))
  | c => Some (en_oracle e c, s)
  end.

Inductive choice : Type :=
  | LaneBegin (i : nat)
  | LaneStep (i : nat) (e : env)
  | LaneKilled (i : nat)
  | Enqueue (f : fault) (tenant : string) (event : Event) (decisions : list Decision)
  | Requeue (f : fault) (tenant event_id destination : string)
  | Tick (seconds : positive).

Definition lane_destination (l : lane) : string :=
  match l with Ready n | Running n _ _ | Returned n => n end.

Definition lane_next (destination : string) (past : list (obs ans)) (p : P bool) : lane :=
  match p with
  | Return true => Ready destination
  | Return false => Returned destination
  | Call _ _ => Running destination past p
  end.

Definition step (ch : choice) (s : Sys) : option Sys :=
  match ch with
  | LaneBegin i =>
      match y_lanes s !! i with
      | Some (Ready n) => Some (set_lanes (<[i := Running n [] (lane_iteration dispatcher n)]> (y_lanes s)) s)
      | _ => None
      end
  | LaneStep i e =>
      match y_lanes s !! i with
      | Some (Running n past (Call c k)) =>
          '(x, s') ← respond e c s;
          Some (set_lanes (<[i := lane_next n (past ++ [observe c x]) (k x)]> (y_lanes s')) s')
      | _ => None
      end
  | LaneKilled i =>
      match y_lanes s !! i with
      | Some l => Some (set_lanes (<[i := Ready (lane_destination l)]> (y_lanes s)) s)
      | None => None
      end
  | Enqueue f tenant event decisions =>
      let r := EnqueueRoutingPlan Marshal tenant f (y_now s) event decisions (y_db s) in
      Some (mkSys r.2 (y_now s) (y_lanes s) (y_sent s)
              (match r.1 with Ok _ => y_plans s ++ [(tenantForEvent tenant event, event, decisions)] | Err _ => y_plans s end))
  | Requeue f tenant event_id destination =>
      Some (set_db (RequeueRoutingDeadLetter tenant f (y_now s) event_id destination (y_db s)).2 s)
  | Tick seconds => Some (mkSys (y_db s) (y_now s + Zpos seconds) (y_lanes s) (y_sent s) (y_plans s))
  end.

Fixpoint exec (schedule : list choice) (s : Sys) : Sys :=
  match schedule with
  | [] => s
  | ch :: rest => exec rest (default s (step ch s))
  end.

End system.

(** ** What the outbox promises *)

Section theorems.

Variable Marshal : Event -> result string.
Variable Unmarshal : string -> result Event.
Variable ctx_tenant : string.
Variable dispatcher : Dispatcher.
Implicit Types (db : Db) (rows : gmap Key Row) (k : Key) (sent : list (string * Event)) (past : list (obs ans)).

Abbreviation step := (step Marshal Unmarshal ctx_tenant dispatcher).
Abbreviation exec := (exec Marshal Unmarshal ctx_tenant dispatcher).

(** Rows stay, with their envelope and fallback. *)
Definition row_ext rows rows' : Prop :=
  forall k r, rows !! k = Some r -> exists r', rows' !! k = Some r' /\
    r_Envelope r' = r_Envelope r /\ r_FailureFallback r' = r_FailureFallback r.

(** Where an intent stands: it will be due, or the event its envelope holds was sent with
    success, or it has a dead letter that holds that event and, where a fallback is
    configured, an intent for the fallback. *)
Definition accounted sent db k (r : Row) : Prop :=
  match r_Status r with
  | Pending | Retry => True
  | Sending => is_Some (r_LeaseUntil r)
  | Delivered => exists event, Unmarshal (r_Envelope r) = Ok event /\ (k.2, event) ∈ sent
  | DeadLettered =>
      exists dead event, db_dead db !! k = Some dead /\ Unmarshal (r_Envelope r) = Ok event /\
        Marshal event = Ok (dd_Envelope dead) /\
        forall fb, fallback_decision (di_config dispatcher) (r_FailureFallback r) k.2 = Some fb ->
          is_Some (db_deliveries db !! (k.1, rd_Destination fb))
  end.

(** What one transaction may do to the tables. *)
Definition moves sent db db' : Prop :=
  row_ext (db_deliveries db) (db_deliveries db') /\
  forall k r', db_deliveries db' !! k = Some r' ->
    (db_deliveries db !! k = Some r' /\ db_dead db' !! k = db_dead db !! k) \/ accounted sent db' k r'.

#[local] Instance row_ext_preorder : PreOrder row_ext.
Proof.
  split.
  - intros rows k r H. eauto.
  - intros a b c Hab Hbc k r (r1 & H1 & E1 & F1)%Hab. apply Hbc in H1 as (r2 & H2 & E2 & F2).
    exists r2. split; [done|]. split; congruence.
Qed.

Lemma moves_refl sent db : moves sent db db.
Proof. split; [done|]. by left. Qed.

Lemma accounted_frame sent sent' db db' k r :
  accounted sent db k r -> sent ⊆ sent' -> row_ext (db_deliveries db) (db_deliveries db') ->
  db_dead db' !! k = db_dead db !! k -> accounted sent' db' k r.
Proof.
  unfold accounted. destruct (r_Status r); [done|done|done| |].
  - intros (event & Hu & Hs) Hsub _ _. exists event. split; [done|]. by apply Hsub.
  - intros (dead & event & Hd & Hu & Hm & Hf) _ Hx Hk. exists dead, event. rewrite Hk.
    split_and!; [done..|]. intros fb [r1 H]%Hf. apply Hx in H as (r2 & H & _). by exists r2.
Qed.

Lemma moves_accounted sent db db' :
  moves sent db db' -> (forall k r, db_deliveries db !! k = Some r -> accounted sent db k r) ->
  forall k r, db_deliveries db' !! k = Some r -> accounted sent db' k r.
Proof.
  intros [Hx Hm] Ha k r [[H Hk]|H]%Hm; [|done]. eapply accounted_frame; [by apply Ha|done|done|done].
Qed.

Lemma transact_moves {A} f (op : Db -> result (A * Db)) sent db :
  (forall a db', op db = Ok (a, db') -> moves sent db db') -> moves sent db (transact f op db).2.
Proof. apply (transact_keeps f op (moves sent)), moves_refl. Qed.

Lemma alter_ext rows k f :
  (forall r, r_Envelope (f r) = r_Envelope r /\ r_FailureFallback (f r) = r_FailureFallback r) ->
  row_ext rows (alter f k rows).
Proof.
  intros Hf k' r H. destruct (decide (k = k')) as [<-|Hne].
  - exists (f r). rewrite lookup_alter_eq, H. by split; [|apply Hf].
  - exists r. by rewrite lookup_alter_ne.
Qed.

Lemma update_moves sent db k f :
  (forall r, r_Envelope (f r) = r_Envelope r /\ r_FailureFallback (f r) = r_FailureFallback r) ->
  (forall r, db_deliveries db !! k = Some r -> accounted sent (update_row k f db) k (f r)) ->
  moves sent db (update_row k f db).
Proof.
  intros Hf Ha. split; [by apply alter_ext|]. intros k' r'. cbn.
  destruct (decide (k = k')) as [<-|Hne].
  - rewrite lookup_alter_eq, fmap_Some. intros (r & H & ->). right. by apply Ha.
  - rewrite lookup_alter_ne by done. by left.
Qed.

Lemma insert_delivery_spec now tenant id envelope d rows rows' :
  insert_delivery now tenant id envelope d rows = Ok rows' ->
  row_ext rows rows' /\ is_Some (rows' !! (tenant, id, rd_Destination d)) /\
  (forall k r, rows' !! k = Some r -> rows !! k = Some r \/ r_Status r = Pending).
Proof.
  unfold insert_delivery. destruct (negb _); [done|].
  destruct (rows !! _) as [r0|] eqn:E; intros [= <-].
  - split; [done|]. split; [by exists r0|]. by left.
  - split; [|split].
    + intros k r H. exists r. rewrite lookup_insert_ne; [done|]. congruence.
    + rewrite lookup_insert_eq. by eexists.
    + intros k r [[_ <-]|[_ H]]%lookup_insert_Some; [by right|by left].
Qed.

Lemma insert_all_spec now tenant id envelope decisions : forall rows rows',
  insert_all now tenant id envelope decisions rows = Ok rows' ->
  row_ext rows rows' /\ (forall d, d ∈ decisions -> is_Some (rows' !! (tenant, id, rd_Destination d))) /\
  (forall k r, rows' !! k = Some r -> rows !! k = Some r \/ r_Status r = Pending).
Proof.
  induction decisions as [|d decisions IH]; intros rows rows'; cbn [insert_all].
  { intros [= <-]. split; [done|]. split; [|by left]. intros d H. by apply not_elem_of_nil in H. }
  destruct (insert_delivery _ _ _ _ _ _) as [rows1|] eqn:E; [|done].
  apply insert_delivery_spec in E as (Hx1 & [r1 Hs1] & Hn1). intros (Hx2 & Hs2 & Hn2)%IH.
  split; [by etrans|]. split.
  - intros d' [-> |H]%elem_of_cons; [|by apply Hs2]. apply Hx2 in Hs1 as (r2 & H & _). by exists r2.
  - intros k r [H|H]%Hn2; [by apply Hn1|by right].
Qed.

(** ** Each operation *)

Lemma enqueue_spec f tenant now event decisions sent db r db' :
  EnqueueRoutingPlan Marshal tenant f now event decisions db = (r, db') ->
  moves sent db db' /\
  (r = Ok tt -> forall d, d ∈ decisions ->
     is_Some (db_deliveries db' !! (tenantForEvent tenant event, ev_ID event, rd_Destination d))).
Proof.
  unfold EnqueueRoutingPlan. case_bool_decide as Hnil.
  { intros [= <- <-]. split; [apply moves_refl|]. intros _ d H. rewrite Hnil in H. by apply not_elem_of_nil in H. }
  destruct (Marshal event) as [envelope|e]; [|intros [= <- <-]; split; [apply moves_refl|done]].
  unfold transact. destruct (insert_all _ _ _ _ _ _) as [rows|e] eqn:E.
  - apply insert_all_spec in E as (Hx & Hs & Hn).
    assert (moves sent db (set_deliveries rows db)) as Hm.
    { split; [done|]. intros k r' [H|H]%Hn; [by left|right]. unfold accounted. by rewrite H. }
    destruct f; intros [= <- <-]; (split; [done || apply moves_refl|done || by intros]).
  - destruct f; intros [= <- <-]; (split; [apply moves_refl|done]).
Qed.

Lemma claim_spec f now appNow lease pick sent db r db' :
  ClaimRoutingDelivery Unmarshal f now appNow lease pick db = (r, db') ->
  moves sent db db' /\
  forall d, r = Ok (Some d) -> exists row, db_deliveries db' !! dv_key d = Some row /\
    Unmarshal (r_Envelope row) = Ok (dv_Event d) /\ r_FailureFallback row = dv_FailureFallback d.
Proof.
  unfold ClaimRoutingDelivery. destruct pick as [key|].
  2:{ destruct f; intros [= <- <-]; (split; [apply moves_refl|done]). }
  unfold transact. destruct (db_deliveries db !! key) as [row|] eqn:Er.
  2:{ destruct f; intros [= <- <-]; (split; [apply moves_refl|done]). }
  destruct (Unmarshal (r_Envelope row)) as [event|e] eqn:Eu.
  2:{ destruct f; intros [= <- <-]; (split; [apply moves_refl|done]). }
  destruct (negb (fits_int4 _)).
  { destruct f; intros [= <- <-]; (split; [apply moves_refl|done]). }
  set (g := fun r => set_attempts (r_Attempts row + 1) (set_status Sending (Some (appNow + lease)) (r_LastError r) now r)).
  assert (moves sent db (update_row key g db)) as Hm by (apply update_moves; [done|by eexists]).
  destruct f; intros [= <- <-]; (split; [done || apply moves_refl|done || idtac]).
  intros d [= <-]. exists (g row). unfold dv_key. cbn. destruct key as [[t i] n]. cbn.
  rewrite lookup_alter_eq, Er. done.
Qed.

Lemma mark_delivered_moves f now d sent db row :
  db_deliveries db !! dv_key d = Some row -> Unmarshal (r_Envelope row) = Ok (dv_Event d) ->
  (dv_Destination d, dv_Event d) ∈ sent -> moves sent db (MarkRoutingDelivered f now d db).2.
Proof.
  intros Hr Hu Hs. apply transact_moves. intros a db' [= _ <-]. apply update_moves; [done|].
  intros r H. rewrite Hr in H. injection H as <-. by exists (dv_Event d).
Qed.

Lemma mark_retry_moves f now d message next sent db : moves sent db (MarkRoutingRetry f now d message next db).2.
Proof. apply transact_moves. intros a db' [= _ <-]. by apply update_moves. Qed.

Lemma requeue_moves f tenant now id destination sent db :
  moves sent db (RequeueRoutingDeadLetter tenant f now id destination db).2.
Proof.
  apply transact_moves. intros a db'. destruct (db_deliveries db !! _) as [row|] eqn:Er; [|done].
  case_bool_decide; [|done]. intros [= _ <-]. split; cbn; [by apply alter_ext|].
  intros k r'. destruct (decide ((tenant, id, destination) = k)) as [<-|Hne].
  - rewrite lookup_alter_eq, Er. intros [= <-]. by right.
  - rewrite lookup_alter_ne, lookup_delete_ne by done. by left.
Qed.

Lemma health_moves f tenant now t destination success message sent db :
  moves sent db (RecordRoutingDestinationHealth tenant f now t destination success message db).2.
Proof. apply transact_moves. intros a db' [= _ <-]. split; cbn; [done|]. by left. Qed.

(** The rows of the dead-letter transaction before the fallback is inserted. *)
Lemma dead_letter_moves f now d message sent db row :
  db_deliveries db !! dv_key d = Some row -> Unmarshal (r_Envelope row) = Ok (dv_Event d) ->
  r_FailureFallback row = dv_FailureFallback d ->
  moves sent db (DeadLetterRoutingDelivery Marshal f now d message
    (fallback_decision (di_config dispatcher) (dv_FailureFallback d) (dv_Destination d)) db).2.
Proof.
  intros Hr Hu Hff. unfold DeadLetterRoutingDelivery.
  destruct (Marshal (dv_Event d)) as [envelope|] eqn:Em; [|apply moves_refl].
  apply transact_moves. intros a db'. cbn zeta.
  set (rows := alter (set_status DeadLettered None (Some message) now) (dv_key d) (db_deliveries db)).
  assert (row_ext (db_deliveries db) rows) as Hx by (by apply alter_ext).
  assert (forall k r', rows !! k = Some r' -> k <> dv_key d -> db_deliveries db !! k = Some r') as Hother.
  { intros k r' H Hne. unfold rows in H. by rewrite lookup_alter_ne in H. }
  assert (forall r', rows !! dv_key d = Some r' -> r_Status r' = DeadLettered /\ r_Envelope r' = r_Envelope row /\
    r_FailureFallback r' = r_FailureFallback row) as Hself.
  { intros r'. unfold rows. rewrite lookup_alter_eq, Hr. by intros [= <-]. }
  destruct (fallback_decision _ _ _) as [fb|] eqn:Ef.
  - destruct (insert_delivery _ _ _ _ _ _) as [rows'|] eqn:Ei; [|done]. intros [= _ <-].
    apply insert_delivery_spec in Ei as (Hx' & Hs & Hn). split; [by etrans|].
    intros k r'. cbn. intros [H|H]%Hn; [|right; unfold accounted; by rewrite H].
    destruct (decide (k = dv_key d)) as [-> |Hne]; [right|left; rewrite lookup_insert_ne by done; eauto].
    destruct (Hself _ H) as (Hst & He & Hf). unfold accounted. rewrite Hst, He, Hf, Hff. eexists _, _.
    split; [apply lookup_insert_eq|]. split; [done|]. split; [done|]. intros fb'.
    change (dv_key d).2 with (dv_Destination d). rewrite Ef. by intros [= <-].
  - intros [= _ <-]. split; [done|]. intros k r' H. cbn in *.
    destruct (decide (k = dv_key d)) as [-> |Hne]; [right|left; rewrite lookup_insert_ne by done; eauto].
    destruct (Hself _ H) as (Hst & He & Hf). unfold accounted. rewrite Hst, He, Hf, Hff. eexists _, _.
    split; [apply lookup_insert_eq|]. split; [done|]. split; [done|]. intros fb'.
    change (dv_key d).2 with (dv_Destination d). by rewrite Ef.
Qed.

(** ** The discipline of a lane *)

Definition claimed past (d : Delivery) : Prop :=
  exists destination lease, observe (cClaim destination lease) (Ok (Some d)) ∈ past.

(** A lane settles only what it claimed: as delivered once the send succeeded, as dead
    with the configured fallback. *)
Definition lane_may past (c : call) : Prop :=
  match c with
  | cMarkDelivered d => claimed past d /\ observe (cSend (dv_Destination d) (dv_Event d)) None ∈ past
  | cMarkRetry d _ _ => claimed past d
  | cDeadLetter d _ fallback =>
      claimed past d /\ fallback = fallback_decision (di_config dispatcher) (dv_FailureFallback d) (dv_Destination d)
  | _ => True
  end.

Lemma claimed_app past t d : claimed past d -> claimed (past ++ t) d.
Proof. intros (n & l & H). exists n, l. apply elem_of_app. by left. Qed.

Abbreviation lane_ok := (fun p past => guarantees lane_may p (fun _ _ => True) past).

Lemma terminal_ok {B} d cause (f : unit -> proc ans B) past :
  claimed past d -> (forall past, lane_ok (f tt) past) ->
  lane_ok (terminalFailure dispatcher d cause ≫= f) past.
Proof.
  intros Hc Hf. unfold terminalFailure. cbn. split; [done|]. intros [[]|e]; cbn; [|apply Hf].
  split; [done|]. intros []. destruct (fallback_decision _ _ _); cbn; [|apply Hf].
  split; [done|]. intros []. apply Hf.
Qed.

Lemma deliver_ok {B} d (f : unit -> proc ans B) past :
  claimed past d -> (forall past, lane_ok (f tt) past) -> lane_ok (deliver dispatcher d ≫= f) past.
Proof.
  intros Hc Hf. unfold deliver. destruct (negb _); [by apply terminal_ok|].
  cbn. split; [done|]. intros [e|]; cbn.
  - split; [done|]. intros ?. destruct (negb (Retryable e)); [cbn; split; [done|]; intros []|destruct (_ <=? _)].
    + apply terminal_ok; [by repeat apply claimed_app|done].
    + apply terminal_ok; [by repeat apply claimed_app|done].
    + cbn. split; [done|]. intros now. split; [by repeat apply claimed_app|]. intros [[]|]; cbn; [|apply Hf].
      split; [done|]. intros []. apply Hf.
  - split; [split; [by apply claimed_app|apply elem_of_app; right; left]|]. intros [[]|]; cbn; [|apply Hf].
    split; [done|]. intros ?. split; [done|]. intros []. apply Hf.
Qed.

Lemma lane_iteration_ok n : lane_ok (lane_iteration dispatcher n) [].
Proof.
  unfold lane_iteration. cbn. split; [done|]. intros [e|]; cbn; [done|]. split; [done|].
  intros [[d|]|e]; cbn; [|done|done]. apply deliver_ok; [|done].
  exists n, dispatcher_lease. right. left.
Qed.

(** What the calls of a lane so far tell about the tables and the backends. *)
Definition known sent db past : Prop :=
  Forall (fun o =>
    match o with
    | existT c x =>
        match c return ans c -> Prop with
        | cClaim _ _ => fun x => forall d, x = Ok (Some d) ->
            exists row, db_deliveries db !! dv_key d = Some row /\
              Unmarshal (r_Envelope row) = Ok (dv_Event d) /\ r_FailureFallback row = dv_FailureFallback d
        | cSend destination event => fun x => x = None -> (destination, event) ∈ sent
        | _ => fun _ => True
        end x
    end) past.

Definition lane_inv sent db (l : lane) : Prop :=
  match l with
  | Running _ past p => lane_ok p past /\ known sent db past
  | _ => True
  end.

Lemma known_frame sent sent' db db' past :
  known sent db past -> sent ⊆ sent' -> row_ext (db_deliveries db) (db_deliveries db') -> known sent' db' past.
Proof.
  intros Hk Hs Hx. eapply Forall_impl; [exact Hk|]. intros [c x]. destruct c; try done; cbn.
  - intros H d (row & Hr & Hu & Hf)%H. apply Hx in Hr as (row' & Hr & He & Hf'). exists row'.
    split; [done|]. split; congruence.
  - intros H Hx'. by apply Hs, H.
Qed.

Lemma known_claimed sent db past d :
  known sent db past -> claimed past d ->
  exists row, db_deliveries db !! dv_key d = Some row /\
    Unmarshal (r_Envelope row) = Ok (dv_Event d) /\ r_FailureFallback row = dv_FailureFallback d.
Proof.
  unfold known. rewrite Forall_forall. intros Hk (n & l & H). by apply (Hk _ H).
Qed.

Lemma known_sent sent db past n event :
  known sent db past -> observe (ans := ans) (cSend n event) None ∈ past -> (n, event) ∈ sent.
Proof. unfold known. rewrite Forall_forall. intros Hk H. by apply (Hk _ H). Qed.

(** ** The invariant of the system *)

Record inv (s : Sys) : Prop := mkInv {
  inv_rows : forall k r, db_deliveries (y_db s) !! k = Some r -> accounted (y_sent s) (y_db s) k r;
  inv_plans : forall tenant event decisions d, (tenant, event, decisions) ∈ y_plans s -> d ∈ decisions ->
    is_Some (db_deliveries (y_db s) !! (tenant, ev_ID event, rd_Destination d));
  inv_lanes : Forall (lane_inv (y_sent s) (y_db s)) (y_lanes s);
}.

(** A step that changes the tables by a transaction, and perhaps the lanes. *)
Lemma inv_moves s db' sent' lanes' now' :
  inv s -> y_sent s ⊆ sent' -> moves sent' (y_db s) db' ->
  Forall (lane_inv sent' db') lanes' -> inv (mkSys db' now' lanes' sent' (y_plans s)).
Proof.
  intros [Hr Hp _] Hs Hm Hl. split; cbn; [| |done].
  - apply (moves_accounted _ _ _ Hm). intros k r H.
    eapply accounted_frame; [by apply Hr|done|done|done].
  - intros tenant event decisions d H1 H2. destruct (Hp _ _ _ _ H1 H2) as [r H].
    destruct Hm as [Hx _]. apply Hx in H as (r' & H & _). by exists r'.
Qed.

Lemma lanes_frame sent sent' db db' lanes :
  Forall (lane_inv sent db) lanes -> sent ⊆ sent' -> row_ext (db_deliveries db) (db_deliveries db') ->
  Forall (lane_inv sent' db') lanes.
Proof.
  intros H Hs Hx. eapply Forall_impl; [exact H|]. intros [n|n past p|n]; [done| |done].
  intros [H1 H2]. split; [done|]. by eapply known_frame.
Qed.

(** The answer to one call of a lane that keeps the discipline. *)
Lemma respond_moves e c s x s' past :
  inv s -> lane_may past c -> known (y_sent s) (y_db s) past ->
  respond Marshal Unmarshal ctx_tenant e c s = Some (x, s') ->
  y_sent s ⊆ y_sent s' /\ y_plans s' = y_plans s /\ y_lanes s' = y_lanes s /\
  moves (y_sent s') (y_db s) (y_db s') /\ known (y_sent s') (y_db s') (past ++ [observe c x]).
Proof.
  intros Hi Hmay Hk Hresp.
  assert (forall db', moves (y_sent s) (y_db s) db' -> known (y_sent s) db' past) as Hkm.
  { intros db' [Hx _]. by eapply known_frame. }
  assert (forall o, known (y_sent s) (y_db s) [o] -> known (y_sent s) (y_db s) (past ++ [o])) as Hsnoc.
  { intros o Ho. by apply Forall_app. }
  destruct c; cbn in Hresp.
  4:{ destruct (may_pick _ _ _ _ _); [|done]. injection Hresp as <- <-. cbn.
      destruct (ClaimRoutingDelivery _ _ _ _ _ _ _) as [r db'] eqn:E.
      apply (claim_spec _ _ _ _ _ (y_sent s)) in E as [Hm Hd]. cbn. split_and!; [done..|].
      apply Forall_app. split; [by apply Hkm|]. constructor; [|constructor]. exact Hd. }
  4:{ destruct (en_oracle e _) eqn:Eo; injection Hresp as <- <-; cbn.
      - split_and!; [done..|apply moves_refl|]. apply Hsnoc. constructor; [|constructor]. done.
      - assert (y_sent s ⊆ y_sent s ++ [(destination, event)]) as Hs.
        { intros y Hy. apply elem_of_app. by left. }
        split_and!; [done..|apply moves_refl|]. apply Forall_app. split; [by eapply known_frame|].
        constructor; [|constructor]. intros _. apply elem_of_app. right. left. }
  4:{ injection Hresp as <- <-. destruct Hmay as [Hc Hs].
      apply (known_claimed _ _ _ _ Hk) in Hc as (row & Hr & Hu & _). apply (known_sent _ _ _ _ _ Hk) in Hs.
      pose proof (mark_delivered_moves (en_fault e) (y_now s) d _ _ row Hr Hu Hs) as Hm.
      cbn. split_and!; [done..|]. apply Forall_app. split; [by apply Hkm|]. by constructor. }
  4:{ injection Hresp as <- <-.
      pose proof (mark_retry_moves (en_fault e) (y_now s) d message next (y_sent s) (y_db s)) as Hm.
      cbn. split_and!; [done..|]. apply Forall_app. split; [by apply Hkm|]. by constructor. }
  4:{ injection Hresp as <- <-. destruct Hmay as [Hc ->].
      apply (known_claimed _ _ _ _ Hk) in Hc as (row & Hr & Hu & Hf).
      pose proof (dead_letter_moves (en_fault e) (y_now s) d message (y_sent s) _ row Hr Hu Hf) as Hm.
      cbn. split_and!; [done..|]. apply Forall_app. split; [by apply Hkm|]. by constructor. }
  4:{ injection Hresp as <- <-.
      pose proof (health_moves (en_fault e) ctx_tenant (y_now s) tenant destination success message (y_sent s) (y_db s)) as Hm.
      cbn. split_and!; [done..|]. apply Forall_app. split; [by apply Hkm|]. by constructor. }
  all: injection Hresp as <- <-; split_and!; [done..|apply moves_refl|]; apply Hsnoc; by constructor.
Qed.

Lemma lane_next_inv sent db n past p :
  lane_ok p past -> known sent db past -> lane_inv sent db (lane_next n past p).
Proof. intros Hp Hk. destruct p as [[]|c k]; [done|done|]. by split. Qed.

Lemma outbox_step_inv ch s s' : inv s -> step ch s = Some s' -> inv s'.
Proof.
  intros Hi. pose proof (inv_lanes s Hi) as Hl. destruct ch as [i|i e|i|f tenant event decisions|f tenant id n|t]; cbn.
  - destruct (y_lanes s !! i) as [[n| |]|] eqn:Ei; [|done..]. intros [= <-].
    apply inv_moves; [done|done|apply moves_refl|]. apply Forall_insert; [done|].
    split; [apply lane_iteration_ok|constructor].
  - destruct (y_lanes s !! i) as [[ |n past [|c k]|]|] eqn:Ei; [done|done| |done|done].
    destruct (respond _ _ _ _ _ _) as [[x s1]|] eqn:Er; [|done]. intros [= <-].
    pose proof Hl as Hl'. rewrite Forall_lookup in Hl'. destruct (Hl' _ _ Ei) as [[Hmay Hk] Hkn].
    destruct (respond_moves _ _ _ _ _ _ Hi Hmay Hkn Er) as (Hs & Hp & Hls & Hm & Hkn').
    unfold set_lanes. rewrite Hp. apply inv_moves; [done|done|done|]. rewrite Hls.
    apply Forall_insert; [|by apply lane_next_inv]. eapply lanes_frame; [done|done|]. apply Hm.
  - destruct (y_lanes s !! i) as [l|] eqn:Ei; [|done]. intros [= <-].
    apply inv_moves; [done|done|apply moves_refl|]. by apply Forall_insert.
  - intros [= <-]. destruct (EnqueueRoutingPlan _ _ _ _ _ _ _) as [r db'] eqn:E. cbn.
    apply (enqueue_spec _ _ _ _ _ (y_sent s)) in E as [Hm Hd].
    assert (inv (mkSys db' (y_now s) (y_lanes s) (y_sent s) (y_plans s))) as [Hr Hp Hln].
    { apply inv_moves; [done|done|done|]. eapply lanes_frame; [done|done|]. apply Hm. }
    split; cbn; [done| |done]. intros tenant' event' decisions' d Hin Hd'. destruct r as [[]|]; [|by eapply Hp].
    apply elem_of_app in Hin as [Hin|Hin]; [by eapply Hp|].
    apply list_elem_of_singleton in Hin as [= -> -> ->]. by apply Hd.
  - intros [= <-]. pose proof (requeue_moves f tenant (y_now s) id n (y_sent s) (y_db s)) as Hm.
    apply inv_moves; [done|done|done|]. eapply lanes_frame; [done|done|]. apply Hm.
  - intros [= <-]. apply inv_moves; [done|done|apply moves_refl|done].
Qed.

Lemma outbox_exec_inv schedule : forall s, inv s -> inv (exec schedule s).
Proof.
  induction schedule as [|ch rest IH]; intros s Hi; cbn; [done|]. apply IH.
  destruct (step ch s) as [s'|] eqn:E; [|done]. by eapply outbox_step_inv.
Qed.

Definition empty_db : Db := mkDb ∅ ∅ ∅ ∅.

Lemma outbox_start_inv lanes now : inv (start lanes empty_db now).
Proof.
  split; cbn.
  - intros k r H. by rewrite lookup_empty in H.
  - intros tenant event decisions d H. by apply not_elem_of_nil in H.
  - apply Forall_fmap, Forall_true. done.
Qed.

(** A row that is neither delivered nor dead is due from some time on. *)
Lemma open_row_due sent db k r :
  accounted sent db k r -> r_Status r <> Delivered -> r_Status r <> DeadLettered ->
  exists t, forall now, t < now -> due now k.2 k r = true.
Proof.
  unfold accounted, due. intros Ha H1 H2. rewrite bool_decide_eq_true_2 by done.
  destruct (r_Status r) eqn:E; [| | |done|done].
  - exists (r_NextAttemptAt r). intros now Hn. cbn. rewrite (proj2 (Z.leb_le _ _)) by lia. done.
  - destruct Ha as [t Ht]. exists t. intros now Hn. rewrite Ht. cbn. by apply Z.ltb_lt.
  - exists (r_NextAttemptAt r). intros now Hn. cbn. rewrite (proj2 (Z.leb_le _ _)) by lia. done.
Qed.

(** C5: no routed event is lost.  Whatever the interleaving of lanes, killed lanes, lost
    database replies, failed sends and requeued dead letters, every delivery of a plan the
    store accepted has its row, and every row is accounted for: it will be due at some
    time, or it is marked delivered and the event its envelope holds was sent to that
    destination with success, or it is dead-lettered, the dead letter holds that event and
    the configured failure fallback has a row of its own. *)
Theorem outbox_accounts_for_every_delivery lanes now schedule :
  let s := exec schedule (start lanes empty_db now) in
  (forall tenant event decisions d, (tenant, event, decisions) ∈ y_plans s -> d ∈ decisions ->
     is_Some (db_deliveries (y_db s) !! (tenant, ev_ID event, rd_Destination d))) /\
  (forall k r, db_deliveries (y_db s) !! k = Some r ->
     match r_Status r with
     | Delivered => exists event, Unmarshal (r_Envelope r) = Ok event /\ (k.2, event) ∈ y_sent s
     | DeadLettered =>
         exists dead event, db_dead (y_db s) !! k = Some dead /\ Unmarshal (r_Envelope r) = Ok event /\
           Marshal event = Ok (dd_Envelope dead) /\
           forall fb, fallback_decision (di_config dispatcher) (r_FailureFallback r) k.2 = Some fb ->
             is_Some (db_deliveries (y_db s) !! (k.1, rd_Destination fb))
     | _ => exists t, forall now', t < now' -> due now' k.2 k r = true
     end).
Proof.
  intros s. destruct (outbox_exec_inv schedule _ (outbox_start_inv lanes now)) as [Hr Hp _]. split; [exact Hp|].
  intros k r H. specialize (Hr _ _ H). pose proof (open_row_due _ _ _ _ Hr) as Hd.
  unfold accounted in Hr. destruct (r_Status r); [by apply Hd..|exact Hr|exact Hr].
Qed.

(** ** One delivery *)

Definition settlements (t : list (obs ans)) : list call :=
  omap (fun o => match projT1 o with
                 | cMarkDelivered _ | cMarkRetry _ _ _ | cDeadLetter _ _ _ => Some (projT1 o)
                 | _ => None
                 end) t.

Lemma terminal_settles d cause t :
  runs (terminalFailure dispatcher d cause) t tt ->
  settlements t = [cDeadLetter d cause
    (fallback_decision (di_config dispatcher) (dv_FailureFallback d) (dv_Destination d))].
Proof.
  unfold terminalFailure. cbn. intros ([[]|e] & t' & -> & H); cbn in *.
  - destruct H as ([] & t'' & -> & H). cbn in *. destruct (fallback_decision _ _ _); cbn in *.
    + destruct H as ([] & t3 & -> & [-> _]). done.
    + by destruct H as [-> _].
  - by destruct H as [-> _].
Qed.

(** C29: a delivery is settled once, by the outcome of its send.  Every run of [deliver]
    makes exactly one settling call to the store: delivered if the send succeeded; a dead
    letter, with the configured fallback, if the destination has no sender or the send
    failed for good or for the last allowed time; otherwise a retry after [retryDelay],
    which only happens for a retryable failure with attempts left. *)
Theorem deliver_settles_once d t :
  runs (deliver dispatcher d) t tt ->
  exists c, settlements t = [c] /\
    match c with
    | cMarkDelivered d' => d' = d /\ observe (cSend (dv_Destination d) (dv_Event d)) None ∈ t
    | cMarkRetry d' e next =>
        d' = d /\ observe (cSend (dv_Destination d) (dv_Event d)) (Some e) ∈ t /\ Retryable e = true /\
        dv_Attempts d < dv_MaxAttempts d /\
        exists now, observe cNow now ∈ t /\ next = now + retryDelay (dv_Attempts d) (dv_BaseDelayMS d) (dv_MaxDelayMS d)
    | cDeadLetter d' e fallback =>
        d' = d /\ fallback = fallback_decision (di_config dispatcher) (dv_FailureFallback d) (dv_Destination d) /\
        (dv_Destination d ∉ di_senders dispatcher \/
         observe (cSend (dv_Destination d) (dv_Event d)) (Some e) ∈ t /\
         (Retryable e = false \/ dv_MaxAttempts d <= dv_Attempts d))
    | _ => False
    end.
Proof.
  unfold deliver. case_bool_decide as Hs; cbn [negb].
  2:{ intros H%terminal_settles. eexists. split; [done|]. split; [done|]. split; [done|]. by left. }
  cbn. intros (err & t1 & -> & H). destruct err as [e|]; cbn in H.
  - destruct H as (h & t2 & -> & H). destruct (Retryable e) eqn:Er; cbn [negb] in H.
    + destruct (dv_MaxAttempts d <=? dv_Attempts d) eqn:El.
      * apply terminal_settles in H. exists (cDeadLetter d e (fallback_decision (di_config dispatcher)
          (dv_FailureFallback d) (dv_Destination d))). split; [exact H|]. split; [done|]. split; [done|].
        right. split; [left|]. right. by apply Z.leb_le.
      * cbn in H. destruct H as (now & t3 & -> & r & t4 & -> & H).
        eexists. split; [destruct r; cbn in *|].
        -- by destruct H as ([] & t5 & -> & [-> _]).
        -- by destruct H as [-> _].
        -- cbn. split; [done|]. split; [left|]. split; [done|]. split; [by apply Z.leb_gt|].
           exists now. split; [right; right; left|done].
    + cbn in H. destruct H as ([] & t3 & -> & H). apply terminal_settles in H.
      exists (cDeadLetter d e (fallback_decision (di_config dispatcher) (dv_FailureFallback d) (dv_Destination d))).
      split; [exact H|]. split; [done|]. split; [done|]. right. split; [left|]. by left.
  - destruct H as (r & t2 & -> & H). exists (cMarkDelivered d). split; [|split; [done|left]].
    destruct r as [[]|]; cbn in *.
    + destruct H as (h & t3 & -> & [] & t4 & -> & [-> _]). done.
    + by destruct H as [-> _].
Qed.

End theorems.

(** ** Concrete runs *)

Definition demo_marshal (e : Event) : result string := Ok (ev_ID e).
Definition demo_unmarshal (text : string) : result Event :=
  Ok (mkEvent text "acme" "orders-eu" "order" 0 ∅ [] None "" "" "" "").

Definition demo_dispatcher : Dispatcher := mkDispatcher demo_config {["primary"; "archive"]}.

Definition demo_oracle (sent : option error) (now : time) : forall c, ans c := fun c =>
  match c return ans c with
  | cCtxErr => None
  | cSleep _ => true
  | cNow => now
  | cClaim _ _ => Ok None
  | cSend _ _ => sent
  | cMarkDelivered _ | cMarkRetry _ _ _ | cDeadLetter _ _ _ | cHealth _ _ _ _ => Ok tt
  | cObserve _ _ => tt
  end.

Definition demo_env (pick : option Key) (sent : option error) (now : time) : env :=
  mkEnv NoFault ∅ pick (demo_oracle sent now).

Definition demo_key (destination : string) : Key := ("acme", "e1", destination).

Definition demo_exec (schedule : list choice) : Sys :=
  exec demo_marshal demo_unmarshal "default" demo_dispatcher schedule
    (start ["primary"; "primary"; "archive"] empty_db 0).

Definition demo_status (destination : string) (schedule : list choice) : option Status :=
  r_Status <$> db_deliveries (y_db (demo_exec schedule)) !! demo_key destination.

(** Lane [i] claims the row of its destination at time [now]. *)
Definition claims (i : nat) (destination : string) (now : time) : list choice :=
  [LaneBegin i; LaneStep i (demo_env None None now); LaneStep i (demo_env (Some (demo_key destination)) None now)].

(** Lane [i] makes [n] further calls; its send answers [sent]. *)
Definition goes_on (i : nat) (n : nat) (sent : option error) : list choice :=
  replicate n (LaneStep i (demo_env None sent 0)).

Definition demo_enqueue : choice := Enqueue NoFault "default" demo_event (Plan demo_config demo_event).

(** A permanent failure of one destination leaves a dead letter and the fallback's row;
    the fallback then delivers. *)
Lemma demo_fallback_run :
  let fails := [Enqueue NoFault "default" demo_event [mkDecision "primary" ["orders"] 5 500 30000 "archive"]]
    ++ claims 0 "primary" 0 ++ goes_on 0 6 (Some (ErrDelivery false (ErrMsg "410"))) in
  demo_status "primary" fails = Some DeadLettered /\ demo_status "archive" fails = Some Pending /\
  demo_status "archive" (fails ++ claims 2 "archive" 0 ++ goes_on 2 4 None) = Some Delivered /\
  y_sent (demo_exec (fails ++ claims 2 "archive" 0 ++ goes_on 2 4 None)) = [("archive", demo_event)].
Proof. split; [|split; [|split]]; vm_compute; reflexivity. Qed.

Lemma deliver_settles_once_witness :
  let d := mkDelivery "acme" "e1" "primary" [] demo_event Sending 1 5 500 30000 "archive" 0 0 0 0 in
  exists t c, runs (deliver demo_dispatcher d) t tt /\ settlements t = [c].
Proof.
  intros d.
  set (t := [observe (ans := ans) (cSend "primary" demo_event) None; observe (cMarkDelivered d) (Ok tt);
             observe (cHealth "acme" "primary" true None) (Ok tt); observe (cObserve "primary" "delivered") tt]).
  assert (runs (deliver demo_dispatcher d) t tt) as H.
  { unfold deliver. rewrite bool_decide_eq_true_2 by (vm_compute; reflexivity).
    cbn. exists None, (drop 1 t). split; [reflexivity|]. exists (Ok tt), (drop 2 t). split; [reflexivity|].
    exists (Ok tt), (drop 3 t). split; [reflexivity|]. exists tt, []. split; [reflexivity|]. split; reflexivity. }
  destruct (deliver_settles_once demo_dispatcher d t H) as (c & Hc & _). exists t, c. split; [exact H|exact Hc].
Defined.

(** The settling updates name the row but not the lease or the attempt: a lane whose lease
    has expired reopens a row that another lane has delivered, or one already dead. *)
Lemma stale_lane_reopens_delivered :
  let before := [demo_enqueue] ++ claims 0 "primary" 0 ++ [Tick 40000000000] ++ claims 1 "primary" 40000000000
    ++ goes_on 1 2 None in
  demo_status "primary" before = Some Delivered /\
  demo_status "primary" (before ++ goes_on 0 4 (Some (ErrMsg "timeout"))) = Some Retry.
Proof. split; vm_compute; reflexivity. Qed.

Lemma stale_lane_reopens_dead_letter :
  let before := [demo_enqueue] ++ claims 0 "primary" 0 ++ [Tick 40000000000] ++ claims 1 "primary" 40000000000
    ++ goes_on 1 4 (Some (ErrDelivery false (ErrMsg "410"))) in
  demo_status "primary" before = Some DeadLettered /\
  demo_status "primary" (before ++ goes_on 0 4 (Some (ErrMsg "timeout"))) = Some Retry /\
  is_Some (db_dead (y_db (demo_exec (before ++ goes_on 0 4 (Some (ErrMsg "timeout"))))) !! demo_key "primary").
Proof. split; [|split]; [vm_compute; reflexivity..|]. eexists. vm_compute. reflexivity. Qed.

(** The conversion and product of the delay wrap: from attempt 36 on with the default base
    the retry is due at once. *)
Lemma retry_delay_overflows : retryDelay 35 500 30000 = 30000 * millisecond /\ retryDelay 36 500 30000 < 0.
Proof. split; vm_compute; reflexivity. Qed.
