(* ===== verification/Policy.v ===== *)
(** * Telemetry policy and the cardinality firewall ([internal/policy]: model and engine)

    A policy names, for each dimension (tag) of an event, how many distinct values it may
    take and what happens beyond that: nothing, dropping the tag, or quarantine.  The
    engine is a program over the calls it makes: to the cardinality tracker of the active
    and of the shadow policy, to the reporting table that spaces out repeated reports, and
    to the recorder.  The reporting table itself, guarded by a mutex, is
    [reserveReportInterval]. *)

From S2P Require Import Prelude GoStrings GoFloat GoPath GoTime Domain Proc.

Local Open Scope string_scope.
Local Open Scope Z_scope.
Local Open Scope list_scope.

(** ** Policies ([model.go]) *)

Abbreviation Action := string.
Definition ActionAllow : Action := "allow".
Definition ActionDropTag : Action := "drop_tag".
Definition ActionQuarantine : Action := "quarantine".
Definition maxPersistedCardinality : Z := 2 ^ 63 - 1.

Record Rule := mkRule {
  po_Source : string;
  po_Type : string;
  po_Dimension : string;
  po_UniqueThreshold : Z;
  po_Action : Action;
}.

Record Budget := mkBudget {
  bu_Name : string;
  bu_Source : string;
  bu_Type : string;
  bu_SeriesLimit : Z;
  bu_WarningPercent : float64;
  bu_CriticalPercent : float64;
}.

Record Policy := mkPolicy {
  p_Name : string;
  p_Version : string;
  p_DefaultUniqueThreshold : Z;
  p_DefaultAction : Action;
  p_DangerousKeys : list string;
  p_Rules : list Rule;
  p_Budgets : list Budget;
}.

Definition validAction (action : Action) : bool :=
  bool_decide (action = ActionAllow) || bool_decide (action = ActionDropTag) ||
  bool_decide (action = ActionQuarantine).

Definition validate_rule (rule : Rule) : result unit :=
  first_error [
    validateGlob "rule source" (po_Source rule);
    validateGlob "rule type" (po_Type rule);
    reject_if (blank (po_Dimension rule)) "rule dimension is required";
    validateGlob "rule dimension" (po_Dimension rule);
    reject_if (po_UniqueThreshold rule <? 2) "rule unique_threshold must be at least 2";
    reject_if (maxPersistedCardinality <? po_UniqueThreshold rule) "rule unique_threshold exceeds the storage range";
    reject_if (negb (validAction (po_Action rule))) "rule has invalid action"].

Fixpoint validate_budgets (seen : list string) (budgets : list Budget) : result unit :=
  match budgets with
  | [] => Ok tt
  | budget :: budgets =>
      let name := trim_space (bu_Name budget) in
      match first_error [
        reject_if (bool_decide (name = "")) "budget name is required";
        reject_if (bool_decide (name ∈ seen)) "duplicate budget name";
        validateGlob "budget source" (bu_Source budget);
        validateGlob "budget type" (bu_Type budget);
        reject_if (bu_SeriesLimit budget <? 2) "budget series_limit must be at least 2";
        reject_if (maxPersistedCardinality <? bu_SeriesLimit budget) "budget series_limit exceeds the storage range";
        reject_if ((bu_WarningPercent budget <=? float_zero)%F || (bu_WarningPercent budget >=? float_of_int 100)%F)
          "budget warning_percent must be between 0 and 100";
        reject_if ((bu_CriticalPercent budget <=? bu_WarningPercent budget)%F ||
                   (bu_CriticalPercent budget >? float_of_int 100)%F)
          "budget critical_percent must be greater than warning_percent and <= 100"]
      with
      | Err e => Err e
      | Ok _ => validate_budgets (name :: seen) budgets
      end
  end.

Definition Validate (policy : Policy) : result unit :=
  first_error ([
    reject_if (blank (p_Name policy)) "policy name is required";
    reject_if (blank (p_Version policy)) "policy version is required";
    reject_if (p_DefaultUniqueThreshold policy <? 2) "default_unique_threshold must be at least 2";
    reject_if (maxPersistedCardinality <? p_DefaultUniqueThreshold policy)
      "default_unique_threshold exceeds the supported signed 64-bit storage range";
    reject_if (negb (validAction (p_DefaultAction policy))) "invalid default action"]
    ++ (validate_rule <$> p_Rules policy) ++ [validate_budgets [] (p_Budgets policy)]).

Definition isDangerousKey (policy : Policy) (dimension : string) : bool :=
  let lower := to_lower dimension in
  existsb (fun key =>
    let key := to_lower (trim_space key) in
    negb (bool_decide (key = "")) && (bool_decide (lower = key) || string_contains lower key))
    (p_DangerousKeys policy).

(** The threshold, the action, and whether the key looks like an identifier. *)
Definition Decision (policy : Policy) (source eventType dimension : string) : Z * Action * bool :=
  match List.find (fun rule => glob (po_Source rule) source && glob (po_Type rule) eventType &&
                               glob (po_Dimension rule) dimension) (p_Rules policy) with
  | Some rule => (po_UniqueThreshold rule, po_Action rule, isDangerousKey policy dimension)
  | None => (p_DefaultUniqueThreshold policy, p_DefaultAction policy, isDangerousKey policy dimension)
  end.

Definition MatchingBudgets (policy : Policy) (source eventType : string) : list Budget :=
  filter (fun budget => glob (bu_Source budget) source && glob (bu_Type budget) eventType = true) (p_Budgets policy).

(** ** Evidence *)

Record Observation := mkObservation {
  ob_ObservedUnique : Z;
  ob_ProjectedUnique : Z;
  ob_FirstSeen : time;
  ob_LastSeen : time;
  ob_WindowStart : time;
  ob_Fingerprint : string;
}.

Record Finding := mkFinding {
  fi_TenantID : string;
  fi_PolicyName : string;
  fi_PolicyVersion : string;
  fi_Mode : string;
  fi_Source : string;
  fi_EventType : string;
  fi_Dimension : string;
  fi_ObservedUnique : Z;
  fi_ProjectedUnique : Z;
  fi_Action : Action;
  fi_Reason : string;
  fi_ValueFingerprint : string;
  fi_FirstSeen : time;
  fi_LastSeen : time;
}.

Record BudgetStatus := mkBudgetStatus {
  bs_TenantID : string;
  bs_PolicyName : string;
  bs_PolicyVersion : string;
  bs_Mode : string;
  bs_BudgetName : string;
  bs_Source : string;
  bs_EventType : string;
  bs_WindowStart : time;
  bs_SeriesLimit : Z;
  bs_ObservedUnique : Z;
  bs_ProjectedUnique : Z;
  bs_ConsumptionPercent : float64;
  bs_Status : string;
  bs_ObservedAt : time;
}.

Record Diff := mkDiff {
  df_TenantID : string;
  df_ObservedAt : time;
  df_Source : string;
  df_EventType : string;
  df_Dimension : string;
  df_ActivePolicy : string;
  df_ActiveVersion : string;
  df_ActiveAction : Action;
  df_ShadowPolicy : string;
  df_ShadowVersion : string;
  df_ShadowAction : Action;
  df_Reason : string;
}.

(** [reportKey]: tenant, mode, source, event type, dimension and action. *)
Record reportKey := mkReportKey {
  rk_tenant : string;
  rk_mode : string;
  rk_source : string;
  rk_eventType : string;
  rk_dimension : string;
  rk_action : Action;
}.

#[export] Instance reportKey_eq_dec : EqDecision reportKey.
Proof. solve_decision. Defined.

#[export] Instance reportKey_countable : Countable reportKey.
Proof.
  apply (inj_countable' (fun k => (rk_tenant k, rk_mode k, rk_source k, rk_eventType k, rk_dimension k, rk_action k))
    (fun '(a, b, c, d, e, f) => mkReportKey a b c d e f)). by intros [].
Defined.

(** ** The reporting table *)

Record Reports := mkReports { re_last : gmap reportKey time; re_max : Z }.

Definition reserveReportInterval (key : reportKey) (now : time) (interval : Z) (reports : Reports) : bool * Reports :=
  let interval := if interval <=? 0 then ns_minute else interval in
  let last : time := default (0 : time) (re_last reports !! key) in
  if negb (is_zero last) && (now - last <? interval) then (false, reports)
  else
    let kept := if re_max reports <? Z.of_nat (size (re_last reports))
                then filter (fun kt => (kt.2 <? now - ns_minute) = false) (re_last reports)
                else re_last reports in
    (true, mkReports (<[key := now]> kept) (re_max reports)).

(** ** The engine ([engine.go]) *)

Record Engine := mkEngine {
  g_active : Policy;
  g_shadow : option Policy;
  g_recorder : bool;
}.

(** [NewEngineWithTrackers], given that both trackers are set. *)
Definition NewEngineWithTrackers (active : Policy) (shadow : option Policy) (recorder : bool) (maxDimensions : Z)
  : result (Engine * Reports) :=
  match Validate active with
  | Err e => Err e
  | Ok _ =>
      match match shadow with Some p => Validate p | None => Ok tt end with
      | Err e => Err (ErrWrap "shadow policy" e)
      | Ok _ =>
          let entries := i64 (maxDimensions * 4) in
          Ok (mkEngine active shadow recorder, mkReports ∅ (if entries <? 100 then 100 else entries))
      end
  end.

Inductive call : Type :=
  | qNow
  | qObserve (mode tenant source eventType dimension value : string) (now : time)
  | qReserve (key : reportKey) (now : time) (interval : Z)
  | qFinding (finding : Finding)
  | qBudget (status : BudgetStatus)
  | qDiff (diff : Diff)
  | qQuarantine (event : Event) (reason : string).

Definition ans (c : call) : Type :=
  match c with
  | qNow => time
  | qObserve _ _ _ _ _ _ _ => result Observation
  | qReserve _ _ _ => bool
  | qFinding _ | qBudget _ | qDiff _ | qQuarantine _ _ => result unit
  end.

Abbreviation P := (proc ans).

Section engine.
Variable engine : Engine.

(** A recording call, with the error of the recorder wrapped. *)
Definition record (label : string) (c : P (result unit)) : P (result unit) :=
  r ← c; mret (match r with Err e => Err (ErrWrap label e) | Ok _ => Ok tt end).

(** The finding of one observation, if the observation deserves one. *)
Definition finding_of (policy : Policy) (mode : string) (event : Event) (dimension : string) (observation : Observation)
  : option Finding :=
  let '(threshold, action, dangerous) := Decision policy (ev_Source event) (ev_Type event) dimension in
  let observed := ob_ObservedUnique observation in
  let projected := ob_ProjectedUnique observation in
  let crossed := (threshold <=? observed) || (threshold <=? projected) in
  let early := dangerous && (Z.max 3 (threshold / 10) <=? observed) && negb crossed in
  if negb crossed && negb early then None
  else
    let effective := if early then ActionAllow else action in
    let reason :=
      if early then "identifier-shaped dimension warning: estimated cardinality " +:+ format_d observed +:+
                    " is approaching threshold " +:+ format_d threshold
      else "estimated cardinality " +:+ format_d observed +:+ " (projected " +:+ format_d projected +:+
           ") meets policy threshold " +:+ format_d threshold in
    Some (mkFinding (ev_TenantID event) (p_Name policy) (p_Version policy) mode (ev_Source event) (ev_Type event)
            dimension observed projected effective reason (ob_Fingerprint observation) (ob_FirstSeen observation)
            (ob_LastSeen observation)).

Definition evaluate (policy : Policy) (mode : string) (event : Event) (dimension value : string) (now : time)
  : P (result (option Finding)) :=
  r ← (Proc.call (qObserve mode (ev_TenantID event) (ev_Source event) (ev_Type event) dimension value now)
        : P (result Observation));
  mret (match r with
        | Err e => Err (ErrWrap "observe cardinality" e)
        | Ok observation => Ok (finding_of policy mode event dimension observation)
        end).

Definition shouldReport (finding : Finding) (now : time) : P bool :=
  Proc.call (qReserve (mkReportKey (fi_TenantID finding) (fi_Mode finding) (fi_Source finding) (fi_EventType finding)
    (fi_Dimension finding) (fi_Action finding)) now ns_minute).

Definition shouldReportDiff (event : Event) (dimension : string) (shadowAction : Action) (now : time) : P bool :=
  Proc.call (qReserve (mkReportKey (ev_TenantID event) "diff" (ev_Source event) (ev_Type event) dimension shadowAction)
    now ns_minute).

Definition shouldReportBudget (status : BudgetStatus) (now : time) : P bool :=
  Proc.call (qReserve (mkReportKey (bs_TenantID status) ("budget:" +:+ bs_Mode status) (bs_Source status)
    (bs_EventType status) (bs_BudgetName status) (bs_Status status)) now (10 * ns_second)).

(** [if engine.recorder != nil && engine.shouldReport(...) { record }]. *)
Definition report (reserve : P bool) (label : string) (c : P (result unit)) : P (result unit) :=
  if negb (g_recorder engine) then mret (Ok tt)
  else wanted ← reserve; if negb wanted then mret (Ok tt) else record label c.

Definition budgetSeriesDimension := "__series__".

(** Own tags of the pipeline do not make a series. *)
Definition own_tag (key : string) : bool := String.prefix "telemetryforge." (to_lower key).

Definition seriesIdentity (event : Event) : string :=
  let keys := sort_strings (filter (fun key => own_tag key = false) (fst <$> map_to_list (ev_Tags event))) in
  foldl (fun acc key => acc +:+ "|" +:+ key +:+ "=" +:+ default "" (ev_Tags event !! key))
    (ev_Source event +:+ "|" +:+ ev_Type event) keys.

Definition budget_status (policy : Policy) (mode : string) (event : Event) (budget : Budget) (observation : Observation)
    (now : time) : BudgetStatus :=
  let observed := ob_ObservedUnique observation in
  let projected := ob_ProjectedUnique observation in
  let risk := if projected <? observed then observed else projected in
  let percent := (float_of_int 100 * float_of_int risk / float_of_int (bu_SeriesLimit budget))%F in
  let status :=
    if (percent >=? float_of_int 100)%F then "exceeded"
    else if (percent >=? bu_CriticalPercent budget)%F then "critical"
    else if (percent >=? bu_WarningPercent budget)%F then "warning"
    else "healthy" in
  mkBudgetStatus (ev_TenantID event) (p_Name policy) (p_Version policy) mode (bu_Name budget) (bu_Source budget)
    (bu_Type budget) (ob_WindowStart observation) (bu_SeriesLimit budget) observed projected percent status now.

Fixpoint budget_loop (policy : Policy) (mode : string) (event : Event) (now : time) (budgets : list Budget)
  : P (result unit) :=
  match budgets with
  | [] => mret (Ok tt)
  | budget :: budgets =>
      r ← (Proc.call (qObserve mode (ev_TenantID event) "__budget__" (bu_Name budget) budgetSeriesDimension
                        (seriesIdentity event) now) : P (result Observation));
      match r with
      | Err e => mret (Err (ErrWrap "observe series budget" e))
      | Ok observation =>
          let status := budget_status policy mode event budget observation now in
          try_bind (report (shouldReportBudget status now) "record cardinality budget status"
                      (Proc.call (qBudget status)))
            (fun _ => budget_loop policy mode event now budgets)
      end
  end.

Definition evaluateBudgets (policy : Policy) (mode : string) (event : Event) (now : time) : P (result unit) :=
  budget_loop policy mode event now (MatchingBudgets policy (ev_Source event) (ev_Type event)).

Definition action_of (finding : option Finding) : Action :=
  match finding with Some f => fi_Action f | None => ActionAllow end.

(** The shadow half of one dimension. *)
Definition shadow_dimension (shadow : Policy) (event : Event) (dimension value : string) (activeFinding : option Finding)
    (now : time) : P (result unit) :=
  try_bind (evaluate shadow "shadow" event dimension value now) (fun shadowFinding =>
  let activeAction := action_of activeFinding in
  let shadowAction := action_of shadowFinding in
  try_bind (match shadowFinding with
            | Some f => report (shouldReport f now) "record shadow finding" (Proc.call (qFinding f))
            | None => mret (Ok tt)
            end) (fun _ =>
  if bool_decide (activeAction = shadowAction) then mret (Ok tt)
  else report (shouldReportDiff event dimension shadowAction now) "record policy diff"
         (Proc.call (qDiff (mkDiff (ev_TenantID event) now (ev_Source event) (ev_Type event) dimension
            (p_Name (g_active engine)) (p_Version (g_active engine)) activeAction (p_Name shadow) (p_Version shadow)
            shadowAction "shadow policy would change the active action"))))).

(** What the loop over the dimensions carries: the tags left, and the dimensions and
    reasons of the quarantine. *)
Record Progress := mkProgress {
  pg_tags : gmap string string;
  pg_dimensions : list string;
  pg_reasons : list string;
}.

Definition apply_finding (dimension : string) (finding : option Finding) (pg : Progress) : Progress :=
  match finding with
  | None => pg
  | Some f =>
      if bool_decide (fi_Action f = ActionDropTag) then
        mkProgress (delete dimension (pg_tags pg)) (pg_dimensions pg) (pg_reasons pg)
      else if bool_decide (fi_Action f = ActionQuarantine) then
        mkProgress (delete dimension (pg_tags pg)) (pg_dimensions pg ++ [dimension]) (pg_reasons pg ++ [fi_Reason f])
      else pg
  end.

Fixpoint dimension_loop (event : Event) (now : time) (dimensions : list string) (pg : Progress) : P (result Progress) :=
  match dimensions with
  | [] => mret (Ok pg)
  | dimension :: dimensions =>
      let value := default "" (ev_Tags event !! dimension) in
      try_bind (evaluate (g_active engine) "active" event dimension value now) (fun activeFinding =>
      try_bind (match activeFinding with
                | Some f => report (shouldReport f now) "record cardinality finding" (Proc.call (qFinding f))
                | None => mret (Ok tt)
                end) (fun _ =>
      let pg := apply_finding dimension activeFinding pg in
      try_bind (match g_shadow engine with
                | Some shadow => shadow_dimension shadow event dimension value activeFinding now
                | None => mret (Ok tt)
                end) (fun _ => dimension_loop event now dimensions pg)))
  end.

Definition QuarantinedTag := "telemetryforge.quarantined".
Definition QuarantineDimensionsTag := "telemetryforge.quarantine_dimensions".

Definition with_tags (event : Event) (tags : gmap string string) : Event :=
  mkEvent (ev_ID event) (ev_TenantID event) (ev_Source event) (ev_Type event) (ev_Timestamp event) tags
    (ev_Payload event) (ev_Value event) (ev_Unit event) (ev_SchemaVersion event) (ev_SchemaURL event)
    (ev_CorrelationID event).

(** The quarantine marks and the preserved original. *)
Definition quarantine (event : Event) (pg : Progress) : P (result Event) :=
  if bool_decide (pg_dimensions pg = []) then mret (Ok (with_tags event (pg_tags pg)))
  else
    let tags := <[QuarantineDimensionsTag := join "," (pg_dimensions pg)]> (<[QuarantinedTag := "true"]> (pg_tags pg)) in
    try_bind (if g_recorder engine
              then record "record quarantined event" (Proc.call (qQuarantine event (join "; " (pg_reasons pg))))
              else mret (Ok tt))
      (fun _ => mret (Ok (with_tags event tags))).

Definition EvaluateAt (event : Event) (now : time) : P (result Event) :=
  now ← (if is_zero now then Proc.call qNow else mret now);
  try_bind (evaluateBudgets (g_active engine) "active" event now) (fun _ =>
  try_bind (match g_shadow engine with
            | Some shadow => evaluateBudgets shadow "shadow" event now
            | None => mret (Ok tt)
            end) (fun _ =>
  if bool_decide (ev_Tags event = ∅) then mret (Ok event)
  else
    let dimensions := sort_strings (fst <$> map_to_list (ev_Tags event)) in
    try_bind (dimension_loop event now dimensions (mkProgress (ev_Tags event) [] [])) (quarantine event))).

Definition Evaluate (event : Event) : P (result Event) :=
  now ← (Proc.call qNow : P time); EvaluateAt event now.

Definition IsQuarantined (event : Event) : bool :=
  equal_fold (default "" (ev_Tags event !! QuarantinedTag)) "true".

End engine.

(** ** Lemmas *)

Section theorems.
Variable engine : Engine.
Implicit Types (event : Event) (t : list (obs ans)) (pg : Progress).

(** The same engine without its shadow policy. *)
Definition unshadowed : Engine := mkEngine (g_active engine) None (g_recorder engine).

(** The active observation behind a change of a tag: the threshold that applies was
    reached, and the configured action removes the tag. *)
Definition justified event t (dimension : string) (action : Action) (reason : string) : Prop :=
  exists now observation threshold dangerous,
    observe (qObserve "active" (ev_TenantID event) (ev_Source event) (ev_Type event) dimension
               (default "" (ev_Tags event !! dimension)) now) (Ok observation) ∈ t /\
    Decision (g_active engine) (ev_Source event) (ev_Type event) dimension = (threshold, action, dangerous) /\
    (threshold <= ob_ObservedUnique observation \/ threshold <= ob_ProjectedUnique observation) /\
    (finding_of (g_active engine) "active" event dimension observation) = Some
      (mkFinding (ev_TenantID event) (p_Name (g_active engine)) (p_Version (g_active engine)) "active" (ev_Source event)
        (ev_Type event) dimension (ob_ObservedUnique observation) (ob_ProjectedUnique observation) action reason
        (ob_Fingerprint observation) (ob_FirstSeen observation) (ob_LastSeen observation)).

Lemma finding_removes policy mode event dimension observation f :
  finding_of policy mode event dimension observation = Some f -> fi_Action f <> ActionAllow ->
  exists threshold dangerous,
    Decision policy (ev_Source event) (ev_Type event) dimension = (threshold, fi_Action f, dangerous) /\
    (threshold <= ob_ObservedUnique observation \/ threshold <= ob_ProjectedUnique observation) /\
    f = mkFinding (ev_TenantID event) (p_Name policy) (p_Version policy) mode (ev_Source event)
          (ev_Type event) dimension (ob_ObservedUnique observation) (ob_ProjectedUnique observation) (fi_Action f)
          (fi_Reason f) (ob_Fingerprint observation) (ob_FirstSeen observation) (ob_LastSeen observation).
Proof.
  unfold finding_of. destruct (Decision _ _ _ _) as [[threshold action] dangerous].
  destruct (_ || _) eqn:Ec; cbn [negb andb].
  - rewrite andb_false_r. intros [= <-] _. exists threshold, dangerous. cbn. split; [done|]. split; [|done].
    apply orb_prop in Ec as [H|H]; apply Z.leb_le in H; auto.
  - rewrite andb_true_r. destruct (dangerous && _); cbn [negb]; [|done]. by intros [= <-].
Qed.

Lemma runs_evaluate policy mode event dimension value now t finding :
  runs (evaluate policy mode event dimension value now) t (Ok finding) ->
  exists observation, t = [observe (qObserve mode (ev_TenantID event) (ev_Source event) (ev_Type event) dimension value now)
    (Ok observation)] /\ finding = finding_of policy mode event dimension observation.
Proof.
  unfold evaluate. cbn. intros ([observation|e] & t' & -> & [-> H]); [|done]. injection H as ->. eauto.
Qed.

(** How the loop changes its progress. *)
Record grows event t (pg pg' : Progress) : Prop := mkGrows {
  gr_tags : forall key, pg_tags pg' !! key = pg_tags pg !! key \/
    (pg_tags pg' !! key = None /\ exists action reason,
       (action = ActionDropTag \/ action = ActionQuarantine /\ key ∈ pg_dimensions pg') /\
       justified event t key action reason);
  gr_dimensions : exists new, pg_dimensions pg' = pg_dimensions pg ++ new.*1 /\ pg_reasons pg' = pg_reasons pg ++ new.*2 /\
    Forall (fun dr => justified event t dr.1 ActionQuarantine dr.2) new;
}.

Lemma justified_mono event t t' dimension action reason :
  t ⊆ t' -> justified event t dimension action reason -> justified event t' dimension action reason.
Proof.
  intros Hs (now & o & th & d & H & Hd & Hc & Hf). exists now, o, th, d. split; [by apply Hs|done].
Qed.

Lemma grows_refl event t pg : grows event t pg pg.
Proof. split; [by left|]. exists []. cbn. rewrite !app_nil_r. by split_and!. Qed.

Lemma grows_mono event t t' pg pg' : t ⊆ t' -> grows event t pg pg' -> grows event t' pg pg'.
Proof.
  intros Hs [Ht (new & H1 & H2 & H3)]. split.
  - intros key. destruct (Ht key) as [H|(H & a & r & Ha & Hj)]; [by left|right].
    split; [done|]. exists a, r. split; [done|]. by eapply justified_mono.
  - exists new. split_and!; [done|done|]. eapply Forall_impl; [exact H3|]. intros dr. by apply justified_mono.
Qed.

Lemma grows_trans event t pg pg' pg'' : grows event t pg pg' -> grows event t pg' pg'' -> grows event t pg pg''.
Proof.
  intros [Ht1 (n1 & H1 & H2 & H3)] [Ht2 (n2 & H4 & H5 & H6)]. split.
  - intros key. destruct (Ht2 key) as [H|H]; [|by right].
    rewrite H. destruct (Ht1 key) as [H'|(H' & a & r & Ha & Hj)]; [by left|right].
    split; [done|]. exists a, r. split; [|done]. destruct Ha as [Ha|[Ha Hin]]; [by left|right].
    split; [done|]. rewrite H4. apply elem_of_app. by left.
  - exists (n1 ++ n2). rewrite H4, H5, H1, H2, !fmap_app, !app_assoc. split_and!; [done|done|]. by apply Forall_app.
Qed.

Lemma apply_finding_grows event dimension now observation pg :
  let t := [observe (qObserve "active" (ev_TenantID event) (ev_Source event) (ev_Type event) dimension
    (default "" (ev_Tags event !! dimension)) now) (Ok observation)] in
  grows event t pg (apply_finding dimension (finding_of (g_active engine) "active" event dimension observation) pg).
Proof.
  intros t. destruct (finding_of _ _ _ _ _) as [f|] eqn:E; [|apply grows_refl]. unfold apply_finding.
  assert (forall action, fi_Action f = action -> action <> ActionAllow ->
    justified event t dimension action (fi_Reason f)) as Hj.
  { intros action Ha Hne. pose proof E as Ef. apply finding_removes in E as (th & d & Hd & Hc & Hf); [|by rewrite Ha].
    rewrite Ha in Hd, Hf. exists now, observation, th, d. split; [left|]. split; [done|]. split; [done|].
    by rewrite Ef, <- Hf. }
  case_bool_decide as H1; [|case_bool_decide as H2; [|apply grows_refl]].
  - split.
    + intros key. cbn. destruct (decide (dimension = key)) as [<-|Hne].
      * right. rewrite lookup_delete_eq. split; [done|]. exists ActionDropTag, (fi_Reason f). split; [by left|]. apply Hj; [exact H1|discriminate].
      * left. by apply lookup_delete_ne.
    + exists []. cbn. rewrite !app_nil_r. by split_and!.
  - split.
    + intros key. cbn. destruct (decide (dimension = key)) as [<-|Hne].
      * right. rewrite lookup_delete_eq. split; [done|]. exists ActionQuarantine, (fi_Reason f). split; [right; split; [done|]|apply Hj; [exact H2|discriminate]].
        apply elem_of_app. right. left.
      * left. by apply lookup_delete_ne.
    + exists [(dimension, fi_Reason f)]. split_and!; [done|done|]. constructor; [|constructor]. apply Hj; [exact H2|discriminate].
Qed.

Lemma dimension_loop_grows event now dimensions : forall pg t pg',
  runs (dimension_loop engine event now dimensions pg) t (Ok pg') -> grows event t pg pg'.
Proof.
  induction dimensions as [|dimension dimensions IH]; intros pg t pg'; cbn [dimension_loop].
  { intros [-> [= <-]]. apply grows_refl. }
  rewrite runs_try. intros (finding & t1 & t2 & -> & (observation & -> & ->)%runs_evaluate & H).
  apply runs_try in H as ([] & t3 & t4 & -> & _ & H).
  apply runs_try in H as ([] & t5 & t6 & -> & _ & H%IH).
  eapply grows_trans.
  - eapply grows_mono; [|apply (apply_finding_grows event dimension now observation)].
    intros o Ho. apply elem_of_app. by left.
  - eapply grows_mono; [|exact H]. intros o Ho. rewrite !elem_of_app. auto.
Qed.

Lemma with_tags_id event : with_tags event (ev_Tags event) = event.
Proof. by destruct event. Qed.

(** The parts of a successful evaluation. *)
Lemma runs_EvaluateAt event now t processed :
  runs (EvaluateAt engine event now) t (Ok processed) ->
  (ev_Tags event = ∅ /\ processed = event) \/
  exists now' dimensions pg t1 t2 t3, t = t1 ++ t2 ++ t3 /\
    runs (dimension_loop engine event now' dimensions (mkProgress (ev_Tags event) [] [])) t2 (Ok pg) /\
    runs (quarantine engine event pg) t3 (Ok processed).
Proof.
  unfold EvaluateAt. rewrite runs_bind. intros (now' & t1 & t' & -> & _ & H).
  apply runs_try in H as ([] & t2 & t'' & -> & _ & H). apply runs_try in H as ([] & t3 & t4 & -> & _ & H).
  case_bool_decide as E; [destruct H as [_ [= ->]]; by left|right].
  apply runs_try in H as (pg & t5 & t6 & -> & H1 & H2).
  exists now', (sort_strings (fst <$> map_to_list (ev_Tags event))), pg, (t1 ++ t2 ++ t3), t5, t6.
  by rewrite <- !app_assoc.
Qed.

Lemma runs_quarantine event pg t processed :
  runs (quarantine engine event pg) t (Ok processed) ->
  (pg_dimensions pg = [] /\ processed = with_tags event (pg_tags pg)) \/
  (pg_dimensions pg <> [] /\
   processed = with_tags event (<[QuarantineDimensionsTag := join "," (pg_dimensions pg)]>
                 (<[QuarantinedTag := "true"]> (pg_tags pg))) /\
   (g_recorder engine = true -> observe (qQuarantine event (join "; " (pg_reasons pg))) (Ok tt) ∈ t)).
Proof.
  unfold quarantine. case_bool_decide as E; [intros [_ [= ->]]; by left|].
  rewrite runs_try. intros ([] & t1 & t2 & -> & H1 & [-> [= ->]]). right. split; [done|]. split; [done|].
  intros Hr. rewrite Hr in H1. cbn in H1. destruct H1 as ([[]|e] & t' & -> & [-> H]); [|done]. left.
Qed.

(** C20: the firewall removes nothing without cause.  When the evaluation succeeds, only
    tags differ; a tag other than the two quarantine marks is kept with its value unless
    the active tracker reported for it a count, observed or projected, that reached the
    threshold the active policy sets for it with the action to drop or to quarantine; if
    a dimension is quarantined, the event carries the marks with exactly the quarantined
    dimensions and the recorder has accepted the complete original event before. *)
Theorem policy_removes_only_with_cause event now t processed :
  runs (EvaluateAt engine event now) t (Ok processed) ->
  exists tags quarantined, processed = with_tags event tags /\
    Forall (fun dr => justified event t dr.1 ActionQuarantine dr.2) quarantined /\
    (forall key, key <> QuarantinedTag -> key <> QuarantineDimensionsTag ->
       tags !! key = ev_Tags event !! key \/
       tags !! key = None /\ (key ∈ quarantined.*1 \/ exists reason, justified event t key ActionDropTag reason)) /\
    (quarantined <> [] ->
       tags !! QuarantinedTag = Some "true" /\ tags !! QuarantineDimensionsTag = Some (join "," quarantined.*1) /\
       (g_recorder engine = true -> observe (qQuarantine event (join "; " quarantined.*2)) (Ok tt) ∈ t)).
Proof.
  intros [[_ ->]|(now' & dimensions & pg & t1 & t2 & t3 & -> & Hl & Hq)]%runs_EvaluateAt.
  { exists (ev_Tags event), []. split; [by rewrite with_tags_id|]. split; [constructor|]. split; [by left|done]. }
  apply dimension_loop_grows, (grows_mono _ _ (t1 ++ t2 ++ t3)) in Hl as [Ht (new & Hd & Hr & Hj)];
    [|intros o Ho; rewrite !elem_of_app; auto]. cbn in Ht, Hd, Hr.
  assert (forall key, pg_tags pg !! key = ev_Tags event !! key \/
    pg_tags pg !! key = None /\ (key ∈ new.*1 \/ exists reason, justified event (t1 ++ t2 ++ t3) key ActionDropTag reason)) as Hk.
  { intros key. destruct (Ht key) as [H|(H & action & reason & [-> |[_ Hin]] & Hc)]; [by left|right; eauto|right].
    split; [done|]. left. by rewrite <- Hd. }
  apply runs_quarantine in Hq as [[E ->]|(E & -> & Hrec)].
  - exists (pg_tags pg), new. split; [done|]. split; [done|]. split; [by intros|].
    intros Hne. rewrite Hd in E. by apply fmap_nil_inv in E.
  - eexists _, new. split; [done|]. split; [done|]. split.
    + intros key H1 H2. rewrite !lookup_insert_ne by done. apply Hk.
    + intros _. rewrite lookup_insert_ne, !lookup_insert_eq by done. rewrite Hd, Hr in *.
      split; [done|]. split; [done|]. intros H. rewrite !elem_of_app. right. right. by apply Hrec.
Qed.

Lemma unshadowed_loop event now dimensions : forall pg t pg',
  runs (dimension_loop engine event now dimensions pg) t (Ok pg') ->
  exists t', t' `sublist_of` t /\ runs (dimension_loop unshadowed event now dimensions pg) t' (Ok pg').
Proof.
  induction dimensions as [|dimension dimensions IH]; intros pg t pg'; cbn [dimension_loop].
  { intros H. by exists t. }
  rewrite runs_try. intros (finding & t1 & t2 & -> & H1 & H).
  apply runs_try in H as ([] & t3 & t4 & -> & H2 & H).
  apply runs_try in H as ([] & t5 & t6 & -> & _ & (t' & Hs & H)%IH).
  exists (t1 ++ t3 ++ [] ++ t'). split.
  { do 2 (apply sublist_app; [done|]). apply sublist_app; [apply sublist_nil_l|done]. }
  apply runs_try. eexists _, _, _. split; [done|]. split; [exact H1|].
  apply runs_try. eexists tt, _, _. split; [done|]. split; [exact H2|].
  apply runs_try. eexists tt, _, _. split; [done|]. by split.
Qed.

(** The shadow policy only watches.  Whatever an engine with a shadow policy returns
    for an event, the engine without it returns the same after a subsequence of the same
    calls with the same answers: the shadow adds calls, and changes neither the event nor
    what the active policy observes and records. *)
Theorem shadow_policy_never_interferes event now t processed :
  runs (EvaluateAt engine event now) t (Ok processed) ->
  exists t', t' `sublist_of` t /\ runs (EvaluateAt unshadowed event now) t' (Ok processed).
Proof.
  unfold EvaluateAt. rewrite runs_bind. intros (now' & t1 & t' & -> & Hnow & H).
  apply runs_try in H as ([] & t2 & t'' & -> & Hb & H). apply runs_try in H as ([] & t3 & t4 & -> & _ & H).
  assert (exists t5, t5 `sublist_of` t4 /\ runs (if bool_decide (ev_Tags event = ∅) then mret (Ok event)
    else try_bind (dimension_loop unshadowed event now' (sort_strings (fst <$> map_to_list (ev_Tags event)))
           (mkProgress (ev_Tags event) [] [])) (quarantine unshadowed event)) t5 (Ok processed)) as (t5 & Hs & H5).
  { case_bool_decide; [by exists t4|]. apply runs_try in H as (pg & t6 & t7 & -> & (t8 & Hs & Hl)%unshadowed_loop & Hq).
    exists (t8 ++ t7). split; [by apply sublist_app|]. apply runs_try. by exists pg, t8, t7. }
  exists (t1 ++ t2 ++ [] ++ t5). split.
  { do 2 (apply sublist_app; [done|]). apply sublist_app; [apply sublist_nil_l|done]. }
  apply runs_bind. eexists now', _, _. split; [done|]. split; [exact Hnow|].
  apply runs_try. eexists tt, _, _. split; [done|]. split; [exact Hb|].
  apply runs_try. eexists tt, _, _. split; [done|]. by split.
Qed.

End theorems.

(** ** The reporting table *)

(** Since [T], the time of the last report of [key], nothing of use has been forgotten. *)
Definition remembers (reports : Reports) (key : reportKey) (T now : time) : Prop :=
  re_last reports !! key = Some T \/ T < now - ns_minute.

(** Reserving other keys, with the pruning it may do, keeps what is needed. *)
Lemma reserve_remembers reports key T now key' now' interval :
  remembers reports key T now -> now <= now' -> key' <> key ->
  remembers (snd (reserveReportInterval key' now' interval reports)) key T now'.
Proof.
  intros H Hle Hne. unfold reserveReportInterval. destruct (_ && _); cbn [snd].
  { destruct H as [H|H]; [by left|right; lia]. }
  unfold remembers. cbn [re_last]. rewrite lookup_insert_ne by done.
  destruct H as [H|H]; [|right; lia]. destruct (_ <? _); [|by left].
  destruct (T <? now' - ns_minute) eqn:E; [right; by apply Z.ltb_lt|left].
  by apply map_lookup_filter_Some_2.
Qed.

(** A report is not repeated within its interval. *)
Lemma reserve_refused reports key T now interval :
  remembers reports key T now -> 0 < T -> 0 < interval <= ns_minute -> now - T < interval ->
  reserveReportInterval key now interval reports = (false, reports).
Proof.
  intros [H|H] HT Hi Hn; [|lia]. unfold reserveReportInterval. rewrite (proj2 (Z.leb_gt interval 0)) by lia.
  rewrite H. cbn [default from_option]. unfold is_zero, id.
  by rewrite (proj2 (Z.eqb_neq T 0)), (proj2 (Z.ltb_lt _ _)) by lia.
Qed.

(** Pruning drops only entries older than a minute, so the number of entries is not
    bounded by [maxReportEntries]: 121 keys reported at once fill a table limited to 100
    with 121 entries. *)
Lemma report_table_exceeds_limit :
  let letters := chars_of_string "abcdefghijk" in
  let keys := a ← letters; b ← letters; [mkReportKey "" "" "" "" (string_of_chars [a; b]) ""] in
  let table := foldl (fun reports key => snd (reserveReportInterval key 1 ns_minute reports)) (mkReports ∅ 100) keys in
  re_max table = 100 /\ size (re_last table) = 121%nat.
Proof. split; vm_compute; reflexivity. Qed.

(** ** A concrete evaluation *)

Definition demo_policy : Policy :=
  mkPolicy "firewall" "1" 10 ActionDropTag ["id"] [mkRule "" "" "user" 5 ActionQuarantine] [].

Definition demo_tagged : Event :=
  mkEvent "e1" "acme" "orders-eu" "order" 0 {["user" := "u1"; "zone" := "b"]} [] None "" "" "" "".

(** The tag [user] has reached its threshold, [zone] has not; no report is due. *)
Definition demo_oracle : forall c, ans c := fun c =>
  match c return ans c with
  | qNow => 1
  | qObserve _ _ _ _ dimension _ _ => let n := if bool_decide (dimension = "user") then 5 else 2 in
      Ok (mkObservation n n 1 1 1 "")
  | qReserve _ _ _ => false
  | qFinding _ | qBudget _ | qDiff _ | qQuarantine _ _ => Ok tt
  end.

Definition demo_engine (shadow : option Policy) : Engine := mkEngine demo_policy shadow true.

Definition demo_run (shadow : option Policy) : list (obs ans) * result Event :=
  trace_of demo_oracle (EvaluateAt (demo_engine shadow) demo_tagged 1).

Definition demo_processed : Event :=
  with_tags demo_tagged {[QuarantineDimensionsTag := "user"; QuarantinedTag := "true"; "zone" := "b"]}.

Lemma policy_removes_only_with_cause_witness :
  runs (EvaluateAt (demo_engine None) demo_tagged 1) (demo_run None).1 (Ok demo_processed) /\
  IsQuarantined demo_processed = true /\
  exists tags, demo_processed = with_tags demo_tagged tags.
Proof.
  assert (runs (EvaluateAt (demo_engine None) demo_tagged 1) (demo_run None).1 (Ok demo_processed)) as H.
  { assert ((demo_run None).2 = Ok demo_processed) as <- by (vm_compute; reflexivity). apply runs_trace_of. }
  split; [exact H|]. split; [vm_compute; reflexivity|].
  destruct (policy_removes_only_with_cause (demo_engine None) demo_tagged 1 _ _ H) as (tags & q & Ht & _).
  exists tags. exact Ht.
Defined.

Lemma shadow_policy_never_interferes_witness :
  let shadow := Some (mkPolicy "candidate" "2" 2 ActionDropTag [] [] []) in
  runs (EvaluateAt (demo_engine shadow) demo_tagged 1) (demo_run shadow).1 (Ok demo_processed) /\
  exists t', runs (EvaluateAt (unshadowed (demo_engine shadow)) demo_tagged 1) t' (Ok demo_processed).
Proof.
  intros shadow.
  assert (runs (EvaluateAt (demo_engine shadow) demo_tagged 1) (demo_run shadow).1 (Ok demo_processed)) as H.
  { assert ((demo_run shadow).2 = Ok demo_processed) as <- by (vm_compute; reflexivity). apply runs_trace_of. }
  split; [exact H|].
  destruct (shadow_policy_never_interferes (demo_engine shadow) demo_tagged 1 _ _ H) as (t' & _ & Ht).
  exists t'. exact Ht.
Defined.
