(* ===== verification/ChangeIntel.v ===== *)
(** * Change intelligence ([internal/changeintel] with [storage/change.go])

    Recognising deployment and change events, the marker extracted from one, its
    validation and storage, and the conservative before/after comparison.  The [summary]
    field of a JSON payload is a parameter; sources of one analysis are compared by name,
    so that equal names may come in either order. *)

From S2P Require Import Prelude GoStrings GoFloat GoPath Domain.

Local Open Scope string_scope.
Local Open Scope Z_scope.
Local Open Scope list_scope.

Definition KindDeployment := "deployment".
Definition KindRollback := "rollback".
Definition KindRelease := "release".
Definition KindFeatureFlag := "feature_flag".
Definition KindConfiguration := "configuration".
Definition KindInfrastructure := "infrastructure".

Definition change_kinds : list string :=
  [KindDeployment; KindRollback; KindRelease; KindFeatureFlag; KindConfiguration; KindInfrastructure].

Record Marker := mkMarker {
  mk_TenantID : string;
  mk_ChangeID : string;
  mk_EventID : string;
  mk_Source : string;
  mk_Kind : string;
  mk_Status : string;
  mk_Environment : string;
  mk_Version : string;
  mk_PreviousVersion : string;
  mk_GitSHA : string;
  mk_BuildID : string;
  mk_Actor : string;
  mk_RollbackOf : string;
  mk_Summary : string;
  mk_ChangedAt : time;
}.

Definition tag_of (tags : gmap string string) (key : string) : string := trim_space (default "" (tags !! key)).

Fixpoint first_tag (tags : gmap string string) (keys : list string) : string :=
  match keys with
  | [] => ""
  | key :: keys => if bool_decide (tag_of tags key = "") then first_tag tags keys else tag_of tags key
  end.

Definition change_tags : list string :=
  ["telemetryforge.change_id"; "change_id"; "deployment_id"; "rollback_of"; "git_sha"; "build_id"; "release"; "version"].

Definition IsChangeEvent (event : Event) : bool :=
  let kind := to_lower (trim_space (ev_Type event)) in
  string_contains kind "deploy" || string_contains kind "rollback" || string_contains kind "release" ||
  string_contains kind "change" ||
  existsb (fun key => negb (bool_decide (tag_of (ev_Tags event) key = ""))) change_tags.

Definition inferKind (event : Event) : string :=
  let value := to_lower (first_tag (ev_Tags event) ["telemetryforge.change_kind"; "change_kind"]) in
  if bool_decide (value ∈ change_kinds) then value
  else
    let eventType := to_lower (ev_Type event) in
    if string_contains eventType "rollback" then KindRollback
    else if string_contains eventType "deploy" then KindDeployment
    else if string_contains eventType "release" then KindRelease
    else if string_contains eventType "feature" && string_contains eventType "flag" then KindFeatureFlag
    else if string_contains eventType "config" then KindConfiguration
    else KindInfrastructure.

Section payload.
(** The [summary] of a JSON payload, if it decodes. *)
Variable payload_summary : bytes -> option string.

Definition MarkerFromEvent (event : Event) : option Marker :=
  if negb (IsChangeEvent event) then None
  else
    let tags := ev_Tags event in
    let changeID := first_tag tags ["telemetryforge.change_id"; "change_id"; "deployment_id"] in
    let status := first_tag tags ["telemetryforge.change_status"; "change_status"; "status"] in
    let summary := first_tag tags ["telemetryforge.change_summary"; "change_summary"] in
    Some (mkMarker (ev_TenantID event)
      (if bool_decide (changeID = "") then "CHG-" +:+ ev_ID event else changeID)
      (ev_ID event) (ev_Source event) (inferKind event)
      (if bool_decide (status = "") then "completed" else status)
      (first_tag tags ["telemetryforge.environment"; "environment"; "deployment.environment"])
      (first_tag tags ["telemetryforge.version"; "version"; "release"])
      (first_tag tags ["telemetryforge.previous_version"; "previous_version"])
      (first_tag tags ["telemetryforge.git_sha"; "git_sha"; "git.commit.sha"; "vcs.revision"])
      (first_tag tags ["telemetryforge.build_id"; "build_id"])
      (first_tag tags ["telemetryforge.change_actor"; "actor"])
      (first_tag tags ["telemetryforge.rollback_of"; "rollback_of"])
      (if bool_decide (summary = "") && negb (bool_decide (ev_Payload event = []))
       then match payload_summary (ev_Payload event) with Some s => trim_space s | None => "" end
       else summary)
      (ev_Timestamp event)).

End payload.

Definition change_statuses : list string := ["started"; "completed"; "failed"; "rolled_back"; "changed"].

Definition Validate (marker : Marker) : result unit :=
  first_error [
    reject_if (blank (mk_ChangeID marker)) "change_id is required";
    reject_if (blank (mk_EventID marker)) "event_id is required";
    reject_if (blank (mk_Source marker)) "source is required";
    reject_if (is_zero (mk_ChangedAt marker)) "changed_at is required";
    reject_if (negb (bool_decide (mk_Kind marker ∈ change_kinds))) "unsupported change kind";
    reject_if (blank (mk_Status marker)) "status is required";
    reject_if (negb (bool_decide (mk_Status marker ∈ change_statuses))) "unsupported change status"].

(** ** Storage ([storage/change.go]) *)

(** The table [change_markers]. *)
Abbreviation markers := (gmap (string * string) Marker).

(** [COALESCE(EXCLUDED.x, change_markers.x)] of a column where [''] is stored as [NULL]. *)
Definition coalesce (new old : string) : string := if bool_decide (new = "") then old else new.

Definition merge_marker (new old : Marker) : Marker :=
  mkMarker (mk_TenantID old) (mk_ChangeID old) (mk_EventID old) (mk_Source old) (mk_Kind old) (mk_Status new)
    (coalesce (mk_Environment new) (mk_Environment old)) (coalesce (mk_Version new) (mk_Version old))
    (coalesce (mk_PreviousVersion new) (mk_PreviousVersion old)) (coalesce (mk_GitSHA new) (mk_GitSHA old))
    (coalesce (mk_BuildID new) (mk_BuildID old)) (coalesce (mk_Actor new) (mk_Actor old))
    (coalesce (mk_RollbackOf new) (mk_RollbackOf old)) (coalesce (mk_Summary new) (mk_Summary old))
    (mk_ChangedAt new).

Definition with_tenant (tenant : string) (m : Marker) : Marker :=
  mkMarker tenant (mk_ChangeID m) (mk_EventID m) (mk_Source m) (mk_Kind m) (mk_Status m) (mk_Environment m) (mk_Version m)
    (mk_PreviousVersion m) (mk_GitSHA m) (mk_BuildID m) (mk_Actor m) (mk_RollbackOf m) (mk_Summary m) (mk_ChangedAt m).

(** [principal] is the tenant of the context's principal, if there is one, and [exec] the
    answer of the database. *)
Definition RecordChangeMarker (principal : option string) (exec : result unit) (marker : Marker) (table : markers)
  : result unit * markers :=
  let trusted := match principal with Some t => trim_space t | None => "" end in
  if negb (bool_decide (trusted = "")) && negb (bool_decide (mk_TenantID marker = "")) &&
     negb (bool_decide (mk_TenantID marker = trusted))
  then (Err (ErrMsg "change marker tenant does not match trusted tenant"), table)
  else
    let marker := if bool_decide (trusted = "") then marker else with_tenant trusted marker in
    let marker := if blank (mk_TenantID marker)
                  then with_tenant (if bool_decide (trusted = "") then "default" else trusted) marker else marker in
    match Validate marker with
    | Err e => (Err e, table)
    | Ok _ =>
        match exec with
        | Err e => (Err (ErrWrap "record change marker" e), table)
        | Ok _ =>
            let key := (mk_TenantID marker, mk_ChangeID marker) in
            (Ok tt, <[key := match table !! key with Some old => merge_marker marker old | None => marker end]> table)
        end
    end.

(** ** Before and after *)

Inductive Assessment : Type := Regressed | Improved | Unchanged | Insufficient.

#[export] Instance Assessment_eq_dec : EqDecision Assessment.
Proof. solve_decision. Defined.

Record WindowStats := mkWindowStats {
  ws_Events : Z;
  ws_Errors : Z;
  ws_ErrorRate : float64;
  ws_P95LatencyMS : float64;
}.

Record SourceImpact := mkSourceImpact {
  si_Source : string;
  si_Before : WindowStats;
  si_After : WindowStats;
  si_ErrorRateDelta : float64;
  si_P95DeltaMS : float64;
  si_Assessment : Assessment;
}.

Definition AssessImpact (source : string) (before after : WindowStats) : SourceImpact :=
  let errorDelta := (ws_ErrorRate after - ws_ErrorRate before)%F in
  let p95Delta := (ws_P95LatencyMS after - ws_P95LatencyMS before)%F in
  let impact := mkSourceImpact source before after errorDelta p95Delta in
  if (ws_Events before <? 5) || (ws_Events after <? 5) then impact Insufficient
  else
    let hundred := float_of_int 100 in
    let latencyRegression := (ws_P95LatencyMS before >? float_zero)%F && (p95Delta >=? hundred)%F &&
      (ws_P95LatencyMS after >=? ws_P95LatencyMS before * float_ratio 5 4)%F in
    let errorRegression := (errorDelta >=? float_ratio 5 100)%F && (ws_Errors before + 2 <=? ws_Errors after) in
    let latencyImprovement := (ws_P95LatencyMS before >? float_zero)%F && (p95Delta <=? float_of_int (-100))%F &&
      (ws_P95LatencyMS after <=? ws_P95LatencyMS before * float_ratio 3 4)%F in
    let errorImprovement := (errorDelta <=? float_ratio (-5) 100)%F && (ws_Errors after + 2 <=? ws_Errors before) in
    if latencyRegression || errorRegression then impact Regressed
    else if latencyImprovement || errorImprovement then impact Improved
    else impact Unchanged.

Definition rank (a : Assessment) : Z :=
  match a with Regressed => 0 | Improved => 1 | Unchanged => 2 | Insufficient => 3 end.

Definition impact_le (a b : SourceImpact) : Prop :=
  rank (si_Assessment a) < rank (si_Assessment b) \/
  rank (si_Assessment a) = rank (si_Assessment b) /\ String.le (si_Source a) (si_Source b).

#[export] Instance impact_le_dec : RelDecision impact_le.
Proof. intros a b. unfold impact_le. apply _. Defined.

Record Analysis := mkAnalysis {
  an_Source : string;
  an_Assessment : string;
  an_PrimarySource : option SourceImpact;
  an_SourceImpacts : list SourceImpact;
  an_ObservedSources : Z;
  an_AssessableSources : Z;
  an_RegressedSources : Z;
  an_ImprovedSources : Z;
  an_BlastRadiusPercent : float64;
}.

(** One turn of the counting loop. *)
Definition count_impact (a : Analysis) (impact : SourceImpact) : Analysis :=
  let '(assessable, regressed, improved) :=
    match si_Assessment impact with
    | Regressed => (1, 1, 0)
    | Improved => (1, 0, 1)
    | Unchanged => (1, 0, 0)
    | Insufficient => (0, 0, 0)
    end in
  mkAnalysis (an_Source a) (an_Assessment a)
    (if bool_decide (si_Source impact = an_Source a) then Some impact else an_PrimarySource a)
    (an_SourceImpacts a) (an_ObservedSources a) (an_AssessableSources a + assessable)
    (an_RegressedSources a + regressed) (an_ImprovedSources a + improved) (an_BlastRadiusPercent a).

Definition primary_is (a : Analysis) (assessment : Assessment) : bool :=
  match an_PrimarySource a with Some i => bool_decide (si_Assessment i = assessment) | None => false end.

Definition overall (a : Analysis) : string :=
  if primary_is a Regressed && (0 <? an_RegressedSources a) then "regression-associated"
  else if (0 <? an_RegressedSources a) && (0 <? an_ImprovedSources a) then "mixed"
  else if 0 <? an_RegressedSources a then "regression-observed"
  else if primary_is a Improved then "improvement-associated"
  else if an_AssessableSources a =? 0 then "insufficient-evidence"
  else "no-material-regression".

Definition Finalize (a : Analysis) : Analysis :=
  let impacts := merge_sort impact_le (an_SourceImpacts a) in
  let a := mkAnalysis (an_Source a) (an_Assessment a) (an_PrimarySource a) impacts (zlen impacts)
             (an_AssessableSources a) (an_RegressedSources a) (an_ImprovedSources a) (an_BlastRadiusPercent a) in
  let a := foldl count_impact a impacts in
  let blast := if 0 <? an_AssessableSources a
               then (float_of_int (an_RegressedSources a) / float_of_int (an_AssessableSources a) * float_of_int 100)%F
               else an_BlastRadiusPercent a in
  mkAnalysis (an_Source a) (overall a) (an_PrimarySource a) (an_SourceImpacts a) (an_ObservedSources a)
    (an_AssessableSources a) (an_RegressedSources a) (an_ImprovedSources a) blast.

(** ** Theorems *)

Lemma inferKind_known event : inferKind event ∈ change_kinds.
Proof.
  unfold inferKind. case_bool_decide; [done|].
  repeat match goal with |- context [if ?b then _ else _] => destruct b end;
    unfold change_kinds; rewrite !elem_of_cons; tauto.
Qed.

Lemma marker_fields payload_summary event marker :
  MarkerFromEvent payload_summary event = Some marker ->
  mk_TenantID marker = ev_TenantID event /\ mk_EventID marker = ev_ID event /\ mk_Source marker = ev_Source event /\
  mk_Kind marker = inferKind event /\ mk_ChangedAt marker = ev_Timestamp event.
Proof.
  unfold MarkerFromEvent. destruct (negb _); [done|]. intros H. apply (inj Some) in H. rewrite <- H.
  split_and!; reflexivity.
Qed.

(** What makes the marker of an event with an identifier, a source and a time storable:
    only its status can be wrong. *)
Lemma marker_valid_iff payload_summary event marker :
  MarkerFromEvent payload_summary event = Some marker ->
  blank (ev_ID event) = false -> blank (ev_Source event) = false -> is_zero (ev_Timestamp event) = false ->
  blank (mk_ChangeID marker) = false -> blank (mk_Status marker) = false ->
  Validate marker = Ok tt <-> mk_Status marker ∈ change_statuses.
Proof.
  intros (_ & He & Hso & Hk & Hch)%marker_fields Hi Hs Ht Hc Hst.
  unfold Validate. rewrite first_error_Ok, !Forall_cons, !reject_if_Ok.
  rewrite Hc, He, Hi, Hso, Hs, Hch, Ht, Hst, Hk, (bool_decide_eq_true_2 (inferKind event ∈ _)) by apply inferKind_known.
  rewrite (negb_false_iff (bool_decide (mk_Status marker ∈ _))), bool_decide_eq_true. split; [tauto|]. intros H. by split_and!.
Qed.

Definition demo_request : Event :=
  mkEvent "e1" "" "checkout" "http.request" 1 {["version" := "1.4.2"; "status" := "200"]} [] None "" "" "" "".

Definition demo_marker : Marker :=
  mkMarker "" "CHG-e1" "e1" "checkout" KindInfrastructure "200" "" "1.4.2" "" "" "" "" "" "" 1.

Lemma demo_request_marker payload_summary : MarkerFromEvent payload_summary demo_request = Some demo_marker.
Proof. vm_compute. reflexivity. Qed.

Lemma Validate_with_tenant tenant m : Validate (with_tenant tenant m) = Validate m.
Proof. reflexivity. Qed.

(** An ordinary measurement that carries a version and an HTTP status is taken for a
    change event whose marker cannot be stored, whatever the tenant and the database. *)
Lemma versioned_event_marker_rejected principal exec table :
  RecordChangeMarker principal exec demo_marker table = (Err (ErrMsg "unsupported change status"), table).
Proof.
  assert (Validate demo_marker = Err (ErrMsg "unsupported change status")) as Hv by (vm_compute; reflexivity).
  unfold RecordChangeMarker. rewrite andb_false_r. cbn [andb].
  repeat case_match; rewrite ?Validate_with_tenant, Hv in *; congruence.
Qed.

(** ** Counting *)

Definition counted (assessment : Assessment) (l : list SourceImpact) : Z :=
  zlen (filter (fun i => si_Assessment i = assessment) l).

Lemma counted_cons assessment i l :
  counted assessment (i :: l) = counted assessment l + (if bool_decide (si_Assessment i = assessment) then 1 else 0).
Proof.
  unfold counted. case_bool_decide as E.
  - rewrite filter_cons_True, zlen_cons by done. lia.
  - rewrite filter_cons_False by done. lia.
Qed.

Lemma counting_loop l : forall a,
  let a' := foldl count_impact a l in
  an_RegressedSources a' = an_RegressedSources a + counted Regressed l /\
  an_ImprovedSources a' = an_ImprovedSources a + counted Improved l /\
  an_AssessableSources a' = an_AssessableSources a + counted Regressed l + counted Improved l + counted Unchanged l /\
  an_ObservedSources a' = an_ObservedSources a /\ an_SourceImpacts a' = an_SourceImpacts a.
Proof.
  induction l as [|i l IH]; intros a; cbn [foldl]; [unfold counted, zlen; cbn; split_and!; (lia || reflexivity)|].
  specialize (IH (count_impact a i)). cbn zeta in *. destruct IH as (H1 & H2 & H3 & H4 & H5).
  rewrite H1, H2, H3, H4, H5, !counted_cons. unfold count_impact.
  destruct (si_Assessment i); repeat (case_bool_decide; try done);
    cbn [an_RegressedSources an_ImprovedSources an_AssessableSources an_ObservedSources an_SourceImpacts];
    split_and!; lia || done.
Qed.

Lemma counted_total l : counted Regressed l + counted Improved l + counted Unchanged l + counted Insufficient l = zlen l.
Proof.
  induction l as [|i l IH]; [done|]. rewrite !counted_cons, zlen_cons, <- IH.
  destruct (si_Assessment i); repeat (case_bool_decide; try done); lia.
Qed.

Lemma counted_perm assessment l l' : l ≡ₚ l' -> counted assessment l = counted assessment l'.
Proof. intros H. unfold counted, zlen. by rewrite H. Qed.

(** The numbers of a fresh analysis are the counts of its impacts; what was observed too
    thinly is not assessed, and only regressions make the overall verdict one. *)
Lemma finalize_counts a :
  an_AssessableSources a = 0 -> an_RegressedSources a = 0 -> an_ImprovedSources a = 0 ->
  let a' := Finalize a in
  let l := an_SourceImpacts a in
  an_SourceImpacts a' ≡ₚ l /\ an_ObservedSources a' = zlen l /\
  an_RegressedSources a' = counted Regressed l /\ an_ImprovedSources a' = counted Improved l /\
  an_AssessableSources a' = zlen l - counted Insufficient l /\
  (counted Regressed l = 0 -> an_Assessment a' ∈ ["improvement-associated"; "insufficient-evidence"; "no-material-regression"]) /\
  (0 < counted Regressed l -> an_Assessment a' ∈ ["regression-associated"; "mixed"; "regression-observed"]).
Proof.
  intros Ha Hr Hi. unfold Finalize.
  assert (merge_sort impact_le (an_SourceImpacts a) ≡ₚ an_SourceImpacts a) as Hp by apply merge_sort_Permutation.
  set (impacts := merge_sort impact_le (an_SourceImpacts a)) in *.
  set (a0 := mkAnalysis _ _ _ impacts _ _ _ _ _).
  destruct (counting_loop impacts a0) as (H1 & H2 & H3 & H4 & H5). cbn zeta in *.
  set (a1 := foldl count_impact a0 impacts) in *. cbn in H1, H2, H3, H4, H5. rewrite Ha, Hr, Hi in *.
  rewrite !(counted_perm _ _ _ Hp) in *. cbn [an_SourceImpacts an_ObservedSources an_RegressedSources
    an_ImprovedSources an_AssessableSources an_Assessment].
  pose proof (counted_total (an_SourceImpacts a)) as Ht.
  assert (zlen impacts = zlen (an_SourceImpacts a)) as Hz by (unfold zlen; by rewrite Hp).
  split_and!; [by rewrite H5|lia|lia|lia|lia| |].
  - intros H0. unfold overall. rewrite H1, H0. cbn. rewrite andb_false_r.
    destruct (primary_is a1 Improved); [|destruct (_ =? _)]; rewrite !elem_of_cons; tauto.
  - intros H0. unfold overall. rewrite H1. rewrite (proj2 (Z.ltb_lt 0 _)) by lia.
    destruct (primary_is a1 Regressed); [|destruct (0 <? _)]; cbn; rewrite !elem_of_cons; tauto.
Qed.
