(* ===== verification/Shaper.v ===== *)
(** * The shaping stage of the worker
      ([internal/worker/shaping.go] with [storage/shaping.go])

    [AdaptiveShaper_Process] evaluates the shaping engine at the current queue pressure,
    asks the store to make the decision durable and applies what the store answers.
    [ResolveShapingDecision] is that store: the first decision for an event and a
    configuration wins.  The order in which Go visits the protection tags is an answer of
    the environment. *)

From S2P Require Import Prelude GoStrings GoFloat GoTime Domain Proc Reliability Worker.
From S2P Require Import Database Shaping.

Local Open Scope string_scope.
Local Open Scope Z_scope.
Local Open Scope list_scope.

(** ** The store *)

(** Tenant, event, configuration and version. *)
Abbreviation DecisionKey := (string * string * string * string)%type.

(** Tenant, minute, configuration, version, rule, source and event type. *)
Abbreviation StatKey := (string * Z * string * string * string * string * string)%type.

Record MinuteStat := mkMinuteStat {
  ms_observed : Z;
  ms_kept : Z;
  ms_sampled_out : Z;
  ms_protected : Z;
  ms_transformed : Z;
  ms_payload_dropped : Z;
  ms_original_bytes : Z;
  ms_shaped_bytes : Z;
}.

Record ShapingTables := mkTables {
  st_decisions : gmap DecisionKey Decision;
  st_stats : gmap StatKey MinuteStat;
}.

Definition with_decision_tenant (tenant : string) (d : Decision) : Decision :=
  mkDecision tenant (d_EventID d) (d_Source d) (d_EventType d) (d_ObservedAt d) (d_ConfigName d) (d_ConfigVersion d)
    (d_Rules d) (d_Keep d) (d_Protected d) (d_ProtectionReason d) (d_BaseRate d) (d_EffectiveRate d) (d_QueuePressure d)
    (d_AutonomyMultiplier d) (d_DroppedTags d) (d_RenamedTags d) (d_PayloadDropped d) (d_OriginalBytes d)
    (d_ShapedBytes d) (d_Reason d).

(** What the columns of [shaping_decisions] give back: there is none for the autonomy
    multiplier, whose field keeps its zero value. *)
Definition stored (d : Decision) : Decision :=
  mkDecision (d_TenantID d) (d_EventID d) (d_Source d) (d_EventType d) (pg_time (d_ObservedAt d)) (d_ConfigName d)
    (d_ConfigVersion d) (d_Rules d) (d_Keep d) (d_Protected d) (d_ProtectionReason d) (d_BaseRate d) (d_EffectiveRate d)
    (d_QueuePressure d) float_zero (d_DroppedTags d) (d_RenamedTags d) (d_PayloadDropped d) (d_OriginalBytes d)
    (d_ShapedBytes d) (d_Reason d).

Definition count (b : bool) : Z := if b then 1 else 0.

Definition recordShapingMinuteStat (d : Decision) (stats : gmap StatKey MinuteStat) : gmap StatKey MinuteStat :=
  let ruleName := if bool_decide (d_Rules d = []) then "default" else join "," (d_Rules d) in
  let transformed := negb (bool_decide (d_DroppedTags d = [])) || negb (bool_decide (d_RenamedTags d = ∅)) ||
                     d_PayloadDropped d in
  let key := (d_TenantID d, pg_time (d_ObservedAt d) / ns_minute * ns_minute, d_ConfigName d, d_ConfigVersion d, ruleName,
              d_Source d, d_EventType d) in
  let old := default (mkMinuteStat 0 0 0 0 0 0 0 0) (stats !! key) in
  <[key := mkMinuteStat (ms_observed old + 1) (ms_kept old + count (d_Keep d)) (ms_sampled_out old + count (negb (d_Keep d)))
      (ms_protected old + count (d_Protected d)) (ms_transformed old + count transformed)
      (ms_payload_dropped old + count (d_PayloadDropped d)) (ms_original_bytes old + d_OriginalBytes d)
      (ms_shaped_bytes old + d_ShapedBytes d)]> stats.

(** [ctx_tenant] is the tenant of the calling context. *)
Definition ResolveShapingDecision (ctx_tenant : string) (f : fault) (decision : Decision) (tables : ShapingTables)
  : result (Decision * bool) * ShapingTables :=
  let tenant := if bool_decide (d_TenantID decision = "") then ctx_tenant else d_TenantID decision in
  let decision := with_decision_tenant tenant decision in
  let key := (d_TenantID decision, d_EventID decision, d_ConfigName decision, d_ConfigVersion decision) in
  transact f (fun tables =>
    match st_decisions tables !! key with
    | None => Ok ((decision, false), mkTables (<[key := stored decision]> (st_decisions tables))
                                       (recordShapingMinuteStat decision (st_stats tables)))
    | Some existing => Ok ((existing, true), tables)
    end) tables.

(** ** The stage *)

Definition sameStrings (l r : list string) : bool := bool_decide (l = r).

Definition sameShapingDecision (l r : Decision) : bool :=
  bool_decide (d_TenantID l = d_TenantID r) && bool_decide (d_EventID l = d_EventID r) &&
  bool_decide (d_Source l = d_Source r) && bool_decide (d_EventType l = d_EventType r) &&
  bool_decide (d_ConfigName l = d_ConfigName r) && bool_decide (d_ConfigVersion l = d_ConfigVersion r) &&
  Bool.eqb (d_Keep l) (d_Keep r) && Bool.eqb (d_Protected l) (d_Protected r) &&
  bool_decide (d_ProtectionReason l = d_ProtectionReason r) &&
  (d_BaseRate l =? d_BaseRate r)%F && (d_EffectiveRate l =? d_EffectiveRate r)%F &&
  (d_QueuePressure l =? d_QueuePressure r)%F && (d_AutonomyMultiplier l =? d_AutonomyMultiplier r)%F &&
  Bool.eqb (d_PayloadDropped l) (d_PayloadDropped r) &&
  (d_OriginalBytes l =? d_OriginalBytes r) && (d_ShapedBytes l =? d_ShapedBytes r) &&
  bool_decide (d_Reason l = d_Reason r) && (d_ObservedAt l =? d_ObservedAt r) &&
  sameStrings (d_Rules l) (d_Rules r) && sameStrings (d_DroppedTags l) (d_DroppedTags r) &&
  (size (d_RenamedTags l) =? size (d_RenamedTags r))%nat &&
  forallb (fun '(key, value) => bool_decide (default "" (d_RenamedTags r !! key) = value)) (map_to_list (d_RenamedTags l)).

Inductive call : Type :=
  | hPressure
  | hNow
  | hMultiplier
  | hOrder (tags : gmap string string)
  | hResolve (proposed : Decision)
  | hShadow (diff : ShadowDiff)
  | hObserve (rule outcome : string) (pressure : float64).

Definition ans (c : call) : Type :=
  match c with
  | hPressure => float64
  | hNow => time
  | hMultiplier => option float64
  | hOrder _ => list (string * string)
  | hResolve _ => result (Decision * bool)
  | hShadow _ => result unit
  | hObserve _ _ _ => unit
  end.

Abbreviation P := (proc ans).

Section stage.
Variable canonicalBytes : Event -> Z.
Variable engine : Engine.
Variable observers : nat.

Definition protection_tags (config : Config) : gmap string string := pr_Tags (sc_Protection config).

(** The order of the protection tags of the active and the shadow configuration. *)
Definition visit : P (list (string * string) * list (string * string)) :=
  active ← (Proc.call (hOrder (protection_tags (en_active engine))) : P (list (string * string)));
  shadow ← match en_shadow engine with
           | Some config => (Proc.call (hOrder (protection_tags config)) : P (list (string * string)))
           | None => mret []
           end;
  mret (active, shadow).

(** A reused decision is evaluated again as it was made; [None] when that gives another
    decision, and the original event is kept. *)
Definition reconstruct (event : Event) (decision : Decision) : P (option (Event * option ShadowDiff)) :=
  '(active, shadow) ← visit;
  clock ← (if is_zero (d_ObservedAt decision) then Proc.call hNow else mret 0 : P time);
  let '(shaped, reconstructed, diff) :=
    EvaluateWithMultiplier canonicalBytes engine active shadow clock event (d_QueuePressure decision)
      (d_ObservedAt decision) (d_AutonomyMultiplier decision) in
  mret (if sameShapingDecision decision reconstructed then Some (shaped, diff) else None).

Definition AdaptiveShaper_Process : Processor ans := fun event =>
  pressure ← (Proc.call hPressure : P float64);
  now ← (Proc.call hNow : P time);
  multiplier ← (Proc.call hMultiplier : P (option float64));
  '(active, shadow) ← visit;
  let '(shaped, proposed, diff) := Evaluate canonicalBytes engine active shadow now event pressure now multiplier in
  resolved ← (Proc.call (hResolve proposed) : P (result (Decision * bool)));
  match resolved with
  | Err _ => mret (event, None)
  | Ok (decision, reused) =>
      applied ← (if (reused : bool) then reconstruct event decision else mret (Some (shaped, diff))
                 : P (option (Event * option ShadowDiff)));
      match applied with
      | None => mret (event, None)
      | Some (shaped, diff) =>
          match diff with
          | Some d => (Proc.call (hShadow d) : P (result unit));; mret tt
          | None => mret tt
          end;;
          let outcome := if d_Protected decision then "protected" else if negb (d_Keep decision) then "sampled_out"
                         else "kept" in
          fan_out (replicate observers (Proc.call (hObserve (default "default" (last (d_Rules decision))) outcome
                                                      (d_QueuePressure decision)) : P unit));;
          mret (shaped, if d_Keep decision then None else Some (ErrStop "sampled_out"))
      end
  end.

End stage.

(** ** What the stage promises *)

Section theorems.
Variable canonicalBytes : Event -> Z.
Variable engine : Engine.
Variable observers : nat.
Implicit Types (t : list (obs ans)) (event : Event).

Abbreviation Process := (AdaptiveShaper_Process canonicalBytes engine observers).

(** The answers of the environment are possible ones: an order of the protection tags
    visits each once, and a decision made durable for the first time is the proposed one,
    for the tenant it belongs to. *)
Definition possible t : Prop :=
  Forall (fun o =>
    match o with
    | existT c x =>
        match c return ans c -> Prop with
        | hOrder tags => fun l => l ≡ₚ map_to_list tags
        | hResolve proposed => fun r => forall decision, r = Ok (decision, false) ->
            exists tenant, decision = with_decision_tenant tenant proposed
        | _ => fun _ => True
        end x
    end) t.

Lemma runs_visit t r :
  runs (visit engine) t r -> possible t -> r.1 ≡ₚ map_to_list (protection_tags (en_active engine)).
Proof.
  unfold visit. cbn. intros (l & t1 & -> & H) Hp. inversion Hp as [|?? Hl _]; subst.
  destruct (en_shadow engine); cbn in H.
  - destruct H as (l' & t2 & -> & [-> ->]). exact Hl.
  - destruct H as [-> ->]. exact Hl.
Qed.

(** The decision [Evaluate] proposes and the one it reproduces. *)
Lemma evaluate_keeps_protected active shadow clock event pressure now multiplier :
  (isProtected (sc_Protection (en_active engine)) active event).1 = true ->
  d_Keep (EvaluateWithMultiplier canonicalBytes engine active shadow clock event pressure now multiplier).1.2 = true.
Proof.
  intros Hp. unfold EvaluateWithMultiplier. set (n := if is_zero now then clock else now).
  assert (d_Keep (evaluateConfig canonicalBytes (en_active engine) active event pressure n
    (clamp multiplier float_zero float_one)).2 = true) as Hk.
  { unfold evaluateConfig. destruct (isProtected _ active event) as [protected reason]. cbn in Hp. by subst. }
  destruct (evaluateConfig _ (en_active engine) _ _ _ _ _) as [e d]. cbn in Hk.
  destruct (en_shadow engine) as [s|]; [|done]. by destruct (_ && _).
Qed.

(** How a run of the stage ends. *)
Inductive outcome event t : processed -> Prop :=
  | untouched : outcome event t (event, None)
  | fresh active shadow pressure now multiplier shaped proposed diff decision
      (He : Evaluate canonicalBytes engine active shadow now event pressure now multiplier = (shaped, proposed, diff))
      (Ho : possible t -> active ≡ₚ map_to_list (protection_tags (en_active engine)))
      (Hr : observe (ans := ans) (hResolve proposed) (Ok (decision, false)) ∈ t) :
      outcome event t (shaped, if d_Keep decision then None else Some (ErrStop "sampled_out"))
  | repeated active shadow clock proposed shaped reconstructed diff decision
      (He : EvaluateWithMultiplier canonicalBytes engine active shadow clock event (d_QueuePressure decision)
              (d_ObservedAt decision) (d_AutonomyMultiplier decision) = (shaped, reconstructed, diff))
      (Ho : possible t -> active ≡ₚ map_to_list (protection_tags (en_active engine)))
      (Hr : observe (ans := ans) (hResolve proposed) (Ok (decision, true)) ∈ t)
      (Hs : sameShapingDecision decision reconstructed = true) :
      outcome event t (shaped, if d_Keep decision then None else Some (ErrStop "sampled_out")).

(** The part of a run after the decision is applied. *)
Lemma runs_applied t (decision : Decision) (shaped : Event) (diff : option ShadowDiff) (ev : Event) (err : option error) :
  runs (match diff with
        | Some d => (Proc.call (hShadow d) : P (result unit));; mret tt
        | None => mret tt
        end;;
        fan_out (replicate observers (Proc.call (hObserve (default "default" (last (d_Rules decision)))
          (if d_Protected decision then "protected" else if negb (d_Keep decision) then "sampled_out" else "kept")
          (d_QueuePressure decision)) : P unit));;
        (mret (shaped, if d_Keep decision then None else Some (ErrStop "sampled_out")) : P processed)) t (ev, err) ->
  (ev, err) = (shaped, if d_Keep decision then None else Some (ErrStop "sampled_out")).
Proof.
  rewrite runs_bind. intros (_ & t1 & t2 & _ & _ & H). apply runs_bind in H as (_ & t3 & t4 & _ & _ & [_ H]). done.
Qed.

Lemma possible_app t t' : possible (t ++ t') <-> possible t /\ possible t'.
Proof. apply Forall_app. Qed.

Lemma shaper_runs event t r : runs (Process event) t r -> outcome event t r.
Proof.
  destruct r as [ev err]. unfold AdaptiveShaper_Process. cbn [mbind proc_mbind proc_bind Proc.call runs].
  intros (pressure & t1 & -> & now & t2 & -> & multiplier & t3 & -> & H).
  apply runs_bind in H as ([active shadow] & tv & t4 & -> & Hv & H).
  destruct (Evaluate _ _ _ _ _ _ _ _ _) as [[shaped proposed] diff] eqn:Ee.
  destruct H as (resolved & t5 & -> & H). destruct resolved as [[decision reused]|e].
  2:{ destruct H as [_ [= -> ->]]. constructor. }
  apply runs_bind in H as (applied & t6 & t7 & -> & Ha & H).
  assert (forall o, observe (ans := ans) (hResolve proposed) (Ok (decision, reused)) = o ->
    o ∈ observe hPressure pressure :: observe hNow now :: observe hMultiplier multiplier :: tv ++
        observe (hResolve proposed) (Ok (decision, reused)) :: t6 ++ t7) as Hin.
  { intros o <-. do 3 right. apply elem_of_app. right. left. }
  destruct reused.
  - unfold reconstruct in Ha. apply runs_bind in Ha as ([active' shadow'] & t8 & t9 & -> & Hv' & Ha).
    apply runs_bind in Ha as (clock & t10 & t11 & -> & _ & Ha).
    destruct (EvaluateWithMultiplier _ _ _ _ _ _ _ _ _) as [[shaped' reconstructed] diff'] eqn:Ee'.
    destruct Ha as [-> ->]. destruct (sameShapingDecision _ _) eqn:Es.
    + apply runs_applied in H. rewrite H. eapply repeated; [exact Ee'| |by apply Hin|done].
      intros Hp. apply (runs_visit _ _ Hv'). unfold possible in *. rewrite !Forall_cons, !Forall_app in Hp.
      destruct Hp as (_ & _ & _ & _ & Hp). rewrite Forall_cons, !Forall_app in Hp. by destruct Hp as (_ & (? & _) & _).
    + destruct H as [_ [= -> ->]]. constructor.
  - destruct Ha as [-> ->]. apply runs_applied in H. rewrite H.
    eapply fresh; [exact Ee| |by apply Hin]. intros Hp. apply (runs_visit _ _ Hv). unfold possible in *.
    rewrite !Forall_cons, Forall_app in Hp. by destruct Hp as (_ & _ & _ & Hp & _).
Qed.

(** A protected event is not dropped. *)
Lemma outcome_protected event t ev err :
  outcome event t (ev, err) -> possible t ->
  (isProtected (sc_Protection (en_active engine)) (map_to_list (protection_tags (en_active engine))) event).1 = true ->
  err = None.
Proof.
  intros H Hp Hpr. assert (forall active, active ≡ₚ map_to_list (protection_tags (en_active engine)) ->
    (isProtected (sc_Protection (en_active engine)) active event).1 = true) as Hany.
  { intros active Ha. by rewrite (isProtected_order _ _ _ event Ha). }
  inversion H; subst; [done| |].
  + pose proof (Hany _ (Ho Hp)) as Ha. unfold Evaluate in He.
    pose proof (evaluate_keeps_protected active shadow now event pressure now
      (match multiplier with Some m => clamp m float_zero float_one | None => float_one end) Ha) as Hk.
    rewrite He in Hk. cbn in Hk. unfold possible in Hp. rewrite Forall_forall in Hp.
    destruct (Hp _ Hr decision eq_refl) as [tenant ->]. cbn. by rewrite Hk.
  + pose proof (Hany _ (Ho Hp)) as Ha. pose proof (evaluate_keeps_protected active shadow clock event (d_QueuePressure decision)
      (d_ObservedAt decision) (d_AutonomyMultiplier decision) Ha) as Hk. rewrite He in Hk. cbn in Hk.
    assert (d_Keep decision = d_Keep reconstructed) as ->; [|by rewrite Hk].
    unfold sameShapingDecision in Hs. rewrite !andb_true_iff in Hs. apply eqb_prop. tauto.
Qed.


End theorems.

(** ** The durable decision *)

Definition decision_key (ctx_tenant : string) (d : Decision) : DecisionKey :=
  (if bool_decide (d_TenantID d = "") then ctx_tenant else d_TenantID d, d_EventID d, d_ConfigName d, d_ConfigVersion d).

(** A decision the store answers as new is the proposed one, for its tenant. *)
Lemma resolve_fresh ctx_tenant f proposed tables decision :
  (ResolveShapingDecision ctx_tenant f proposed tables).1 = Ok (decision, false) ->
  exists tenant, decision = with_decision_tenant tenant proposed.
Proof.
  unfold ResolveShapingDecision, transact. destruct f; [|done|]; destruct (st_decisions tables !! _); cbn; try done.
  intros [= <-]. eauto.
Qed.

(** The first shaping decision wins and is counted once.  After a decision for an event
    under a configuration has been made durable, every later proposal for the same tenant,
    event and configuration, whatever it proposes, is answered with the stored decision
    and changes neither the decisions nor the minute statistics. *)
Theorem first_shaping_decision_wins ctx_tenant first later tables decision tables' :
  ResolveShapingDecision ctx_tenant NoFault first tables = (Ok (decision, false), tables') ->
  decision_key ctx_tenant later = decision_key ctx_tenant first ->
  ResolveShapingDecision ctx_tenant NoFault later tables' = (Ok (stored decision, true), tables').
Proof.
  unfold ResolveShapingDecision, transact. destruct (st_decisions tables !! _) eqn:E; [done|].
  intros [= <- <-] [= Ht He Hc Hv]. cbn [st_decisions d_TenantID d_EventID d_ConfigName d_ConfigVersion with_decision_tenant].
  rewrite Ht, He, Hc, Hv, lookup_insert_eq. done.
Qed.

(** ** Concrete runs *)

(** A rule that keeps every event and drops a tag. *)
Definition kept_engine : Engine :=
  mkEngine (demo_config ∅ (mkRule "r1" "*" "ap?" "" [] ∅ (Some float_one) float_zero ["secret"] ∅ 0 "" false false)) None.

Definition demo_oracle (tables : ShapingTables) : forall c, ans c := fun c =>
  match c return ans c with
  | hPressure => float_zero
  | hNow => 1000000
  | hMultiplier => None
  | hOrder tags => map_to_list tags
  | hResolve proposed => (ResolveShapingDecision "default" NoFault proposed tables).1
  | hShadow _ => Ok tt
  | hObserve _ _ _ => tt
  end.

Definition demo_process (tables : ShapingTables) : list (obs ans) * processed :=
  trace_of (demo_oracle tables) (AdaptiveShaper_Process (fun _ => 0) kept_engine 1 demo_input).

Definition demo_proposed : Decision :=
  (Evaluate (fun _ => 0) kept_engine [] [] 1000000 demo_input float_zero 1000000 None).1.2.

(** The tables after the first run. *)
Definition demo_tables : ShapingTables :=
  (ResolveShapingDecision "default" NoFault demo_proposed (mkTables ∅ ∅)).2.


Lemma first_shaping_decision_wins_witness :
  ResolveShapingDecision "default" NoFault demo_proposed demo_tables =
    (Ok (stored (with_decision_tenant (decision_key "default" demo_proposed).1.1.1 demo_proposed), true), demo_tables).
Proof.
  apply (first_shaping_decision_wins "default" demo_proposed demo_proposed (mkTables ∅ ∅)); reflexivity.
Defined.

(** The autonomy multiplier of a decision is not stored: when the worker retries an event
    it has shaped, the stored decision is evaluated with multiplier zero, cannot be
    reproduced, and the event goes on unshaped, with the tag the first run dropped. *)
Lemma retry_undoes_shaping :
  ev_Tags (demo_process (mkTables ∅ ∅)).2.1 !! "secret" = None /\ (demo_process (mkTables ∅ ∅)).2.2 = None /\
  ev_Tags (demo_process demo_tables).2.1 !! "secret" = Some "42" /\ (demo_process demo_tables).2.2 = None.
Proof. split; [|split; [|split]]; vm_compute; reflexivity. Qed.
