(* ===== verification/Pipeline.v ===== *)
(** * The worker's pipeline ([internal/worker] stages, composed as in [cmd/worker/main.go])

    The stages of the chain, in its order: flight recorder, normalizer, schema inspector,
    change recorder, adaptive shaper, policy, persister, router planner and incident
    detector, each over the calls it makes to the stores.  [pipeline] is the chain;
    the last theorem runs it in the worker pool behind the Kafka consumer.

    The description of an event's schema is a function of the event and is not an argument
    of the call here; the schema registry and the incident detector answer only whether
    they failed. *)

From S2P Require Import Prelude GoStrings GoFloat Domain OffsetTracker Proc Reliability Worker.
From S2P Require Import Consumer Shaping Router Policy ChangeIntel Shaper.

Local Open Scope string_scope.
Local Open Scope Z_scope.
Local Open Scope list_scope.

Inductive call : Type :=
  | wFlight (event : Event)
  | wSchema (event : Event)
  | wChange (marker : Marker)
  | wShape (c : Shaper.call)
  | wPolicy (c : Policy.call)
  | wWrite (event : Event)
  | wEnqueue (event : Event) (decisions : list Router.Decision)
  | wNow
  | wShadow (diff : Router.ShadowDiff)
  | wIncident (event : Event).

Definition ans (c : call) : Type :=
  match c with
  | wShape c => Shaper.ans c
  | wPolicy c => Policy.ans c
  | wNow => time
  | _ => result unit
  end.

Abbreviation P := (proc ans).

(** ** The stages *)

(** [if err := call(); err != nil { return Event{}, reliability.New(Transient, op, err) }],
    otherwise the event unchanged. *)
Definition transient_stage (op : string) (p : P (result unit)) (event : Event) : P processed :=
  r ← p;
  mret (match r with
        | Err e => (zero_event, reliability_New Transient op (Some e))
        | Ok _ => (event, None)
        end).

Definition FlightRecorder_Process : Processor ans := fun event =>
  transient_stage "flight recorder" (Proc.call (wFlight event)) event.

Definition Persister_Process : Processor ans := fun event =>
  transient_stage "persist event" (Proc.call (wWrite event)) event.

(** [registry] says whether there is one. *)
Definition SchemaInspector_Process (registry failOpen : bool) : Processor ans := fun event =>
  if negb registry then mret (event, None)
  else
    r ← (Proc.call (wSchema event) : P (result unit));
    mret (match r with
          | Err e => if failOpen then (event, None)
                     else (zero_event, reliability_New Transient "schema intelligence" (Some e))
          | Ok _ => (event, None)
          end).

Definition ChangeRecorder_Process (payload_summary : bytes -> option string) : Processor ans := fun event =>
  match MarkerFromEvent payload_summary event with
  | None => mret (event, None)
  | Some marker => transient_stage "record change marker" (Proc.call (wChange marker)) event
  end.

Definition Shaper_Process (canonicalBytes : Event -> Z) (engine : Shaping.Engine) (observers : nat) : Processor ans :=
  fun event => embed (ansD := ans) wShape (fun _ x => x) (AdaptiveShaper_Process canonicalBytes engine observers event).

(** [engine] is [None] for a nil engine. *)
Definition PolicyProcessor_Process (engine : option Policy.Engine) : Processor ans := fun event =>
  match engine with
  | None => mret (event, None)
  | Some engine =>
      r ← embed (ansD := ans) wPolicy (fun _ x => x) (Policy.Evaluate engine event);
      mret (match r with
            | Err e => (zero_event, reliability_New Transient "policy evaluation" (Some e))
            | Ok processed => (processed, None)
            end)
  end.

(** [Planner.Process] of the router. *)
Definition Planner_Process (active : Router.Config) (shadow : option Router.Config) (event : Event) : P (result unit) :=
  let plan := Plan active event in
  r ← (Proc.call (wEnqueue event plan) : P (result unit));
  match r with
  | Err e => mret (Err (ErrWrap "enqueue active routing plan" e))
  | Ok _ =>
      match shadow with
      | None => mret (Ok tt)
      | Some candidate =>
          now ← (Proc.call wNow : P time);
          match ComparePlans event active candidate plan (Plan candidate event) now with
          | None => mret (Ok tt)
          | Some diff =>
              r ← (Proc.call (wShadow diff) : P (result unit));
              mret (match r with Err e => Err (ErrWrap "record shadow routing difference" e) | Ok _ => Ok tt end)
          end
      end
  end.

Definition RouterPlanner_Process (active : Router.Config) (shadow : option Router.Config) : Processor ans := fun event =>
  transient_stage "routing plan" (Planner_Process active shadow event) event.

(** [observer] says whether there is one; a failed capture is only logged. *)
Definition IncidentDetector_Process (observer : bool) : Processor ans := fun event =>
  if negb observer then mret (event, None)
  else (Proc.call (wIncident event) : P (result unit));; mret (event, None).

(** ** The chain of [cmd/worker] *)

Record Settings := mkSettings {
  set_failOpen : bool;
  set_shaping : Shaping.Engine;
  set_policy : Policy.Engine;
  set_routing : Router.Config;
  set_shadowRouting : option Router.Config;
}.

Section pipeline.
Variable payload_summary : bytes -> option string.
Variable canonicalBytes : Event -> Z.
Variable settings : Settings.

Definition stages : list (Processor ans) :=
  [FlightRecorder_Process;
   Normalizer_Process;
   SchemaInspector_Process true (set_failOpen settings);
   ChangeRecorder_Process payload_summary;
   Shaper_Process canonicalBytes (set_shaping settings) 1;
   PolicyProcessor_Process (Some (set_policy settings));
   Persister_Process;
   RouterPlanner_Process (set_routing settings) (set_shadowRouting settings);
   IncidentDetector_Process true].

Definition pipeline : Processor ans := Chain_Process stages.

End pipeline.

(** ** Errors of the stores

    The stop marker is a private type of the worker: no store answers with it.  The shaping
    store and the iteration order of a Go map answer as [Shaper.possible] says. *)

Definition no_stop {A} (r : result A) : Prop := match r with Err e => isStopProcessing e = false | Ok _ => True end.

Definition policy_answers (t : list (obs Policy.ans)) : Prop :=
  Forall (fun o =>
    match o with
    | existT c x =>
        match c return Policy.ans c -> Prop with
        | qObserve _ _ _ _ _ _ _ => no_stop
        | qFinding _ | qBudget _ | qDiff _ | qQuarantine _ _ => no_stop
        | qNow | qReserve _ _ _ => fun _ => True
        end x
    end) t.

Definition store_answer (c : call) : ans c -> Prop :=
  match c with
  | wPolicy c => fun x => policy_answers [observe c x]
  | wShape c => fun x => possible [observe c x]
  | wNow => fun _ => True
  | _ => no_stop
  end.

Definition store_answers (t : list (obs ans)) : Prop := Forall (fun o => store_answer (projT1 o) (projT2 o)) t.

(** A program fails only with errors of the stores. *)
Definition clean {A} (p : proc Policy.ans (result A)) : Prop :=
  forall t e, runs p t (Err e) -> policy_answers t -> isStopProcessing e = false.

Lemma clean_ret {A} (a : A) : clean (mret (Ok a)).
Proof. by intros t e [_ [=]]. Qed.

Lemma clean_try {A B} (p : proc Policy.ans (result A)) (f : A -> proc Policy.ans (result B)) :
  clean p -> (forall a, clean (f a)) -> clean (try_bind p f).
Proof.
  intros Hp Hf t e [H|(a & t1 & t2 & -> & _ & H)]%runs_try_err Ht; [by eapply Hp|].
  apply Forall_app in Ht as [_ Ht]. by eapply Hf.
Qed.

Lemma clean_bind {A B} (p : proc Policy.ans A) (f : A -> proc Policy.ans (result B)) :
  (forall a, clean (f a)) -> clean (p ≫= f).
Proof.
  intros Hf t e H Ht. apply runs_bind in H as (a & t1 & t2 & -> & _ & H). apply Forall_app in Ht as [_ Ht]. by eapply Hf.
Qed.

Lemma clean_observe mode tenant source type dimension value now {B} label
    (f : Observation -> proc Policy.ans (result B)) :
  (forall o, clean (f o)) ->
  clean (r ← (Proc.call (qObserve mode tenant source type dimension value now) : Policy.P (result Observation));
         match r with Err e => mret (Err (ErrWrap label e)) | Ok o => f o end).
Proof.
  intros Hf t e H Ht. cbn in H. destruct H as (r & t' & -> & H). inversion Ht as [|?? Hr Ht']; subst.
  destruct r as [o|e0]; [by eapply Hf|]. destruct H as [_ [= ->]]. exact Hr.
Qed.

Lemma clean_record label p : clean p -> clean (record label p).
Proof.
  intros Hp t e H Ht. apply runs_bind in H as ([u|e0] & t1 & t2 & -> & H1 & [-> H2]); [done|].
  injection H2 as ->. apply Forall_app in Ht as [Ht _]. exact (Hp _ _ H1 Ht).
Qed.

(** A call to the recorder. *)
Ltac clean_call := let H := fresh in let Ht := fresh in
  intros t e H Ht; cbn in H; destruct H as (r & t' & -> & [_ <-]); inversion Ht; assumption.

Lemma clean_finding f : clean (Proc.call (qFinding f)).
Proof. clean_call. Qed.
Lemma clean_budget b : clean (Proc.call (qBudget b)).
Proof. clean_call. Qed.
Lemma clean_diff d : clean (Proc.call (qDiff d)).
Proof. clean_call. Qed.
Lemma clean_quarantine event reason : clean (Proc.call (qQuarantine event reason)).
Proof. clean_call. Qed.

Create HintDb clean.
#[local] Hint Resolve clean_ret clean_try clean_bind clean_record clean_finding clean_budget clean_diff
  clean_quarantine : clean.

Lemma clean_report engine reserve label p : clean p -> clean (report engine reserve label p).
Proof.
  intros Hp. unfold report. destruct (negb _); [apply clean_ret|]. apply clean_bind. intros wanted.
  destruct (negb wanted); auto with clean.
Qed.

#[local] Hint Resolve clean_report : clean.

Lemma clean_evaluate policy mode event dimension value now : clean (evaluate policy mode event dimension value now).
Proof.
  intros t e H Ht. unfold evaluate in H. cbn in H. destruct H as (r & t' & -> & [_ H]).
  inversion Ht as [|?? Hr _]; subst. destruct r as [o|e0]; [done|]. by injection H as ->.
Qed.

Lemma clean_budgets engine policy mode event now : clean (evaluateBudgets engine policy mode event now).
Proof.
  unfold evaluateBudgets. induction (MatchingBudgets _ _ _) as [|b l IH]; cbn [budget_loop]; [apply clean_ret|].
  apply clean_observe. intros o. apply clean_try; auto with clean.
Qed.

#[local] Hint Resolve clean_evaluate clean_budgets : clean.

Lemma clean_shadow engine shadow event dimension value finding now :
  clean (shadow_dimension engine shadow event dimension value finding now).
Proof.
  unfold shadow_dimension. apply clean_try; [auto with clean|]. intros f.
  apply clean_try; [destruct f; auto with clean|]. intros _. case_bool_decide; auto with clean.
Qed.

Lemma clean_dimensions engine event now dimensions : forall pg, clean (dimension_loop engine event now dimensions pg).
Proof.
  induction dimensions as [|d l IH]; intros pg; cbn [dimension_loop]; [apply clean_ret|].
  apply clean_try; [auto with clean|]. intros f. apply clean_try; [destruct f; auto with clean|]. intros _.
  apply clean_try; [|intros _; apply IH]. destruct (g_shadow engine); [apply clean_shadow|apply clean_ret].
Qed.

Lemma clean_Evaluate engine event : clean (Policy.Evaluate engine event).
Proof.
  unfold Policy.Evaluate, EvaluateAt. apply clean_bind. intros now. apply clean_bind. intros now'.
  apply clean_try; [auto with clean|]. intros _.
  apply clean_try; [destruct (g_shadow engine); auto with clean|]. intros _.
  case_bool_decide; [apply clean_ret|]. apply clean_try; [apply clean_dimensions|]. intros pg.
  unfold quarantine. case_bool_decide; [apply clean_ret|]. apply clean_try; [|auto with clean].
  destruct (g_recorder engine); auto with clean.
Qed.

(** ** What the stages keep *)

(** The event received, up to tags and payload, with source and type trimmed. *)
Definition same_event (event event' : Event) : Prop :=
  exists tags payload, event' = with_shape tags payload event.

#[local] Instance same_event_preorder : PreOrder same_event.
Proof.
  split; [intros e; exists (ev_Tags e), (ev_Payload e); by rewrite with_shape_id|].
  intros a b c (t1 & p1 & ->) (t2 & p2 & ->). by exists t2, p2.
Qed.

Definition normalized (event : Event) : Event :=
  mkEvent (ev_ID event) (ev_TenantID event) (trim_space (ev_Source event)) (trim_space (ev_Type event))
    (ev_Timestamp event) (ev_Tags event) (ev_Payload event) (ev_Value event) (ev_Unit event) (ev_SchemaVersion event)
    (ev_SchemaURL event) (ev_CorrelationID event).

Lemma evaluate_same_event canonicalBytes engine active shadow clock event pressure now multiplier :
  same_event event
    (EvaluateWithMultiplier canonicalBytes engine active shadow clock event pressure now multiplier).1.1.
Proof.
  unfold EvaluateWithMultiplier. set (n := if is_zero now then clock else now).
  destruct (evaluateConfig _ (en_active engine) _ _ _ _ _) as [e d] eqn:E.
  assert (same_event event e) as He.
  { unfold evaluateConfig in E. destruct (isProtected _ _ _). injection E as <- _. by eexists _, _. }
  destruct (en_shadow engine) as [s|]; [|done]. by destruct (_ && _).
Qed.

Lemma Evaluate_same_event engine event t event' :
  runs (Policy.Evaluate engine event) t (Ok event') -> same_event event event'.
Proof.
  unfold Policy.Evaluate. rewrite runs_bind. intros (now & t1 & t2 & -> & _ & H).
  apply runs_EvaluateAt in H as [[_ ->]|(now' & ds & pg & t3 & t4 & t5 & _ & _ & H)]; [reflexivity|].
  apply runs_quarantine in H as [[_ ->]|(_ & -> & _)]; by eexists _, _.
Qed.

(** The answers of an embedded program. *)
Lemma store_answers_shape inner outer :
  embeds (ansD := ans) wShape (fun _ x => x) inner outer -> store_answers outer -> possible inner.
Proof.
  induction 1 as [|c x t t' H IH]; [constructor|]. intros Hs. inversion Hs as [|?? Hx Ht]; subst.
  change (possible ([observe c x] ++ t)). apply possible_app. split; [exact Hx|by apply IH].
Qed.

Lemma store_answers_policy inner outer :
  embeds (ansD := ans) wPolicy (fun _ x => x) inner outer -> store_answers outer -> policy_answers inner.
Proof.
  induction 1 as [|c x t t' H IH]; [constructor|]. intros Hs. inversion Hs as [|?? Hx Ht]; subst.
  apply (Forall_app _ [observe c x] t). split; [exact Hx|by apply IH].
Qed.

(** ** The chain *)

Definition continues (process : Processor ans) : Prop :=
  forall event t ev e, runs (process event) t (ev, Some e) -> store_answers t -> isStopProcessing e = false.

Lemma chain_runs (process : Processor ans) rest event t result :
  runs (Chain_Process (process :: rest) event) t (result, None) ->
  (exists e, runs (ans := ans) (process event) t (result, Some e) /\ isStopProcessing e = true) \/
  exists ev t1 t2, t = t1 ++ t2 /\ runs (process event) t1 (ev, None) /\ runs (Chain_Process rest ev) t2 (result, None).
Proof.
  cbn [Chain_Process]. rewrite runs_bind. intros ([ev [e|]] & t1 & t2 & -> & H1 & H2).
  - left. exists e. destruct (isStopProcessing e); [|by destruct H2]. destruct H2 as [-> [= ->]]. by rewrite app_nil_r.
  - right. by exists ev, t1, t2.
Qed.

Lemma chain_continues (process : Processor ans) rest event t result :
  continues process -> runs (Chain_Process (process :: rest) event) t (result, None) -> store_answers t ->
  exists ev t1 t2, t = t1 ++ t2 /\ runs (process event) t1 (ev, None) /\
    runs (Chain_Process rest ev) t2 (result, None) /\ store_answers t2.
Proof.
  intros Hc [(e & He & Hs)|(ev & t1 & t2 & -> & H1 & H2)]%chain_runs Ht.
  - by rewrite (Hc _ _ _ _ He Ht) in Hs.
  - apply Forall_app in Ht as [_ Ht]. by exists ev, t1, t2.
Qed.

Lemma transient_runs op (p : P (result unit)) event t r :
  runs (transient_stage op p event) t r ->
  (runs p t (Ok tt) /\ r = (event, None)) \/
  exists e, runs p t (Err e) /\ r = (zero_event, Some (ErrClassified Transient op e)).
Proof.
  unfold transient_stage. rewrite runs_bind. intros ([[]|e] & t1 & t2 & -> & H & [-> ->]); rewrite app_nil_r; eauto.
Qed.

Lemma transient_stops op (p : P (result unit)) event t ev e :
  (forall e', runs p t (Err e') -> isStopProcessing e' = false) ->
  runs (transient_stage op p event) t (ev, Some e) -> isStopProcessing e = false.
Proof. intros Hp [[_ [=]]|(e' & H & [= -> ->])]%transient_runs. exact (Hp _ H). Qed.

Lemma transient_passes op (p : P (result unit)) event t ev :
  runs (transient_stage op p event) t (ev, None) -> runs p t (Ok tt) /\ ev = event.
Proof. by intros [[H [= ->]]|(e' & H & [=])]%transient_runs. Qed.

(** One call whose error is the store's. *)
Ltac stage_call :=
  let H := fresh in let Ht := fresh in
  intros event t ev e H Ht; revert H; apply transient_stops; intros e'; cbn;
  intros (x & t' & -> & [_ <-]); inversion Ht; assumption.

Lemma flight_continues : continues FlightRecorder_Process.
Proof. stage_call. Qed.

Lemma persister_continues : continues Persister_Process.
Proof. stage_call. Qed.

Lemma normalizer_runs event t r :
  runs (Normalizer_Process (ans := ans) event) t r -> t = [] /\
  (r = (normalized event, None) \/ exists e, r.2 = Some e /\ isStopProcessing e = false).
Proof. unfold Normalizer_Process. destruct (_ || _); intros [-> ->]; eauto. Qed.

Lemma normalizer_continues : continues Normalizer_Process.
Proof. by intros event t ev e (_ & [[=]|(e' & [= ->] & H)])%normalizer_runs _. Qed.

Lemma schema_continues registry failOpen : continues (SchemaInspector_Process registry failOpen).
Proof.
  unfold SchemaInspector_Process. intros event t ev e. destruct registry; cbn; [|by intros [_ [=]]].
  intros (x & t' & -> & [_ H]) Ht. inversion Ht as [|?? Hx _]; subst. destruct x as [|e']; [done|].
  destruct failOpen; [done|]. injection H as -> ->. exact Hx.
Qed.

Lemma schema_passes registry failOpen event t ev :
  runs (SchemaInspector_Process registry failOpen event) t (ev, None) -> ev = event.
Proof.
  unfold SchemaInspector_Process. destruct registry; cbn; [|by intros [_ [= ->]]].
  intros (x & t' & -> & [_ H]). destruct x as [|e']; [by injection H|]. destruct failOpen; [by injection H|done].
Qed.

Lemma change_continues summary : continues (ChangeRecorder_Process summary).
Proof.
  unfold ChangeRecorder_Process. intros event t ev e. destruct (MarkerFromEvent summary event); [|by intros [_ [=]]].
  revert event t ev e. stage_call.
Qed.

Lemma change_passes summary event t ev : runs (ChangeRecorder_Process summary event) t (ev, None) -> ev = event.
Proof.
  unfold ChangeRecorder_Process. destruct (MarkerFromEvent summary event); [|by intros [_ [= ->]]].
  by intros [_ ->]%transient_passes.
Qed.

Lemma policy_continues engine : continues (PolicyProcessor_Process engine).
Proof.
  intros event t ev e. unfold PolicyProcessor_Process. destruct engine as [engine|]; [|by intros [_ [=]]].
  rewrite runs_bind. intros (r & t1 & t2 & -> & H & [-> Hr]) Ht. destruct r as [|e']; [done|].
  injection Hr as -> ->. apply runs_embed in H as (inner & He & H). rewrite app_nil_r in Ht.
  exact (clean_Evaluate _ _ _ _ H (store_answers_policy _ _ He Ht)).
Qed.

Lemma policy_passes engine event t ev :
  runs (PolicyProcessor_Process engine event) t (ev, None) -> same_event event ev.
Proof.
  unfold PolicyProcessor_Process. destruct engine as [engine|]; [|by intros [_ [= ->]]].
  rewrite runs_bind. intros (r & t1 & t2 & -> & H & [-> Hr]). destruct r as [processed|e]; [|done].
  injection Hr as ->. apply runs_embed in H as (inner & _ & H). exact (Evaluate_same_event _ _ _ _ H).
Qed.

Lemma embeds_elem {C D} {ansC : C -> Type} {ansD : D -> Type} (to : C -> D) (back : forall c, ansD (to c) -> ansC c)
    inner outer o :
  embeds to back inner outer -> o ∈ inner ->
  exists y, back (projT1 o) y = projT2 o /\ observe (to (projT1 o)) y ∈ outer.
Proof.
  induction 1 as [|c x t t' H IH]; [by intros ?%not_elem_of_nil|]. intros [->|Ho]%elem_of_cons.
  - exists x. split; [done|]. left.
  - destruct (IH Ho) as (y & Hy & Hin). exists y. split; [done|]. by right.
Qed.

(** A decision that drops the event, answered by the shaping store. *)
Definition sampled_out (t : list (obs ans)) : Prop :=
  exists proposed decision reused,
    observe (ans := ans) (wShape (hResolve proposed)) (Ok (decision, reused)) ∈ t /\ d_Keep decision = false.

Lemma shaper_outcome canonicalBytes engine observers event t ev err :
  runs (Shaper_Process canonicalBytes engine observers event) t (ev, err) -> store_answers t ->
  same_event event ev /\
  (err = None \/
   sampled_out t /\
   (isProtected (sc_Protection (en_active engine)) (map_to_list (protection_tags (en_active engine))) event).1 = false).
Proof.
  intros (inner & He & Hr)%runs_embed Hs. apply shaper_runs in Hr. pose proof (store_answers_shape _ _ He Hs) as Hp.
  pose proof (outcome_protected _ _ _ _ _ _ Hr Hp) as Hprot.
  assert (forall proposed decision reused,
    observe (ans := Shaper.ans) (hResolve proposed) (Ok (decision, reused)) ∈ inner -> d_Keep decision = false ->
    sampled_out t) as Hsam.
  { intros proposed decision reused Hin Hk. destruct (embeds_elem _ _ _ _ _ He Hin) as (y & E & Ho).
    exists proposed, decision, reused. cbn in E. subst y. by split. }
  split.
  - inversion Hr; subst; [reflexivity| |].
    + pose proof (evaluate_same_event canonicalBytes engine active shadow now event pressure now
        (match multiplier with Some m => clamp m float_zero float_one | None => float_one end)) as H.
      unfold Shaping.Evaluate in He0. by rewrite He0 in H.
    + pose proof (evaluate_same_event canonicalBytes engine active shadow clock event (d_QueuePressure decision)
        (d_ObservedAt decision) (d_AutonomyMultiplier decision)) as H. by rewrite He0 in H.
  - destruct err as [e|]; [right|by left]. split.
    + inversion Hr; subst; destruct (d_Keep decision) eqn:Hk; try discriminate; exact (Hsam _ _ _ Hr0 Hk).
    + destruct (isProtected _ _ event).1; [discriminate (Hprot eq_refl)|done].
Qed.

Lemma planner_runs active shadow event t r :
  runs (Planner_Process active shadow event) t r ->
  exists x t', t = observe (ans := ans) (wEnqueue event (Plan active event)) x :: t' /\ (r = Ok tt -> x = Ok tt).
Proof.
  unfold Planner_Process. cbn. intros ([[]|e] & t' & -> & H); eexists _, _; (split; [done|]); [done|].
  destruct H as [_ ->]. done.
Qed.

Lemma planner_fails active shadow event t e :
  runs (Planner_Process active shadow event) t (Err e) -> store_answers t -> isStopProcessing e = false.
Proof.
  unfold Planner_Process. cbn. intros ([[]|e'] & t' & -> & H) Ht; inversion Ht as [|?? Hx Ht']; subst.
  2:{ destruct H as [_ [= ->]]. exact Hx. }
  destruct shadow as [candidate|]; [|by destruct H]. cbn in H. destruct H as (now & t2 & -> & H).
  destruct (ComparePlans _ _ _ _ _ _) as [diff|]; [|by destruct H]. cbn in H. destruct H as (r & t3 & -> & [-> H]).
  inversion Ht' as [|?? _ Hr]; subst. inversion Hr as [|?? Hr' _]; subst. destruct r as [|e']; [done|].
  injection H as ->. exact Hr'.
Qed.

Lemma router_continues active shadow : continues (RouterPlanner_Process active shadow).
Proof.
  intros event t ev e H Ht. revert H. apply transient_stops. intros e' H. by eapply planner_fails.
Qed.

Lemma incident_passes observer event t ev err :
  runs (IncidentDetector_Process observer event) t (ev, err) -> (ev, err) = (event, None).
Proof.
  unfold IncidentDetector_Process. destruct observer; cbn; [|by intros [_ H]].
  by intros (x & t' & -> & [_ H]).
Qed.

Section account.
Variable payload_summary : bytes -> option string.
Variable canonicalBytes : Event -> Z.
Variable settings : Settings.

(** The event was written and its routing plan was enqueued, in this order. *)
Definition delivered (event : Event) (t : list (obs ans)) : Prop :=
  exists processed before after, same_event (normalized event) processed /\
    t = before ++ observe (ans := ans) (wWrite processed) (Ok tt) ::
        observe (wEnqueue processed (Plan (set_routing settings) processed)) (Ok tt) :: after.

Definition protected (event : Event) : bool :=
  (isProtected (sc_Protection (en_active (set_shaping settings)))
    (map_to_list (protection_tags (en_active (set_shaping settings)))) event).1.

Lemma tail_delivers event t result :
  runs (Chain_Process [PolicyProcessor_Process (Some (set_policy settings)); Persister_Process;
    RouterPlanner_Process (set_routing settings) (set_shadowRouting settings); IncidentDetector_Process true] event)
    t (result, None) -> store_answers t ->
  exists processed before after, same_event event processed /\
    t = before ++ observe (ans := ans) (wWrite processed) (Ok tt) ::
        observe (wEnqueue processed (Plan (set_routing settings) processed)) (Ok tt) :: after.
Proof.
  intros H Ht. apply chain_continues in H as (ev & t1 & t2 & -> & Hp & H & Ht2);
    [|apply policy_continues|done]. apply policy_passes in Hp.
  apply chain_continues in H as (ev' & t3 & t4 & -> & Hw & H & Ht4); [|apply persister_continues|done].
  apply transient_passes in Hw as [Hw ->]. cbn in Hw. destruct Hw as (x & t' & -> & [-> <-]).
  apply chain_continues in H as (ev'' & t5 & t6 & -> & He & H & Ht6); [|apply router_continues|done].
  apply transient_passes in He as [(x & t' & -> & Hx)%planner_runs ->]. rewrite (Hx eq_refl).
  by exists ev, t1, (t' ++ t6).
Qed.

(** A successful run has recorded the event in the flight recorder first; after that it
    was delivered or sampled out, and protected events are delivered. *)
Lemma pipeline_accounts event t result :
  runs (pipeline payload_summary canonicalBytes settings event) t (result, None) -> store_answers t ->
  exists t', t = observe (ans := ans) (wFlight event) (Ok tt) :: t' /\
    (delivered event t' \/ sampled_out t' /\ protected (normalized event) = false).
Proof.
  unfold pipeline, stages. intros H Ht.
  apply chain_continues in H as (ev & t1 & t2 & -> & Hf & H & Ht2); [|apply flight_continues|done].
  apply transient_passes in Hf as [Hf ->]. cbn in Hf. destruct Hf as (x & t' & -> & [-> <-]).
  exists t2. split; [done|].
  apply chain_continues in H as (ev & t3 & t4 & -> & Hn & H & Ht4); [|apply normalizer_continues|done].
  apply normalizer_runs in Hn as (-> & [[= ->]|(e & [=] & _)]).
  apply chain_continues in H as (ev & t5 & t6 & -> & Hs & H & Ht6); [|apply schema_continues|done].
  apply schema_passes in Hs as ->.
  apply chain_continues in H as (ev & t7 & t8 & -> & Hc & H & Ht8); [|apply change_continues|done].
  apply change_passes in Hc as ->. apply chain_runs in H as [(e & He & _)|(ev & t9 & t10 & -> & He & H)].
  - apply shaper_outcome in He as [_ [[=]|[(p & d & r & Hin & Hk) Hp]]]; [|done].
    right. split; [|exact Hp]. exists p, d, r. split; [|done]. cbn. rewrite !elem_of_app. auto.
  - apply Forall_app in Ht8 as [Ht9 Ht10]. apply shaper_outcome in He as [He _]; [|done].
    destruct (tail_delivers _ _ _ H Ht10) as (processed & before & after & Hpr & ->). left.
    exists processed, (t5 ++ t7 ++ t9 ++ before), after. split; [by etrans|]. cbn. by rewrite <- !app_assoc.
Qed.

End account.

(** ** The worker: the pipeline behind the consumer *)

Abbreviation worker_entry := (Consumer.entry (PC := call) (pans := ans)).

(** The answers of the pipeline's stores in the log of the worker process. *)
Definition worker_answer (o : obs (Consumer.ans (pans := ans))) : Prop :=
  match o with
  | existT c x => match c return Consumer.ans c -> Prop with
                  | cProcess c => store_answer c
                  | _ => fun _ => True
                  end x
  end.

Definition log_answers (l : list worker_entry) : Prop :=
  forall who o, Did who o ∈ l -> worker_answer o.

Section worker_process.
Variable payload_summary : bytes -> option string.
Variable canonicalBytes : Event -> Z.
Variable settings : Settings.
Variable Unmarshal : bytes -> result Event.
Variable Marshal : DeadLetter -> result bytes.
Variable dlqTopic : string.
Variables (workers capacity : Z) (retryPolicy : RetryPolicy).
Implicit Types (l : list worker_entry) (m : Message).

Abbreviation Process := (pipeline payload_summary canonicalBytes settings).
Abbreviation worker_exec := (exec Process Unmarshal Marshal dlqTopic workers capacity retryPolicy).
Abbreviation worker_start := (start (PC := call) (pans := ans) Unmarshal Marshal dlqTopic workers capacity).

(** Job [n] made the call and got this answer. *)
Definition did l (n : nat) (c : call) (x : ans c) : Prop :=
  Did (Some n) (observe (ans := Consumer.ans (pans := ans)) (cProcess c) x) ∈ l.

(** A job for the record flight-recorded its event, and wrote it and enqueued its routing
    plan, or was told by the shaping store that the event is sampled out. *)
Definition accounted l m : Prop :=
  exists n event, Unmarshal (m_Value m) = Ok event /\ did l n (wFlight event) (Ok tt) /\
    ((exists processed, same_event (normalized event) processed /\ did l n (wWrite processed) (Ok tt) /\
        did l n (wEnqueue processed (Plan (set_routing settings) processed)) (Ok tt)) \/
     (protected settings (normalized event) = false /\
      exists proposed decision reused, d_Keep decision = false /\
        did l n (wShape (hResolve proposed)) (Ok (decision, reused)))).

Lemma log_answers_store l n pre inner outer post :
  log_answers l -> job_trace n l = pre ++ outer ++ post -> embeds cProcess (fun _ x => x) inner outer ->
  store_answers inner /\ forall c x, observe (ans := ans) c x ∈ inner -> did l n c x.
Proof.
  intros Hl Ht He. assert (forall o, o ∈ outer -> Did (Some n) o ∈ l) as Hin.
  { intros o Ho. apply job_trace_log. rewrite Ht. rewrite !elem_of_app. auto. }
  split.
  - apply Forall_forall. intros [c x] Ho. destruct (embeds_elem _ _ _ _ _ He Ho) as (y & E & Hy). cbn in E. subst y.
    exact (Hl _ _ (Hin _ Hy)).
  - intros c x Ho. destruct (embeds_elem _ _ _ _ _ He Ho) as (y & E & Hy). cbn in E. subst y. by apply Hin.
Qed.

Lemma processed_accounted l m : log_answers l -> processed_ok Process Unmarshal l m -> accounted l m.
Proof.
  intros Hl (n & event & pre & inner & outer & post & result & Hu & _ & Ht & He & Hr).
  destruct (log_answers_store _ _ _ _ _ _ Hl Ht He) as [Hs Hdid].
  apply pipeline_accounts in Hr as (t' & -> & H); [|done]. exists n, event. split; [done|].
  split; [apply Hdid; left|]. destruct H as [(processed & before & after & Hp & ->)|[(p & d & r & Hin & Hk) Hp]].
  - left. exists processed. split; [done|]. split; apply Hdid; right; apply elem_of_app; right; [left|right; left].
  - right. split; [done|]. exists p, d, r. split; [done|]. apply Hdid. by right.
Qed.


End worker_process.

(** ** Runs driven by one oracle *)

Section oracle.
Variable Process : Event -> P processed.
Variable Unmarshal : bytes -> result Event.
Variable Marshal : DeadLetter -> result bytes.
Variable dlqTopic : string.
Variables (workers capacity : Z) (retryPolicy : RetryPolicy).
Variable oracle : forall c : Consumer.call (PC := call), Consumer.ans (pans := ans) c.
Hypothesis Horacle : forall c, store_answer c (oracle (cProcess c)).

Lemma respond_answer c s x s' events :
  respond capacity oracle c s = Some (x, s', events) ->
  worker_answer (observe c x) /\ s_log s' = s_log s.
Proof.
  destruct c; cbn; intros H; try (injection H as <- <- <-; split; [apply Horacle || exact I|done]).
  - injection H as <- <- <-. split; [exact I|]. by destruct (s_fatal s).
  - destruct (oracle _); repeat case_match; simplify_eq; done.
  - case_match; by simplify_eq.
Qed.

(** The steps of the schedule take their answers from the oracle. *)
Definition of_oracle (ch : choice (PC := call) (pans := ans)) : Prop :=
  match ch with
  | PollerStep answers | WorkerStep _ answers => answers = oracle
  | Take _ | CancelParent => True
  end.

Lemma log_answers_app l l' : log_answers l -> log_answers l' -> log_answers (l ++ l').
Proof. intros Hl Hl' who o [H|H]%elem_of_app; eauto. Qed.

Lemma did_answers who o (events : list OffsetTracker.event) :
  worker_answer o -> log_answers (Did who o :: (Offset <$> events)).
Proof.
  intros Ho who' o' [[= -> ->]|(e & [=] & _)%list_elem_of_fmap]%elem_of_cons. done.
Qed.

Lemma step_answers ch s s' :
  of_oracle ch -> step Process Unmarshal Marshal dlqTopic workers capacity retryPolicy ch s = Some s' ->
  log_answers (s_log s) -> log_answers (s_log s').
Proof.
  intros Hch H Hs. destruct ch as [answers|i answers|i|]; cbn in Hch, H; subst.
  - destruct (s_poller s) as [past [a|c k]|]; try done.
    destruct (respond _ _ c s) as [[[x s1] events]|] eqn:E; [|done].
    apply respond_answer in E as [Hx Hl]. injection H as <-.
    destruct (k x) as [[r|]|]; cbn; rewrite Hl; apply log_answers_app; auto using did_answers.
  - destruct (s_workers s !! i) as [[|n m event past [a|c k]]|]; try done.
    destruct (respond _ _ c s) as [[[x s1] events]|] eqn:E; [|done].
    apply respond_answer in E as [Hx Hl]. injection H as <-.
    destruct (k x); cbn; rewrite Hl; apply log_answers_app; auto using did_answers.
  - destruct (s_workers s !! i) as [[|]|], (s_queue s) as [|[m0 event0] rest]; try done. injection H as <-. cbn.
    apply log_answers_app; [done|]. by intros who o [=]%list_elem_of_singleton.
  - by injection H as <-.
Qed.

Lemma exec_answers schedule : Forall of_oracle schedule -> forall s, log_answers (s_log s) ->
  log_answers (s_log (exec Process Unmarshal Marshal dlqTopic workers capacity retryPolicy schedule s)).
Proof.
  induction 1 as [|ch rest Hch _ IH]; intros s Hs; cbn; [done|]. apply IH.
  destruct (step _ _ _ _ _ _ _ ch s) as [s'|] eqn:E; [|done]. by eapply step_answers.
Qed.

End oracle.

(** ** A concrete run of the worker

    Two records; the second does not decode.  The first is shaped (a tag is dropped), has
    a tag over its cardinality threshold, is written and routed. *)

Definition demo_settings : Settings :=
  mkSettings false kept_engine (Policy.demo_engine None) Router.demo_config None.

Definition demo_answer (c : call) : ans c :=
  match c return ans c with
  | wShape c => Shaper.demo_oracle (mkTables ∅ ∅) c
  | wPolicy c => Policy.demo_oracle c
  | wNow => 1
  | wFlight _ | wSchema _ | wChange _ | wWrite _ | wEnqueue _ _ | wShadow _ | wIncident _ => Ok tt
  end.

Definition demo_worker_oracle (c : Consumer.call (PC := call)) : Consumer.ans (pans := ans) c :=
  match c with
  | cProcess c => demo_answer c
  | cNow => 5
  | cRandom => float_zero
  | cSleep _ => Ok tt
  | cQueueLen => 0
  | cPoll => (demo_messages, [])
  | cRegister _ | cAck _ | cProduce _ | cSubmit _ _ => Ok tt
  | cTakeFatal | cCtxErr | cRunErr => None
  | cObserveDepth _ _ | cObserveCompleted _ _ _ | cObserveRetry _ | cObserveDeadLetter _ | cAllowRebalance
  | cSetLag _ | cFail _ | cJobsAdd | cJobsDone | cJobsWait => tt
  end.

Definition demo_decode (b : bytes) : result Event :=
  match b with [] => Err (ErrMsg "unexpected end of JSON input") | _ => Ok Policy.demo_tagged end.

Definition demo_worker_schedule : list (choice (PC := call) (pans := ans)) :=
  mjoin (replicate 40 [PollerStep demo_worker_oracle; Take 0; WorkerStep 0 demo_worker_oracle]).

Abbreviation demo_worker_log :=
  (s_log (exec (pipeline (fun _ => None) (fun _ => 0) demo_settings) demo_decode demo_marshal "telemetry.dlq" 1 2
    DefaultRetryPolicy demo_worker_schedule
    (start (PC := call) (pans := ans) demo_decode demo_marshal "telemetry.dlq" 1 2))).

Lemma demo_store_answers c : store_answer c (demo_answer c).
Proof.
  destruct c; try exact I.
  - destruct c; (constructor; [|constructor]); try exact I; cbn [Shaper.demo_oracle demo_answer observe].
    + done.
    + intros decision. apply resolve_fresh.
  - destruct c; (constructor; [|constructor]); exact I.
Qed.

Definition is_worker_commit (e : worker_entry) : bool :=
  match e with Offset (Committed r) => k_Offset r =? 11 | _ => false end.

(** The second record is acknowledged before the first; nothing is committed until both are. *)
Definition demo_worker_offsets : list OffsetTracker.event :=
  [Registered (at_offset 11); Acked (at_offset 11); Acked (at_offset 10)].

Lemma demo_worker_commits : exists l1 l2,
  demo_worker_log = l1 ++ Offset (Committed (at_offset 11)) :: l2 /\
  offset_events l1 = [] ++ Registered (at_offset 10) :: demo_worker_offsets.
Proof.
  assert ((fun t => (t.1.2, offset_events t.1.1)) <$> cut is_worker_commit demo_worker_log =
    Some (Offset (Committed (at_offset 11)), Registered (at_offset 10) :: demo_worker_offsets)) as H by (vm_compute; reflexivity).
  destruct (cut is_worker_commit demo_worker_log) as [[[l1 e] l2]|] eqn:E; [|discriminate H].
  exists l1, l2. rewrite (cut_spec _ _ _ _ _ E). apply (inj Some) in H. apply pair_eq in H as [He Ho].
  cbn [fst snd] in He, Ho. subst e. exact (conj eq_refl Ho).
Qed.

Lemma demo_worker_answers : log_answers demo_worker_log.
Proof.
  apply (exec_answers _ _ _ _ _ _ _ demo_worker_oracle demo_store_answers); [|by intros ?? ?%not_elem_of_nil].
  unfold demo_worker_schedule. generalize 40%nat as n. intros n. induction n as [|n IH]; [constructor|].
  cbn. do 3 (constructor; [done|]). exact IH.
Qed.

