(* ===== verification/Security.v ===== *)
(** * Authentication, authorization and redaction ([internal/security])

    [auth.go]: API keys stored as SHA-256 digests, the principal of a request, the scope a
    request needs and the middleware in front of the gateway.  [redact.go]: the redaction
    of events in responses.  A request context is the principal it carries, if any; the
    JSON document of the key file arrives decoded. *)

From S2P Require Import Prelude GoStrings GoParse GoPath Hash Domain.

Local Open Scope string_scope.
Local Open Scope list_scope.

Definition ScopeIngest := "ingest".
Definition ScopeRead := "read".
Definition ScopeAdmin := "admin".
Definition ScopeControl := "control".

Record Principal := mkPrincipal {
  pr_Name : string;
  pr_TenantID : string;
  pr_Scopes : gset string;
}.

Definition Has (principal : Principal) (scope : string) : bool :=
  (negb (bool_decide (scope = ScopeControl)) && bool_decide (ScopeAdmin ∈ pr_Scopes principal)) ||
  bool_decide (scope ∈ pr_Scopes principal).

(** The tenant of a context. *)
Definition TenantID (ctx : option Principal) : string :=
  match ctx with
  | Some principal =>
      let tenant := trim_space (pr_TenantID principal) in
      if bool_decide (tenant = "") then "default" else tenant
  | None => "default"
  end.

Definition WithTenant (tenantID : string) : option Principal :=
  let tenantID := trim_space tenantID in
  let tenantID := if bool_decide (tenantID = "") then "default" else tenantID in
  Some (mkPrincipal "internal" tenantID {[ScopeAdmin]}).

(** ** API keys *)

Record keyEntry := mkKeyEntry {
  ke_Name : string;
  ke_SHA256 : string;
  ke_TenantID : string;
  ke_Scopes : list string;
}.

Record credential := mkCredential { cr_hash : bytes; cr_principal : Principal }.

Record Authenticator := mkAuthenticator {
  au_enabled : bool;
  au_defaultTenant : string;
  au_keys : list credential;
}.

Definition Disabled (defaultTenant : string) : Authenticator :=
  let defaultTenant := trim_space defaultTenant in
  mkAuthenticator false (if bool_decide (defaultTenant = "") then "default" else defaultTenant) [].

(** What reading and decoding the key file gives. *)
Inductive keyFile : Type :=
  | KeyFileUnreadable (e : error)
  | KeyFileMalformed (e : error)
  | KeyFileTrailing
  | KeyFileTrailingMalformed (e : error)
  | KeyFileDocument (keys : list keyEntry).

Fixpoint load_scopes (raw : list string) (scopes : gset string) : result (gset string) :=
  match raw with
  | [] => Ok scopes
  | scope :: raw' =>
      let scope := trim_space scope in
      if bool_decide (scope ∈ [ScopeIngest; ScopeRead; ScopeAdmin; ScopeControl])
      then load_scopes raw' ({[scope]} ∪ scopes)
      else Err (ErrMsg "API key entry has unsupported scope")
  end.

(** The loop over the entries; [seen] holds the digests so far. *)
Fixpoint load_entries (entries : list keyEntry) (seen : list bytes) (keys : list credential) : result (list credential) :=
  match entries with
  | [] => Ok keys
  | entry :: entries' =>
      let name := trim_space (ke_Name entry) in
      let tenantID := trim_space (ke_TenantID entry) in
      if bool_decide (name = "") || bool_decide (tenantID = "") then Err (ErrMsg "API key entry requires name and tenant_id")
      else match hex_decode (trim_space (ke_SHA256 entry)) with
      | None => Err (ErrMsg "API key entry has invalid SHA-256 digest")
      | Some decoded =>
          if negb (length decoded =? 32)%nat then Err (ErrMsg "API key entry has invalid SHA-256 digest")
          else if bool_decide (decoded ∈ seen) then Err (ErrMsg "duplicate API key digest")
          else match load_scopes (ke_Scopes entry) ∅ with
          | Err e => Err e
          | Ok scopes =>
              if bool_decide (scopes = ∅) then Err (ErrMsg "API key entry requires at least one scope")
              else load_entries entries' (decoded :: seen)
                     (keys ++ [mkCredential decoded (mkPrincipal name tenantID scopes)])
          end
      end
  end.

Definition LoadAPIKeys (file : keyFile) : result Authenticator :=
  match file with
  | KeyFileUnreadable e => Err (ErrWrap "read API key file" e)
  | KeyFileMalformed e => Err (ErrWrap "decode API key file" e)
  | KeyFileTrailing => Err (ErrMsg "API key file contains a trailing JSON value")
  | KeyFileTrailingMalformed e => Err (ErrWrap "decode API key file trailing data" e)
  | KeyFileDocument keys =>
      if bool_decide (length keys = 0%nat) then Err (ErrMsg "API key file contains no keys")
      else match load_entries keys [] [] with
           | Err e => Err e
           | Ok keys => Ok (mkAuthenticator true "" keys)
           end
  end.

(** ** The middleware *)

(** What the middleware and the handlers read of a request; an absent header is empty,
    and a query parameter stands for its first value. *)
Record Request := mkRequest {
  rq_Method : string;
  rq_Path : string;
  rq_Authorization : string;
  rq_Key : string;
  rq_ContentType : string;
  rq_Query : gmap string string;
}.

Definition bearerToken (header : string) : string :=
  let n := String.length "Bearer " in
  if (String.length header <=? n)%nat || negb (equal_fold (String.substring 0 n header) "Bearer ") then ""
  else trim_space (String.substring n (String.length header - n) header).

Definition requiredScope (request : Request) : string :=
  let path := rq_Path request in
  if has_prefix path "/api/v1/lifecycle/" && negb (bool_decide (rq_Method request = "GET")) then ScopeControl
  else if bool_decide (path = "/metrics") then ScopeAdmin
  else if bool_decide (rq_Method request = "POST") &&
          bool_decide (path ∈ ["/api/v1/events"; "/api/v1/metrics"; "/api/v1/changes"; "/v1/logs"; "/v1/metrics"])
  then ScopeIngest
  else if has_prefix path "/api/" then ScopeRead
  else ScopeAdmin.

(** The key a request presents; empty if none. *)
Definition presented_key (request : Request) : string :=
  let raw := bearerToken (rq_Authorization request) in
  if bool_decide (raw = "") then trim_space (rq_Key request) else raw.

(** The first credential with this digest. *)
Fixpoint find_key (digest : bytes) (keys : list credential) : option credential :=
  match keys with
  | [] => None
  | candidate :: keys' => if bool_decide (digest = cr_hash candidate) then Some candidate else find_key digest keys'
  end.

(** [None] is a nil authenticator. *)
Definition authenticate (auth : option Authenticator) (request : Request) : option Principal :=
  let local tenant := Some (mkPrincipal "local-development" tenant {[ScopeAdmin; ScopeControl]}) in
  match auth with
  | None => local "default"
  | Some auth =>
      if negb (au_enabled auth)
      then local (if bool_decide (au_defaultTenant auth = "") then "default" else au_defaultTenant auth)
      else
        let raw := presented_key request in
        if bool_decide (raw = "") then None
        else cr_principal <$> find_key (sha256 (to_bytes raw)) (au_keys auth)
  end.

(** [Middleware]: the next handler with its context, or a refusal. *)
Definition Middleware {A} (auth : option Authenticator) (next : option Principal -> A) (refuse : Z -> string -> A)
    (request : Request) : A :=
  if bool_decide (rq_Path request = "/health") || bool_decide (rq_Path request = "/ready") then next None
  else match authenticate auth request with
       | None => refuse 401 "authentication required"
       | Some principal =>
           if Has principal (requiredScope request) then next (Some principal) else refuse 403 "insufficient scope"
       end.

(** ** Redaction *)

Definition redactedValue := "[REDACTED]".

Definition quote : string := String (ascii_of_N 34) "".

(** The payload of a redacted event, a JSON object with the member redacted. *)
Definition redactedPayload : bytes := to_bytes ("{" +:+ quote +:+ "redacted" +:+ quote +:+ ":true}").

Record Redactor := mkRedactor { rd_tagKeys : gset string; rd_redactPayload : bool }.

Definition NewRedactor (tagKeys : string) (redactPayload : bool) : Redactor :=
  mkRedactor
    (foldr (fun key keys => let key := to_lower (trim_space key) in
                            if bool_decide (key = "") then keys else {[key]} ∪ keys) ∅ (split_on "," tagKeys))
    redactPayload.

Definition sensitive (redactor : Redactor) (key : string) : bool := bool_decide (to_lower key ∈ rd_tagKeys redactor).

Definition redact (redactor : Redactor) (event : Event) : Event :=
  mkEvent (ev_ID event) (ev_TenantID event) (ev_Source event) (ev_Type event) (ev_Timestamp event)
    (map_imap (fun key value => Some (if sensitive redactor key then redactedValue else value)) (ev_Tags event))
    (if rd_redactPayload redactor && (0 <? zlen (ev_Payload event))%Z then redactedPayload else ev_Payload event)
    (ev_Value event) (ev_Unit event) (ev_SchemaVersion event) (ev_SchemaURL event) (ev_CorrelationID event).

(** [Redactor.Event] and [Redactor.Events]; [None] is a nil redactor. *)
Definition Redactor_Event (redactor : option Redactor) (event : Event) : Event :=
  match redactor with Some redactor => redact redactor event | None => event end.

Definition Redactor_Events (redactor : option Redactor) (events : list Event) : list Event :=
  match redactor with Some redactor => redact redactor <$> events | None => events end.

(** ** What authentication promises *)

Definition all_scopes : gset string := {[ScopeIngest; ScopeRead; ScopeAdmin; ScopeControl]}.

(** A credential as its entry of the key file states it. *)
Definition credential_of (entry : keyEntry) (c : credential) : Prop :=
  hex_decode (trim_space (ke_SHA256 entry)) = Some (cr_hash c) /\ length (cr_hash c) = 32%nat /\
  pr_Name (cr_principal c) = trim_space (ke_Name entry) /\
  pr_TenantID (cr_principal c) = trim_space (ke_TenantID entry) /\ trim_space (ke_TenantID entry) <> "" /\
  pr_Scopes (cr_principal c) = list_to_set (trim_space <$> ke_Scopes entry) /\
  pr_Scopes (cr_principal c) <> ∅ /\ pr_Scopes (cr_principal c) ⊆ all_scopes.

Lemma load_scopes_spec raw : forall scopes scopes', load_scopes raw scopes = Ok scopes' ->
  scopes' = list_to_set (trim_space <$> raw) ∪ scopes /\ (scopes ⊆ all_scopes -> scopes' ⊆ all_scopes).
Proof.
  induction raw as [|scope raw IH]; intros scopes scopes'; cbn [load_scopes].
  - intros [= <-]. split; [set_solver|done].
  - case_bool_decide as Hs; [|done]. intros [-> H]%IH. split; [cbn; set_solver|].
    intros Hsc. apply H. apply union_subseteq. split; [|done]. unfold all_scopes. set_solver.
Qed.

Lemma load_entries_spec entries : forall seen keys keys', load_entries entries seen keys = Ok keys' ->
  exists loaded, keys' = keys ++ loaded /\ Forall2 credential_of entries loaded /\
    NoDup (cr_hash <$> loaded) /\ forall c, c ∈ loaded -> cr_hash c ∉ seen.
Proof.
  induction entries as [|entry entries IH]; intros seen keys keys'; cbn [load_entries].
  - intros [= <-]. exists []. rewrite app_nil_r. split_and!; [done|constructor|constructor|set_solver].
  - destruct (_ || _) eqn:Eb; [done|]. apply orb_false_iff in Eb as [_ Ht%bool_decide_eq_false].
    destruct (hex_decode _) as [decoded|] eqn:Eh; [|done]. destruct (negb _) eqn:El; [done|].
    apply negb_false_iff, Nat.eqb_eq in El. case_bool_decide as Hseen; [done|].
    destruct (load_scopes _ _) as [scopes|] eqn:Es; [|done]. apply load_scopes_spec in Es as [Es Hsub].
    case_bool_decide as Hempty; [done|]. intros (loaded & -> & Hl & Hnd & Hfresh)%IH.
    eexists (_ :: loaded). split_and!; [by rewrite <- app_assoc|constructor; [|done]| |].
    + unfold credential_of. cbn. split_and!; try done; [|set_solver]. rewrite Es. set_solver.
    + cbn. constructor; [|done]. intros (c & -> & Hc)%list_elem_of_fmap. apply (Hfresh c Hc). set_solver.
    + intros c [->|Hc]%elem_of_cons; [done|]. specialize (Hfresh c Hc). set_solver.
Qed.

(** What a loaded key file gives: one credential per entry, with distinct digests. *)
Lemma LoadAPIKeys_spec entries auth : LoadAPIKeys (KeyFileDocument entries) = Ok auth ->
  au_enabled auth = true /\ Forall2 credential_of entries (au_keys auth) /\ NoDup (cr_hash <$> au_keys auth).
Proof.
  unfold LoadAPIKeys. case_bool_decide; [done|]. destruct (load_entries _ _ _) as [keys|] eqn:E; [|done].
  apply load_entries_spec in E as (loaded & -> & Hl & Hnd & _). intros [= <-]. done.
Qed.

Lemma find_key_spec digest keys c : find_key digest keys = Some c -> c ∈ keys /\ cr_hash c = digest.
Proof.
  induction keys as [|k keys IH]; cbn [find_key]; [done|]. case_bool_decide.
  - intros [= ->]. split; [left|done].
  - intros [Hin ->]%IH. split; [by right|done].
Qed.

(** With distinct digests a credential is found by its digest. *)
Lemma find_key_complete keys c : NoDup (cr_hash <$> keys) -> c ∈ keys -> find_key (cr_hash c) keys = Some c.
Proof.
  induction keys as [|k keys IH]; [by intros _ ?%not_elem_of_nil|]. cbn. intros [Hk Hnd]%NoDup_cons [->|Hc]%elem_of_cons.
  - by rewrite bool_decide_true.
  - rewrite bool_decide_false; [auto|]. intros E. apply Hk. apply list_elem_of_fmap. by exists c.
Qed.

(** The tenant of a request, through its key. *)
Lemma authenticate_spec entries auth request principal :
  LoadAPIKeys (KeyFileDocument entries) = Ok auth -> authenticate (Some auth) request = Some principal ->
  presented_key request <> "" /\
  exists entry, entry ∈ entries /\ hex_decode (trim_space (ke_SHA256 entry)) = Some (sha256 (to_bytes (presented_key request))) /\
    TenantID (Some principal) = trim_space (ke_TenantID entry) /\
    pr_Scopes principal = list_to_set (trim_space <$> ke_Scopes entry).
Proof.
  intros (He & Hc & _)%LoadAPIKeys_spec. unfold authenticate. rewrite He. cbn [negb]. case_bool_decide as Hk; [done|].
  destruct (find_key _ _) as [c|] eqn:E; [|done]. apply find_key_spec in E as [Hin Hh]. intros [= <-]. split; [done|].
  apply list_elem_of_lookup in Hin as [i Hi]. destruct (Forall2_lookup_r _ _ _ _ _ Hc Hi) as (entry & Hentry & Hcred).
  exists entry. split; [by eapply list_elem_of_lookup_2|].
  destruct Hcred as (Hx & _ & _ & Ht & Hne & Hs & _). rewrite <- Hh. split_and!; try done.
  unfold TenantID. rewrite Ht, trim_space_idem. by rewrite bool_decide_false.
Qed.

(** ** What redaction promises *)

(** The same event up to what the redactor hides. *)
Definition same_public (redactor : Redactor) (a b : Event) : Prop :=
  ev_ID a = ev_ID b /\ ev_TenantID a = ev_TenantID b /\ ev_Source a = ev_Source b /\ ev_Type a = ev_Type b /\
  ev_Timestamp a = ev_Timestamp b /\ ev_Value a = ev_Value b /\ ev_Unit a = ev_Unit b /\
  ev_SchemaVersion a = ev_SchemaVersion b /\ ev_SchemaURL a = ev_SchemaURL b /\ ev_CorrelationID a = ev_CorrelationID b /\
  (forall key, sensitive redactor key = false -> ev_Tags a !! key = ev_Tags b !! key) /\
  dom (ev_Tags a) = dom (ev_Tags b) /\
  (if rd_redactPayload redactor then (ev_Payload a = [] <-> ev_Payload b = []) else ev_Payload a = ev_Payload b).

Lemma redact_tags redactor event key :
  ev_Tags (redact redactor event) !! key =
    (fun value => if sensitive redactor key then redactedValue else value) <$> (ev_Tags event !! key).
Proof. cbn. rewrite map_lookup_imap. by destruct (ev_Tags event !! key). Qed.

(** Redaction is a function of what is public. *)
Lemma redact_public redactor a b : same_public redactor a b -> redact redactor a = redact redactor b.
Proof.
  intros (H1 & H2 & H3 & H4 & H5 & H6 & H7 & H8 & H9 & H10 & Htags & Hdom & Hp).
  assert (ev_Tags (redact redactor a) = ev_Tags (redact redactor b)) as Ht.
  { apply map_eq. intros key. rewrite !redact_tags. destruct (sensitive redactor key) eqn:E; [|by rewrite Htags].
    apply (f_equal (fun s => bool_decide (key ∈ s))) in Hdom.
    destruct (ev_Tags a !! key) eqn:Ea, (ev_Tags b !! key) eqn:Eb; try done; cbn;
      [rewrite bool_decide_true in Hdom by (apply elem_of_dom; eauto);
       symmetry in Hdom; apply bool_decide_eq_true, elem_of_dom in Hdom; rewrite Eb in Hdom; by destruct Hdom|
       rewrite (bool_decide_true (key ∈ dom (ev_Tags b))) in Hdom by (apply elem_of_dom; eauto);
       apply bool_decide_eq_true, elem_of_dom in Hdom; rewrite Ea in Hdom; by destruct Hdom]. }
  assert (ev_Payload (redact redactor a) = ev_Payload (redact redactor b)) as Hpl.
  { cbn. destruct (rd_redactPayload redactor); cbn; [|done].
    destruct (ev_Payload a) as [|x l], (ev_Payload b) as [|y k]; try done; [by destruct Hp as [Hp _]; discriminate (Hp eq_refl)
      |by destruct Hp as [_ Hp]; discriminate (Hp eq_refl)]. }
  unfold redact in *. cbn in Ht, Hpl. by rewrite H1, H2, H3, H4, H5, H6, H7, H8, H9, H10, Ht, Hpl.
Qed.
