(* ===== verification/Cardinality.v ===== *)
(** * Cardinality trackers ([internal/policy/cardinality.go], [internal/storage/cardinality.go])

    How many distinct values a dimension has taken in an hour: exactly for up to sixteen
    values, by a HyperLogLog estimate beyond.  [Tracker] is the bounded in-memory tracker;
    [ObserveShared] is the statement by which all workers of a cluster share one row per
    dimension and hour.  A hash is 64 bits of SHA-256; in the table it is a signed integer.

    The order in which Go visits the tracked dimensions when it looks for the oldest is an
    argument.  [math.Log] is the algorithm of the Go library on IEEE doubles. *)

From S2P Require Import Prelude GoStrings GoFloat GoTime GoParse Hash Domain Database Policy.

Local Open Scope string_scope.
Local Open Scope Z_scope.
Local Open Scope list_scope.

(** ** Floating-point functions of [math] *)

(** [math.Frexp] of a positive finite number: a fraction in [[1/2, 1)] and the exponent. *)
Definition frexp (f : float64) : float64 * Z :=
  match f with
  | S754_finite s m e =>
      let bits := Zpos (Pos.size m) in
      (binary_normalize 53 1024 (Zpos m) (- bits) s, e + bits)
  | f => (f, 0)
  end.

(** A constant by its bits: [mantissa * 2^exponent]. *)
Definition constant (mantissa : positive) (exponent : Z) : float64 := S754_finite false mantissa exponent.

Definition half_sqrt2 := constant 6369051672525773 (-53).
Definition Ln2Hi := constant 6243314766446592 (-53).
Definition Ln2Lo := constant 7382048951581814 (-85).
Definition L1 := constant 6004799503160723 (-53).
Definition L2 := constant 7205759403686404 (-54).
Definition L3 := constant 5146971033736025 (-54).
Definition L4 := constant 8006390766270639 (-55).
Definition L5 := constant 6551322304906206 (-55).
Definition L6 := constant 5517391500461727 (-55).
Definition L7 := constant 5331612937900612 (-55).
Definition two := float_of_int 2.

(** [math.Log] of a positive finite number. *)
Definition float_log (x : float64) : float64 :=
  let '(f1, ki) := frexp x in
  let '(f1, ki) := if (f1 <? half_sqrt2)%F then ((f1 * two)%F, ki - 1) else (f1, ki) in
  let f := (f1 - float_one)%F in
  let k := float_of_int ki in
  let s := (f / (two + f))%F in
  let s2 := (s * s)%F in
  let s4 := (s2 * s2)%F in
  let t1 := (s2 * (L1 + s4 * (L3 + s4 * (L5 + s4 * L7))))%F in
  let t2 := (s4 * (L2 + s4 * (L4 + s4 * L6)))%F in
  let R := (t1 + t2)%F in
  let hfsq := (constant 4503599627370496 (-53) * f * f)%F in
  (k * Ln2Hi - ((hfsq - (s * (hfsq + R) + k * Ln2Lo)) - f))%F.

(** [uint64(math.Round(f))] and [uint64(math.Ceil(f))] of a number at least zero; beyond
    the range of the type the language leaves the result open, and amd64 gives [2^63]. *)
Definition uint64_range (v : Z) : Z := if v <? 2 ^ 64 then v else 2 ^ 63.

Definition uint_round (f : float64) : Z :=
  match f with
  | S754_finite false m e =>
      uint64_range (if 0 <=? e then Zpos m * 2 ^ e else (2 * Zpos m + 2 ^ (- e)) / 2 ^ (1 - e))
  | S754_zero _ => 0
  | _ => 2 ^ 63
  end.

Definition uint_ceil (f : float64) : Z :=
  match f with
  | S754_finite false m e =>
      uint64_range (if 0 <=? e then Zpos m * 2 ^ e else (Zpos m + 2 ^ (- e) - 1) / 2 ^ (- e))
  | S754_zero _ => 0
  | _ => 2 ^ 63
  end.

(** ** Hashes *)

Definition registerCount : Z := 64.
Definition exactHashWindow : Z := 16.
Definition defaultMaxDimensions : Z := 20000.

Definition uint64_of_bytes (b : bytes) : Z := foldl (fun n x => n * 256 + Z_of_byte x) 0 b.

Definition hashValue (value : string) : Z := uint64_of_bytes (take 8 (sha256 (to_bytes value))).

Definition shortFingerprint (hash : Z) : string := hex_encode (take 6 (be64 hash)).

(** The loop that counts trailing zeros, from rank [rank] with [fuel] ranks to go. *)
Fixpoint rank_loop (fuel : nat) (rank remaining : Z) : Z :=
  match fuel with
  | O => rank
  | S fuel => if Z.land remaining 1 =? 0 then rank_loop fuel (rank + 1) (Z.shiftr remaining 1) else rank
  end.

(** [rank < 59] allows 58 increments from 1. *)
Definition HLLRegister (hash : Z) : Z * Z :=
  (Z.land hash (registerCount - 1), rank_loop 58 1 (Z.shiftr hash 6)).

(** ** The estimator *)

(** Sixty-four registers. *)
Abbreviation hyperLogLog := (list Z).

Definition newHyperLogLog : hyperLogLog := replicate 64 0.

Definition AddHash (hash : Z) (registers : hyperLogLog) : hyperLogLog :=
  let '(index, rank) := HLLRegister hash in
  if default 0 (registers !! Z.to_nat index) <? rank then <[Z.to_nat index := rank]> registers else registers.

Definition Count (registers : hyperLogLog) : Z :=
  let sum := foldl (fun sum register => (sum + float_pow2 (- register))%F) float_zero registers in
  let zeros := length (filter (fun register => register = 0) registers) in
  let raw := (float_ratio 2904064 1000 / sum)%F in
  let raw := if (raw <=? float_of_int 160)%F && (0 <? zeros)%nat
             then (float_of_int 64 * float_log (float_of_int 64 / float_of_int (Z.of_nat zeros)))%F else raw in
  if (raw <? float_one)%F then 1 else uint_round raw.

Definition EstimateState (registers : list Z) (exactCount : Z) (exactOverflow : bool) : Z :=
  if negb exactOverflow then exactCount
  else if negb (zlen registers =? registerCount) then 0
  else Count registers.

Definition ProjectOneHour (observed samples : Z) (firstSeen now : time) : Z :=
  let elapsed := now - firstSeen in
  if (30 * ns_second <=? elapsed) && (elapsed <? ns_hour) && (10 <=? samples) then
    let value := (float_of_int observed * float_of_int ns_hour / float_of_int elapsed)%F in
    if (value >? float_of_int observed)%F then uint_ceil value else observed
  else observed.

(** ** The in-memory tracker *)

Record cardinalityState := mkState {
  cs_estimator : hyperLogLog;
  cs_firstSeen : time;
  cs_lastSeen : time;
  cs_samples : Z;
  cs_exactHashes : list Z;
  cs_exactOverflow : bool;
}.

(** Tenant, source, event type, dimension and window. *)
Abbreviation dimensionKey := (string * string * string * string * time)%type.

Record Tracker := mkTracker { tk_states : gmap dimensionKey cardinalityState; tk_maxDimensions : Z }.

Definition NewTracker (maxDimensions : Z) : Tracker :=
  mkTracker ∅ (if maxDimensions <? 1 then defaultMaxDimensions else maxDimensions).

(** The used part of the array; sixteen entries fit. *)
Definition observeExact (hash : Z) (hashes : list Z) (overflow : bool) : list Z * bool :=
  if overflow then (hashes, true)
  else if bool_decide (hash ∈ hashes) then (hashes, false)
  else if exactHashWindow <=? zlen hashes then (hashes, true)
  else (hashes ++ [hash], false).

(** The oldest of the visited entries, the first of equals. *)
Fixpoint oldest (visited : list (dimensionKey * cardinalityState)) (found : option (dimensionKey * time))
  : option (dimensionKey * time) :=
  match visited with
  | [] => found
  | (key, state) :: visited' =>
      oldest visited' (match found with
                       | Some (k, t) => if cs_lastSeen state <? t then Some (key, cs_lastSeen state) else found
                       | None => Some (key, cs_lastSeen state)
                       end)
  end.

Definition evictOldest (visited : list (dimensionKey * cardinalityState)) (states : gmap dimensionKey cardinalityState)
  : gmap dimensionKey cardinalityState :=
  match oldest visited None with Some (key, _) => delete key states | None => states end.

(** [Truncate(time.Hour)]. *)
Definition window_of (now : time) : time := now - now mod ns_hour.

(** [Tracker.ObserveCardinality] with [Observe]; the count of samples wraps at 64 bits.
    [walk] is the order in which the dimensions are visited. *)
Definition ObserveCardinality (walk : gmap dimensionKey cardinalityState -> list (dimensionKey * cardinalityState))
    (tenant source eventType dimension value : string) (now : time) (tracker : Tracker) : Observation * Tracker :=
  let key := (tenant, source, eventType, dimension, window_of now) in
  let hash := hashValue value in
  let states := tk_states tracker in
  let '(state, states) :=
    match states !! key with
    | Some state => (state, states)
    | None => (mkState newHyperLogLog now 0 0 [] false,
               if tk_maxDimensions tracker <=? Z.of_nat (size states) then evictOldest (walk states) states else states)
    end in
  let '(hashes, overflow) := observeExact hash (cs_exactHashes state) (cs_exactOverflow state) in
  let state := mkState (AddHash hash (cs_estimator state)) (cs_firstSeen state) now (u64 (cs_samples state + 1)) hashes overflow in
  let observed := if overflow then Count (cs_estimator state) else zlen hashes in
  let projected := ProjectOneHour observed (cs_samples state) (cs_firstSeen state) now in
  (mkObservation observed projected (cs_firstSeen state) (cs_lastSeen state) (window_of now) (shortFingerprint hash),
   mkTracker (<[key := state]> states) (tk_maxDimensions tracker)).

(** ** The shared row *)

Record SharedRow := mkShared {
  sr_registers : list Z;
  sr_exact_hashes : list Z;
  sr_exact_overflow : bool;
  sr_first_seen : time;
  sr_last_seen : time;
  sr_samples : Z;
}.

(** Tenant, mode, source, event type, dimension and window. *)
Abbreviation SharedKey := (string * string * string * string * string * time)%type.

(** [int64(hash)]. *)
Definition int64_of (hash : Z) : Z := if hash <? 2 ^ 63 then hash else hash - 2 ^ 64.

(** The [DO UPDATE] of the statement, for hash [h], register [index] and [rank]. *)
Definition update_shared (h index rank : Z) (now : time) (row : SharedRow) : SharedRow :=
  let hashes := sr_exact_hashes row in
  mkShared
    (<[Z.to_nat index := Z.max (default 0 (sr_registers row !! Z.to_nat index)) rank]> (sr_registers row))
    (if sr_exact_overflow row then hashes
     else if bool_decide (h ∈ hashes) then hashes
     else if zlen hashes <? 16 then hashes ++ [h] else hashes)
    (sr_exact_overflow row || (negb (bool_decide (h ∈ hashes)) && (16 <=? zlen hashes)))
    (Z.min (sr_first_seen row) (pg_time now)) (Z.max (sr_last_seen row) (pg_time now)) (sr_samples row + 1).

(** [clock] is read when no time is given; [ctx_tenant] is the tenant of the
    context. *)
Definition ObserveShared (ctx_tenant : string) (f : fault) (clock : time) (mode : string)
    (tenant source eventType dimension value : string) (now : time) (table : gmap SharedKey SharedRow)
  : result Observation * gmap SharedKey SharedRow :=
  if negb (bool_decide (mode = "active")) && negb (bool_decide (mode = "shadow"))
  then (Err (ErrMsg "unsupported cardinality mode"), table)
  else
    let tenant := if bool_decide (tenant = "") then ctx_tenant else tenant in
    let now := if is_zero now then clock else now in
    let key := (tenant, mode, source, eventType, dimension, window_of now) in
    let hash := hashValue value in
    let '(index, rank) := HLLRegister hash in
    let '(r, table) := transact f (fun table =>
      let row := match table !! key with
                 | None => mkShared (<[Z.to_nat index := rank]> (replicate 64 0)) [int64_of hash] false (pg_time now) (pg_time now) 1
                 | Some row => update_shared (int64_of hash) index rank now row
                 end in
      Ok (row, <[key := row]> table)) table in
    (match r with
     | Err e => Err (ErrWrap "update distributed cardinality state" e)
     | Ok row =>
         let observed := EstimateState (sr_registers row) (zlen (sr_exact_hashes row)) (sr_exact_overflow row) in
         Ok (mkObservation observed (ProjectOneHour observed (Z.max (sr_samples row) 0) (sr_first_seen row) now)
               (sr_first_seen row) (sr_last_seen row) (window_of now) (shortFingerprint hash))
     end, table).

(** ** Hashes and ranks *)

Lemma uint64_of_bytes_range b : forall n, 0 <= n -> 
  0 <= foldl (fun n x => n * 256 + Z_of_byte x) n b < (n + 1) * 256 ^ zlen b.
Proof.
  induction b as [|x b IH]; intros n Hn; cbn [foldl]; [unfold zlen; cbn; lia|].
  assert (0 <= Z_of_byte x < 256) as Hx by (unfold Z_of_byte; pose proof (Byte.to_N_bounded x); lia).
  specialize (IH (n * 256 + Z_of_byte x) ltac:(lia)). unfold zlen in *. cbn [length].
  rewrite Nat2Z.inj_succ, Z.pow_succ_r by lia. nia.
Qed.

Lemma hashValue_range value : 0 <= hashValue value < 2 ^ 64.
Proof.
  unfold hashValue, uint64_of_bytes. pose proof (uint64_of_bytes_range (take 8 (sha256 (to_bytes value))) 0 ltac:(lia)) as H.
  assert (256 ^ zlen (take 8 (sha256 (to_bytes value))) <= 256 ^ 8).
  { apply Z.pow_le_mono_r; [lia|]. unfold zlen. pose proof (firstn_le_length 8 (sha256 (to_bytes value))). lia. }
  lia.
Qed.

Lemma int64_of_inj a b : 0 <= a < 2 ^ 64 -> 0 <= b < 2 ^ 64 -> int64_of a = int64_of b -> a = b.
Proof. unfold int64_of. intros Ha Hb. repeat case_match; lia. Qed.

Lemma rank_loop_range fuel : forall rank remaining, rank <= rank_loop fuel rank remaining <= rank + Z.of_nat fuel.
Proof.
  induction fuel as [|fuel IH]; intros rank remaining; cbn [rank_loop]; [lia|]. destruct (_ =? 0); [|lia].
  specialize (IH (rank + 1) (Z.shiftr remaining 1)). lia.
Qed.

(** The register of a hash is one of the sixty-four, and its rank is in [1, 59]. *)
Lemma HLLRegister_range hash : 0 <= (HLLRegister hash).1 < 64 /\ 1 <= (HLLRegister hash).2 <= 59.
Proof.
  cbn [fst snd HLLRegister]. split.
  - change (registerCount - 1) with (Z.ones 6). rewrite Z.land_ones by lia. apply Z.mod_pos_bound. lia.
  - pose proof (rank_loop_range 58 1 (Z.shiftr hash 6)). lia.
Qed.

(** ** The estimator is a function of the set of hashes *)

Definition registers_of (hashes : list Z) : hyperLogLog := foldl (fun r h => AddHash h r) newHyperLogLog hashes.

(** [v] is the largest rank of the hashes of register [j], 0 if there is none. *)
Definition top_rank (hashes : list Z) (j : nat) (v : Z) : Prop :=
  (forall h, h ∈ hashes -> Z.to_nat (HLLRegister h).1 = j -> (HLLRegister h).2 <= v) /\
  (v = 0 \/ exists h, h ∈ hashes /\ Z.to_nat (HLLRegister h).1 = j /\ (HLLRegister h).2 = v).

Lemma top_rank_unique hashes hashes' j v v' :
  (forall h, h ∈ hashes <-> h ∈ hashes') -> top_rank hashes j v -> top_rank hashes' j v' -> v = v'.
Proof.
  intros Heq [Hu [-> |(h & Hh & Hj & <-)]] [Hu' [-> |(h' & Hh' & Hj' & <-)]].
  - done.
  - specialize (Hu h' (proj2 (Heq h') Hh') Hj'). pose proof (HLLRegister_range h'). lia.
  - specialize (Hu' h (proj1 (Heq h) Hh) Hj). pose proof (HLLRegister_range h). lia.
  - specialize (Hu h' (proj2 (Heq h') Hh') Hj'). specialize (Hu' h (proj1 (Heq h) Hh) Hj). lia.
Qed.

Lemma length_AddHash h r : length (AddHash h r) = length r.
Proof. unfold AddHash. destruct (HLLRegister h). destruct (_ <? _); [apply length_insert|done]. Qed.

Lemma length_registers hashes : length (registers_of hashes) = 64%nat.
Proof.
  unfold registers_of. induction hashes as [|h hashes IH] using rev_ind; [done|].
  by rewrite foldl_snoc, length_AddHash.
Qed.

Lemma registers_top hashes j v : registers_of hashes !! j = Some v -> top_rank hashes j v.
Proof.
  unfold registers_of. revert v. induction hashes as [|h hashes IH] using rev_ind; intros v.
  - cbn [foldl]. intros [-> _]%lookup_replicate. split; [by intros ? ?%not_elem_of_nil|by left].
  - rewrite foldl_snoc. fold (registers_of hashes) in *. unfold AddHash.
    pose proof (HLLRegister_range h) as [Hi Hr]. destruct (HLLRegister h) as [i rank] eqn:Eh. cbn in Hi, Hr.
    assert (is_Some (registers_of hashes !! Z.to_nat i)) as [w Hw]
      by (apply lookup_lt_is_Some; rewrite length_registers; lia).
    rewrite Hw. change (default 0 (Some w)) with w.
    assert (forall u, registers_of hashes !! j = Some u -> (j = Z.to_nat i -> rank <= u) -> top_rank (hashes ++ [h]) j u) as Hkeep.
    { intros u Hu Hle. destruct (IH u Hu) as [Hup Hex]. split.
      - intros h' [Hh'| ->%list_elem_of_singleton]%elem_of_app Hj; [by apply Hup|]. rewrite Eh in Hj |- *. cbn in *. auto.
      - destruct Hex as [-> |(h' & Hh' & Hj)]; [by left|right]. exists h'. split; [apply elem_of_app; by left|exact Hj]. }
    destruct (w <? rank) eqn:El.
    + apply Z.ltb_lt in El. destruct (decide (j = Z.to_nat i)) as [-> |Hne].
      * rewrite list_lookup_insert_eq by (apply lookup_lt_Some in Hw; done). intros [= <-].
        destruct (IH w Hw) as [Hup _]. split.
        -- intros h' [Hh'| ->%list_elem_of_singleton]%elem_of_app Hj; [specialize (Hup h' Hh' Hj); lia|]. by rewrite Eh.
        -- right. exists h. rewrite Eh. split; [apply elem_of_app; right; left|done].
      * rewrite list_lookup_insert_ne by done. intros Hu. by apply Hkeep.
    + apply Z.ltb_ge in El. intros Hu. apply Hkeep; [done|]. intros ->. rewrite Hw in Hu. by injection Hu as <-.
Qed.

(** The registers depend on the set of hashes only. *)
Lemma registers_of_set hashes hashes' :
  (forall h, h ∈ hashes <-> h ∈ hashes') -> registers_of hashes = registers_of hashes'.
Proof.
  intros Heq. apply list_eq. intros j. 
  destruct (decide (j < 64)%nat) as [Hj|Hj].
  - assert (is_Some (registers_of hashes !! j)) as [v Hv] by (apply lookup_lt_is_Some; by rewrite length_registers).
    assert (is_Some (registers_of hashes' !! j)) as [v' Hv'] by (apply lookup_lt_is_Some; by rewrite length_registers).
    rewrite Hv, Hv'. f_equal. eapply top_rank_unique; [exact Heq|by apply registers_top..].
  - rewrite !lookup_ge_None_2; [done|rewrite length_registers; lia..].
Qed.

(** ** The exact window is a function of the set of hashes *)

Definition exact_of (hashes : list Z) : list Z * bool :=
  foldl (fun st h => observeExact h st.1 st.2) ([], false) hashes.

Definition distinct (hashes : list Z) : Z := Z.of_nat (size (list_to_set hashes : gset Z)).

(** What both trackers report for a set of hashes. *)
Definition unique_count (hashes : list Z) : Z :=
  if distinct hashes <=? exactHashWindow then distinct hashes else Count (registers_of hashes).

Lemma exact_of_snoc hashes h :
  exact_of (hashes ++ [h]) = observeExact h (exact_of hashes).1 (exact_of hashes).2.
Proof. unfold exact_of. by rewrite foldl_snoc. Qed.

Lemma distinct_nodup l hashes : NoDup l -> (forall h, h ∈ l -> h ∈ hashes) -> zlen l <= distinct hashes.
Proof.
  intros Hnd Hsub. unfold zlen, distinct. rewrite <- (size_list_to_set (C := gset Z) l Hnd).
  apply inj_le, subseteq_size. intros h. rewrite !elem_of_list_to_set. apply Hsub.
Qed.

Lemma distinct_same l hashes : NoDup l -> (forall h, h ∈ l <-> h ∈ hashes) -> distinct hashes = zlen l.
Proof.
  intros Hnd Hsame. unfold zlen, distinct. rewrite <- (size_list_to_set (C := gset Z) l Hnd). do 2 f_equal.
  apply set_eq. intros h. rewrite !elem_of_list_to_set. by rewrite Hsame.
Qed.

Lemma exact_of_spec hashes :
  NoDup (exact_of hashes).1 /\ (forall h, h ∈ (exact_of hashes).1 -> h ∈ hashes) /\ zlen (exact_of hashes).1 <= 16 /\
  (if (exact_of hashes).2 then 16 < distinct hashes else forall h, h ∈ hashes -> h ∈ (exact_of hashes).1).
Proof.
  induction hashes as [|h hashes IH] using rev_ind; [cbn; split_and!; [constructor|done|done|by intros ? ?%not_elem_of_nil]|].
  rewrite exact_of_snoc. destruct (exact_of hashes) as [l o]. cbn [fst snd] in *. destruct IH as (Hnd & Hsub & Hlen & Ho).
  assert (forall x, x ∈ l -> x ∈ hashes ++ [h]) as Hsub' by (intros x Hx; apply elem_of_app; left; auto).
  unfold observeExact. destruct o; cbn [fst snd].
  - split_and!; try done. apply Z.lt_le_trans with (1 := Ho). unfold distinct. apply inj_le, subseteq_size.
    rewrite list_to_set_app. set_solver.
  - case_bool_decide as Hin; cbn [fst snd].
    + split_and!; try done. intros x [Hx| ->%list_elem_of_singleton]%elem_of_app; auto.
    + destruct (exactHashWindow <=? zlen l) eqn:E; cbn [fst snd].
      * apply Z.leb_le in E. unfold exactHashWindow in E. split_and!; try done.
        assert (zlen (h :: l) <= distinct (hashes ++ [h])); [|unfold zlen in *; cbn in *; lia].
        apply distinct_nodup; [by constructor|]. intros x [-> |Hx]%elem_of_cons; [|auto]. apply elem_of_app. right. left.
      * apply Z.leb_gt in E. unfold exactHashWindow in E. split_and!.
        -- apply NoDup_app. split_and!; [done| |apply NoDup_singleton]. intros x Hx ->%list_elem_of_singleton. done.
        -- intros x [Hx| Hx]%elem_of_app; [auto|]. apply elem_of_app. by right.
        -- unfold zlen in *. rewrite length_app. cbn. lia.
        -- intros x [Hx|Hx]%elem_of_app; apply elem_of_app; auto.
Qed.

(** What is observed after the hashes. *)
Lemma observed_count hashes :
  (if (exact_of hashes).2 then Count (registers_of hashes) else zlen (exact_of hashes).1) = unique_count hashes.
Proof.
  destruct (exact_of_spec hashes) as (Hnd & Hsub & Hlen & Ho). unfold unique_count, exactHashWindow.
  destruct (exact_of hashes).2.
  - by rewrite (proj2 (Z.leb_gt _ _) Ho).
  - rewrite (distinct_same _ hashes Hnd) by (intros h; split; auto). by rewrite (proj2 (Z.leb_le _ _) Hlen).
Qed.

Lemma unique_count_set hashes hashes' : (forall h, h ∈ hashes <-> h ∈ hashes') -> unique_count hashes = unique_count hashes'.
Proof.
  intros Heq. unfold unique_count. rewrite (registers_of_set _ _ Heq).
  assert (distinct hashes = distinct hashes') as ->; [|done].
  unfold distinct. do 2 f_equal. apply set_eq. intros h. rewrite !elem_of_list_to_set. apply Heq.
Qed.

(** ** Histories of observations *)

Record Sample := mkSample {
  sm_tenant : string;
  sm_source : string;
  sm_eventType : string;
  sm_dimension : string;
  sm_value : string;
  sm_now : time;
}.

Definition key_of (s : Sample) : dimensionKey :=
  (sm_tenant s, sm_source s, sm_eventType s, sm_dimension s, window_of (sm_now s)).

(** The hashes observed for a dimension and window. *)
Definition hashes_at (key : dimensionKey) (history : list Sample) : list Z :=
  (fun s => hashValue (sm_value s)) <$> filter (fun s => key_of s = key) history.

Lemma hashes_at_snoc key history s :
  hashes_at key (history ++ [s]) =
    if decide (key_of s = key) then hashes_at key history ++ [hashValue (sm_value s)] else hashes_at key history.
Proof.
  unfold hashes_at. rewrite filter_app, fmap_app, filter_cons. destruct (decide (key_of s = key)); cbn; [done|].
  by rewrite app_nil_r.
Qed.

Lemma registers_of_snoc hashes h : registers_of (hashes ++ [h]) = AddHash h (registers_of hashes).
Proof. unfold registers_of. by rewrite foldl_snoc. Qed.

(** The in-memory tracker after a history. *)
Definition observe_local walk (s : Sample) : Tracker -> Observation * Tracker :=
  ObserveCardinality walk (sm_tenant s) (sm_source s) (sm_eventType s) (sm_dimension s) (sm_value s) (sm_now s).

Definition local_run walk (maxDimensions : Z) (history : list Sample) : Tracker :=
  foldl (fun tracker s => (observe_local walk s tracker).2) (NewTracker maxDimensions) history.

Definition keys_of (history : list Sample) : gset dimensionKey := list_to_set (key_of <$> history).

Definition state_of (hashes : list Z) (st : cardinalityState) : Prop :=
  cs_estimator st = registers_of hashes /\ cs_exactHashes st = (exact_of hashes).1 /\ cs_exactOverflow st = (exact_of hashes).2.

Definition local_ok (maxDimensions : Z) (history : list Sample) (tracker : Tracker) : Prop :=
  tk_maxDimensions tracker = tk_maxDimensions (NewTracker maxDimensions) /\ dom (tk_states tracker) = keys_of history /\
  forall key st, tk_states tracker !! key = Some st -> state_of (hashes_at key history) st.

Lemma hashes_at_fresh key history : key ∉ keys_of history -> hashes_at key history = [].
Proof.
  induction history as [|s history IH] using rev_ind; intros Hk; [done|].
  unfold keys_of in *. rewrite fmap_app, list_to_set_app_L in Hk. cbn in Hk. rewrite hashes_at_snoc, decide_False by set_solver.
  apply IH. set_solver.
Qed.

(** Recording one more hash. *)
Lemma state_of_add hashes h st :
  state_of hashes st ->
  let '(l, o) := observeExact h (cs_exactHashes st) (cs_exactOverflow st) in
  forall first last samples, state_of (hashes ++ [h]) (mkState (AddHash h (cs_estimator st)) first last samples l o).
Proof.
  intros (Hr & Hl & Ho). destruct (observeExact _ _ _) as [l o] eqn:E. intros first last samples.
  unfold state_of. cbn. rewrite registers_of_snoc, exact_of_snoc, Hr, <- Hl, <- Ho, E. done.
Qed.

(** One observation on a tracker with room reports the count of the set. *)
Lemma observe_local_spec walk maxDimensions history s tracker :
  local_ok maxDimensions history tracker -> 
  Z.of_nat (size (keys_of (history ++ [s]))) <= tk_maxDimensions (NewTracker maxDimensions) ->
  local_ok maxDimensions (history ++ [s]) (observe_local walk s tracker).2 /\
  ob_ObservedUnique (observe_local walk s tracker).1 = unique_count (hashes_at (key_of s) (history ++ [s])).
Proof.
  intros (Hmax & Hdom & Hst) Hsize. unfold observe_local, ObserveCardinality. fold (key_of s).
  assert (keys_of (history ++ [s]) = {[key_of s]} ∪ keys_of history) as Hkeys.
  { unfold keys_of. rewrite fmap_app, list_to_set_app_L. cbn. by rewrite union_empty_r_L, union_comm_L. }
  assert (exists st, (match tk_states tracker !! key_of s with
    | Some state => (state, tk_states tracker)
    | None => (mkState newHyperLogLog (sm_now s) 0 0 [] false,
               if tk_maxDimensions tracker <=? Z.of_nat (size (tk_states tracker))
               then evictOldest (walk (tk_states tracker)) (tk_states tracker) else tk_states tracker) end) =
    (st, tk_states tracker) /\ state_of (hashes_at (key_of s) history) st) as (st & -> & Hs).
  { destruct (tk_states tracker !! key_of s) as [st|] eqn:E; [by exists st; auto|].
    assert (key_of s ∉ keys_of history) as Hk by (rewrite <- Hdom; by apply not_elem_of_dom).
    eexists. rewrite (proj2 (Z.leb_gt _ _)); [split; [done|by rewrite hashes_at_fresh]|].
    rewrite Hmax, <- (size_dom (D := gset dimensionKey)), Hdom. rewrite Hkeys, size_union, size_singleton in Hsize by (apply disjoint_singleton_l; exact Hk). lia. }
  pose proof (state_of_add _ (hashValue (sm_value s)) st Hs) as Hadd.
  destruct (observeExact _ _ _) as [l o] eqn:E. cbn [fst snd ob_ObservedUnique].
  specialize (Hadd (cs_firstSeen st) (sm_now s) (u64 (cs_samples st + 1))).
  assert (hashes_at (key_of s) (history ++ [s]) = hashes_at (key_of s) history ++ [hashValue (sm_value s)]) as Hh
    by (rewrite hashes_at_snoc; by case_decide).
  split.
  - split_and!; [done|cbn; by rewrite dom_insert_L, Hdom, Hkeys|]. intros key st'. cbn [tk_states].
    intros [[<- <-]|[Hne Hlk]]%lookup_insert_Some; [by rewrite Hh|]. rewrite hashes_at_snoc. case_decide; [done|]. by apply Hst.
  - rewrite Hh, <- observed_count. destruct Hadd as (Hr & Hl & Ho). cbn in Hr, Hl, Ho |- *. rewrite <- Hr, <- Hl, <- Ho. done.
Qed.

Lemma local_run_ok walk maxDimensions history :
  Z.of_nat (size (keys_of history)) <= tk_maxDimensions (NewTracker maxDimensions) ->
  local_ok maxDimensions history (local_run walk maxDimensions history).
Proof.
  induction history as [|s history IH] using rev_ind; intros Hsize.
  - split_and!; [done|done|]. intros key st. cbn. by rewrite lookup_empty.
  - unfold local_run. rewrite foldl_snoc. apply observe_local_spec; [|done]. apply IH.
    etrans; [|exact Hsize]. apply inj_le, subseteq_size. unfold keys_of. rewrite fmap_app, list_to_set_app_L. apply union_subseteq_l.
Qed.

(** The shared table after a history of statements, each with what became of it. *)
Section shared.
Variables (ctx_tenant mode : string) (clock : time).

Definition observe_shared (f : fault) (s : Sample) : gmap SharedKey SharedRow -> result Observation * gmap SharedKey SharedRow :=
  ObserveShared ctx_tenant f clock mode (sm_tenant s) (sm_source s) (sm_eventType s) (sm_dimension s) (sm_value s) (sm_now s).

Definition shared_run (history : list (fault * Sample)) : gmap SharedKey SharedRow :=
  foldl (fun table fs => (observe_shared fs.1 fs.2 table).2) ∅ history.

(** The samples whose statement took effect, whether or not its reply arrived. *)
Definition applied (history : list (fault * Sample)) : list Sample :=
  omap (fun fs => match fs.1 with NotApplied _ => None | _ => Some fs.2 end) history.

(** A sample as the engine makes it: with a tenant and a time. *)
Definition proper (s : Sample) : Prop := sm_tenant s <> "" /\ sm_now s <> 0.

Definition shared_key (key : dimensionKey) : SharedKey :=
  let '(tenant, source, eventType, dimension, window) := key in (tenant, mode, source, eventType, dimension, window).

Definition row_of (hashes : list Z) (row : SharedRow) : Prop :=
  sr_registers row = registers_of hashes /\ sr_exact_hashes row = int64_of <$> (exact_of hashes).1 /\
  sr_exact_overflow row = (exact_of hashes).2.

Definition shared_ok (history : list Sample) (table : gmap SharedKey SharedRow) : Prop :=
  forall key, match table !! shared_key key with
              | Some row => row_of (hashes_at key history) row
              | None => hashes_at key history = []
              end.

#[local] Instance shared_key_inj : Inj (=) (=) shared_key.
Proof. intros [[[[a b] c] d] e] [[[[a' b'] c'] d'] e'] [= -> -> -> -> ->]. done. Qed.

(** [GREATEST] of a register is what [AddHash] does. *)
Lemma greatest_register hashes h :
  let '(index, rank) := HLLRegister h in
  <[Z.to_nat index := Z.max (default 0 (registers_of hashes !! Z.to_nat index)) rank]> (registers_of hashes) =
    registers_of (hashes ++ [h]).
Proof.
  rewrite registers_of_snoc. unfold AddHash. pose proof (HLLRegister_range h) as [Hi Hr].
  destruct (HLLRegister h) as [i rank]. cbn in Hi, Hr.
  assert (is_Some (registers_of hashes !! Z.to_nat i)) as [w Hw] by (apply lookup_lt_is_Some; rewrite length_registers; lia).
  rewrite Hw. change (default 0 (Some w)) with w. destruct (w <? rank) eqn:E.
  - apply Z.ltb_lt in E. by rewrite Z.max_r by lia.
  - apply Z.ltb_ge in E. rewrite Z.max_l by lia. by apply list_insert_id.
Qed.

Lemma int64_of_elem (hashes : list Z) h : (forall x, x ∈ hashes -> 0 <= x < 2 ^ 64) -> 0 <= h < 2 ^ 64 ->
  int64_of h ∈ int64_of <$> hashes <-> h ∈ hashes.
Proof.
  intros Hr Hh. rewrite list_elem_of_fmap. split; [|eauto].
  intros (x & Hx & Hin). rewrite (int64_of_inj h x); [done|done|by apply Hr|done].
Qed.

(** The statement's update is the tracker's. *)
Lemma update_shared_row hashes h now row :
  (forall x, x ∈ hashes -> 0 <= x < 2 ^ 64) -> 0 <= h < 2 ^ 64 -> row_of hashes row ->
  row_of (hashes ++ [h]) (update_shared (int64_of h) (HLLRegister h).1 (HLLRegister h).2 now row).
Proof.
  intros Hr Hh (Hreg & Hex & Hov). unfold row_of, update_shared. cbn [sr_registers sr_exact_hashes sr_exact_overflow].
  pose proof (greatest_register hashes h) as Hg. destruct (HLLRegister h) as [i rank]. cbn [fst snd].
  rewrite Hreg, Hg, Hex, Hov, exact_of_snoc. split; [done|].
  destruct (exact_of_spec hashes) as (_ & Hsub & _). destruct (exact_of hashes) as [l o]. cbn [fst snd] in *.
  assert (bool_decide (int64_of h ∈ int64_of <$> l) = bool_decide (h ∈ l)) as ->
    by (apply bool_decide_ext, int64_of_elem; auto).
  assert (zlen (int64_of <$> l) = zlen l) as -> by (unfold zlen; by rewrite length_fmap).
  unfold observeExact, exactHashWindow. destruct o; [done|]. case_bool_decide; [done|]. cbn [negb andb orb].
  rewrite Z.ltb_antisym. destruct (16 <=? zlen l); [done|]. cbn [fst snd negb]. by rewrite fmap_app.
Qed.

Lemma hashes_at_range key history h : h ∈ hashes_at key history -> 0 <= h < 2 ^ 64.
Proof. intros (s & -> & _)%list_elem_of_fmap. apply hashValue_range. Qed.

Hypothesis Hmode : mode = "active" \/ mode = "shadow".

(** The row the statement leaves. *)
Definition next_row (s : Sample) (table : gmap SharedKey SharedRow) : SharedRow :=
  let hash := hashValue (sm_value s) in
  match table !! shared_key (key_of s) with
  | None => mkShared (<[Z.to_nat (HLLRegister hash).1 := (HLLRegister hash).2]> (replicate 64 0)) [int64_of hash] false
              (pg_time (sm_now s)) (pg_time (sm_now s)) 1
  | Some row => update_shared (int64_of hash) (HLLRegister hash).1 (HLLRegister hash).2 (sm_now s) row
  end.

Lemma observe_shared_eq f s table : proper s ->
  (observe_shared f s table).2 =
    match f with NotApplied _ => table | _ => <[shared_key (key_of s) := next_row s table]> table end /\
  (forall o, (observe_shared f s table).1 = Ok o -> f = NoFault /\
     ob_ObservedUnique o = EstimateState (sr_registers (next_row s table)) (zlen (sr_exact_hashes (next_row s table)))
                             (sr_exact_overflow (next_row s table))).
Proof.
  intros [Ht Hn]. unfold observe_shared, ObserveShared. rewrite (bool_decide_false _ Ht).
  assert (negb (bool_decide (mode = "active")) && negb (bool_decide (mode = "shadow")) = false) as ->
    by (destruct Hmode as [-> | ->]; reflexivity).
  assert (is_zero (sm_now s) = false) as -> by (by apply Z.eqb_neq).
  change (sm_tenant s, mode, sm_source s, sm_eventType s, sm_dimension s, window_of (sm_now s)) with (shared_key (key_of s)).
  unfold next_row. destruct (HLLRegister (hashValue (sm_value s))) as [i rank]. cbn [fst snd].
  destruct f; cbn; (split; [done|]); intros o H; try done. by injection H as <-.
Qed.

Lemma next_row_of history s table : shared_ok history table ->
  row_of (hashes_at (key_of s) (history ++ [s])) (next_row s table).
Proof.
  intros Hok. rewrite hashes_at_snoc, decide_True by done. specialize (Hok (key_of s)). unfold next_row.
  destruct (table !! shared_key (key_of s)) as [row|].
  - apply update_shared_row; [apply hashes_at_range|apply hashValue_range|done].
  - rewrite Hok. cbn [app]. unfold row_of. cbn [sr_registers sr_exact_hashes sr_exact_overflow]. split; [|done].
    pose proof (greatest_register [] (hashValue (sm_value s))) as Hg. destruct (HLLRegister_range (hashValue (sm_value s))) as [Hi Hr].
    destruct (HLLRegister (hashValue (sm_value s))) as [i rank]. cbn [fst snd app] in *. rewrite <- Hg. f_equal.
    change (registers_of []) with (replicate 64 0). rewrite lookup_replicate_2 by lia.
    change (default 0 (Some 0)) with 0. lia.
Qed.

Lemma shared_run_ok history : Forall (fun fs => proper fs.2) history -> shared_ok (applied history) (shared_run history).
Proof.
  induction history as [|[f s] history IH] using rev_ind; intros Hp; [intros key; cbn; by rewrite lookup_empty|].
  apply Forall_app in Hp as [Hp Hs]. apply Forall_inv in Hs. specialize (IH Hp).
  assert (shared_run (history ++ [(f, s)]) = (observe_shared f s (shared_run history)).2) as ->
    by (unfold shared_run; by rewrite foldl_snoc).
  destruct (observe_shared_eq f s (shared_run history) Hs) as [-> _].
  assert (shared_ok (applied history ++ [s]) (<[shared_key (key_of s) := next_row s (shared_run history)]> (shared_run history))) as Hap.
  { intros key. destruct (decide (key = key_of s)) as [-> |Hne].
    - rewrite lookup_insert_eq. by apply next_row_of.
    - rewrite lookup_insert_ne by (by intros ?%(inj shared_key)). rewrite hashes_at_snoc, decide_False by done. apply IH. }
  unfold applied in *. rewrite omap_app. destruct f; cbn; [exact Hap| |exact Hap]. by rewrite app_nil_r.
Qed.

End shared.

(** What the shared tracker reports. *)
Lemma shared_count ctx_tenant mode clock history f s o table' :
  mode = "active" \/ mode = "shadow" -> Forall (fun fs => proper fs.2) history -> proper s ->
  observe_shared ctx_tenant mode clock f s (shared_run ctx_tenant mode clock history) = (Ok o, table') ->
  ob_ObservedUnique o = unique_count (hashes_at (key_of s) (applied history ++ [s])).
Proof.
  intros Hmode Hh Hs H. set (table := shared_run ctx_tenant mode clock history) in *.
  destruct (observe_shared_eq ctx_tenant mode clock Hmode f s table Hs) as [_ Ho].
  destruct (Ho o (f_equal fst H)) as [_ ->].
  destruct (next_row_of mode (applied history) s table (shared_run_ok _ _ _ Hmode _ Hh)) as (Hr & He & Hov).
  rewrite Hr, He, Hov, <- observed_count. unfold EstimateState. destruct (exact_of _).2; cbn [negb].
  - unfold registerCount, zlen. by rewrite length_registers.
  - unfold zlen. by rewrite length_fmap.
Qed.


(** ** A concrete history *)

Definition demo_sample (value : string) : Sample := mkSample "acme" "orders" "order" "user" value 5000.

(** Three values; the reply of the second statement is lost, the third is not applied. *)
Definition demo_history : list (fault * Sample) :=
  [(NoFault, demo_sample "u1"); (ReplyLost (ErrMsg "timeout"), demo_sample "u2"); (NotApplied (ErrMsg "down"), demo_sample "u3");
   (NoFault, demo_sample "u1")].

