(* ===== verification/Replay.v ===== *)
(** * Incident replay ([internal/replay])

    A frozen incident is evaluated again under a policy, in isolation: the events go
    through normalization and a policy engine of its own, and the effect of each is
    recorded.  [Runner_Run] is a program over the calls to the repository, the optional
    publisher, the clock and the random source.  The policy engine of a replay keeps its
    cardinality trackers and its reporting table in memory; [interp] runs the engine of
    [Policy] on them.  An error stands where the run records its text. *)

From S2P Require Import Prelude GoStrings GoFloat GoTime GoParse Domain Proc Worker.
From S2P Require Import Policy Cardinality.

Local Open Scope string_scope.
Local Open Scope Z_scope.
Local Open Scope list_scope.

(** ** A policy engine in memory *)

Record Local := mkLocal {
  lo_active : Tracker;
  lo_shadow : Tracker;
  lo_reports : Reports;
  lo_findings : Z;
  lo_diffs : Z;
}.

Section local.
Variable walk : gmap dimensionKey cardinalityState -> list (dimensionKey * cardinalityState).

(** The trackers, the reporting table and [memoryRecorder], which counts. *)
Definition answer (clock : time) (c : Policy.call) (st : Local) : Policy.ans c * Local :=
  match c return Policy.ans c * Local with
  | qNow => (clock, st)
  | qObserve mode tenant source eventType dimension value now =>
      if bool_decide (mode = "active") then
        let '(o, tracker) := ObserveCardinality walk tenant source eventType dimension value now (lo_active st) in
        (Ok o, mkLocal tracker (lo_shadow st) (lo_reports st) (lo_findings st) (lo_diffs st))
      else
        let '(o, tracker) := ObserveCardinality walk tenant source eventType dimension value now (lo_shadow st) in
        (Ok o, mkLocal (lo_active st) tracker (lo_reports st) (lo_findings st) (lo_diffs st))
  | qReserve key now interval =>
      let '(granted, reports) := reserveReportInterval key now interval (lo_reports st) in
      (granted, mkLocal (lo_active st) (lo_shadow st) reports (lo_findings st) (lo_diffs st))
  | qFinding _ => (Ok tt, mkLocal (lo_active st) (lo_shadow st) (lo_reports st) (lo_findings st + 1) (lo_diffs st))
  | qBudget _ => (Ok tt, st)
  | qDiff _ => (Ok tt, mkLocal (lo_active st) (lo_shadow st) (lo_reports st) (lo_findings st) (lo_diffs st + 1))
  | qQuarantine _ _ => (Ok tt, st)
  end.

Fixpoint interp {A} (clock : time) (p : proc Policy.ans A) (st : Local) : A * Local :=
  match p with
  | Return a => (a, st)
  | Call c k => let '(x, st) := answer clock c st in interp clock (k x) st
  end.

End local.

(** [NewEngine]: an engine with trackers of its own. *)
Definition NewEngine (active : Policy) (shadow : option Policy) (recorder : bool) (maxDimensions : Z)
  : result (Engine * Local) :=
  match NewEngineWithTrackers active shadow recorder maxDimensions with
  | Err e => Err e
  | Ok (engine, reports) => Ok (engine, mkLocal (NewTracker maxDimensions) (NewTracker maxDimensions) reports 0 0)
  end.

(** ** Replays *)

Record Run := mkRun {
  run_ID : string;
  run_IncidentID : string;
  run_Mode : string;
  run_Status : string;
  run_ActivePolicy : string;
  run_ActiveVersion : string;
  run_ShadowPolicy : string;
  run_ShadowVersion : string;
  run_OutputTopic : string;
  run_StartedAt : time;
  run_CompletedAt : option time;
  run_EventCount : Z;
  run_ChangedEventCount : Z;
  run_DroppedTagCount : Z;
  run_QuarantinedCount : Z;
  run_FindingCount : Z;
  run_ShadowDiffCount : Z;
  run_PublishedCount : Z;
  run_Error : option error;
}.

Record EventResult := mkEventResult {
  er_RunID : string;
  er_EventID : string;
  er_Changed : bool;
  er_DroppedTagCount : Z;
  er_Quarantined : bool;
  er_FindingCount : Z;
  er_ShadowDiffCount : Z;
}.

Record Options := mkOptions {
  op_IncidentID : string;
  op_ActivePolicy : Policy;
  op_ShadowPolicy : option Policy;
  op_MaxEvents : Z;
  op_MaxDimensions : Z;
  op_PublishTopic : string;
  op_Publisher : bool;
}.

Inductive call : Type :=
  | pNow
  | pRandom
  | pStart (run : Run)
  | pEvents (incidentID : string) (limit : Z)
  | pRecord (outcome : EventResult)
  | pPublish (topic : string) (event : Event)
  | pComplete (run : Run).

Definition ans (c : call) : Type :=
  match c with
  | pNow => time
  | pRandom => result bytes
  | pEvents _ _ => result (list Event)
  | _ => result unit
  end.

Abbreviation P := (proc ans).

Definition count_true (b : bool) : Z := if b then 1 else 0.

Definition droppedTags (before after : gmap string string) : Z :=
  zlen (filter (fun key => has_prefix key "telemetryforge." = false /\ after !! key = None) (fst <$> map_to_list before)).

(** The counters after one more event. *)
Definition count_event (r : EventResult) (run : Run) : Run :=
  mkRun (run_ID run) (run_IncidentID run) (run_Mode run) (run_Status run) (run_ActivePolicy run) (run_ActiveVersion run)
    (run_ShadowPolicy run) (run_ShadowVersion run) (run_OutputTopic run) (run_StartedAt run) (run_CompletedAt run)
    (run_EventCount run + 1) (run_ChangedEventCount run + count_true (er_Changed r))
    (run_DroppedTagCount run + er_DroppedTagCount r) (run_QuarantinedCount run + count_true (er_Quarantined r))
    (run_FindingCount run + er_FindingCount r) (run_ShadowDiffCount run + er_ShadowDiffCount r) (run_PublishedCount run)
    (run_Error run).

Definition count_published (run : Run) : Run :=
  mkRun (run_ID run) (run_IncidentID run) (run_Mode run) (run_Status run) (run_ActivePolicy run) (run_ActiveVersion run)
    (run_ShadowPolicy run) (run_ShadowVersion run) (run_OutputTopic run) (run_StartedAt run) (run_CompletedAt run)
    (run_EventCount run) (run_ChangedEventCount run) (run_DroppedTagCount run) (run_QuarantinedCount run)
    (run_FindingCount run) (run_ShadowDiffCount run) (run_PublishedCount run + 1) (run_Error run).

(** The deferred completion. *)
Definition complete (completed : time) (err : option error) (run : Run) : Run :=
  mkRun (run_ID run) (run_IncidentID run) (run_Mode run) (match err with Some _ => "failed" | None => "completed" end)
    (run_ActivePolicy run) (run_ActiveVersion run) (run_ShadowPolicy run) (run_ShadowVersion run) (run_OutputTopic run)
    (run_StartedAt run) (Some completed) (run_EventCount run) (run_ChangedEventCount run) (run_DroppedTagCount run)
    (run_QuarantinedCount run) (run_FindingCount run) (run_ShadowDiffCount run) (run_PublishedCount run)
    (match err with Some e => Some e | None => run_Error run end).

Section runner.
Variable walk : gmap dimensionKey cardinalityState -> list (dimensionKey * cardinalityState).

(** [newRunID]. *)
Definition newRunID (prefix : string) : P (result string) :=
  raw ← (Proc.call pRandom : P (result bytes));
  match raw with
  | Err e => mret (Err (ErrWrap "generate run id" e))
  | Ok raw => now ← (Proc.call pNow : P time);
              mret (Ok (prefix +:+ "-" +:+ format_d (unix_milli now) +:+ "-" +:+ hex_encode raw))
  end.

Definition replay_tags (run : Run) (event : Event) : Event :=
  with_tags event (<["telemetryforge.replay_incident" := run_IncidentID run]>
                     (<["telemetryforge.replay_run" := run_ID run]> (ev_Tags event))).

(** The body of the loop: the run so far with the error that ends it, if any. *)
Fixpoint replay_loop (engine : Engine) (topic : string) (events : list Event) (st : Local) (run : Run)
  : P (Run * option error) :=
  match events with
  | [] => mret (run, None)
  | original :: events' =>
      '(normalized, err) ← Normalizer_Process original;
      match err with
      | Some e => mret (run, Some (ErrWrap "normalize event" e))
      | None =>
          clock ← (if is_zero (ev_Timestamp normalized) then Proc.call pNow else mret 0 : P time);
          let '(evaluated, st') := interp walk clock (EvaluateAt engine normalized (ev_Timestamp normalized)) st in
          match evaluated with
          | Err e => mret (run, Some (ErrWrap "evaluate event" e))
          | Ok processed =>
              let dropped := droppedTags (ev_Tags normalized) (ev_Tags processed) in
              let quarantined := IsQuarantined processed in
              let changed := (0 <? dropped) || quarantined || negb (bool_decide (ev_Source normalized = ev_Source processed)) ||
                             negb (bool_decide (ev_Type normalized = ev_Type processed)) in
              let outcome := mkEventResult (run_ID run) (ev_ID original) changed dropped quarantined
                              (lo_findings st' - lo_findings st) (lo_diffs st' - lo_diffs st) in
              r ← (Proc.call (pRecord outcome) : P (result unit));
              match r with
              | Err e => mret (run, Some (ErrWrap "record replay result" e))
              | Ok _ =>
                  let run := count_event outcome run in
                  if bool_decide (topic = "") then replay_loop engine topic events' st' run
                  else
                    r ← (Proc.call (pPublish topic (replay_tags run processed)) : P (result unit));
                    match r with
                    | Err e => mret (run, Some (ErrWrap "publish replay event" e))
                    | Ok _ => replay_loop engine topic events' st' (count_published run)
                    end
              end
          end
      end
  end.

(** From loading the events to the end of the loop. *)
Definition replay_events (options : Options) (topic : string) (maxEvents maxDimensions : Z) (run : Run)
  : P (Run * option error) :=
  r ← (Proc.call (pEvents (op_IncidentID options) maxEvents) : P (result (list Event)));
  match r with
  | Err e => mret (run, Some (ErrWrap "load incident events" e))
  | Ok [] => mret (run, Some (ErrMsg "incident contains no replayable events"))
  | Ok events =>
      match NewEngine (op_ActivePolicy options) (op_ShadowPolicy options) true maxDimensions with
      | Err e => mret (run, Some e)
      | Ok (engine, st) => replay_loop engine topic events st run
      end
  end.

(** The guards, with the topic to publish to. *)
Definition check_options (options : Options) : result string :=
  if blank (op_IncidentID options) then Err (ErrMsg "incident id is required")
  else match Validate (op_ActivePolicy options) with
  | Err e => Err (ErrWrap "active policy" e)
  | Ok _ =>
      match match op_ShadowPolicy options with Some p => Validate p | None => Ok tt end with
      | Err e => Err (ErrWrap "shadow policy" e)
      | Ok _ =>
          if bool_decide (op_PublishTopic options = "") then Ok ""
          else let topic := trim_space (op_PublishTopic options) in
               if negb (bool_decide (topic = "telemetry.replay")) && negb (has_prefix topic "telemetry.replay.")
               then Err (ErrMsg "replay publish topic is outside the telemetry.replay namespace")
               else if negb (op_Publisher options) then Err (ErrMsg "publisher is required when publish topic is set")
               else Ok topic
      end
  end.

Definition start_run (options : Options) (runID topic : string) (now : time) : Run :=
  mkRun runID (op_IncidentID options) (if bool_decide (topic = "") then "analysis" else "analysis+publish") "running"
    (p_Name (op_ActivePolicy options)) (p_Version (op_ActivePolicy options))
    (match op_ShadowPolicy options with Some p => p_Name p | None => "" end)
    (match op_ShadowPolicy options with Some p => p_Version p | None => "" end)
    topic now None 0 0 0 0 0 0 0 None.

Definition zero_run : Run := mkRun "" "" "" "" "" "" "" "" "" 0 None 0 0 0 0 0 0 0 None.

Definition Runner_Run (options : Options) : P (Run * option error) :=
  match check_options options with
  | Err e => mret (zero_run, Some e)
  | Ok topic =>
      let maxEvents := if (op_MaxEvents options <? 1) || (100000 <? op_MaxEvents options) then 10000 else op_MaxEvents options in
      let maxDimensions := if op_MaxDimensions options <? 1 then 20000 else op_MaxDimensions options in
      id ← newRunID "RPL";
      match id with
      | Err e => mret (zero_run, Some e)
      | Ok runID =>
          now ← (Proc.call pNow : P time);
          let run := start_run options runID topic now in
          r ← (Proc.call (pStart run) : P (result unit));
          match r with
          | Err e => mret (zero_run, Some (ErrWrap "start replay history" e))
          | Ok _ =>
              '(run, err) ← replay_events options topic maxEvents maxDimensions run;
              completed ← (Proc.call pNow : P time);
              let run := complete completed err run in
              r ← (Proc.call (pComplete run) : P (result unit));
              mret (run, match r, err with
                         | Err e, None => Some (ErrWrap "complete replay history" e)
                         | _, _ => err
                         end)
          end
      end
  end.

End runner.

(** ** What a replay promises *)

Definition in_namespace (topic : string) : Prop := topic = "telemetry.replay" \/ has_prefix topic "telemetry.replay." = true.

(** The results the repository has accepted, and the events published, in a run. *)
Definition recorded (t : list (obs ans)) : list EventResult :=
  omap (fun o => match o with
                 | existT c x => match c return ans c -> option EventResult with
                                 | pRecord outcome => fun r => match r with Ok _ => Some outcome | Err _ => None end
                                 | _ => fun _ => None
                                 end x
                 end) t.

Definition published (t : list (obs ans)) : list (string * Event) :=
  omap (fun o => match o with
                 | existT c x => match c return ans c -> option (string * Event) with
                                 | pPublish topic event => fun r => match r with Ok _ => Some (topic, event) | Err _ => None end
                                 | _ => fun _ => None
                                 end x
                 end) t.

Definition total {A} (f : A -> Z) (l : list A) : Z := foldr (fun x n => f x + n) 0 l.

(** The counters of [run] are those of [run0] plus what the results and the publications
    add; nothing else that identifies the run has changed. *)
Definition added (run0 : Run) (outcomes : list EventResult) (publications : Z) (run : Run) : Prop :=
  run_ID run = run_ID run0 /\ run_IncidentID run = run_IncidentID run0 /\
  run_EventCount run = run_EventCount run0 + zlen outcomes /\
  run_ChangedEventCount run = run_ChangedEventCount run0 + total (fun r => count_true (er_Changed r)) outcomes /\
  run_DroppedTagCount run = run_DroppedTagCount run0 + total er_DroppedTagCount outcomes /\
  run_QuarantinedCount run = run_QuarantinedCount run0 + total (fun r => count_true (er_Quarantined r)) outcomes /\
  run_FindingCount run = run_FindingCount run0 + total er_FindingCount outcomes /\
  run_ShadowDiffCount run = run_ShadowDiffCount run0 + total er_ShadowDiffCount outcomes /\
  run_PublishedCount run = run_PublishedCount run0 + publications.

(** What the calls of the loop may be: events go to the topic of the replay only, marked
    with the run and its incident. *)
Definition loop_call (topic : string) (run : Run) (o : obs ans) : Prop :=
  match projT1 o with
  | pPublish topic' event =>
      topic' = topic /\ topic <> "" /\ ev_Tags event !! "telemetryforge.replay_run" = Some (run_ID run) /\
      ev_Tags event !! "telemetryforge.replay_incident" = Some (run_IncidentID run)
  | pStart _ | pComplete _ => False
  | _ => True
  end.

Lemma added_refl run : added run [] 0 run.
Proof. unfold added, total, zlen. cbn. split_and!; lia || done. Qed.

Lemma added_event run0 outcome outcomes n run :
  added (count_event outcome run0) outcomes n run -> added run0 (outcome :: outcomes) n run.
Proof.
  unfold added, zlen. cbn [run_ID run_IncidentID run_EventCount run_ChangedEventCount run_DroppedTagCount run_QuarantinedCount
    run_FindingCount run_ShadowDiffCount run_PublishedCount count_event total foldr length].
  intros (-> & -> & -> & -> & -> & -> & -> & -> & ->). fold (total (A := EventResult)). unfold total. split_and!; lia || done.
Qed.

Lemma added_published run0 outcomes n run :
  added (count_published run0) outcomes n run -> added run0 outcomes (1 + n) run.
Proof.
  unfold added. cbn. intros (-> & -> & -> & -> & -> & -> & -> & -> & ->). split_and!; lia || done.
Qed.

Lemma replay_tags_marked run event :
  ev_Tags (replay_tags run event) !! "telemetryforge.replay_run" = Some (run_ID run) /\
  ev_Tags (replay_tags run event) !! "telemetryforge.replay_incident" = Some (run_IncidentID run).
Proof. cbn. by rewrite lookup_insert_ne, !lookup_insert_eq by done. Qed.

Lemma normalizer_quiet event t r : runs (Normalizer_Process (ans := ans) event) t r -> t = [].
Proof. unfold Normalizer_Process. destruct (_ || _); by intros [-> _]. Qed.

Section spec.
Variable walk : gmap dimensionKey cardinalityState -> list (dimensionKey * cardinalityState).

Lemma replay_loop_spec engine topic events : forall st run0 t run err,
  runs (replay_loop walk engine topic events st run0) t (run, err) ->
  added run0 (recorded t) (zlen (published t)) run /\ Forall (loop_call topic run0) t /\
  (err = None -> zlen (recorded t) = zlen events).
Proof.
  induction events as [|original events IH]; intros st run0 t run err; cbn [replay_loop].
  { intros [-> [= -> ->]]. split; [apply added_refl|]. split; [constructor|done]. }
  rewrite runs_bind. intros ([normalized nerr] & t1 & t2 & -> & ->%normalizer_quiet & H).
  destruct nerr as [e|]. { destruct H as [-> [= -> ->]]. split; [apply added_refl|]. split; [constructor|done]. }
  apply runs_bind in H as (clock & t3 & t4 & -> & Hclock & H).
  assert (recorded t3 = [] /\ published t3 = [] /\ Forall (loop_call topic run0) t3) as (Hr3 & Hp3 & Hl3).
  { destruct (is_zero _); cbn in Hclock; [destruct Hclock as (x & t' & -> & [-> _])|destruct Hclock as [-> _]]; by repeat constructor. }
  unfold recorded, published in *. cbn [app]. rewrite !omap_app, Hr3, Hp3. cbn [app]. rewrite Forall_app.
  destruct (interp _ _ _ _) as [[processed|e] st'].
  2:{ destruct H as [-> [= -> ->]]. split; [apply added_refl|]. split; [by repeat constructor|done]. }
  cbv zeta in H. set (outcome := mkEventResult _ _ _ _ _ _ _) in H.
  destruct H as ([[]|e] & t5 & -> & H).
  2:{ destruct H as [-> [= -> ->]]. split; [apply added_refl|]. split; [by repeat constructor|done]. }
  cbn [omap list_omap observe]. case_bool_decide as Htopic.
  - apply IH in H as (Ha & Hl & Hn). split; [by apply added_event|]. split; [|intros He; specialize (Hn He); unfold zlen in Hn |- *; cbn [length]; lia].
    split; [done|]. constructor; [done|]. exact Hl.
  - destruct H as ([[]|e] & t6 & -> & H); cbn [omap list_omap observe].
    + apply IH in H as (Ha & Hl & Hn). split; [apply added_event; unfold zlen; cbn [length]; rewrite Nat2Z.inj_succ, <- Z.add_1_l; by apply added_published|].
      split; [|intros He; specialize (Hn He); unfold zlen in Hn |- *; cbn [length]; lia]. split; [done|]. constructor; [done|]. constructor; [|exact Hl].
      cbn. split; [done|]. split; [done|]. apply replay_tags_marked.
    + destruct H as [-> [= -> ->]]. split; [apply added_event, added_refl|]. split; [|done]. split; [done|].
      constructor; [done|]. constructor; [|constructor]. cbn. split; [done|]. split; [done|]. apply replay_tags_marked.
Qed.

End spec.

Lemma recorded_app t t' : recorded (t ++ t') = recorded t ++ recorded t'.
Proof. apply omap_app. Qed.

Lemma published_app t t' : published (t ++ t') = published t ++ published t'.
Proof. apply omap_app. Qed.

Lemma check_options_topic options topic : check_options options = Ok topic ->
  topic = "" \/ in_namespace topic /\ op_PublishTopic options <> "".
Proof.
  unfold check_options. destruct (blank _); [done|]. destruct (Validate _); [|done].
  destruct (match op_ShadowPolicy options with Some p => Validate p | None => Ok tt end); [|done]. case_bool_decide as Hne; [by intros [= <-]; left|].
  destruct (_ && _) eqn:E; [done|]. destruct (negb (op_Publisher options)); [done|]. intros [= <-]. right. split; [|done].
  unfold in_namespace. apply andb_false_iff in E as [E|E]; apply negb_false_iff in E; [left; by apply bool_decide_eq_true in E|by right].
Qed.

Section run.
Variable walk : gmap dimensionKey cardinalityState -> list (dimensionKey * cardinalityState).

(** The calls before a run is recorded as started. *)
Definition preamble (o : obs ans) : Prop :=
  match o with
  | existT c x => match c return ans c -> Prop with
                  | pNow | pRandom => fun _ => True
                  | pStart _ => fun r => r <> Ok tt
                  | _ => fun _ => False
                  end x
  end.

Lemma newRunID_preamble prefix t r : runs (newRunID prefix) t r -> Forall preamble t.
Proof.
  unfold newRunID. cbn. intros ([raw|e] & t1 & -> & H); [cbn in H; destruct H as (now & t2 & -> & [-> _])|destruct H as [-> _]];
    by repeat constructor.
Qed.

Lemma preamble_silent t : Forall preamble t -> recorded t = [] /\ published t = [].
Proof. induction 1 as [|[[] x] t Ho _ [IH1 IH2]]; cbn in *; try done; rewrite IH1, IH2; done. Qed.

Lemma replay_events_spec options topic maxEvents maxDimensions run0 t run err :
  runs (replay_events walk options topic maxEvents maxDimensions run0) t (run, err) ->
  added run0 (recorded t) (zlen (published t)) run /\ Forall (loop_call topic run0) t /\
  (err = None -> exists events, observe (ans := ans) (pEvents (op_IncidentID options) maxEvents) (Ok events) ∈ t /\
                   zlen (recorded t) = zlen events).
Proof.
  unfold replay_events. cbn. intros ([[|event events]|e] & t1 & -> & H).
  1, 3: destruct H as [-> [= -> ->]]; cbn; split; [apply added_refl|]; split; [by repeat constructor|done].
  destruct (NewEngine _ _ _ _) as [[engine st]|e].
  - apply replay_loop_spec in H as (Ha & Hl & Hn). split; [exact Ha|]. split; [by constructor|].
    intros He. exists (event :: events). split; [left|by apply Hn].
  - destruct H as [-> [= -> ->]]. cbn. split; [apply added_refl|]. split; [by repeat constructor|done].
Qed.

(** How a run of the program ends: refused, or started and completed. *)
Lemma Runner_Run_cases options t run err :
  runs (Runner_Run walk options) t (run, err) ->
  (run = zero_run /\ err <> None /\ Forall preamble t) \/
  exists topic ti run0 tl run1 err1 completed x limit,
    check_options options = Ok topic /\ Forall preamble ti /\
    t = ti ++ observe (ans := ans) (pStart run0) (Ok tt) :: tl ++ [observe pNow completed; observe (pComplete run) x] /\
    added run0 [] 0 (start_run options (run_ID run0) topic (run_StartedAt run0)) /\
    added run0 (recorded tl) (zlen (published tl)) run1 /\ Forall (loop_call topic run0) tl /\
    (err1 = None -> exists events, observe (ans := ans) (pEvents (op_IncidentID options) limit) (Ok events) ∈ tl /\
                      zlen (recorded tl) = zlen events) /\
    run = complete completed err1 run1 /\ (err = None -> err1 = None) /\ (err1 <> None -> err <> None) /\
    limit = if (op_MaxEvents options <? 1) || (100000 <? op_MaxEvents options) then 10000 else op_MaxEvents options.
Proof.
  unfold Runner_Run. destruct (check_options options) as [topic|e] eqn:Ec; [|by intros [-> [= -> ->]]; left].
  cbv zeta. rewrite runs_bind. intros (id & ti & t' & -> & Hid%newRunID_preamble & H).
  destruct id as [runID|e]; [|by destruct H as [-> [= -> ->]]; left; rewrite app_nil_r].
  cbn [mbind proc_mbind proc_bind Proc.call runs] in H. destruct H as (now & t2 & -> & [[]|e] & t3 & -> & H).
  2:{ destruct H as [-> [= -> ->]]. left. split_and!; [done|done|]. apply Forall_app. split; [done|]. by repeat constructor. }
  right. set (run0 := start_run options runID topic now) in *.
  apply runs_bind in H as ([run1 err1] & tl & t4 & -> & Hl & H). destruct H as (completed & t5 & -> & H).
  cbn in H. destruct H as (x & t6 & -> & [-> Hx]). injection Hx as -> ->. apply replay_events_spec in Hl as (Ha & Hl & Hn).
  eexists topic, (ti ++ [observe pNow now]), run0, tl, run1, err1, completed, x, _. split_and!; try done.
  - apply Forall_app. split; [done|]. by repeat constructor.
  - by rewrite <- app_assoc.
  - by destruct x, err1.
  - by destruct x, err1.
Qed.


End run.

(** ** A concrete replay: two events, published for a laboratory *)

Definition demo_options : Options :=
  mkOptions "INC-1" Policy.demo_policy None 0 0 " telemetry.replay.lab " true.

Definition demo_events : list Event := [Policy.demo_tagged; with_tags Policy.demo_tagged {["zone" := "c"]}].

Definition demo_oracle (c : call) : ans c :=
  match c return ans c with
  | pNow => 62135596800 * ns_second
  | pRandom => Ok (to_bytes "random")
  | pEvents _ _ => Ok demo_events
  | pStart _ | pRecord _ | pPublish _ _ | pComplete _ => Ok tt
  end.

Definition demo_replay : list (obs ans) * (Run * option error) :=
  trace_of demo_oracle (Runner_Run map_to_list demo_options).

