(* ===== verification/CostSim.v ===== *)
(** * Cost simulation ([internal/costsim])

    The volume and the number of series of a frozen incident, as it is and under an active
    and a shadow policy, projected to a month.  [Simulate] is a program over the calls to
    the repository, the clock and the random source; the policy engines are those of
    [Replay], in memory and without a recorder.  The length of an event's JSON form is a
    parameter, the constant texts that describe the assumptions are left out, and an error
    stands where the result records its text. *)

From S2P Require Import Prelude GoStrings GoFloat GoTime GoParse Hash Domain Proc.
From S2P Require Import Worker Policy Cardinality Replay.

Local Open Scope string_scope.
Local Open Scope Z_scope.
Local Open Scope list_scope.

Definition secondsPerMonth : Z := 30 * 24 * 60 * 60.

Record Pricing := mkPricing {
  pc_Name : string;
  pc_Currency : string;
  pc_IngestPerGB : float64;
  pc_ActiveSeriesPer1000Month : float64;
}.

Record Profile := mkProfile { pf_Bytes : Z; pf_Series : Z; pf_ChangedEvents : Z }.

Record Simulation := mkSimulation {
  si_ID : string;
  si_IncidentID : string;
  si_ActivePolicy : string;
  si_ActiveVersion : string;
  si_ShadowPolicy : string;
  si_ShadowVersion : string;
  si_PricingModel : string;
  si_Currency : string;
  si_StartedAt : time;
  si_CompletedAt : time;
  si_WindowSeconds : float64;
  si_EventCount : Z;
  si_Baseline : Profile;
  si_Active : Profile;
  si_Shadow : Profile;
  si_MonthlyBaselineGB : float64;
  si_MonthlyActiveGB : float64;
  si_MonthlyShadowGB : float64;
  si_MonthlyCosts : option (float64 * float64 * float64);
  si_Error : option error;
}.

(** ** Series and changes *)

(** The keys that make a series, in order. *)
Definition series_keys (event : Event) : list string :=
  sort_strings (filter (fun key => has_prefix key "telemetryforge." = false) (fst <$> map_to_list (ev_Tags event))).

(** What is hashed. *)
Definition series_text (event : Event) : string :=
  foldl (fun acc key => acc +:+ "|" +:+ key +:+ "=" +:+ default "" (ev_Tags event !! key))
    (ev_Source event +:+ "|" +:+ ev_Type event) (series_keys event).

Definition seriesHash (event : Event) : bytes := sha256 (to_bytes (series_text event)).

Definition eventChanged (before after : Event) : bool :=
  if IsQuarantined after then true
  else if negb (size (ev_Tags before) =? size (ev_Tags after))%nat then true
  else existsb (fun '(key, value) => negb (bool_decide (default "" (ev_Tags after !! key) = value)))
         (map_to_list (ev_Tags before)).

(** [Duration.Seconds], of a difference of times that saturates. *)
Definition sub_saturated (a b : time) : Z := Z.max (- 2 ^ 63) (Z.min (2 ^ 63 - 1) (a - b)).

Definition duration_seconds (d : Z) : float64 :=
  (float_of_int (Z.quot d ns_second) + float_of_int (Z.rem d ns_second) / float_of_int ns_second)%F.

Definition bytesToGB (value : float64) : float64 := (value / float_of_int (1024 * 1024 * 1024))%F.

(** ** The loop over the events *)

Inductive call : Type :=
  | sNow
  | sRandom
  | sEvents (incidentID : string) (limit : Z)
  | sSave (simulation : Simulation).

Definition ans (c : call) : Type :=
  match c with
  | sNow => time
  | sRandom => result bytes
  | sEvents _ _ => result (list Event)
  | sSave _ => result unit
  end.

Abbreviation P := (proc ans).

#[local] Instance byte_countable : Countable Byte.byte := inj_countable Byte.to_N Byte.of_N Byte.of_to_N.

(** One policy's half of the loop: bytes, series, changed events, and its engine. *)
Record Half := mkHalf {
  hf_Bytes : Z;
  hf_Series : gset bytes;
  hf_Changed : Z;
  hf_State : Local;
}.

Record Loop := mkLoop {
  lp_min : time;
  lp_max : time;
  lp_count : Z;
  lp_baselineBytes : Z;
  lp_baselineSeries : gset bytes;
  lp_active : Half;
  lp_shadow : Half;
}.

Section simulate.
Variable walk : gmap dimensionKey cardinalityState -> list (dimensionKey * cardinalityState).
Variable canonicalBytes : Event -> Z.

(** An event without a time is evaluated at the current one. *)
Definition evaluate_half (engine : Engine) (normalized : Event) (h : Half) : P (result Half) :=
  clock ← (if is_zero (ev_Timestamp normalized) then Proc.call sNow else mret 0 : P time);
  let '(r, st) := interp walk clock (EvaluateAt engine normalized (ev_Timestamp normalized)) (hf_State h) in
  mret (match r with
        | Err e => Err e
        | Ok event => Ok (mkHalf (hf_Bytes h + canonicalBytes event) ({[seriesHash event]} ∪ hf_Series h)
                            (hf_Changed h + count_true (eventChanged normalized event)) st)
        end).

(** Without a shadow policy the shadow profile is the baseline's. *)
Definition shadow_half (engine : option Engine) (normalized : Event) (h : Half) : P (result Half) :=
  match engine with
  | Some engine => evaluate_half engine normalized h
  | None => mret (Ok (mkHalf (hf_Bytes h + canonicalBytes normalized) ({[seriesHash normalized]} ∪ hf_Series h)
                        (hf_Changed h) (hf_State h)))
  end.

Definition set_times (event : Event) (l : Loop) : Loop :=
  mkLoop (Z.min (lp_min l) (ev_Timestamp event)) (Z.max (lp_max l) (ev_Timestamp event)) (lp_count l)
    (lp_baselineBytes l) (lp_baselineSeries l) (lp_active l) (lp_shadow l).
Definition add_baseline (normalized : Event) (l : Loop) : Loop :=
  mkLoop (lp_min l) (lp_max l) (lp_count l) (lp_baselineBytes l + canonicalBytes normalized)
    ({[seriesHash normalized]} ∪ lp_baselineSeries l) (lp_active l) (lp_shadow l).
Definition set_active (h : Half) (l : Loop) : Loop :=
  mkLoop (lp_min l) (lp_max l) (lp_count l) (lp_baselineBytes l) (lp_baselineSeries l) h (lp_shadow l).
Definition set_shadow (h : Half) (l : Loop) : Loop :=
  mkLoop (lp_min l) (lp_max l) (lp_count l + 1) (lp_baselineBytes l) (lp_baselineSeries l) (lp_active l) h.

(** The loop, with the error that ends it, if any. *)
Fixpoint simulate_loop (active : Engine) (shadow : option Engine) (events : list Event) (l : Loop) : P (Loop * option error) :=
  match events with
  | [] => mret (l, None)
  | event :: events' =>
      '(normalized, err) ← Normalizer_Process event;
      match err with
      | Some e => mret (l, Some e)
      | None =>
          let l := add_baseline normalized (set_times event l) in
          r ← evaluate_half active normalized (lp_active l);
          match r with
          | Err e => mret (l, Some e)
          | Ok h =>
              let l := set_active h l in
              r ← shadow_half shadow normalized (lp_shadow l);
              match r with
              | Err e => mret (l, Some e)
              | Ok h => simulate_loop active shadow events' (set_shadow h l)
              end
          end
      end
  end.

(** ** The simulation *)

Definition with_profiles (baseline active shadow : Profile) (count : Z) (s : Simulation) : Simulation :=
  mkSimulation (si_ID s) (si_IncidentID s) (si_ActivePolicy s) (si_ActiveVersion s) (si_ShadowPolicy s) (si_ShadowVersion s)
    (si_PricingModel s) (si_Currency s) (si_StartedAt s) (si_CompletedAt s) (si_WindowSeconds s) count baseline active shadow
    (si_MonthlyBaselineGB s) (si_MonthlyActiveGB s) (si_MonthlyShadowGB s) (si_MonthlyCosts s) (si_Error s).

(** A loop that fails has added bytes and changes; the series are counted after it. *)
Definition partial (l : Loop) : Simulation -> Simulation :=
  with_profiles (mkProfile (lp_baselineBytes l) 0 0) (mkProfile (hf_Bytes (lp_active l)) 0 (hf_Changed (lp_active l)))
    (mkProfile (hf_Bytes (lp_shadow l)) 0 (hf_Changed (lp_shadow l))) (lp_count l).

Definition half_profile (h : Half) : Profile := mkProfile (hf_Bytes h) (Z.of_nat (size (hf_Series h))) (hf_Changed h).

(** The totals and the projection. *)
Definition project (pricing : option Pricing) (l : Loop) (s : Simulation) : Simulation :=
  let baseline := mkProfile (lp_baselineBytes l) (Z.of_nat (size (lp_baselineSeries l))) 0 in
  let active := half_profile (lp_active l) in
  let shadow := half_profile (lp_shadow l) in
  let window := duration_seconds (sub_saturated (lp_max l) (lp_min l)) in
  let window := if (window <? float_one)%F then float_one else window in
  let scale := (float_of_int secondsPerMonth / window)%F in
  let gb p := bytesToGB (float_of_int (pf_Bytes p) * scale)%F in
  let costs :=
    match pricing with
    | Some p =>
        if (pc_IngestPerGB p >? float_zero)%F || (pc_ActiveSeriesPer1000Month p >? float_zero)%F then
          let cost pf := (gb pf * pc_IngestPerGB p + float_of_int (pf_Series pf) / float_of_int 1000 *
                          pc_ActiveSeriesPer1000Month p)%F in
          Some (cost baseline, cost active, cost shadow)
        else None
    | None => None
    end in
  mkSimulation (si_ID s) (si_IncidentID s) (si_ActivePolicy s) (si_ActiveVersion s) (si_ShadowPolicy s) (si_ShadowVersion s)
    (si_PricingModel s) (si_Currency s) (si_StartedAt s) (si_CompletedAt s) window (lp_count l) baseline active shadow
    (gb baseline) (gb active) (gb shadow) costs (si_Error s).

Definition start_simulation (id incidentID : string) (active : Policy) (shadow : option Policy) (pricing : option Pricing)
    (now : time) : Simulation :=
  mkSimulation id incidentID (p_Name active) (p_Version active)
    (match shadow with Some p => p_Name p | None => "" end) (match shadow with Some p => p_Version p | None => "" end)
    (match pricing with Some p => pc_Name p | None => "" end) (match pricing with Some p => pc_Currency p | None => "" end)
    now 0 float_zero 0 (mkProfile 0 0 0) (mkProfile 0 0 0) (mkProfile 0 0 0) float_zero float_zero float_zero None None.

Definition zero_simulation : Simulation :=
  mkSimulation "" "" "" "" "" "" "" "" 0 0 float_zero 0 (mkProfile 0 0 0) (mkProfile 0 0 0) (mkProfile 0 0 0)
    float_zero float_zero float_zero None None.

(** [simulationID]. *)
Definition simulationID : P (result string) :=
  raw ← (Proc.call sRandom : P (result bytes));
  match raw with
  | Err e => mret (Err e)
  | Ok raw => now ← (Proc.call sNow : P time);
              mret (Ok ("COST-" +:+ format_d (unix_milli now) +:+ "-" +:+ hex_encode raw))
  end.

(** The deferred part: when it was completed and with what error. *)
Definition finish_simulation (now : time) (err : option error) (s : Simulation) : Simulation :=
  mkSimulation (si_ID s) (si_IncidentID s) (si_ActivePolicy s) (si_ActiveVersion s) (si_ShadowPolicy s) (si_ShadowVersion s)
    (si_PricingModel s) (si_Currency s) (si_StartedAt s) now (si_WindowSeconds s) (si_EventCount s) (si_Baseline s) (si_Active s)
    (si_Shadow s) (si_MonthlyBaselineGB s) (si_MonthlyActiveGB s) (si_MonthlyShadowGB s) (si_MonthlyCosts s)
    (match err with Some e => Some e | None => si_Error s end).

Definition first_loop (event : Event) (active shadow : Local) : Loop :=
  mkLoop (ev_Timestamp event) (ev_Timestamp event) 0 0 ∅ (mkHalf 0 ∅ 0 active) (mkHalf 0 ∅ 0 shadow).

(** From loading the events to the projection. *)
Definition simulate_events (incidentID : string) (active : Policy) (shadow : option Policy) (pricing : option Pricing)
    (maxEvents : Z) (s : Simulation) : P (Simulation * option error) :=
  r ← (Proc.call (sEvents incidentID maxEvents) : P (result (list Event)));
  match r with
  | Err e => mret (s, Some (ErrWrap "load incident events" e))
  | Ok [] => mret (s, Some (ErrMsg "incident contains no events"))
  | Ok (event :: events) =>
      match NewEngine active None false 20000 with
      | Err e => mret (s, Some e)
      | Ok (activeEngine, activeState) =>
          match match shadow with
                | None => Ok (None, activeState)
                | Some policy => match NewEngine policy None false 20000 with
                                 | Err e => Err e
                                 | Ok (engine, st) => Ok (Some engine, st)
                                 end
                end with
          | Err e => mret (s, Some e)
          | Ok (shadowEngine, shadowState) =>
              '(l, err) ← simulate_loop activeEngine shadowEngine (event :: events) (first_loop event activeState shadowState);
              mret (match err with Some e => (partial l s, Some e) | None => (project pricing l s, None) end)
          end
      end
  end.

Definition Simulate (incidentID : string) (active : Policy) (shadow : option Policy) (pricing : option Pricing) (maxEvents : Z)
  : P (Simulation * option error) :=
  if blank incidentID then mret (zero_simulation, Some (ErrMsg "incident id is required"))
  else match Validate active with
  | Err e => mret (zero_simulation, Some (ErrWrap "active policy" e))
  | Ok _ =>
      match match shadow with Some p => Validate p | None => Ok tt end with
      | Err e => mret (zero_simulation, Some (ErrWrap "shadow policy" e))
      | Ok _ =>
          let maxEvents := if (maxEvents <? 1) || (100000 <? maxEvents) then 10000 else maxEvents in
          id ← simulationID;
          match id with
          | Err e => mret (zero_simulation, Some e)
          | Ok id =>
              now ← (Proc.call sNow : P time);
              '(s, err) ← simulate_events incidentID active shadow pricing maxEvents
                            (start_simulation id incidentID active shadow pricing now);
              completed ← (Proc.call sNow : P time);
              let s := finish_simulation completed err s in
              r ← (Proc.call (sSave s) : P (result unit));
              mret (s, match r, err with Err e, None => Some (ErrWrap "save cost simulation" e) | _, _ => err end)
          end
      end
  end.

End simulate.

(** ** Pricing models *)

(** What reading and decoding the pricing file gives. *)
Inductive pricingFile : Type :=
  | PricingUnreadable (e : error)
  | PricingMalformed (e : error)
  | PricingTrailing
  | PricingTrailingMalformed (e : error)
  | PricingDocument (pricing : Pricing).

Definition LoadPricing (file : pricingFile) : result Pricing :=
  match file with
  | PricingUnreadable e => Err (ErrWrap "read pricing" e)
  | PricingMalformed e => Err (ErrWrap "decode pricing" e)
  | PricingTrailing => Err (ErrMsg "pricing contains trailing JSON")
  | PricingTrailingMalformed e => Err (ErrWrap "decode pricing trailing data" e)
  | PricingDocument pricing =>
      if blank (pc_Name pricing) then Err (ErrMsg "pricing name is required")
      else if (pc_IngestPerGB pricing <? float_zero)%F || (pc_ActiveSeriesPer1000Month pricing <? float_zero)%F
      then Err (ErrMsg "pricing values cannot be negative")
      else if ((pc_IngestPerGB pricing >? float_zero)%F || (pc_ActiveSeriesPer1000Month pricing >? float_zero)%F) &&
              blank (pc_Currency pricing)
      then Err (ErrMsg "pricing currency is required when non-zero prices are configured")
      else Ok pricing
  end.

(** ** What a simulation promises *)

Section promises.
Variable walk : gmap dimensionKey cardinalityState -> list (dimensionKey * cardinalityState).
Variable canonicalBytes : Event -> Z.
Implicit Types (events : list Event) (l : Loop) (h : Half).

(** The event the policies see. *)
Definition normal (event : Event) : Event :=
  mkEvent (ev_ID event) (ev_TenantID event) (trim_space (ev_Source event)) (trim_space (ev_Type event)) (ev_Timestamp event)
    (ev_Tags event) (ev_Payload event) (ev_Value event) (ev_Unit event) (ev_SchemaVersion event) (ev_SchemaURL event)
    (ev_CorrelationID event).

Lemma normalizer_normal event t r : runs (Normalizer_Process (ans := ans) event) t r ->
  t = [] /\ (r.2 = None -> r = (normal event, None)).
Proof. unfold Normalizer_Process. destruct (_ || _); intros [-> ->]; done. Qed.

(** A half has no more series and changes than events, and a series if it has an event. *)
Definition half_ok (count : Z) h : Prop :=
  0 <= hf_Changed h <= count /\ Z.of_nat (size (hf_Series h)) <= count /\ (0 < count -> hf_Series h <> ∅).

Definition loop_ok (shadowed : bool) events l : Prop :=
  lp_count l = zlen events /\ lp_baselineBytes l = total (fun e => canonicalBytes (normal e)) events /\
  lp_baselineSeries l = list_to_set ((fun e => seriesHash (normal e)) <$> events) /\
  half_ok (lp_count l) (lp_active l) /\ half_ok (lp_count l) (lp_shadow l) /\
  (shadowed = false -> hf_Bytes (lp_shadow l) = lp_baselineBytes l /\ hf_Series (lp_shadow l) = lp_baselineSeries l /\
     hf_Changed (lp_shadow l) = 0).

Lemma total_snoc {A} (f : A -> Z) (l : list A) x : total f (l ++ [x]) = total f l + f x.
Proof. unfold total. induction l as [|y l IH]; cbn; [lia|]. rewrite IH. lia. Qed.

Lemma half_ok_add count h b s c st : half_ok count h -> 0 <= c <= 1 ->
  half_ok (count + 1) (mkHalf b ({[s]} ∪ hf_Series h) (hf_Changed h + c) st).
Proof.
  intros (Hc & Hs & _) H. unfold half_ok. cbn. split; [lia|]. split.
  - pose proof (size_union_alt {[s]} (hf_Series h)) as Hu. rewrite Hu, size_singleton.
    assert (size (hf_Series h ∖ {[s]}) <= size (hf_Series h))%nat by (apply subseteq_size; set_solver). lia.
  - intros _ He. assert (s ∈ (∅ : gset bytes)) as []%not_elem_of_empty. rewrite <- He. set_solver.
Qed.

Lemma evaluate_half_ok engine normalized h t h' count :
  runs (evaluate_half walk canonicalBytes engine normalized h) t (Ok h') -> half_ok count h -> half_ok (count + 1) h'.
Proof.
  unfold evaluate_half. rewrite runs_bind. intros (clock & t1 & t2 & -> & _ & H) Hh.
  destruct (interp _ _ _ _) as [[event|e] st]; destruct H as [_ H]; [|done]. injection H as ->.
  apply half_ok_add; [done|]. unfold count_true. destruct (eventChanged _ _); lia.
Qed.

Lemma simulate_loop_ok active shadow events : forall done l t l',
  runs (simulate_loop walk canonicalBytes active shadow events l) t (l', None) ->
  loop_ok (if shadow is Some _ then true else false) done l -> loop_ok (if shadow is Some _ then true else false) (done ++ events) l'.
Proof.
  induction events as [|event events IH]; intros past l t l'; cbn [simulate_loop].
  { intros [_ [= ->]] Hl. by rewrite app_nil_r. }
  rewrite runs_bind. intros ([normalized err] & t1 & t2 & -> & [-> Hn]%normalizer_normal & H) Hl.
  destruct err as [e|]; [by destruct H|]. specialize (Hn eq_refl). injection Hn as ->. cbv zeta in H.
  apply runs_bind in H as ([h|e] & t3 & t4 & -> & Ha & H); [|by destruct H].
  apply runs_bind in H as ([h'|e] & t5 & t6 & -> & Hs & H); [|by destruct H].
  apply IH with (done := past ++ [event]) in H; [by rewrite <- app_assoc in H|]. clear IH.
  destruct Hl as (Hc & Hb & Hse & Hact & Hsh & Heq). unfold loop_ok. cbn [lp_count lp_baselineBytes lp_baselineSeries lp_active
    lp_shadow set_shadow set_active add_baseline set_times] in *. split_and!.
  - unfold zlen in *. rewrite length_app. cbn. lia.
  - rewrite total_snoc. by rewrite Hb.
  - rewrite fmap_app, list_to_set_app_L, Hse. cbn. by rewrite union_empty_r_L, union_comm_L.
  - by eapply evaluate_half_ok.
  - destruct shadow as [engine|]; cbn [shadow_half] in Hs; [by eapply evaluate_half_ok|]. destruct Hs as [_ [= ->]].
    pose proof (half_ok_add (lp_count l) (lp_shadow l) (hf_Bytes (lp_shadow l) + canonicalBytes (normal event))
      (seriesHash (normal event)) 0 (hf_State (lp_shadow l)) Hsh) as H0. rewrite Z.add_0_r in H0. apply H0. lia.
  - destruct shadow as [engine|]; [done|]. intros _. destruct (Heq eq_refl) as (E1 & E2 & E3). cbn [shadow_half] in Hs.
    destruct Hs as [_ [= ->]]. cbn. by rewrite E1, E2, E3.
Qed.

(** What the projection says of the events. *)
Definition accounts (shadow : option Policy) events (s : Simulation) : Prop :=
  si_EventCount s = zlen events /\
  pf_Bytes (si_Baseline s) = total (fun e => canonicalBytes (normal e)) events /\
  pf_Series (si_Baseline s) = Z.of_nat (size (list_to_set ((fun e => seriesHash (normal e)) <$> events) : gset bytes)) /\
  1 <= pf_Series (si_Active s) <= zlen events /\ 0 <= pf_ChangedEvents (si_Active s) <= zlen events /\
  1 <= pf_Series (si_Shadow s) <= zlen events /\ 0 <= pf_ChangedEvents (si_Shadow s) <= zlen events /\
  (shadow = None -> si_Shadow s = si_Baseline s).

Lemma half_profile_bounds count h : half_ok count h -> 0 < count ->
  1 <= pf_Series (half_profile h) <= count /\ 0 <= pf_ChangedEvents (half_profile h) <= count.
Proof.
  intros (Hc & Hs & Hn) H. cbn. split; [|lia]. split; [|lia]. specialize (Hn H).
  assert (size (hf_Series h) <> 0%nat); [|lia]. by intros E%size_empty_inv%leibniz_equiv.
Qed.

Lemma project_accounts pricing shadow (engine : option Engine) events l s : (shadow = None -> engine = None) ->
  loop_ok (if engine is Some _ then true else false) events l -> events <> [] -> accounts shadow events (project pricing l s).
Proof.
  intros He (Hc & Hb & Hs & Ha & Hsh & Heq) Hne. assert (0 < lp_count l) as Hp by (destruct events; unfold zlen in *; cbn in *; [done|lia]).
  apply half_profile_bounds in Ha as [], Hsh as []; [|done..]. rewrite Hc in *. unfold accounts, project.
  cbn -[half_profile]. rewrite <- Hs, <- Hb. split_and!; try done; try lia.
  intros ->%He. destruct (Heq eq_refl) as (E1 & E2 & E3). unfold half_profile. by rewrite E1, E2, E3.
Qed.

Lemma simulate_events_accounts incidentID active shadow pricing maxEvents s t s' :
  runs (simulate_events walk canonicalBytes incidentID active shadow pricing maxEvents s) t (s', None) ->
  exists events, observe (ans := ans) (sEvents incidentID maxEvents) (Ok events) ∈ t /\ accounts shadow events s'.
Proof.
  unfold simulate_events. cbn [mbind proc_mbind proc_bind Proc.call runs]. intros (x & t' & -> & H).
  destruct x as [[|event events]|e]; [by destruct H| |by destruct H].
  destruct (NewEngine active _ _ _) as [[engine st]|e]; [|by destruct H].
  destruct (match shadow with None => _ | _ => _ end) as [[engine' st']|e] eqn:E; [|by destruct H].
  apply runs_bind in H as ([l err] & t1 & t2 & -> & H & [-> Hr]).
  destruct err as [e|]; [done|]. injection Hr as ->.
  apply (simulate_loop_ok engine engine' (event :: events) []) in H.
  - exists (event :: events). split; [by left|]. eapply project_accounts; [|exact H|done]. intros ->. by injection E.
  - unfold loop_ok, half_ok. cbn. split_and!; try done; try lia.
Qed.

(** A simulation that succeeds is saved as it is returned, as the last thing it does, and says of the incident's events
    how many they are, their bytes, how many series they have, and for each policy a series count and a number of changed
    events between the bounds they must have. *)
Theorem simulation_accounts incidentID active shadow pricing maxEvents t s err :
  runs (Simulate walk canonicalBytes incidentID active shadow pricing maxEvents) t (s, err) ->
  (err = None -> exists limit events, observe (ans := ans) (sEvents incidentID limit) (Ok events) ∈ t /\ 1 <= limit <= 100000 /\
     accounts shadow events s /\ exists t', t = t' ++ [observe (ans := ans) (sSave s) (Ok tt)]).
Proof.
  unfold Simulate. destruct (blank _); [by intros [_ [= -> ->]]|].
  destruct (Validate active); [|by intros [_ [= -> ->]]]. destruct (match shadow with Some p => _ | None => _ end); [|by intros [_ [= -> ->]]].
  cbv zeta. set (limit := if _ || _ then 10000 else maxEvents).
  assert (1 <= limit <= 100000) as Hlimit by (subst limit; destruct (Z.ltb_spec maxEvents 1), (Z.ltb_spec 100000 maxEvents); cbn; lia).
  rewrite runs_bind. intros ([id|e] & t1 & t2 & -> & _ & H); [|by destruct H as [_ [= -> ->]]].
  cbn [mbind proc_mbind proc_bind Proc.call runs] in H. destruct H as (now & t3 & -> & H).
  apply runs_bind in H as ([s' err'] & t4 & t5 & -> & Hs & H).
  cbn [mbind proc_mbind proc_bind Proc.call runs] in H.
  destruct H as (completed & t6 & -> & [[]|e] & t7 & -> & -> & [= -> ->]); destruct err' as [e'|]; try done. intros _.
  apply simulate_events_accounts in Hs as (events & Hin & Hacc). exists limit, events. split_and!.
  - rewrite !elem_of_app. right. right. apply elem_of_app. by left.
  - lia.
  - lia.
  - exact Hacc.
  - exists (t1 ++ observe (ans := ans) sNow now :: t4 ++ [observe (ans := ans) sNow completed]). rewrite <- !app_assoc. cbn.
    by rewrite <- app_assoc.
Qed.

End promises.

(** Two different series with one hash, although the result calls its series count exact. *)
Lemma series_conflated :
  let event tags := mkEvent "e" "t" "api" "latency" 1 tags [] None "" "1" "" "" in
  let b := event {["zone" := "b"; "pod" := "p1"]} in
  let c := event {["pod" := "p1|zone=b"]} in
  ev_Tags b <> ev_Tags c /\ seriesHash b = seriesHash c.
Proof. cbv zeta. split; [by vm_compute|]. unfold seriesHash. f_equal. Qed.
