(* ===== verification/Incident.v ===== *)
(** * Automatic incident detection ([internal/incident/detector.go])

    A latency sample above its threshold, or too many errors of one source within a window,
    freezes the flight recorder once per cooldown.  The error and cooldown tables are shared
    by the goroutines of the worker and guarded by a mutex: each locked section is one
    operation on [Detector] ([recordError], [reserve], [release]), and [Observe] is a program
    whose calls are the clock, the locked sections and the freezer.  A range over a Go map
    visits it in an order given as an argument, [walk].  [Duration]s are nanoseconds; times do
    not leave the range of [time.Time]. *)

From S2P Require Import Prelude GoStrings GoFloat GoPath GoTime GoParse Domain Proc.
From S2P Require Import Security.

Local Open Scope string_scope.
Local Open Scope Z_scope.
Local Open Scope list_scope.

Definition defaultMaxTrackedSources : Z := 10000.

Record Config := mkConfig {
  cf_LatencyThresholdMS : float64;
  cf_ErrorThreshold : Z;
  cf_ErrorWindow : Z;
  cf_FreezeLookback : Z;
  cf_Cooldown : Z;
  cf_MaxTrackedSources : Z;
}.

Definition DefaultConfig : Config :=
  mkConfig (float_of_int 1000) 5 ns_minute (15 * ns_minute) (10 * ns_minute) defaultMaxTrackedSources.

Record Detector := mkDetector {
  dt_config : Config;
  dt_errors : gmap string (list time);
  dt_lastTrigger : gmap string time;
}.

Definition set_errors (errors : gmap string (list time)) (d : Detector) : Detector :=
  mkDetector (dt_config d) errors (dt_lastTrigger d).
Definition set_triggers (triggers : gmap string time) (d : Detector) : Detector :=
  mkDetector (dt_config d) (dt_errors d) triggers.

(** The cooldown has no default. *)
Definition NewDetector (config : Config) : Detector :=
  mkDetector (mkConfig
    (if (cf_LatencyThresholdMS config <=? float_zero)%F then cf_LatencyThresholdMS DefaultConfig else cf_LatencyThresholdMS config)
    (if cf_ErrorThreshold config <? 1 then cf_ErrorThreshold DefaultConfig else cf_ErrorThreshold config)
    (if cf_ErrorWindow config <=? 0 then cf_ErrorWindow DefaultConfig else cf_ErrorWindow config)
    (if cf_FreezeLookback config <=? 0 then cf_FreezeLookback DefaultConfig else cf_FreezeLookback config)
    (cf_Cooldown config)
    (if cf_MaxTrackedSources config <? 1 then cf_MaxTrackedSources DefaultConfig else cf_MaxTrackedSources config))
    ∅ ∅.

(** ** What an event says *)

Definition latencyBreach (config : Config) (event : Event) : option string :=
  match ev_Value event with
  | None => None
  | Some value =>
      if negb (bool_decide (to_lower (ev_Unit event) = "ms")) then None
      else
        let kind := to_lower (ev_Type event) in
        if negb (string_contains kind "latency") && negb (string_contains kind "duration") then None
        else if (value <? cf_LatencyThresholdMS config)%F then None
        else Some ("latency threshold breached: " +:+ format_f1 value +:+ "ms >= " +:+
                   format_f1 (cf_LatencyThresholdMS config) +:+ "ms")
  end.

Definition isError (event : Event) : bool :=
  if string_contains (to_lower (ev_Type event)) "error" then true
  else existsb (fun key =>
         let value := to_lower (default "" (ev_Tags event !! key)) in
         bool_decide (value = "error") || bool_decide (value = "critical") || bool_decide (value = "fatal"))
       ["severity"; "level"].

Definition reasonCategory (reason : string) : string := if has_prefix reason "latency" then "latency" else "errors".

Definition slug_char (c : ascii) : bool := between 97 122 (GoPath.code c) || between 48 57 (GoPath.code c).

(** The loop of [slug], rune by rune; [built] is the builder, reversed.  A rune has at least one byte, so the number of bytes
    is enough fuel ([slug_loop_fuel]). *)
Fixpoint slug_loop (fuel : nat) (s : list ascii) (built : list ascii) : list ascii :=
  match fuel, s with
  | S fuel, c :: s' =>
      let built := if slug_char c then c :: built
                   else match built with [] => built | _ => "-"%char :: built end in
      if 64 <=? zlen built then built else slug_loop fuel (drop (decode_rune s).2 s) built
  | _, _ => built
  end.

Fixpoint drop_dashes (l : list ascii) : list ascii :=
  match l with
  | c :: l' => if bool_decide (c = "-"%char) then drop_dashes l' else l
  | [] => []
  end.

Definition slug (value : string) : string :=
  let value := chars_of_string (to_lower (trim_space value)) in
  let built := slug_loop (length value) value [] in
  let trimmed := string_of_chars (drop_dashes (rev (drop_dashes built))) in
  if bool_decide (trimmed = "") then "unknown" else trimmed.

(** ** The locked sections *)

(** Both eviction loops: the entry with the oldest time, the empty key standing for none. *)
Fixpoint oldest_entry (visited : list (string * time)) (found : string * time) : string * time :=
  match visited with
  | [] => found
  | (key, t) :: visited' =>
      oldest_entry visited' (if bool_decide (found.1 = "") || (t <? found.2) then (key, t) else found)
  end.

Definition evict_found {V} (found : string * time) (m : gmap string V) : gmap string V :=
  if bool_decide (found.1 = "") then m else delete found.1 m.

(** Entries without a timestamp go first. *)
Definition evictOldestErrorSource (visited : list (string * list time)) (errors : gmap string (list time))
  : gmap string (list time) :=
  let stamped := omap (fun kv => t ← last kv.2; Some (kv.1, t)) visited in
  let errors := filter (fun kv => kv.2 <> []) errors in
  evict_found (oldest_entry stamped ("", 0)) errors.

Definition evictOldestTrigger (visited : list (string * time)) (triggers : gmap string time) : gmap string time :=
  evict_found (oldest_entry visited ("", 0)) triggers.

Section locked.
Variable walk_errors : gmap string (list time) -> list (string * list time).
Variable walk_triggers : gmap string time -> list (string * time).

Definition recordError (source : string) (now : time) (d : Detector) : option string * Detector :=
  let config := dt_config d in
  let cutoff := now - cf_ErrorWindow config in
  let kept := filter (fun t => cutoff < t) (default [] (dt_errors d !! source)) in
  let errors := match kept with [] => delete source (dt_errors d) | _ => dt_errors d end in
  let errors := if bool_decide (errors !! source = None) && (cf_MaxTrackedSources config <=? Z.of_nat (size errors))
                then evictOldestErrorSource (walk_errors errors) errors else errors in
  let kept := kept ++ [now] in
  (if zlen kept <? cf_ErrorThreshold config then None
   else Some ("error threshold breached: " +:+ format_d (zlen kept) +:+ " errors within " +:+
              Duration_String (cf_ErrorWindow config)),
   set_errors (<[source := kept]> errors) d).

Definition pruneExpiredTriggers (cooldown : Z) (now : time) (triggers : gmap string time) : gmap string time :=
  if cooldown <=? 0 then ∅ else filter (fun kt => ~ kt.2 < now - cooldown) triggers.

(** The first half of [trigger], under the lock: is the freeze granted? *)
Definition reserve (key : string) (now : time) (d : Detector) : bool * Detector :=
  let config := dt_config d in
  let triggers := pruneExpiredTriggers (cf_Cooldown config) now (dt_lastTrigger d) in
  let last : time := default (0 : time) (triggers !! key) in
  if negb (is_zero last) && (0 <? cf_Cooldown config) && (now - last <? cf_Cooldown config)
  then (false, set_triggers triggers d)
  else
    let maxTriggerEntries := i64 (cf_MaxTrackedSources config * 2) in
    let triggers := if bool_decide (triggers !! key = None) && (maxTriggerEntries <=? Z.of_nat (size triggers))
                    then evictOldestTrigger (walk_triggers triggers) triggers else triggers in
    (true, set_triggers (<[key := now]> triggers) d).

(** [releaseTriggerReservation]. *)
Definition release (key : string) (reservedAt : time) (d : Detector) : Detector :=
  if bool_decide (dt_lastTrigger d !! key = Some reservedAt) then set_triggers (delete key (dt_lastTrigger d)) d else d.

End locked.

(** ** [Observe] *)

Inductive call : Type :=
  | dNow
  | dRecordError (source : string) (now : time)
  | dReserve (key : string) (now : time)
  | dRelease (key : string) (reservedAt : time)
  | dFreeze (tenant incidentID title : string) (from to : time)
  | dAnnotate (tenant incidentID reason : string).

Definition ans (c : call) : Type :=
  match c with
  | dNow => time
  | dRecordError _ _ => option string
  | dReserve _ _ => bool
  | dRelease _ _ => unit
  | dFreeze _ _ _ _ _ => result Z
  | dAnnotate _ _ _ => result unit
  end.

Abbreviation P := (proc ans).

(** What one trigger is about. *)
Record Breach := mkBreach {
  br_tenant : string;
  br_key : string;
  br_source : string;
  br_reason : string;
  br_now : time;
}.

Definition incident_id (b : Breach) : string :=
  "AUTO-" +:+ format_d (unix_milli (br_now b)) +:+ "-" +:+ slug (br_source b) +:+ "-" +:+ reasonCategory (br_reason b).

Definition annotate (b : Breach) : P (result unit) :=
  r ← (Proc.call (dAnnotate (br_tenant b) (incident_id b) (br_reason b)) : P (result unit));
  mret (match r with Err e => Err (ErrWrap "annotate automatic incident" e) | Ok _ => Ok tt end).

Definition give_back (b : Breach) (e : error) : P (result unit) :=
  (Proc.call (dRelease (br_key b) (br_now b)) : P unit);;
  mret (Err (ErrWrap "freeze automatic incident" e)).

Definition capture (lookback : Z) (b : Breach) : P (result unit) :=
  r ← (Proc.call (dFreeze (br_tenant b) (incident_id b) ("Automatic incident: " +:+ br_source b) (br_now b - lookback) (br_now b))
       : P (result Z));
  match r with
  | Err e => give_back b e
  | Ok _ => annotate b
  end.

(** [tenant] is the tenant of the context the freezer gets. *)
Definition trigger (lookback : Z) (tenant sourceKey displaySource reason : string) (now : time) : P (result unit) :=
  let key := sourceKey +:+ "|" +:+ reasonCategory reason in
  granted ← (Proc.call (dReserve key now) : P bool);
  if (granted : bool) then capture lookback (mkBreach tenant key displaySource reason now) else mret (Ok tt).

Definition source_key (event : Event) : string := ev_TenantID event +:+ "|" +:+ ev_Source event.

Definition Observe (config : Config) (event : Event) : P (result unit) :=
  now ← (Proc.call dNow : P time);
  let tenant := TenantID (WithTenant (ev_TenantID event)) in
  let sourceKey := source_key event in
  match latencyBreach config event with
  | Some reason => trigger (cf_FreezeLookback config) tenant sourceKey (ev_Source event) reason now
  | None =>
      if isError event then
        r ← (Proc.call (dRecordError sourceKey now) : P (option string));
        match r with
        | Some reason => trigger (cf_FreezeLookback config) tenant sourceKey (ev_Source event) reason now
        | None => mret (Ok tt)
        end
      else mret (Ok tt)
  end.

(** ** The detector among its goroutines

    Any number of [Observe] calls run at once; each is at a [point] of its program. *)

Inductive point : Type :=
  | AtObserve (event : Event)
  | AtRecord (event : Event) (now : time)
  | AtReserve (b : Breach)
  | AtFreeze (b : Breach)
  | AtAnnotate (b : Breach)
  | AtRelease (b : Breach) (e : error)
  | AtDone (r : result unit).

Definition breach (event : Event) (reason : string) (now : time) : Breach :=
  mkBreach (TenantID (WithTenant (ev_TenantID event))) (source_key event +:+ "|" +:+ reasonCategory reason) (ev_Source event)
    reason now.

(** What is left of the program at a point. *)
Definition code (config : Config) (p : point) : P (result unit) :=
  match p with
  | AtObserve event => Observe config event
  | AtRecord event now =>
      r ← (Proc.call (dRecordError (source_key event) now) : P (option string));
      match r with
      | Some reason => trigger (cf_FreezeLookback config) (TenantID (WithTenant (ev_TenantID event))) (source_key event)
                         (ev_Source event) reason now
      | None => mret (Ok tt)
      end
  | AtReserve b =>
      granted ← (Proc.call (dReserve (br_key b) (br_now b)) : P bool);
      if (granted : bool) then capture (cf_FreezeLookback config) b else mret (Ok tt)
  | AtFreeze b => capture (cf_FreezeLookback config) b
  | AtAnnotate b => annotate b
  | AtRelease b e => give_back b e
  | AtDone r => mret r
  end.

(** The point reached after the call of this one. *)
Definition after (config : Config) (p : point) (c : call) : ans c -> point :=
  match c return ans c -> point with
  | dNow => fun now =>
      match p with
      | AtObserve event =>
          match latencyBreach config event with
          | Some reason => AtReserve (breach event reason now)
          | None => if isError event then AtRecord event now else AtDone (Ok tt)
          end
      | _ => p
      end
  | dRecordError _ _ => fun r =>
      match p, r with
      | AtRecord event now, Some reason => AtReserve (breach event reason now)
      | _, _ => AtDone (Ok tt)
      end
  | dReserve _ _ => fun granted => match p with AtReserve b => if granted : bool then AtFreeze b else AtDone (Ok tt) | _ => p end
  | dFreeze _ _ _ _ _ => fun r =>
      match p with AtFreeze b => match r with Ok _ => AtAnnotate b | Err e => AtRelease b e end | _ => p end
  | dAnnotate _ _ _ => fun r =>
      AtDone (match r with Err e => Err (ErrWrap "annotate automatic incident" e) | Ok _ => Ok tt end)
  | dRelease _ _ => fun _ =>
      match p with AtRelease _ e => AtDone (Err (ErrWrap "freeze automatic incident" e)) | _ => p end
  end.

(** A freeze that has been granted, and not given back. *)
Definition holds (p : point) : option (string * time) :=
  match p with
  | AtFreeze b | AtRelease b _ => Some (br_key b, br_now b)
  | _ => None
  end.

(** [w_frozen] lists the freezes that succeeded; [w_clock] is the latest time of a
    reservation; [w_late] says that some reservation reached the lock after one of a later
    time; [w_evicted] are the keys that a full table lost. *)
Record World := mkWorld {
  w_detector : Detector;
  w_threads : list point;
  w_frozen : list (string * time);
  w_clock : time;
  w_late : bool;
  w_evicted : gset string;
}.

Definition any_order {V} (walk : gmap string V -> list (string * V)) : Prop := forall m, walk m ≡ₚ map_to_list m.

(** The shared state before and after a call, and its answer; the clock and the freezer answer anything. *)
Definition answered (c : call) : ans c -> Detector -> Detector -> Prop :=
  match c return ans c -> Detector -> Detector -> Prop with
  | dRecordError source now => fun r d d' => exists walk, any_order walk /\ recordError walk source now d = (r, d')
  | dReserve key now => fun granted d d' => exists walk, any_order walk /\ reserve walk key now d = (granted, d')
  | dRelease key at_ => fun _ d d' => d' = release key at_ d
  | _ => fun _ d d' => d' = d
  end.

(** What the reader of the history notes of a call. *)
Definition noted (p : point) (c : call) : ans c -> Detector -> World -> World :=
  match c return ans c -> Detector -> World -> World with
  | dReserve key now => fun _ d' w =>
      mkWorld d' (w_threads w) (w_frozen w) (Z.max (w_clock w) now) (w_late w || (now <? w_clock w))
        (w_evicted w ∪ (dom (pruneExpiredTriggers (cf_Cooldown (dt_config d')) now (dt_lastTrigger (w_detector w)))
                        ∖ dom (dt_lastTrigger d')))
  | dFreeze _ _ _ _ _ => fun r d' w =>
      mkWorld d' (w_threads w)
        (match r, p with Ok _, AtFreeze b => (br_key b, br_now b) :: w_frozen w | _, _ => w_frozen w end)
        (w_clock w) (w_late w) (w_evicted w)
  | _ => fun _ d' w => mkWorld d' (w_threads w) (w_frozen w) (w_clock w) (w_late w) (w_evicted w)
  end.

Definition set_threads (threads : list point) (w : World) : World :=
  mkWorld (w_detector w) threads (w_frozen w) (w_clock w) (w_late w) (w_evicted w).

Inductive step (config : Config) : World -> World -> Prop :=
  | step_start event w : step config w (set_threads (AtObserve event :: w_threads w) w)
  | step_call i p c k (a : ans c) w d' :
      w_threads w !! i = Some p -> code config p = Call c k -> answered c a (w_detector w) d' ->
      step config w (set_threads (<[i := after config p c a]> (w_threads w)) (noted p c a d' w)).

Definition start_world (config : Config) (clock : time) : World := mkWorld (NewDetector config) [] [] clock false ∅.

Definition reachable (config : Config) (clock : time) : World -> Prop :=
  rtc (step (dt_config (NewDetector config))) (start_world config clock).

(** The point after a call has the rest of the program as its code. *)
Lemma after_code config p :
  match code config p with
  | Call c k => forall a, code config (after config p c a) = k a
  | Return r => p = AtDone r
  end.
Proof.
  destruct p; cbn; try done.
  - intros now. destruct (latencyBreach config event); [done|]. by destruct (isError event).
  - by intros [reason|].
  - by intros [].
  - by intros [].
Qed.

Definition next_call (config : Config) (p : point) : option call :=
  match code config p with Call c _ => Some c | Return _ => None end.

(** ** The tables are bounded *)

Lemma oldest_entry_in visited found :
  Forall (fun kt => kt.1 <> "") visited ->
  (found.1 <> "" -> oldest_entry visited found ∈ found :: visited) /\
  (visited <> [] -> oldest_entry visited found ∈ found :: visited /\ (oldest_entry visited found).1 <> "") /\
  (found.1 <> "" -> (oldest_entry visited found).1 <> "").
Proof.
  revert found. induction visited as [|[key t] visited IH]; intros found H; cbn [oldest_entry].
  { split_and!; [by left|done|done]. }
  apply Forall_cons in H as [Hk H]. destruct (_ || _) eqn:E.
  - destruct (IH (key, t) H) as (H1 & _ & H2). split_and!.
    + intros _. right. by apply H1.
    + intros _. split; [right; by apply H1|by apply H2].
    + intros _. by apply H2.
  - apply orb_false_iff in E as [Hf _]. apply bool_decide_eq_false in Hf.
    destruct (IH found H) as (H1 & _ & H2). specialize (H1 Hf). specialize (H2 Hf).
    assert (oldest_entry visited found ∈ found :: (key, t) :: visited).
    { apply elem_of_cons in H1 as [->|H1]; [by left|by right; right]. }
    done.
Qed.

Lemma evict_shrinks {V} visited (m : gmap string V) :
  Forall (fun kt => kt.1 <> "") visited -> visited <> [] -> (forall kt, kt ∈ visited -> is_Some (m !! kt.1)) ->
  S (size (evict_found (oldest_entry visited ("", 0)) m)) = size m.
Proof.
  intros Hk Hne Hin. destruct (oldest_entry_in visited ("", 0) Hk) as (_ & H & _). destruct (H Hne) as [He Hnz].
  unfold evict_found. rewrite bool_decide_false by done.
  apply elem_of_cons in He as [He|He]; [by rewrite He in Hnz|]. destruct (Hin _ He) as [v Hv].
  assert (size m <> 0)%nat. { intros ->%map_size_empty_inv. by rewrite lookup_empty in Hv. }
  rewrite map_size_delete_Some by (by eexists). lia.
Qed.

Definition keyed {V} (m : gmap string V) : Prop := forall key, is_Some (m !! key) -> key <> "".

Lemma keyed_insert {V} (m : gmap string V) key v : keyed m -> key <> "" -> keyed (<[key := v]> m).
Proof. intros H Hk k [w [[<- _]|[_ Hw]]%lookup_insert_Some]; [done|]. apply H. by exists w. Qed.

Lemma keyed_sub {V} (m m' : gmap string V) : keyed m -> m' ⊆ m -> keyed m'.
Proof. intros H Hs k [v Hv]. apply H. exists v. by eapply lookup_weaken. Qed.

Lemma evict_sub {V} found (m : gmap string V) : evict_found found m ⊆ m.
Proof. unfold evict_found. case_bool_decide; [done|apply delete_subseteq]. Qed.

(** One more entry, after the eviction that a full table calls for. *)
Lemma bounded_insert {V} (limit : Z) (m evicted : gmap string V) key v :
  (Z.of_nat (size m) <= Z.max 1 limit) -> evicted ⊆ m ->
  (m !! key = None -> limit <= Z.of_nat (size m) -> m <> ∅ -> (size evicted < size m)%nat) ->
  Z.of_nat (size (<[key := v]> (if bool_decide (m !! key = None) && (limit <=? Z.of_nat (size m)) then evicted else m)))
    <= Z.max 1 limit.
Proof.
  intros Hm Hsub He. destruct (m !! key) as [w|] eqn:Ek.
  - rewrite bool_decide_false by done. cbn. rewrite map_size_insert_Some; [done|by eexists].
  - rewrite bool_decide_true by done. cbn. destruct (Z.leb_spec limit (Z.of_nat (size m))).
    + rewrite map_size_insert_None by (eapply lookup_weaken_None; done).
      destruct (decide (m = ∅)) as [->|Hne]; [|specialize (He eq_refl ltac:(lia) Hne); lia].
      assert (evicted = ∅) as -> by (apply map_empty; intros i; eapply lookup_weaken_None; [apply lookup_empty|done]).
      rewrite map_size_empty. lia.
    + rewrite map_size_insert_None by done. lia.
Qed.

(** What holds of both tables. *)
Definition bounded (d : Detector) : Prop :=
  1 <= cf_MaxTrackedSources (dt_config d) /\
  keyed (dt_errors d) /\ Z.of_nat (size (dt_errors d)) <= cf_MaxTrackedSources (dt_config d) /\
  keyed (dt_lastTrigger d) /\ Z.of_nat (size (dt_lastTrigger d)) <= Z.max 1 (i64 (cf_MaxTrackedSources (dt_config d) * 2)).

Lemma evict_errors_shrinks walk (errors : gmap string (list time)) : any_order walk -> keyed errors -> errors <> ∅ ->
  (size (evictOldestErrorSource (walk errors) errors) < size errors)%nat.
Proof.
  intros Hw Hk Hne. unfold evictOldestErrorSource. set (kept := filter _ errors).
  set (stamped := omap _ _). assert (kept ⊆ errors) as Hsub by apply map_filter_subseteq.
  assert (forall kt, kt ∈ stamped -> is_Some (kept !! kt.1) /\ kt.1 <> "") as Hin.
  { intros [key t] ([key' l] & Hl & Ht)%list_elem_of_omap. cbn in Ht.
    destruct (last l) as [t'|] eqn:El; [|done]. injection Ht as -> ->.
    rewrite (Hw errors) in Hl. apply elem_of_map_to_list in Hl. split; [|apply Hk; by eexists].
    exists l. apply map_lookup_filter_Some. split; [done|]. cbn. by intros ->. }
  destruct (decide (stamped = [])) as [He|Hs].
  - assert (kept = ∅) as ->.
    { apply map_empty. intros key. apply map_lookup_filter_None. right. intros l Hl Hnl. cbn in Hnl.
      destruct (last l) as [t|] eqn:El; [|by apply last_None in El].
      assert ((key, t) ∈ stamped) as Hk'; [|by rewrite He, elem_of_nil in Hk'].
      apply list_elem_of_omap. exists (key, l). split; [rewrite (Hw errors); by apply elem_of_map_to_list|]. cbn. by rewrite El. }
    unfold evict_found. case_bool_decide; rewrite ?delete_empty, map_size_empty;
      (assert (size errors <> 0%nat) by (intros E; by apply map_size_empty_inv in E)); lia.
  - pose proof (evict_shrinks stamped kept) as H. apply map_subseteq_size in Hsub.
    rewrite <- H in *; [lia| |done|].
    + apply Forall_forall. intros kt Hkt. by apply Hin.
    + intros kt Hkt. by apply Hin.
Qed.

Lemma evict_triggers_shrinks walk (triggers : gmap string time) : any_order walk -> keyed triggers -> triggers <> ∅ ->
  (size (evictOldestTrigger (walk triggers) triggers) < size triggers)%nat.
Proof.
  intros Hw Hk Hne. unfold evictOldestTrigger. pose proof (evict_shrinks (walk triggers) triggers) as H. rewrite <- H; [lia|..].
  - apply Forall_forall. intros [key t] Hin. rewrite (Hw triggers) in Hin. apply elem_of_map_to_list in Hin. apply Hk. by eexists.
  - intros E. apply Hne. apply map_to_list_empty_iff, Permutation_nil. by rewrite <- E, (Hw triggers).
  - intros [key t] Hin. rewrite (Hw triggers) in Hin. apply elem_of_map_to_list in Hin. by eexists.
Qed.

Lemma recordError_bounded walk source now d : any_order walk -> source <> "" -> bounded d ->
  bounded (recordError walk source now d).2 /\ dt_config (recordError walk source now d).2 = dt_config d /\
  dt_lastTrigger (recordError walk source now d).2 = dt_lastTrigger d.
Proof.
  intros Hw Hs (Hm & Hk & Hn & Hk' & Hn'). split_and!; [|done|done].
  unfold recordError. set (kept := filter _ _). set (errors := match kept with [] => _ | _ => _ end).
  assert (errors ⊆ dt_errors d) as Hsub by (subst errors; destruct kept; [apply delete_subseteq|done]).
  assert (keyed errors) as Hke by (by eapply keyed_sub). pose proof Hsub as Hsz%map_subseteq_size.
  split_and!; cbn; [done| | |done|done].
  - apply keyed_insert; [|done]. destruct (_ && _); [|done]. eapply keyed_sub; [exact Hke|].
    unfold evictOldestErrorSource. etrans; [apply evict_sub|apply map_filter_subseteq].
  - replace (cf_MaxTrackedSources (dt_config d)) with (Z.max 1 (cf_MaxTrackedSources (dt_config d))) at 2 by lia.
    apply bounded_insert; [lia| |].
    + unfold evictOldestErrorSource. etrans; [apply evict_sub|apply map_filter_subseteq].
    + intros _ _ Hne. by apply evict_errors_shrinks.
Qed.

Lemma prune_sub cooldown now triggers : pruneExpiredTriggers cooldown now triggers ⊆ triggers.
Proof. unfold pruneExpiredTriggers. destruct (_ <=? _); [apply map_empty_subseteq|apply map_filter_subseteq]. Qed.

Lemma reserve_bounded walk key now d : any_order walk -> key <> "" -> bounded d ->
  bounded (reserve walk key now d).2 /\ dt_config (reserve walk key now d).2 = dt_config d.
Proof.
  intros Hw Hs (Hm & Hk & Hn & Hk' & Hn'). unfold reserve. set (triggers := pruneExpiredTriggers _ _ _).
  assert (triggers ⊆ dt_lastTrigger d) as Hsub by apply prune_sub.
  assert (keyed triggers) as Hke by (by eapply keyed_sub). pose proof Hsub as Hsz%map_subseteq_size.
  destruct (_ && _ && _); (split; [|done]); split_and!; cbn; try done; [lia| |].
  - apply keyed_insert; [|done]. destruct (_ && _); [|done]. eapply keyed_sub; [exact Hke|apply evict_sub].
  - apply bounded_insert; [lia|apply evict_sub|]. intros _ _ Hne. by apply evict_triggers_shrinks.
Qed.

Lemma release_bounded key at_ d : bounded d -> bounded (release key at_ d) /\ dt_config (release key at_ d) = dt_config d.
Proof.
  intros (Hm & Hk & Hn & Hk' & Hn'). unfold release. case_bool_decide; [|done]. split; [|done].
  split_and!; cbn; try done.
  - eapply keyed_sub; [exact Hk'|apply delete_subseteq].
  - pose proof (map_subseteq_size _ _ (delete_subseteq (dt_lastTrigger d) key)). lia.
Qed.

(** ** Incident IDs are short and plain *)

Lemma slug_loop_fuel fuel : forall s built, (length s <= fuel)%nat -> slug_loop fuel s built = slug_loop (length s) s built.
Proof.
  induction fuel as [fuel IH] using lt_wf_ind. intros s built Hs. destruct s as [|c s]; [by destruct fuel|].
  destruct fuel as [|fuel]; [cbn in Hs; lia|]. cbn [slug_loop length] in *. destruct (64 <=? _); [done|].
  pose proof (decode_rune_width c s) as Hw. set (rest := drop _ _).
  assert (length rest <= length s)%nat as Hr by (unfold rest; rewrite length_drop; cbn [length]; lia).
  rewrite (IH fuel) by lia. destruct (decide (length s = fuel)) as [->|]; [by rewrite (IH fuel) by lia|by rewrite (IH (length s)) by lia].
Qed.

Definition plain (c : ascii) : Prop := slug_char c = true \/ c = "-"%char.

Lemma slug_loop_plain fuel : forall s built, Forall plain built -> (length built < 64)%nat ->
  Forall plain (slug_loop fuel s built) /\ (length (slug_loop fuel s built) <= 64)%nat.
Proof.
  induction fuel as [|fuel IH]; intros s built Hp Hl; cbn [slug_loop]; [split; [done|lia]|]. destruct s as [|c s]; [split; [done|lia]|].
  set (built' := if slug_char c then _ else _).
  assert (Forall plain built' /\ (length built' <= S (length built))%nat) as [Hp' Hl'].
  { unfold built'. destruct (slug_char c) eqn:E; [|destruct built as [|x built]; [split; [done|cbn; lia]|]]; (split; [|cbn; lia]).
    - apply Forall_cons. split; [by left|done].
    - apply Forall_cons. split; [by right|done]. }
  destruct (Z.leb_spec 64 (zlen built')) as [H|H]; unfold zlen in H; [split; [done|lia]|apply IH; [done|lia]].
Qed.

Lemma drop_dashes_suffix l : exists k, drop_dashes l = drop k l.
Proof. induction l as [|c l [k IH]]; cbn; [by exists 0%nat|]. case_bool_decide; [exists (S k)|exists 0%nat]; done. Qed.

(** An automatic incident's ID holds of its source only letters, digits and dashes, at most 64 of them. *)
Lemma slug_plain value : slug value <> "" /\ Forall plain (chars_of_string (slug value)) /\ (length (chars_of_string (slug value)) <= 64)%nat.
Proof.
  unfold slug. cbv zeta. set (chars := chars_of_string _).
  destruct (slug_loop_plain (length chars) chars [] ltac:(done) ltac:(cbn; lia)) as [Hp Hl].
  destruct (drop_dashes_suffix (slug_loop (length chars) chars [])) as [k ->].
  destruct (drop_dashes_suffix (rev (drop k (slug_loop (length chars) chars [])))) as [k' ->].
  case_bool_decide as E; [split_and!; [done|repeat constructor|cbn; lia]|]. split; [done|].
  unfold chars_of_string, string_of_chars. rewrite String.list_ascii_of_string_of_list_ascii. split.
  - apply Forall_drop, Forall_rev, Forall_drop. exact Hp.
  - rewrite length_drop, length_rev, length_drop. lia.
Qed.

(** ** Freezes of one key are a cooldown apart *)

Section spacing.
Variable cooldown : Z.
Hypothesis cooldown_pos : 0 < cooldown.
Implicit Types (triggers : gmap string time) (evicted : gset string) (grants : list (string * time)) (clock now t : time).

Definition apart evicted (x y : string * time) : Prop :=
  x.1 = y.1 -> x.1 ∉ evicted -> cooldown <= Z.abs (x.2 - y.2).

Fixpoint spaced evicted grants : Prop :=
  match grants with
  | [] => True
  | x :: grants' => Forall (apart evicted x) grants' /\ spaced evicted grants'
  end.

(** The table remembers a grant, or one of its key a cooldown later, or the cooldown is over. *)
Definition remembered triggers clock (g : string * time) : Prop :=
  (exists t, triggers !! g.1 = Some t /\ (t = g.2 \/ g.2 + cooldown <= t)) \/ g.2 + cooldown <= clock.

Definition tracked triggers clock evicted grants : Prop :=
  0 < clock /\ spaced evicted grants /\ (forall key t, triggers !! key = Some t -> 0 < t <= clock) /\
  Forall (fun g => 0 < g.2 <= clock /\ (g.1 ∉ evicted -> remembered triggers clock g)) grants.

Lemma apart_sym evicted x y : apart evicted x y -> apart evicted y x.
Proof. intros H Heq Hn. rewrite Heq in Hn. specialize (H (eq_sym Heq)). rewrite <- Heq in *. specialize (H Hn). lia. Qed.

#[export] Instance spaced_perm evicted : Proper ((≡ₚ) ==> iff) (spaced evicted).
Proof.
  assert (forall l l', l ≡ₚ l' -> spaced evicted l -> spaced evicted l') as H.
  { induction 1 as [|x l l' Hl IH|x y l|l1 l2 l3 H1 IH1 H2 IH2]; cbn; [done| | |auto].
    - intros [Hx Hs]. split; [by rewrite <- Hl|auto].
    - intros [[Hyx Hy]%Forall_cons [Hx Hs]]. split_and!; [|done|done]. apply Forall_cons. split; [by apply apart_sym|done]. }
  intros l l' Hl. split; by apply H.
Qed.

#[export] Instance tracked_perm triggers clock evicted : Proper ((≡ₚ) ==> iff) (tracked triggers clock evicted).
Proof. intros l l' Hl. unfold tracked. by rewrite Hl. Qed.

Lemma spaced_mono evicted evicted' grants : evicted ⊆ evicted' -> spaced evicted grants -> spaced evicted' grants.
Proof.
  intros He. induction grants as [|x grants IH]; cbn; [done|]. intros [H Hs]. split; [|auto].
  eapply Forall_impl; [exact H|]. intros y Hy Heq Hn. apply Hy; [done|]. set_solver.
Qed.

Lemma prune_lookup now triggers key t :
  pruneExpiredTriggers cooldown now triggers !! key = Some t <-> triggers !! key = Some t /\ now - cooldown <= t.
Proof.
  unfold pruneExpiredTriggers. destruct (Z.leb_spec cooldown 0); [lia|]. rewrite map_lookup_filter_Some. cbn.
  split; intros []; split; try done; lia.
Qed.

(** A grant is either remembered by the pruned table or its cooldown is over. *)
Lemma prune_remembers triggers clock now g : remembered triggers clock g -> clock <= now ->
  remembered (pruneExpiredTriggers cooldown now triggers) now g.
Proof.
  intros [(t & Ht & Hor)|H] Hle; [|right; lia]. destruct (decide (now - cooldown <= t)).
  - left. exists t. split; [|done]. by apply prune_lookup.
  - right. lia.
Qed.

Section reserve.
Variable walk : gmap string time -> list (string * time).
Variables (d : Detector) (key : string) (clock now : time) (evicted : gset string) (grants : list (string * time)).
Hypothesis config_cooldown : cf_Cooldown (dt_config d) = cooldown.
Hypothesis in_order : clock <= now.
Hypothesis before : tracked (dt_lastTrigger d) clock evicted grants.

Let triggers := pruneExpiredTriggers cooldown now (dt_lastTrigger d).

Lemma pruned_tracked : tracked triggers now evicted grants.
Proof.
  destruct before as (Hc & Hs & Ht & Hg). split_and!; [lia|done| |].
  - intros k t [Hk _]%prune_lookup. apply Ht in Hk. lia.
  - eapply Forall_impl; [exact Hg|]. intros g [Hb Hr]. split; [lia|]. intros Hn. by eapply prune_remembers; [apply Hr|].
Qed.

(** A reservation is refused only within the cooldown of what the table remembers. *)
Lemma cooldown_refused d' : reserve walk key now d = (false, d') ->
  dt_lastTrigger d' = triggers /\ exists t, triggers !! key = Some t /\ now - t < cooldown.
Proof.
  unfold reserve. rewrite config_cooldown. fold triggers. destruct (_ && _ && _) eqn:E; [|done]. intros [= <-]. split; [done|].
  apply andb_true_iff in E as [[Hz%negb_true_iff _]%andb_true_iff Hlt%Z.ltb_lt].
  destruct (triggers !! key) as [t|]; [by exists t|done].
Qed.

Lemma reserve_granted d' : reserve walk key now d = (true, d') ->
  (forall t, triggers !! key = Some t -> t + cooldown <= now) /\
  exists kept, kept ⊆ triggers /\ dt_lastTrigger d' = <[key := now]> kept /\
    forall k, is_Some (triggers !! k) -> kept !! k = None -> k <> key -> k ∈ dom triggers ∖ dom (dt_lastTrigger d').
Proof.
  unfold reserve. rewrite config_cooldown. fold triggers. destruct (_ && _ && _) eqn:E; [done|]. intros [= <-]. split.
  - intros t Ht. rewrite Ht in E. cbn in E. destruct pruned_tracked as (_ & _ & Hp & _). specialize (Hp _ _ Ht).
    unfold is_zero in E. destruct (Z.eqb_spec t 0); [lia|]. destruct (Z.ltb_spec 0 cooldown); [|lia].
    destruct (Z.ltb_spec (now - t) cooldown); [done|lia].
  - eexists. split; [|split; [done|]].
    + destruct (bool_decide _ && _); [apply evict_sub|done].
    + intros k Hk Hn Hne. apply elem_of_difference. split; [by apply elem_of_dom|]. cbn.
      rewrite not_elem_of_dom, lookup_insert_ne by done. done.
Qed.

Lemma reserve_tracked granted d' : reserve walk key now d = (granted, d') ->
  tracked (dt_lastTrigger d') now (evicted ∪ (dom triggers ∖ dom (dt_lastTrigger d'))) (if granted then (key, now) :: grants else grants).
Proof.
  destruct pruned_tracked as (Hc & Hs & Ht & Hg). destruct granted.
  2:{ intros [-> _]%cooldown_refused. rewrite difference_diag_L, union_empty_r_L. by apply pruned_tracked. }
  intros (Hgr & kept & Hk & Hd & Hev)%reserve_granted. split_and!; [done| | |].
  - cbn. split; [|eapply spaced_mono; [|exact Hs]; set_solver]. eapply Forall_impl; [exact Hg|].
    intros [k t] [Hb Hr] Heq Hn. cbn in *. subst k. destruct (Hr ltac:(set_solver)) as [(t' & Ht' & Hor)|H]; cbn in *; [|lia].
    apply Hgr in Ht'. lia.
  - rewrite Hd. intros k t [[-> ->]|[_ H]]%lookup_insert_Some; [lia|]. eapply Ht, lookup_weaken; done.
  - rewrite Hd in *. apply Forall_cons. split.
    { cbn. split; [lia|]. intros _. left. exists now. rewrite lookup_insert_eq. auto. }
    eapply Forall_impl; [exact Hg|]. intros [k t] [Hb Hr]. cbn in *. split; [lia|]. intros Hn.
    destruct (Hr ltac:(set_solver)) as [(t' & Ht' & Hor)|H]; cbn in *; [|right; cbn; lia].
    destruct (decide (k = key)) as [->|Hne]; [right; cbn; apply Hgr in Ht'; lia|].
    left. exists t'. cbn. rewrite lookup_insert_ne by done. split; [|done].
    destruct (kept !! k) as [v|] eqn:Ek; [pose proof (lookup_weaken _ _ _ _ Ek Hk); congruence|].
    exfalso. apply Hn, elem_of_union_r, Hev; [by eexists|done|done].
Qed.

End reserve.

Lemma release_tracked d key t clock evicted grants :
  tracked (dt_lastTrigger d) clock evicted ((key, t) :: grants) ->
  tracked (dt_lastTrigger (release key t d)) clock evicted grants.
Proof.
  intros (Hc & [Ha Hs] & Ht & [_ Hg]%Forall_cons). unfold release. case_bool_decide as E; [|done]. split_and!; [done|done| |].
  - cbn. intros k t' [_ H]%lookup_delete_Some. by eapply Ht.
  - rewrite Forall_forall in Ha, Hg |- *. intros [k t'] Hin. destruct (Hg _ Hin) as [Hb Hr]. split; [done|]. intros Hn.
    destruct (Hr Hn) as [(t'' & Ht'' & Hor)|H]; [|by right]. cbn in *.
    destruct (decide (k = key)) as [->|Hne]; [|left; exists t''; cbn; by rewrite lookup_delete_ne].
    right. cbn. specialize (Ha _ Hin eq_refl Hn). cbn in Ha. rewrite E in Ht''. injection Ht'' as <-.
    apply Ht in E. destruct Hor as [->|Hor]; lia.
Qed.

End spacing.

(** ** Every reachable state *)

Definition grants (w : World) : list (string * time) := w_frozen w ++ omap holds (w_threads w).

Definition point_ok (p : point) : Prop :=
  match p with AtReserve b | AtFreeze b | AtRelease b _ => br_key b <> "" | _ => True end.

Record inv (config : Config) (w : World) : Prop := mkInv {
  inv_config : dt_config (w_detector w) = config;
  inv_bounded : bounded (w_detector w);
  inv_points : Forall point_ok (w_threads w);
  inv_held : forall key t, dt_lastTrigger (w_detector w) !! key = Some t -> (key, t) ∈ grants w;
  inv_tracked : w_late w = false -> 0 < cf_Cooldown config ->
    tracked (cf_Cooldown config) (dt_lastTrigger (w_detector w)) (w_clock w) (w_evicted w) (grants w);
}.

Definition held_by (p : point) : list (string * time) := match holds p with Some g => [g] | None => [] end.

Lemma holds_update (threads : list point) i p : threads !! i = Some p -> exists rest,
  omap holds threads ≡ₚ held_by p ++ rest /\ forall p', omap holds (<[i := p']> threads) ≡ₚ held_by p' ++ rest.
Proof.
  intros Hi. exists (omap holds (take i threads) ++ omap holds (drop (S i) threads)). split.
  - rewrite <- (take_drop_middle threads i p Hi) at 1. rewrite omap_app. cbn. unfold held_by.
    destruct (holds p); cbn; [by rewrite <- Permutation_middle|done].
  - intros p'. rewrite insert_take_drop by (by eapply lookup_lt_Some). rewrite omap_app. cbn. unfold held_by.
    destruct (holds p'); cbn; [by rewrite <- Permutation_middle|done].
Qed.

Lemma source_key_filled event : source_key event <> "".
Proof. unfold source_key. by destruct (ev_TenantID event). Qed.

Lemma breach_key event reason now : br_key (breach event reason now) <> "".
Proof. cbn. pose proof (source_key_filled event). by destruct (source_key event). Qed.

(** A call that leaves the trigger table and the grants as they are. *)
Lemma inv_quiet config w i p p' d' : inv config w -> w_threads w !! i = Some p ->
  dt_config d' = config -> bounded d' -> dt_lastTrigger d' = dt_lastTrigger (w_detector w) -> point_ok p' -> holds p' = holds p ->
  inv config (set_threads (<[i := p']> (w_threads w)) (mkWorld d' (w_threads w) (w_frozen w) (w_clock w) (w_late w) (w_evicted w))).
Proof.
  intros [Hc Hb Hp Hh Ht] Hi Hc' Hb' Htr Hok Hhold. destruct (holds_update _ _ _ Hi) as (rest & H1 & H2).
  assert (omap holds (<[i := p']> (w_threads w)) ≡ₚ omap holds (w_threads w)) as Hsame.
  { rewrite H2, H1. unfold held_by. by rewrite Hhold. }
  split; cbn; [done|done|by apply Forall_insert| |].
  - intros key t. rewrite Htr. intros H%Hh. unfold grants in *. cbn. by rewrite Hsame.
  - intros Hl Hpos. rewrite Htr. unfold grants. cbn. rewrite Hsame. by apply Ht.
Qed.

Lemma inv_reserve config w i b walk granted d' : inv config w -> w_threads w !! i = Some (AtReserve b) -> any_order walk ->
  reserve walk (br_key b) (br_now b) (w_detector w) = (granted, d') ->
  inv config (set_threads (<[i := if (granted : bool) then AtFreeze b else AtDone (Ok tt)]> (w_threads w))
    (noted (AtReserve b) (dReserve (br_key b) (br_now b)) granted d' w)).
Proof.
  intros [Hc Hb Hp Hh Ht] Hi Hw Hr. destruct (holds_update _ _ _ Hi) as (rest & H1 & H2).
  pose proof (Forall_lookup_1 _ _ _ _ Hp Hi) as Hkey. cbn in Hkey.
  destruct (reserve_bounded walk (br_key b) (br_now b) _ Hw Hkey Hb) as [Hb' Hc']. rewrite Hr in Hb', Hc'. cbn in Hb', Hc'.
  assert (omap holds (<[i := if (granted : bool) then AtFreeze b else AtDone (Ok tt)]> (w_threads w)) ≡ₚ
          (if granted then [(br_key b, br_now b)] else []) ++ omap holds (w_threads w)) as Hg.
  { rewrite H2, H1. by destruct granted. }
  split; cbn; [by rewrite Hc'|done| | |].
  - apply Forall_insert; [done|by destruct granted].
  - intros key t Hkt. unfold grants. cbn. rewrite Hg.
    assert (dt_lastTrigger (w_detector w) !! key = Some t \/ granted = true /\ (key, t) = (br_key b, br_now b)) as [Hold|[-> ->]].
    { revert Hr Hkt. unfold reserve. destruct (_ && _ && _); intros [= <- <-]; cbn.
      - intros H. left. by eapply lookup_weaken, prune_sub.
      - intros [[<- <-]|[_ H]]%lookup_insert_Some; [by right|]. left.
        eapply lookup_weaken, prune_sub. destruct (bool_decide _ && _); [|exact H]. by eapply lookup_weaken, evict_sub. }
    + apply Hh in Hold. unfold grants in Hold. set_solver.
    + set_solver.
  - rewrite orb_false_iff. intros [Hl Hlate%Z.ltb_ge] Hpos. specialize (Ht Hl Hpos). rewrite Z.max_r by done.
    eapply reserve_tracked in Hr; [|done|by rewrite Hc|exact Hlate|exact Ht]. rewrite Hc', Hc. unfold grants in *. cbn.
    rewrite Hg. destruct granted; [|exact Hr]. cbn [app]. by rewrite <- Permutation_middle.
Qed.

Lemma inv_frozen config w i b : inv config w -> w_threads w !! i = Some (AtFreeze b) ->
  inv config (set_threads (<[i := AtAnnotate b]> (w_threads w))
    (mkWorld (w_detector w) (w_threads w) ((br_key b, br_now b) :: w_frozen w) (w_clock w) (w_late w) (w_evicted w))).
Proof.
  intros [Hc Hb Hp Hh Ht] Hi. destruct (holds_update _ _ _ Hi) as (rest & H1 & H2).
  assert (((br_key b, br_now b) :: w_frozen w) ++ omap holds (<[i := AtAnnotate b]> (w_threads w)) ≡ₚ grants w) as Hg.
  { unfold grants. rewrite H1, H2. cbn. by rewrite <- Permutation_middle. }
  split; cbn; [done|done|by apply Forall_insert| |].
  - intros key t H%Hh. change (grants _) with (((br_key b, br_now b) :: w_frozen w) ++ omap holds (<[i := AtAnnotate b]> (w_threads w))).
    by rewrite Hg.
  - intros Hl Hpos. change (grants _) with (((br_key b, br_now b) :: w_frozen w) ++ omap holds (<[i := AtAnnotate b]> (w_threads w))).
    rewrite Hg. by apply Ht.
Qed.

Lemma inv_release config w i b e : inv config w -> w_threads w !! i = Some (AtRelease b e) ->
  inv config (set_threads (<[i := AtDone (Err (ErrWrap "freeze automatic incident" e))]> (w_threads w))
    (mkWorld (release (br_key b) (br_now b) (w_detector w)) (w_threads w) (w_frozen w) (w_clock w) (w_late w) (w_evicted w))).
Proof.
  intros [Hc Hb Hp Hh Ht] Hi. destruct (holds_update _ _ _ Hi) as (rest & H1 & H2).
  destruct (release_bounded (br_key b) (br_now b) _ Hb) as [Hb' Hc'].
  set (done_ := AtDone _).
  assert (grants w ≡ₚ (br_key b, br_now b) :: (w_frozen w ++ omap holds (<[i := done_]> (w_threads w)))) as Hg.
  { unfold grants. rewrite H1, H2. cbn. by rewrite <- Permutation_middle. }
  split; cbn; [by rewrite Hc'|done|by apply Forall_insert| |].
  - intros key t Hkt. assert ((key, t) <> (br_key b, br_now b) /\ dt_lastTrigger (w_detector w) !! key = Some t) as [Hne Hold].
    { revert Hkt. unfold release. case_bool_decide as E; cbn.
      - intros [Hk H]%lookup_delete_Some. split; [congruence|done].
      - intros H. split; [|done]. intros [= -> ->]. done. }
    apply Hh in Hold. rewrite Hg in Hold. unfold grants. cbn. apply elem_of_cons in Hold as [Hold|Hold]; done.
  - intros Hl Hpos. specialize (Ht Hl Hpos). rewrite Hg in Ht. by apply release_tracked in Ht.
Qed.

Lemma next_is config p c k : code config p = Call c k -> next_call config p = Some c.
Proof. unfold next_call. by intros ->. Qed.

Lemma detector_inv_step config w w' : step config w w' -> inv config w -> inv config w'.
Proof.
  intros [event w0|i p c k a w0 d' Hi Hcode%next_is Ha] Hinv.
  { destruct Hinv as [Hc Hb Hp Hh Ht]. split; cbn; try done. by apply Forall_cons. }
  pose proof Hinv as [Hc Hb Hp _ _]. pose proof (Forall_lookup_1 _ _ _ _ Hp Hi) as Hok.
  destruct p; cbn in Hcode; try discriminate Hcode; injection Hcode as <-.
  - cbn in Ha. subst d'. cbn [noted after]. eapply inv_quiet; try done.
    + destruct (latencyBreach config event); [exact (breach_key event _ a)|]. by destruct (isError event).
    + destruct (latencyBreach config event); [done|]. by destruct (isError event).
  - destruct Ha as (walk & Hw & Hr). cbn [noted after].
    destruct (recordError_bounded walk (source_key event) now (w_detector w0) Hw (source_key_filled _) Hb) as (H1 & H2 & H3).
    rewrite Hr in H1, H2, H3. cbn in H1, H2, H3.
    eapply inv_quiet; [done|done|congruence|done|done| |]; destruct a; cbn; [exact (breach_key event _ now)|done..].
  - destruct Ha as (walk & Hw & Hr). by eapply inv_reserve.
  - cbn in Ha. subst d'. destruct a as [n|e]; cbn [noted after]; [by apply inv_frozen|].
    eapply inv_quiet; done.
  - cbn in Ha. subst d'. cbn [noted after]. eapply inv_quiet; done.
  - cbn in Ha. subst d'. cbn [noted after]. by apply inv_release.
Qed.

Lemma reachable_inv config clock w : 0 < clock -> reachable config clock w -> inv (dt_config (NewDetector config)) w.
Proof.
  intros Hpos H. assert (inv (dt_config (NewDetector config)) (start_world config clock)) as H0.
  { split; try done. unfold start_world. cbn. unfold bounded. cbn. unfold keyed.
      split_and!; try (intros key [v Hv]; by rewrite lookup_empty in Hv); rewrite ?map_size_empty; try lia;
        destruct (Z.ltb_spec (cf_MaxTrackedSources config) 1); try lia; done. }
  unfold reachable in H. induction H; [done|]. apply IHrtc. by eapply detector_inv_step.
Qed.

Lemma spaced_lookup cooldown evicted grants i j key t t' : spaced cooldown evicted grants -> i <> j ->
  grants !! i = Some (key, t) -> grants !! j = Some (key, t') -> key ∉ evicted -> cooldown <= Z.abs (t - t').
Proof.
  revert i j t t'. induction grants as [|g l IH]; intros i j t t'; [done|]. cbn. intros [Hg Hs] Hij Hi Hj Hn.
  rewrite Forall_forall in Hg. destruct i as [|i], j as [|j]; cbn in Hi, Hj; [done| | |].
  - injection Hi as ->. apply list_elem_of_lookup_2 in Hj. by apply (Hg _ Hj).
  - injection Hj as ->. apply list_elem_of_lookup_2 in Hi. specialize (Hg _ Hi eq_refl Hn). cbn in Hg. lia.
  - eapply IH; [done| |done|done|done]. congruence.
Qed.

(** C27: However many goroutines observe events at once, and however the freezer answers: the error and cooldown tables stay
    within their limits; two incidents frozen for the same key (source and kind of breach) are at least a cooldown apart, as
    long as reservations reach the lock in the order of their times and the key was not evicted from a full table; and a
    breach is suppressed only when a freeze for its key, done or in progress, lies within the cooldown. *)
Theorem one_incident_per_cooldown config clock w : 0 < clock -> reachable config clock w ->
  (Z.of_nat (size (dt_errors (w_detector w))) <= cf_MaxTrackedSources (dt_config (w_detector w)) /\
   Z.of_nat (size (dt_lastTrigger (w_detector w))) <= Z.max 1 (i64 (cf_MaxTrackedSources (dt_config (w_detector w)) * 2))) /\
  (w_late w = false -> forall i j key t t', i <> j -> w_frozen w !! i = Some (key, t) -> w_frozen w !! j = Some (key, t') ->
     key ∉ w_evicted w -> cf_Cooldown config <= Z.abs (t - t')) /\
  (forall walk key now d', reserve walk key now (w_detector w) = (false, d') ->
     exists t, now - t < cf_Cooldown config /\
       ((key, t) ∈ w_frozen w \/ exists p, p ∈ w_threads w /\ holds p = Some (key, t))).
Proof.
  intros Hpos Hr. pose proof (reachable_inv _ _ _ Hpos Hr) as [Hc Hb _ Hh Ht]. split_and!.
  - apply Hb.
  - apply Hb.
  - intros Hl i j key t t' Hij Hi Hj Hn. destruct (decide (0 < cf_Cooldown config)) as [Hp|]; [|lia].
    destruct (Ht Hl Hp) as (_ & Hs & _). eapply (spaced_lookup _ _ _ i j); [exact Hs|done|..]; [| |done];
      apply lookup_app_l_Some; done.
  - intros walk key now d' H. assert (0 < cf_Cooldown config) as Hp.
    { revert H. unfold reserve. rewrite Hc. cbn. destruct (Z.ltb_spec 0 (cf_Cooldown config)); [done|]. by rewrite andb_false_r. }
    apply (cooldown_refused (cf_Cooldown config)) in H as (_ & t & [Ht' _]%(prune_lookup _ Hp) & Hlt); [|by rewrite Hc].
    exists t. split; [done|]. apply Hh in Ht'. apply elem_of_app in Ht' as [H|(p & H & Hp')%list_elem_of_omap]; [by left|right; eauto].
Qed.

Definition demo_event : Event := mkEvent "e1" "acme" "api" "http.latency" 1 ∅ [] (Some (float_of_int 1500)) "ms" "1" "" "".

Definition demo_breach : Breach := breach demo_event (default "" (latencyBreach DefaultConfig demo_event)) 5.

Definition demo_world : World :=
  mkWorld (set_triggers {["acme|api|latency" := 5]} (NewDetector DefaultConfig)) [AtAnnotate demo_breach]
    [("acme|api|latency", 5)] 5 false ∅.

Lemma any_order_list {V} : any_order (V := V) map_to_list.
Proof. by intros m. Qed.

Lemma step_to config w i p c k (a : ans c) d' w' : w_threads w !! i = Some p -> code config p = Call c k ->
  answered c a (w_detector w) d' -> w' = set_threads (<[i := after config p c a]> (w_threads w)) (noted p c a d' w) ->
  step config w w'.
Proof. intros H1 H2 H3 ->. by eapply step_call. Qed.

Lemma demo_reachable : reachable DefaultConfig 1 demo_world.
Proof.
  set (w1 := mkWorld (NewDetector DefaultConfig) [AtObserve demo_event] [] 1 false ∅).
  set (w2 := mkWorld (NewDetector DefaultConfig) [AtReserve demo_breach] [] 1 false ∅).
  set (w3 := mkWorld (w_detector demo_world) [AtFreeze demo_breach] [] 5 false ∅).
  apply (rtc_l _ _ w1); [apply (step_start _ demo_event)|].
  apply (rtc_l _ _ w2); [eapply (step_to _ _ 0 (AtObserve demo_event) dNow _ 5); [reflexivity..|vm_compute; reflexivity]|].
  apply (rtc_l _ _ w3); [eapply (step_to _ _ 0 (AtReserve demo_breach) (dReserve _ _) _ true (w_detector demo_world))|].
  - reflexivity.
  - reflexivity.
  - exists map_to_list. split; [apply any_order_list|]. vm_compute. reflexivity.
  - vm_compute. reflexivity.
  - apply rtc_once. eapply (step_to _ _ 0 (AtFreeze demo_breach) (dFreeze _ _ _ _ _) _ (Ok 3)); [reflexivity..|vm_compute; reflexivity].
Qed.

Lemma one_incident_per_cooldown_witness :
  reachable DefaultConfig 1 demo_world /\
  exists t, 7 - t < cf_Cooldown DefaultConfig /\
    (("acme|api|latency", t) ∈ w_frozen demo_world \/ exists p, p ∈ w_threads demo_world /\ holds p = Some ("acme|api|latency", t)).
Proof.
  split; [apply demo_reachable|].
  destruct (one_incident_per_cooldown DefaultConfig 1 demo_world ltac:(lia) demo_reachable) as (_ & _ & H).
  apply (H map_to_list "acme|api|latency" 7 (w_detector demo_world)). vm_compute. reflexivity.
Defined.

(** Two tenants whose names and sources run together share a cooldown: the incident of one suppresses that of the other. *)
Lemma cooldown_crosses_tenants :
  let a := mkEvent "e1" "acme" "eu|api" "http.latency" 1 ∅ [] (Some (float_of_int 1500)) "ms" "1" "" "" in
  let b := mkEvent "e2" "acme|eu" "api" "http.latency" 1 ∅ [] (Some (float_of_int 1500)) "ms" "1" "" "" in
  let key event := br_key (breach event (default "" (latencyBreach DefaultConfig event)) 5) in
  TenantID (WithTenant (ev_TenantID a)) <> TenantID (WithTenant (ev_TenantID b)) /\
  (reserve map_to_list (key b) 7 (reserve map_to_list (key a) 5 (NewDetector DefaultConfig)).2).1 = false.
Proof. cbv zeta. split; [by vm_compute|]. vm_compute. reflexivity. Qed.

(** ** Error bursts are counted exactly *)

Section burst.
Variable walk : gmap string (list time) -> list (string * list time).
Variable source : string.

Definition errors_after (times : list time) (d : Detector) : Detector :=
  foldl (fun d t => (recordError walk source t d).2) d times.

Definition within (window now : Z) (times : list time) : list time := filter (fun t => now - window < t) times.

Lemma recordError_source now d : let W := cf_ErrorWindow (dt_config d) in
  dt_errors (recordError walk source now d).2 !! source = Some (within W now (default [] (dt_errors d !! source)) ++ [now]) /\
  dt_config (recordError walk source now d).2 = dt_config d.
Proof. cbv zeta. unfold recordError. cbn. by rewrite lookup_insert_eq. Qed.

Lemma errors_after_config times d : dt_config (errors_after times d) = dt_config d.
Proof. unfold errors_after. revert d. induction times as [|t times IH]; intros d; [done|]. cbn [foldl]. by rewrite IH. Qed.

Lemma within_within window t now times : t <= now -> within window now (within window t times) = within window now times.
Proof.
  intros H. unfold within. rewrite list_filter_filter. apply list_filter_iff. intros x. lia.
Qed.

Lemma within_snoc window now times : 0 < window -> within window now (times ++ [now]) = within window now times ++ [now].
Proof. intros H. unfold within. rewrite filter_app, filter_cons_True; [done|lia]. Qed.

Lemma errors_after_window times now d : Sorted Z.le (times ++ [now]) -> dt_errors d !! source = None ->
  0 < cf_ErrorWindow (dt_config d) ->
  dt_errors (errors_after (times ++ [now]) d) !! source = Some (within (cf_ErrorWindow (dt_config d)) now (times ++ [now])).
Proof.
  intros Hs Hd Hw. rewrite within_snoc by done.
  revert now Hs. induction times as [|t times IH] using rev_ind; intros now Hs; unfold errors_after; rewrite foldl_app; cbn [foldl].
  - destruct (recordError_source now d) as [-> _]. by rewrite Hd.
  - fold (errors_after (times ++ [t]) d). destruct (recordError_source now (errors_after (times ++ [t]) d)) as [-> _].
    apply Sorted_StronglySorted in Hs; [|intros ???; lia]. apply StronglySorted_app in Hs as (Hall & Hs & _).
    rewrite (IH t) by (by apply StronglySorted_Sorted). cbn [default]. rewrite errors_after_config.
    unfold id. rewrite <- (within_snoc _ t times) by done. rewrite within_within by (apply Hall; set_solver). done.
Qed.

(** Of the errors of one source, in order of time, a burst is reported exactly when the window before the last one holds as
    many as the threshold. *)
Theorem burst_exact times t now d : Sorted Z.le ((times ++ [t]) ++ [now]) -> dt_errors d !! source = None ->
  0 < cf_ErrorWindow (dt_config d) ->
  is_Some (recordError walk source now (errors_after (times ++ [t]) d)).1 <->
  cf_ErrorThreshold (dt_config d) <= zlen (within (cf_ErrorWindow (dt_config d)) now ((times ++ [t]) ++ [now])).
Proof.
  intros Hs Hd Hw. pose proof Hs as Hs'. apply Sorted_StronglySorted in Hs'; [|intros ???; lia].
  apply StronglySorted_app in Hs' as (Hall & Hs' & _).
  unfold recordError. cbn [fst]. rewrite (errors_after_window times t) by (done || by apply StronglySorted_Sorted).
  cbn [default]. unfold id. rewrite errors_after_config.
  fold (within (cf_ErrorWindow (dt_config d)) now (within (cf_ErrorWindow (dt_config d)) t (times ++ [t]))).
  rewrite within_within by (apply Hall; set_solver). rewrite <- within_snoc by done.
  destruct (Z.ltb_spec (zlen (within (cf_ErrorWindow (dt_config d)) now ((times ++ [t]) ++ [now]))) (cf_ErrorThreshold (dt_config d))).
  - split; [by intros []|lia].
  - split; [done|by eexists].
Qed.

End burst.
