(* ===== verification/FlightRecorder.v ===== *)
(** * The flight recorder and frozen incidents ([internal/storage/flightrecorder.go],
    [internal/storage/dashboard.go])

    Every event the worker sees is appended to a short rolling buffer; freezing an incident
    copies a window of it into a durable table, from which replay, cost simulation and the
    evidence graph read it back.  The database is three tables, with the primary keys of the
    migrations: a [gmap] per table that has one.  JSON encoding and decoding of an envelope,
    and the collation of event IDs, are arguments.  Where SQL leaves a choice (rows captured
    at the same instant), the scan order of the table decides, and it is an argument too. *)

From S2P Require Import Prelude GoStrings GoTime Domain Proc Cardinality Replay Database.
From S2P Require Import Security.

Local Open Scope string_scope.
Local Open Scope Z_scope.
Local Open Scope list_scope.

Section recorder.
Context {J : Type}.
Variable encode : Event -> result J.
Variable decode : J -> result Event.
Variable text_le : relation string.
Context `{!RelDecision text_le}.

Record FlightRow := mkFlightRow {
  fl_tenant : string;
  fl_event_id : string;
  fl_captured_at : time;
  fl_event_time : time;
  fl_source : string;
  fl_event_type : string;
  fl_envelope : J;
}.

Record IncidentRow := mkIncidentRow {
  in_title : string;
  in_frozen_from : time;
  in_frozen_to : time;
  in_created_at : time;
  in_status : string;
  in_trigger_reason : option string;
  in_detected_at : time;
}.

(** [incident_events] has the primary key (tenant, incident, event, captured at). *)
Abbreviation frozenKey := (string * string * string * time)%type.

Record DB := mkDB {
  db_flights : list FlightRow;
  db_incidents : gmap (string * string) IncidentRow;
  db_frozen : gmap frozenKey FlightRow;
}.

Definition tenantForEvent (ctx : option Principal) (event : Event) : string :=
  let tenant := trim_space (ev_TenantID event) in if bool_decide (tenant = "") then TenantID ctx else tenant.

(** [now] is the time of the transaction. *)
Definition WriteFlightEvent (f : fault) (now : time) (ctx : option Principal) (event : Event) (db : DB) : result unit * DB :=
  match encode event with
  | Err e => (Err (ErrWrap "encode flight-recorder event" e), db)
  | Ok envelope =>
      let row := mkFlightRow (tenantForEvent ctx event) (ev_ID event) (pg_time now) (pg_time (ev_Timestamp event))
                   (ev_Source event) (ev_Type event) envelope in
      transact f (fun db => Ok (tt, mkDB (db_flights db ++ [row]) (db_incidents db) (db_frozen db))) db
  end.

(** [SELECT DISTINCT ON (event_id) ... ORDER BY event_id, captured_at ASC]. *)
Definition keep_earliest (m : gmap string FlightRow) (row : FlightRow) : gmap string FlightRow :=
  match m !! fl_event_id row with
  | Some other => if fl_captured_at row <? fl_captured_at other then <[fl_event_id row := row]> m else m
  | None => <[fl_event_id row := row]> m
  end.

Definition earliest (rows : list FlightRow) : gmap string FlightRow := foldl keep_earliest ∅ rows.

Definition in_window (tenant : string) (from to : time) (row : FlightRow) : Prop :=
  fl_tenant row = tenant /\ from <= fl_captured_at row /\ fl_captured_at row <= to.

#[local] Instance in_window_dec tenant from to row : Decision (in_window tenant from to row).
Proof. unfold in_window. apply _. Defined.

Definition frozen_key (tenant incidentID : string) (row : FlightRow) : frozenKey :=
  (tenant, incidentID, fl_event_id row, fl_captured_at row).

(** The rows that [INSERT INTO incident_events] offers. *)
Definition incoming (tenant incidentID : string) (rows : gmap string FlightRow) : gmap frozenKey FlightRow :=
  list_to_map ((fun kv => (frozen_key tenant incidentID kv.2, kv.2)) <$> map_to_list rows).

Section freeze.
Variable scan : list FlightRow -> list FlightRow.

Definition freeze_rows (now : time) (tenant incidentID title : string) (from to : time) (db : DB) : result (Z * DB) :=
  let row := match db_incidents db !! (tenant, incidentID) with
             | Some r => mkIncidentRow title from to (in_created_at r) (in_status r) (in_trigger_reason r) (in_detected_at r)
             | None => mkIncidentRow title from to (pg_time now) "open" None (pg_time now)
             end in
  let captured := earliest (filter (in_window tenant from to) (scan (db_flights db))) in
  let frozen := db_frozen db ∪ incoming tenant incidentID captured in
  Ok (Z.of_nat (size frozen) - Z.of_nat (size (db_frozen db)),
      mkDB (db_flights db) (<[(tenant, incidentID) := row]> (db_incidents db)) frozen).

Definition FreezeIncident (f : fault) (now : time) (ctx : option Principal) (incidentID title : string) (from to : time) (db : DB)
  : result Z * DB :=
  let incidentID := trim_space incidentID in
  let title := trim_space title in
  if bool_decide (incidentID = "") then (Err (ErrMsg "incident ID is required"), db)
  else if bool_decide (title = "") then (Err (ErrMsg "incident title is required"), db)
  else if is_zero from || is_zero to || (to <? from) then (Err (ErrMsg "valid incident time window is required"), db)
  else transact f (freeze_rows now (TenantID ctx) incidentID title (pg_time from) (pg_time to)) db.

End freeze.

Definition AnnotateIncident (f : fault) (now : time) (ctx : option Principal) (incidentID reason : string) (db : DB)
  : result unit * DB :=
  transact f (fun db => Ok (tt, mkDB (db_flights db)
    (alter (fun r => mkIncidentRow (in_title r) (in_frozen_from r) (in_frozen_to r) (in_created_at r) (in_status r) (Some reason)
                       (pg_time now)) (TenantID ctx, incidentID) (db_incidents db))
    (db_frozen db))) db.

(** The retention policy drops chunks of the buffer. *)
Definition expire (drop : FlightRow -> bool) (db : DB) : DB :=
  mkDB (filter (fun row => drop row = false) (db_flights db)) (db_incidents db) (db_frozen db).

(** [ORDER BY event_time ASC, event_id ASC]. *)
Definition row_le (a b : FlightRow) : Prop :=
  fl_event_time a < fl_event_time b \/ fl_event_time a = fl_event_time b /\ text_le (fl_event_id a) (fl_event_id b).

#[local] Instance row_le_dec a b : Decision (row_le a b).
Proof. unfold row_le. apply _. Defined.

Definition rows_of (tenant incidentID : string) (db : DB) : gmap frozenKey FlightRow :=
  filter (fun kv => kv.1.1.1 = (tenant, incidentID)) (db_frozen db).

Definition of_incident (tenant incidentID : string) (db : DB) : list FlightRow := snd <$> map_to_list (rows_of tenant incidentID db).

Definition fill_tenant (tenant : string) (event : Event) : Event :=
  if bool_decide (ev_TenantID event = "")
  then mkEvent (ev_ID event) tenant (ev_Source event) (ev_Type event) (ev_Timestamp event) (ev_Tags event) (ev_Payload event)
         (ev_Value event) (ev_Unit event) (ev_SchemaVersion event) (ev_SchemaURL event) (ev_CorrelationID event)
  else event.

Fixpoint decode_rows (tenant : string) (rows : list FlightRow) : result (list Event) :=
  match rows with
  | [] => Ok []
  | row :: rows' =>
      match decode (fl_envelope row) with
      | Err e => Err (ErrWrap "decode incident envelope" e)
      | Ok event =>
          match decode_rows tenant rows' with
          | Err e => Err e
          | Ok events => Ok (fill_tenant tenant event :: events)
          end
      end
  end.

Definition page (limit : Z) : Z := if (limit <? 1) || (1000 <? limit) then 250 else limit.

(** [lost] is the error of a query that fails, or of reading its rows. *)
Definition IncidentEvents (lost : option error) (ctx : option Principal) (incidentID : string) (limit : Z) (db : DB)
  : result (list Event) :=
  match lost with
  | Some e => Err e
  | None =>
      let tenant := TenantID ctx in
      let captured := snd <$> map_to_list (earliest (of_incident tenant incidentID db)) in
      decode_rows tenant (take (Z.to_nat (page limit)) (merge_sort row_le captured))
  end.

(** ** The earliest capture of each event *)

Implicit Types (rows : list FlightRow) (row : FlightRow) (db : DB).

Definition first_capture rows row : Prop :=
  row ∈ rows /\ forall other, other ∈ rows -> fl_event_id other = fl_event_id row -> fl_captured_at row <= fl_captured_at other.

Lemma earliest_snoc rows row : earliest (rows ++ [row]) = keep_earliest (earliest rows) row.
Proof. unfold earliest. by rewrite foldl_app. Qed.

Lemma earliest_complete rows row : row ∈ rows -> is_Some (earliest rows !! fl_event_id row).
Proof.
  induction rows as [|r rows IH] using rev_ind; intros Ho; [by apply elem_of_nil in Ho|]. rewrite earliest_snoc. unfold keep_earliest.
  destruct (decide (fl_event_id r = fl_event_id row)) as [Heq|Hne].
  - rewrite Heq. destruct (earliest rows !! fl_event_id row) as [z|] eqn:E; [destruct (_ <? _)|]; rewrite ?lookup_insert_eq; eauto.
  - apply elem_of_app in Ho as [Ho| ->%list_elem_of_singleton]; [|done].
    destruct (earliest rows !! fl_event_id r) as [z|]; [destruct (_ <? _)|]; rewrite ?lookup_insert_ne by done; by apply IH.
Qed.

Lemma earliest_sound rows id row : earliest rows !! id = Some row -> fl_event_id row = id /\ first_capture rows row.
Proof.
  revert id row. induction rows as [|r rows IH] using rev_ind; intros id row; [done|]. rewrite earliest_snoc. unfold keep_earliest.
  assert (forall found, earliest rows !! id = Some found -> (fl_event_id r = id -> fl_captured_at found <= fl_captured_at r) ->
    fl_event_id found = id /\ first_capture (rows ++ [r]) found) as Hold.
  { intros found [Hid [Hin Hmin]]%IH Hr. split; [done|]. split; [set_solver|]. intros other Ho Heq.
    apply elem_of_app in Ho as [Ho| ->%list_elem_of_singleton]; [by apply Hmin|]. apply Hr. congruence. }
  destruct (earliest rows !! fl_event_id r) as [other|] eqn:E.
  - destruct (Z.ltb_spec (fl_captured_at r) (fl_captured_at other)).
    + intros [[<- <-]|[Hne Hl]]%lookup_insert_Some; [|apply Hold; [done|congruence]].
      split; [done|]. split; [set_solver|]. intros o Ho Heq. apply IH in E as [Hid [_ Hmin]].
      apply elem_of_app in Ho as [Ho| ->%list_elem_of_singleton]; [|lia]. specialize (Hmin _ Ho ltac:(congruence)). lia.
    + intros Hl. apply Hold; [done|]. intros <-. rewrite E in Hl. injection Hl as ->. lia.
  - intros [[<- <-]|[Hne Hl]]%lookup_insert_Some; [|apply Hold; [done|congruence]].
    split; [done|]. split; [set_solver|]. intros o Ho Heq. apply elem_of_app in Ho as [Ho| ->%list_elem_of_singleton]; [|lia].
    apply earliest_complete in Ho as [x Hx]. rewrite Heq, E in Hx. done.
Qed.

(** ** What a freeze copies *)

Definition by_id (m : gmap string FlightRow) : Prop := forall id row, m !! id = Some row -> fl_event_id row = id.

Lemma incoming_nodup tenant incidentID (m : gmap string FlightRow) : by_id m ->
  NoDup ((fun kv => (frozen_key tenant incidentID kv.2, kv.2)) <$> map_to_list m).*1.
Proof.
  intros Hm. rewrite <- list_fmap_compose. apply NoDup_fmap_2_strong; [|apply NoDup_map_to_list].
  intros [id r] [id' r'] Hi%elem_of_map_to_list Hi'%elem_of_map_to_list [= Heq _].
  rewrite (Hm _ _ Hi), (Hm _ _ Hi') in Heq. subst id'. congruence.
Qed.

Lemma incoming_lookup tenant incidentID (m : gmap string FlightRow) key row : by_id m ->
  incoming tenant incidentID m !! key = Some row <-> key = frozen_key tenant incidentID row /\ m !! fl_event_id row = Some row.
Proof.
  intros Hm. unfold incoming. rewrite <- elem_of_list_to_map.
  - rewrite list_elem_of_fmap. split.
    + intros ([id r] & [= -> ->] & Hin%elem_of_map_to_list). cbn. split; [done|]. by rewrite (Hm _ _ Hin).
    + intros [-> H]. exists (fl_event_id row, row). split; [done|]. by apply elem_of_map_to_list.
  - by apply incoming_nodup.
Qed.

Lemma earliest_by_id rows : by_id (earliest rows).
Proof. intros id row [H _]%earliest_sound. done. Qed.

(** The rows of a map of captures, in any order, give the map back. *)
Lemma earliest_values (m : gmap string FlightRow) rows : by_id m -> (forall row, row ∈ rows <-> m !! fl_event_id row = Some row) ->
  earliest rows = m.
Proof.
  intros Hm Hr. apply map_eq. intros id. destruct (earliest rows !! id) as [row|] eqn:E.
  - apply earliest_sound in E as [<- [Hin _]]. symmetry. by apply Hr.
  - destruct (m !! id) as [row|] eqn:Em; [|done]. pose proof (Hm _ _ Em) as Hid. subst id.
    apply Hr, earliest_complete in Em as [x Hx]. by rewrite Hx in E.
Qed.

Lemma incoming_size tenant incidentID (m : gmap string FlightRow) : by_id m -> size (incoming tenant incidentID m) = size m.
Proof. intros Hm. unfold incoming. rewrite map_size_list_to_map by (by apply incoming_nodup). by rewrite length_fmap, length_map_to_list. Qed.

Lemma freeze_rows_incident scan now tenant incidentID title from to db n db' :
  freeze_rows scan now tenant incidentID title from to db = Ok (n, db') ->
  db_flights db' = db_flights db /\
  db_frozen db' = db_frozen db ∪ incoming tenant incidentID (earliest (filter (in_window tenant from to) (scan (db_flights db)))) /\
  n = Z.of_nat (size (db_frozen db')) - Z.of_nat (size (db_frozen db)).
Proof. unfold freeze_rows. by intros [= <- <-]. Qed.

Lemma fresh_disjoint tenant incidentID db (m : gmap string FlightRow) : by_id m ->
  (forall key, is_Some (db_frozen db !! key) -> key.1.1 <> (tenant, incidentID)) -> db_frozen db ##ₘ incoming tenant incidentID m.
Proof.
  intros Hm Hf. apply map_disjoint_spec. intros key x y Hx [-> _]%incoming_lookup; [|done]. by apply (Hf _ (mk_is_Some _ _ Hx)).
Qed.

Lemma values_by_id (m : gmap string FlightRow) row : by_id m -> row ∈ (map_to_list m).*2 <-> m !! fl_event_id row = Some row.
Proof.
  intros Hm. rewrite list_elem_of_fmap. split.
  - intros ([id r] & -> & H%elem_of_map_to_list). cbn. by rewrite (Hm _ _ H).
  - intros H. exists (fl_event_id row, row). split; [done|]. by apply elem_of_map_to_list.
Qed.

Lemma ids_nodup (m : gmap string FlightRow) : by_id m -> NoDup (fl_event_id <$> (map_to_list m).*2).
Proof.
  intros Hm. replace (fl_event_id <$> (map_to_list m).*2) with (map_to_list m).*1; [apply NoDup_fst_map_to_list|].
  rewrite <- list_fmap_compose. apply list_fmap_ext. intros i [id row] H%list_elem_of_lookup_2%elem_of_map_to_list. cbn.
  symmetry. by apply Hm.
Qed.

(** The rows of an incident that had none. *)
Lemma fresh_incident tenant incidentID db db' (m : gmap string FlightRow) :
  by_id m -> (forall key, is_Some (db_frozen db !! key) -> key.1.1 <> (tenant, incidentID)) ->
  db_frozen db' = db_frozen db ∪ incoming tenant incidentID m ->
  earliest (of_incident tenant incidentID db') = m.
Proof.
  intros Hm Hf Hd. apply earliest_values; [done|]. intros row. unfold of_incident. rewrite list_elem_of_fmap. split.
  - intros ([key r] & -> & Hin%elem_of_map_to_list). cbn. apply map_lookup_filter_Some in Hin as [Hin Hk]. cbn in Hk.
    rewrite Hd in Hin. apply lookup_union_Some_raw in Hin as [Hin|[_ Hin]]; [exfalso; by eapply Hf|].
    by apply incoming_lookup in Hin as [_ H].
  - intros H. exists (frozen_key tenant incidentID row, row). split; [done|]. apply elem_of_map_to_list, map_lookup_filter_Some.
    split; [|done]. rewrite Hd. apply lookup_union_Some_raw. right. split; [|by apply incoming_lookup].
    destruct (db_frozen db !! _) eqn:E; [|done]. exfalso. by eapply (Hf (frozen_key tenant incidentID row)).
Qed.

(** ** Histories of the database

    [allowed] says which incidents the history may freeze. *)

Inductive step (allowed : string * string -> Prop) : DB -> DB -> Prop :=
  | step_write f now ctx event db : step allowed db (WriteFlightEvent f now ctx event db).2
  | step_freeze scan f now ctx incidentID title from to db :
      (forall rows, scan rows ≡ₚ rows) -> allowed (TenantID ctx, trim_space incidentID) ->
      step allowed db (FreezeIncident scan f now ctx incidentID title from to db).2
  | step_annotate f now ctx incidentID reason db : step allowed db (AnnotateIncident f now ctx incidentID reason db).2
  | step_expire drop db : step allowed db (expire drop db).

Definition empty_db : DB := mkDB [] ∅ ∅.

Definition reachable : DB -> Prop := rtc (step (fun _ => True)) empty_db.

(** What the worker writes is JSON that decodes. *)
Hypothesis encoded_decodes : forall event envelope, encode event = Ok envelope -> exists event', decode envelope = Ok event'.

Definition readable row : Prop := exists event, decode (fl_envelope row) = Ok event.

Lemma freeze_rows_sub scan now tenant incidentID title from to db n db' :
  freeze_rows scan now tenant incidentID title from to db = Ok (n, db') -> db_frozen db ⊆ db_frozen db'.
Proof. intros (_ & -> & _)%freeze_rows_incident. apply map_union_subseteq_l. Qed.

Lemma step_flights allowed db db' : step allowed db db' -> Forall readable (db_flights db) -> Forall readable (db_flights db').
Proof.
  intros [f now ctx event db0|scan f now ctx incidentID title from to db0 Hs Ha|f now ctx incidentID reason db0|drop db0] H.
  - unfold WriteFlightEvent. destruct (encode event) as [envelope|e] eqn:E; [|done]. apply encoded_decodes in E.
    apply (transact_keeps f _ (fun _ d => Forall readable (db_flights d))); [done|]. intros a d [= <- <-]. cbn.
    apply Forall_app. split; [done|]. by apply Forall_singleton.
  - unfold FreezeIncident. do 2 (case_bool_decide; [done|]). destruct (_ || _); [done|].
    apply (transact_keeps f _ (fun _ d => Forall readable (db_flights d))); [done|].
    by intros a d (-> & _)%freeze_rows_incident.
  - apply (transact_keeps f _ (fun _ d => Forall readable (db_flights d))); [done|]. by intros x d [= <- <-].
  - cbn. rewrite Forall_forall in *. intros row [_ Hin]%list_elem_of_filter. auto.
Qed.

Lemma reachable_readable db : reachable db -> Forall readable (db_flights db).
Proof.
  unfold reachable. assert (Forall readable (db_flights empty_db)) as H by done. revert H. generalize empty_db.
  intros d0 H0 Hr. induction Hr; [done|]. by eapply IHHr, step_flights.
Qed.

(** The rows of an incident that the history does not freeze stay as they are. *)
Lemma step_keeps_rows tenant incidentID db db' : step (fun k => k <> (tenant, incidentID)) db db' ->
  rows_of tenant incidentID db' = rows_of tenant incidentID db.
Proof.
  intros [f now ctx event db0|scan f now ctx id title from to db0 Hs Ha|f now ctx id reason db0|drop db0].
  - unfold WriteFlightEvent. destruct (encode event); [|done].
    apply (transact_keeps f _ (fun _ d => rows_of tenant incidentID d = rows_of tenant incidentID db0)); [done|]. by intros x d [= <- <-].
  - unfold FreezeIncident. do 2 (case_bool_decide; [done|]). destruct (_ || _); [done|].
    apply (transact_keeps f _ (fun _ d => rows_of tenant incidentID d = rows_of tenant incidentID db0)); [done|].
    intros a d (_ & Hd & _)%freeze_rows_incident. unfold rows_of. rewrite Hd.
    apply map_eq. intros key. apply option_eq. intros row. rewrite !map_lookup_filter_Some, lookup_union_Some_raw. split; [|tauto].
    intros [[Hl|[_ Hi]] Hk]; [done|]. apply incoming_lookup in Hi as [-> _]; [|apply earliest_by_id]. cbn in Hk. congruence.
  - apply (transact_keeps f _ (fun _ d => rows_of tenant incidentID d = rows_of tenant incidentID db0)); [done|]. by intros x d [= <- <-].
  - done.
Qed.

Lemma steps_keep_rows tenant incidentID db db' : rtc (step (fun k => k <> (tenant, incidentID))) db db' ->
  rows_of tenant incidentID db' = rows_of tenant incidentID db.
Proof. induction 1 as [|d1 d2 d3 H _ IH]; [done|]. rewrite IH. by apply step_keeps_rows. Qed.

#[local] Instance row_le_total : Total text_le -> Total row_le.
Proof.
  intros Ht a b. unfold row_le. destruct (Z.lt_trichotomy (fl_event_time a) (fl_event_time b)) as [H|[H|H]]; [by left; left| |by right; left].
  destruct (Ht (fl_event_id a) (fl_event_id b)); [left|right]; by right.
Qed.

Lemma decode_rows_ok tenant rows : Forall readable rows -> exists events, decode_rows tenant rows = Ok events /\
  Forall2 (fun row event => exists event', decode (fl_envelope row) = Ok event' /\ event = fill_tenant tenant event') rows events.
Proof.
  induction 1 as [|row rows [event He] _ (events & Hd & Hf)]; cbn; [by exists []|]. rewrite He, Hd.
  exists (fill_tenant tenant event :: events). split; [done|]. constructor; [|done]. eauto.
Qed.


End recorder.

(** ** Examples *)

Section demo.

Let event (id : string) (t : time) : Event := mkEvent id "acme" "api" "http.latency" t ∅ [] None "" "1" "" "".
Let write := WriteFlightEvent (J := Event) Ok NoFault.
Let ctx : option Principal := WithTenant "acme".

(** Two captures of one event, one of another tenant, one outside the window. *)
Definition demo_flights : @DB Event :=
  (write 9000 None (event "late" 4000)
    (write 6000 None (event "a" 2000)
      (write 5000 None (mkEvent "b" "other" "api" "x" 1000 ∅ [] None "" "1" "" "")
        (write 4000 None (event "c" 1000)
          (write 3000 None (event "a" 2000) empty_db).2).2).2).2).2.

Definition demo_frozen : result Z * @DB Event := FreezeIncident id NoFault 8000 ctx "INC-1" "outage" 2000 7000 demo_flights.

Lemma demo_flights_reachable : reachable (J := Event) Ok demo_flights.
Proof. unfold demo_flights, write. do 5 (eapply rtc_r; [|apply step_write]). apply rtc_refl. Qed.


(** A reader who asks for more than a thousand events gets at most 250. *)
Lemma large_limit_truncates {J} (decode : J -> result Event) text_le `{!RelDecision text_le} lost who incidentID limit db events :
  1000 < limit -> IncidentEvents decode text_le lost who incidentID limit db = Ok events -> zlen events <= 250.
Proof.
  intros Hl. unfold IncidentEvents, page. destruct (Z.ltb_spec 1000 limit); [|lia]. rewrite orb_true_r. destruct lost; [done|].
  set (rows := take _ _). assert (zlen rows <= 250) as Hr by (unfold zlen, rows; rewrite length_take; lia). revert events Hr.
  generalize rows. intros rows'. generalize 250. induction rows' as [|row rows' IH]; intros k events Hk; cbn.
  { intros [= <-]. exact Hk. }
  destruct (decode _); [|done]. destruct (decode_rows _ _ _) as [events'|] eqn:E; [|done]. intros [= <-].
  specialize (IH (k - 1) events'). unfold zlen in *. cbn in *. specialize (IH ltac:(lia) eq_refl). lia.
Qed.

End demo.

(** A replay with the default limit of [telemetryctl], or with any above a thousand, reads at most 250 events of the store,
    and completes without an error. *)
Lemma replay_truncates {J} (decode : J -> result Event) text_le `{!RelDecision text_le} walk options t run who :
  runs (Runner_Run walk options) t (run, None) -> op_MaxEvents options < 1 \/ 1000 < op_MaxEvents options ->
  (forall limit events, observe (ans := Replay.ans) (pEvents (op_IncidentID options) limit) (Ok events) ∈ t ->
     exists db, IncidentEvents decode text_le None who (op_IncidentID options) limit db = Ok events) ->
  run_EventCount run <= 250 /\ run_Status run = "completed".
Proof.
  intros [(-> & He & Hp)|(topic & ti & run0 & tl & run1 & err1 & completed & x & limit & Hc & Hti & -> & H0 & Ha & Hl & Hn & -> & He1 & _ & ->)]%Runner_Run_cases
    Hmax Hstore; [done|].
  specialize (He1 eq_refl). subst err1. destruct (Hn eq_refl) as (events & Hin & Hlen).
  edestruct Hstore as [db Hdb]; [apply elem_of_app; right; right; apply elem_of_app; left; exact Hin|].
  split; [|done]. apply large_limit_truncates in Hdb; [|destruct (_ || _) eqn:E; [lia|]; apply orb_false_iff in E as [?%Z.ltb_ge ?%Z.ltb_ge]; lia].
  destruct H0 as (_ & _ & H1 & _). destruct Ha as (_ & _ & A1 & _). cbn in H1 |- *. unfold zlen in *. cbn in H1. lia.
Qed.
