(* ===== verification/Evidence.v ===== *)
(** * Evidence graphs ([internal/evidence/graph.go])

    The graph of a frozen incident: its events, the replays and cost simulations of it and
    the changes around it are nodes, and each edge states a relation between two of them
    with a reason.  The builder offers edges in a fixed order; [add] keeps an edge if the
    graph is not full and it is new.  The order in which a Go map of event groups is visited
    is an argument, one per loop. *)

From S2P Require Import Prelude GoStrings GoFloat GoPath GoTime Domain Replay CostSim.
From S2P Require Import ChangeIntel.

Local Open Scope string_scope.
Local Open Scope Z_scope.
Local Open Scope list_scope.

Definition AssessmentSupporting := "supporting".
Definition AssessmentContradicting := "contradicting".
Definition AssessmentRelated := "related".

Record Summary := mkSummary {
  sm_NodeCount : Z;
  sm_EdgeCount : Z;
  sm_SupportingEdges : Z;
  sm_ContradictingEdges : Z;
  sm_RelatedEdges : Z;
}.

Record Node := mkNode {
  nd_ID : string;
  nd_Kind : string;
  nd_Label : string;
  nd_Source : string;
  nd_EventType : string;
  nd_Timestamp : time;
  nd_Attributes : gmap string string;
}.

Record Edge := mkEdge {
  ed_From : string;
  ed_To : string;
  ed_Relation : string;
  ed_Assessment : string;
  ed_Reason : string;
}.

Record hypothesisRecord := mkHypothesis {
  hy_ID : string;
  hy_Statement : string;
  hy_Status : string;
  hy_Supporting : Z;
  hy_Contradicting : Z;
  hy_Notes : string;
}.

Record Graph := mkGraph {
  gr_TenantID : string;
  gr_IncidentID : string;
  gr_GeneratedAt : time;
  gr_Disclaimer : string;
  gr_Summary : Summary;
  gr_Nodes : list Node;
  gr_Edges : list Edge;
  gr_Hypotheses : list hypothesisRecord;
}.

(** ** What an event shows *)

Definition latencyValue (event : Event) (test : float64 -> bool) : bool :=
  match ev_Value event with
  | None => false
  | Some value =>
      if negb (bool_decide (to_lower (ev_Unit event) = "ms")) then false
      else
        let kind := to_lower (ev_Type event) in
        if negb (string_contains kind "latency") && negb (string_contains kind "duration") then false
        else test value
  end.

Definition highLatency (event : Event) : bool := latencyValue event (fun value => value >=? float_of_int 1000)%F.
Definition normalLatency (event : Event) : bool := latencyValue event (fun value => value <? float_of_int 500)%F.

Definition isError (event : Event) : bool :=
  if string_contains (to_lower (ev_Type event)) "error" then true
  else existsb (fun key =>
         let value := to_lower (tag_of (ev_Tags event) key) in
         bool_decide (value = "error") || bool_decide (value = "critical") || bool_decide (value = "fatal"))
       ["severity"; "level"].

Definition isChange (event : Event) : bool :=
  let kind := to_lower (ev_Type event) in
  if string_contains kind "deploy" || string_contains kind "rollback" || string_contains kind "release" ||
     string_contains kind "change" then true
  else existsb (fun key => negb (bool_decide (tag_of (ev_Tags event) key = "")))
         ["telemetryforge.change_id"; "deployment_id"; "rollback_of"; "release"; "version"].

Definition eventKind (event : Event) : string :=
  if isChange event then "change" else if isError event then "error" else if highLatency event then "latency" else "event".

Definition eventLabel (event : Event) : string := ev_Source event +:+ " · " +:+ ev_Type event.

(** The order of [sort.SliceStable]: by time, then by ID. *)
Definition event_le (a b : Event) : Prop :=
  ev_Timestamp a < ev_Timestamp b \/ ev_Timestamp a = ev_Timestamp b /\ String.le (ev_ID a) (ev_ID b).

#[export] Instance event_le_dec a b : Decision (event_le a b).
Proof. unfold event_le. apply _. Defined.

Definition sortEvents (events : list Event) : list Event := merge_sort event_le events.

(** ** The nodes *)

Definition attribute_keys : list string :=
  ["deployment_id"; "version"; "release"; "git_sha"; "build_id"; "telemetryforge.change_id"; "telemetryforge.change_kind";
   "telemetryforge.environment"; "telemetryforge.version"; "telemetryforge.git_sha"; "telemetryforge.build_id";
   "telemetryforge.rollback_of"].

Definition filled (pairs : list (string * string)) : gmap string string :=
  list_to_map (filter (fun kv => trim_space kv.2 <> "") pairs).

Definition event_id (id : string) : string := "event:" +:+ id.

Definition event_node (event : Event) : Node :=
  mkNode (event_id (ev_ID event)) (eventKind event) (eventLabel event) (ev_Source event) (ev_Type event) (ev_Timestamp event)
    (filled ((fun key => (key, tag_of (ev_Tags event) key)) <$> attribute_keys)).

Definition replay_node (run : Run) : Node :=
  mkNode ("replay:" +:+ run_ID run) "replay" (run_ID run) "" "" (run_StartedAt run)
    {["status" := run_Status run; "active_policy" := run_ActivePolicy run +:+ "@" +:+ run_ActiveVersion run;
      "changed_events" := format_d (run_ChangedEventCount run); "quarantined" := format_d (run_QuarantinedCount run)]}.

Definition cost_node (simulation : Simulation) : Node :=
  mkNode ("cost:" +:+ si_ID simulation) "cost-simulation" (si_ID simulation) "" "" (si_StartedAt simulation)
    {["active_policy" := si_ActivePolicy simulation +:+ "@" +:+ si_ActiveVersion simulation;
      "baseline_series" := format_d (pf_Series (si_Baseline simulation));
      "active_series" := format_d (pf_Series (si_Active simulation))]}.

Definition change_node (marker : Marker) : Node :=
  mkNode ("change:" +:+ mk_ChangeID marker) "change" (mk_Source marker +:+ " · " +:+ mk_Kind marker) (mk_Source marker)
    (mk_Kind marker) (mk_ChangedAt marker)
    (filled [("environment", mk_Environment marker); ("version", mk_Version marker); ("previous_version", mk_PreviousVersion marker);
             ("git_sha", mk_GitSHA marker); ("build_id", mk_BuildID marker); ("rollback_of", mk_RollbackOf marker)] ∪
     {["change_id" := mk_ChangeID marker; "kind" := mk_Kind marker]}).

(** ** The edges *)

Definition captured_edge (root : string) (event : Event) : Edge :=
  mkEdge root (event_id (ev_ID event)) "captured-in" AssessmentRelated "Event is part of the frozen incident evidence window.".

Definition replay_edge (root : string) (run : Run) : Edge :=
  mkEdge root ("replay:" +:+ run_ID run) "evaluated-by-replay" AssessmentRelated
    "Replay evaluated this incident under a recorded policy version.".

Definition cost_edge (root : string) (simulation : Simulation) : Edge :=
  mkEdge root ("cost:" +:+ si_ID simulation) "evaluated-by-cost-simulation" AssessmentRelated
    "Cost simulation used the frozen incident as its comparison sample.".

Definition correlation_edge (from to : string) : Edge :=
  mkEdge from to "shared-correlation" AssessmentSupporting
    "Events share a captured correlation_id, supporting membership in the same application flow.".

Definition trace_edge (from to : string) : Edge :=
  mkEdge from to "shared-trace" AssessmentSupporting
    "Events share a captured trace_id, supporting membership in the same distributed trace.".

Definition sequence_edge (from to : string) : Edge :=
  mkEdge from to "same-source-sequence" AssessmentRelated
    "Events occurred on the same source within 30 seconds; this is temporal context, not causality.".

Definition latency_edge (from to : string) : Edge :=
  mkEdge from to "latency-precedes-error" AssessmentSupporting
    "A high-latency signal preceded an error on the same source within 60 seconds.".

Definition recovery_edge (from to : string) : Edge :=
  mkEdge from to "recovery-signal" AssessmentContradicting
    "A later normal-latency signal contradicts a hypothesis of continuously sustained degradation.".

Definition change_edge (from to : string) : Edge :=
  mkEdge from to "change-precedes-error" AssessmentSupporting
    "A captured deployment/change marker preceded an error on the same source within five minutes. Temporal association does not prove the change caused the error.".

Definition near_edge (root to : string) : Edge :=
  mkEdge root to "change-near-incident" AssessmentRelated
    "A structured operational change occurred near the frozen incident window.".

Definition structured_edge (from to : string) : Edge :=
  mkEdge from to "structured-change-precedes-error" AssessmentSupporting
    "A structured change marker preceded an error on the same source within ten minutes. Temporal association does not prove the change caused the error.".

Definition rollback_edge (from to : string) : Edge :=
  mkEdge from to "explicit-rollback-of" AssessmentRelated "The rollback marker explicitly references the earlier change ID.".

Definition recovered_edge (from to : string) : Edge :=
  mkEdge from to "recovery-after-rollback" AssessmentContradicting
    "A normal-latency signal followed the rollback. This contradicts uninterrupted degradation but does not prove the rollback caused recovery.".

(** [relationshipBuilder.add]. *)
Definition maxEdges : Z := 2000.

Definition edge_key (edge : Edge) : string := ed_From edge +:+ "|" +:+ ed_To edge +:+ "|" +:+ ed_Relation edge.

Definition add (b : list Edge * gset string) (edge : Edge) : list Edge * gset string :=
  let '(edges, seen) := b in
  if maxEdges <=? zlen edges then b
  else if bool_decide (edge_key edge ∈ seen) then b
  else (edges ++ [edge], {[edge_key edge]} ∪ seen).

Definition group_by (key : Event -> option string) (events : list Event) : gmap string (list Event) :=
  foldl (fun groups event => match key event with
                             | Some k => <[k := default [] (groups !! k) ++ [event]]> groups
                             | None => groups
                             end) ∅ events.

Definition nonempty (s : string) : option string := if bool_decide (s = "") then None else Some s.

Section relations.
(** [nodeByEvent]: a missing event has the empty node. *)
Variable nodeByEvent : gmap string string.

Definition node_of (event : Event) : string := default "" (nodeByEvent !! ev_ID event).

(** [linkConsecutive], the edges it offers. *)
Fixpoint link_consecutive (edge : string -> string -> Edge) (group : list Event) : list Edge :=
  match group with
  | previous :: ((current :: _) as rest) => edge (node_of previous) (node_of current) :: link_consecutive edge rest
  | _ => []
  end.

Fixpoint link_sequence (group : list Event) : list Edge :=
  match group with
  | previous :: ((current :: _) as rest) =>
      (if 30 * ns_second <? sub_saturated (ev_Timestamp current) (ev_Timestamp previous) then []
       else [sequence_edge (node_of previous) (node_of current)]) ++ link_sequence rest
  | _ => []
  end.

(** The first event within [limit] of [start] that passes a test. *)
Fixpoint first_within (limit : Z) (test : Event -> bool) (start : time) (rest : list Event) : option Event :=
  match rest with
  | [] => None
  | right_ :: rest' =>
      if limit <? sub_saturated (ev_Timestamp right_) start then None
      else if test right_ then Some right_ else first_within limit test start rest'
  end.

Definition offer (edge : string -> string -> Edge) (left_ : Event) (found : option Event) : list Edge :=
  match found with Some right_ => [edge (node_of left_) (node_of right_)] | None => [] end.

Fixpoint link_symptoms (group : list Event) : list Edge :=
  match group with
  | [] => []
  | left_ :: rest =>
      (if highLatency left_ then offer latency_edge left_ (first_within (60 * ns_second) isError (ev_Timestamp left_) rest) else []) ++
      (if isError left_ then offer recovery_edge left_ (first_within (2 * ns_minute) normalLatency (ev_Timestamp left_) rest) else []) ++
      link_symptoms rest
  end.

Fixpoint errors_after_change (change : Event) (rest : list Event) : list Edge :=
  match rest with
  | [] => []
  | candidate :: rest' =>
      if 5 * ns_minute <? sub_saturated (ev_Timestamp candidate) (ev_Timestamp change) then []
      else (if bool_decide (ev_Source candidate = ev_Source change) && isError candidate
            then [change_edge (node_of change) (node_of candidate)] else []) ++ errors_after_change change rest'
  end.

(** [addChangeEdges], over the sorted events. *)
Fixpoint change_edges (events : list Event) : list Edge :=
  match events with
  | [] => []
  | change :: rest => (if isChange change then errors_after_change change rest else []) ++ change_edges rest
  end.

(** The node of a change: its event's, or one of its own. *)
Definition change_node_id (marker : Marker) : string :=
  let id := default "" (nodeByEvent !! mk_EventID marker) in
  if bool_decide (id = "") then "change:" +:+ mk_ChangeID marker else id.

Definition own_node (marker : Marker) : bool := bool_decide (default "" (nodeByEvent !! mk_EventID marker) = "").

Fixpoint errors_after_marker (marker : Marker) (events : list Event) : list Edge :=
  match events with
  | [] => []
  | event :: events' =>
      if negb (bool_decide (ev_Source event = mk_Source marker)) || negb (isError event) ||
         (ev_Timestamp event <? mk_ChangedAt marker)
      then errors_after_marker marker events'
      else if 10 * ns_minute <? sub_saturated (ev_Timestamp event) (mk_ChangedAt marker) then []
      else structured_edge (change_node_id marker) (node_of event) :: errors_after_marker marker events'
  end.

Definition marker_edges (root : string) (events : list Event) (marker : Marker) : list Edge :=
  (if own_node marker then [near_edge root (change_node_id marker)] else []) ++ errors_after_marker marker events.

(** [nodeByChange], the last marker of an ID counting. *)
Definition node_by_change (changes : list Marker) : gmap string string :=
  foldl (fun m marker => <[mk_ChangeID marker := change_node_id marker]> m) ∅ changes.

Fixpoint recovery_after (rollback : string) (marker : Marker) (events : list Event) : list Edge :=
  match events with
  | [] => []
  | event :: events' =>
      if negb (bool_decide (ev_Source event = mk_Source marker)) || (ev_Timestamp event <? mk_ChangedAt marker)
      then recovery_after rollback marker events'
      else if 10 * ns_minute <? sub_saturated (ev_Timestamp event) (mk_ChangedAt marker) then []
      else if normalLatency event then [recovered_edge rollback (node_of event)]
      else recovery_after rollback marker events'
  end.

Definition rollback_edges (nodeByChange : gmap string string) (events : list Event) (marker : Marker) : list Edge :=
  if negb (bool_decide (mk_Kind marker = KindRollback)) || bool_decide (mk_RollbackOf marker = "") then []
  else
    let rollbackNode := default "" (nodeByChange !! mk_ChangeID marker) in
    let originalNode := default "" (nodeByChange !! mk_RollbackOf marker) in
    (if negb (bool_decide (rollbackNode = "")) && negb (bool_decide (originalNode = ""))
     then [rollback_edge originalNode rollbackNode] else []) ++
    recovery_after rollbackNode marker events.

(** [addStructuredChanges]. *)
Definition structured_edges (root : string) (changes : list Marker) (events : list Event) : list Edge :=
  (changes ≫= marker_edges root events) ++ (changes ≫= rollback_edges (node_by_change changes) events).

End relations.

(** ** Hypotheses *)

Definition hypothesis (id statement : string) (support contradict : Z) (notes : string) : hypothesisRecord :=
  mkHypothesis id statement
    (if (0 <? support) && (0 <? contradict) then "mixed" else if 0 <? support then "supported"
     else if 0 <? contradict then "contradicted" else "insufficient")
    support contradict notes.

Definition related_by (relations : list string) (edges : list Edge) : Z :=
  zlen (filter (fun edge => ed_Relation edge ∈ relations) edges).

Definition buildHypotheses (edges : list Edge) : list hypothesisRecord :=
  let change := related_by ["change-precedes-error"; "structured-change-precedes-error"] edges in
  let latency := related_by ["latency-precedes-error"] edges in
  let recovered := related_by ["recovery-signal"; "recovery-after-rollback"] edges in
  let found :=
    (if 0 <? change then [hypothesis "recent-change-associated"
       "A captured change is temporally associated with errors in the incident window." change 0
       "Association is evidence for investigation, not proof that the change caused the incident."] else []) ++
    (if 0 <? latency then [hypothesis "latency-before-errors"
       "High latency appears before errors on at least one affected source." latency 0
       "This supports a symptom sequence, not a specific underlying cause."] else []) ++
    (if (0 <? latency) || (0 <? recovered) then [hypothesis "sustained-degradation"
       "The affected source remained degraded throughout the observed failure window." latency recovered
       "Recovery signals are explicit contradictory evidence against sustained degradation."] else []) in
  match found with
  | [] => [mkHypothesis "insufficient-evidence"
             "The captured evidence does not support a stronger built-in incident hypothesis." "insufficient" 0 0
             "Absence of a built-in relationship is not evidence that no causal relationship exists."]
  | _ => found
  end.

(** ** The graph *)

Definition summarize (nodes : list Node) (edges : list Edge) : Summary :=
  let supporting := zlen (filter (fun edge => ed_Assessment edge = AssessmentSupporting) edges) in
  let contradicting := zlen (filter (fun edge => ed_Assessment edge = AssessmentContradicting) edges) in
  mkSummary (zlen nodes) (zlen edges) supporting contradicting (zlen edges - supporting - contradicting).

Section build.
(** The order in which each of the four loops visits its groups. *)
Variables walk_correlation walk_trace walk_source walk_symptom : gmap string (list Event) -> list (string * list Event).

Definition candidates (root : string) (nodeByEvent : gmap string string) (sorted : list Event) (changes : list Marker) : list Edge :=
  (walk_correlation (group_by (fun e => nonempty (trim_space (ev_CorrelationID e))) sorted) ≫=
     fun kg => link_consecutive nodeByEvent correlation_edge (sortEvents kg.2)) ++
  (walk_trace (group_by (fun e => nonempty (tag_of (ev_Tags e) "trace_id")) sorted) ≫=
     fun kg => link_consecutive nodeByEvent trace_edge (sortEvents kg.2)) ++
  (walk_source (group_by (fun e => Some (ev_Source e)) sorted) ≫= fun kg => link_sequence nodeByEvent (sortEvents kg.2)) ++
  (walk_symptom (group_by (fun e => Some (ev_Source e)) sorted) ≫= fun kg => link_symptoms nodeByEvent (sortEvents kg.2)) ++
  change_edges nodeByEvent sorted ++
  structured_edges nodeByEvent root changes sorted.

Definition BuildWithChanges (now : time) (tenantID incidentID : string) (events : list Event) (runs : list Run)
    (simulations : list Simulation) (changes : list Marker) : Graph :=
  let root := "incident:" +:+ incidentID in
  let sorted := sortEvents events in
  let nodeByEvent := foldl (fun m event => <[ev_ID event := event_id (ev_ID event)]> m) ∅ sorted in
  let runs := filter (fun run => run_IncidentID run = incidentID) runs in
  let simulations := filter (fun simulation => si_IncidentID simulation = incidentID) simulations in
  let nodes := mkNode root "incident" incidentID "" "" 0 ∅ :: (event_node <$> sorted) ++ (replay_node <$> runs) ++
               (cost_node <$> simulations) ++ (change_node <$> filter (fun m => own_node nodeByEvent m = true) changes) in
  let captured := (captured_edge root <$> sorted) ++ (replay_edge root <$> runs) ++ (cost_edge root <$> simulations) in
  let edges := (foldl add (captured, ∅) (candidates root nodeByEvent sorted changes)).1 in
  mkGraph tenantID incidentID now "Relationships are evidence associations, not automated root-cause claims."
    (summarize nodes edges) nodes edges (buildHypotheses edges).

Definition Build (now : time) (tenantID incidentID : string) (events : list Event) (runs : list Run) (simulations : list Simulation)
  : Graph := BuildWithChanges now tenantID incidentID events runs simulations [].

End build.

(** ** What an edge claims

    One constructor per relation of the graph: what must be true of the inputs for the
    edge and its reason. *)

Section claims.
Variables (incidentID : string) (events : list Event) (runs : list Run) (simulations : list Simulation) (changes : list Marker).

Let root := "incident:" +:+ incidentID.
Let node (event : Event) := event_id (ev_ID event).

(** [b] comes after [a], at most [limit] later. *)
Definition follows (limit : Z) (a b : Event) : Prop := 0 <= ev_Timestamp b - ev_Timestamp a <= limit.

(** A node of a change. *)
Inductive stands_for : string -> Marker -> Prop :=
  | stands_event marker event : event ∈ events -> ev_ID event = mk_EventID marker -> stands_for (node event) marker
  | stands_change marker : (forall event, event ∈ events -> ev_ID event <> mk_EventID marker) ->
      stands_for ("change:" +:+ mk_ChangeID marker) marker.

(** The node of a change ID that some marker has. *)
Definition named (changeID id : string) : Prop :=
  exists marker, marker ∈ changes /\ mk_ChangeID marker = changeID /\ stands_for id marker.

Inductive justified : Edge -> Prop :=
  | just_captured a : a ∈ events -> justified (captured_edge root a)
  | just_replay run : run ∈ runs -> run_IncidentID run = incidentID -> justified (replay_edge root run)
  | just_cost s : s ∈ simulations -> si_IncidentID s = incidentID -> justified (cost_edge root s)
  | just_correlation a b : a ∈ events -> b ∈ events -> trim_space (ev_CorrelationID a) = trim_space (ev_CorrelationID b) ->
      trim_space (ev_CorrelationID a) <> "" -> justified (correlation_edge (node a) (node b))
  | just_trace a b : a ∈ events -> b ∈ events -> tag_of (ev_Tags a) "trace_id" = tag_of (ev_Tags b) "trace_id" ->
      tag_of (ev_Tags a) "trace_id" <> "" -> justified (trace_edge (node a) (node b))
  | just_sequence a b : a ∈ events -> b ∈ events -> ev_Source a = ev_Source b -> follows (30 * ns_second) a b ->
      justified (sequence_edge (node a) (node b))
  | just_latency a b : a ∈ events -> b ∈ events -> ev_Source a = ev_Source b -> follows (60 * ns_second) a b ->
      highLatency a = true -> isError b = true -> justified (latency_edge (node a) (node b))
  | just_recovery a b : a ∈ events -> b ∈ events -> ev_Source a = ev_Source b -> follows (2 * ns_minute) a b ->
      isError a = true -> normalLatency b = true -> justified (recovery_edge (node a) (node b))
  | just_change a b : a ∈ events -> b ∈ events -> ev_Source a = ev_Source b -> follows (5 * ns_minute) a b ->
      isChange a = true -> isError b = true -> justified (change_edge (node a) (node b))
  | just_near id marker : marker ∈ changes -> stands_for id marker -> justified (near_edge root id)
  | just_structured id marker b : marker ∈ changes -> stands_for id marker -> b ∈ events -> mk_Source marker = ev_Source b ->
      isError b = true -> 0 <= ev_Timestamp b - mk_ChangedAt marker <= 10 * ns_minute -> justified (structured_edge id (node b))
  | just_rollback id id' marker : marker ∈ changes -> mk_Kind marker = KindRollback -> mk_RollbackOf marker <> "" ->
      named (mk_RollbackOf marker) id -> named (mk_ChangeID marker) id' -> justified (rollback_edge id id')
  | just_recovered id marker b : marker ∈ changes -> mk_Kind marker = KindRollback -> named (mk_ChangeID marker) id ->
      b ∈ events -> mk_Source marker = ev_Source b -> normalLatency b = true ->
      0 <= ev_Timestamp b - mk_ChangedAt marker <= 10 * ns_minute -> justified (recovered_edge id (node b)).

End claims.

(** ** The builder offers only justified edges *)

Lemma sub_within a b limit : (limit <? sub_saturated a b) = false -> limit < 2 ^ 63 - 1 -> a - b <= limit.
Proof. intros H%Z.ltb_ge Hl. unfold sub_saturated in H. lia. Qed.

#[export] Instance event_le_total : Total event_le.
Proof.
  intros a b. unfold event_le. destruct (Z.lt_trichotomy (ev_Timestamp a) (ev_Timestamp b)) as [H|[H|H]]; [by left; left| |by right; left].
  destruct ((_ : Total String.le) (ev_ID a) (ev_ID b)); [left|right]; by right.
Qed.

#[export] Instance event_le_trans : Transitive event_le.
Proof. intros a b c [Hab|[Hab Hab']] [Hbc|[Hbc Hbc']]; [left; lia..|]. right. split; [lia|]. by etrans. Qed.

Lemma event_le_time a b : event_le a b -> ev_Timestamp a <= ev_Timestamp b.
Proof. intros [H|[H _]]; lia. Qed.

Lemma sortEvents_in events event : event ∈ sortEvents events <-> event ∈ events.
Proof. unfold sortEvents. by rewrite merge_sort_Permutation. Qed.

Lemma sortEvents_sorted events : StronglySorted event_le (sortEvents events).
Proof. apply StronglySorted_merge_sort; apply _. Qed.

Lemma group_by_in key events k group : group_by key events !! k = Some group ->
  forall event, event ∈ group -> event ∈ events /\ key event = Some k.
Proof.
  revert k group. induction events as [|e events IH] using rev_ind; intros k group; [done|].
  unfold group_by. rewrite foldl_app. cbn. fold (group_by key events). destruct (key e) as [k'|] eqn:Ek.
  - intros [[<- <-]|[_ H]]%lookup_insert_Some event.
    + intros [Hin| ->%list_elem_of_singleton]%elem_of_app; [|split; [set_solver|done]].
      destruct (group_by key events !! k') as [g|] eqn:Eg; [|by apply elem_of_nil in Hin].
      destruct (IH _ _ Eg _ Hin). split; [set_solver|done].
    + intros Hin. destruct (IH _ _ H _ Hin). split; [set_solver|done].
  - intros H event Hin. destruct (IH _ _ H _ Hin). split; [set_solver|done].
Qed.

Section sound.
Variables (incidentID : string) (events : list Event) (runs : list Run) (simulations : list Simulation) (changes : list Marker).

Abbreviation just := (justified incidentID events runs simulations changes).
Let root := "incident:" +:+ incidentID.
Let nodeByEvent : gmap string string :=
  foldl (fun m event => <[ev_ID event := event_id (ev_ID event)]> m) ∅ (sortEvents events).

Lemma node_map_lookup (l : list Event) id x :
  foldl (fun m event => <[ev_ID event := event_id (ev_ID event)]> m) (∅ : gmap string string) l !! id = Some x <->
  x = event_id id /\ exists event, event ∈ l /\ ev_ID event = id.
Proof.
  induction l as [|e l IH] using rev_ind; cbn.
  { rewrite lookup_empty. split; [done|]. by intros (_ & e & []%elem_of_nil & _). }
  rewrite foldl_app. cbn. rewrite lookup_insert_Some, IH. split.
  - intros [[<- <-]|[_ (-> & event & Hin & Hid)]]; (split; [done|]); [exists e|exists event]; set_solver.
  - intros (-> & event & [Hin| ->%list_elem_of_singleton]%elem_of_app & Hid); [|left; by subst].
    destruct (decide (ev_ID e = id)) as [<-|Hne]; [by left|]. right. eauto 10.
Qed.

Lemma node_lookup id x : nodeByEvent !! id = Some x <-> x = event_id id /\ exists event, event ∈ events /\ ev_ID event = id.
Proof. unfold nodeByEvent. rewrite node_map_lookup. by setoid_rewrite sortEvents_in. Qed.

Lemma node_of_event event : event ∈ events -> node_of nodeByEvent event = event_id (ev_ID event).
Proof. intros H. unfold node_of. by rewrite (proj2 (node_lookup (ev_ID event) _) (conj eq_refl (ex_intro _ event (conj H eq_refl)))). Qed.

Lemma change_node_stands marker : stands_for events (change_node_id nodeByEvent marker) marker.
Proof.
  unfold change_node_id. destruct (nodeByEvent !! mk_EventID marker) as [x|] eqn:E; cbn.
  - apply node_lookup in E as (-> & event & Hin & Hid). unfold id. rewrite bool_decide_false by done. rewrite <- Hid. by constructor.
  - constructor. intros event Hin Hid. assert (nodeByEvent !! mk_EventID marker = Some (event_id (mk_EventID marker))) as H.
    { apply node_lookup. split; [done|]. by exists event. }
    by rewrite E in H.
Qed.

Lemma node_by_change_named changeID x : node_by_change nodeByEvent changes !! changeID = Some x -> named events changes changeID x.
Proof.
  unfold node_by_change, named. induction changes as [|m l IH] using rev_ind; [done|]. rewrite foldl_app. cbn.
  intros [[<- <-]|[_ (m' & Hin & Hrest)%IH]]%lookup_insert_Some; [exists m|exists m'; split; [set_solver|done]].
  split; [set_solver|]. split; [done|]. apply change_node_stands.
Qed.

(** Consecutive events of a group. *)
Lemma link_consecutive_in edge group e : e ∈ link_consecutive nodeByEvent edge group ->
  (forall a, a ∈ group -> a ∈ events) ->
  exists a b, a ∈ group /\ b ∈ group /\ e = edge (event_id (ev_ID a)) (event_id (ev_ID b)).
Proof.
  induction group as [|a [|b group] IH]; cbn [link_consecutive]; [by intros []%elem_of_nil..|].
  intros [->|Hin]%elem_of_cons Hall.
  - exists a, b. rewrite !node_of_event by (apply Hall; set_solver). split_and!; [set_solver..|done].
  - destruct (IH Hin) as (x & y & Hx & Hy & ->); [intros z Hz; apply Hall; by right|]. exists x, y. split_and!; [by right..|done].
Qed.

Lemma link_sequence_in group e : e ∈ link_sequence nodeByEvent group -> (forall a, a ∈ group -> a ∈ events) ->
  StronglySorted event_le group ->
  exists a b, a ∈ group /\ b ∈ group /\ follows (30 * ns_second) a b /\ e = sequence_edge (event_id (ev_ID a)) (event_id (ev_ID b)).
Proof.
  induction group as [|a [|b group] IH]; cbn [link_sequence]; [by intros []%elem_of_nil..|].
  intros Hin Hall [Hs Hle]%StronglySorted_inv. apply elem_of_app in Hin as [Hin|Hin].
  - destruct (_ <? _) eqn:E; [by apply elem_of_nil in Hin|]. apply list_elem_of_singleton in Hin as ->.
    exists a, b. rewrite !node_of_event by (apply Hall; set_solver). split_and!; [set_solver..| |done].
    apply sub_within in E; [|done]. apply Forall_inv, event_le_time in Hle. unfold follows. lia.
  - destruct (IH Hin) as (x & y & Hx & Hy & Hf & ->); [intros z Hz; apply Hall; by right|done|].
    exists x, y. split_and!; [by right..|done|done].
Qed.

Lemma first_within_in limit test start rest b : first_within limit test start rest = Some b -> limit < 2 ^ 63 - 1 ->
  b ∈ rest /\ test b = true /\ ev_Timestamp b - start <= limit.
Proof.
  induction rest as [|x rest IH]; cbn; [done|]. destruct (_ <? _) eqn:E; [done|]. intros H Hl.
  destruct (test x) eqn:Et; [|destruct (IH H Hl); split; [by right|done]]. injection H as <-.
  split; [by left|]. split; [done|]. by apply sub_within in E.
Qed.

(** The events of one source. *)
Lemma link_symptoms_in group e : e ∈ link_symptoms nodeByEvent group -> (forall a, a ∈ group -> a ∈ events) ->
  StronglySorted event_le group -> (forall a b, a ∈ group -> b ∈ group -> ev_Source a = ev_Source b) -> just e.
Proof.
  induction group as [|a rest IH]; cbn [link_symptoms]; [by intros []%elem_of_nil|].
  intros Hin Hall [Hs Hle]%StronglySorted_inv Hsrc.
  assert (forall limit test edge b, first_within limit test (ev_Timestamp a) rest = Some b -> limit < 2 ^ 63 - 1 ->
    e ∈ offer nodeByEvent edge a (Some b) ->
    b ∈ events /\ ev_Source a = ev_Source b /\ follows limit a b /\ test b = true /\ e = edge (event_id (ev_ID a)) (event_id (ev_ID b))) as Hw.
  { intros limit test edge b Hf Hl Ho. apply first_within_in in Hf as (Hb & Ht & Hd); [|done].
    apply list_elem_of_singleton in Ho as ->. rewrite !node_of_event by (apply Hall; set_solver).
    split_and!; [apply Hall; by right|apply Hsrc; [by left|by right]| |done|done].
    rewrite Forall_forall in Hle. apply Hle, event_le_time in Hb. unfold follows. lia. }
  apply elem_of_app in Hin as [Hin|[Hin|Hin]%elem_of_app].
  - destruct (highLatency a) eqn:Eh; [|by apply elem_of_nil in Hin]. destruct (first_within _ _ _ _) as [b|] eqn:Ef; [|by apply elem_of_nil in Hin].
    apply (Hw _ _ _ _ Ef ltac:(done)) in Hin as (Hb & Hsr & Hf & Ht & ->). constructor; try done. apply Hall. by left.
  - destruct (isError a) eqn:Eh; [|by apply elem_of_nil in Hin]. destruct (first_within _ _ _ _) as [b|] eqn:Ef; [|by apply elem_of_nil in Hin].
    apply (Hw _ _ _ _ Ef ltac:(done)) in Hin as (Hb & Hsr & Hf & Ht & ->). constructor; try done. apply Hall. by left.
  - apply IH; [done|intros z Hz; apply Hall; by right|done|]. intros x y Hx Hy. apply Hsrc; by right.
Qed.

Lemma errors_after_change_in change rest e : e ∈ errors_after_change nodeByEvent change rest -> change ∈ events ->
  (forall a, a ∈ rest -> a ∈ events) -> Forall (event_le change) rest -> isChange change = true -> just e.
Proof.
  intros Hin Hc Hall Hle Hch. induction rest as [|b rest IH]; cbn in Hin; [by apply elem_of_nil in Hin|].
  apply Forall_cons in Hle as [Hb Hle]. destruct (_ <? _) eqn:E; [by apply elem_of_nil in Hin|].
  apply elem_of_app in Hin as [Hin|Hin]; [|by apply IH; [|intros z Hz; apply Hall; by right|]].
  destruct (_ && _) eqn:Ec; [|by apply elem_of_nil in Hin]. apply andb_true_iff in Ec as [Es%bool_decide_eq_true Ee].
  apply list_elem_of_singleton in Hin as ->. rewrite !node_of_event by (done || (apply Hall; by left)).
  constructor; try done; [apply Hall; by left|]. apply sub_within in E; [|done]. apply event_le_time in Hb. unfold follows. lia.
Qed.

Lemma change_edges_in sorted e : e ∈ change_edges nodeByEvent sorted -> (forall a, a ∈ sorted -> a ∈ events) ->
  StronglySorted event_le sorted -> just e.
Proof.
  induction sorted as [|a rest IH]; cbn; [by intros []%elem_of_nil|]. intros Hin Hall [Hs Hle]%StronglySorted_inv.
  apply elem_of_app in Hin as [Hin|Hin]; [|by apply IH; [|intros z Hz; apply Hall; by right|]].
  destruct (isChange a) eqn:E; [|by apply elem_of_nil in Hin].
  eapply errors_after_change_in; [done|apply Hall; by left|intros z Hz; apply Hall; by right|done|done].
Qed.

Lemma errors_after_marker_in marker sorted e : e ∈ errors_after_marker nodeByEvent marker sorted -> marker ∈ changes ->
  (forall a, a ∈ sorted -> a ∈ events) -> just e.
Proof.
  intros Hin Hm Hall. induction sorted as [|b rest IH]; cbn in Hin; [by apply elem_of_nil in Hin|].
  assert (forall a, a ∈ rest -> a ∈ events) as Hrest by (intros a Ha; apply Hall; by right).
  destruct (_ || _) eqn:E; [auto|]. apply orb_false_iff in E as [[Es Ee]%orb_false_iff Et%Z.ltb_ge].
  apply negb_false_iff, bool_decide_eq_true in Es. apply negb_false_iff in Ee. destruct (_ <? _) eqn:Ed; [by apply elem_of_nil in Hin|].
  apply elem_of_cons in Hin as [->|Hin]; [|auto]. rewrite node_of_event by (apply Hall; by left).
  apply sub_within in Ed; [|done]. eapply just_structured; try done; [apply change_node_stands|apply Hall; by left|lia].
Qed.

Lemma marker_edges_in marker sorted e : e ∈ marker_edges nodeByEvent root sorted marker -> marker ∈ changes ->
  (forall a, a ∈ sorted -> a ∈ events) -> just e.
Proof.
  intros [Hin|Hin]%elem_of_app Hm Hall; [|by eapply errors_after_marker_in]. destruct (own_node _ _); [|by apply elem_of_nil in Hin].
  apply list_elem_of_singleton in Hin as ->. eapply just_near; [done|apply change_node_stands].
Qed.

Lemma recovery_after_in id marker sorted e : e ∈ recovery_after nodeByEvent id marker sorted -> marker ∈ changes ->
  mk_Kind marker = KindRollback -> named events changes (mk_ChangeID marker) id -> (forall a, a ∈ sorted -> a ∈ events) -> just e.
Proof.
  intros Hin Hm Hk Hn Hall. induction sorted as [|b rest IH]; cbn in Hin; [by apply elem_of_nil in Hin|].
  assert (forall a, a ∈ rest -> a ∈ events) as Hrest by (intros a Ha; apply Hall; by right).
  destruct (_ || _) eqn:E; [auto|]. apply orb_false_iff in E as [Es%negb_false_iff%bool_decide_eq_true Et%Z.ltb_ge].
  destruct (_ <? _) eqn:Ed; [by apply elem_of_nil in Hin|]. destruct (normalLatency b) eqn:En; [|auto].
  apply list_elem_of_singleton in Hin as ->. rewrite node_of_event by (apply Hall; by left).
  apply sub_within in Ed; [|done]. eapply just_recovered; try done; [apply Hall; by left|lia].
Qed.

Lemma node_by_change_total marker : marker ∈ changes -> is_Some (node_by_change nodeByEvent changes !! mk_ChangeID marker).
Proof.
  unfold node_by_change. induction changes as [|m l IH] using rev_ind; [by intros []%elem_of_nil|]. rewrite foldl_app. cbn.
  intros Hin. destruct (decide (mk_ChangeID m = mk_ChangeID marker)) as [->|Hne]; [rewrite lookup_insert_eq; eauto|].
  rewrite lookup_insert_ne by done. apply elem_of_app in Hin as [Hin| ->%list_elem_of_singleton]; [by apply IH|done].
Qed.

Lemma rollback_edges_in marker sorted e : e ∈ rollback_edges nodeByEvent (node_by_change nodeByEvent changes) sorted marker ->
  marker ∈ changes -> (forall a, a ∈ sorted -> a ∈ events) -> just e.
Proof.
  unfold rollback_edges. destruct (_ || _) eqn:E; [by intros []%elem_of_nil|].
  apply orb_false_iff in E as [Hk%negb_false_iff%bool_decide_eq_true Hr%bool_decide_eq_false].
  intros Hin Hm Hall. destruct (node_by_change_total marker Hm) as [x Hx]. rewrite Hx in Hin. cbn in Hin. unfold id in Hin.
  apply node_by_change_named in Hx. apply elem_of_app in Hin as [Hin|Hin]; [|by eapply recovery_after_in].
  destruct (node_by_change nodeByEvent changes !! mk_RollbackOf marker) as [y|] eqn:Ey; [|by rewrite andb_false_r in Hin; apply elem_of_nil in Hin].
  apply node_by_change_named in Ey. destruct (_ && _); [|by apply elem_of_nil in Hin].
  apply list_elem_of_singleton in Hin as ->. by eapply just_rollback.
Qed.

Section walks.
Variables walk_correlation walk_trace walk_source walk_symptom : gmap string (list Event) -> list (string * list Event).
Hypothesis visits : forall walk, walk ∈ [walk_correlation; walk_trace; walk_source; walk_symptom] -> forall m, walk m ≡ₚ map_to_list m.

(** A visited group, sorted. *)
Lemma group_sorted walk key k group : walk ∈ [walk_correlation; walk_trace; walk_source; walk_symptom] ->
  (k, group) ∈ walk (group_by key (sortEvents events)) ->
  StronglySorted event_le (sortEvents group) /\ forall a, a ∈ sortEvents group -> a ∈ events /\ key a = Some k.
Proof.
  intros Hw Hin. rewrite (visits walk Hw) in Hin. apply elem_of_map_to_list in Hin. split; [apply sortEvents_sorted|].
  intros a Ha. rewrite sortEvents_in in Ha. destruct (group_by_in _ _ _ _ Hin _ Ha) as [Hi Hk]. split; [by rewrite sortEvents_in in Hi|done].
Qed.

Lemma nonempty_some s k : nonempty s = Some k -> s = k /\ s <> "".
Proof. unfold nonempty. case_bool_decide; [done|]. by intros [= ->]. Qed.

Lemma candidates_justified : Forall just (candidates walk_correlation walk_trace walk_source walk_symptom root nodeByEvent
  (sortEvents events) changes).
Proof.
  apply Forall_forall. intros e. unfold candidates. rewrite !elem_of_app, !list_elem_of_bind.
  intros [([k g] & He & Hg)|[([k g] & He & Hg)|[([k g] & He & Hg)|[([k g] & He & Hg)|[He|He]]]]].
  - apply group_sorted in Hg as [Hs Hall]; [|set_solver]. apply link_consecutive_in in He as (a & b & Ha & Hb & ->); [|naive_solver].
    apply Hall in Ha as [Ha [Ha1 Ha2]%nonempty_some], Hb as [Hb [Hb1 _]%nonempty_some]. constructor; congruence.
  - apply group_sorted in Hg as [Hs Hall]; [|set_solver]. apply link_consecutive_in in He as (a & b & Ha & Hb & ->); [|naive_solver].
    apply Hall in Ha as [Ha [Ha1 Ha2]%nonempty_some], Hb as [Hb [Hb1 _]%nonempty_some]. constructor; congruence.
  - apply group_sorted in Hg as [Hs Hall]; [|set_solver]. apply link_sequence_in in He as (a & b & Ha & Hb & Hf & ->); [|naive_solver|done].
    apply Hall in Ha as [Ha [= Ha1]], Hb as [Hb [= Hb1]]. constructor; congruence.
  - apply group_sorted in Hg as [Hs Hall]; [|set_solver]. eapply link_symptoms_in; [done|naive_solver|done|].
    intros a b Ha Hb. apply Hall in Ha as [_ [= Ha]], Hb as [_ [= Hb]]. congruence.
  - eapply change_edges_in; [done|intros a; by rewrite sortEvents_in|apply sortEvents_sorted].
  - unfold structured_edges in He. apply elem_of_app in He as [(m & He & Hm)%list_elem_of_bind|(m & He & Hm)%list_elem_of_bind].
    + eapply marker_edges_in; [done|done|intros a; by rewrite sortEvents_in].
    + eapply rollback_edges_in; [done|done|intros a; by rewrite sortEvents_in].
Qed.

End walks.
End sound.

(** ** The graph *)

Lemma add_edges b edges : exists extra, (foldl add b edges).1 = b.1 ++ extra /\ (forall e, e ∈ extra -> e ∈ edges) /\
  zlen (foldl add b edges).1 <= Z.max maxEdges (zlen b.1) /\
  (NoDup (edge_key <$> extra) /\ forall e, e ∈ extra -> edge_key e ∉ b.2).
Proof.
  revert b. induction edges as [|edge edges IH]; intros [l seen]; cbn [foldl].
  { exists []. cbn. rewrite app_nil_r. split_and!; [done|done|lia|constructor|by intros e []%elem_of_nil]. }
  cbn [add]. destruct (Z.leb_spec maxEdges (zlen l)) as [Hfull|Hroom].
  { destruct (IH (l, seen)) as (extra & H1 & H2 & H3 & H4). exists extra. split_and!; [done|set_solver|done|apply H4|apply H4]. }
  case_bool_decide as Hs.
  { destruct (IH (l, seen)) as (extra & H1 & H2 & H3 & H4). exists extra. split_and!; [done|set_solver|done|apply H4|apply H4]. }
  destruct (IH (l ++ [edge], {[edge_key edge]} ∪ seen)) as (extra & H1 & H2 & H3 & H4 & H5). cbn in *.
  exists (edge :: extra). split_and!.
  - by rewrite H1, <- app_assoc.
  - set_solver.
  - unfold zlen in *. rewrite length_app in H3. cbn in H3. lia.
  - cbn. constructor; [|done]. intros (e & Heq & He)%list_elem_of_fmap. apply (H5 e He). set_solver.
  - intros e [->|He]%elem_of_cons; [done|]. specialize (H5 e He). set_solver.
Qed.

Section graph.
Variables walk_correlation walk_trace walk_source walk_symptom : gmap string (list Event) -> list (string * list Event).

(** The endpoints of a justified edge are nodes. *)
Lemma justified_endpoints now tenantID incidentID events runs simulations changes e :
  justified incidentID events runs simulations changes e ->
  let ids := nd_ID <$> gr_Nodes (BuildWithChanges walk_correlation walk_trace walk_source walk_symptom now tenantID incidentID
    events runs simulations changes) in
  ed_From e ∈ ids /\ ed_To e ∈ ids.
Proof.
  intros H ids.
  assert ("incident:" +:+ incidentID ∈ ids) as Hroot by (left).
  assert (forall a, a ∈ events -> event_id (ev_ID a) ∈ ids) as Hevent.
  { intros a Ha. right. apply list_elem_of_fmap. exists (event_node a). split; [done|]. apply elem_of_app. left.
    apply list_elem_of_fmap. exists a. split; [done|]. by rewrite sortEvents_in. }
  assert (forall id m, m ∈ changes -> stands_for events id m -> id ∈ ids) as Hchange.
  { intros id m Hm Hs. revert Hm. destruct Hs as [m' a Ha Hid|m' Hno]; intros Hm; [by apply Hevent|]. right. apply list_elem_of_fmap. exists (change_node m'). split; [done|].
    rewrite !elem_of_app. right. right. right. apply list_elem_of_fmap. exists m'. split; [done|]. apply list_elem_of_filter. split; [|done].
    unfold own_node. apply bool_decide_eq_true. destruct (_ !! mk_EventID m') as [x|] eqn:E; [|done].
    apply node_lookup in E as (_ & a & Ha & Hid). by destruct (Hno a Ha). }
  assert (forall cid id, named events changes cid id -> id ∈ ids) as Hnamed by (intros cid id (m & Hm & _ & Hs); eauto).
  destruct H; cbn; split; eauto.
  - right. apply list_elem_of_fmap. exists (replay_node run). split; [done|]. rewrite !elem_of_app. right. left.
    apply list_elem_of_fmap. exists run. split; [done|]. by apply list_elem_of_filter.
  - right. apply list_elem_of_fmap. exists (cost_node s). split; [done|]. rewrite !elem_of_app. right. right. left.
    apply list_elem_of_fmap. exists s. split; [done|]. by apply list_elem_of_filter.
Qed.

(** The relations that hypotheses count have the assessment they count them for. *)
Lemma justified_assessment incidentID events runs simulations changes e : justified incidentID events runs simulations changes e ->
  (ed_Relation e ∈ ["change-precedes-error"; "structured-change-precedes-error"] -> ed_Assessment e = AssessmentSupporting) /\
  (ed_Relation e ∈ ["latency-precedes-error"] -> ed_Assessment e = AssessmentSupporting) /\
  (ed_Relation e ∈ ["recovery-signal"; "recovery-after-rollback"] -> ed_Assessment e = AssessmentContradicting).
Proof. intros []; cbn; split_and!; rewrite ?elem_of_cons, ?elem_of_nil; intros Hr; try done; naive_solver. Qed.

Lemma related_by_some relations edges : 0 < related_by relations edges -> exists e, e ∈ edges /\ ed_Relation e ∈ relations.
Proof.
  unfold related_by, zlen. destruct (filter _ edges) as [|e l] eqn:E; cbn; [lia|]. intros _. exists e.
  assert (e ∈ filter (fun edge => ed_Relation edge ∈ relations) edges) as H by (rewrite E; by left). apply list_elem_of_filter in H. naive_solver.
Qed.

Lemma hypothesis_backed (S C : Prop) id statement support contradict notes :
  (0 < support -> S) -> (0 < contradict -> C) -> let h := hypothesis id statement support contradict notes in
  (0 < hy_Supporting h -> S) /\ (0 < hy_Contradicting h -> C) /\ (hy_Status h = "supported" \/ hy_Status h = "mixed" -> 0 < hy_Supporting h).
Proof.
  intros HS HC. cbn. split_and!; [done|done|]. destruct (Z.ltb_spec 0 support); [done|]. cbn. destruct (0 <? contradict); by intros [].
Qed.

Lemma buildHypotheses_backed incidentID events runs simulations changes edges h :
  (forall e, e ∈ edges -> justified incidentID events runs simulations changes e) -> h ∈ buildHypotheses edges ->
  (0 < hy_Supporting h -> exists e, e ∈ edges /\ ed_Assessment e = AssessmentSupporting) /\
  (0 < hy_Contradicting h -> exists e, e ∈ edges /\ ed_Assessment e = AssessmentContradicting) /\
  (hy_Status h = "supported" \/ hy_Status h = "mixed" -> 0 < hy_Supporting h).
Proof.
  intros Hall. unfold buildHypotheses. set (found := _ ++ _ ++ _).
  assert (forall relations, (forall e, e ∈ edges -> ed_Relation e ∈ relations -> ed_Assessment e = AssessmentSupporting) ->
    0 < related_by relations edges -> exists e, e ∈ edges /\ ed_Assessment e = AssessmentSupporting) as Hsup
    by (intros relations Hr (e & He & Hrel)%related_by_some; eauto).
  assert (0 < related_by ["recovery-signal"; "recovery-after-rollback"] edges ->
    exists e, e ∈ edges /\ ed_Assessment e = AssessmentContradicting) as Hcon.
  { intros (e & He & Hrel)%related_by_some. exists e. split; [done|]. destruct (justified_assessment _ _ _ _ _ _ (Hall _ He)) as (J1 & J2 & J3); auto. }
  assert (h ∈ found -> (0 < hy_Supporting h -> exists e, e ∈ edges /\ ed_Assessment e = AssessmentSupporting) /\
    (0 < hy_Contradicting h -> exists e, e ∈ edges /\ ed_Assessment e = AssessmentContradicting) /\
    (hy_Status h = "supported" \/ hy_Status h = "mixed" -> 0 < hy_Supporting h)) as Hfound.
  { unfold found. rewrite !elem_of_app. intros [H|[H|H]];
      (destruct (0 <? _) eqn:E1 in H || idtac); (destruct (_ || _) in H || idtac);
      try (by apply elem_of_nil in H); apply list_elem_of_singleton in H as ->; apply hypothesis_backed; try lia; try done;
      apply Hsup; intros e He Hrel; destruct (justified_assessment _ _ _ _ _ _ (Hall _ He)) as (J1 & J2 & J3); auto. }
  destruct found; [|done]. intros ->%list_elem_of_singleton. cbn. split_and!; [lia|lia|by intros []].
Qed.

Section edges.
Variables (now : time) (tenantID incidentID : string) (events : list Event) (runs : list Run) (simulations : list Simulation)
  (changes : list Marker).
Hypothesis visits : forall walk, walk ∈ [walk_correlation; walk_trace; walk_source; walk_symptom] -> forall m, walk m ≡ₚ map_to_list m.

Let graph := BuildWithChanges walk_correlation walk_trace walk_source walk_symptom now tenantID incidentID events runs simulations changes.
Let root := "incident:" +:+ incidentID.
Let ours := filter (fun run => run_IncidentID run = incidentID) runs.
Let costs := filter (fun s => si_IncidentID s = incidentID) simulations.
Let captured := (captured_edge root <$> sortEvents events) ++ (replay_edge root <$> ours) ++ (cost_edge root <$> costs).

Lemma captured_justified e : e ∈ captured -> justified incidentID events runs simulations changes e.
Proof.
  unfold captured. rewrite !elem_of_app, !list_elem_of_fmap.
  intros [(a & -> & Ha)|[(run & -> & [Hid Hr]%list_elem_of_filter)|(s & -> & [Hid Hs]%list_elem_of_filter)]]; [|by constructor..].
  rewrite sortEvents_in in Ha. by constructor.
Qed.

Lemma graph_edges : exists extra, gr_Edges graph = captured ++ extra /\ NoDup (edge_key <$> extra) /\
  zlen (gr_Edges graph) <= Z.max maxEdges (zlen captured) /\
  forall e, e ∈ extra -> justified incidentID events runs simulations changes e.
Proof.
  pose proof (candidates_justified incidentID events runs simulations changes _ _ _ _ visits) as Hcand.
  set (offered := candidates _ _ _ _ _ _ _ _) in Hcand. change (gr_Edges graph) with ((foldl add (captured, ∅) offered).1).
  destruct (add_edges (captured, ∅) offered) as (extra & He & Hin & Hlen & Hdup & _). exists extra. split_and!; [done..|].
  intros e Hi. rewrite Forall_forall in Hcand. by apply Hcand, Hin.
Qed.

Lemma edges_justified e : e ∈ gr_Edges graph -> justified incidentID events runs simulations changes e.
Proof.
  destruct graph_edges as (extra & -> & _ & _ & He). intros [Hi|Hi]%elem_of_app; [by apply captured_justified|by apply He].
Qed.

Lemma captured_count : zlen captured = zlen events + zlen ours + zlen costs.
Proof.
  unfold captured, zlen. rewrite !length_app, !length_fmap. unfold sortEvents. rewrite (Permutation_length (merge_sort_Permutation _ _)). lia.
Qed.

Lemma captured_events a : a ∈ events -> captured_edge root a ∈ captured.
Proof. intros Ha. apply elem_of_app. left. apply list_elem_of_fmap. exists a. split; [done|]. by rewrite sortEvents_in. Qed.

End edges.


End graph.

(** ** An example *)

Section demo.

Let event (id type : string) (t : time) (value : Z) : Event :=
  mkEvent id "acme" "api" type (t * ns_second) ∅ [] (Some (float_of_int value)) "ms" "1" "" "".

(** A slow request, an error within the minute, and a normal latency after it. *)
Definition demo_events : list Event := [event "e3" "http.latency" 120 20; event "e1" "http.latency" 10 1500; event "e2" "http.error" 40 0].

Definition demo_graph : Graph :=
  BuildWithChanges map_to_list map_to_list map_to_list map_to_list 0 "acme" "INC-1" demo_events [] [] [].


End demo.
