(* ===== verification/Intelligence.v ===== *)
(** * Incident intelligence ([internal/intelligence/model.go])

    A deterministic synthesis of an evidence graph with the replays and cost simulations of
    its incident: findings that cite edges, at most one recommendation, which a human must
    approve, and the comparison of two graphs.  Percentages and similarities are binary64. *)

From S2P Require Import Prelude GoStrings GoFloat GoTime GoParse Domain Replay CostSim.
From S2P Require Import ChangeIntel Evidence.

Local Open Scope string_scope.
Local Open Scope Z_scope.
Local Open Scope list_scope.

(** [math.Round]: halves away from zero, the sign kept. *)
Definition float_round (f : float64) : float64 :=
  match f with
  | S754_finite s m e =>
      if 0 <=? e then f
      else let n := (2 * Zpos m + 2 ^ (- e)) / 2 ^ (1 - e) in
           if n =? 0 then S754_zero s else float_of_int (if s then - n else n)
  | _ => f
  end.

Definition float_abs (f : float64) : float64 := SFabs f.

(** [%.3f]: thousandths of the exact value, ties to even. *)
Definition thousandths (m : positive) (e : Z) : Z :=
  if 0 <=? e then 1000 * Zpos m * 2 ^ e
  else let q := 1000 * Zpos m / 2 ^ (- e) in
       let r := 1000 * Zpos m mod 2 ^ (- e) in
       if (2 ^ (- e) <? 2 * r) || ((2 * r =? 2 ^ (- e)) && Z.odd q) then q + 1 else q.

Definition format_f3 (f : float64) : string :=
  let text (s : bool) (t : Z) := (if s then "-" else "") +:+ decimal (t / 1000) +:+ "." +:+ format_padded 3 (t mod 1000) in
  match f with
  | S754_zero s => text s 0
  | S754_infinity s => if s then "-Inf" else "+Inf"
  | S754_nan => "NaN"
  | S754_finite s m e => text s (thousandths m e)
  end.

Record ArtifactReference := mkArtifact { ar_Kind : string; ar_ID : string; ar_Note : string }.

(** A citation of an edge is the edge. *)
Record Finding := mkFinding {
  fi_ID : string;
  fi_Statement : string;
  fi_Status : string;
  fi_Confidence : string;
  fi_Supporting : list Edge;
  fi_Contradicting : list Edge;
  fi_CitedNodeIDs : list string;
  fi_Notes : string;
}.

Record Recommendation := mkRecommendation {
  rc_ID : string;
  rc_Kind : string;
  rc_Title : string;
  rc_Rationale : string;
  rc_ExpectedEffects : list (string * float64);
  rc_Evidence : list ArtifactReference;
  rc_RequiresHumanApproval : bool;
  rc_LifecycleAction : string;
  rc_Safety : string;
}.

Record EvidenceSummary := mkEvidenceSummary {
  es_GraphNodes : Z;
  es_GraphEdges : Z;
  es_SupportingEdges : Z;
  es_ContradictingEdges : Z;
  es_ReplayRuns : Z;
  es_CostSimulations : Z;
  es_FindingsWithConflict : Z;
}.

Record Investigation := mkInvestigation {
  iv_IncidentID : string;
  iv_GeneratedAt : time;
  iv_Engine : string;
  iv_Status : string;
  iv_Summary : string;
  iv_Findings : list Finding;
  iv_Recommendations : list Recommendation;
  iv_Evidence : EvidenceSummary;
  iv_Disclaimer : string;
}.

(** ** Findings *)

Definition hypothesisRelations (id : string) : list string :=
  if bool_decide (id = "recent-change-associated")
  then ["change-precedes-error"; "structured-change-precedes-error"; "recovery-after-rollback"]
  else if bool_decide (id = "latency-before-errors") then ["latency-precedes-error"]
  else if bool_decide (id = "sustained-degradation")
  then ["latency-precedes-error"; "recovery-signal"; "recovery-after-rollback"]
  else [].

Definition confidence (support contradiction : Z) : string :=
  if support =? 0 then "insufficient"
  else if 0 <? contradiction then "mixed"
  else if 4 <=? support then "high" else if 2 <=? support then "medium" else "low".

Definition cited (relations : list string) (assessment : string) (edges : list Edge) : list Edge :=
  filter (fun edge => ed_Relation edge ∈ relations /\ ed_Assessment edge = assessment) edges.

Definition endpoints (edges : list Edge) : gset string := list_to_set (edges ≫= fun edge => [ed_From edge; ed_To edge]).

Definition findingFromHypothesis (h : hypothesisRecord) (graph : Graph) : Finding :=
  let relations := hypothesisRelations (hy_ID h) in
  let supporting := cited relations AssessmentSupporting (gr_Edges graph) in
  let contradicting := cited relations AssessmentContradicting (gr_Edges graph) in
  mkFinding (hy_ID h) (hy_Statement h)
    (if zlen supporting =? 0 then "insufficient" else if 0 <? zlen contradicting then "mixed" else "supported")
    (confidence (zlen supporting) (zlen contradicting)) supporting contradicting
    (sort_strings (elements (endpoints (supporting ++ contradicting)))) (hy_Notes h).

Definition findingScore (finding : Finding) : Z :=
  zlen (fi_Supporting finding) * 10 - zlen (fi_Contradicting finding) * 4 +
  (if bool_decide (fi_Confidence finding = "high") then 3
   else if bool_decide (fi_Confidence finding = "medium") then 2
   else if bool_decide (fi_Confidence finding = "low") then 1 else 0).

(** ** Recommendations *)

(** Descending order of a number. *)
Definition descending {A} (f : A -> Z) (a b : A) : Prop := f b <= f a.

#[export] Instance descending_dec {A} (f : A -> Z) a b : Decision (descending f a b).
Proof. unfold descending. apply _. Defined.

(** The first of those that started last. *)
Definition latestReplay (incidentID : string) (runs : list Run) : option Run :=
  head (merge_sort (descending run_StartedAt) (filter (fun run => run_IncidentID run = incidentID) runs)).

Definition latestCost (incidentID : string) (simulations : list Simulation) : option Simulation :=
  head (merge_sort (descending si_StartedAt) (filter (fun s => si_IncidentID s = incidentID) simulations)).

Definition percentageReduction (before after : float64) : float64 :=
  if (before <=? float_zero)%F then float_zero
  else
    let value := ((before - after) / before * float_of_int 100)%F in
    if (float_abs value <? float_ratio 5 100)%F then float_zero
    else (float_round (value * float_of_int 10) / float_of_int 10)%F.

Definition recommend (latest : Simulation) (latestReplay : option Run) (byteReduction seriesReduction : float64) : Recommendation :=
  let safety := "Recommendation is advisory only. TelemetryForge will not mutate or promote production policy automatically." in
  let cost := mkArtifact "cost-simulation" (si_ID latest)
                "Directional frozen-incident projection; not a vendor bill or capacity guarantee." in
  let '(evidence, safety) :=
    match latestReplay with
    | Some run =>
        if bool_decide (run_Status run = "completed") && negb (bool_decide (run_ShadowVersion run = "")) then
          ([cost; mkArtifact "replay" (run_ID run)
              ("Replay completed over " +:+ format_d (run_EventCount run) +:+ " events with " +:+ format_d (run_ShadowDiffCount run) +:+
               " shadow differences and " +:+ format_d (run_QuarantinedCount run) +:+ " quarantined events.")],
           if 0 <? run_QuarantinedCount run
           then safety +:+ " Replay contains quarantined events; review them before any promotion." else safety)
        else ([cost], safety +:+ " No completed shadow replay was found; run Incident Replay before promotion.")
    | None => ([cost], safety +:+ " No completed shadow replay was found; run Incident Replay before promotion.")
    end in
  mkRecommendation ("evaluate-shadow-policy-" +:+ si_ID latest) "policy_evaluation"
    "Evaluate the recorded shadow policy for controlled promotion"
    ("The latest recorded cost simulation for this incident projects " +:+ format_f1 byteReduction +:+ "% lower canonical bytes and " +:+
     format_f1 seriesReduction +:+ "% lower sampled series under shadow policy " +:+ si_ShadowPolicy latest +:+ "@" +:+
     si_ShadowVersion latest +:+ " relative to the active-policy sample.")
    [("canonical_bytes_reduction_percent", byteReduction); ("sample_series_reduction_percent", seriesReduction)]
    evidence true "shadow -> evidence review -> approval -> activation" safety.

Definition recommendations (incidentID : string) (runs : list Run) (simulations : list Simulation) : list Recommendation :=
  match latestCost incidentID simulations with
  | None => []
  | Some latest =>
      if bool_decide (si_ShadowVersion latest = "") || negb (bool_decide (si_Error latest = None)) then []
      else
        let activeBytes := float_of_int (pf_Bytes (si_Active latest)) in
        let shadowBytes := float_of_int (pf_Bytes (si_Shadow latest)) in
        let activeSeries := float_of_int (pf_Series (si_Active latest)) in
        let shadowSeries := float_of_int (pf_Series (si_Shadow latest)) in
        if (activeBytes <=? float_zero)%F || (activeSeries <=? float_zero)%F then []
        else
          let byteReduction := percentageReduction activeBytes shadowBytes in
          let seriesReduction := percentageReduction activeSeries shadowSeries in
          if (byteReduction <? float_of_int 5)%F && (seriesReduction <? float_of_int 5)%F then []
          else [recommend latest (latestReplay incidentID runs) byteReduction seriesReduction]
  end.

(** ** The investigation *)

Definition backed (finding : Finding) : Prop := fi_Supporting finding <> [] \/ fi_Contradicting finding <> [].

#[local] Instance edge_eq_dec : EqDecision Edge.
Proof. solve_decision. Defined.
#[local] Instance backed_dec finding : Decision (backed finding).
Proof. unfold backed. apply _. Defined.

Definition Investigate (now : time) (graph : Graph) (runs : list Run) (simulations : list Simulation) : Investigation :=
  let found := filter backed ((fun h => findingFromHypothesis h graph) <$> gr_Hypotheses graph) in
  let findings := merge_sort (descending findingScore) found in
  let supported := zlen (filter (fun f => fi_Status f = "supported") findings) in
  let mixed := zlen (filter (fun f => fi_Status f = "mixed") findings) in
  let '(status, summary) :=
    if (supported =? 0) && (mixed =? 0) then
      ("insufficient_evidence",
       "The captured evidence does not support a sufficiently strong built-in causal hypothesis. Review the cited timeline and collect additional evidence before changing production behavior.")
    else if 0 <? mixed then
      ("mixed_evidence",
       "The incident contains evidence-backed investigative leads, but at least one lead also has contradictory evidence. Treat the findings as hypotheses requiring operator review.")
    else
      ("evidence_supported",
       "The incident contains one or more evidence-supported investigative leads. TelemetryForge is reporting associations and observed sequence, not declaring root cause.") in
  mkInvestigation (gr_IncidentID graph) now "deterministic-evidence-synthesis-v1" status summary findings
    (recommendations (gr_IncidentID graph) runs simulations)
    (mkEvidenceSummary (zlen (gr_Nodes graph)) (zlen (gr_Edges graph)) (sm_SupportingEdges (gr_Summary graph))
       (sm_ContradictingEdges (gr_Summary graph))
       (zlen (filter (fun run => run_IncidentID run = gr_IncidentID graph) runs))
       (zlen (filter (fun s => si_IncidentID s = gr_IncidentID graph) simulations))
       (zlen (filter (fun f => fi_Contradicting f <> [] /\ fi_Supporting f <> []) found)))
    "Findings summarize captured evidence. Association, sequence, replay, and cost effects are not proof of root cause. Production changes require explicit human review and lifecycle promotion.".

(** ** Comparing incidents *)

Record Comparison := mkComparison {
  cp_LeftIncidentID : string;
  cp_RightIncidentID : string;
  cp_GeneratedAt : time;
  cp_Similarity : float64;
  cp_Status : string;
  cp_SharedSources : list string;
  cp_SharedEventTypes : list string;
  cp_SharedHypotheses : list string;
  cp_SharedChangeVersions : list string;
  cp_LeftCitedNodeIDs : list string;
  cp_RightCitedNodeIDs : list string;
  cp_Notes : list string;
  cp_Disclaimer : string;
}.

Definition version_keys : list string := ["version"; "telemetryforge.version"; "git_sha"; "telemetryforge.git_sha"].

Definition filled_set (values : list string) : gset string := list_to_set (filter (fun v => v <> "") values).

Definition node_versions (node : Node) : list string :=
  if bool_decide (nd_Kind node = "change") then
    version_keys ≫= fun key => let value := tag_of (nd_Attributes node) key in
                               if bool_decide (value = "") then [] else [key +:+ ":" +:+ value]
  else [].

Definition graphFeatures (graph : Graph) : gset string * gset string * gset string * gset string :=
  (filled_set (nd_Source <$> gr_Nodes graph), filled_set (nd_EventType <$> gr_Nodes graph),
   list_to_set (hy_ID <$> filter (fun h => hy_Status h <> "insufficient") (gr_Hypotheses graph)),
   list_to_set (gr_Nodes graph ≫= node_versions)).

Definition shared (left_ right_ : gset string) : list string := sort_strings (elements (left_ ∩ right_)).

Definition jaccard (left_ right_ : gset string) : float64 :=
  let union := Z.of_nat (size (left_ ∪ right_)) in
  if union =? 0 then float_zero else float_ratio (Z.of_nat (size (left_ ∩ right_))) union.

Definition included (sources types changes : list string) (node : Node) : bool :=
  bool_decide (nd_Source node ∈ sources) || bool_decide (nd_EventType node ∈ types) ||
  (bool_decide (nd_Kind node = "change") &&
   existsb (fun key => bool_decide (key +:+ ":" +:+ default "" (nd_Attributes node !! key) ∈ changes)) version_keys).

(** The loop stops once it has a hundred. *)
Definition citedNodes (graph : Graph) (sources types changes : list string) : list string :=
  sort_strings (take 100 (nd_ID <$> filter (fun node => included sources types changes node = true) (gr_Nodes graph))).

Definition round3 (value : float64) : float64 := (float_round (value * float_of_int 1000) / float_of_int 1000)%F.

Definition similarity (sources types hypotheses changes : float64) : float64 :=
  round3 (sources * float_ratio 30 100 + types * float_ratio 25 100 + hypotheses * float_ratio 35 100 + changes * float_ratio 10 100)%F.

Definition Compare (now : time) (left_ right_ : Graph) : Comparison :=
  let '(leftSources, leftTypes, leftHypotheses, leftChanges) := graphFeatures left_ in
  let '(rightSources, rightTypes, rightHypotheses, rightChanges) := graphFeatures right_ in
  let sources := shared leftSources rightSources in
  let types := shared leftTypes rightTypes in
  let changes := shared leftChanges rightChanges in
  let sourceScore := jaccard leftSources rightSources in
  let typeScore := jaccard leftTypes rightTypes in
  let hypothesisScore := jaccard leftHypotheses rightHypotheses in
  let changeScore := jaccard leftChanges rightChanges in
  let score := similarity sourceScore typeScore hypothesisScore changeScore in
  let '(status, notes) :=
    if (zlen (gr_Nodes left_) =? 0) || (zlen (gr_Nodes right_) =? 0)
    then ("insufficient_evidence", ["One incident has no graph nodes; comparison is not meaningful."])
    else if (score >=? float_ratio 70 100)%F then ("strong_overlap", [])
    else if (score >=? float_ratio 40 100)%F then ("partial_overlap", [])
    else if (score >? float_zero)%F then ("limited_overlap", [])
    else ("insufficient_evidence", ["No shared evidence features were found by the built-in comparison model."]) in
  mkComparison (gr_IncidentID left_) (gr_IncidentID right_) now score status sources types
    (shared leftHypotheses rightHypotheses) changes (citedNodes left_ sources types changes) (citedNodes right_ sources types changes)
    (notes ++ ["Similarity components: sources " +:+ format_f3 sourceScore +:+ ", event types " +:+ format_f3 typeScore +:+
               ", hypotheses " +:+ format_f3 hypothesisScore +:+ ", change versions " +:+ format_f3 changeScore +:+ "."])
    "Similarity indicates overlapping captured evidence, not shared root cause.".

(** ** What an investigation promises *)

Definition grounded (graph : Graph) (f : Finding) : Prop :=
  backed f /\
  (forall e, e ∈ fi_Supporting f <-> e ∈ gr_Edges graph /\ ed_Relation e ∈ hypothesisRelations (fi_ID f) /\ ed_Assessment e = AssessmentSupporting) /\
  (forall e, e ∈ fi_Contradicting f <-> e ∈ gr_Edges graph /\ ed_Relation e ∈ hypothesisRelations (fi_ID f) /\ ed_Assessment e = AssessmentContradicting) /\
  (forall id, id ∈ fi_CitedNodeIDs f <-> exists e, (e ∈ fi_Supporting f \/ e ∈ fi_Contradicting f) /\ (id = ed_From e \/ id = ed_To e)) /\
  (fi_Status f = "supported" <-> fi_Supporting f <> [] /\ fi_Contradicting f = []) /\
  (fi_Status f = "mixed" <-> fi_Supporting f <> [] /\ fi_Contradicting f <> []).

Lemma cited_in relations assessment edges e :
  e ∈ cited relations assessment edges <-> e ∈ edges /\ ed_Relation e ∈ relations /\ ed_Assessment e = assessment.
Proof. unfold cited. rewrite list_elem_of_filter. tauto. Qed.

Lemma endpoints_in edges id : id ∈ endpoints edges <-> exists e, e ∈ edges /\ (id = ed_From e \/ id = ed_To e).
Proof.
  unfold endpoints. rewrite elem_of_list_to_set, list_elem_of_bind. split.
  - intros (e & Hid & He). exists e. split; [done|]. rewrite !elem_of_cons, elem_of_nil in Hid. tauto.
  - intros (e & He & Hid). exists e. split; [|done]. rewrite !elem_of_cons. tauto.
Qed.

Lemma sort_strings_in l x : x ∈ sort_strings l <-> x ∈ l.
Proof. unfold sort_strings. by rewrite merge_sort_Permutation. Qed.

Lemma zlen_eqb_zero {A} (l : list A) : (zlen l =? 0) = true <-> l = [].
Proof. unfold zlen. destruct l; cbn; [done|]. split; [|done]. intros H%Z.eqb_eq. lia. Qed.

Lemma finding_grounded h graph : backed (findingFromHypothesis h graph) -> grounded graph (findingFromHypothesis h graph).
Proof.
  intros Hb. split; [done|]. unfold findingFromHypothesis. cbn.
  set (S := cited _ _ _). set (C := cited _ AssessmentContradicting _). split_and!.
  - intros e. apply cited_in.
  - intros e. apply cited_in.
  - intros id. rewrite sort_strings_in, elem_of_elements, endpoints_in. by setoid_rewrite elem_of_app.
  - destruct S as [|s S]; cbn; [by split; [|intros []]|]. destruct C; cbn; split; try done; by intros [].
  - destruct S as [|s S]; cbn; [by split; [|intros []]|]. destruct C; cbn; split; try done; by intros [].
Qed.

#[local] Instance descending_total {A} (f : A -> Z) : Total (descending f).
Proof. intros a b. unfold descending. lia. Qed.
#[local] Instance descending_trans {A} (f : A -> Z) : Transitive (descending f).
Proof. intros a b c. unfold descending. lia. Qed.

(** The first of a descending sort is the largest. *)
Lemma head_descending {A} (f : A -> Z) l a : head (merge_sort (descending f) l) = Some a -> a ∈ l /\ forall b, b ∈ l -> f b <= f a.
Proof.
  pose proof (merge_sort_Permutation (descending f) l) as Hp. pose proof (StronglySorted_merge_sort (descending f) l) as Hs.
  destruct (merge_sort _ l) as [|x rest]; [done|]. intros [= ->]. apply StronglySorted_inv in Hs as [_ Hs]. split.
  - rewrite <- Hp. by left.
  - intros b. rewrite <- Hp. intros [->|Hb]%elem_of_cons; [lia|]. rewrite Forall_forall in Hs. by apply Hs.
Qed.

(** What a recommendation rests on: the latest simulation of the incident, which succeeded under a shadow policy, and only
    completed replays of the incident. *)
Definition rests_on (incidentID : string) (runs : list Run) (simulations : list Simulation) (r : Recommendation) : Prop :=
  exists s, s ∈ simulations /\ si_IncidentID s = incidentID /\ si_Error s = None /\ si_ShadowVersion s <> "" /\
    (forall s', s' ∈ simulations -> si_IncidentID s' = incidentID -> si_StartedAt s' <= si_StartedAt s) /\
    (exists a, a ∈ rc_Evidence r /\ ar_Kind a = "cost-simulation" /\ ar_ID a = si_ID s) /\
    forall a, a ∈ rc_Evidence r -> ar_Kind a = "replay" ->
      exists run, run ∈ runs /\ run_IncidentID run = incidentID /\ run_ID run = ar_ID a /\ run_Status run = "completed".

Lemma recommendations_backed incidentID runs simulations r : r ∈ recommendations incidentID runs simulations ->
  rc_RequiresHumanApproval r = true /\ rests_on incidentID runs simulations r.
Proof.
  unfold recommendations. destruct (latestCost incidentID simulations) as [s|] eqn:Es; [|by intros []%elem_of_nil].
  destruct (_ || _) eqn:E; [by intros []%elem_of_nil|]. apply orb_false_iff in E as [Hv%bool_decide_eq_false He%negb_false_iff%bool_decide_eq_true].
  cbv zeta. destruct (_ || _); [by intros []%elem_of_nil|]. destruct (_ && _); [by intros []%elem_of_nil|]. intros ->%list_elem_of_singleton.
  apply head_descending in Es as [[Hid Hin]%list_elem_of_filter Hmax]. split.
  { unfold recommend. by destruct (match latestReplay incidentID runs with Some _ => _ | None => _ end). }
  exists s. split_and!; try done.
  - intros s' Hs' Hid'. apply Hmax. by apply list_elem_of_filter.
  - unfold recommend. destruct (latestReplay incidentID runs) as [run|]; [destruct (bool_decide _ && _)|]; cbn; eexists; (split; [by left|done]).
  - unfold recommend. destruct (latestReplay incidentID runs) as [run|] eqn:Er; [destruct (bool_decide _ && _) eqn:Ec|]; cbn; intros a;
      rewrite ?elem_of_cons, ?elem_of_nil; intros [->|Ha]; try done; [|by destruct Ha..]. destruct Ha as [->|[]]. intros _.
    apply head_descending in Er as [[Hrid Hr]%list_elem_of_filter _]. apply andb_true_iff in Ec as [Ec%bool_decide_eq_true _].
    exists run. done.
Qed.

Lemma no_finding_matches {A} (P : A -> Prop) `{!forall x, Decision (P x)} l : (zlen (filter P l) =? 0) = true <-> forall x, x ∈ l -> ~ P x.
Proof.
  rewrite zlen_eqb_zero. split.
  - intros Hn x Hx Hp. assert (x ∈ filter P l) as Hf by (by apply list_elem_of_filter). rewrite Hn in Hf. by apply elem_of_nil in Hf.
  - intros Hn. destruct (filter P l) as [|x rest] eqn:E; [done|]. assert (x ∈ filter P l) as [Hp Hx]%list_elem_of_filter by (rewrite E; by left).
    by destruct (Hn x Hx).
Qed.

Lemma investigation_status now graph runs simulations : let investigation := Investigate now graph runs simulations in
  iv_Status investigation = "evidence_supported" <->
  (exists f, f ∈ iv_Findings investigation /\ fi_Status f = "supported") /\
  forall f, f ∈ iv_Findings investigation -> fi_Status f <> "mixed".
Proof.
  unfold Investigate. set (findings := merge_sort _ _). set (nsup := zlen (filter (fun f => fi_Status f = "supported") findings)).
  set (nmix := zlen (filter (fun f => fi_Status f = "mixed") findings)).
  pose proof (no_finding_matches (fun f => fi_Status f = "supported") findings) as Hs. fold nsup in Hs.
  pose proof (no_finding_matches (fun f => fi_Status f = "mixed") findings) as Hm. fold nmix in Hm.
  assert (0 <= nmix) as Hpos by (unfold nmix, zlen; lia).
  destruct (nmix =? 0) eqn:Em.
  - rewrite andb_true_r. apply Z.eqb_eq in Em. rewrite Em. destruct (nsup =? 0) eqn:Es; cbn.
    + split; [done|]. intros [(f & Hf & Hst) _]. by destruct (proj1 Hs eq_refl f Hf).
    + split; [|done]. intros _. split; [|by apply Hm].
      destruct (filter (fun f => fi_Status f = "supported") findings) as [|f rest] eqn:Ef.
      { unfold nsup in Es. rewrite ?Ef in Es. discriminate Es. }
      exists f. assert (f ∈ filter (fun f => fi_Status f = "supported") findings) as [H1 H2]%list_elem_of_filter by (rewrite Ef; by left). done.
  - rewrite andb_false_r. apply Z.eqb_neq in Em. destruct (Z.ltb_spec 0 nmix); [|lia]. cbn. split; [done|]. intros [_ Hno].
    apply Hm in Hno. done.
Qed.


(** Every edge cited in the investigation of an incident's own graph is true of the captured data. *)
Corollary cited_edges_justified w1 w2 w3 w4 now now' tenantID incidentID events runs simulations changes :
  (forall walk, walk ∈ [w1; w2; w3; w4] -> forall m, walk m ≡ₚ map_to_list m) ->
  let graph := BuildWithChanges w1 w2 w3 w4 now tenantID incidentID events runs simulations changes in
  forall f e, f ∈ iv_Findings (Investigate now' graph runs simulations) -> e ∈ fi_Supporting f ++ fi_Contradicting f ->
  justified incidentID events runs simulations changes e.
Proof.
  intros Hw graph f e Hf He. apply (edges_justified w1 w2 w3 w4 now tenantID incidentID events runs simulations changes Hw). fold graph. revert Hf. unfold Investigate.
  destruct (if _ && _ then _ else _). cbn. rewrite merge_sort_Permutation, list_elem_of_filter, list_elem_of_fmap.
  intros (_ & h & -> & _). unfold findingFromHypothesis in He. cbn [fi_Supporting fi_Contradicting] in He. rewrite elem_of_app, !cited_in in He. tauto.
Qed.

(** Comparing is symmetric, but for the sides. *)
Lemma compare_symmetric now a b : let ab := Compare now a b in let ba := Compare now b a in
  cp_Similarity ab = cp_Similarity ba /\ cp_Status ab = cp_Status ba /\ cp_SharedSources ab = cp_SharedSources ba /\
  cp_SharedEventTypes ab = cp_SharedEventTypes ba /\ cp_SharedHypotheses ab = cp_SharedHypotheses ba /\
  cp_SharedChangeVersions ab = cp_SharedChangeVersions ba /\ cp_LeftCitedNodeIDs ab = cp_RightCitedNodeIDs ba /\
  cp_Notes ab = cp_Notes ba.
Proof.
  assert (forall x y : gset string, x ∩ y = y ∩ x /\ x ∪ y = y ∪ x) as Hc by (intros x y; set_solver).
  assert (forall x y : gset string, shared x y = shared y x) as Hs by (intros x y; unfold shared; by destruct (Hc x y) as [-> _]).
  assert (forall x y : gset string, jaccard x y = jaccard y x) as Hj by (intros x y; unfold jaccard; by destruct (Hc x y) as [-> ->]).
  cbv zeta. unfold Compare. destruct (graphFeatures a) as [[[sa ta] ha] ca], (graphFeatures b) as [[[sb tb] hb] cb].
  rewrite (Hs sa sb), (Hs ta tb), (Hs ca cb), (Hs ha hb), (Hj sa sb), (Hj ta tb), (Hj ha hb), (Hj ca cb), (orb_comm (zlen (gr_Nodes a) =? 0)).
  destruct (if _ || _ then _ else _). done.
Qed.
